(* ===== verification/_CoqProject ===== *)
-Q . S2P
Prelude.v
RustStr.v
Bytes.v
BTreeMap.v
Glob.v
Policy.v
Evidence.v
Nkey.v
Schema.v
CatalogLoader.v
Json.v
Accounts.v
SubjectLoader.v
PolicyLoader.v
Actor.v
Pdp.v
Authorization.v
Decision.v
Challenge.v
ChallengeRate.v
RunQuota.v
NixFingerprint.v
StrictCodec.v
Revocation.v
Capability.v
CoseTypes.v
Cbor.v
InvocationBody.v
CoseCodec.v
CoseCbor.v
CoseCodecProofs.v
CoseStrict.v
CoseExact.v
CoseProfile.v
CoseDisplay.v
SealedClient.v
CoseProfileProofs.v
RustCrypto.v
LocalCrypto.v
Stream.v
StreamProofs.v
Backend.v
CryptoProvider.v
CiFederation.v
CiVerify.v
JwksCache.v
CiSample.v
CiAudit.v
CustodyProofs.v
Xkey.v
Manager.v
ManagerProofs.v
Transport.v
Service.v
InvocationService.v
InvocationProofs.v
InvocationReplay.v
InvocationSigning.v
InvocationClient.v
InvocationAudit.v
ServiceProofs.v
NixCache.v
Sample.v
EndToEnd.v
Scenario.v
InvocationScenario.v
