(* ===== verification/Prelude.v ===== *)
(** * Basil: a verification development of the broker

    Basil is a secrets broker.  A local process, a courier or a sealed
    invocation asks it to use a key; the broker decides from a catalog (which
    keys exist and what they are), a policy (which subjects may do what with
    which keys) and the evidence it holds about the caller, and then has a
    backend or its own software custody do the work.

    ** The parts and how they interact

    All paths are below [crates/].  [load] ([basil-core/src/core/catalog/
    loader.rs]) turns two JSON documents into a validated catalog and a
    resolved policy, which a reload swaps in as one generation.  A request
    reaches a handler of [service/]; [authorize] ([transport/mod.rs]) resolves
    the peer's evidence to one subject ([evidence.rs], [actor.rs]) and asks the
    decision point ([pdp.rs]).  An allowed handler asks the backend manager
    ([manager.rs]), which routes to a backend ([backend/mod.rs]) or to the
    local-software provider ([crypto_provider.rs]) and its cryptography
    ([x25519_seal.rs], [ed25519_sign.rs], [ml_dsa_sign.rs],
    [ml_kem_envelope.rs]).  Messages between parties use the COSE profile of
    [basil-cose]; bulk data the stream format of [basil-client/src/stream].
    A remote caller has no socket: it seals a request to the broker and signs
    it ([basil-client/src/sealed_invocation.rs]), a courier carries it, and
    [service/invocation.rs] verifies it, resolves the signer or the CI token it
    presents ([ci_federation.rs]) to a subject, charges the run's quota, asks
    the decision point, signs, seals the answer and closes one audit record
    ([ci_federation_audit.rs]).  The challenge table makes these requests fresh
    ([challenge.rs]).  Beside this path stand the JWT-SVID deny-list
    ([revocation.rs]) and the startup check that backends can serve the catalog
    ([capability.rs]).

    ** Files

    Foundations:
    - [Prelude]: Rust's [Result] and its [?] and early-return notations, loops,
      machine integers with saturating operations, tactics, hint database.
    - [RustStr], [Bytes]: the functions of Rust's [str] and byte slices the
      sources use.  [BTreeMap]: ordered maps and sets as sorted lists, the
      classes [Ord] and [OrdLaws], stable sorting.

    Authorization core ([basil-core/src/core]):
    - [Glob]: [catalog/glob.rs].  [Policy]: [catalog/policy.rs].
    - [Evidence]: [catalog/evidence.rs], from [evaluate] to [resolve_subject].
    - [Nkey]: the public-key codec of [basil-nats/src/lib.rs].
    - [Schema]: [catalog/schema.rs] and the key types of [basil-proto].
    - [CatalogLoader], [Json], [Accounts], [SubjectLoader], [PolicyLoader]:
      [catalog/loader.rs] in its stages: [validate_catalog], the visitors that
      refuse duplicate keys, [read_stable_account_file] and
      [parse_account_file], [compile_expression] and [parse_subjects], and
      [parse_rules], [build_resolved] and [load].
    - [Actor]: [actor.rs] and the peer record of [peer.rs].
    - [Pdp]: [catalog/pdp.rs].  [Authorization]: loading, resolving and deciding
      composed as the broker composes them.  [Decision]: [decision.rs].
    - [Challenge], [ChallengeRate]: [challenge.rs], its table and its meters.
      [RunQuota]: the per-run quota table of [ci_federation.rs].
    - [Revocation]: [revocation.rs].  [Capability]: [capability.rs].

    COSE profile ([basil-cose/src]):
    - [CoseTypes]: labels, identifiers, claims and their validation.
    - [Cbor]: the structural precheck, against an inductive item syntax.
    - [CoseCodec]: the deterministic encoder and strict decoder over the class
      [Minicbor]; [CoseCbor] is that class's RFC 8949 instance and laws.
      [CoseCodecProofs], [CoseStrict], [CoseExact] prove decoding exact.
    - [CoseProfile]: building, verifying and opening messages, and the local
      key types; [CoseProfileProofs] their properties.  [CoseDisplay]: the
      error texts of [error.rs].

    Cryptography, streams and custody:
    - [RustCrypto]: the class of primitives with their documented laws.
      [LocalCrypto]: the broker's four local modules.
    - [Stream], [StreamProofs]: the client's stream format.
    - [Backend]: the backend trait as typed calls, and programs over them.
      [CryptoProvider], [CustodyProofs]: provider selection, custody records,
      the two providers.  [Xkey]: the NATS box of [basil-nats].
    - [Manager], [ManagerProofs]: [manager.rs].

    Services ([basil-core/src/service], [transport]):
    - [Transport]: [authorize] and what it reads, as programs with effects.
    - [Service]: the secret, signing and AEAD handlers.  [ServiceProofs]: a
      logic of handler programs and what it shows of them.
    - [CiFederation]: the provider catalog of [ci_federation.rs] and its
      validation.  [CiVerify]: key sets, proof keys and token verification.
      [JwksCache]: the cache of provider keys.  [CiAudit]: the audit event of
      [ci_federation_audit.rs] and its transitions.  [CiSample]: a concrete
      provider catalog and token.
    - [InvocationBody]: [basil-proto/src/invocation.rs].  [SealedClient]:
      [basil-client/src/sealed_invocation.rs].  [InvocationService]:
      [service/invocation.rs], its three handlers as programs with effects.
      [InvocationProofs]: a logic of these programs over the history of their
      effects, and what a released signature requires.  [InvocationReplay]:
      many calls interleaved over the shared tables.  [InvocationSigning]:
      where a run signs and what it then returns.  [InvocationClient]: the
      client that prepares a request and reads the broker's answer.
      [InvocationAudit]: the audit cell.
      [InvocationScenario]: a concrete client and broker, run.
    - [NixFingerprint]: [core/nix_cache_fingerprint.rs].  [StrictCodec]:
      [basil-proto/src/codec.rs].  [NixCache]: [service/nix_cache.rs] and the
      event of [core/nix_cache_audit.rs].
    - [Sample]: a concrete backend.  [EndToEnd]: client, services, manager and
      custody composed.  [Scenario]: a concrete broker, run.

    Definitions keep the source's names; a name that Rust scopes to a type
    carries the type as a prefix ([KeyGlob_parse]), and one that several modules
    declare carries the module's ([manager_sign], [grpc_sign]).  A function that
    mutates its receiver returns the new state; one that returns [Result]
    returns [result].  Strings are byte strings, [BTreeMap]s sorted lists,
    [HashMap]s [gmap]s whose iteration order is left open, clocks explicit
    arguments.  Asynchronous code is a free monad: [Prog] over backend calls and
    random draws, [Svc] over loads of the serving generation, audit effects and
    manager programs, [Inv] over those of a sealed invocation; a theorem over every answer covers every interleaving at
    those points.

    ** What the theorems show

    - End to end ([Authorization]): an allowed request traces back to a
      validated key, evidence that proves the actor's subject and no other, and
      a rule of the policy document or a public read; and what [load] returns
      is safe to decide on.
    - Decision ([Pdp]): [decide] agrees with an order-free specification; the
      caps hold for every actor and policy; explanations, dry runs and the
      effective-permission preview describe enforcement.
    - Resolution ([Evidence]): evaluation is strong Kleene logic; a verified
      signature must be part of the proof; an ambiguous or undecided caller is
      never resolved.
    - Loading: each stage accepts exactly the documents its specification
      admits, and its result is the document's meaning.
    - Codecs ([Glob], [Nkey]): parsing and printing are inverse, and matching
      decides the declarative meaning of a pattern.
    - Challenges: in every history of operations a challenge is consumed at
      most once, stays usable until it expires, the table and its per-key
      counts are bounded, and issuance obeys burst plus rate.
    - Deny-list: an accepted revocation is enforced until its expiry through
      refreshes, failures and poisoned locks; persisting and loading agree.
    - Capabilities: the check reports exactly the fatal unmet requirements.
    - COSE: the precheck accepts exactly well-formed definite-length items and
      terminates; a byte string decodes iff it is the canonical encoding of a
      valid message; verification establishes signer, sender and claims, and
      sealing round-trips.
    - Streams: a stream that decrypts was produced whole, in order and to its
      end; what was encrypted decrypts, also through the broker's services.
    - Custody and manager: provider selection is exact, a custody record binds
      its catalog entry, an operation stays in its key's footprint on its key's
      backend, rotation keeps exactly the grace window and refuses Nix cache
      keys and keys of a value store.
    - Nix cache: the parser admits exactly the canonical texts of well-formed
      path records, the codec exactly the wire forms of complete messages, with
      limits that fit every one; a signature is released only over such a text,
      to an allowed caller, when it verifies under the enrolled key; every
      operation leaves one event.
    - CI federation: a rule is selected exactly when it is the one that fits; a
      verified token was signed by a key of its provider and its claims are
      those of its rule; the cache serves the newest key set and spaces its
      refreshes; a run is never admitted above its quota, in a bounded table.
    - Sealed invocations: a signature is released only after verification, a
      consumed challenge, a charged quota and both decisions; over every
      interleaving of calls a challenge admits one; an answer the client
      accepts is what a run of the broker on that request signs and returns,
      and the client that prepared a request reads the broker's answer to it;
      every audit record is closed exactly once; bodies decode iff they are
      canonical.
    - Services: no backend is asked before the request is authorized, one
      decision is recorded per request, a denial does not tell which keys exist.

    Some theorems record where the code and its documentation differ: subject
    names that collide after trimming, a second revocation that shortens the
    first, a clock that steps back and mints tokens again, the operations the
    effective-permission preview leaves out, [reload] granted by a role, a
    software key that provisioning twice makes unusable, a presenter path that
    is not escaped, and public halves that are read from their own path where
    the documentation derives them from the private half.

    ** Bounds and fuel

    Recursion is structural where the source's is.  Counted loops keep the
    source's counts: four draws in [unused_suffix], 64 records in
    [purge_expired].  Fuel stands for the source's unbounded loops only: the
    item scanner recurses on its remaining depth and counts down bytes, and is
    shown to terminate within them; the stream loops take one step per record
    and get one more than the bytes left, which their totality lemmas show is
    enough; [hex_digits] gets the six digits a code point can have; the field
    loop of the strict codec reads a byte per turn and gets one turn more than
    the bytes, and [read_varint] keeps the source's ten turns.

    ** Parameters

    Third-party code and I/O are arguments of the definitions: [serde_json],
    [minicbor], base32 and base64 codecs, the RustCrypto and dalek primitives,
    SHA-256 and BLAKE3, [prost], the [url], [jsonwebtoken], [hmac] and x509 crates
    ([FederationCrates]), CA files, HTTP answers, randomness and the allocator, file metadata and
    contents, [/proc], the backends' answers, the process that makes a
    self-signed certificate.  Where a theorem needs a fact about one of them
    it is a law of a class or a named hypothesis that states documented
    behaviour, and a witness instantiates it.

    ** Not modelled

    The gRPC handlers other than those above ([service/admin.rs], [jwks.rs],
    [minting.rs], [sds.rs], [spiffe.rs]), the minters, the
    sealed-bundle format ([core/seal]), the reload driver, startup reconcile
    and configuration corpus, the connection and RPC registries, the backend
    adapters, the keystore and its rekey, the Nix cache files, the JWT half of
    [basil-nats], the couriers and the command line tools.  Much of this is
    I/O, but each has checks of its own that the theorems here do not reach.
    The process-wide correlation key of [service/invocation.rs] is an effect
    with its two outcomes; building HTTP clients and tracing are left out. *)

From stdpp Require Export base tactics list strings option.
From Stdlib Require Export ZArith Lia.

#[export] Set Warnings "-clear-no-such-hyp,-register-all".

(** ** Rust's [Result]

    [result E T] is the type of a fallible Rust function that returns
    [Result<T, E>].  The error type comes first so that a component can fix
    it once. *)

Inductive result (E T : Type) : Type :=
| Ok (value : T)
| Err (error : E).

Arguments Ok {E T} value.
Arguments Err {E T} error.

Declare Scope basil_scope.
Delimit Scope basil_scope with basil.
Open Scope basil_scope.

(** The [?] operator: continue with the value or return the error. *)
Notation "'let?' x ':=' c 'in' k" :=
  (match c with
   | Ok x => k
   | Err err => Err err
   end)
  (at level 10, x pattern, c at level 200, k at level 200,
   format "'[v' 'let?'  x  ':='  c  'in' '/' k ']'") : basil_scope.

(** A guard that returns early with an error. *)
Notation "'return_err' e 'when' b 'otherwise' k" :=
  (if (b : bool) then Err e else k)
  (at level 10, e at level 100, b at level 100, k at level 200,
   format "'[v' 'return_err'  e  'when'  b  'otherwise' '/' k ']'") : basil_scope.

Definition is_ok {E T} (r : result E T) : bool :=
  match r with Ok _ => true | Err _ => false end.

Definition map_err {E F T} (f : E → F) (r : result E T) : result F T :=
  match r with Ok x => Ok x | Err e => Err (f e) end.

Definition ok_or {E T} (e : E) (o : option T) : result E T :=
  match o with Some x => Ok x | None => Err e end.

(** [iter().map(f).collect::<Result<Vec<_>, _>>()]: the first error wins. *)
Fixpoint collect_map {A B E} (f : A → result E B) (l : list A) : result E (list B) :=
  match l with
  | [] => Ok []
  | x :: l' =>
      let? y := f x in
      let? ys := collect_map f l' in
      Ok (y :: ys)
  end.

(** A [for] loop whose body may return early with an error. *)
Fixpoint for_each {A S E} (body : S → A → result E S) (l : list A) (st : S) : result E S :=
  match l with
  | [] => Ok st
  | x :: l' =>
      let? st' := body st x in
      for_each body l' st'
  end.

(** [for _ in 0..n] with a body that may return early with an error. *)
Fixpoint for_n {S E} (n : nat) (body : S → result E S) (st : S) : result E S :=
  match n with
  | O => Ok st
  | Datatypes.S n' =>
      let? st' := body st in
      for_n n' body st'
  end.

(** A [for] loop that only checks. *)
Fixpoint check_each {A E} (body : A → result E unit) (l : list A) : result E unit :=
  match l with
  | [] => Ok tt
  | x :: l' =>
      let? _ := body x in
      check_each body l'
  end.

(** ** Tactics and hint database *)

Create HintDb basil.

(** Decompose a hypothesis that says a chain of [let?] and early returns
    ended in [Ok]. *)
Ltac inv_ok_step H :=
  lazymatch type of H with
  | (match ?c with Ok _ => _ | Err _ => _ end) = Ok _ =>
      let E := fresh "E" in destruct c eqn:E; [| discriminate H]
  | (if ?b then Err _ else _) = Ok _ =>
      let E := fresh "E" in destruct b eqn:E; [discriminate H |]
  | (if ?b then _ else Err _) = Ok _ =>
      let E := fresh "E" in destruct b eqn:E; [| discriminate H]
  | Ok _ = Ok _ => injection H as H
  end.
Ltac inv_ok H := repeat (inv_ok_step H; try subst).

(** The same for chains that bind tuples, as a decoder does. *)
Ltac inv_reads_step H :=
  lazymatch type of H with
  | (match ?p with pair _ _ => _ end) = Ok _ =>
      let x := fresh "x" in let d := fresh "d" in destruct p as [x d]
  | Ok _ = Ok _ => first [injection H as H | injection H as ? H]
  | _ => inv_ok_step H
  end.
Ltac inv_reads H := repeat (inv_reads_step H); simplify_eq.

(** Turn boolean facts about decidable tests into propositions. *)
Ltac bool_facts :=
  repeat match goal with
  | H : _ && _ = true |- _ => apply andb_true_iff in H; destruct H
  | H : _ || _ = false |- _ => apply orb_false_iff in H; destruct H
  | H : negb _ = true |- _ => apply negb_true_iff in H
  | H : negb _ = false |- _ => apply negb_false_iff in H
  | H : bool_decide _ = true |- _ => apply bool_decide_eq_true in H
  | H : bool_decide _ = false |- _ => apply bool_decide_eq_false in H
  | H : String.eqb _ _ = true |- _ => apply String.eqb_eq in H
  | H : String.eqb _ _ = false |- _ => apply String.eqb_neq in H
  | H : (_ =? _)%nat = true |- _ => apply Nat.eqb_eq in H
  | H : (_ =? _)%nat = false |- _ => apply Nat.eqb_neq in H
  | H : (_ <? _)%nat = true |- _ => apply Nat.ltb_lt in H
  | H : (_ <? _)%nat = false |- _ => apply Nat.ltb_ge in H
  | H : (_ <=? _)%nat = true |- _ => apply Nat.leb_le in H
  | H : (_ <=? _)%nat = false |- _ => apply Nat.leb_gt in H
  | H : (_ =? _)%N = true |- _ => apply N.eqb_eq in H
  | H : (_ =? _)%N = false |- _ => apply N.eqb_neq in H
  | H : (_ <? _)%N = true |- _ => apply N.ltb_lt in H
  | H : (_ <? _)%N = false |- _ => apply N.ltb_ge in H
  | H : (_ <=? _)%N = true |- _ => apply N.leb_le in H
  | H : (_ <=? _)%N = false |- _ => apply N.leb_gt in H
  | H : (_ <? _)%Z = true |- _ => apply Z.ltb_lt in H
  | H : (_ <? _)%Z = false |- _ => apply Z.ltb_ge in H
  | H : (_ <=? _)%Z = true |- _ => apply Z.leb_le in H
  | H : (_ <=? _)%Z = false |- _ => apply Z.leb_gt in H
  | H : (_ =? _)%Z = true |- _ => apply Z.eqb_eq in H
  | H : (_ =? _)%Z = false |- _ => apply Z.eqb_neq in H
  end.

(** Decide a boolean equality in the goal both ways. *)
Ltac case_string a b :=
  let E := fresh "E" in destruct (String.eqb_spec a b) as [E | E].

(** ** Generic lemmas on results and lists *)

Lemma Ok_inj {E T} (a b : T) : @Ok E T a = Ok b → a = b.
Proof. by intros [= ->]. Qed.

Lemma map_err_ok {E F T} (f : E → F) (r : result E T) x : map_err f r = Ok x ↔ r = Ok x.
Proof. destruct r; simpl; split; congruence. Qed.

Lemma collect_map_ok {A B E} (f : A → result E B) l ys :
  collect_map f l = Ok ys ↔ Forall2 (λ x y, f x = Ok y) l ys.
Proof.
  revert ys; induction l as [| x l IH]; intros ys; simpl.
  - split; intros H; inversion H; subst; constructor.
  - split.
    + intros H. inv_ok H. constructor; [done |]. by apply IH.
    + intros H; inversion H as [| ? y ? ys' Hy Hys]; subst.
      rewrite Hy. apply IH in Hys. by rewrite Hys.
Qed.

Lemma check_each_ok {A E} (body : A → result E unit) l :
  check_each body l = Ok tt ↔ Forall (λ x, body x = Ok tt) l.
Proof.
  induction l as [| x l IH]; simpl; [by split |].
  rewrite Forall_cons_iff. destruct (body x) as [[] | e].
  - rewrite IH. tauto.
  - split; [done | by intros [? _]].
Qed.

Lemma ok_or_Ok {E T} (e : E) (o : option T) x : ok_or e o = Ok x ↔ o = Some x.
Proof. destruct o; simpl; naive_solver. Qed.

Lemma for_each_app {A S E} (body : S → A → result E S) l1 l2 st :
  for_each body (l1 ++ l2) st =
  match for_each body l1 st with
  | Ok st' => for_each body l2 st'
  | Err e => Err e
  end.
Proof.
  revert st; induction l1 as [| x l1 IH]; intros st; simpl; [done |].
  destruct (body st x); [apply IH | done].
Qed.

Lemma for_n_inv {S E} (P : S → Prop) (body : S → result E S) n st st' :
  (∀ s s', P s → body s = Ok s' → P s') → P st → for_n n body st = Ok st' → P st'.
Proof.
  intros Hstep. revert st; induction n as [| n IH]; intros st Hst; simpl.
  - by intros [= <-].
  - destruct (body st) as [s1 | e] eqn:Hb; [| done]. eauto.
Qed.

(** A property kept by the body of a loop holds when the loop ends. *)
Lemma for_each_inv {A S E} (P : S → Prop) (body : S → A → result E S) l st st' :
  (∀ s x s', x ∈ l → P s → body s x = Ok s' → P s') →
  P st → for_each body l st = Ok st' → P st'.
Proof.
  revert st; induction l as [| x l IH]; intros st Hstep Hst; simpl.
  - intros H. by inv_ok H.
  - destruct (body st x) as [s1 | e] eqn:Hb; [| done].
    apply IH.
    + intros s y s' Hy. apply Hstep. by apply list_elem_of_further.
    + eapply Hstep; [apply list_elem_of_here | exact Hst | exact Hb].
Qed.

Lemma existsb_elem {A} (f : A → bool) l :
  existsb f l = true ↔ ∃ x, x ∈ l ∧ f x = true.
Proof. rewrite existsb_exists. by setoid_rewrite list_elem_of_In. Qed.

Lemma forallb_elem {A} (f : A → bool) l :
  forallb f l = true ↔ ∀ x, x ∈ l → f x = true.
Proof. rewrite forallb_forall. by setoid_rewrite list_elem_of_In. Qed.

Lemma find_elem {A} (f : A → bool) l x :
  List.find f l = Some x → x ∈ l ∧ f x = true.
Proof.
  intros H. apply List.find_some in H as [Hin Hf]. by rewrite list_elem_of_In.
Qed.

Lemma find_none_elem {A} (f : A → bool) l :
  List.find f l = None ↔ ∀ x, x ∈ l → f x = false.
Proof.
  split.
  - intros H x Hx. eapply List.find_none; [exact H | by apply list_elem_of_In].
  - induction l as [| y l IH]; intros H; simpl; [done |].
    rewrite (H y) by apply list_elem_of_here.
    apply IH. intros x Hx. apply H. by apply list_elem_of_further.
Qed.

Lemma find_is_existsb {A} (f : A → bool) l :
  is_Some (List.find f l) ↔ existsb f l = true.
Proof.
  rewrite existsb_elem. split.
  - intros [x Hx]. apply find_elem in Hx. eauto.
  - intros (x & Hx & Hf). destruct (List.find f l) eqn:Hfind; [eauto |].
    rewrite find_none_elem in Hfind. rewrite (Hfind x Hx) in Hf. discriminate.
Qed.

Lemma Forall2_elem_r {A B} (P : A → B → Prop) l k y :
  Forall2 P l k → y ∈ k → ∃ x, x ∈ l ∧ P x y.
Proof.
  induction 1 as [| a b l k Hab _ IH]; [by intros ?%not_elem_of_nil |].
  intros [-> | Hy]%elem_of_cons.
  - exists a. split; [apply list_elem_of_here | done].
  - destruct (IH Hy) as (x & Hx & Hp). exists x. split; [by apply list_elem_of_further | done].
Qed.

(** [find] returns the first element that passes. *)
Lemma find_split {A} (f : A → bool) l x :
  List.find f l = Some x ↔
  ∃ before after, l = before ++ x :: after ∧ f x = true ∧ (∀ y, y ∈ before → f y = false).
Proof.
  induction l as [| y l IH]; simpl.
  - split; [done |]. by intros ([] & ? & ? & _).
  - destruct (f y) eqn:Hy.
    + split.
      * intros [= ->]. exists [], l. split_and!; try done. by intros ? ?%not_elem_of_nil.
      * intros ([| z before] & after & Heq & Hx & Hb); simplify_eq/=; [done |].
        rewrite (Hb z) in Hy by apply list_elem_of_here. done.
    + rewrite IH. split.
      * intros (before & after & -> & Hx & Hb). exists (y :: before), after.
        split_and!; try done. by intros z [-> | Hz]%elem_of_cons; [| apply Hb].
      * intros ([| z before] & after & Heq & Hx & Hb); simplify_eq/=; [congruence |].
        exists before, after. split_and!; try done.
        intros w Hw. apply Hb. by apply list_elem_of_further.
Qed.

(** ** Machine integers

    A [u32], [u64], [i64] is a [Z] together with its range; [usize] counts of
    in-memory collections are [nat].  The saturating operations are Rust's. *)

Definition u32_max : Z := 4294967295.
Definition i64_max : Z := 9223372036854775807.
Definition i64_min : Z := -9223372036854775808.
Definition u64_max : Z := 18446744073709551615.

Definition is_u32 (z : Z) : Prop := (0 ≤ z ≤ u32_max)%Z.
Definition is_i64 (z : Z) : Prop := (i64_min ≤ z ≤ i64_max)%Z.
Definition is_u64 (z : Z) : Prop := (0 ≤ z ≤ u64_max)%Z.

Definition clamp_to (lo hi z : Z) : Z := Z.max lo (Z.min hi z).

Definition u32_saturating_add (a b : Z) : Z := Z.min u32_max (a + b).
Definition u32_saturating_mul (a b : Z) : Z := Z.min u32_max (a * b).
Definition u32_checked_sub (a b : Z) : option Z :=
  if (b <=? a)%Z then Some (a - b)%Z else None.
(** [u32::try_from(x).unwrap_or(u32::MAX)] for a non-negative [i64]. *)
Definition u32_try_from_or_max (z : Z) : Z :=
  if (0 <=? z)%Z && (z <=? u32_max)%Z then z else u32_max.
Definition i64_saturating_add (a b : Z) : Z := clamp_to i64_min i64_max (a + b).
Definition i64_saturating_sub (a b : Z) : Z := clamp_to i64_min i64_max (a - b).

Ltac unfold_ints :=
  unfold u32_saturating_add, u32_saturating_mul, u32_checked_sub,
    u32_try_from_or_max, i64_saturating_add, i64_saturating_sub, clamp_to,
    is_u32, is_i64, is_u64, u32_max, u64_max, i64_max, i64_min in *.
