(* ===== verification/RustStr.v ===== *)
(** * Rust's [str]

    A Rust [&str] is a byte string that holds valid UTF-8; it is modelled by
    the Standard Library's [string], one [ascii] per byte, so that [len],
    byte-wise comparison and byte access are the list operations.  This file
    defines the functions of Rust's standard library the broker applies to
    strings: splitting and joining, prefixes and suffixes, the iterator over
    [char]s with [is_control] and [trim], [escape_default], [lines] and the
    integer parsers.  The lemmas at the end are the ones the components
    share. *)

From stdpp Require Import pretty.
From Stdlib Require Strings.Ascii.
From S2P Require Import Prelude.

Export (notations) Stdlib.Strings.Ascii.
Abbreviation ascii := Stdlib.Strings.Ascii.ascii.

Fixpoint bytes (s : string) : list N :=
  match s with
  | EmptyString => []
  | String a s' => Strings.Ascii.N_of_ascii a :: bytes s'
  end.

Fixpoint of_bytes (l : list N) : string :=
  match l with
  | [] => EmptyString
  | b :: l' => String (Strings.Ascii.ascii_of_N b) (of_bytes l')
  end.

Definition is_empty (s : string) : bool :=
  match s with EmptyString => true | _ => false end.

(** ** Splitting on an ASCII character *)

Fixpoint contains_char (c : ascii) (s : string) : bool :=
  match s with
  | EmptyString => false
  | String a s' => Strings.Ascii.eqb a c || contains_char c s'
  end.

(** [s.split(c)]: never yields an empty sequence. *)
Fixpoint split (c : ascii) (s : string) : list string :=
  match s with
  | EmptyString => [EmptyString]
  | String a s' =>
      if Strings.Ascii.eqb a c then EmptyString :: split c s'
      else match split c s' with
           | [] => [String a EmptyString]
           | w :: ws => String a w :: ws
           end
  end.

(** [segments.join(c)] for a one-character separator. *)
Fixpoint join (c : ascii) (l : list string) : string :=
  match l with
  | [] => EmptyString
  | [w] => w
  | w :: ws => w +:+ String c (join c ws)
  end.

(** [s.split_once(c)]. *)
Fixpoint split_once (c : ascii) (s : string) : option (string * string) :=
  match s with
  | EmptyString => None
  | String a s' =>
      if Strings.Ascii.eqb a c then Some (EmptyString, s')
      else match split_once c s' with
           | Some (k, v) => Some (String a k, v)
           | None => None
           end
  end.

(** ** Prefixes and suffixes *)

Fixpoint strip_prefix (p s : string) : option string :=
  match p, s with
  | EmptyString, _ => Some s
  | String a p', String b s' => if Strings.Ascii.eqb a b then strip_prefix p' s' else None
  | String _ _, EmptyString => None
  end.

Definition starts_with (p s : string) : bool :=
  match strip_prefix p s with Some _ => true | None => false end.

(** [s.strip_suffix(p)]: the part of [s] before a final [p]. *)
Fixpoint strip_suffix (p s : string) : option string :=
  if String.eqb s p then Some EmptyString
  else match s with
       | EmptyString => None
       | String a s' =>
           match strip_suffix p s' with
           | Some t => Some (String a t)
           | None => None
           end
       end.

(** ** ASCII byte classes *)

Definition is_ascii_digit (b : N) : bool := ((48 <=? b) && (b <=? 57))%N.
Definition is_ascii_lowercase (b : N) : bool := ((97 <=? b) && (b <=? 122))%N.
Definition is_ascii_uppercase (b : N) : bool := ((65 <=? b) && (b <=? 90))%N.
Definition is_ascii_alphanumeric (b : N) : bool :=
  is_ascii_digit b || is_ascii_lowercase b || is_ascii_uppercase b.
Definition is_ascii_hexdigit (b : N) : bool :=
  is_ascii_digit b || ((97 <=? b) && (b <=? 102))%N || ((65 <=? b) && (b <=? 70))%N.

(** ** The [char]s of a string

    UTF-8 decoding into code points.  The bytes of a Rust [str] are valid
    UTF-8, so the branches for stray bytes are never taken; they yield
    U+FFFD. *)

Definition continuation (b : N) : N := N.land b 63.

Fixpoint decode_utf8 (l : list N) : list N :=
  match l with
  | [] => []
  | b0 :: l1 =>
      if (b0 <? 128)%N then b0 :: decode_utf8 l1
      else if (b0 <? 224)%N then
        match l1 with
        | b1 :: l2 =>
            N.lor (N.shiftl (N.land b0 31) 6) (continuation b1) :: decode_utf8 l2
        | _ => [65533%N]
        end
      else if (b0 <? 240)%N then
        match l1 with
        | b1 :: b2 :: l3 =>
            N.lor (N.shiftl (N.land b0 15) 12)
              (N.lor (N.shiftl (continuation b1) 6) (continuation b2)) :: decode_utf8 l3
        | _ => [65533%N]
        end
      else
        match l1 with
        | b1 :: b2 :: b3 :: l4 =>
            N.lor (N.shiftl (N.land b0 7) 18)
              (N.lor (N.shiftl (continuation b1) 12)
                 (N.lor (N.shiftl (continuation b2) 6) (continuation b3)))
            :: decode_utf8 l4
        | _ => [65533%N]
        end
  end.

Definition chars (s : string) : list N := decode_utf8 (bytes s).

Definition encode_char (c : N) : list N :=
  if (c <? 128)%N then [c]
  else if (c <? 2048)%N then
    [N.lor 192 (N.shiftr c 6); N.lor 128 (N.land c 63)]%N
  else if (c <? 65536)%N then
    [N.lor 224 (N.shiftr c 12); N.lor 128 (N.land (N.shiftr c 6) 63);
     N.lor 128 (N.land c 63)]%N
  else
    [N.lor 240 (N.shiftr c 18); N.lor 128 (N.land (N.shiftr c 12) 63);
     N.lor 128 (N.land (N.shiftr c 6) 63); N.lor 128 (N.land c 63)]%N.

(** Collecting an iterator of [char]s into a [String]. *)
Definition of_chars (l : list N) : string := of_bytes (flat_map encode_char l).

Definition in_range (lo hi b : N) : bool := ((lo <=? b) && (b <=? hi))%N.

(** [str::from_utf8] succeeds: the well-formed byte sequences. *)
Fixpoint is_utf8 (l : list N) : bool :=
  match l with
  | [] => true
  | b0 :: l1 =>
      if (b0 <? 128)%N then is_utf8 l1
      else if in_range 194 223 b0 then
        match l1 with
        | b1 :: l2 => in_range 128 191 b1 && is_utf8 l2
        | _ => false
        end
      else if in_range 224 239 b0 then
        match l1 with
        | b1 :: b2 :: l3 =>
            in_range (if (b0 =? 224)%N then 160 else 128)
                     (if (b0 =? 237)%N then 159 else 191) b1 &&
            in_range 128 191 b2 && is_utf8 l3
        | _ => false
        end
      else if in_range 240 244 b0 then
        match l1 with
        | b1 :: b2 :: b3 :: l4 =>
            in_range (if (b0 =? 240)%N then 144 else 128)
                     (if (b0 =? 244)%N then 143 else 191) b1 &&
            in_range 128 191 b2 && in_range 128 191 b3 && is_utf8 l4
        | _ => false
        end
      else false
  end.

(** [String::from_utf8]. *)
Definition from_utf8 (l : list N) : option string :=
  if is_utf8 l then Some (of_bytes l) else None.

(** [char::is_control]: the Unicode category Cc. *)
Definition is_control (c : N) : bool :=
  ((c <? 32) || ((127 <=? c) && (c <? 160)))%N.

(** [char::is_whitespace]: the Unicode property White_Space. *)
Definition is_whitespace (c : N) : bool :=
  (((9 <=? c) && (c <=? 13)) || (c =? 32) || (c =? 133) || (c =? 160)
   || (c =? 5760) || ((8192 <=? c) && (c <=? 8202))
   || (c =? 8232) || (c =? 8233) || (c =? 8239) || (c =? 8287) || (c =? 12288))%N.

Fixpoint drop_while {A} (p : A → bool) (l : list A) : list A :=
  match l with
  | [] => []
  | x :: l' => if p x then drop_while p l' else l
  end.

(** [s.trim()]. *)
Definition trim (s : string) : string :=
  of_chars (rev (drop_while is_whitespace
                   (rev (drop_while is_whitespace (chars s))))).

(** [s.trim().is_empty()]. *)
Definition is_blank (s : string) : bool := is_empty (trim s).

Definition hex_digit (n : N) : N := if (n <? 10)%N then (48 + n)%N else (87 + n)%N.

Fixpoint hex_digits (fuel : nat) (n : N) (acc : list N) : list N :=
  match fuel with
  | O => acc
  | S fuel' =>
      let acc := hex_digit (N.land n 15) :: acc in
      let n := N.shiftr n 4 in
      if (n =? 0)%N then acc else hex_digits fuel' n acc
  end.

(** [char::escape_default]; six hexadecimal digits are enough for a code
    point. *)
Definition escape_default (c : N) : list N :=
  if (c =? 9)%N then [92; 116]%N
  else if (c =? 13)%N then [92; 114]%N
  else if (c =? 10)%N then [92; 110]%N
  else if ((c =? 39) || (c =? 34) || (c =? 92))%N then [92; c]%N
  else if ((32 <=? c) && (c <=? 126))%N then [c]
  else ([92; 117; 123] ++ hex_digits 6 c [] ++ [125])%N.

(** [s.chars().flat_map(char::escape_default).collect()]. *)
Definition escape (s : string) : string := of_chars (flat_map escape_default (chars s)).

(** ** Lines and numbers *)

Definition strip_cr (s : string) : string :=
  match strip_suffix (of_bytes [13%N]) s with Some t => t | None => s end.

(** [s.lines()]: a final line terminator does not open a new line. *)
Definition lines (s : string) : list string :=
  let parts := split (Strings.Ascii.ascii_of_N 10) s in
  let body := match rev parts with
              | EmptyString :: rest => rev rest
              | _ => parts
              end in
  map strip_cr body.

Fixpoint parse_digits (acc : N) (l : list N) : option N :=
  match l with
  | [] => Some acc
  | b :: l' => if is_ascii_digit b then parse_digits (acc * 10 + (b - 48))%N l' else None
  end.

(** [s.parse::<u32>()]: an optional [+], then at least one digit. *)
Definition parse_u32 (s : string) : option N :=
  let digits := match bytes s with
                | 43%N :: rest => rest
                | l => l
                end in
  match digits with
  | [] => None
  | _ => match parse_digits 0 digits with
         | Some n => if (n <? 4294967296)%N then Some n else None
         | None => None
         end
  end.

(** [s.parse::<i128>().is_ok()]. *)
Definition parses_as_i128 (s : string) : bool :=
  let '(negative, digits) := match bytes s with
                             | 43%N :: rest => (false, rest)
                             | 45%N :: rest => (true, rest)
                             | l => (false, l)
                             end in
  match digits with
  | [] => false
  | _ => match parse_digits 0 digits with
         | Some n => if negative : bool then (n <=? 2 ^ 127)%N else (n <? 2 ^ 127)%N
         | None => false
         end
  end.

(** [n.to_string()]. *)
Definition to_string (n : N) : string := pretty n.

(** ** Shared lemmas *)

Lemma split_not_nil c s : split c s ≠ [].
Proof.
  destruct s as [| a s]; simpl; [done |].
  destruct (Strings.Ascii.eqb a c); [done |]. by destruct (split c s).
Qed.

Lemma join_cons c w ws :
  ws ≠ [] → join c (w :: ws) = w +:+ String c (join c ws).
Proof. by destruct ws. Qed.

Lemma join_split c s : join c (split c s) = s.
Proof.
  induction s as [| a s IH]; [done |]. simpl.
  pose proof (split_not_nil c s) as Hne.
  destruct (Strings.Ascii.eqb_spec a c) as [-> | Hac].
  - rewrite join_cons by done. by rewrite IH.
  - destruct (split c s) as [| w ws]; [done |].
    destruct ws as [| w' ws]; simpl in *; by rewrite <- IH.
Qed.

Lemma split_no_sep c s w : w ∈ split c s → contains_char c w = false.
Proof.
  revert w; induction s as [| a s IH]; intros w; simpl.
  - intros ->%list_elem_of_singleton. done.
  - destruct (Strings.Ascii.eqb_spec a c) as [-> | Hac].
    + intros [-> | Hw]%elem_of_cons; [done | by apply IH].
    + pose proof (split_not_nil c s) as Hne.
      destruct (split c s) as [| v vs]; [done |].
      intros [-> | Hw]%elem_of_cons; [| apply IH; by apply elem_of_cons; right].
      simpl. rewrite (IH v) by apply list_elem_of_here.
      by destruct (Strings.Ascii.eqb_spec a c).
Qed.

Lemma split_app_sep c w s :
  contains_char c w = false →
  split c (w +:+ String c s) = w :: split c s.
Proof.
  induction w as [| a w IH]; simpl; intros H.
  - by rewrite Strings.Ascii.eqb_refl.
  - apply orb_false_iff in H as [Ha Hw]. rewrite Ha, IH by done. done.
Qed.

Lemma split_no_char c w : contains_char c w = false → split c w = [w].
Proof.
  induction w as [| a w IH]; simpl; intros H; [done |].
  apply orb_false_iff in H as [Ha Hw]. by rewrite Ha, IH.
Qed.

Lemma split_join c l :
  l ≠ [] → (∀ w, w ∈ l → contains_char c w = false) → split c (join c l) = l.
Proof.
  induction l as [| w ws IH]; [done |]. intros _ Hall.
  destruct ws as [| w' ws].
  - simpl. apply split_no_char, Hall, list_elem_of_here.
  - rewrite join_cons by done. rewrite split_app_sep.
    + f_equal. apply IH; [done |]. intros v Hv. apply Hall. by apply list_elem_of_further.
    + apply Hall, list_elem_of_here.
Qed.

Lemma strip_prefix_Some p s t : strip_prefix p s = Some t ↔ s = p +:+ t.
Proof.
  revert s; induction p as [| a p IH]; intros s; simpl.
  - split; [by intros [= ->] | by intros ->].
  - destruct s as [| b s]; [split; discriminate |].
    destruct (Strings.Ascii.eqb_spec a b) as [-> | Hab].
    + rewrite IH. split; [by intros -> | by intros [= ->]].
    + split; [done | by intros [= -> _]].
Qed.

Lemma bytes_of_bytes l : Forall (λ b, (b < 256)%N) l → bytes (of_bytes l) = l.
Proof.
  induction 1 as [| b l Hb _ IH]; simpl; [done |].
  by rewrite IH, Strings.Ascii.N_ascii_embedding.
Qed.

Lemma of_bytes_bytes s : of_bytes (bytes s) = s.
Proof. induction s as [| a s IH]; simpl; [done |]. by rewrite IH, Strings.Ascii.ascii_N_embedding. Qed.

Lemma bytes_bound s : Forall (λ b, (b < 256)%N) (bytes s).
Proof.
  induction s as [| a s IH]; simpl; constructor; [apply Strings.Ascii.N_ascii_bounded | done].
Qed.

Lemma length_bytes s : length (bytes s) = String.length s.
Proof. induction s as [| a s IH]; simpl; [done |]. by rewrite IH. Qed.

Lemma is_empty_true s : is_empty s = true ↔ s = "".
Proof. by destruct s. Qed.
