(* ===== verification/Bytes.v ===== *)
(** * Byte strings

    A [Vec<u8>], [&[u8]] or [[u8; N]] is a list of byte values.  This file
    has the slice operations, the big-endian integer codecs of the standard
    library and the facts about them that the binary formats share. *)

From S2P Require Import Prelude RustStr.

Abbreviation bytes_ := (list N).

Definition is_byte (b : N) : Prop := (b < 256)%N.
Definition is_bytes (l : bytes_) : Prop := Forall is_byte l.

(** [bytes.get(a..b)]. *)
Definition get_range (l : bytes_) (a b : nat) : option bytes_ :=
  if (a <=? b)%nat && (b <=? length l)%nat then Some (take (b - a) (drop a l)) else None.

(** [slice.strip_prefix(p)]. *)
Fixpoint strip_bytes (p l : bytes_) : option bytes_ :=
  match p, l with
  | [], _ => Some l
  | a :: p', b :: l' => if (a =? b)%N then strip_bytes p' l' else None
  | _ :: _, [] => None
  end.

(** Big-endian bytes of an unsigned integer of [n] bytes. *)
Fixpoint to_be_bytes (n : nat) (z : N) : bytes_ :=
  match n with
  | O => []
  | S n' => to_be_bytes n' (z / 256)%N ++ [(z mod 256)%N]
  end.

Definition from_be_bytes (l : bytes_) : N :=
  fold_left (λ acc b, (acc * 256 + b)%N) l 0%N.

(** ** Slices *)

Lemma get_range_Some l a b x :
  get_range l a b = Some x ↔ ∃ pre post, l = pre ++ x ++ post ∧ length pre = a ∧
                                       (a + length x)%nat = b.
Proof.
  unfold get_range. split.
  - destruct (Nat.leb_spec a b), (Nat.leb_spec b (length l)); simpl; try done.
    intros [= <-]. exists (take a l), (drop b l). rewrite !length_take, length_drop.
    split_and!; [| lia | lia].
    rewrite <- (take_drop a l) at 1. f_equal.
    rewrite <- (take_drop (b - a) (drop a l)) at 1. f_equal. rewrite drop_drop. f_equal. lia.
  - intros (pre & post & -> & <- & <-). rewrite !length_app.
    destruct (Nat.leb_spec (length pre) (length pre + length x)); [| lia].
    destruct (Nat.leb_spec (length pre + length x) (length pre + (length x + length post)));
      [| lia]. simpl. f_equal.
    rewrite drop_app_length. replace (length pre + length x - length pre)%nat with (length x) by lia.
    by rewrite take_app_length.
Qed.

Lemma strip_bytes_Some p l x : strip_bytes p l = Some x ↔ l = p ++ x.
Proof.
  revert l. induction p as [| a p IH]; intros l; simpl; [naive_solver |].
  destruct l as [| b l]; [naive_solver |].
  destruct (N.eqb_spec a b); rewrite ?IH; naive_solver.
Qed.

(** ** Big-endian integers *)

Lemma length_to_be_bytes n z : length (to_be_bytes n z) = n.
Proof.
  revert z; induction n as [| n IH]; intros z; simpl; [done |].
  rewrite length_app, IH. simpl. lia.
Qed.

Lemma to_be_bytes_is_bytes n z : is_bytes (to_be_bytes n z).
Proof.
  revert z; induction n as [| n IH]; intros z; simpl; [constructor |].
  apply Forall_app. split; [apply IH |]. constructor; [| constructor].
  by apply N.mod_upper_bound.
Qed.

Lemma from_be_bytes_app l b : from_be_bytes (l ++ [b]) = (from_be_bytes l * 256 + b)%N.
Proof. unfold from_be_bytes. by rewrite fold_left_app. Qed.

Lemma from_to_be_bytes n z :
  (z < 256 ^ N.of_nat n)%N → from_be_bytes (to_be_bytes n z) = z.
Proof.
  revert z; induction n as [| n IH]; intros z Hz; simpl to_be_bytes.
  { change (256 ^ N.of_nat 0)%N with 1%N in Hz. unfold from_be_bytes. simpl. lia. }
  rewrite Nat2N.inj_succ, N.pow_succ_r' in Hz.
  rewrite from_be_bytes_app, IH by (by apply N.Div0.div_lt_upper_bound).
  rewrite (N.div_mod z 256) at 3 by done. lia.
Qed.

Lemma to_from_be_bytes l : is_bytes l → to_be_bytes (length l) (from_be_bytes l) = l.
Proof.
  induction l as [| b l IH] using rev_ind; intros Hl; [done |].
  apply Forall_app in Hl as [Hl Hb]. inversion Hb as [| ? ? Hb' _]; subst.
  rewrite length_app, Nat.add_comm. simpl. rewrite from_be_bytes_app.
  unfold is_byte in Hb'.
  rewrite N.div_add_l, N.div_small, N.add_0_r by done.
  rewrite N.add_comm, N.Div0.mod_add, N.mod_small by done. by rewrite IH.
Qed.

Lemma from_be_bytes_lt l : is_bytes l → (from_be_bytes l < 256 ^ N.of_nat (length l))%N.
Proof.
  induction l as [| b l IH] using rev_ind; intros Hl; [done |].
  apply Forall_app in Hl as [Hl Hb]. inversion Hb as [| ? ? Hb' _]; subst.
  rewrite from_be_bytes_app, length_app, Nat.add_comm. simpl (1 + length l)%nat.
  rewrite Nat2N.inj_succ, N.pow_succ_r'. specialize (IH Hl). unfold is_byte in Hb'. lia.
Qed.

Lemma to_be_bytes_inj n x y :
  (x < 256 ^ N.of_nat n)%N → (y < 256 ^ N.of_nat n)%N → to_be_bytes n x = to_be_bytes n y → x = y.
Proof.
  intros Hx Hy H. by rewrite <- (from_to_be_bytes n x), H, from_to_be_bytes.
Qed.

#[export] Hint Resolve to_be_bytes_is_bytes : basil.

#[global] Arguments to_be_bytes : simpl never.

(** Decide that a concrete list is a list of bytes. *)
Lemma is_bytes_decide (l : bytes_) : forallb (λ b, (b <? 256)%N) l = true → is_bytes l.
Proof.
  unfold is_bytes, is_byte. rewrite forallb_forall. intros H. apply List.Forall_forall.
  intros x Hx. apply H in Hx. by bool_facts.
Qed.

Lemma is_bytes_drop (b : bytes_) n : is_bytes b → is_bytes (drop n b).
Proof. apply Forall_drop. Qed.
