(* ===== verification/BTreeMap.v ===== *)
(** * Ordered maps

    Rust's [BTreeMap] iterates in key order, and the broker relies on that
    order: the first invalid catalog key is the one reported, the matching
    subjects kept for diagnostics are a lexicographic prefix.  A map is
    modelled by the list of its entries in strictly increasing key order;
    [sorted] is the invariant that [insert], [remove] and [retain] keep.  A
    [BTreeSet] is the list of its elements in the same way. *)

From Stdlib Require Sorted.
From S2P Require Import Prelude RustStr.

(** ** Rust's [Ord] *)

Class Ord (K : Type) := cmp : K → K → comparison.

Class OrdLaws (K : Type) `{Ord K} : Prop := {
  cmp_eq_iff : ∀ a b : K, cmp a b = Eq ↔ a = b;
  cmp_opp : ∀ a b : K, cmp b a = CompOpp (cmp a b);
  cmp_lt_trans : ∀ a b c : K, cmp a b = Lt → cmp b c = Lt → cmp a c = Lt;
}.

#[export] Instance ord_N : Ord N := N.compare.
#[export] Instance ord_laws_N : OrdLaws N.
Proof.
  split; unfold cmp, ord_N.
  - apply N.compare_eq_iff.
  - intros a b. apply N.compare_antisym.
  - intros a b c. rewrite !N.compare_lt_iff. lia.
Qed.

(** A derived [Ord] of a struct is the order of the tuple of its fields. *)
Lemma ord_laws_inj {A B} `{Ord A, OrdLaws B} (f : A → B) :
  (∀ x y : A, cmp x y = cmp (f x) (f y)) → (∀ x y, f x = f y → x = y) → OrdLaws A.
Proof.
  intros Hcmp Hinj. split.
  - intros x y. rewrite Hcmp, cmp_eq_iff. split; [apply Hinj | by intros ->].
  - intros x y. rewrite !Hcmp. apply cmp_opp.
  - intros x y z. rewrite !Hcmp. apply cmp_lt_trans.
Qed.

(** Strings compare byte by byte. *)
#[export] Instance ord_string : Ord string := Stdlib.Strings.String.compare.

Lemma ascii_compare_lt_trans a b c :
  Strings.Ascii.compare a b = Lt → Strings.Ascii.compare b c = Lt →
  Strings.Ascii.compare a c = Lt.
Proof. unfold Strings.Ascii.compare. rewrite !N.compare_lt_iff. lia. Qed.

Lemma string_compare_refl s : Stdlib.Strings.String.compare s s = Eq.
Proof.
  induction s as [| a s IH]; simpl; [done |].
  unfold Strings.Ascii.compare. by rewrite N.compare_refl.
Qed.

#[export] Instance ord_laws_string : OrdLaws string.
Proof.
  split; unfold cmp, ord_string.
  - intros a b. split; [apply Stdlib.Strings.String.compare_eq_iff |]. intros ->.
    apply string_compare_refl.
  - intros a b. apply Stdlib.Strings.String.compare_antisym.
  - intros a; induction a as [| x a IH]; intros b c; destruct b as [| y b], c as [| z c];
      simpl; try done.
    destruct (Strings.Ascii.compare x y) eqn:Hxy; [| | done].
    + apply Strings.Ascii.compare_eq_iff in Hxy as ->.
      destruct (Strings.Ascii.compare y z) eqn:Hyz; [| done | done]. apply IH.
    + intros _. destruct (Strings.Ascii.compare y z) eqn:Hyz; [| | done].
      * apply Strings.Ascii.compare_eq_iff in Hyz as ->. by rewrite Hxy.
      * by rewrite (ascii_compare_lt_trans _ _ _ Hxy Hyz).
Qed.

(** A derived [Ord] on a struct compares its fields in order. *)
#[export] Instance ord_pair {A B} `{Ord A, Ord B} : Ord (A * B) :=
  λ p q, match cmp p.1 q.1 with Eq => cmp p.2 q.2 | o => o end.

Lemma cmp_pair {A B} `{Ord A, Ord B} (a1 a2 : A) (b1 b2 : B) :
  cmp (a1, b1) (a2, b2) = match cmp a1 a2 with Eq => cmp b1 b2 | o => o end.
Proof. done. Qed.

#[export] Instance ord_laws_pair {A B} `{OrdLaws A, OrdLaws B} : OrdLaws (A * B).
Proof.
  split.
  - intros [a1 b1] [a2 b2]. rewrite cmp_pair. destruct (cmp a1 a2) eqn:Ha.
    + apply cmp_eq_iff in Ha as ->. rewrite cmp_eq_iff. naive_solver.
    + split; [done |]. intros [= -> ->].
      assert (cmp a2 a2 = Eq) by by apply cmp_eq_iff. congruence.
    + split; [done |]. intros [= -> ->].
      assert (cmp a2 a2 = Eq) by by apply cmp_eq_iff. congruence.
  - intros [a1 b1] [a2 b2]. rewrite !cmp_pair.
    rewrite (cmp_opp a1 a2). destruct (cmp a1 a2); simpl; [apply cmp_opp | done | done].
  - intros [a1 b1] [a2 b2] [a3 b3]. rewrite !cmp_pair.
    destruct (cmp a1 a2) eqn:H12; [| | done].
    + apply cmp_eq_iff in H12 as ->.
      destruct (cmp a2 a3); [apply cmp_lt_trans | done | done].
    + intros _. destruct (cmp a2 a3) eqn:H23; [| | done].
      * apply cmp_eq_iff in H23 as ->. by rewrite H12.
      * by rewrite (cmp_lt_trans _ _ _ H12 H23).
Qed.

(** ** Operations *)

(** Vectors compare element by element, a proper prefix first. *)
Fixpoint list_cmp {A} `{Ord A} (l1 l2 : list A) : comparison :=
  match l1, l2 with
  | [], [] => Eq
  | [], _ :: _ => Lt
  | _ :: _, [] => Gt
  | x :: l1', y :: l2' => match cmp x y with Eq => list_cmp l1' l2' | c => c end
  end.

#[export] Instance ord_list {A} `{Ord A} : Ord (list A) := list_cmp.

Lemma cmp_cons {A} `{Ord A} (x y : A) l1 l2 :
  cmp (x :: l1) (y :: l2) = match cmp x y with Eq => cmp l1 l2 | c => c end.
Proof. done. Qed.

#[export] Instance ord_laws_list {A} `{OrdLaws A} : OrdLaws (list A).
Proof.
  split.
  - intros x. induction x as [| a x IH]; intros [| b y]; try done. rewrite cmp_cons.
    destruct (cmp a b) eqn:E.
    + apply cmp_eq_iff in E as ->. rewrite IH. split; [by intros -> | by intros [= ->]].
    + split; [done |]. intros [= -> _]. by rewrite (proj2 (cmp_eq_iff b b)) in E.
    + split; [done |]. intros [= -> _]. by rewrite (proj2 (cmp_eq_iff b b)) in E.
  - intros x. induction x as [| a x IH]; intros [| b y]; try done. rewrite !cmp_cons.
    rewrite (cmp_opp a b). destruct (cmp a b); simpl; [apply IH | done | done].
  - intros x. induction x as [| a x IH]; intros [| b y] [| c z]; try done. rewrite !cmp_cons.
    destruct (cmp a b) eqn:E1; [| | done].
    + apply cmp_eq_iff in E1 as ->. destruct (cmp b c); [apply IH | done | done].
    + intros _. destruct (cmp b c) eqn:E2; [| | done].
      * apply cmp_eq_iff in E2 as ->. by rewrite E1.
      * by rewrite (cmp_lt_trans _ _ _ E1 E2).
Qed.

Section operations.
Context {K V : Type} `{Ord K}.

Fixpoint get (m : list (K * V)) (k : K) : option V :=
  match m with
  | [] => None
  | (k', v) :: m' => match cmp k k' with Eq => Some v | _ => get m' k end
  end.

Definition contains_key (m : list (K * V)) (k : K) : bool :=
  match get m k with Some _ => true | None => false end.

Fixpoint insert (m : list (K * V)) (k : K) (v : V) : list (K * V) :=
  match m with
  | [] => [(k, v)]
  | (k', v') :: m' =>
      match cmp k k' with
      | Lt => (k, v) :: m
      | Eq => (k, v) :: m'
      | Gt => (k', v') :: insert m' k v
      end
  end.

Fixpoint remove (m : list (K * V)) (k : K) : list (K * V) :=
  match m with
  | [] => []
  | (k', v') :: m' =>
      match cmp k k' with
      | Eq => m'
      | _ => (k', v') :: remove m' k
      end
  end.

(** [map.entry(k).or_insert(v)]. *)
Definition or_insert (m : list (K * V)) (k : K) (v : V) : list (K * V) :=
  if contains_key m k then m else insert m k v.

Definition retain (p : K → V → bool) (m : list (K * V)) : list (K * V) :=
  List.filter (λ e, p e.1 e.2) m.

(** [iter.collect::<BTreeMap<_, _>>()]: a later entry replaces an earlier
    one. *)
Definition of_entries (l : list (K * V)) : list (K * V) :=
  fold_left (λ m e, insert m e.1 e.2) l [].

Definition keys (m : list (K * V)) : list K := map fst m.
End operations.

Section sets.
Context {K : Type} `{Ord K}.

Definition set_contains (s : list K) (k : K) : bool :=
  existsb (λ x, match cmp k x with Eq => true | _ => false end) s.

(** [set.insert(k)] reports whether the element was new. *)
Fixpoint set_insert (s : list K) (k : K) : bool * list K :=
  match s with
  | [] => (true, [k])
  | x :: s' =>
      match cmp k x with
      | Lt => (true, k :: s)
      | Eq => (false, s)
      | Gt => let '(fresh, s'') := set_insert s' k in (fresh, x :: s'')
      end
  end.
End sets.

(** Rust's [slice::sort_by] is stable; insertion sort computes the same
    list. *)
Fixpoint sort_insert {A} (c : A → A → comparison) (x : A) (l : list A) : list A :=
  match l with
  | [] => [x]
  | y :: l' => match c x y with Gt => y :: sort_insert c x l' | _ => x :: l end
  end.

Fixpoint sort_by {A} (c : A → A → comparison) (l : list A) : list A :=
  match l with
  | [] => []
  | x :: l' => sort_insert c x (sort_by c l')
  end.

(** ** Laws *)

Section laws.
Context {K V : Type} `{OrdLaws K}.
Implicit Types m : list (K * V).

Definition key_lt (a b : K * V) : Prop := cmp a.1 b.1 = Lt.
Definition sorted m : Prop := Sorted.StronglySorted key_lt m.

Lemma cmp_refl (k : K) : cmp k k = Eq.
Proof. by apply cmp_eq_iff. Qed.

Lemma cmp_ne (a b : K) : a ≠ b → cmp a b ≠ Eq.
Proof. intros Hne Heq. by apply cmp_eq_iff in Heq. Qed.

Lemma cmp_gt_lt (a b : K) : cmp a b = Gt ↔ cmp b a = Lt.
Proof. rewrite (cmp_opp a b). by destruct (cmp a b). Qed.

Lemma get_insert_eq m k v : get (insert m k v) k = Some v.
Proof.
  induction m as [| [k' v'] m IH]; simpl; [by rewrite cmp_refl |].
  destruct (cmp k k') eqn:E; simpl; rewrite ?cmp_refl; [done | done |].
  by rewrite E.
Qed.

Lemma get_insert_ne m k k' v : k ≠ k' → get (insert m k v) k' = get m k'.
Proof.
  intros Hne. assert (Hc : cmp k' k ≠ Eq) by by apply cmp_ne.
  induction m as [| [j w] m IH]; simpl; [by destruct (cmp k' k) |].
  destruct (cmp k j) eqn:E; simpl.
  - apply cmp_eq_iff in E as ->. by destruct (cmp k' j).
  - by destruct (cmp k' k).
  - destruct (cmp k' j); [done | apply IH | apply IH].
Qed.

Lemma get_elem m k v : get m k = Some v → (k, v) ∈ m.
Proof.
  induction m as [| [j w] m IH]; simpl; [done |].
  destruct (cmp k j) eqn:E.
  - intros [= ->]. apply cmp_eq_iff in E as ->. apply list_elem_of_here.
  - intros Hg. apply list_elem_of_further; auto.
  - intros Hg. apply list_elem_of_further; auto.
Qed.

Lemma elem_get m k v : sorted m → (k, v) ∈ m → get m k = Some v.
Proof.
  induction 1 as [| [j w] m Hs IH Hlt]; intros Hin; [by apply not_elem_of_nil in Hin |].
  simpl. apply elem_of_cons in Hin as [[= -> ->] | Hin]; [by rewrite cmp_refl |].
  rewrite List.Forall_forall in Hlt.
  specialize (Hlt (k, v) (proj1 (list_elem_of_In _ _) Hin)). unfold key_lt in Hlt; simpl in Hlt.
  apply cmp_gt_lt in Hlt. rewrite Hlt. auto.
Qed.

Lemma get_Some_elem m k v : sorted m → get m k = Some v ↔ (k, v) ∈ m.
Proof. intros Hs. split; [apply get_elem | by apply elem_get]. Qed.

Lemma contains_key_elem m k : contains_key m k = true ↔ k ∈ keys m.
Proof.
  unfold contains_key, keys. induction m as [| [j w] m IH]; simpl.
  - split; [done | by intros ?%not_elem_of_nil].
  - rewrite elem_of_cons, <- IH. destruct (cmp k j) eqn:E.
    + apply cmp_eq_iff in E as ->. split; [by left | done].
    + split; [by right |]. intros [-> | ?]; [by rewrite cmp_refl in E | done].
    + split; [by right |]. intros [-> | ?]; [by rewrite cmp_refl in E | done].
Qed.

Lemma elem_insert m k v j w : (j, w) ∈ insert m k v → (j, w) = (k, v) ∨ (j, w) ∈ m.
Proof.
  induction m as [| [i u] m IH]; simpl.
  - intros ->%list_elem_of_singleton. by left.
  - destruct (cmp k i); rewrite !elem_of_cons; tauto.
Qed.

Lemma sorted_nil : sorted [].
Proof. constructor. Qed.

Lemma sorted_insert m k v : sorted m → sorted (insert m k v).
Proof.
  induction 1 as [| [j w] m Hs IH Hlt]; simpl; [repeat constructor |].
  rewrite List.Forall_forall in Hlt.
  destruct (cmp k j) eqn:E.
  - apply cmp_eq_iff in E as ->. constructor; [done |]. by apply List.Forall_forall.
  - constructor; [constructor; [done | by apply List.Forall_forall] |].
    apply List.Forall_forall. intros [i u] [[= <- <-] | Hin]; [done |].
    specialize (Hlt _ Hin). unfold key_lt in *; simpl in *. by eapply cmp_lt_trans.
  - constructor; [done |]. apply List.Forall_forall. intros [i u] Hin%list_elem_of_In.
    apply elem_insert in Hin as [[= -> ->] | Hin]; [by apply cmp_gt_lt |].
    by apply Hlt, list_elem_of_In.
Qed.

Lemma sorted_filter (p : K * V → bool) m : sorted m → sorted (List.filter p m).
Proof.
  induction 1 as [| e m Hs IH Hlt]; simpl; [constructor |].
  destruct (p e); [| done]. constructor; [done |].
  rewrite List.Forall_forall in *. intros x [Hx _]%List.filter_In. auto.
Qed.

Lemma sorted_retain p m : sorted m → sorted (retain p m).
Proof. apply sorted_filter. Qed.

Lemma get_retain p m k :
  sorted m →
  get (retain p m) k = match get m k with
                       | Some v => if p k v then Some v else None
                       | None => None
                       end.
Proof.
  intros Hs. destruct (get (retain p m) k) as [v |] eqn:Hr.
  - apply get_elem, list_elem_of_In, List.filter_In in Hr as [Hin Hp].
    apply list_elem_of_In, elem_get in Hin; [| done].
    simpl in Hp. by rewrite Hin, Hp.
  - destruct (get m k) as [v |] eqn:Hg; [| done].
    destruct (p k v) eqn:Hp; [| done].
    exfalso. apply get_elem, list_elem_of_In in Hg.
    assert (Hin : (k, v) ∈ retain p m).
    { apply list_elem_of_In, List.filter_In. done. }
    apply elem_get in Hin; [| by apply sorted_retain]. congruence.
Qed.

Lemma sorted_of_entries_from l m :
  sorted m → sorted (fold_left (λ m e, insert m e.1 e.2) l m).
Proof.
  revert m; induction l as [| [k v] l IH]; intros m Hm; simpl; [done |].
  apply IH. by apply sorted_insert.
Qed.

Lemma sorted_of_entries (l : list (K * V)) : sorted (of_entries l).
Proof. apply sorted_of_entries_from, sorted_nil. Qed.

(** Two sorted maps with the same lookups are the same list. *)
Lemma sorted_ext m1 m2 :
  sorted m1 → sorted m2 → (∀ k, get m1 k = get m2 k) → m1 = m2.
Proof.
  intros Hs1; revert m2.
  induction Hs1 as [| [k1 v1] m1 Hs1 IH Hlt1]; intros m2 Hs2 Hext.
  - destruct m2 as [| [k v] m2]; [done |].
    specialize (Hext k). simpl in Hext. rewrite cmp_refl in Hext. done.
  - destruct Hs2 as [| [k2 v2] m2 Hs2 Hlt2].
    { specialize (Hext k1). simpl in Hext. by rewrite cmp_refl in Hext. }
    rewrite List.Forall_forall in Hlt1, Hlt2.
    assert (Hbelow : ∀ (m : list (K * V)) k j, (∀ x, In x m → cmp j x.1 = Lt) →
              cmp k j ≠ Gt → get m k = None).
    { intros m k j Hm Hkj. destruct (get m k) as [v |] eqn:Hg; [| done].
      apply get_elem, list_elem_of_In in Hg. specialize (Hm _ Hg). simpl in Hm.
      by apply cmp_gt_lt in Hm. }
    assert (k1 = k2) as ->.
    { destruct (cmp k1 k2) eqn:E; [by apply cmp_eq_iff in E | |].
      - pose proof (Hext k1) as He. simpl in He. rewrite cmp_refl, E in He.
        rewrite (Hbelow m2 k1 k2) in He; [done | done | by rewrite E].
      - apply cmp_gt_lt in E.
        pose proof (Hext k2) as He. simpl in He. rewrite cmp_refl, E in He.
        rewrite (Hbelow m1 k2 k1) in He; [done | done | by rewrite E]. }
    pose proof (Hext k2) as He. simpl in He. rewrite cmp_refl in He.
    injection He as ->. f_equal. apply IH; [done |]. intros k.
    specialize (Hext k). simpl in Hext. destruct (cmp k k2) eqn:E; [| done | done].
    apply cmp_eq_iff in E as ->.
    rewrite (Hbelow m1 k2 k2), (Hbelow m2 k2 k2); try done; by rewrite cmp_refl.
Qed.
End laws.

Lemma sorted_NoDup_keys {K V} `{OrdLaws K} (m : list (K * V)) : sorted m → NoDup (keys m).
Proof.
  unfold sorted. induction 1 as [| [k v] m _ IH Hall]; simpl; [apply NoDup_nil_2 |].
  apply list.NoDup_cons. split; [| done]. intros Hin.
  apply list_elem_of_fmap in Hin as ([k' v'] & Heq & Hin). simpl in Heq. subst k'.
  rewrite List.Forall_forall in Hall. apply list_elem_of_In in Hin.
  specialize (Hall _ Hin). unfold key_lt in Hall. simpl in Hall. by rewrite cmp_refl in Hall.
Qed.

Lemma insert_last {K V} `{OrdLaws K} (m : list (K * V)) k v l :
  sorted (m ++ (k, v) :: l) → insert m k v = m ++ [(k, v)].
Proof.
  induction m as [| [j w] m IH]; simpl; [done |]. intros Hs. inversion Hs; subst.
  assert (cmp j k = Lt) as Hjk.
  { rewrite List.Forall_forall in *.
    match goal with Hlt : ∀ x, In x _ → _ |- _ => apply (Hlt (k, v)) end.
    apply in_app_iff. right. by left. }
  apply cmp_gt_lt in Hjk. rewrite Hjk. f_equal. by apply IH.
Qed.

(** Collecting the entries of a map gives the map back. *)
Lemma of_entries_sorted {K V} `{OrdLaws K} (m : list (K * V)) : sorted m → of_entries m = m.
Proof.
  assert (Hgen : ∀ l m : list (K * V),
            sorted (m ++ l) → fold_left (λ m e, insert m e.1 e.2) l m = m ++ l).
  { intros l; induction l as [| [k v] l IH]; intros m' Hs; simpl; [by rewrite app_nil_r |].
    rewrite (insert_last _ _ _ l) by done. rewrite IH; by rewrite <- app_assoc. }
  apply (Hgen m []).
Qed.

Lemma contains_key_insert {K V} `{OrdLaws K} (m : list (K * V)) k k' v :
  contains_key (insert m k v) k' = false ↔ k ≠ k' ∧ contains_key m k' = false.
Proof.
  unfold contains_key. destruct (cmp k k') eqn:E.
  - apply cmp_eq_iff in E as ->. rewrite get_insert_eq. split; [done | by intros [? _]].
  - assert (Hne : k ≠ k') by (intros ->; by rewrite cmp_refl in E).
    rewrite get_insert_ne by done. by split; [| intros [_ ?]].
  - assert (Hne : k ≠ k') by (intros ->; by rewrite cmp_refl in E).
    rewrite get_insert_ne by done. by split; [| intros [_ ?]].
Qed.

#[export] Hint Resolve sorted_nil sorted_insert sorted_retain sorted_of_entries : basil.

Section set_laws.
Context {K : Type} `{OrdLaws K}.

Lemma set_contains_elem (s : list K) k : set_contains s k = true ↔ k ∈ s.
Proof.
  unfold set_contains. rewrite existsb_elem. split.
  - intros (x & Hx & E). destruct (cmp k x) eqn:Hc; [| done | done].
    by apply cmp_eq_iff in Hc as ->.
  - intros Hk. exists k. by rewrite cmp_refl.
Qed.

Lemma set_insert_spec (s : list K) k :
  ∀ x, x ∈ (set_insert s k).2 ↔ x = k ∨ x ∈ s.
Proof.
  induction s as [| y s IH]; intros x; simpl.
  - rewrite list_elem_of_singleton. split; [by left |].
    by intros [-> | ?%not_elem_of_nil].
  - destruct (cmp k y) eqn:E; simpl.
    + apply cmp_eq_iff in E as ->. rewrite elem_of_cons. tauto.
    + rewrite !elem_of_cons. tauto.
    + specialize (IH x). destruct (set_insert s k) as [fresh s']. simpl in *.
      rewrite !elem_of_cons, IH. tauto.
Qed.

Definition set_sorted (s : list K) : Prop := Sorted.StronglySorted (λ a b, cmp a b = Lt) s.

Lemma set_insert_sorted (s : list K) k : set_sorted s → set_sorted (set_insert s k).2.
Proof.
  unfold set_sorted. induction 1 as [| y s Hs IH Hlt]; simpl; [repeat constructor |].
  rewrite List.Forall_forall in Hlt.
  destruct (cmp k y) eqn:E; simpl.
  - constructor; [done |]. by apply List.Forall_forall.
  - constructor; [constructor; [done | by apply List.Forall_forall] |].
    apply List.Forall_forall. intros x [<- | Hx]; [done |].
    eapply cmp_lt_trans; [exact E | auto].
  - pose proof (set_insert_spec s k) as Hspec.
    destruct (set_insert s k) as [fresh s']; simpl in *.
    constructor; [done |]. apply List.Forall_forall. intros x Hx%list_elem_of_In.
    apply Hspec in Hx as [-> | Hx]; [by apply cmp_gt_lt |].
    by apply Hlt, list_elem_of_In.
Qed.

(** [insert] reports [true] exactly for a new element. *)
Lemma set_insert_fresh (s : list K) k :
  set_sorted s → (set_insert s k).1 = true ↔ k ∉ s.
Proof.
  unfold set_sorted. induction 1 as [| y s Hs IH Hlt]; simpl.
  - split; [by intros _ ?%not_elem_of_nil | done].
  - rewrite List.Forall_forall in Hlt. rewrite not_elem_of_cons.
    destruct (cmp k y) eqn:E; simpl.
    + apply cmp_eq_iff in E as ->. split; [done | by intros [? _]].
    + split; [| done]. intros _. split.
      * intros ->. by rewrite cmp_refl in E.
      * intros Hin%list_elem_of_In. specialize (Hlt _ Hin).
        assert (cmp k k = Lt) by by eapply cmp_lt_trans. by rewrite cmp_refl in *.
    + destruct (set_insert s k) as [fresh s']; simpl in *. rewrite IH.
      split; [| by intros [_ ?]]. intros Hk. split; [| done].
      intros ->. by rewrite cmp_refl in E.
Qed.
End set_laws.

(** Sorting permutes, and orders with respect to a total comparison. *)

Lemma sort_insert_perm {A} (c : A → A → comparison) x l : sort_insert c x l ≡ₚ x :: l.
Proof.
  induction l as [| y l IH]; simpl; [done |].
  destruct (c x y); [done | done |]. rewrite IH. constructor.
Qed.

Lemma sort_by_perm {A} (c : A → A → comparison) l : sort_by c l ≡ₚ l.
Proof. induction l as [| x l IH]; simpl; [done |]. by rewrite sort_insert_perm, IH. Qed.

Lemma sort_by_sorted {A} (c : A → A → comparison) l :
  (∀ a b, c a b = Gt → c b a ≠ Gt) →
  (∀ a b d, c a b ≠ Gt → c b d ≠ Gt → c a d ≠ Gt) →
  Sorted.StronglySorted (λ a b, c a b ≠ Gt) (sort_by c l).
Proof.
  intros Htot Htr. induction l as [| x l IH]; simpl; [constructor |].
  induction IH as [| y l' Hs IHs Hall]; simpl; [repeat constructor |].
  destruct (c x y) eqn:E.
  - constructor; [by constructor |]. constructor; [congruence |].
    rewrite List.Forall_forall in *. intros z Hz. eapply Htr; [| by apply Hall]. congruence.
  - constructor; [by constructor |]. constructor; [congruence |].
    rewrite List.Forall_forall in *. intros z Hz. eapply Htr; [| by apply Hall]. congruence.
  - constructor; [done |]. rewrite List.Forall_forall in *. intros z Hz%list_elem_of_In.
    rewrite sort_insert_perm in Hz. apply elem_of_cons in Hz as [-> | Hz]; [by apply Htot |].
    by apply Hall, list_elem_of_In.
Qed.
