(* ===== verification/Glob.v ===== *)
(** * Target globs ([crates/basil-core/src/core/catalog/glob.rs])

    A policy rule names its targets with globs over dotted keys.  The parser
    accepts a wildcard only as the last segment; the matcher walks a pattern
    and a key segment by segment.  [denotes] is the declarative meaning of a
    pattern that the matcher is proved to decide. *)

From S2P Require Import Prelude RustStr.

Definition dot : ascii := "."%char.
Definition asterisk : ascii := "*"%char.

Inductive GlobSeg :=
| Literal (s : string)
| Star
| DoubleStar.

Inductive KeyGlob :=
| AnyKey
| Pattern (segs : list GlobSeg).

Inductive GlobError :=
| Empty (term : string)
| WildcardNotLast (term wildcard : string)
| IntraSegment (term segment : string).

#[export] Instance GlobSeg_eq_dec : EqDecision GlobSeg.
Proof. solve_decision. Defined.
#[export] Instance KeyGlob_eq_dec : EqDecision KeyGlob.
Proof. solve_decision. Defined.

(** ** Parsing *)

(** The loop of [KeyGlob::parse] over the raw segments; [is_last] is that no
    segment follows. *)
Fixpoint KeyGlob_parse_segs (term : string) (raw : list string)
    : result GlobError (list GlobSeg) :=
  match raw with
  | [] => Ok []
  | seg :: rest =>
      let is_last := match rest with [] => true | _ => false end in
      return_err (Empty term) when is_empty seg otherwise
      let? parsed :=
        (if String.eqb seg "*" then
           return_err (WildcardNotLast term "*") when negb is_last otherwise Ok Star
         else if String.eqb seg "**" then
           return_err (WildcardNotLast term "**") when negb is_last otherwise Ok DoubleStar
         else
           return_err (IntraSegment term seg) when contains_char asterisk seg otherwise
           Ok (Literal seg)) in
      let? segs := KeyGlob_parse_segs term rest in
      Ok (parsed :: segs)
  end.

Definition KeyGlob_parse (s : string) : result GlobError KeyGlob :=
  if String.eqb s "*" then Ok AnyKey
  else
    return_err (Empty s) when is_empty s otherwise
    let? segs := KeyGlob_parse_segs s (split dot s) in
    Ok (Pattern segs).

Definition GlobSeg_source (seg : GlobSeg) : string :=
  match seg with
  | Literal s => s
  | Star => "*"
  | DoubleStar => "**"
  end.

Definition KeyGlob_source (g : KeyGlob) : string :=
  match g with
  | AnyKey => "*"
  | Pattern segs => join dot (map GlobSeg_source segs)
  end.

(** ** Matching *)

(** [slice::split_last]. *)
Definition split_last {A} (l : list A) : option (A * list A) :=
  match rev l with
  | [] => None
  | x :: lead => Some (x, rev lead)
  end.

(** The loop over the leading segments zipped with the key. *)
Fixpoint lead_matches (lead : list GlobSeg) (key : list string) : bool :=
  match lead, key with
  | Literal lit :: lead', k :: key' => String.eqb lit k && lead_matches lead' key'
  | _ :: _, _ :: _ => false
  | _, _ => true
  end.

Definition pattern_matches (segs : list GlobSeg) (key : list string) : bool :=
  match split_last segs with
  | None => false
  | Some (last_seg, lead) =>
      if (length key <? length lead)%nat then false
      else if negb (lead_matches lead key) then false
      else
        let tail := drop (length lead) key in
        match last_seg with
        | Star => (length tail =? 1)%nat
        | DoubleStar => negb (match tail with [] => true | _ => false end)
        | Literal lit =>
            (length tail =? 1)%nat &&
            match tail with k :: _ => String.eqb k lit | [] => false end
        end
  end.

Definition KeyGlob_matches (g : KeyGlob) (dotted_key : string) : bool :=
  let key := split dot dotted_key in
  match g with
  | AnyKey => true
  | Pattern segs => pattern_matches segs key
  end.

Definition is_any_key (g : KeyGlob) : bool :=
  match g with AnyKey => true | _ => false end.

Definition matches_all (g : KeyGlob) : bool :=
  match g with
  | AnyKey => true
  | Pattern [DoubleStar] => true
  | Pattern _ => false
  end.

(** ** The declarative meaning of a pattern *)

Inductive denotes : list GlobSeg → list string → Prop :=
| denotes_literal lit : denotes [Literal lit] [lit]
| denotes_star k : denotes [Star] [k]
| denotes_double_star k key : denotes [DoubleStar] (k :: key)
| denotes_step lit seg segs key :
    denotes (seg :: segs) key → denotes (Literal lit :: seg :: segs) (lit :: key).

(** The globs the parser can produce. *)
Definition literal_ok (s : string) : Prop :=
  s ≠ "" ∧ contains_char dot s = false ∧ contains_char asterisk s = false.

Fixpoint wf_segs (segs : list GlobSeg) : Prop :=
  match segs with
  | [] => False
  | [Literal s] => literal_ok s
  | [_] => True
  | Literal s :: rest => literal_ok s ∧ wf_segs rest
  | _ :: _ => False
  end.

Definition wf_glob (g : KeyGlob) : Prop :=
  match g with
  | AnyKey => True
  | Pattern segs => wf_segs segs ∧ segs ≠ [Star]
  end.

(** ** Lemmas *)

Lemma split_last_snoc {A} (l : list A) x : split_last (l ++ [x]) = Some (x, l).
Proof. unfold split_last. rewrite rev_app_distr. simpl. by rewrite rev_involutive. Qed.

Lemma pattern_matches_step lit seg segs k key :
  pattern_matches (Literal lit :: seg :: segs) (k :: key) =
  String.eqb lit k && pattern_matches (seg :: segs) key.
Proof.
  destruct (exists_last (l := seg :: segs)) as (lead & x & Heq); [done |].
  rewrite Heq. change (Literal lit :: lead ++ [x]) with ((Literal lit :: lead) ++ [x]).
  unfold pattern_matches. rewrite !split_last_snoc. simpl.
  change (S (length key) <? S (length lead))%nat with (length key <? length lead)%nat.
  destruct (String.eqb lit k), (length key <? length lead)%nat; simpl; try done.
Qed.

Lemma pattern_matches_denotes segs key :
  pattern_matches segs key = true ↔ denotes segs key.
Proof.
  revert key; induction segs as [| seg segs IH]; intros key.
  { split; [done | inversion 1]. }
  destruct segs as [| seg' segs].
  - unfold pattern_matches. simpl.
    destruct seg as [lit | |], key as [| k [| k' key]]; simpl;
      rewrite ?drop_0; simpl; try (split; [done | inversion 1; done]);
      try (split; [constructor | done]).
    rewrite String.eqb_eq. split; [intros ->; constructor | inversion 1; done].
  - destruct key as [| k key].
    + split; [| inversion 1].
      destruct (exists_last (l := seg' :: segs)) as (lead & x & Heq); [done |].
      rewrite Heq. change (seg :: lead ++ [x]) with ((seg :: lead) ++ [x]).
      unfold pattern_matches. rewrite split_last_snoc. done.
    + destruct seg as [lit | |].
      * rewrite pattern_matches_step, andb_true_iff, IH, String.eqb_eq.
        split; [intros [-> Hd]; by constructor | inversion 1; by subst].
      * split; [| inversion 1].
        destruct (exists_last (l := seg' :: segs)) as (lead & x & Heq); [done |].
        rewrite Heq. change (Star :: lead ++ [x]) with ((Star :: lead) ++ [x]).
        unfold pattern_matches. rewrite split_last_snoc. simpl.
        by destruct (S (length key) <? S (length lead))%nat.
      * split; [| inversion 1].
        destruct (exists_last (l := seg' :: segs)) as (lead & x & Heq); [done |].
        rewrite Heq. change (DoubleStar :: lead ++ [x]) with ((DoubleStar :: lead) ++ [x]).
        unfold pattern_matches. rewrite split_last_snoc. simpl.
        by destruct (S (length key) <? S (length lead))%nat.
Qed.

Lemma wf_segs_cons seg seg' segs :
  wf_segs (seg :: seg' :: segs) ↔ (∃ s, seg = Literal s ∧ literal_ok s) ∧ wf_segs (seg' :: segs).
Proof.
  destruct seg as [s | |]; simpl.
  - naive_solver.
  - split; [done | by intros [(? & ? & ?) _]].
  - split; [done | by intros [(? & ? & ?) _]].
Qed.

(** What the parsing loop accepts, and the segments it yields. *)
Lemma parse_segs_ok term raw segs :
  raw ≠ [] → (∀ w, w ∈ raw → contains_char dot w = false) →
  KeyGlob_parse_segs term raw = Ok segs →
  map GlobSeg_source segs = raw ∧ wf_segs segs.
Proof.
  revert segs; induction raw as [| seg rest IH]; [done |].
  intros segs _ Hdot H. simpl in H. inv_ok H.
  assert (Hseg : seg ≠ "") by (intros ->; done).
  assert (Hd : contains_char dot seg = false) by apply Hdot, list_elem_of_here.
  assert (Hparsed : GlobSeg_source value = seg ∧
            (value = Star ∨ value = DoubleStar → rest = []) ∧
            (∀ s, value = Literal s → literal_ok s)).
  { destruct (String.eqb_spec seg "*") as [-> | _]; [| destruct (String.eqb_spec seg "**") as [-> | _]].
    - destruct rest; [| done]. injection E0 as <-. done.
    - destruct rest; [| done]. injection E0 as <-. done.
    - inv_ok E0. split; [done |]. split; [by intros [|] |].
      by intros s [= <-]. }
  destruct Hparsed as (Hsrc & Hlast & Hlit).
  destruct rest as [| w rest].
  - simpl in E1. injection E1 as <-. split; [by simpl; rewrite Hsrc |].
    destruct value; simpl; auto.
  - destruct (IH value0) as [Hmap Hwf]; [done | | done |].
    { intros v Hv. apply Hdot. by apply list_elem_of_further. }
    split; [by simpl; rewrite Hmap, Hsrc |].
    destruct value0 as [| seg' segs']; [done |].
    apply wf_segs_cons. split; [| done].
    destruct value as [s | |]; [by exists s; auto | |];
      by specialize (Hlast ltac:(auto)).
Qed.

Lemma literal_not_wildcard s : literal_ok s → String.eqb s "*" = false ∧ String.eqb s "**" = false.
Proof.
  intros (_ & _ & Ha). split; apply String.eqb_neq; intros ->; done.
Qed.

Lemma parse_segs_wf term segs :
  wf_segs segs → KeyGlob_parse_segs term (map GlobSeg_source segs) = Ok segs.
Proof.
  induction segs as [| seg segs IH]; [done |].
  destruct segs as [| seg' segs].
  - intros Hwf. destruct seg as [s | |]; [| done | done].
    destruct (literal_not_wildcard s Hwf) as [H1 H2].
    destruct Hwf as (Hne & _ & Ha). simpl. rewrite H1, H2, Ha.
    by destruct s.
  - intros [(s & -> & Hs) Hwf]%wf_segs_cons. specialize (IH Hwf).
    destruct (literal_not_wildcard s Hs) as [H1 H2].
    destruct Hs as (Hne & _ & Ha).
    change (map GlobSeg_source (Literal s :: seg' :: segs))
      with (s :: map GlobSeg_source (seg' :: segs)).
    remember (map GlobSeg_source (seg' :: segs)) as raw eqn:Hraw.
    simpl. rewrite H1, H2, Ha, IH.
    by destruct s.
Qed.

Lemma wf_segs_no_dot segs w :
  wf_segs segs → w ∈ map GlobSeg_source segs → contains_char dot w = false.
Proof.
  induction segs as [| seg segs IH]; [done |]. intros Hwf.
  destruct segs as [| seg' segs].
  - simpl. intros ->%list_elem_of_singleton. destruct seg; [apply Hwf | done | done].
  - apply wf_segs_cons in Hwf as [(s & -> & Hs) Hwf].
    simpl map. intros [-> | Hw]%elem_of_cons; [apply Hs | by apply IH].
Qed.

Lemma wf_segs_source_not_empty segs : wf_segs segs → join dot (map GlobSeg_source segs) ≠ "".
Proof.
  destruct segs as [| seg [| seg' segs]]; [done | |].
  - destruct seg as [s | |]; simpl; [intros (? & _); done | done | done].
  - intros [(s & -> & Hs) _]%wf_segs_cons. simpl map. rewrite join_cons by done.
    destruct Hs as (Hne & _). by destruct s.
Qed.

Lemma KeyGlob_parse_wf s g :
  KeyGlob_parse s = Ok g → KeyGlob_source g = s ∧ wf_glob g.
Proof.
  unfold KeyGlob_parse. destruct (String.eqb_spec s "*") as [-> | Hs].
  - intros [= <-]. done.
  - intros H. inv_ok H.
    apply parse_segs_ok in E0 as [Hmap Hwf];
      [| apply split_not_nil | intros w; apply split_no_sep].
    assert (Hj : join dot (map GlobSeg_source value) = s) by by rewrite Hmap, join_split.
    split; [done |]. split; [done |]. intros ->. simpl in Hj. congruence.
Qed.

Lemma KeyGlob_matches_pattern segs dotted_key :
  KeyGlob_matches (Pattern segs) dotted_key = true ↔ denotes segs (split dot dotted_key).
Proof. apply pattern_matches_denotes. Qed.

(** A glob the parser produced prints back to the very term it was parsed
    from, and is well formed: it has a last segment, only the last segment is
    a wildcard, and the bare [*] is always the any-key glob. *)
Theorem KeyGlob_source_parse s g :
  KeyGlob_parse s = Ok g →
  KeyGlob_source g = s ∧ KeyGlob_parse (KeyGlob_source g) = Ok g ∧ wf_glob g.
Proof.
  intros Hp. destruct (KeyGlob_parse_wf s g Hp) as [Hs Hwf]. by rewrite Hs.
Qed.

(** Parsing is a left inverse of printing on every well-formed glob, so
    the rendered target of an explanation names exactly one glob. *)
Theorem KeyGlob_parse_source g : wf_glob g → KeyGlob_parse (KeyGlob_source g) = Ok g.
Proof.
  destruct g as [| segs]; [done |]. intros [Hwf Hne]. simpl.
  unfold KeyGlob_parse.
  pose proof (wf_segs_source_not_empty segs Hwf) as Hsrc.
  destruct (String.eqb_spec (join dot (map GlobSeg_source segs)) "*") as [Heq | _].
  - exfalso. assert (Hsp : split dot "*" = map GlobSeg_source segs).
    { rewrite <- Heq. apply split_join; [by destruct segs |].
      intros w. by apply wf_segs_no_dot. }
    destruct segs as [| seg [| seg' segs]]; [done | | done].
    simpl in Hsp. destruct seg as [s | |]; [| done | done].
    injection Hsp as <-. by destruct Hwf as (_ & _ & ?).
  - destruct (is_empty _) eqn:He; [by apply is_empty_true in He |].
    rewrite split_join; [| by destruct segs | intros w; by apply wf_segs_no_dot].
    by rewrite parse_segs_wf.
Qed.

(** The matcher decides the declarative meaning of a pattern: leading
    literals match position by position, [*] matches exactly one segment and
    [**] a non-empty tail. *)
Theorem KeyGlob_matches_denotes segs dotted_key :
  KeyGlob_matches (Pattern segs) dotted_key = true ↔ denotes segs (split dot dotted_key).
Proof. apply KeyGlob_matches_pattern. Qed.

(** A well-formed glob that is not reported as matching everything misses one
    of two concrete one-segment keys. *)
Lemma not_matches_all_misses g :
  wf_glob g → matches_all g = false →
  KeyGlob_matches g "a" = false ∨ KeyGlob_matches g "b" = false.
Proof.
  destruct g as [| segs]; [done |]. intros [Hwf Hne] Hall.
  destruct segs as [| seg [| seg' segs]]; [done | |].
  - destruct seg as [s | |]; [| done | done].
    destruct (decide (s = "a")) as [-> | Ha]; [by right |]. left.
    apply not_true_iff_false. rewrite KeyGlob_matches_pattern.
    intros H; inversion H; by subst.
  - left. apply not_true_iff_false. rewrite KeyGlob_matches_pattern.
    intros H; inversion H as [| | | ? ? ? ? Hd]; subst. inversion Hd.
Qed.

Lemma matches_all_matches g key : matches_all g = true → KeyGlob_matches g key = true.
Proof.
  destruct g as [| segs]; [done |].
  destruct segs as [| [] [| ? ?]]; try done. intros _.
  apply KeyGlob_matches_pattern. pose proof (split_not_nil dot key) as Hne.
  destruct (split dot key); [done | constructor].
Qed.
