(* ===== verification/Policy.v ===== *)
(** * Operations, action terms and grants
      ([crates/basil-core/src/core/catalog/policy.rs])

    The vocabulary of a policy: the operations, the prefix-form action terms a
    rule lists, the grants the loader expands them into, and the
    export-resolved name tables.  [SubjectDefinition] and [ResolvedPolicy],
    which refer to evidence expressions, are in [Evidence]. *)

From S2P Require Import Prelude RustStr BTreeMap Glob.

Abbreviation SubjectName := string.

Inductive Op :=
| Get | List_ | GetPublicKey | Verify | Sign | Encrypt | Decrypt | Mint
| SignNatsJwt | ValidateNatsJwt | EncryptNatsCurve | DecryptNatsCurve | Validate
| Set_ | Rotate | Import_ | NewKey
| EnrollNixCacheKey | SignNixCacheFingerprint
| Reload | Explain | Revoke | Watch | ConnectionStatus | ConnectionDrop
| UseSoftwareCustody.

#[export] Instance Op_eq_dec : EqDecision Op.
Proof. solve_decision. Defined.

Definition Op_eqb (a b : Op) : bool := bool_decide (a = b).

(** The derived [Ord] orders variants by declaration. *)
Definition Op_index (op : Op) : N :=
  match op with
  | Get => 0 | List_ => 1 | GetPublicKey => 2 | Verify => 3 | Sign => 4
  | Encrypt => 5 | Decrypt => 6 | Mint => 7 | SignNatsJwt => 8
  | ValidateNatsJwt => 9 | EncryptNatsCurve => 10 | DecryptNatsCurve => 11
  | Validate => 12 | Set_ => 13 | Rotate => 14 | Import_ => 15 | NewKey => 16
  | EnrollNixCacheKey => 17 | SignNixCacheFingerprint => 18 | Reload => 19
  | Explain => 20 | Revoke => 21 | Watch => 22 | ConnectionStatus => 23
  | ConnectionDrop => 24 | UseSoftwareCustody => 25
  end.

#[export] Instance ord_Op : Ord Op := λ a b, N.compare (Op_index a) (Op_index b).

Lemma Op_index_inj a b : Op_index a = Op_index b → a = b.
Proof. by destruct a, b. Qed.

#[export] Instance ord_laws_Op : OrdLaws Op.
Proof.
  split; unfold cmp, ord_Op.
  - intros a b. rewrite N.compare_eq_iff. split; [apply Op_index_inj | by intros ->].
  - intros a b. apply N.compare_antisym.
  - intros a b c. rewrite !N.compare_lt_iff. lia.
Qed.

(** Every key-scoped operation a [*] action expands to. *)
Definition ALL_OPS : list Op :=
  [ Get; List_; GetPublicKey; Verify; Sign; Encrypt; Decrypt; Mint; SignNatsJwt;
    ValidateNatsJwt; EncryptNatsCurve; DecryptNatsCurve; Validate; Set_; Rotate;
    Import_; NewKey ].

Definition is_write (op : Op) : bool :=
  match op with
  | Set_ | Rotate | Import_ | NewKey | EnrollNixCacheKey => true
  | _ => false
  end.

Definition Op_token (op : Op) : string :=
  match op with
  | Get => "get"
  | List_ => "list"
  | GetPublicKey => "get_public_key"
  | Verify => "verify"
  | Sign => "sign"
  | Encrypt => "encrypt"
  | Decrypt => "decrypt"
  | Mint => "mint"
  | SignNatsJwt => "sign_nats_jwt"
  | ValidateNatsJwt => "validate_nats_jwt"
  | EncryptNatsCurve => "encrypt_nats_curve"
  | DecryptNatsCurve => "decrypt_nats_curve"
  | Validate => "validate"
  | Set_ => "set"
  | Rotate => "rotate"
  | Import_ => "import"
  | NewKey => "new_key"
  | EnrollNixCacheKey => "enroll_nix_cache_key"
  | SignNixCacheFingerprint => "sign_nix_cache_fingerprint"
  | Reload => "reload"
  | Explain => "explain"
  | Revoke => "revoke"
  | Watch => "watch"
  | ConnectionStatus => "connection_status"
  | ConnectionDrop => "connection_drop"
  | UseSoftwareCustody => "use_software_custody"
  end.

Inductive ActionTermError :=
| BadAction (term : string)
| UnknownOp (op : string).

Definition Op_parse (token : string) : result ActionTermError Op :=
  if String.eqb token "get" then Ok Get
  else if String.eqb token "list" then Ok List_
  else if String.eqb token "get_public_key" then Ok GetPublicKey
  else if String.eqb token "verify" then Ok Verify
  else if String.eqb token "sign" then Ok Sign
  else if String.eqb token "encrypt" then Ok Encrypt
  else if String.eqb token "decrypt" then Ok Decrypt
  else if String.eqb token "mint" then Ok Mint
  else if String.eqb token "sign_nats_jwt" then Ok SignNatsJwt
  else if String.eqb token "validate_nats_jwt" then Ok ValidateNatsJwt
  else if String.eqb token "encrypt_nats_curve" then Ok EncryptNatsCurve
  else if String.eqb token "decrypt_nats_curve" then Ok DecryptNatsCurve
  else if String.eqb token "validate" then Ok Validate
  else if String.eqb token "set" then Ok Set_
  else if String.eqb token "rotate" then Ok Rotate
  else if String.eqb token "import" then Ok Import_
  else if String.eqb token "new_key" then Ok NewKey
  else if String.eqb token "enroll_nix_cache_key" then Ok EnrollNixCacheKey
  else if String.eqb token "sign_nix_cache_fingerprint" then Ok SignNixCacheFingerprint
  else if String.eqb token "reload" then Ok Reload
  else if String.eqb token "explain" then Ok Explain
  else if String.eqb token "revoke" then Ok Revoke
  else if String.eqb token "watch" then Ok Watch
  else if String.eqb token "connection_status" then Ok ConnectionStatus
  else if String.eqb token "connection_drop" then Ok ConnectionDrop
  else if String.eqb token "use_software_custody" then Ok UseSoftwareCustody
  else Err (UnknownOp token).

Inductive SignatureKeyAlgorithm := SigEd25519 | SigNatsNkey.

#[export] Instance SignatureKeyAlgorithm_eq_dec : EqDecision SignatureKeyAlgorithm.
Proof. solve_decision. Defined.

Inductive ActionTerm :=
| RoleTerm (name : string)
| OpTerm (op : Op)
| AnyOp.

Definition ActionTerm_parse (term : string) : result ActionTermError ActionTerm :=
  if String.eqb term "*" then Ok AnyOp
  else
    match strip_prefix "role:" term with
    | Some role => Ok (RoleTerm role)
    | None =>
        match strip_prefix "op:" term with
        | Some op => let? op := Op_parse op in Ok (OpTerm op)
        | None => Err (BadAction term)
        end
    end.

(** The spelling [expand_ops] records for a term; parsing reads it back. *)
Definition ActionTerm_spelling (t : ActionTerm) : string :=
  match t with
  | RoleTerm name => "role:" +:+ name
  | OpTerm op => "op:" +:+ Op_token op
  | AnyOp => "*"
  end.

Record Rule := {
  rule_id : string;
  rule_subjects : list SubjectName;
  rule_action : list ActionTerm;
  rule_target : list KeyGlob;
  rule_comment : option string;
}.

Record NameTable := {
  users : list (N * string);
  groups : list (N * string);
}.

Record Config := {
  names : NameTable;
  memberships : list (N * list N);
}.

Definition name_num (name : option string) (num : N) : string :=
  match name with
  | Some n => n +:+ "(" +:+ to_string num +:+ ")"
  | None => to_string num
  end.

Definition user_name_num (c : Config) (uid : N) : string :=
  name_num (get (users (names c)) uid) uid.

Definition group_name_num (c : Config) (gid : N) : string :=
  name_num (get (groups (names c)) gid) gid.

Definition groups_of (c : Config) (uid : N) : option (list N) := get (memberships c) uid.

Record Grant := {
  grant_op : Op;
  grant_target : KeyGlob;
  grant_rule_id : string;
  grant_action : string;
}.

Record ResolvedRule := {
  resolved_subjects : list SubjectName;
  resolved_grants : list Grant;
}.

(** The operations that no [*] action implies: purpose-bound Nix operations,
    broker-wide admin operations and software custody. *)
Definition explicit_only (op : Op) : bool :=
  match op with
  | EnrollNixCacheKey | SignNixCacheFingerprint | Reload | Explain | Revoke | Watch
  | ConnectionStatus | ConnectionDrop | UseSoftwareCustody => true
  | _ => false
  end.

Lemma ALL_OPS_spec op : op ∈ ALL_OPS ↔ explicit_only op = false.
Proof.
  split.
  - intros Hin. destruct op; try done;
      repeat (apply elem_of_cons in Hin as [Hin | Hin]; [discriminate Hin |]);
      by apply not_elem_of_nil in Hin.
  - destruct op; try done; intros _; unfold ALL_OPS;
      repeat (first [apply list_elem_of_here | apply list_elem_of_further]).
Qed.

Lemma Op_eqb_eq a b : Op_eqb a b = true ↔ a = b.
Proof. apply bool_decide_eq_true. Qed.

Lemma Op_parse_token op : Op_parse (Op_token op) = Ok op.
Proof. by destruct op. Qed.

Lemma Op_token_parse t op : Op_parse t = Ok op → Op_token op = t.
Proof.
  unfold Op_parse.
  repeat match goal with
  | |- (if String.eqb t ?s then _ else _) = _ → _ =>
      destruct (String.eqb_spec t s) as [-> | _]; [by intros [= <-] |]
  end.
  done.
Qed.

(** The action-term grammar round-trips: a term parses exactly when it is
    the spelling of the parsed term, for roles, single operations and [*]. *)
Lemma ActionTerm_parse_spelling t s :
  ActionTerm_parse s = Ok t ↔ s = ActionTerm_spelling t.
Proof.
  unfold ActionTerm_parse. destruct (String.eqb_spec s "*") as [-> | Hs].
  { destruct t; simpl; split; done. }
  destruct (strip_prefix "role:" s) as [r |] eqn:Hr.
  { apply strip_prefix_Some in Hr as ->. destruct t as [r' | op |]; simpl; [| | done].
    - split; intros Heq; by simplify_eq/=.
    - done. }
  destruct (strip_prefix "op:" s) as [o |] eqn:Ho.
  - apply strip_prefix_Some in Ho as ->. split.
    + intros H. inv_ok H. by apply Op_token_parse in E as <-.
    + destruct t as [r' | op |]; simpl; [done | | done].
      intros Heq; simplify_eq/=. by rewrite Op_parse_token.
  - split; [done |]. destruct t as [r' | op |]; simpl; intros ->.
    + assert (strip_prefix "role:" ("role:" +:+ r') = Some r')
        by by apply strip_prefix_Some. congruence.
    + assert (strip_prefix "op:" ("op:" +:+ Op_token op) = Some (Op_token op))
        by by apply strip_prefix_Some. congruence.
    + done.
Qed.
