(* ===== verification/Evidence.v ===== *)
(** * Evidence and subject resolution
      ([crates/basil-core/src/core/catalog/evidence.rs])

    A policy subject is recognised by a recursive expression over typed
    evidence predicates.  An expression evaluates to one of three states over
    an immutable snapshot, and a caller is resolved to a subject only when
    exactly one eligible subject matches and none is undecided.

    The file also holds [SubjectDefinition] and [ResolvedPolicy] of
    [policy.rs], which refer to expressions. *)

From S2P Require Import Prelude RustStr BTreeMap Glob Policy.

(** ** Data *)

Definition MAX_EXPRESSION_DEPTH : nat := 8.
Definition MAX_EXPRESSION_LEAVES : nat := 64.
Definition MAX_REPORTED_SUBJECTS : nat := 8.

Inductive AuthorizationDomain := HostProcess | SystemdUnitDomain.

#[export] Instance AuthorizationDomain_eq_dec : EqDecision AuthorizationDomain.
Proof. solve_decision. Defined.

Definition AuthorizationDomain_token (d : AuthorizationDomain) : string :=
  match d with
  | HostProcess => "host-process"
  | SystemdUnitDomain => "systemd-unit"
  end.

Inductive LocalAccountSource := Passwd | GroupFile.

Inductive IdentitySelector :=
| Numeric (id : N)
| LocalName (name : string) (id : N) (source : LocalAccountSource).

Definition selector_id (s : IdentitySelector) : N :=
  match s with Numeric id => id | LocalName _ id _ => id end.

Definition is_symbolic (s : IdentitySelector) : bool :=
  match s with LocalName _ _ _ => true | _ => false end.

Record SystemdSelector := {
  selector_name : string;
  selector_manager_user : option IdentitySelector;
}.

Inductive CredentialSlot := Real | Effective | Saved | Filesystem.

Inductive EvidencePredicate :=
| ProcessUid (s : IdentitySelector)
| ProcessUidSlot (slot : CredentialSlot) (s : IdentitySelector)
| ProcessGid (s : IdentitySelector)
| ProcessGidSlot (slot : CredentialSlot) (s : IdentitySelector)
| ProcessGidSupplementary (s : IdentitySelector)
| ProcessExecutableDigest (digest : string)
| SystemdUnit (s : SystemdSelector)
| SystemdTemplate (s : SystemdSelector)
| InvocationSignatureKey (algorithm : SignatureKeyAlgorithm) (public : string).

Inductive EvidenceExpression :=
| All (children : list EvidenceExpression)
| Any (children : list EvidenceExpression)
| Leaf (predicate : EvidencePredicate).

Inductive EvidenceState := Match | NoMatch | Unavailable.

#[export] Instance EvidenceState_eq_dec : EqDecision EvidenceState.
Proof. solve_decision. Defined.

Definition EvidenceState_token (s : EvidenceState) : string :=
  match s with
  | Match => "match"
  | NoMatch => "no-match"
  | Unavailable => "unavailable"
  end.

Inductive EvidenceValue (T : Type) :=
| Available (value : T)
| NotAvailable.
Arguments Available {T} value.
Arguments NotAvailable {T}.

Record CredentialSlots := {
  slot_real : N;
  slot_effective : N;
  slot_saved : N;
  slot_filesystem : N;
}.

Definition uniform (id : N) : CredentialSlots :=
  {| slot_real := id; slot_effective := id; slot_saved := id; slot_filesystem := id |}.

Definition slot_value (c : CredentialSlots) (slot : CredentialSlot) : N :=
  match slot with
  | Real => slot_real c
  | Effective => slot_effective c
  | Saved => slot_saved c
  | Filesystem => slot_filesystem c
  end.

Definition all_equal (c : CredentialSlots) (expected : N) : bool :=
  (slot_real c =? expected)%N && (slot_effective c =? expected)%N &&
  (slot_saved c =? expected)%N && (slot_filesystem c =? expected)%N.

Record ProcessEvidence := {
  uids : EvidenceValue CredentialSlots;
  gids : EvidenceValue CredentialSlots;
  supplementary_gids : EvidenceValue (list N);
  executable_digest : EvidenceValue string;
}.

Record SystemdEvidence := {
  unit_name : string;
  template_name : option string;
  manager_user : option N;
}.

Record SignatureKeyEvidence := {
  signature_algorithm : SignatureKeyAlgorithm;
  signature_public : string;
}.

#[export] Instance SignatureKeyEvidence_eq_dec : EqDecision SignatureKeyEvidence.
Proof. solve_decision. Defined.

Record EvidenceSnapshot := {
  domain : EvidenceValue AuthorizationDomain;
  process : ProcessEvidence;
  systemd : EvidenceValue SystemdEvidence;
  invocation_signature_key : EvidenceValue SignatureKeyEvidence;
}.

(** ** Leaves *)

Definition compare_value {T} `{EqDecision T} (v : EvidenceValue T) (expected : T)
    : EvidenceState :=
  match v with
  | Available actual => if bool_decide (actual = expected) then Match else NoMatch
  | NotAvailable => Unavailable
  end.

Definition compare_slots (v : EvidenceValue CredentialSlots) (expected : N)
    (slot : option CredentialSlot) : EvidenceState :=
  match v with
  | Available actual =>
      if match slot with
         | None => all_equal actual expected
         | Some slot => (slot_value actual slot =? expected)%N
         end
      then Match else NoMatch
  | NotAvailable => Unavailable
  end.

Definition compare_membership (v : EvidenceValue (list N)) (expected : N) : EvidenceState :=
  match v with
  | Available actual => if existsb (N.eqb expected) actual then Match else NoMatch
  | NotAvailable => Unavailable
  end.

Definition compare_systemd (v : EvidenceValue SystemdEvidence) (name : string)
    (manager : option N) (template : bool) : EvidenceState :=
  match v with
  | Available actual =>
      let actual_name := if template then template_name actual else Some (unit_name actual) in
      if bool_decide (actual_name = Some name) && bool_decide (manager_user actual = manager)
      then Match else NoMatch
  | NotAvailable => Unavailable
  end.

Definition snapshot_evaluate (ev : EvidenceSnapshot) (p : EvidencePredicate) : EvidenceState :=
  match p with
  | ProcessUid s => compare_slots (uids (process ev)) (selector_id s) None
  | ProcessUidSlot slot s => compare_slots (uids (process ev)) (selector_id s) (Some slot)
  | ProcessGid s => compare_slots (gids (process ev)) (selector_id s) None
  | ProcessGidSlot slot s => compare_slots (gids (process ev)) (selector_id s) (Some slot)
  | ProcessGidSupplementary s =>
      compare_membership (supplementary_gids (process ev)) (selector_id s)
  | ProcessExecutableDigest expected => compare_value (executable_digest (process ev)) expected
  | SystemdUnit s =>
      compare_systemd (systemd ev) (selector_name s)
        (selector_id <$> selector_manager_user s) false
  | SystemdTemplate s =>
      compare_systemd (systemd ev) (selector_name s)
        (selector_id <$> selector_manager_user s) true
  | InvocationSignatureKey algorithm public =>
      compare_value (invocation_signature_key ev)
        {| signature_algorithm := algorithm; signature_public := public |}
  end.

(** ** Expressions *)

Fixpoint depth (e : EvidenceExpression) : nat :=
  match e with
  | Leaf _ => 0
  | All children | Any children =>
      1 + fold_right (λ c m, Nat.max (depth c) m) 0 children
  end.

Fixpoint leaf_count (e : EvidenceExpression) : nat :=
  match e with
  | Leaf _ => 1
  | All children | Any children => fold_right (λ c n, leaf_count c + n) 0 children
  end.

(** [visit_leaves] applies its visitor to these predicates, in this order. *)
Fixpoint leaves_of (e : EvidenceExpression) : list EvidencePredicate :=
  match e with
  | Leaf predicate => [predicate]
  | All children | Any children => flat_map leaves_of children
  end.

Section loops.
Context {A : Type} (eval : A → EvidenceState).

Fixpoint evaluate_all_loop (saw_unavailable : bool) (children : list A) : EvidenceState :=
  match children with
  | [] => if saw_unavailable then Unavailable else Match
  | child :: rest =>
      match eval child with
      | NoMatch => NoMatch
      | Unavailable => evaluate_all_loop true rest
      | Match => evaluate_all_loop saw_unavailable rest
      end
  end.

Fixpoint evaluate_any_loop (saw_unavailable : bool) (children : list A) : EvidenceState :=
  match children with
  | [] => if saw_unavailable then Unavailable else NoMatch
  | child :: rest =>
      match eval child with
      | Match => Match
      | Unavailable => evaluate_any_loop true rest
      | NoMatch => evaluate_any_loop saw_unavailable rest
      end
  end.
End loops.

Fixpoint evaluate (ev : EvidenceSnapshot) (e : EvidenceExpression) : EvidenceState :=
  match e with
  | Leaf predicate => snapshot_evaluate ev predicate
  | All children => evaluate_all_loop (evaluate ev) false children
  | Any children => evaluate_any_loop (evaluate ev) false children
  end.

Definition is_signature_leaf (p : EvidencePredicate) : bool :=
  match p with InvocationSignatureKey _ _ => true | _ => false end.

Definition state_eqb (a b : EvidenceState) : bool := bool_decide (a = b).

Section path_loops.
Context {A : Type} (path : A → EvidenceState * bool).

Fixpoint all_path_loop (state : EvidenceState) (signature_bound : bool) (children : list A)
    : EvidenceState * bool :=
  match children with
  | [] => (state, state_eqb state Match && signature_bound)
  | child :: rest =>
      let '(child_state, child_bound) := path child in
      let signature_bound := signature_bound || (state_eqb child_state Match && child_bound) in
      if state_eqb child_state NoMatch then (NoMatch, false)
      else all_path_loop (if state_eqb child_state Unavailable then Unavailable else state)
             signature_bound rest
  end.

Fixpoint any_path_loop (saw_match saw_unavailable signature_bound : bool) (children : list A)
    : EvidenceState * bool :=
  match children with
  | [] =>
      if saw_match then (Match, signature_bound)
      else if saw_unavailable then (Unavailable, false)
      else (NoMatch, false)
  | child :: rest =>
      let '(child_state, child_bound) := path child in
      match child_state with
      | Match => any_path_loop true saw_unavailable (signature_bound || child_bound) rest
      | Unavailable => any_path_loop saw_match true signature_bound rest
      | NoMatch => any_path_loop saw_match saw_unavailable signature_bound rest
      end
  end.
End path_loops.

Fixpoint evaluate_with_signature_path (ev : EvidenceSnapshot) (e : EvidenceExpression)
    : EvidenceState * bool :=
  match e with
  | Leaf predicate => (snapshot_evaluate ev predicate, is_signature_leaf predicate)
  | All children => all_path_loop (evaluate_with_signature_path ev) Match false children
  | Any children => any_path_loop (evaluate_with_signature_path ev) false false false children
  end.

Definition signature_available (ev : EvidenceSnapshot) : bool :=
  match invocation_signature_key ev with Available _ => true | NotAvailable => false end.

Definition evaluate_for_resolution (ev : EvidenceSnapshot) (e : EvidenceExpression)
    : EvidenceState :=
  let require_signature := signature_available ev in
  let '(state, signature_bound) := evaluate_with_signature_path ev e in
  if require_signature && state_eqb state Match && negb signature_bound then NoMatch
  else state.

(** ** Subject resolution *)

Record SubjectDefinition := {
  subject_domain_of : AuthorizationDomain;
  break_glass : bool;
  match_ : EvidenceExpression;
}.

Record ResolvedPolicy := {
  subjects : list (SubjectName * SubjectDefinition);
  rules : list ResolvedRule;
}.

Definition grant_count (p : ResolvedPolicy) : nat :=
  fold_right (λ r n, length (resolved_grants r) + n) 0 (rules p).

Record SubjectResolution := {
  res_domain : AuthorizationDomain;
  res_subject : option SubjectName;
  res_matching_subjects : list SubjectName;
  res_matching_count : nat;
  res_no_match_count : nat;
  res_unavailable_count : nat;
  res_truncated : bool;
}.

Inductive EvidenceResolutionError :=
| DomainUnavailable
| NoSubject (r : SubjectResolution)
| AmbiguousSubject (r : SubjectResolution)
| EvidenceUnavailable (r : SubjectResolution).

Record ResolveCounters := {
  c_matching : list SubjectName;
  c_matching_count : nat;
  c_no_match_count : nat;
  c_unavailable_count : nat;
}.

(** The body of the loop of [resolve_subject] over the subject registry. *)
Definition resolve_step (ev : EvidenceSnapshot) (d : AuthorizationDomain)
    (c : ResolveCounters) (entry : SubjectName * SubjectDefinition) : ResolveCounters :=
  let '(name, definition) := entry in
  if negb (bool_decide (subject_domain_of definition = d)) then c
  else
    match evaluate_for_resolution ev (match_ definition) with
    | Match =>
        {| c_matching :=
             if (length (c_matching c) <? MAX_REPORTED_SUBJECTS)%nat
             then c_matching c ++ [name] else c_matching c;
           c_matching_count := c_matching_count c + 1;
           c_no_match_count := c_no_match_count c;
           c_unavailable_count := c_unavailable_count c |}
    | NoMatch =>
        {| c_matching := c_matching c;
           c_matching_count := c_matching_count c;
           c_no_match_count := c_no_match_count c + 1;
           c_unavailable_count := c_unavailable_count c |}
    | Unavailable =>
        {| c_matching := c_matching c;
           c_matching_count := c_matching_count c;
           c_no_match_count := c_no_match_count c;
           c_unavailable_count := c_unavailable_count c + 1 |}
    end.

Definition no_counters : ResolveCounters :=
  {| c_matching := []; c_matching_count := 0; c_no_match_count := 0;
     c_unavailable_count := 0 |}.

Definition resolve_subject (subjects : list (SubjectName * SubjectDefinition))
    (ev : EvidenceSnapshot) : result EvidenceResolutionError SubjectResolution :=
  match domain ev with
  | NotAvailable => Err DomainUnavailable
  | Available d =>
      let c := fold_left (resolve_step ev d) subjects no_counters in
      let resolution :=
        {| res_domain := d;
           res_subject :=
             if (c_matching_count c =? 1)%nat && (c_unavailable_count c =? 0)%nat
             then head (c_matching c) else None;
           res_matching_subjects := c_matching c;
           res_matching_count := c_matching_count c;
           res_no_match_count := c_no_match_count c;
           res_unavailable_count := c_unavailable_count c;
           res_truncated := (MAX_REPORTED_SUBJECTS <? c_matching_count c)%nat |} in
      if (1 <? c_matching_count c)%nat then Err (AmbiguousSubject resolution)
      else if (0 <? c_unavailable_count c)%nat then Err (EvidenceUnavailable resolution)
      else if (c_matching_count c =? 0)%nat then Err (NoSubject resolution)
      else Ok resolution
  end.

(** ** Reference semantics

    Strong Kleene logic over an assignment of states to predicates: a
    conjunction is the minimum and a disjunction the maximum of
    [NoMatch < Unavailable < Match]. *)

Definition state_and (a b : EvidenceState) : EvidenceState :=
  match a, b with
  | NoMatch, _ | _, NoMatch => NoMatch
  | Unavailable, _ | _, Unavailable => Unavailable
  | Match, Match => Match
  end.

Definition state_or (a b : EvidenceState) : EvidenceState :=
  match a, b with
  | Match, _ | _, Match => Match
  | Unavailable, _ | _, Unavailable => Unavailable
  | NoMatch, NoMatch => NoMatch
  end.

Fixpoint kleene (v : EvidencePredicate → EvidenceState) (e : EvidenceExpression)
    : EvidenceState :=
  match e with
  | Leaf predicate => v predicate
  | All children => fold_right (λ c s, state_and (kleene v c) s) Match children
  | Any children => fold_right (λ c s, state_or (kleene v c) s) NoMatch children
  end.

(** A derivation that an expression matches; the index records whether it
    rests on a matching invocation-signature leaf. *)
Inductive proves (ev : EvidenceSnapshot) : bool → EvidenceExpression → Prop :=
| proves_leaf p :
    snapshot_evaluate ev p = Match → proves ev (is_signature_leaf p) (Leaf p)
| proves_all b children :
    proves_each ev b children → proves ev b (All children)
| proves_any b child children :
    child ∈ children → proves ev b child → proves ev b (Any children)
with proves_each (ev : EvidenceSnapshot) : bool → list EvidenceExpression → Prop :=
| proves_each_nil : proves_each ev false []
| proves_each_cons b b' child children :
    proves ev b child → proves_each ev b' children → proves_each ev (b || b') (child :: children).

(** ** Lemmas *)

Section nested_induction.
Variable P : EvidenceExpression → Prop.
Hypothesis HLeaf : ∀ p, P (Leaf p).
Hypothesis HAll : ∀ cs, Forall P cs → P (All cs).
Hypothesis HAny : ∀ cs, Forall P cs → P (Any cs).

Fixpoint EvidenceExpression_nested_ind (e : EvidenceExpression) : P e :=
  let fix go (cs : list EvidenceExpression) : Forall P cs :=
    match cs with
    | [] => List.Forall_nil P
    | c :: cs' => @List.Forall_cons _ P c cs' (EvidenceExpression_nested_ind c) (go cs')
    end in
  match e with
  | Leaf p => HLeaf p
  | All cs => HAll cs (go cs)
  | Any cs => HAny cs (go cs)
  end.
End nested_induction.

Lemma all_loop_kleene {A} (f g : A → EvidenceState) b cs :
  Forall (λ c, f c = g c) cs →
  evaluate_all_loop f b cs =
  state_and (if b then Unavailable else Match) (fold_right (λ c s, state_and (g c) s) Match cs).
Proof.
  intros Hall; revert b; induction Hall as [| c cs Hc _ IH]; intros b; simpl.
  - by destruct b.
  - rewrite Hc. destruct (g c); rewrite ?IH; destruct b; simpl; try done;
      by destruct (fold_right _ _ cs).
Qed.

Lemma any_loop_kleene {A} (f g : A → EvidenceState) b cs :
  Forall (λ c, f c = g c) cs →
  evaluate_any_loop f b cs =
  state_or (if b then Unavailable else NoMatch) (fold_right (λ c s, state_or (g c) s) NoMatch cs).
Proof.
  intros Hall; revert b; induction Hall as [| c cs Hc _ IH]; intros b; simpl.
  - by destruct b.
  - rewrite Hc. destruct (g c); rewrite ?IH; destruct b; simpl; try done;
      by destruct (fold_right _ _ cs).
Qed.

Lemma evaluate_kleene_aux ev e : evaluate ev e = kleene (snapshot_evaluate ev) e.
Proof.
  induction e as [p | cs IH | cs IH] using EvidenceExpression_nested_ind; simpl; [done | |].
  - rewrite (all_loop_kleene _ _ false cs IH). by destruct (fold_right _ _ cs).
  - rewrite (any_loop_kleene _ _ false cs IH). by destruct (fold_right _ _ cs).
Qed.

Lemma all_path_state {A} (path : A → EvidenceState * bool) st b cs :
  (all_path_loop path st b cs).1 =
  state_and st (fold_right (λ c s, state_and (path c).1 s) Match cs) ∨ st = NoMatch.
Proof.
  revert st b; induction cs as [| c cs IH]; intros st b; simpl; [destruct st; auto |].
  destruct (path c) as [[] b'] eqn:Hp; simpl.
  - destruct (IH st (b || b')) as [-> | ?]; [left; by destruct (fold_right _ _ cs) | by right].
  - destruct st; auto.
  - destruct (IH Unavailable (b || false)) as [-> | ?]; [| done].
    destruct st; auto; left; by destruct (fold_right _ _ cs).
Qed.

Lemma any_path_state {A} (path : A → EvidenceState * bool) m u b cs :
  (any_path_loop path m u b cs).1 =
  state_or (if m then Match else if u then Unavailable else NoMatch)
    (fold_right (λ c s, state_or (path c).1 s) NoMatch cs).
Proof.
  revert m u b; induction cs as [| c cs IH]; intros m u b; simpl.
  - by destruct m, u.
  - destruct (path c) as [[] b']; simpl; rewrite IH; destruct m, u; simpl; try done;
      by destruct (fold_right _ _ cs).
Qed.

Lemma fold_state_ext {A} (op : EvidenceState → EvidenceState → EvidenceState) z
    (f g : A → EvidenceState) cs :
  Forall (λ c, f c = g c) cs →
  fold_right (λ c s, op (f c) s) z cs = fold_right (λ c s, op (g c) s) z cs.
Proof. induction 1 as [| c cs Hc _ IH]; simpl; [done |]. by rewrite Hc, IH. Qed.

(** The path evaluator computes the same state. *)
Lemma path_state ev e : (evaluate_with_signature_path ev e).1 = evaluate ev e.
Proof.
  rewrite evaluate_kleene_aux.
  induction e as [p | cs IH | cs IH] using EvidenceExpression_nested_ind; simpl; [done | |].
  - destruct (all_path_state (evaluate_with_signature_path ev) Match false cs) as [-> | ?];
      [| done].
    rewrite (fold_state_ext state_and Match _ _ _ IH). by destruct (fold_right _ _ cs).
  - rewrite any_path_state, (fold_state_ext state_or NoMatch _ _ _ IH).
    by destruct (fold_right _ _ cs).
Qed.

Lemma kleene_all_match {A} (f : A → EvidenceState) cs :
  fold_right (λ c s, state_and (f c) s) Match cs = Match ↔ Forall (λ c, f c = Match) cs.
Proof.
  induction cs as [| c cs IH]; simpl; [done |]. rewrite Forall_cons_iff, <- IH.
  destruct (f c), (fold_right _ _ cs); simpl; split; try done; by intros [? ?].
Qed.

Lemma kleene_any_match {A} (f : A → EvidenceState) cs :
  fold_right (λ c s, state_or (f c) s) NoMatch cs = Match ↔ ∃ c, c ∈ cs ∧ f c = Match.
Proof.
  induction cs as [| c cs IH]; simpl.
  - split; [done | by intros (? & ?%not_elem_of_nil & _)].
  - transitivity (f c = Match ∨ fold_right (λ c s, state_or (f c) s) NoMatch cs = Match).
    + destruct (f c), (fold_right _ _ cs); simpl; split; try done; auto; by intros [? | ?].
    + rewrite IH. setoid_rewrite elem_of_cons. split.
      * intros [? | (x & ? & ?)]; eauto.
      * intros (x & [-> | ?] & ?); eauto.
Qed.

Lemma all_path_match {A} (path : A → EvidenceState * bool) st b cs :
  (all_path_loop path st b cs).1 = Match →
  Forall (λ c, (path c).1 = Match) cs ∧
  (all_path_loop path st b cs).2 = b || existsb (λ c, (path c).2) cs.
Proof.
  revert st b; induction cs as [| c cs IH]; intros st b; simpl.
  - intros ->. split; [constructor |]. by rewrite orb_false_r.
  - destruct (path c) as [[] b'] eqn:Hp; simpl; [| done |].
    + intros H. destruct (IH _ _ H) as [Hall ->].
      split; [by constructor; [rewrite Hp |] |]. by rewrite orb_assoc.
    + intros H.
      destruct (all_path_state path Unavailable (b || false) cs) as [H' | ?]; [| done].
      rewrite H' in H. by destruct (fold_right _ _ cs).
Qed.

Lemma any_path_bound {A} (path : A → EvidenceState * bool) m u b cs :
  (any_path_loop path m u b cs).1 = Match →
  (any_path_loop path m u b cs).2 =
  b || existsb (λ c, state_eqb (path c).1 Match && (path c).2) cs.
Proof.
  revert m u b; induction cs as [| c cs IH]; intros m u b; simpl.
  - destruct m, u; simpl; by rewrite ?orb_false_r.
  - destruct (path c) as [[] b']; simpl; intros H; rewrite (IH _ _ _ H); [| done | done].
    by rewrite orb_assoc.
Qed.

Lemma proves_match ev e b :
  proves ev b e →
  (evaluate_with_signature_path ev e).1 = Match ∧
  (b = true → (evaluate_with_signature_path ev e).2 = true).
Proof.
  revert b; induction e as [p | cs IH | cs IH] using EvidenceExpression_nested_ind; intros b H.
  - inversion H; subst. simpl. auto.
  - inversion H as [| ? ? Heach |]; subst. clear H. rewrite path_state, evaluate_kleene_aux.
    simpl evaluate_with_signature_path.
    assert (Hpath : Forall (λ c, (evaluate_with_signature_path ev c).1 = Match) cs ∧
              (b = true → existsb (λ c, (evaluate_with_signature_path ev c).2) cs = true)).
    { revert b Heach; induction IH as [| c cs Hc _ IHcs]; intros b Heach.
      - inversion Heach; subst. split; [constructor | done].
      - inversion Heach as [| b1 b2 ? ? Hp Hps]; subst.
        destruct (Hc _ Hp) as [Hm Hb], (IHcs _ Hps) as [Hms Hbs].
        split; [by constructor |]. simpl. rewrite !orb_true_iff. tauto. }
    destruct Hpath as [Hall Hb].
    assert (Hk : kleene (snapshot_evaluate ev) (All cs) = Match).
    { simpl. rewrite kleene_all_match. eapply List.Forall_impl; [| exact Hall].
      intros c Hc. simpl in Hc. by rewrite <- evaluate_kleene_aux, <- path_state. }
    split; [done |]. intros Hbt.
    assert (Hm : (evaluate_with_signature_path ev (All cs)).1 = Match)
      by by rewrite path_state, evaluate_kleene_aux.
    destruct (all_path_match (evaluate_with_signature_path ev) Match false cs Hm) as [_ Hb2].
    rewrite Hb2. auto.
  - inversion H as [| | ? child ? Hin Hp]; subst. clear H.
    rewrite List.Forall_forall in IH.
    destruct (IH child (proj1 (list_elem_of_In _ _) Hin) _ Hp) as [Hm Hb].
    assert (Hany : (evaluate_with_signature_path ev (Any cs)).1 = Match).
    { rewrite path_state, evaluate_kleene_aux. simpl. rewrite kleene_any_match.
      exists child. by rewrite <- evaluate_kleene_aux, <- path_state. }
    split; [done |]. intros Hbt. simpl. rewrite (any_path_bound (evaluate_with_signature_path ev) false false false cs Hany).
    simpl. apply existsb_elem. exists child. by rewrite Hm, (Hb Hbt).
Qed.

Lemma match_proves ev e :
  (evaluate_with_signature_path ev e).1 = Match →
  proves ev (evaluate_with_signature_path ev e).2 e.
Proof.
  induction e as [p | cs IH | cs IH] using EvidenceExpression_nested_ind; intros H.
  - by constructor.
  - destruct (all_path_match (evaluate_with_signature_path ev) Match false cs H) as [Hall Hb].
    simpl in *. rewrite Hb. constructor.
    clear H Hb. induction IH as [| c cs Hc _ IHcs]; simpl; [constructor |].
    inversion Hall; subst. constructor; auto.
  - rewrite List.Forall_forall in IH. simpl in H |- *.
    rewrite (any_path_bound (evaluate_with_signature_path ev) false false false cs H). simpl.
    destruct (existsb _ cs) eqn:Hex.
    + apply existsb_elem in Hex as (c & Hin & Hc).
      apply andb_true_iff in Hc as [Hm Hb]. apply bool_decide_eq_true in Hm.
      apply (proves_any ev true c); [done |]. rewrite <- Hb. apply IH; [by apply list_elem_of_In | done].
    + assert (Hk : kleene (snapshot_evaluate ev) (Any cs) = Match)
        by by rewrite <- evaluate_kleene_aux, <- path_state.
      simpl in Hk. rewrite kleene_any_match in Hk. destruct Hk as (c & Hin & Hc).
      rewrite <- evaluate_kleene_aux, <- path_state in Hc.
      apply (proves_any ev false c); [done |].
      assert (Hb : (evaluate_with_signature_path ev c).2 = false).
      { destruct (evaluate_with_signature_path ev c).2 eqn:Hb; [| done].
        rewrite <- Hex. symmetry. apply existsb_elem. exists c. by rewrite Hc, Hb. }
      rewrite <- Hb. apply IH; [by apply list_elem_of_In | done].
Qed.

Lemma proves_match_iff ev e : evaluate ev e = Match ↔ ∃ b, proves ev b e.
Proof.
  rewrite <- path_state. split.
  - intros H. eexists. by apply match_proves.
  - intros [b H]. by apply proves_match in H as [? _].
Qed.

(** ** Availability order

    Capturing more evidence may turn an unavailable value into an available
    one but never changes an available value. *)

Definition value_le {T} (u v : EvidenceValue T) : Prop := u = NotAvailable ∨ u = v.

Definition snapshot_le (ev ev' : EvidenceSnapshot) : Prop :=
  value_le (uids (process ev)) (uids (process ev')) ∧
  value_le (gids (process ev)) (gids (process ev')) ∧
  value_le (supplementary_gids (process ev)) (supplementary_gids (process ev')) ∧
  value_le (executable_digest (process ev)) (executable_digest (process ev')) ∧
  value_le (systemd ev) (systemd ev') ∧
  value_le (invocation_signature_key ev) (invocation_signature_key ev').

Definition state_le (a b : EvidenceState) : Prop := a = Unavailable ∨ a = b.

Lemma leaf_monotone ev ev' p :
  snapshot_le ev ev' → state_le (snapshot_evaluate ev p) (snapshot_evaluate ev' p).
Proof.
  intros (Hu & Hg & Hs & He & Hsd & Hsig). unfold state_le.
  destruct p; simpl;
    match goal with
    | |- context [uids _] => destruct Hu as [-> | ->]
    | |- context [gids _] => destruct Hg as [-> | ->]
    | |- context [supplementary_gids _] => destruct Hs as [-> | ->]
    | |- context [executable_digest _] => destruct He as [-> | ->]
    | |- context [systemd _] => destruct Hsd as [-> | ->]
    | |- context [invocation_signature_key _] => destruct Hsig as [-> | ->]
    end; auto.
Qed.

Lemma fold_and_monotone {A} (f g : A → EvidenceState) cs :
  Forall (λ c, state_le (f c) (g c)) cs →
  state_le (fold_right (λ c s, state_and (f c) s) Match cs)
    (fold_right (λ c s, state_and (g c) s) Match cs).
Proof.
  unfold state_le. induction 1 as [| c cs Hc _ IH]; simpl; [auto |].
  destruct Hc as [-> | ->], IH as [-> | ->]; simpl; auto;
    destruct (fold_right (λ c s, state_and (g c) s) Match cs), (g c); simpl; auto.
Qed.

Lemma fold_or_monotone {A} (f g : A → EvidenceState) cs :
  Forall (λ c, state_le (f c) (g c)) cs →
  state_le (fold_right (λ c s, state_or (f c) s) NoMatch cs)
    (fold_right (λ c s, state_or (g c) s) NoMatch cs).
Proof.
  unfold state_le. induction 1 as [| c cs Hc _ IH]; simpl; [auto |].
  destruct Hc as [-> | ->], IH as [-> | ->]; simpl; auto;
    destruct (fold_right (λ c s, state_or (g c) s) NoMatch cs), (g c); simpl; auto.
Qed.

(** ** The subjects in each state *)

Definition subjects_in_state (ev : EvidenceSnapshot) (d : AuthorizationDomain)
    (st : EvidenceState) (subs : list (SubjectName * SubjectDefinition)) : list SubjectName :=
  map fst (List.filter
             (λ e, bool_decide (subject_domain_of e.2 = d) &&
                   state_eqb (evaluate_for_resolution ev (match_ e.2)) st) subs).

Lemma subjects_in_state_elem ev d st subs name :
  name ∈ subjects_in_state ev d st subs ↔
  ∃ def, (name, def) ∈ subs ∧ subject_domain_of def = d ∧
         evaluate_for_resolution ev (match_ def) = st.
Proof.
  unfold subjects_in_state. rewrite list_elem_of_In, in_map_iff. split.
  - intros ([n def] & <- & [Hin Hp]%List.filter_In). simpl in *.
    apply andb_true_iff in Hp as [Hd Hs]. apply bool_decide_eq_true in Hd, Hs.
    exists def. by rewrite list_elem_of_In.
  - intros (def & Hin & Hd & Hs). exists (name, def). split; [done |].
    apply List.filter_In. split; [by apply list_elem_of_In |]. simpl.
    unfold state_eqb. by rewrite !bool_decide_eq_true_2.
Qed.

Lemma resolve_fold ev d subs c :
  length (c_matching c) ≤ MAX_REPORTED_SUBJECTS →
  fold_left (resolve_step ev d) subs c =
  {| c_matching :=
       take MAX_REPORTED_SUBJECTS (c_matching c ++ subjects_in_state ev d Match subs);
     c_matching_count := c_matching_count c + length (subjects_in_state ev d Match subs);
     c_no_match_count := c_no_match_count c + length (subjects_in_state ev d NoMatch subs);
     c_unavailable_count :=
       c_unavailable_count c + length (subjects_in_state ev d Unavailable subs) |}.
Proof.
  revert c; induction subs as [| [name def] subs IH]; intros c Hlen; simpl.
  { destruct c; simpl in *. by rewrite app_nil_r, !Nat.add_0_r, take_ge. }
  unfold subjects_in_state in *. simpl.
  destruct (bool_decide (subject_domain_of def = d)); simpl; [| by apply IH].
  destruct (evaluate_for_resolution ev (match_ def)); simpl.
  - destruct (length (c_matching c) <? MAX_REPORTED_SUBJECTS)%nat eqn:Hlt; bool_facts.
    + rewrite IH; simpl; [| rewrite length_app; simpl; lia].
      f_equal; [by rewrite <- app_assoc | lia].
    + rewrite IH; simpl; [| done]. f_equal; [| lia].
      rewrite !take_app_le by lia. done.
  - rewrite IH by done. simpl. f_equal. lia.
  - rewrite IH by done. simpl. f_equal. lia.
Qed.

Lemma NoDup_only {A} (l : list A) x : NoDup l → (∀ y, y ∈ l ↔ y = x) → l = [x].
Proof.
  intros Hnd Hl. destruct l as [| a l].
  { exfalso. by apply (not_elem_of_nil x), Hl. }
  apply list.NoDup_cons in Hnd as [Ha _].
  assert (a = x) as -> by (apply Hl, list_elem_of_here). f_equal.
  destruct l as [| b l]; [done |]. destruct Ha.
  assert (b = x) as -> by (apply Hl, list_elem_of_further, list_elem_of_here).
  apply list_elem_of_here.
Qed.

Lemma subjects_in_state_NoDup ev d st subs : sorted subs → NoDup (subjects_in_state ev d st subs).
Proof.
  intros Hs. unfold subjects_in_state.
  by apply (sorted_NoDup_keys (List.filter _ subs)), sorted_filter.
Qed.

Lemma resolve_subject_ok subs ev r :
  resolve_subject subs ev = Ok r ↔
  ∃ d name,
    domain ev = Available d ∧
    subjects_in_state ev d Match subs = [name] ∧
    subjects_in_state ev d Unavailable subs = [] ∧
    r = {| res_domain := d; res_subject := Some name; res_matching_subjects := [name];
           res_matching_count := 1;
           res_no_match_count := length (subjects_in_state ev d NoMatch subs);
           res_unavailable_count := 0; res_truncated := false |}.
Proof.
  unfold resolve_subject. destruct (domain ev) as [d |].
  2: { split; [done | by intros (? & ? & ? & _)]. }
  rewrite resolve_fold by (simpl; unfold MAX_REPORTED_SUBJECTS; lia). simpl.
  split.
  - intros H. exists d.
    destruct (subjects_in_state ev d Match subs) as [| name [| ? ?]];
      destruct (subjects_in_state ev d Unavailable subs); simpl in H; try done.
    exists name. injection H as <-. done.
  - intros (d' & name & [= <-] & -> & -> & ->). done.
Qed.

(** When one subject matches and none is undecided, the others fail. *)
Lemma only_match_rest ev d subs name other def :
  subjects_in_state ev d Match subs = [name] → subjects_in_state ev d Unavailable subs = [] →
  (other, def) ∈ subs → other ≠ name → subject_domain_of def = d →
  evaluate_for_resolution ev (match_ def) = NoMatch.
Proof.
  intros Hm Hu Hin Hne Hd.
  destruct (evaluate_for_resolution ev (match_ def)) eqn:E; [| done |]; exfalso.
  - assert (H : other ∈ subjects_in_state ev d Match subs)
      by (apply subjects_in_state_elem; eauto).
    rewrite Hm in H. by apply list_elem_of_singleton in H.
  - assert (H : other ∈ subjects_in_state ev d Unavailable subs)
      by (apply subjects_in_state_elem; eauto).
    rewrite Hu in H. by apply not_elem_of_nil in H.
Qed.

(** ** Properties *)

(** Expression evaluation is strong Kleene logic over the leaves, and the
    signature-tracking evaluator used for resolution computes the same
    three-state result. *)
Theorem evaluate_kleene ev e :
  evaluate ev e = kleene (snapshot_evaluate ev) e ∧
  (evaluate_with_signature_path ev e).1 = evaluate ev e.
Proof. split; [apply evaluate_kleene_aux | apply path_state]. Qed.

(** C26: for subject resolution an expression matches exactly when there is a
    derivation from matching leaves, and when a sealed invocation presented a
    verified signature, one whose leaves include the matching signature key:
    ambient process evidence alone never authenticates a signed request. *)
Theorem evaluate_for_resolution_proves ev e :
  evaluate_for_resolution ev e = Match ↔
  ∃ b, proves ev b e ∧ (signature_available ev = true → b = true).
Proof.
  unfold evaluate_for_resolution.
  destruct (evaluate_with_signature_path ev e) as [st b] eqn:Hp.
  split.
  - intros H. assert (st = Match) as ->.
    { by destruct (signature_available ev && state_eqb st Match && negb b). }
    exists b. split.
    + pose proof (match_proves ev e) as Hm. rewrite Hp in Hm. by apply Hm.
    + intros Hs. rewrite Hs in H. by destruct b.
  - intros (b' & Hpr & Hsig). apply proves_match in Hpr. rewrite Hp in Hpr.
    destruct Hpr as [Hst Hb]. simpl in *. subst st.
    destruct (signature_available ev) eqn:Hs; [| done].
    rewrite Hb by auto. done.
Qed.

(** Evaluation is monotone in the evidence: a decided result never changes
    when more evidence becomes available. *)
Lemma evaluate_monotone ev ev' e :
  snapshot_le ev ev' → evaluate ev e = Unavailable ∨ evaluate ev' e = evaluate ev e.
Proof.
  intros Hle. rewrite !evaluate_kleene_aux.
  assert (H : state_le (kleene (snapshot_evaluate ev) e) (kleene (snapshot_evaluate ev') e)).
  { induction e as [p | cs IH | cs IH] using EvidenceExpression_nested_ind; simpl.
    - by apply leaf_monotone.
    - by apply fold_and_monotone.
    - by apply fold_or_monotone. }
  destruct H as [H | H]; auto.
Qed.

Definition unknown_process : ProcessEvidence :=
  {| uids := NotAvailable; gids := NotAvailable; supplementary_gids := NotAvailable;
     executable_digest := NotAvailable |}.

Definition uid_snapshot (uid : N) : EvidenceSnapshot :=
  {| domain := Available HostProcess;
     process := {| uids := Available (uniform uid); gids := NotAvailable;
                   supplementary_gids := NotAvailable; executable_digest := NotAvailable |};
     systemd := NotAvailable;
     invocation_signature_key := NotAvailable |}.

(** C9: a caller is resolved to a subject exactly when its domain is known, the
    subject is registered in that domain and matches, and every other subject
    of the domain conclusively does not match: an ambiguous or undecided
    caller is never resolved. *)
Theorem resolve_subject_unique subs ev name :
  sorted subs →
  (∃ r, resolve_subject subs ev = Ok r ∧ res_subject r = Some name) ↔
  ∃ def, get subs name = Some def ∧ domain ev = Available (subject_domain_of def) ∧
    evaluate_for_resolution ev (match_ def) = Match ∧
    ∀ name' def', get subs name' = Some def' → name' ≠ name →
      subject_domain_of def' = subject_domain_of def →
      evaluate_for_resolution ev (match_ def') = NoMatch.
Proof.
  intros Hs. split.
  - intros (r & (d & n & Hd & Hm & Hu & ->)%resolve_subject_ok & Hn). injection Hn as ->.
    assert (Hin : name ∈ subjects_in_state ev d Match subs)
      by (rewrite Hm; apply list_elem_of_here).
    apply subjects_in_state_elem in Hin as (def & Hin & <- & Hev).
    exists def. split_and!; try done; [by apply get_Some_elem |].
    intros name' def' Hg Hne Hdom. apply get_elem in Hg.
    by eapply only_match_rest.
  - intros (def & Hg & Hd & Hm & Hother). apply get_Some_elem in Hg; [| done].
    assert (Honly : ∀ st name', name' ∈ subjects_in_state ev (subject_domain_of def) st subs →
                      name' = name ∧ st = Match ∨ st = NoMatch).
    { intros st name' (def' & Hin & Hdom & Hev)%subjects_in_state_elem.
      destruct (decide (name' = name)) as [-> | Hne].
      - left. apply get_Some_elem in Hin, Hg; [| done | done]. by simplify_eq.
      - right. rewrite <- Hev. apply get_Some_elem in Hin; [| done]. by apply (Hother name'). }
    eexists. split; [apply resolve_subject_ok; exists (subject_domain_of def), name |].
    + split_and!; [done | | | reflexivity].
      * apply NoDup_only; [by apply subjects_in_state_NoDup |]. intros y. split.
        -- intros [[? _] | ?]%Honly; done.
        -- intros ->. apply subjects_in_state_elem. eauto.
      * destruct (subjects_in_state _ _ Unavailable _) as [| y ys] eqn:E; [done |].
        assert (Hy : y ∈ subjects_in_state ev (subject_domain_of def) Unavailable subs)
          by (rewrite E; apply list_elem_of_here).
        by apply Honly in Hy as [[_ ?] | ?].
    + done.
Qed.

Definition one_subject : list (SubjectName * SubjectDefinition) :=
  [("alice", {| subject_domain_of := HostProcess; break_glass := false;
                match_ := Leaf (ProcessUid (Numeric 7)) |});
   ("bob", {| subject_domain_of := HostProcess; break_glass := false;
              match_ := Leaf (ProcessUidSlot Real (Numeric 8)) |})].

Lemma resolve_subject_unique_witness :
  ∃ def, get one_subject "alice" = Some def ∧
    domain (uid_snapshot 7) = Available (subject_domain_of def) ∧
    evaluate_for_resolution (uid_snapshot 7) (match_ def) = Match ∧
    ∀ name' def', get one_subject name' = Some def' → name' ≠ "alice" →
      subject_domain_of def' = subject_domain_of def →
      evaluate_for_resolution (uid_snapshot 7) (match_ def') = NoMatch.
Proof.
  apply resolve_subject_unique; [repeat constructor |].
  eexists. split; [vm_compute; reflexivity | reflexivity].
Defined.

(** Every failed resolution carries the true census of the eligible
    subjects, and the names it reports are the first eight matching ones in
    key order, flagged as truncated exactly when more matched. *)
Lemma resolve_subject_census subs ev d e :
  domain ev = Available d → resolve_subject subs ev = Err e →
  ∃ r,
    res_matching_subjects r = take MAX_REPORTED_SUBJECTS (subjects_in_state ev d Match subs) ∧
    res_matching_count r = length (subjects_in_state ev d Match subs) ∧
    res_unavailable_count r = length (subjects_in_state ev d Unavailable subs) ∧
    res_no_match_count r = length (subjects_in_state ev d NoMatch subs) ∧
    (res_truncated r = true ↔ MAX_REPORTED_SUBJECTS < res_matching_count r) ∧
    res_subject r = None ∧
    ((e = AmbiguousSubject r ∧ 2 ≤ res_matching_count r) ∨
     (e = EvidenceUnavailable r ∧ res_matching_count r ≤ 1 ∧ 1 ≤ res_unavailable_count r) ∨
     (e = NoSubject r ∧ res_matching_count r = 0 ∧ res_unavailable_count r = 0)).
Proof.
  intros Hd. unfold resolve_subject. rewrite Hd.
  rewrite resolve_fold by (simpl; unfold MAX_REPORTED_SUBJECTS; lia). simpl.
  generalize (subjects_in_state ev d Match subs) as M.
  generalize (subjects_in_state ev d Unavailable subs) as U. intros U M.
  match goal with |- context [Err (AmbiguousSubject ?r)] => intros H; exists r end.
  split_and!; try done; simpl; [apply Nat.ltb_lt | |].
  - by destruct M as [| m [| m' M]], U as [| u U].
  - destruct (1 <? length M)%nat eqn:H1; bool_facts.
    { injection H as <-. left. split; [done | lia]. }
    destruct (0 <? length U)%nat eqn:H2; bool_facts.
    { injection H as <-. right; left. split; [done | lia]. }
    destruct (length M =? 0)%nat eqn:H3; bool_facts; [| done].
    injection H as <-. right; right. split; [done | lia].
Qed.
