(* ===== verification/Nkey.v ===== *)
(** * Public NATS keys ([crates/basil-nats/src/lib.rs])

    A public NKey is [prefix || key || crc16], base32-encoded.  The base32
    codec is the third-party crate [data_encoding]; it is a parameter of the
    functions that use it, with the two facts of its documentation that the
    round-trip theorems rely on. *)

From S2P Require Import Prelude RustStr.

Inductive NkeyType := Account | Cluster | Server | Operator | User | Curve.

#[export] Instance NkeyType_eq_dec : EqDecision NkeyType.
Proof. solve_decision. Defined.

Definition NkeyType_ALL : list NkeyType := [Account; Cluster; Server; Operator; User; Curve].

Definition letter (role : NkeyType) : N :=
  match role with
  | Account => 65    (* A *)
  | Cluster => 67    (* C *)
  | Server => 78     (* N *)
  | Operator => 79   (* O *)
  | User => 85       (* U *)
  | Curve => 88      (* X *)
  end.

Definition prefix_byte (role : NkeyType) : N :=
  match role with
  | Account => 0
  | Cluster => N.shiftl 2 3
  | Server => N.shiftl 13 3
  | Operator => N.shiftl 14 3
  | User => N.shiftl 20 3
  | Curve => N.shiftl 23 3
  end.

Definition from_letter (c : N) : option NkeyType :=
  List.find (λ role, (letter role =? c)%N) NkeyType_ALL.

Definition from_prefix_byte (byte : N) : option NkeyType :=
  List.find (λ role, (prefix_byte role =? byte)%N) NkeyType_ALL.

Inductive NkeyError :=
| BadEncoding
| BadPublicKeyLen (n : nat)
| UnsupportedPrefix (c : N)
| UnexpectedPrefix (expected actual : NkeyType)
| BadSignatureLen (n : nat).

(** ** The checksum

    [crc16] works on a [u16]; a shift left drops the bits above the width. *)

Definition u16_shl1 (crc : N) : N := N.land (N.shiftl crc 1) 65535.

Definition crc16_bit (crc : N) : N :=
  if negb (N.land crc 32768 =? 0)%N then N.lxor (u16_shl1 crc) 4129 else u16_shl1 crc.

Definition crc16_byte (crc b : N) : N :=
  let crc := N.lxor crc (N.land (N.shiftl b 8) 65535) in
  Nat.iter 8 crc16_bit crc.

Definition crc16 (data : list N) : N := fold_left crc16_byte data 0%N.

Section codec.
Variable base32_encode : list N → string.
Variable base32_decode : string → option (list N).

Definition encode_nkey (prefix : N) (public : list N) : result NkeyError string :=
  return_err (BadPublicKeyLen (length public)) when negb (length public =? 32)%nat otherwise
  let raw := prefix :: public in
  let crc := crc16 raw in
  Ok (base32_encode (raw ++ [N.land crc 255; N.shiftr crc 8])).

Definition encode_public (role : NkeyType) (public : list N) : result NkeyError string :=
  encode_nkey (prefix_byte role) public.

Definition decode_public (nkey : string) : result NkeyError (NkeyType * list N) :=
  match base32_decode nkey with
  | None => Err BadEncoding
  | Some raw =>
      return_err (BadPublicKeyLen (length raw)) when (length raw <? 33)%nat otherwise
      let body := take 33 raw in
      let crc_bytes := drop 33 raw in
      match crc_bytes, body with
      | [lo; hi], prefix :: key =>
          return_err (BadPublicKeyLen (length raw)) when negb (length key =? 32)%nat otherwise
          let crc := (lo + 256 * hi)%N in
          return_err (BadPublicKeyLen (length raw)) when negb (crc =? crc16 body)%N otherwise
          match from_prefix_byte prefix with
          | Some role => Ok (role, key)
          | None =>
              Err (UnsupportedPrefix (match chars nkey with c :: _ => c | [] => 63%N end))
          end
      | _, _ => Err (BadPublicKeyLen (length raw))
      end
  end.

Definition require_public_prefix (nkey : string) (expected : NkeyType)
    : result NkeyError (list N) :=
  let? (actual, key) := decode_public nkey in
  return_err (UnexpectedPrefix expected actual) when negb (bool_decide (actual = expected))
  otherwise Ok key.

(** [verify_ed25519] is the third-party signature check. *)
Variable verify_ed25519 : list N → list N → list N → bool.

Definition verify_public_signature (nkey : string) (message signature : list N)
    : result NkeyError bool :=
  let? (_, public_key) := decode_public nkey in
  return_err (BadSignatureLen (length signature)) when negb (length signature =? 64)%nat
  otherwise Ok (verify_ed25519 public_key message signature).
End codec.

(** ** Lemmas *)

Lemma from_prefix_byte_iff role b : from_prefix_byte b = Some role ↔ b = prefix_byte role.
Proof.
  split.
  - intros H. apply find_elem in H as [_ H]. symmetry. by apply N.eqb_eq in H.
  - intros ->. by destruct role.
Qed.

Lemma from_letter_iff role c : from_letter c = Some role ↔ c = letter role.
Proof.
  split.
  - intros H. apply find_elem in H as [_ H]. symmetry. by apply N.eqb_eq in H.
  - intros ->. by destruct role.
Qed.

Lemma land_bound a n : (N.land a (N.ones n) < 2 ^ n)%N.
Proof. rewrite N.land_ones. apply N.mod_lt. by apply N.pow_nonzero. Qed.

Lemma lxor_bound a b n : (a < 2 ^ n → b < 2 ^ n → N.lxor a b < 2 ^ n)%N.
Proof.
  intros Ha Hb.
  assert (N.lxor a b = N.land (N.lxor a b) (N.ones n)) as ->; [| apply land_bound].
  apply N.bits_inj. intros m. rewrite N.land_spec, N.lxor_spec.
  destruct (N.lt_ge_cases m n) as [Hm | Hm].
  - by rewrite N.ones_spec_low, andb_true_r.
  - rewrite <- (N.mod_small a (2 ^ n)), <- (N.mod_small b (2 ^ n)) by done.
    by rewrite !N.mod_pow2_bits_high, N.ones_spec_high.
Qed.

Lemma crc16_bit_bound crc : (crc16_bit crc < 65536)%N.
Proof.
  unfold crc16_bit. change 65536%N with (2 ^ 16)%N.
  assert (H : (u16_shl1 crc < 2 ^ 16)%N) by apply (land_bound _ 16).
  destruct (negb _); [by apply lxor_bound | done].
Qed.

Lemma crc16_bound data : (crc16 data < 65536)%N.
Proof.
  unfold crc16. assert (H : (0 < 65536)%N) by lia. revert H.
  generalize 0%N as acc. induction data as [| b data IH]; intros acc Hacc; simpl; [done |].
  apply IH. unfold crc16_byte. simpl. apply crc16_bit_bound.
Qed.

Lemma prefix_byte_bound role : (prefix_byte role < 256)%N.
Proof. by destruct role. Qed.

Lemma crc_le_bytes crc : (N.land crc 255 + 256 * N.shiftr crc 8 = crc)%N.
Proof.
  change 255%N with (N.ones 8). rewrite N.land_ones, N.shiftr_div_pow2.
  change (2 ^ 8)%N with 256%N. pose proof (N.div_mod crc 256). lia.
Qed.

Definition is_key (key : list N) : Prop := length key = 32 ∧ Forall (λ b, (b < 256)%N) key.

(** The layout a decoded key has, in both directions. *)
Lemma decode_layout base32_decode nkey role key :
  decode_public base32_decode nkey = Ok (role, key) ↔
  length key = 32 ∧ ∃ lo hi,
    base32_decode nkey = Some (prefix_byte role :: key ++ [lo; hi]) ∧
    (lo + 256 * hi)%N = crc16 (prefix_byte role :: key).
Proof.
  unfold decode_public. split.
  - destruct (base32_decode nkey) as [raw |]; [| done].
    intros H. destruct (length raw <? 33)%nat; [done |].
    destruct (drop 33 raw) as [| lo [| hi [| ? ?]]] eqn:Hd; try done.
    destruct (take 33 raw) as [| prefix body] eqn:Ht; [done |].
    inv_ok H. destruct (from_prefix_byte prefix) as [role' |] eqn:Hp; [| done].
    injection H as -> ->. bool_facts. apply from_prefix_byte_iff in Hp as ->.
    split; [done |]. exists lo, hi. split; [| done].
    rewrite <- (take_drop 33 raw), Hd, Ht. done.
  - intros (Hlen & lo & hi & -> & Hcrc).
    change (prefix_byte role :: key ++ [lo; hi]) with ((prefix_byte role :: key) ++ [lo; hi]).
    assert (Hl : (length ((prefix_byte role :: key) ++ [lo; hi]) <? 33)%nat = false).
    { apply Nat.ltb_ge. rewrite length_app. simpl. lia. }
    rewrite Hl, drop_app_length', take_app_length' by (simpl; lia).
    rewrite Hlen. simpl.
    destruct (lo + 256 * hi =? crc16 (prefix_byte role :: key))%N eqn:Hc;
      [| apply N.eqb_neq in Hc; done].
    assert (Hp : from_prefix_byte (prefix_byte role) = Some role)
      by by apply from_prefix_byte_iff.
    by rewrite Hp.
Qed.

(** ** Properties *)

Section properties.
Variable base32_encode : list N → string.
Variable base32_decode : string → option (list N).

(** [BASE32_NOPAD.decode(BASE32_NOPAD.encode(raw))] is [raw]. *)
Hypothesis base32_decode_encode :
  ∀ raw, Forall (λ b, (b < 256)%N) raw → base32_decode (base32_encode raw) = Some raw.
(** [BASE32_NOPAD] accepts only the canonical spelling: its specification
    checks trailing bits and has no padding, translation or ignored
    characters. *)
Hypothesis base32_canonical :
  ∀ s raw, base32_decode s = Some raw → base32_encode raw = s.
(** The decoder yields bytes. *)
Hypothesis base32_bytes :
  ∀ s raw, base32_decode s = Some raw → Forall (λ b, (b < 256)%N) raw.

Lemma nkey_roundtrip_aux nkey role key :
  decode_public base32_decode nkey = Ok (role, key) ↔
  is_key key ∧ encode_public base32_encode role key = Ok nkey.
Proof using All.
  rewrite decode_layout. unfold encode_public, encode_nkey. split.
  - intros (Hlen & lo & hi & Hdec & Hcrc). rewrite Hlen. simpl.
    pose proof (base32_bytes _ _ Hdec) as Hb.
    inversion Hb as [| ? ? _ Hb']; subst.
    apply Forall_app in Hb' as [Hkey Htail].
    inversion Htail as [| ? ? Hlo Hhi']; subst. inversion Hhi' as [| ? ? Hhi _]; subst.
    assert (N.land (crc16 (prefix_byte role :: key)) 255 = lo ∧
            N.shiftr (crc16 (prefix_byte role :: key)) 8 = hi) as [-> ->].
    { rewrite <- Hcrc. change 255%N with (N.ones 8).
      rewrite N.land_ones, N.shiftr_div_pow2. change (2 ^ 8)%N with 256%N.
      rewrite N.mul_comm, N.Div0.mod_add, N.div_add, N.mod_small, N.div_small by lia. lia. }
    split; [split; [done | exact Hkey] |]. by rewrite (base32_canonical _ _ Hdec).
  - intros [[Hlen Hkey] H]. rewrite Hlen in H. simpl in H. injection H as <-.
    split; [done |].
    exists (N.land (crc16 (prefix_byte role :: key)) 255),
           (N.shiftr (crc16 (prefix_byte role :: key)) 8).
    split; [| apply crc_le_bytes].
    rewrite base32_decode_encode; [done |].
    constructor; [apply prefix_byte_bound |].
    apply Forall_app. split; [exact Hkey |].
    pose proof (crc16_bound (prefix_byte role :: key)).
    constructor; [apply (land_bound _ 8) |]. constructor; [| constructor].
    rewrite N.shiftr_div_pow2. apply N.Div0.div_lt_upper_bound. lia.
Qed.
End properties.

(** A string decodes to a role and key exactly when it is the canonical
    encoding of a 32-byte key for that role: encoding round-trips, every
    accepted text has one spelling, and a wrong length, checksum or prefix is
    never accepted. *)
Theorem nkey_roundtrip base32_encode base32_decode nkey role key
    (base32_decode_encode :
       ∀ raw, Forall (λ b, (b < 256)%N) raw → base32_decode (base32_encode raw) = Some raw)
    (base32_canonical : ∀ s raw, base32_decode s = Some raw → base32_encode raw = s)
    (base32_bytes : ∀ s raw, base32_decode s = Some raw → Forall (λ b, (b < 256)%N) raw) :
  decode_public base32_decode nkey = Ok (role, key) ↔
  is_key key ∧ encode_public base32_encode role key = Ok nkey.
Proof. by apply nkey_roundtrip_aux. Qed.

