(* ===== verification/Schema.v ===== *)
(** * The catalog schema ([crates/basil-core/src/core/catalog/schema.rs])

    The key inventory and the backend routing table, with the derived
    attributes the loader, the decision point and the capability check read:
    the effective engine, the credential-issuer and materialize-to-use tests,
    and the label accessors. *)

From S2P Require Import Prelude RustStr BTreeMap Nkey.

Inductive BackendKind := Vault | Keystore | AwsKms | GcpKms.
Inductive Class_ := Asymmetric | Symmetric | Value | Public | Sealing.
Inductive Engine := Transit | Kv2 | Pki.

#[export] Instance BackendKind_eq_dec : EqDecision BackendKind.
Proof. solve_decision. Defined.
#[export] Instance Class_eq_dec : EqDecision Class_.
Proof. solve_decision. Defined.
#[export] Instance Engine_eq_dec : EqDecision Engine.
Proof. solve_decision. Defined.

Definition Engine_token (e : Engine) : string :=
  match e with Transit => "transit" | Kv2 => "kv2" | Pki => "pki" end.

Inductive Capability :=
| ByokImport | PrehashSign | PqcTransit | PkiCrl | JwtAuth | ApproleAuth
| OtherCapability (s : string).

#[export] Instance Capability_eq_dec : EqDecision Capability.
Proof. solve_decision. Defined.

Definition Capability_token (c : Capability) : string :=
  match c with
  | ByokImport => "byok-import"
  | PrehashSign => "prehash-sign"
  | PqcTransit => "pqc-transit"
  | PkiCrl => "pki-crl"
  | JwtAuth => "jwt-auth"
  | ApproleAuth => "approle-auth"
  | OtherCapability s => s
  end.

Definition is_known (c : Capability) : bool :=
  match c with OtherCapability _ => false | _ => true end.

Definition Capability_from (s : string) : Capability :=
  if String.eqb s "byok-import" then ByokImport
  else if String.eqb s "prehash-sign" then PrehashSign
  else if String.eqb s "pqc-transit" then PqcTransit
  else if String.eqb s "pki-crl" then PkiCrl
  else if String.eqb s "jwt-auth" then JwtAuth
  else if String.eqb s "approle-auth" then ApproleAuth
  else OtherCapability s.

Inductive KeyAlgorithm :=
| Ed25519 | Ed25519Nkey | Rsa2048 | EcdsaP256 | EcdsaP384 | EcdsaP521
| Aes256Gcm | ChaCha20Poly1305 | X25519
| MlKem512 | MlKem768 | MlKem1024 | MlDsa44 | MlDsa65 | MlDsa87.

#[export] Instance KeyAlgorithm_eq_dec : EqDecision KeyAlgorithm.
Proof. solve_decision. Defined.

Record BackendRef := {
  kind : BackendKind;
  addr : string;
  engines : list Engine;
  capabilities : list Capability;
  mint_key_types : list KeyAlgorithm;
  requires : list Capability;
}.

Inductive MissingPolicy := MissingError | MissingWarn | MissingGenerate.

#[export] Instance MissingPolicy_eq_dec : EqDecision MissingPolicy.
Proof. solve_decision. Defined.

Inductive NixCacheState := Pending | Enrolled.

#[export] Instance NixCacheState_eq_dec : EqDecision NixCacheState.
Proof. solve_decision. Defined.

(** The decoded 32 bytes of a pinned Ed25519 public key. *)
Abbreviation NixCachePublicKey := (list N).

Inductive PublicKeyError := NotBase64 | NotThirtyTwoBytes | NotCanonical.

(** [Deserialize for NixCachePublicKey]: padded standard base64 (the crate
    [base64], a parameter), exactly 32 bytes, canonical spelling. *)
Definition NixCachePublicKey_deserialize (base64_decode : string → option (list N))
    (base64_encode : list N → string) (encoded : string)
    : result PublicKeyError NixCachePublicKey :=
  match base64_decode encoded with
  | None => Err NotBase64
  | Some decoded =>
      return_err NotThirtyTwoBytes when negb (length decoded =? 32)%nat otherwise
      return_err NotCanonical when negb (String.eqb (base64_encode decoded) encoded) otherwise
      Ok decoded
  end.

Record NixCacheIdentity := {
  key_name : string;
  state : NixCacheState;
  backend_version : N;
  public_key : option NixCachePublicKey;
}.

Record PinnedParties := {
  party_u : option string;
  party_v : option string;
}.

Record SealingPin := {
  parties : option PinnedParties;
  external_aad : list string;
}.

Definition is_configured (pin : SealingPin) : bool :=
  (match parties pin with Some _ => true | None => false end) ||
  negb (match external_aad pin with [] => true | _ => false end).

Definition external_aad_allowed (pin : SealingPin) (aad : string) : bool :=
  (match external_aad pin with [] => true | _ => false end) ||
  existsb (λ allowed, String.eqb allowed aad) (external_aad pin).

Inductive GenerateSpec :=
| AsciiPrintable (len : N)
| Base64 (len : N)
| Hex (len : N)
| AgeX25519
| SelfSignedTls (common_name validity : string)
| SelfSignedTlsPairOf (pair_of : string).

(** ** Labels *)

Abbreviation Labels := (list string).

Definition equals_sign : ascii := "="%char.

(** The first [name=value] label with this name. *)
Fixpoint label_get (labels : Labels) (key : string) : option string :=
  match labels with
  | [] => None
  | l :: labels' =>
      match split_once equals_sign l with
      | Some (k, v) => if String.eqb k key then Some v else label_get labels' key
      | None => label_get labels' key
      end
  end.

Definition nats_type (labels : Labels) : option NkeyType :=
  match label_get labels "nats_type" with
  | None => None
  | Some value =>
      match chars value with
      | [c] => from_letter c
      | _ => None
      end
  end.

Definition has_nats_type (labels : Labels) : bool :=
  match nats_type labels with Some _ => true | None => false end.

(** ** Keys *)

Record KeyEntry := {
  class : Class_;
  key_type : option KeyAlgorithm;
  backend : string;
  engine : option Engine;
  path : string;
  public_path : option string;
  writable : bool;
  missing : MissingPolicy;
  nix_cache : option NixCacheIdentity;
  generate : option GenerateSpec;
  sealing_pin : option SealingPin;
  labels : Labels;
  description : string;
}.

Record Catalog := {
  backends : list (string * BackendRef);
  keys_ : list (string * KeyEntry);
}.

Definition effective_engine (key : KeyEntry) : Engine :=
  match engine key with
  | Some e => e
  | None =>
      match class key with
      | Asymmetric | Symmetric => Transit
      | Value | Public | Sealing => Kv2
      end
  end.

Definition is_credential_issuer (key : KeyEntry) : bool :=
  let nats_issuer :=
    match nats_type (labels key) with
    | Some Operator | Some Account => true
    | _ => false
    end in
  let svid_issuer :=
    match label_get (labels key) "svid_kind" with
    | Some v => String.eqb v "jwt" || String.eqb v "x509"
    | None => false
    end in
  nats_issuer || svid_issuer.

Definition is_materialize_to_use (key : KeyEntry) : bool :=
  match class key with
  | Sealing => true
  | Asymmetric => bool_decide (effective_engine key = Kv2)
  | Symmetric | Value | Public => false
  end.

(** ** Algorithms *)

(** The wire key types of [crates/basil-proto/src/types.rs]. *)
Inductive KeyType :=
| KtEd25519 | KtEd25519Nkey | KtRsa2048 | KtEcdsaP256 | KtEcdsaP384 | KtEcdsaP521
| KtMlDsa44 | KtMlDsa65 | KtMlDsa87 | KtMlKem512 | KtMlKem768 | KtMlKem1024.

Definition from_wire_key_type (t : KeyType) : KeyAlgorithm :=
  match t with
  | KtEd25519 => Ed25519
  | KtEd25519Nkey => Ed25519Nkey
  | KtRsa2048 => Rsa2048
  | KtEcdsaP256 => EcdsaP256
  | KtEcdsaP384 => EcdsaP384
  | KtEcdsaP521 => EcdsaP521
  | KtMlDsa44 => MlDsa44
  | KtMlDsa65 => MlDsa65
  | KtMlDsa87 => MlDsa87
  | KtMlKem512 => MlKem512
  | KtMlKem768 => MlKem768
  | KtMlKem1024 => MlKem1024
  end.

Definition KeyAlgorithm_token (a : KeyAlgorithm) : string :=
  match a with
  | Ed25519 => "ed25519"
  | Ed25519Nkey => "ed25519-nkey"
  | Rsa2048 => "rsa-2048"
  | EcdsaP256 => "ecdsa-p256"
  | EcdsaP384 => "ecdsa-p384"
  | EcdsaP521 => "ecdsa-p521"
  | Aes256Gcm => "aes-256-gcm"
  | ChaCha20Poly1305 => "chacha20-poly1305"
  | X25519 => "x25519"
  | MlKem512 => "ml-kem-512"
  | MlKem768 => "ml-kem-768"
  | MlKem1024 => "ml-kem-1024"
  | MlDsa44 => "ml-dsa-44"
  | MlDsa65 => "ml-dsa-65"
  | MlDsa87 => "ml-dsa-87"
  end.

Definition is_spiffe_jwt_svid_profile (a : KeyAlgorithm) : bool :=
  match a with
  | Rsa2048 | EcdsaP256 | EcdsaP384 => true
  | Ed25519 | Ed25519Nkey | EcdsaP521 | Aes256Gcm | ChaCha20Poly1305 | X25519
  | MlKem512 | MlKem768 | MlKem1024 | MlDsa44 | MlDsa65 | MlDsa87 => false
  end.

Definition required_capability (a : KeyAlgorithm) : option Capability :=
  match a with
  | Ed25519 | Ed25519Nkey | Rsa2048 | EcdsaP256 | EcdsaP384 | EcdsaP521
  | Aes256Gcm | ChaCha20Poly1305 | X25519 | MlKem512 | MlKem768 | MlKem1024
  | MlDsa44 | MlDsa65 | MlDsa87 => None
  end.

(** ** Lemmas *)

Lemma Capability_from_token c :
  (∀ s, c = OtherCapability s → is_known (Capability_from s) = false) →
  Capability_from (Capability_token c) = c.
Proof.
  destruct c as [| | | | | | s]; try done. intros H. specialize (H s eq_refl).
  unfold Capability_from in *. simpl.
  repeat (case_match; [simpl in H; done |]). done.
Qed.

Lemma Capability_token_from s : Capability_token (Capability_from s) = s.
Proof.
  unfold Capability_from.
  repeat match goal with
  | |- context [String.eqb s ?t] => destruct (String.eqb_spec s t) as [-> | _]; [done |]
  end.
  done.
Qed.
