(* ===== verification/CatalogLoader.v ===== *)
(** * Catalog validation
      ([crates/basil-core/src/core/catalog/loader.rs], the catalog half)

    The loader rejects a catalog at the first key that violates one of its
    guardrails.  [validate_catalog] is the translation of the checks in their
    order; [key_ok] states, clause by clause and independently of that order,
    what an accepted key satisfies. *)

From S2P Require Import Prelude RustStr BTreeMap Glob Policy Evidence Nkey Schema.

Inductive LoadWarning :=
| MissingNatsType (key : string)
| ComplexSubjectExpression (subject : SubjectName) (depth leaves : nat).

Inductive LoadError :=
| JsonError (what source : string)
| UnknownBackend (key backend : string)
| UnknownRole (rule role : string)
| LegacyCatalogV1
| LegacyPolicyV2
| EmptySubjectName
| SubjectNameTooLong (bytes : nat)
| InvalidSubjectShape (subject reason : string)
| SubjectExpressionTooComplex (subject : string) (depth max_depth leaves max_leaves : nat)
| PredicateDomainMismatch (subject predicate domain : string)
| SymbolicProcessIdentity (subject predicate domain : string)
| LocalAccountResolution (subject account reason : string)
| LocalAccountDatabase (path reason : string)
| EmptySignaturePublic (subject : string)
| MalformedSignaturePublic (subject algorithm reason : string)
| EmptyRuleSubjects (rule : string)
| UnknownSubject (rule subject : string)
| DuplicateRuleId (rule : string)
| BlankDescription (key : string)
| MissingKeyType (key class : string)
| UnexpectedKeyType (key : string)
| SealingKeyTypeNotX25519 (key key_type : string)
| GenerateWithoutRecipe (key class : string)
| UnexpectedGenerate (key class : string)
| InvalidPkiPath (key path : string)
| Kv2SigningKeyTypeNotEd25519 (key key_type : string)
| NonSpiffeJwtSvidAlg (key key_type : string)
| MissingPublicPath (key class : string)
| UnexpectedPublicPath (key class : string)
| UnexpectedSealingPin (key class : string)
| EmptySealingPin (key : string)
| EmptyPinnedPartyIdentity (key : string)
| InvalidNixCacheIdentity (key reason : string)
| DuplicateNixCacheKeyName (key_name first_key second_key : string)
| DuplicateReservedLabel (key label : string)
| InvalidReservedLabel (key label reason : string)
| BadGlob (rule : string) (source : GlobError)
| BadTerm (rule : string) (source : ActionTermError)
| BadKeyName (key : string)
| BadSubjectName (subject : string)
| NonBreakGlassAnyTarget (rule : string).

Abbreviation checked := (result LoadError unit).

Definition class_str (c : Class_) : string :=
  match c with
  | Asymmetric => "asymmetric"
  | Symmetric => "symmetric"
  | Value => "value"
  | Public => "public"
  | Sealing => "sealing"
  end.

(** ** The individual guardrails *)

Definition key_char_start (c : N) : bool := is_ascii_lowercase c || is_ascii_digit c.
Definition key_char (c : N) : bool :=
  is_ascii_lowercase c || is_ascii_digit c || (c =? 95)%N.

Definition key_segment_ok (seg : string) : bool :=
  match chars seg with
  | c :: rest => key_char_start c && forallb key_char rest
  | [] => false
  end.

Definition validate_key_name (name : string) : checked :=
  if negb (is_empty name) && forallb key_segment_ok (split dot name) then Ok tt
  else Err (BadKeyName (escape name)).

Definition validate_backend_ref (catalog : Catalog) (name : string) (key : KeyEntry) : checked :=
  if contains_key (backends catalog) (backend key) then Ok tt
  else Err (UnknownBackend name (backend key)).

Definition validate_description (name : string) (key : KeyEntry) : checked :=
  if negb (is_blank (description key)) then Ok tt else Err (BlankDescription name).

Definition require_key_type (name : string) (key : KeyEntry) : checked :=
  match key_type key with
  | Some _ => Ok tt
  | None => Err (MissingKeyType name (class_str (class key)))
  end.

Definition reject_key_type (name : string) (key : KeyEntry) : checked :=
  match key_type key with
  | None => Ok tt
  | Some _ => Err (UnexpectedKeyType name)
  end.

Definition require_sealing_key_type (name : string) (key : KeyEntry) : checked :=
  let? _ := require_key_type name key in
  match key_type key with
  | Some X25519 | Some MlKem512 | Some MlKem768 | Some MlKem1024 | None => Ok tt
  | Some other => Err (SealingKeyTypeNotX25519 name (KeyAlgorithm_token other))
  end.

Definition validate_key_type (name : string) (key : KeyEntry) : checked :=
  match class key with
  | Asymmetric | Symmetric => require_key_type name key
  | Sealing => require_sealing_key_type name key
  | Value => reject_key_type name key
  | Public => Ok tt
  end.

Definition is_recipe_class (c : Class_) : bool :=
  match c with Value | Public => true | _ => false end.

Definition validate_generate (name : string) (key : KeyEntry) : checked :=
  match is_recipe_class (class key), missing key, generate key with
  | true, MissingGenerate, None => Err (GenerateWithoutRecipe name (class_str (class key)))
  | false, _, Some _ => Err (UnexpectedGenerate name (class_str (class key)))
  | _, _, _ => Ok tt
  end.

Definition slash : ascii := "/"%char.

Definition is_pki_issue_path (p : string) : bool :=
  match split slash p with
  | mount :: issue :: _ :: _ => starts_with "pki" mount && String.eqb issue "issue"
  | _ => false
  end.

Definition validate_engine (name : string) (key : KeyEntry) : checked :=
  if bool_decide (class key = Asymmetric) && bool_decide (engine key = Some Kv2) then
    match key_type key with
    | Some Ed25519 | None => Ok tt
    | Some other => Err (Kv2SigningKeyTypeNotEd25519 name (KeyAlgorithm_token other))
    end
  else if negb (bool_decide (engine key = Some Pki)) then Ok tt
  else if bool_decide (class key = Asymmetric) && is_pki_issue_path (path key) then Ok tt
  else Err (InvalidPkiPath name (path key)).

Definition validate_jwt_svid_issuer_alg (name : string) (key : KeyEntry) : checked :=
  if negb (bool_decide (label_get (labels key) "svid_kind" = Some "jwt")) then Ok tt
  else
    match key_type key with
    | None => Ok tt
    | Some alg =>
        if is_spiffe_jwt_svid_profile alg then Ok tt
        else Err (NonSpiffeJwtSvidAlg name (KeyAlgorithm_token alg))
    end.

Definition validate_public_path (name : string) (key : KeyEntry) : checked :=
  let has_path :=
    match public_path key with Some p => negb (is_blank p) | None => false end in
  if is_materialize_to_use key then
    if has_path then Ok tt else Err (MissingPublicPath name (class_str (class key)))
  else
    match public_path key with
    | None => Ok tt
    | Some _ => Err (UnexpectedPublicPath name (class_str (class key)))
    end.

Definition empty_slot (p : PinnedParties) : bool :=
  existsb is_empty
    (match party_u p with Some s => [s] | None => [] end ++
     match party_v p with Some s => [s] | None => [] end).

Definition validate_sealing_pin (name : string) (key : KeyEntry) : checked :=
  match sealing_pin key with
  | None => Ok tt
  | Some pin =>
      return_err (UnexpectedSealingPin name (class_str (class key)))
        when negb (bool_decide (class key = Sealing)) otherwise
      return_err (EmptySealingPin name) when negb (is_configured pin) otherwise
      match parties pin with
      | Some p => return_err (EmptyPinnedPartyIdentity name) when empty_slot p otherwise Ok tt
      | None => Ok tt
      end
  end.

Definition nix_name_byte (b : N) : bool :=
  is_ascii_alphanumeric b || (b =? 46)%N || (b =? 95)%N || (b =? 45)%N.

Definition valid_nix_cache_key_name (name : string) : bool :=
  let bs := bytes name in
  ((1 <=? length bs)%nat && (length bs <=? 128)%nat) &&
  match bs with
  | b :: rest => is_ascii_alphanumeric b && forallb nix_name_byte rest
  | [] => false
  end.

Definition validate_nix_cache_identity (catalog : Catalog) (name : string) (key : KeyEntry)
    : checked :=
  match nix_cache key with
  | None => Ok tt
  | Some nix =>
      let invalid reason := InvalidNixCacheIdentity name reason in
      return_err (invalid "class must be asymmetric")
        when negb (bool_decide (class key = Asymmetric)) otherwise
      return_err (invalid "keyType must be ed25519")
        when negb (bool_decide (key_type key = Some Ed25519)) otherwise
      return_err (invalid "engine must be transit")
        when negb (bool_decide (effective_engine key = Transit)) otherwise
      return_err (invalid "backend path must not be blank") when is_blank (path key) otherwise
      return_err (invalid "missing=generate is forbidden; use explicit Nix cache enrollment")
        when bool_decide (missing key = MissingGenerate) otherwise
      let? b := ok_or (invalid "backend must exist") (get (backends catalog) (backend key)) in
      return_err (invalid "backend must be OpenBao or Vault transit")
        when negb (bool_decide (kind b = Vault)) otherwise
      return_err (invalid "backendVersion must be 1")
        when negb (backend_version nix =? 1)%N otherwise
      return_err (invalid "keyName must match [A-Za-z0-9][A-Za-z0-9._-]{0,127}")
        when negb (valid_nix_cache_key_name (key_name nix)) otherwise
      match state nix, public_key nix with
      | Pending, None | Enrolled, Some _ => Ok tt
      | Pending, Some _ => Err (invalid "pending state forbids publicKey")
      | Enrolled, None => Err (invalid "enrolled state requires publicKey")
      end
  end.

(** ** Reserved labels *)

Definition is_reserved_label (label : string) : bool :=
  existsb (String.eqb label)
    ["crypto_provider"; "crypto_provider_version"; "pqc_algorithm"; "pqc_custody";
     "pqc_storage_key"; "crypto_provider_policy"; "migration_target"; "broker_key_use"].

Definition reserved_value_ok (label value : string) : bool :=
  if String.eqb label "crypto_provider" then
    existsb (String.eqb value) ["vault-transit"; "local-software"]
  else if String.eqb label "pqc_algorithm" then
    existsb (String.eqb value)
      ["ml-dsa-44"; "ml-dsa-65"; "ml-dsa-87"; "ml-kem-512"; "ml-kem-768"; "ml-kem-1024"]
  else if String.eqb label "pqc_custody" then
    existsb (String.eqb value) ["backend-native"; "software-encrypted"]
  else if String.eqb label "crypto_provider_policy" then
    existsb (String.eqb value) ["backend-preferred"; "backend-required"; "local-software"]
  else if existsb (String.eqb label)
            ["crypto_provider_version"; "migration_target"; "pqc_storage_key"] then
    negb (is_blank value)
  else if String.eqb label "broker_key_use" then
    existsb (String.eqb value)
      ["response-signing"; "request-encryption"; "response-encryption"]
  else true.

Definition validate_reserved_label_value (name label value : string) : checked :=
  if reserved_value_ok label value then Ok tt
  else Err (InvalidReservedLabel name label "unsupported or empty value").

Definition record_reserved_label (name label : string) (seen : list string)
    : result LoadError (list string) :=
  let '(fresh, seen') := set_insert seen label in
  if fresh : bool then Ok seen' else Err (DuplicateReservedLabel name label).

Definition validate_bare_reserved_label (name label : string) : checked :=
  if negb (is_reserved_label label) then Ok tt
  else Err (InvalidReservedLabel name label "reserved labels must use name=value form").

Definition validate_reserved_label (name : string) (seen : list string) (label : string)
    : result LoadError (list string) :=
  match split_once equals_sign label with
  | None => let? _ := validate_bare_reserved_label name label in Ok seen
  | Some (label_key, value) =>
      if negb (is_reserved_label label_key) then Ok seen
      else
        let? seen' := record_reserved_label name label_key seen in
        let? _ := validate_reserved_label_value name label_key value in
        Ok seen'
  end.

Definition validate_reserved_labels (name : string) (key : KeyEntry) : checked :=
  let? _ := for_each (validate_reserved_label name) (labels key) [] in Ok tt.

(** ** Keys and the catalog *)

Definition warn_missing_nats_type (name : string) (key : KeyEntry) : list LoadWarning :=
  if bool_decide (key_type key = Some Ed25519Nkey) && negb (has_nats_type (labels key))
  then [MissingNatsType name] else [].

(** Returns the warnings extended with those of the key. *)
Definition validate_key (catalog : Catalog) (name : string) (key : KeyEntry)
    (warnings : list LoadWarning) : result LoadError (list LoadWarning) :=
  let? _ := validate_key_name name in
  let? _ := validate_backend_ref catalog name key in
  let? _ := validate_description name key in
  let? _ := validate_key_type name key in
  let? _ := validate_generate name key in
  let? _ := validate_engine name key in
  let? _ := validate_jwt_svid_issuer_alg name key in
  let? _ := validate_public_path name key in
  let? _ := validate_sealing_pin name key in
  let? _ := validate_nix_cache_identity catalog name key in
  let? _ := validate_reserved_labels name key in
  Ok (warnings ++ warn_missing_nats_type name key).

(** One iteration of the loop: the state is the warnings so far and the Nix
    verifier identities seen, with the key that declared each. *)
Definition validate_catalog_step (catalog : Catalog)
    (st : list LoadWarning * list (string * string)) (entry : string * KeyEntry)
    : result LoadError (list LoadWarning * list (string * string)) :=
  let '(warnings, nix_key_names) := st in
  let '(name, key) := entry in
  let? warnings' := validate_key catalog name key warnings in
  match nix_cache key with
  | None => Ok (warnings', nix_key_names)
  | Some nix =>
      match get nix_key_names (key_name nix) with
      | Some first_key => Err (DuplicateNixCacheKeyName (key_name nix) first_key name)
      | None => Ok (warnings', insert nix_key_names (key_name nix) name)
      end
  end.

Definition validate_catalog (catalog : Catalog) : result LoadError (list LoadWarning) :=
  let? (warnings, _) := for_each (validate_catalog_step catalog) (keys_ catalog) ([], []) in
  Ok warnings.

(** ** What an accepted key satisfies *)

Definition key_name_ok (name : string) : Prop :=
  ∀ seg, seg ∈ split dot name →
    ∃ c rest, chars seg = c :: rest ∧ key_char_start c = true ∧
              Forall (λ c, key_char c = true) rest.

Definition key_type_ok (key : KeyEntry) : Prop :=
  match class key with
  | Asymmetric | Symmetric => is_Some (key_type key)
  | Sealing => ∃ alg, key_type key = Some alg ∧ alg ∈ [X25519; MlKem512; MlKem768; MlKem1024]
  | Value => key_type key = None
  | Public => True
  end.

Definition generate_ok (key : KeyEntry) : Prop :=
  (is_Some (generate key) → class key = Value ∨ class key = Public) ∧
  (missing key = MissingGenerate → class key = Value ∨ class key = Public →
   is_Some (generate key)).

Definition engine_ok (key : KeyEntry) : Prop :=
  (engine key = Some Kv2 → class key = Asymmetric →
   ∀ alg, key_type key = Some alg → alg = Ed25519) ∧
  (engine key = Some Pki → class key = Asymmetric ∧ is_pki_issue_path (path key) = true).

Definition jwt_issuer_ok (key : KeyEntry) : Prop :=
  label_get (labels key) "svid_kind" = Some "jwt" →
  ∀ alg, key_type key = Some alg → is_spiffe_jwt_svid_profile alg = true.

Definition public_path_ok (key : KeyEntry) : Prop :=
  if is_materialize_to_use key
  then ∃ p, public_path key = Some p ∧ is_blank p = false
  else public_path key = None.

Definition sealing_pin_ok (key : KeyEntry) : Prop :=
  ∀ pin, sealing_pin key = Some pin →
    class key = Sealing ∧
    (is_Some (parties pin) ∨ external_aad pin ≠ []) ∧
    (∀ p, parties pin = Some p → party_u p ≠ Some "" ∧ party_v p ≠ Some "").

Definition nix_identity_ok (catalog : Catalog) (key : KeyEntry) : Prop :=
  ∀ nix, nix_cache key = Some nix →
    class key = Asymmetric ∧ key_type key = Some Ed25519 ∧ effective_engine key = Transit ∧
    is_blank (path key) = false ∧ missing key ≠ MissingGenerate ∧
    (∃ b, get (backends catalog) (backend key) = Some b ∧ kind b = Vault) ∧
    backend_version nix = 1%N ∧ valid_nix_cache_key_name (key_name nix) = true ∧
    (state nix = Enrolled ↔ is_Some (public_key nix)).

(** The reserved label names a key uses, in order. *)
Definition reserved_keys (ls : Labels) : list string :=
  flat_map (λ l, match split_once equals_sign l with
                 | Some (k, _) => if is_reserved_label k then [k] else []
                 | None => []
                 end) ls.

Definition label_ok (l : string) : Prop :=
  match split_once equals_sign l with
  | None => is_reserved_label l = false
  | Some (k, v) => is_reserved_label k = true → reserved_value_ok k v = true
  end.

Definition labels_ok (ls : Labels) : Prop := Forall label_ok ls ∧ NoDup (reserved_keys ls).

Record key_ok (catalog : Catalog) (name : string) (key : KeyEntry) : Prop := {
  ok_name : key_name_ok name;
  ok_backend : is_Some (get (backends catalog) (backend key));
  ok_description : is_blank (description key) = false;
  ok_key_type : key_type_ok key;
  ok_generate : generate_ok key;
  ok_engine : engine_ok key;
  ok_jwt_issuer : jwt_issuer_ok key;
  ok_public_path : public_path_ok key;
  ok_sealing_pin : sealing_pin_ok key;
  ok_nix : nix_identity_ok catalog key;
  ok_labels : labels_ok (labels key);
}.

(** ** Each guardrail decides its clause *)

Lemma validate_key_name_ok name : validate_key_name name = Ok tt ↔ key_name_ok name.
Proof.
  unfold validate_key_name, key_name_ok. split.
  - intros H seg Hseg. inv_ok H. apply andb_true_iff in E as [_ Hf].
    rewrite forallb_elem in Hf. specialize (Hf seg Hseg). unfold key_segment_ok in Hf.
    destruct (chars seg) as [| c rest]; [done |]. apply andb_true_iff in Hf as [Hc Hr].
    exists c, rest. split; [done |]. split; [done |].
    rewrite List.Forall_forall. by apply forallb_forall.
  - intros H. assert (Hf : forallb key_segment_ok (split dot name) = true).
    { apply forallb_elem. intros seg Hseg. destruct (H seg Hseg) as (c & rest & Hc & Hs & Hr).
      unfold key_segment_ok. rewrite Hc, Hs. simpl. apply forallb_forall.
      by rewrite <- List.Forall_forall. }
    rewrite Hf. destruct name as [| a name]; [| done]. exfalso.
    destruct (H "") as (c & rest & Hc & _); [apply list_elem_of_here | done].
Qed.

Lemma validate_backend_ref_ok catalog name key :
  validate_backend_ref catalog name key = Ok tt ↔ is_Some (get (backends catalog) (backend key)).
Proof.
  unfold validate_backend_ref, contains_key. by destruct (get _ _).
Qed.

Lemma validate_description_ok name key :
  validate_description name key = Ok tt ↔ is_blank (description key) = false.
Proof. unfold validate_description. by destruct (is_blank _). Qed.

Lemma validate_key_type_ok name key : validate_key_type name key = Ok tt ↔ key_type_ok key.
Proof.
  unfold validate_key_type, key_type_ok, require_sealing_key_type, require_key_type,
    reject_key_type.
  destruct (class key); try (destruct (key_type key); split; done || by intros [? ?]).
  destruct (key_type key) as [alg |]; [| split; [done | by intros (? & ? & _)]].
  split.
  - intros H. exists alg. split; [done |].
    destruct alg; try done; rewrite !elem_of_cons; tauto.
  - intros (alg' & [= <-] & Hin). rewrite !elem_of_cons in Hin.
    destruct Hin as [-> | [-> | [-> | [-> | Hin]]]]; try done.
    by apply not_elem_of_nil in Hin.
Qed.

Lemma validate_generate_ok name key : validate_generate name key = Ok tt ↔ generate_ok key.
Proof.
  unfold validate_generate, generate_ok, is_recipe_class.
  assert (Hn : ¬ is_Some (@None GenerateSpec)) by (by intros [? ?]).
  assert (Hs : ∀ g : GenerateSpec, is_Some (Some g)) by eauto.
  destruct (class key), (missing key), (generate key); split; try done; intros H;
    first [ by split; intros; try done; destruct_or?; auto
          | exfalso; destruct H as [H1 H2]; (done || naive_solver) ].
Qed.

Lemma validate_engine_ok name key : validate_engine name key = Ok tt ↔ engine_ok key.
Proof.
  unfold validate_engine, engine_ok.
  destruct (class key), (engine key) as [[] |]; simpl;
    try (split; [intros _; split; done | done]);
    try (split; [done | by intros [_ [? _]%(λ f, f eq_refl)]]).
  - destruct (key_type key) as [alg |].
    + split.
      * intros H. split; [| done]. intros _ _ alg' [= <-]. by destruct alg.
      * intros [H _]. by rewrite (H eq_refl eq_refl alg eq_refl).
    + by split.
  - destruct (is_pki_issue_path (path key)); split; try done.
    by intros [_ [_ ?]%(λ f, f eq_refl)].
Qed.

Lemma validate_jwt_svid_issuer_alg_ok name key :
  validate_jwt_svid_issuer_alg name key = Ok tt ↔ jwt_issuer_ok key.
Proof.
  unfold validate_jwt_svid_issuer_alg, jwt_issuer_ok.
  destruct (bool_decide (label_get (labels key) "svid_kind" = Some "jwt")) eqn:E; bool_facts; simpl.
  - destruct (key_type key) as [alg |]; [| by split].
    destruct (is_spiffe_jwt_svid_profile alg) eqn:Ha.
    + split; [| done]. by intros _ _ alg' [= <-].
    + split; [done |]. intros H. specialize (H E alg eq_refl). congruence.
  - by split.
Qed.

Lemma validate_public_path_ok name key :
  validate_public_path name key = Ok tt ↔ public_path_ok key.
Proof.
  unfold validate_public_path, public_path_ok.
  destruct (is_materialize_to_use key), (public_path key) as [p |]; simpl.
  - destruct (is_blank p) eqn:Hp; split; try done; [| eauto].
    intros (q & [= <-] & ?). congruence.
  - split; [done | by intros (? & ? & _)].
  - by split.
  - by split.
Qed.

Lemma empty_slot_false p : empty_slot p = false ↔ party_u p ≠ Some "" ∧ party_v p ≠ Some "".
Proof.
  unfold empty_slot.
  destruct (party_u p) as [[| ? ?] |], (party_v p) as [[| ? ?] |]; simpl; naive_solver.
Qed.

Lemma validate_sealing_pin_ok name key :
  validate_sealing_pin name key = Ok tt ↔ sealing_pin_ok key.
Proof.
  unfold validate_sealing_pin, sealing_pin_ok.
  destruct (sealing_pin key) as [pin |]; [| by split].
  assert (Hconf : is_configured pin = true ↔ is_Some (parties pin) ∨ external_aad pin ≠ []).
  { unfold is_configured. destruct (parties pin), (external_aad pin); simpl; split; auto;
      try done; by intros [[? ?] | ?]. }
  split.
  - intros H. inv_ok H. bool_facts. intros pin' [= <-]. split; [done |].
    split; [by apply Hconf |]. intros p Hp. rewrite Hp in H.
    destruct (empty_slot p) eqn:He; [done |]. by apply empty_slot_false.
  - intros H. destruct (H pin eq_refl) as (Hc & Hf & Hp). apply Hconf in Hf.
    rewrite Hc, Hf. simpl. destruct (parties pin) as [p |]; [| done].
    specialize (Hp p eq_refl). apply empty_slot_false in Hp. by rewrite Hp.
Qed.

Lemma validate_nix_cache_identity_ok catalog name key :
  validate_nix_cache_identity catalog name key = Ok tt ↔ nix_identity_ok catalog key.
Proof.
  unfold validate_nix_cache_identity, nix_identity_ok.
  destruct (nix_cache key) as [nix |]; [| by split].
  split.
  - intros H nix' [= <-]. inv_ok H. bool_facts. unfold ok_or in *.
    destruct (get (backends catalog) (backend key)) as [b |] eqn:Hb; [| done].
    simplify_eq. split_and!; try done; [eauto |].
    by destruct (state nix), (public_key nix).
  - intros H. destruct (H nix eq_refl) as (-> & -> & -> & -> & Hm & (b & -> & Hk) & -> & -> & Hst).
    destruct (missing key); try done; simpl; rewrite Hk; simpl;
      destruct (state nix), (public_key nix); try done;
      exfalso; destruct Hst as [H1 H2]; try (by specialize (H2 ltac:(eauto)));
      by destruct (H1 eq_refl).
Qed.

Lemma reserved_labels_loop name ls seen :
  set_sorted seen →
  is_ok (for_each (validate_reserved_label name) ls seen) = true ↔
  Forall label_ok ls ∧ NoDup (reserved_keys ls) ∧ (∀ k, k ∈ reserved_keys ls → k ∉ seen).
Proof.
  revert seen; induction ls as [| l ls IH]; intros seen Hs; simpl.
  { split; [| done]. intros _. split; [constructor |]. split; [constructor |].
    by intros k ?%not_elem_of_nil. }
  rewrite Forall_cons_iff. unfold validate_reserved_label at 1, label_ok at 1,
    validate_bare_reserved_label.
  destruct (split_once equals_sign l) as [[k v] |]; simpl.
  - destruct (is_reserved_label k) eqn:Hr; simpl.
    2: { rewrite IH by done. split; [intros (? & ? & ?) | intros ((_ & ?) & ? & ?)]; split_and!; done. }
    unfold record_reserved_label, validate_reserved_label_value.
    pose proof (set_insert_fresh seen k Hs) as Hf.
    pose proof (set_insert_spec seen k) as Hspec.
    pose proof (set_insert_sorted seen k Hs) as Hs'.
    destruct (set_insert seen k) as [[] seen']; simpl in *.
    + destruct (reserved_value_ok k v) eqn:Hv.
      * rewrite IH by done. setoid_rewrite Hspec. rewrite list.NoDup_cons.
        setoid_rewrite elem_of_cons.
        split.
        -- intros (Hall & Hnd & Hfresh). split; [by split |]. split.
           ++ split; [| done]. intros Hk. by destruct (Hfresh k Hk); left.
           ++ intros k' [-> | Hk']; [by apply Hf |]. intros Hin. by destruct (Hfresh k' Hk'); right.
        -- intros ((_ & Hall) & (Hk & Hnd) & Hfresh). split; [done |]. split; [done |].
           intros k' Hk' [-> | Hin]; [done |]. by apply (Hfresh k'); [right |].
      * split; [done |]. intros ((H & _) & _). by specialize (H eq_refl).
    + split; [done |]. intros (_ & _ & Hfresh).
      assert (Hk : k ∉ seen) by (apply Hfresh, list_elem_of_here).
      by apply Hf in Hk.
  - destruct (is_reserved_label l); simpl; [split; [done | by intros ((? & _) & _)] |].
    rewrite IH by done. split; [intros (? & ? & ?) | intros ((_ & ?) & ? & ?)]; split_and!; done.
Qed.

Lemma validate_reserved_labels_ok name key :
  validate_reserved_labels name key = Ok tt ↔ labels_ok (labels key).
Proof.
  assert (Hs : set_sorted (@nil string)) by constructor.
  pose proof (reserved_labels_loop name (labels key) [] Hs) as H.
  unfold validate_reserved_labels, labels_ok.
  destruct (for_each _ _ _); simpl in H; split; try done.
  - intros _. destruct H as [H _]. by destruct (H eq_refl) as (? & ? & _).
  - intros [Hall Hnd]. destruct H as [_ H].
    assert (false = true); [| done]. apply H. split_and!; try done.
    by intros k _ ?%not_elem_of_nil.
Qed.

Lemma validate_key_ok catalog name key w w' :
  validate_key catalog name key w = Ok w' ↔
  key_ok catalog name key ∧ w' = w ++ warn_missing_nats_type name key.
Proof.
  assert (Htt : ∀ r : checked, (∃ u, r = Ok u) ↔ r = Ok tt).
  { intros r. split; [by intros [[] ?] | eauto]. }
  unfold validate_key. split.
  - intros H. inv_ok H.
    repeat match goal with u : unit |- _ => destruct u end.
    split; [| done].
    split; [ eapply validate_key_name_ok | eapply validate_backend_ref_ok
           | eapply validate_description_ok | eapply validate_key_type_ok
           | eapply validate_generate_ok | eapply validate_engine_ok
           | eapply validate_jwt_svid_issuer_alg_ok | eapply validate_public_path_ok
           | eapply validate_sealing_pin_ok | eapply validate_nix_cache_identity_ok
           | eapply validate_reserved_labels_ok ]; eassumption.
  - intros [[H1 H2 H3 H4 H5 H6 H7 H8 H9 H10 H11] ->].
    rewrite <- (validate_key_name_ok name) in H1.
    rewrite <- (validate_backend_ref_ok catalog name) in H2.
    rewrite <- (validate_description_ok name) in H3.
    rewrite <- (validate_key_type_ok name) in H4.
    rewrite <- (validate_generate_ok name) in H5.
    rewrite <- (validate_engine_ok name) in H6.
    rewrite <- (validate_jwt_svid_issuer_alg_ok name) in H7.
    rewrite <- (validate_public_path_ok name) in H8.
    rewrite <- (validate_sealing_pin_ok name) in H9.
    rewrite <- (validate_nix_cache_identity_ok catalog name) in H10.
    rewrite <- (validate_reserved_labels_ok name) in H11.
    by rewrite H1, H2, H3, H4, H5, H6, H7, H8, H9, H10, H11.
Qed.

(** ** The catalog *)

(** The Nix verifier identities the entries declare, in order. *)
Definition nix_key_names_of (entries : list (string * KeyEntry)) : list string :=
  flat_map (λ e, match nix_cache e.2 with Some nix => [key_name nix] | None => [] end) entries.

Definition catalog_warnings (entries : list (string * KeyEntry)) : list LoadWarning :=
  flat_map (λ e, warn_missing_nats_type e.1 e.2) entries.

Lemma validate_catalog_loop catalog entries w seen w' :
  (∃ seen', for_each (validate_catalog_step catalog) entries (w, seen) = Ok (w', seen')) ↔
  (∀ name key, (name, key) ∈ entries → key_ok catalog name key) ∧
  NoDup (nix_key_names_of entries) ∧
  (∀ n, n ∈ nix_key_names_of entries → get seen n = None) ∧
  w' = w ++ catalog_warnings entries.
Proof.
  revert w seen; induction entries as [| [name key] entries IH]; intros w seen; simpl.
  { rewrite app_nil_r. split.
    - intros [seen' H]. inv_ok H. split_and!; [| apply NoDup_nil_2 | | done].
      + by intros ? ? ?%not_elem_of_nil.
      + by intros ? ?%not_elem_of_nil.
    - intros (_ & _ & _ & ->). eauto. }
  destruct (validate_key catalog name key w) as [w1 | e] eqn:Hk.
  2: { split; [by intros [? ?] |]. intros (Hok & _).
       specialize (Hok name key (list_elem_of_here _ _)).
       assert (validate_key catalog name key w = Ok (w ++ warn_missing_nats_type name key))
         by (by apply validate_key_ok). congruence. }
  apply validate_key_ok in Hk as [Hk ->]. rewrite (app_assoc w).
  assert (Hcons : (∀ n k, (n, k) ∈ (name, key) :: entries → key_ok catalog n k) ↔
                  (∀ n k, (n, k) ∈ entries → key_ok catalog n k)).
  { setoid_rewrite elem_of_cons. split; [by eauto |]. by intros H n k [[= -> ->] | ?]; [| apply H]. }
  rewrite Hcons. destruct (nix_cache key) as [nix |]; simpl; [| apply IH].
  rewrite list.NoDup_cons. setoid_rewrite elem_of_cons.
  destruct (get seen (key_name nix)) as [first |] eqn:Hs.
  { split; [by intros [? ?] |]. intros (_ & _ & Hn & _).
    rewrite (Hn (key_name nix)) in Hs by (by left). done. }
  rewrite IH. split; intros (Hok & Hnd & Hn & ->).
  - assert (Hfresh : key_name nix ∉ nix_key_names_of entries).
    { intros Hin. specialize (Hn _ Hin). by rewrite get_insert_eq in Hn. }
    split_and!; try done. intros n [-> | Hin]; [done |].
    specialize (Hn n Hin). rewrite get_insert_ne in Hn; [done |]. by intros <-.
  - destruct Hnd as [Hfresh Hnd]. split_and!; try done. intros n Hin.
    rewrite get_insert_ne; [apply Hn; by right |]. by intros <-.
Qed.

Lemma validate_catalog_keys catalog warnings :
  validate_catalog catalog = Ok warnings →
  ∀ name key, (name, key) ∈ keys_ catalog → key_ok catalog name key.
Proof.
  unfold validate_catalog. destruct (for_each _ _ _) as [[w seen] |] eqn:E; intros; [| done].
  by destruct (proj1 (validate_catalog_loop catalog (keys_ catalog) [] [] w)
                 (ex_intro _ _ E)) as [Hk _]; apply Hk.
Qed.

(** The loader accepts a catalog exactly when every key meets every
    guardrail ([key_ok]) and no two keys claim one Nix verifier name; the
    warnings are then those of the keys, in key order. *)
Theorem validate_catalog_spec (catalog : Catalog) (warnings : list LoadWarning) :
  validate_catalog catalog = Ok warnings ↔
  (∀ name key, (name, key) ∈ keys_ catalog → key_ok catalog name key) ∧
  NoDup (nix_key_names_of (keys_ catalog)) ∧
  warnings = catalog_warnings (keys_ catalog).
Proof.
  pose proof (validate_catalog_loop catalog (keys_ catalog) [] [] warnings) as H.
  unfold validate_catalog. split.
  - destruct (for_each _ _ _) as [[w seen] | e]; intros Hv; [| done]. inv_ok Hv.
    destruct H as [H _]. destruct H as (H1 & H2 & _ & H3); [eauto | done].
  - intros (H1 & H2 & H3). destruct H as [_ H]. destruct H as [seen' Hf]; [done |].
    by rewrite Hf.
Qed.

(** Valid key names separate every glob that is not [AnyKey]-like. *)
Lemma key_name_ok_a : key_name_ok "a".
Proof. apply validate_key_name_ok. reflexivity. Qed.
Lemma key_name_ok_b : key_name_ok "b".
Proof. apply validate_key_name_ok. reflexivity. Qed.

(** The syntactic test that marks a rule target as match-all (and so
    demands break-glass subjects) is exact over the names a catalog can hold:
    it is true iff the glob matches every valid key name. *)
Theorem matches_all_exact (pattern : string) (g : KeyGlob) :
  KeyGlob_parse pattern = Ok g →
  matches_all g = true ↔ (∀ name, key_name_ok name → KeyGlob_matches g name = true).
Proof.
  intros Hp. split.
  - intros Hall name _. by apply matches_all_matches.
  - intros Hall. destruct (matches_all g) eqn:Hm; [done |].
    destruct (not_matches_all_misses g (proj2 (KeyGlob_parse_wf _ _ Hp)) Hm) as [H | H].
    + by rewrite (Hall "a" key_name_ok_a) in H.
    + by rewrite (Hall "b" key_name_ok_b) in H.
Qed.

