(* ===== verification/Json.v ===== *)
(** * JSON documents without duplicate keys
      ([crates/basil-core/src/core/catalog/loader.rs], [RawEvidenceExpression]
      and [deserialize_unique_btree_map])

    [serde_json] is a parameter of the loader: it turns text into a stream of
    visitor calls.  [JsonInput] is that stream as a tree, objects still with
    their entries in document order and with repetitions.  The loader's own
    visitors turn it into a [Value], whose objects are sorted maps
    ([serde_json::Map] is a [BTreeMap]), and refuse a repeated key. *)

From S2P Require Import Prelude RustStr BTreeMap.

(** An IEEE double, as far as the loader distinguishes them. *)
Inductive f64 :=
| FiniteFloat (mantissa exponent : Z)
| Infinity (negative : bool)
| NaN.

Inductive JsonInput :=
| InNull
| InBool (b : bool)
| InU64 (n : N)
| InI64 (z : Z)
| InF64 (f : f64)
| InStr (s : string)
| InSeq (l : list JsonInput)
| InMap (entries : list (string * JsonInput)).

Inductive Number :=
| PosInt (n : N)
| NegInt (z : Z)
| Float (mantissa exponent : Z).

Inductive Value_ :=
| Null
| Bool (b : bool)
| Num (n : Number)
| Str (s : string)
| Array (values : list Value_)
| Object (fields : list (string * Value_)).

Definition as_object (v : Value_) : option (list (string * Value_)) :=
  match v with Object m => Some m | _ => None end.
Definition as_str (v : Value_) : option string :=
  match v with Str s => Some s | _ => None end.
Definition as_u64 (v : Value_) : option N :=
  match v with Num (PosInt n) => Some n | _ => None end.
Definition is_object (v : Value_) : bool :=
  match v with Object _ => true | _ => false end.
Definition is_array (v : Value_) : bool :=
  match v with Array _ => true | _ => false end.

(** [Number::from_f64]: none for the values JSON cannot write. *)
Definition Number_from_f64 (f : f64) : option Number :=
  match f with
  | FiniteFloat m e => Some (Float m e)
  | _ => None
  end.

(** The body of the entry loop of [visit_map]: the key is checked before the
    value is read. *)
Definition visit_map_entry {V W} (seed : V → result string W)
    (values : list (string * W)) (entry : string * V) : result string (list (string * W)) :=
  let '(key, value) := entry in
  return_err ("duplicate evidence key `" +:+ key +:+ "`")
    when contains_key values key otherwise
  let? value := seed value in
  Ok (insert values key value).

Fixpoint UniqueValueVisitor (i : JsonInput) : result string Value_ :=
  match i with
  | InNull => Ok Null
  | InBool b => Ok (Bool b)
  | InU64 n => Ok (Num (PosInt n))
  | InI64 z => Ok (Num (if (z <? 0)%Z then NegInt z else PosInt (Z.to_N z)))
  | InF64 f =>
      match Number_from_f64 f with
      | Some n => Ok (Num n)
      | None => Err "non-finite evidence number"
      end
  | InStr s => Ok (Str s)
  | InSeq l => let? values := collect_map UniqueValueVisitor l in Ok (Array values)
  | InMap entries =>
      let? values := for_each (visit_map_entry UniqueValueVisitor) entries [] in
      Ok (Object values)
  end.

(** [UniqueMapVisitor::visit_map]: the entry is read whole before its key is
    looked up. *)
Definition unique_map_entry {V} (map : list (string * V)) (entry : string * V)
    : result string (list (string * V)) :=
  let '(key, value) := entry in
  match get map key with
  | None => Ok (insert map key value)
  | Some _ => Err ("duplicate policy key `" +:+ key +:+ "`")
  end.

Definition deserialize_unique_btree_map {V} (entries : list (string * V))
    : result string (list (string * V)) :=
  for_each unique_map_entry entries [].

(** ** What the visitors accept *)

(** No object of the document repeats a key and every number is finite. *)
Fixpoint unique_keys (i : JsonInput) : bool :=
  match i with
  | InF64 (FiniteFloat _ _) => true
  | InF64 _ => false
  | InSeq l => forallb unique_keys l
  | InMap entries =>
      bool_decide (NoDup (keys entries)) && forallb (λ e, unique_keys e.2) entries
  | _ => true
  end.

(** The value of a document in which the last of repeated keys wins. *)
Fixpoint erase (i : JsonInput) : Value_ :=
  match i with
  | InNull => Null
  | InBool b => Bool b
  | InU64 n => Num (PosInt n)
  | InI64 z => Num (if (z <? 0)%Z then NegInt z else PosInt (Z.to_N z))
  | InF64 (FiniteFloat m e) => Num (Float m e)
  | InF64 _ => Null
  | InStr s => Str s
  | InSeq l => Array (map erase l)
  | InMap entries => Object (of_entries (map (λ e, (e.1, erase e.2)) entries))
  end.

(** Every object of a value is a sorted map. *)
Fixpoint value_wf (v : Value_) : Prop :=
  match v with
  | Array l => fold_right (λ v P, value_wf v ∧ P) True l
  | Object m => sorted m ∧ fold_right (λ e P, value_wf e.2 ∧ P) True m
  | _ => True
  end.

Fixpoint JsonInput_nested_ind (P : JsonInput → Prop)
    (Hnull : P InNull) (Hbool : ∀ b, P (InBool b)) (Hu : ∀ n, P (InU64 n))
    (Hi : ∀ z, P (InI64 z)) (Hf : ∀ f, P (InF64 f)) (Hs : ∀ s, P (InStr s))
    (Hseq : ∀ l, Forall P l → P (InSeq l))
    (Hmap : ∀ es, Forall (λ e, P e.2) es → P (InMap es)) (i : JsonInput) : P i :=
  let rec := JsonInput_nested_ind P Hnull Hbool Hu Hi Hf Hs Hseq Hmap in
  match i with
  | InNull => Hnull
  | InBool b => Hbool b
  | InU64 n => Hu n
  | InI64 z => Hi z
  | InF64 f => Hf f
  | InStr s => Hs s
  | InSeq l =>
      Hseq l ((fix go l : Forall P l :=
                 match l with
                 | [] => @List.Forall_nil _ P
                 | x :: l' => @List.Forall_cons _ P x l' (rec x) (go l')
                 end) l)
  | InMap es =>
      Hmap es ((fix go l : Forall (λ e, P e.2) l :=
                  match l with
                  | [] => @List.Forall_nil _ (λ e, P e.2)
                  | x :: l' => @List.Forall_cons _ (λ e, P e.2) x l' (rec x.2) (go l')
                  end) es)
  end.

(** The entry loop succeeds iff the keys are new and pairwise distinct and
    every value is accepted; it then inserts the entries in turn. *)
Lemma visit_map_ok {V W} (seed : V → result string W) es m0 m :
  for_each (visit_map_entry seed) es m0 = Ok m ↔
  NoDup (keys es) ∧ (∀ k, k ∈ keys es → contains_key m0 k = false) ∧
  ∃ ws, Forall2 (λ e w, w.1 = e.1 ∧ seed e.2 = Ok w.2) es ws ∧
        m = fold_left (λ m e, insert m e.1 e.2) ws m0.
Proof.
  revert m0; induction es as [| [k v] es IH]; intros m0; simpl.
  { split.
    - intros H. inv_ok H. split_and!; [apply NoDup_nil_2 | by intros ? ?%not_elem_of_nil |].
      exists []. by split; [constructor |].
    - intros (_ & _ & ws & Hf & ->). by inversion Hf. }
  rewrite list.NoDup_cons. setoid_rewrite elem_of_cons.
  destruct (contains_key m0 k) eqn:Hk.
  { split; [done |]. intros (_ & Hn & _). rewrite Hn in Hk by (by left). done. }
  destruct (seed v) as [w | err] eqn:Hw.
  2: { split; [done |]. intros (_ & _ & ws & Hf & _).
       inversion Hf as [| ? ? ? ? [_ Hs]]; subst. simpl in Hs. congruence. }
  rewrite IH. setoid_rewrite contains_key_insert. split.
  - intros (Hnd & Hn & ws & Hf & ->). split_and!; [| done | |].
    + intros Hin. by destruct (Hn k Hin).
    + intros k' [-> | Hin]; [done | by apply Hn].
    + exists ((k, w) :: ws). split; [by constructor | done].
  - intros ([Hnin Hnd] & Hn & ws & Hf & ->).
    inversion Hf as [| ? [k' w'] ? ws' [Hk1 Hs1] Hf']; subst. simpl in *. subst.
    rewrite Hs1 in Hw. injection Hw as ->. split_and!; [done | | by exists ws'].
    intros k' Hin. split; [by intros <- | apply Hn; by right].
Qed.

Lemma deserialize_unique_btree_map_ok {V} (entries map : list (string * V)) :
  deserialize_unique_btree_map entries = Ok map ↔
  NoDup (keys entries) ∧ map = of_entries entries.
Proof.
  assert (Hsame : ∀ m, for_each unique_map_entry entries m = Ok map ↔
                       for_each (visit_map_entry (@Ok string V)) entries m = Ok map).
  { intros m; revert m; induction entries as [| [k v] es IH]; intros m; simpl; [done |].
    unfold contains_key. destruct (get m k); [done | apply IH]. }
  unfold deserialize_unique_btree_map. rewrite Hsame, visit_map_ok. split.
  - intros (Hnd & _ & ws & Hf & ->). split; [done |].
    assert (ws = entries) as ->; [| done]. clear Hsame Hnd.
    induction Hf as [| [] [] es ws [H1 H2] _ IH]; [done |]. simpl in *. by simplify_eq.
  - intros [Hnd ->]. split_and!; [done | done |]. exists entries. split; [| done].
    clear. induction entries; by constructor.
Qed.

Lemma fold_conj_Forall {A} (P : A → Prop) l :
  fold_right (λ x Q, P x ∧ Q) True l ↔ Forall P l.
Proof. induction l as [| x l IH]; simpl; [by split |]. by rewrite Forall_cons_iff, IH. Qed.

Lemma elem_of_entries {V} (l : list (string * V)) e : e ∈ of_entries l → e ∈ l.
Proof.
  assert (H : ∀ m, e ∈ fold_left (λ m e, insert m e.1 e.2) l m → e ∈ l ∨ e ∈ m).
  { induction l as [| [k v] l IH]; intros m; simpl; [by right |].
    intros [He | He]%IH; [left; by apply list_elem_of_further |].
    destruct e as [k' v']. apply elem_insert in He as [-> | He]; [| by right].
    left. apply list_elem_of_here. }
  intros [He | ?%not_elem_of_nil]%H; done.
Qed.

(** The values the loader works on have sorted objects. *)
Lemma erase_wf i : value_wf (erase i).
Proof.
  induction i as [| b | n | z | f | s | l IH | es IH] using JsonInput_nested_ind; simpl; try done.
  - by destruct f.
  - rewrite fold_conj_Forall. rewrite List.Forall_forall in *.
    intros v (i & <- & Hi)%in_map_iff. by apply IH.
  - split; [apply sorted_of_entries |]. rewrite (fold_conj_Forall (λ e, value_wf e.2)).
    rewrite List.Forall_forall in *. intros e He%list_elem_of_In%elem_of_entries.
    apply list_elem_of_In, in_map_iff in He as (e' & <- & He'). by apply IH.
Qed.

Lemma UniqueValueVisitor_ok (i : JsonInput) (v : Value_) :
  UniqueValueVisitor i = Ok v ↔ unique_keys i = true ∧ v = erase i.
Proof.
  revert v; induction i as [| b | n | z | f | s | l IH | es IH] using JsonInput_nested_ind;
    intros v; simpl; try (by split; [intros [= <-] | intros [_ ->]]).
  - destruct f; simpl; split; by (intros [= <-] || intros [? ->]).
  - rewrite forallb_forall. split.
    + intros H. inv_ok H. apply collect_map_ok in E.
      induction E as [| x y l ys Hxy _ IHl]; [done |].
      apply Forall_cons_iff in IH as [IHx IH].
      apply IHx in Hxy as [Hx ->]. destruct (IHl IH) as [Hl [= ->]].
      split; [| done]. by intros z [<- | Hz]; [| apply Hl].
    + intros [Hu ->]. assert (collect_map UniqueValueVisitor l = Ok (map erase l)) as ->; [| done].
      apply collect_map_ok. induction l as [| x l IHl]; [constructor |].
      apply Forall_cons_iff in IH as [IHx IH]. simpl. constructor.
      * apply IHx. split; [apply Hu; by left | done].
      * apply IHl; [done |]. intros y Hy. apply Hu. by right.
  - rewrite andb_true_iff, bool_decide_eq_true, forallb_forall. split.
    + intros H. inv_ok H. apply visit_map_ok in E as (Hnd & _ & ws & Hf & ->).
      assert (Hws : ws = map (λ e, (e.1, erase e.2)) es ∧
                    ∀ x, In x es → unique_keys x.2 = true).
      { clear Hnd. induction Hf as [| x [] es ws [Hk Hv] _ IHf]; [done |].
        apply Forall_cons_iff in IH as [IHx IH]. simpl in *. apply IHx in Hv as [Hx ->].
        destruct (IHf IH) as [-> Hes]. subst. split; [done |].
        by intros z [<- | Hz]; [| apply Hes]. }
      destruct Hws as [-> Hu]. done.
    + intros [[Hnd Hu] ->].
      assert (for_each (visit_map_entry UniqueValueVisitor) es [] =
              Ok (of_entries (map (λ e, (e.1, erase e.2)) es))) as ->; [| done].
      apply visit_map_ok. split_and!; [done | done |].
      exists (map (λ e, (e.1, erase e.2)) es). split; [| done]. clear Hnd.
      induction es as [| x es IHes]; [constructor |].
      apply Forall_cons_iff in IH as [IHx IH]. constructor.
      * simpl. split; [done |]. apply IHx. split; [apply Hu; by left | done].
      * apply IHes; [done |]. intros y Hy. apply Hu. by right.
Qed.

Lemma UniqueValueVisitor_wf i v : UniqueValueVisitor i = Ok v → value_wf v.
Proof. intros [_ ->]%UniqueValueVisitor_ok. apply erase_wf. Qed.

(** Evidence JSON is accepted exactly when no object in it, at any depth,
    repeats a key and every number is finite; the value is then the document
    with its objects as sorted maps. *)
Theorem UniqueValueVisitor_spec (i : JsonInput) (v : Value_) :
  UniqueValueVisitor i = Ok v ↔ unique_keys i = true ∧ v = erase i ∧ value_wf v.
Proof.
  rewrite UniqueValueVisitor_ok. split; [| by intros (? & ? & _)].
  intros [Hu ->]. split_and!; try done. apply erase_wf.
Qed.
