(* ===== verification/Accounts.v ===== *)
(** * The local account databases
      ([crates/basil-core/src/core/catalog/loader.rs], [LocalAccounts])

    Symbolic process identities in a policy are resolved against
    [/etc/passwd] and [/etc/group].  Reading a file is I/O: what the loader
    observes of it (the two metadata calls on the handle, the bytes, the
    metadata of the path afterwards) is the record [FileObservation]; the
    decisions taken on it are [read_stable_account_file]. *)

From S2P Require Import Prelude RustStr BTreeMap Glob Policy Evidence Nkey Schema CatalogLoader.

Record Metadata := {
  meta_len : N;
  meta_modified : option Z;
  meta_dev : N;
  meta_ino : N;
}.

(** [None] is a failed system call; [obs_contents] is the byte stream the
    handle delivers up to end of file. *)
Record FileObservation := {
  obs_open : bool;
  obs_before : option Metadata;
  obs_contents : option (list N);
  obs_after : option Metadata;
  obs_path_after : option Metadata;
}.

Record LocalAccounts := {
  account_users : list (string * N);
  account_groups : list (string * N);
}.

Definition MAX_ACCOUNT_FILE_BYTES : N := 1024 * 1024.

Definition read_stable_account_file (path : string) (obs : FileObservation)
    : result LoadError string :=
  let fail reason := LocalAccountDatabase path reason in
  return_err (fail "file is unavailable") when negb (obs_open obs) otherwise
  let? before := ok_or (fail "metadata is unavailable") (obs_before obs) in
  return_err (fail "file exceeds the 1 MiB limit")
    when (MAX_ACCOUNT_FILE_BYTES <? meta_len before)%N otherwise
  let? stream := ok_or (fail "file read failed") (obs_contents obs) in
  let bytes := firstn (N.to_nat (MAX_ACCOUNT_FILE_BYTES + 1)) stream in
  let? after := ok_or (fail "post-read metadata is unavailable") (obs_after obs) in
  let? path_after := ok_or (fail "post-read path metadata is unavailable") (obs_path_after obs) in
  let stable_time :=
    match meta_modified before, meta_modified after, meta_modified path_after with
    | Some b, Some a, Some p => (b =? a)%Z && (a =? p)%Z
    | _, _, _ => false
    end in
  let stable_identity :=
    ((meta_dev before =? meta_dev after) && (meta_dev after =? meta_dev path_after) &&
     (meta_ino before =? meta_ino after) && (meta_ino after =? meta_ino path_after))%N in
  return_err (fail "file changed while it was read")
    when negb (N.of_nat (length bytes) =? meta_len before)%N
         || negb (meta_len before =? meta_len after)%N
         || negb (meta_len after =? meta_len path_after)%N
         || negb stable_identity || negb stable_time otherwise
  ok_or (fail "file is not valid UTF-8") (from_utf8 bytes).

Definition colon : ascii := ":"%char.

(** A name both databases and the policy accept. *)
Definition account_name_bad (name : string) : bool :=
  is_empty name || (128 <? String.length name)%nat || existsb is_control (chars name).

(** The body of the line loop of [parse_account_file]. *)
Definition parse_account_line (field_count id_index : nat) (path : string)
    (entries : list (string * N)) (line : string) : result LoadError (list (string * N)) :=
  if is_empty line then Ok entries
  else
    let fields := split colon line in
    let? name := ok_or (LocalAccountDatabase path "file contains a malformed entry")
                   (head fields) in
    let? id := ok_or (LocalAccountDatabase path
                        "file contains a malformed or out-of-range identifier")
                 (fields !! id_index ≫= parse_u32) in
    return_err (LocalAccountDatabase path "file contains a malformed or duplicate account name")
      when negb (length fields =? field_count)%nat || account_name_bad name
           || contains_key entries name otherwise
    Ok (insert entries name id).

Definition parse_account_file (contents : string) (field_count id_index : nat) (path : string)
    : result LoadError (list (string * N)) :=
  for_each (parse_account_line field_count id_index path) (lines contents) [].

(** The two files as the loader observes them. *)
Record AccountFiles := {
  etc_passwd : FileObservation;
  etc_group : FileObservation;
}.

Definition LocalAccounts_load (files : AccountFiles) : result LoadError LocalAccounts :=
  let? passwd := read_stable_account_file "/etc/passwd" (etc_passwd files) in
  let? group := read_stable_account_file "/etc/group" (etc_group files) in
  let? users := parse_account_file passwd 7 2 "/etc/passwd" in
  let? groups := parse_account_file group 4 2 "/etc/group" in
  Ok {| account_users := users; account_groups := groups |}.

(** ** What a successful read returns *)

(** A read that is reported stable returns the entire file: the one byte
    beyond the limit that the reader asks for makes a truncated read visible,
    and the length, identity and times observed before, after and through the
    path agree. *)
Theorem read_stable_account_file_whole path obs s :
  read_stable_account_file path obs = Ok s →
  ∃ stream before after path_after t,
    obs_contents obs = Some stream ∧ s = of_bytes stream ∧ is_utf8 stream = true ∧
    (N.of_nat (length stream) ≤ MAX_ACCOUNT_FILE_BYTES)%N ∧
    obs_before obs = Some before ∧ obs_after obs = Some after ∧
    obs_path_after obs = Some path_after ∧
    (∀ m, m ∈ [before; after; path_after] →
       meta_len m = N.of_nat (length stream) ∧ meta_modified m = Some t ∧
       meta_dev m = meta_dev before ∧ meta_ino m = meta_ino before).
Proof.
  unfold read_stable_account_file, ok_or. intros H. destruct (obs_open obs); [| done]. cbn [negb] in H.
  destruct (obs_before obs) as [before |]; [| done]. cbv beta iota zeta in H.
  destruct (N.ltb_spec MAX_ACCOUNT_FILE_BYTES (meta_len before)) as [| E]; [done |].
  destruct (obs_contents obs) as [stream |]; [| done].
  destruct (obs_after obs) as [after |]; [| done].
  destruct (obs_path_after obs) as [path_after |]; [| done]. cbv beta iota zeta in H. inv_ok_step H.
  rewrite !orb_false_iff, !negb_false_iff, !andb_true_iff in E0.
  destruct E0 as ((((Hlen & Hba) & Hap) & (((Hd1 & Hd2) & Hi1) & Hi2)) & Htime).
  rewrite !N.eqb_eq in *.
  assert (Hfull : firstn (N.to_nat (MAX_ACCOUNT_FILE_BYTES + 1)) stream = stream).
  { apply firstn_all2. rewrite length_firstn in Hlen. lia. }
  rewrite Hfull in *. unfold from_utf8 in H.
  destruct (is_utf8 stream) eqn:Hu; [| done]. inv_ok H.
  destruct (meta_modified before) as [tb |] eqn:Tb; [| done].
  destruct (meta_modified after) as [ta |] eqn:Ta; [| done].
  destruct (meta_modified path_after) as [tp |] eqn:Tp; [| done].
  apply andb_true_iff in Htime as [->%Z.eqb_eq ->%Z.eqb_eq].
  exists stream, before, after, path_after, tp. split_and!; try done; [lia |].
  intros m. rewrite !elem_of_cons.
  intros [-> | [-> | [-> | ?%not_elem_of_nil]]]; split_and!; try done; congruence.
Qed.

(** A file read whole, between two identical observations of it. *)
Definition sample_metadata : Metadata :=
  {| meta_len := 26; meta_modified := Some 7%Z; meta_dev := 1; meta_ino := 2 |}.
Definition sample_observation (contents : string) : FileObservation :=
  {| obs_open := true; obs_before := Some sample_metadata;
     obs_contents := Some (bytes contents);
     obs_after := Some sample_metadata; obs_path_after := Some sample_metadata |}.

(** ** What an account file means *)

(** A line of [field_count] colon-separated fields, the first a usable name
    and the one at [id_index] a [u32]. *)
Definition account_line (field_count id_index : nat) (line : string) (e : string * N) : Prop :=
  ∃ fields, line = join colon fields ∧ (∀ f, f ∈ fields → contains_char colon f = false) ∧
    length fields = field_count ∧ head fields = Some e.1 ∧
    fields !! id_index ≫= parse_u32 = Some e.2 ∧ account_name_bad e.1 = false.

Lemma parse_account_line_ok field_count id_index path entries line entries' :
  is_empty line = false →
  parse_account_line field_count id_index path entries line = Ok entries' ↔
  ∃ e, account_line field_count id_index line e ∧ contains_key entries e.1 = false ∧
       entries' = insert entries e.1 e.2.
Proof.
  intros Hne. unfold parse_account_line, account_line, ok_or. rewrite Hne. split.
  - intros H. inv_ok H. destruct (head (split colon line)) as [n |] eqn:Hh; [| done].
    simplify_eq. destruct (split colon line !! id_index ≫= parse_u32) as [id |] eqn:Hi; [| done].
    simplify_eq. rewrite !orb_false_iff, negb_false_iff in E1.
    destruct E1 as [[Hl Hbad] Hk]. exists (value, value0). split_and!; [| done | done].
    exists (split colon line). split_and!; try done.
    + by rewrite join_split.
    + intros f. apply split_no_sep.
    + by apply Nat.eqb_eq.
  - intros ([n id] & (fields & -> & Hsep & Hl & Hh & Hi & Hbad) & Hk & ->). simpl in *.
    assert (fields ≠ []) by (by destruct fields).
    rewrite split_join by done. rewrite Hh, Hi, Hl, Nat.eqb_refl, Hbad, Hk. done.
Qed.

(** An account file is accepted exactly when every non-empty line is a
    well-formed entry and no name occurs twice; the table is then the entries
    of the file, each name with its identifier. *)
Theorem parse_account_file_spec contents field_count id_index path table :
  parse_account_file contents field_count id_index path = Ok table ↔
  ∃ entries,
    Forall2 (account_line field_count id_index)
      (List.filter (λ l, negb (is_empty l)) (lines contents)) entries ∧
    NoDup (keys entries) ∧ table = of_entries entries.
Proof.
  unfold parse_account_file, of_entries.
  assert (H : ∀ ls m, for_each (parse_account_line field_count id_index path) ls m = Ok table ↔
    ∃ entries, Forall2 (account_line field_count id_index)
                 (List.filter (λ l, negb (is_empty l)) ls) entries ∧
      NoDup (keys entries) ∧ (∀ k, k ∈ keys entries → contains_key m k = false) ∧
      table = fold_left (λ m e, insert m e.1 e.2) entries m).
  2: { rewrite H. split; intros (es & ?); exists es; [tauto |].
       split_and!; tauto. }
  induction ls as [| l ls IH]; intros m; simpl.
  { split.
    - intros H. inv_ok H. exists []. split_and!; [constructor | apply NoDup_nil_2 | | done].
      by intros ? ?%not_elem_of_nil.
    - intros (es & Hf & _ & _ & ->). by inversion Hf. }
  destruct (is_empty l) eqn:Hl; simpl; [unfold parse_account_line; rewrite Hl; apply IH |].
  split.
  - intros Hok. inv_ok Hok. apply parse_account_line_ok in E as (e & He & Hk & ->); [| done].
    apply IH in Hok as (es & Hf & Hnd & Hn & ->).
    exists (e :: es). simpl. rewrite list.NoDup_cons. setoid_rewrite contains_key_insert in Hn.
    split_and!; [by constructor | | done | | done].
    + intros Hin. by destruct (Hn _ Hin).
    + intros k [-> | Hin]%elem_of_cons; [done | by apply Hn].
  - intros (es & Hf & Hnd & Hn & ->). inversion Hf as [| ? e ? es' He Hf']; subst.
    simpl in *. apply list.NoDup_cons in Hnd as [Hnin Hnd].
    assert (parse_account_line field_count id_index path m l = Ok (insert m e.1 e.2)) as ->.
    { apply parse_account_line_ok; [done |]. exists e. split_and!; try done. apply Hn, list_elem_of_here. }
    apply IH. exists es'. split_and!; try done. intros k Hk. apply contains_key_insert.
    split; [by intros <- | apply Hn; by apply list_elem_of_further].
Qed.
