(* ===== verification/SubjectLoader.v ===== *)
(** * Compiling subjects
      ([crates/basil-core/src/core/catalog/loader.rs], [parse_subjects] and
      the expression compiler)

    A subject's [match] is JSON: an object with exactly one key, either a
    group ([all], [any]) or an evidence predicate.  The compiler threads two
    pieces of mutable state through the recursion, the account tables (read
    at most once, and only when a symbolic identity needs them) and the
    number of leaves seen. *)

From S2P Require Import Prelude RustStr BTreeMap Glob Policy Evidence Nkey Schema CatalogLoader.
From S2P Require Import Json Accounts.

(** What the compiler gets from outside the repository: the base64url and
    base32 decoders and the account files. *)
Record LoaderEnv := {
  url_safe_no_pad_decode : list N → option (list N);
  env_base32_decode : string → option (list N);
  env_account_files : AccountFiles;
}.

Abbreviation AccountCache := (option LocalAccounts).

(** [iter().map(f).collect::<Result<Vec<_>, _>>()] for an [f] that mutates
    captured state. *)
Section collect_state.
Context {A B E S : Type} (f : A → S → result E (B * S)).

Fixpoint collect_state (l : list A) (st : S) : result E (list B * S) :=
  match l with
  | [] => Ok ([], st)
  | x :: l' =>
      let? (y, st) := f x st in
      let? (ys, st) := collect_state l' st in
      Ok (y :: ys, st)
  end.
End collect_state.

Definition invalid_expression {T} (subject reason : string) : result LoadError T :=
  Err (InvalidSubjectShape subject reason).

Definition domain_token (d : AuthorizationDomain) : string :=
  match d with
  | HostProcess => "host-process"
  | SystemdUnitDomain => "systemd-unit"
  end.

Definition predicate_token (key : string) : string :=
  if String.eqb key "systemd.unit" then "systemd.unit"
  else if String.eqb key "systemd.template" then "systemd.template"
  else "evidence".

Definition is_lower_hex (b : N) : bool := is_ascii_digit b || in_range 97 102 b.

Definition systemd_plain_byte (b : N) : bool :=
  is_ascii_alphanumeric b || (b =? 58)%N || (b =? 95)%N || (b =? 46)%N || (b =? 45)%N.

(** The [while offset < bytes.len()] loop, on the bytes from [offset]. *)
Fixpoint systemd_component_loop (l : list N) : bool :=
  match l with
  | [] => true
  | b :: rest =>
      if systemd_plain_byte b then systemd_component_loop rest
      else
        match rest with
        | x :: high :: low :: rest' =>
            if (b =? 92)%N && (x =? 120)%N && is_lower_hex high && is_lower_hex low
            then systemd_component_loop rest' else false
        | _ => false
        end
  end.

Definition valid_systemd_name_component (component : string) : bool :=
  if is_empty component then false else systemd_component_loop (bytes component).

Definition at_sign : ascii := "@"%char.

Definition valid_systemd_service_name (name : string) (template : bool) : bool :=
  if is_empty name || (255 <? String.length name)%nat || existsb is_control (chars name)
  then false
  else
    match strip_suffix ".service" name with
    | None => false
    | Some stem =>
        match split at_sign stem with
        | [] => false
        | base :: parts =>
            let instance := head parts in
            if negb (length parts <=? 1)%nat || negb (valid_systemd_name_component base)
            then false
            else if template then bool_decide (instance = Some "")
            else match instance with
                 | None => true
                 | Some i => valid_systemd_name_component i
                 end
        end
    end.

Definition exact_object (subject : string) (value : Value_) (fields : list string)
    : result LoadError (list (string * Value_)) :=
  match as_object value with
  | None => invalid_expression subject "compound predicate must be an object"
  | Some object =>
      if negb (length object =? length fields)%nat
         || existsb (λ field, negb (contains_key object field)) fields
      then invalid_expression subject "compound predicate fields are incomplete or unknown"
      else Ok object
  end.

Definition required_string (subject : string) (value : Value_) : result LoadError string :=
  ok_or (InvalidSubjectShape subject "predicate value must be a string") (as_str value).

Definition valid_sha256_digest (value : string) : bool :=
  match strip_prefix "sha256:" value with
  | None => false
  | Some hex =>
      (String.length hex =? 64)%nat &&
      forallb (λ b, is_ascii_hexdigit b && negb (is_ascii_uppercase b)) (bytes hex)
  end.

Definition signature_key_algorithm_token (a : SignatureKeyAlgorithm) : string :=
  match a with SigEd25519 => "ed25519" | SigNatsNkey => "nats-nkey" end.

Definition ed25519_PUBLIC_KEY_LEN : nat := 32.

Definition validate_predicate_domain (subject : string) (d : AuthorizationDomain) (key : string)
    (predicate : EvidencePredicate) : checked :=
  let valid :=
    match predicate with
    | SystemdUnit _ | SystemdTemplate _ => negb (bool_decide (d = HostProcess))
    | _ => true
    end in
  if valid then Ok tt
  else Err (PredicateDomainMismatch subject (predicate_token key) (domain_token d)).

Section compile.
Variable env : LoaderEnv.

Definition signature_public_valid (algorithm : SignatureKeyAlgorithm) (public : string) : bool :=
  match algorithm with
  | SigEd25519 =>
      match url_safe_no_pad_decode env (bytes public) with
      | Some bs => (length bs =? ed25519_PUBLIC_KEY_LEN)%nat
      | None => false
      end
  | SigNatsNkey => is_ok (decode_public (env_base32_decode env) public)
  end.

Definition validate_signature_public (subject : string) (algorithm : SignatureKeyAlgorithm)
    (public : string) : checked :=
  if signature_public_valid algorithm public then Ok tt
  else
    Err (MalformedSignaturePublic subject (signature_key_algorithm_token algorithm)
           (match algorithm with
            | SigEd25519 => "expected base64url-no-pad 32-byte Ed25519 public key"
            | SigNatsNkey => "expected a valid public NATS NKey"
            end)).

Definition compile_signature_key (subject : string) (value : Value_)
    : result LoadError EvidencePredicate :=
  let? object := exact_object subject value ["algorithm"; "public"] in
  let algorithm_name := get object "algorithm" ≫= as_str in
  let? algorithm :=
    if bool_decide (algorithm_name = Some "ed25519") then Ok SigEd25519
    else if bool_decide (algorithm_name = Some "nats-nkey") then Ok SigNatsNkey
    else invalid_expression subject "unknown signature-key algorithm" in
  match get object "public" ≫= as_str with
  | None => invalid_expression subject "signature-key `public` must be a string"
  | Some public =>
      return_err (EmptySignaturePublic subject) when is_blank public otherwise
      let? _ := validate_signature_public subject algorithm public in
      Ok (InvocationSignatureKey algorithm public)
  end.

(** The lazily loaded tables: a failure aborts the whole load. *)
Definition load_accounts (accounts : AccountCache) : result LoadError LocalAccounts :=
  match accounts with
  | Some local => Ok local
  | None => LocalAccounts_load (env_account_files env)
  end.

Definition compile_identity (subject : string) (d : AuthorizationDomain) (predicate : string)
    (value : Value_) (source : LocalAccountSource) (accounts : AccountCache)
    : result LoadError (IdentitySelector * AccountCache) :=
  match as_u64 value with
  | Some id =>
      if (id <? 4294967296)%N then Ok (Numeric id, accounts)
      else Err (LocalAccountResolution subject "numeric-id" "numeric identifier is out of range")
  | None =>
      match as_str value with
      | None =>
          invalid_expression subject "process identities must be integers or local names"
      | Some name =>
          if account_name_bad name
          then invalid_expression subject "local account name is empty, too long, or unsafe"
          else if parses_as_i128 name
          then invalid_expression subject "numeric-looking identity strings are invalid"
          else if negb (bool_decide (d = HostProcess))
                  && negb (String.eqb predicate "systemd.managerUser")
          then Err (SymbolicProcessIdentity subject predicate (domain_token d))
          else
            let? local := load_accounts accounts in
            let? id :=
              ok_or (LocalAccountResolution subject (escape name)
                       "name is missing from the local account database")
                (match source with
                 | Passwd => get (account_users local) name
                 | GroupFile => get (account_groups local) name
                 end) in
            Ok (LocalName name id source, Some local)
      end
  end.

Definition compile_systemd_selector (subject : string) (value : Value_) (template : bool)
    (accounts : AccountCache) : result LoadError (SystemdSelector * AccountCache) :=
  match as_object value with
  | None => invalid_expression subject "systemd predicate must be an object"
  | Some object =>
      if existsb (λ key, negb (String.eqb key "name") && negb (String.eqb key "managerUser"))
           (keys object) || (2 <? length object)%nat
      then invalid_expression subject "systemd predicate contains unknown fields"
      else
        match get object "name" ≫= as_str with
        | None => invalid_expression subject "systemd predicate requires string `name`"
        | Some name =>
            if negb (valid_systemd_service_name name template)
            then invalid_expression subject "systemd name must be a canonical `.service` unit"
            else
              let? (manager, accounts) :=
                match get object "managerUser" with
                | None => Ok (None, accounts)
                | Some value =>
                    let? (s, accounts) :=
                      compile_identity subject SystemdUnitDomain "systemd.managerUser" value
                        Passwd accounts in
                    Ok (Some s, accounts)
                end in
              Ok ({| selector_name := name; selector_manager_user := manager |}, accounts)
        end
  end.

Definition process_uid_slot (subject : string) (d : AuthorizationDomain) (key : string)
    (value : Value_) (slot : CredentialSlot) (accounts : AccountCache)
    : result LoadError (EvidencePredicate * AccountCache) :=
  let? (s, accounts) := compile_identity subject d key value Passwd accounts in
  Ok (ProcessUidSlot slot s, accounts).

Definition process_gid_slot (subject : string) (d : AuthorizationDomain) (key : string)
    (value : Value_) (slot : CredentialSlot) (accounts : AccountCache)
    : result LoadError (EvidencePredicate * AccountCache) :=
  let? (s, accounts) := compile_identity subject d key value GroupFile accounts in
  Ok (ProcessGidSlot slot s, accounts).

(** The match of [compile_predicate] on the key. *)
Definition predicate_of_key (subject : string) (d : AuthorizationDomain) (key : string)
    (value : Value_) (accounts : AccountCache)
    : result LoadError (EvidencePredicate * AccountCache) :=
  if String.eqb key "process.uid" then
    let? (s, accounts) := compile_identity subject d "process.uid" value Passwd accounts in
    Ok (ProcessUid s, accounts)
  else if String.eqb key "process.uid.real" then
    process_uid_slot subject d "process.uid.real" value Real accounts
  else if String.eqb key "process.uid.effective" then
    process_uid_slot subject d "process.uid.effective" value Effective accounts
  else if String.eqb key "process.uid.saved" then
    process_uid_slot subject d "process.uid.saved" value Saved accounts
  else if String.eqb key "process.uid.filesystem" then
    process_uid_slot subject d "process.uid.filesystem" value Filesystem accounts
  else if String.eqb key "process.gid" then
    let? (s, accounts) := compile_identity subject d "process.gid" value GroupFile accounts in
    Ok (ProcessGid s, accounts)
  else if String.eqb key "process.gid.real" then
    process_gid_slot subject d "process.gid.real" value Real accounts
  else if String.eqb key "process.gid.effective" then
    process_gid_slot subject d "process.gid.effective" value Effective accounts
  else if String.eqb key "process.gid.saved" then
    process_gid_slot subject d "process.gid.saved" value Saved accounts
  else if String.eqb key "process.gid.filesystem" then
    process_gid_slot subject d "process.gid.filesystem" value Filesystem accounts
  else if String.eqb key "process.gid.supplementary" then
    let? (s, accounts) :=
      compile_identity subject d "process.gid.supplementary" value GroupFile accounts in
    Ok (ProcessGidSupplementary s, accounts)
  else if String.eqb key "process.executable.digest" then
    let? digest := required_string subject value in
    if negb (valid_sha256_digest digest)
    then invalid_expression subject
           "`process.executable.digest` must be `sha256:` plus 64 lowercase hex digits"
    else Ok (ProcessExecutableDigest digest, accounts)
  else if String.eqb key "systemd.unit" then
    let? (s, accounts) := compile_systemd_selector subject value false accounts in
    Ok (SystemdUnit s, accounts)
  else if String.eqb key "systemd.template" then
    let? (s, accounts) := compile_systemd_selector subject value true accounts in
    Ok (SystemdTemplate s, accounts)
  else if String.eqb key "invocation.signature-key" then
    let? p := compile_signature_key subject value in Ok (p, accounts)
  else invalid_expression subject "unknown evidence predicate".

Definition compile_predicate (subject : string) (d : AuthorizationDomain) (key : string)
    (value : Value_) (accounts : AccountCache)
    : result LoadError (EvidencePredicate * AccountCache) :=
  let? (predicate, accounts) := predicate_of_key subject d key value accounts in
  let? _ := validate_predicate_domain subject d key predicate in
  Ok (predicate, accounts).

(** The state threaded through the recursion: account tables and leaves. *)
Fixpoint compile_expression_node (subject : string) (d : AuthorizationDomain)
    (group_depth : nat) (value : Value_) (st : AccountCache * nat)
    : result LoadError (EvidenceExpression * (AccountCache * nat)) :=
  match value with
  | Object object =>
      match object with
      | [(key, value)] =>
          if String.eqb key "all" || String.eqb key "any" then
            let next_depth := group_depth + 1 in
            return_err (SubjectExpressionTooComplex subject next_depth MAX_EXPRESSION_DEPTH
                          st.2 MAX_EXPRESSION_LEAVES)
              when (MAX_EXPRESSION_DEPTH <? next_depth)%nat otherwise
            match value with
            | Array children =>
                match children with
                | [] =>
                    invalid_expression subject "`all` and `any` groups must not be empty"
                | _ =>
                    let? (compiled, st) :=
                      collect_state (compile_expression_node subject d next_depth)
                        children st in
                    Ok (if String.eqb key "all" then All compiled else Any compiled, st)
                end
            | _ => invalid_expression subject "`all` and `any` values must be arrays"
            end
          else
            let '(accounts, leaves) := st in
            let leaves := leaves + 1 in
            return_err (SubjectExpressionTooComplex subject group_depth MAX_EXPRESSION_DEPTH
                          leaves MAX_EXPRESSION_LEAVES)
              when (MAX_EXPRESSION_LEAVES <? leaves)%nat otherwise
            let? (predicate, accounts) := compile_predicate subject d key value accounts in
            Ok (Leaf predicate, (accounts, leaves))
      | _ => invalid_expression subject "each expression node must contain exactly one key"
      end
  | _ => invalid_expression subject "expected an object with exactly one operator or leaf"
  end.

Definition compile_expression (subject : string) (d : AuthorizationDomain) (value : Value_)
    (accounts : AccountCache) : result LoadError (EvidenceExpression * AccountCache) :=
  let? (e, (accounts, _)) := compile_expression_node subject d 0 value (accounts, 0) in
  Ok (e, accounts).

Record RawSubjectDefinition := {
  raw_domain : AuthorizationDomain;
  raw_break_glass : bool;
  raw_match : Value_;
}.

Definition parse_subject (name : string) (raw : RawSubjectDefinition) (accounts : AccountCache)
    : result LoadError ((SubjectName * SubjectDefinition) * AccountCache) :=
  let normalized := trim name in
  return_err EmptySubjectName when is_empty normalized otherwise
  return_err (SubjectNameTooLong (String.length normalized))
    when (128 <? String.length normalized)%nat otherwise
  return_err (BadSubjectName (escape normalized))
    when existsb is_control (chars normalized) otherwise
  let? (e, accounts) := compile_expression normalized (raw_domain raw) (raw_match raw) accounts in
  return_err (SubjectExpressionTooComplex normalized (depth e) MAX_EXPRESSION_DEPTH
                (leaf_count e) MAX_EXPRESSION_LEAVES)
    when (MAX_EXPRESSION_DEPTH <? depth e)%nat || (MAX_EXPRESSION_LEAVES <? leaf_count e)%nat
  otherwise
  Ok ((normalized,
       {| subject_domain_of := raw_domain raw; break_glass := raw_break_glass raw;
          match_ := e |}), accounts).

Definition complexity_warning (name : SubjectName) (e : EvidenceExpression) : list LoadWarning :=
  if (4 <? depth e)%nat || (16 <? leaf_count e)%nat
  then [ComplexSubjectExpression name (depth e) (leaf_count e)] else [].

(** One iteration of the loop of [parse_subjects]. *)
Definition parse_subjects_step
    (st : AccountCache * list (SubjectName * SubjectDefinition) * list LoadWarning)
    (entry : SubjectName * RawSubjectDefinition)
    : result LoadError
        (AccountCache * list (SubjectName * SubjectDefinition) * list LoadWarning) :=
  let '(accounts, subjects, warnings) := st in
  let? ((name, subject), accounts) := parse_subject entry.1 entry.2 accounts in
  Ok (accounts, insert subjects name subject,
      warnings ++ complexity_warning name (match_ subject)).

Definition parse_subjects (raw : list (SubjectName * RawSubjectDefinition))
    : result LoadError (list (SubjectName * SubjectDefinition) * list LoadWarning) :=
  let? (_, subjects, warnings) := for_each parse_subjects_step raw (None, [], []) in
  Ok (subjects, warnings).
End compile.

#[local] Arguments signature_public_valid : simpl never.

(** ** What the compiler accepts, and what it means

    [render] writes an expression as JSON; [expression_ok] says which
    expressions a domain admits.  Both ignore the order of checks, the account
    cache and the running counters of the compiler. *)

Definition render_identity (s : IdentitySelector) : Value_ :=
  match s with
  | Numeric id => Num (PosInt id)
  | LocalName name _ _ => Str name
  end.

Definition render_systemd (s : SystemdSelector) : Value_ :=
  Object (match selector_manager_user s with
          | Some m => [("managerUser", render_identity m)]
          | None => []
          end ++ [("name", Str (selector_name s))]).

Definition slot_suffix (slot : CredentialSlot) : string :=
  match slot with
  | Real => "real"
  | Effective => "effective"
  | Saved => "saved"
  | Filesystem => "filesystem"
  end.

Definition render_predicate (p : EvidencePredicate) : string * Value_ :=
  match p with
  | ProcessUid s => ("process.uid", render_identity s)
  | ProcessUidSlot slot s => ("process.uid." +:+ slot_suffix slot, render_identity s)
  | ProcessGid s => ("process.gid", render_identity s)
  | ProcessGidSlot slot s => ("process.gid." +:+ slot_suffix slot, render_identity s)
  | ProcessGidSupplementary s => ("process.gid.supplementary", render_identity s)
  | ProcessExecutableDigest digest => ("process.executable.digest", Str digest)
  | SystemdUnit s => ("systemd.unit", render_systemd s)
  | SystemdTemplate s => ("systemd.template", render_systemd s)
  | InvocationSignatureKey algorithm public =>
      ("invocation.signature-key",
       Object [("algorithm", Str (signature_key_algorithm_token algorithm));
               ("public", Str public)])
  end.

Fixpoint render (e : EvidenceExpression) : Value_ :=
  match e with
  | All children => Object [("all", Array (map render children))]
  | Any children => Object [("any", Array (map render children))]
  | Leaf p => Object [render_predicate p]
  end.

(** No group of the expression is empty. *)
Fixpoint groups_nonempty (e : EvidenceExpression) : bool :=
  match e with
  | All children | Any children =>
      negb (bool_decide (length children = 0)) && forallb groups_nonempty children
  | Leaf _ => true
  end.

Definition account_table (local : LocalAccounts) (source : LocalAccountSource)
    : list (string * N) :=
  match source with
  | Passwd => account_users local
  | GroupFile => account_groups local
  end.

Section meaning.
Variable env : LoaderEnv.

(** A number in range, or, where names are allowed, a name the local
    database of the right kind maps to the recorded identifier. *)
Definition identity_ok (names_allowed : bool) (source : LocalAccountSource)
    (s : IdentitySelector) : Prop :=
  match s with
  | Numeric id => (id < 4294967296)%N
  | LocalName name id source' =>
      source' = source ∧ names_allowed = true ∧
      account_name_bad name = false ∧ parses_as_i128 name = false ∧
      ∃ local, LocalAccounts_load (env_account_files env) = Ok local ∧
               get (account_table local source) name = Some id
  end.

Definition host_only (d : AuthorizationDomain) : bool := bool_decide (d = HostProcess).

Definition systemd_ok (template : bool) (s : SystemdSelector) : Prop :=
  valid_systemd_service_name (selector_name s) template = true ∧
  ∀ m, selector_manager_user s = Some m → identity_ok true Passwd m.

Definition predicate_ok (d : AuthorizationDomain) (p : EvidencePredicate) : Prop :=
  match p with
  | ProcessUid s | ProcessUidSlot _ s => identity_ok (host_only d) Passwd s
  | ProcessGid s | ProcessGidSlot _ s | ProcessGidSupplementary s =>
      identity_ok (host_only d) GroupFile s
  | ProcessExecutableDigest digest => valid_sha256_digest digest = true
  | SystemdUnit s => d = SystemdUnitDomain ∧ systemd_ok false s
  | SystemdTemplate s => d = SystemdUnitDomain ∧ systemd_ok true s
  | InvocationSignatureKey algorithm public =>
      is_blank public = false ∧ signature_public_valid env algorithm public = true
  end.

Definition expression_ok (d : AuthorizationDomain) (e : EvidenceExpression) : Prop :=
  groups_nonempty e = true ∧ Forall (predicate_ok d) (leaves_of e) ∧
  depth e ≤ MAX_EXPRESSION_DEPTH ∧ leaf_count e ≤ MAX_EXPRESSION_LEAVES.

(** The cache, when filled, holds what the files say. *)
Definition coherent (accounts : AccountCache) : Prop :=
  ∀ local, accounts = Some local → LocalAccounts_load (env_account_files env) = Ok local.

Lemma load_accounts_ok accounts local :
  coherent accounts →
  load_accounts env accounts = Ok local ↔ LocalAccounts_load (env_account_files env) = Ok local.
Proof.
  intros Hc. destruct accounts as [l |]; simpl; [| done].
  rewrite (Hc l eq_refl). split; by intros [= ->].
Qed.

(** *** Identities *)

Definition names_allowed_for (d : AuthorizationDomain) (predicate : string) : bool :=
  host_only d || String.eqb predicate "systemd.managerUser".

Lemma compile_identity_sound subject d predicate v source a s a' :
  coherent a →
  compile_identity env subject d predicate v source a = Ok (s, a') →
  v = render_identity s ∧ identity_ok (names_allowed_for d predicate) source s ∧ coherent a'.
Proof.
  intros Hc. unfold compile_identity, names_allowed_for, host_only, invalid_expression.
  destruct (as_u64 v) as [id |] eqn:Hu.
  { intros H. inv_ok H. simplify_eq. split_and!; [| by apply N.ltb_lt | done].
    by destruct v as [| | [] | | |]; simplify_eq/=. }
  destruct (as_str v) as [name |] eqn:Hs; [| done]. intros H. inv_ok H. simplify_eq.
  assert (v = Str name) as -> by (by destruct v; simplify_eq/=).
  apply load_accounts_ok in E2; [| done]. split_and!; [done | | by intros ? [= <-]].
  simpl. split_and!; try done.
  - apply andb_false_iff in E1 as [?%negb_false_iff | ?%negb_false_iff]; by apply orb_true_iff; auto.
  - exists value. split; [done |]. unfold account_table, ok_or in *.
    destruct source, (get _ name); by simplify_eq.
Qed.

Lemma compile_identity_complete subject d predicate source a s :
  coherent a → identity_ok (names_allowed_for d predicate) source s →
  ∃ a', compile_identity env subject d predicate (render_identity s) source a = Ok (s, a') ∧
        coherent a'.
Proof.
  intros Hc. unfold compile_identity, names_allowed_for, host_only, invalid_expression.
  destruct s as [id | name id source']; simpl.
  - intros ->%N.ltb_lt. eauto.
  - intros (-> & Hallow & -> & -> & local & Hload & Hget).
    assert (negb (bool_decide (d = HostProcess)) &&
            negb (String.eqb predicate "systemd.managerUser") = false) as ->
      by (by rewrite <- negb_orb, Hallow).
    apply (load_accounts_ok a) in Hload as Hl; [| done]. rewrite Hl.
    exists (Some local). split; [| by intros ? [= <-]].
    unfold account_table in Hget. destruct source; by rewrite Hget.
Qed.

(** *** Compound predicates: the objects they are read from *)

Lemma sorted_pair (k1 k2 : string) (v1 v2 : Value_) :
  sorted [(k1, v1); (k2, v2)] → cmp k1 k2 = Lt.
Proof. intros H. inversion H as [| ? ? _ Hall]. by inversion Hall. Qed.

Lemma exact_object_ok subject v object :
  value_wf v → exact_object subject v ["algorithm"; "public"] = Ok object →
  ∃ a p, v = Object object ∧ object = [("algorithm", a); ("public", p)].
Proof.
  intros Hwf H. unfold exact_object, invalid_expression in H.
  destruct (as_object v) as [m |] eqn:Hv; [| done].
  assert (v = Object m) as -> by (by destruct v; simplify_eq/=).
  destruct Hwf as [Hs _]. inv_ok H. apply orb_false_iff in E as [Hlen Hin].
  apply negb_false_iff, Nat.eqb_eq in Hlen. simpl in Hin.
  rewrite !orb_false_iff, !negb_false_iff in Hin. destruct Hin as (Ha & Hp & _).
  apply contains_key_elem in Ha, Hp.
  destruct object as [| [k1 v1] [| [k2 v2] [|]]]; try done.
  apply sorted_pair in Hs. simpl in Ha, Hp.
  rewrite !elem_of_cons, elem_of_nil in Ha, Hp.
  destruct Ha as [Ha | [Ha | []]], Hp as [Hp | [Hp | []]]; simplify_eq; try discriminate.
  by eauto.
Qed.

Lemma compile_signature_key_sound subject v p :
  value_wf v → compile_signature_key env subject v = Ok p →
  ("invocation.signature-key", v) = render_predicate p ∧ ∀ d, predicate_ok d p.
Proof.
  intros Hwf H. unfold compile_signature_key in H.
  destruct (exact_object _ _ _) as [object |] eqn:Ho; [| done].
  apply exact_object_ok in Ho as (a & q & -> & ->); [| done].
  change (get _ "algorithm") with (Some a) in H. change (get _ "public") with (Some q) in H.
  simpl in H. destruct (as_str q) as [public |] eqn:Hq; [| inv_ok H; done].
  assert (q = Str public) as -> by (by destruct q; simplify_eq/=).
  inv_ok H. unfold validate_signature_public in *.
  assert (a = Str (signature_key_algorithm_token value)) as ->.
  { destruct (bool_decide (as_str a = Some "ed25519")) eqn:B1.
    - inv_ok E. bool_facts. by destruct a; simplify_eq/=.
    - destruct (bool_decide (as_str a = Some "nats-nkey")) eqn:B2; [| done].
      inv_ok E. bool_facts. by destruct a; simplify_eq/=. }
  simpl. split; [done |]. intros _. split; [done |].
  by destruct (signature_public_valid env value public).
Qed.

Lemma compile_signature_key_complete subject d algorithm public :
  predicate_ok d (InvocationSignatureKey algorithm public) →
  compile_signature_key env subject
    (render_predicate (InvocationSignatureKey algorithm public)).2 =
  Ok (InvocationSignatureKey algorithm public).
Proof.
  intros [Hb Hv]. unfold compile_signature_key, validate_signature_public. simpl.
  destruct algorithm; simpl; by rewrite Hb, Hv.
Qed.

Lemma systemd_object_ok (m : list (string * Value_)) name :
  sorted m →
  existsb (λ key, negb (String.eqb key "name") && negb (String.eqb key "managerUser"))
    (keys m) = false →
  get m "name" = Some name →
  m = match get m "managerUser" with Some u => [("managerUser", u)] | None => [] end
      ++ [("name", name)].
Proof.
  intros Hs Hk Hn. apply sorted_ext; [done | |].
  - destruct (get m "managerUser"); repeat constructor.
  - intros k. destruct (decide (k = "name")) as [-> | Hne1].
    { rewrite Hn. by destruct (get m "managerUser"). }
    destruct (decide (k = "managerUser")) as [-> | Hne2].
    { by destruct (get m "managerUser"). }
    assert (get m k = None) as ->.
    { destruct (get m k) as [v |] eqn:Hg; [| done]. apply get_elem in Hg.
      apply not_true_iff_false in Hk. destruct Hk. apply existsb_elem. exists k. split.
      - apply list_elem_of_fmap. by exists (k, v).
      - apply String.eqb_neq in Hne1, Hne2. by rewrite Hne1, Hne2. }
    assert (H1 : cmp k "name" ≠ Eq) by (by intros ?%cmp_eq_iff).
    assert (H2 : cmp k "managerUser" ≠ Eq) by (by intros ?%cmp_eq_iff).
    destruct (get m "managerUser"); simpl;
      destruct (cmp k "managerUser"), (cmp k "name"); done.
Qed.

Lemma compile_systemd_selector_sound subject v template a s a' :
  value_wf v → coherent a →
  compile_systemd_selector env subject v template a = Ok (s, a') →
  v = render_systemd s ∧ systemd_ok template s ∧ coherent a'.
Proof.
  intros Hwf Hc H. unfold compile_systemd_selector, invalid_expression in H.
  destruct (as_object v) as [m |] eqn:Hv; [| done].
  assert (v = Object m) as -> by (by destruct v; simplify_eq/=).
  destruct Hwf as [Hs _]. inv_ok_step H. apply orb_false_iff in E as [Hk _].
  destruct (get m "name") as [nv |] eqn:Hn; [| done]. simpl in H.
  destruct (as_str nv) as [name |] eqn:Hnv; [| done].
  assert (nv = Str name) as -> by (by destruct nv; simplify_eq/=).
  inv_ok_step H. apply negb_false_iff in E.
  pose proof (systemd_object_ok m (Str name) Hs Hk Hn) as Hm.
  destruct (get m "managerUser") as [u |].
  - destruct (compile_identity _ _ _ _ _ _ _) as [[i a1] |] eqn:Hi; [| done].
    apply compile_identity_sound in Hi as (-> & Hok & Hc'); [| done].
    simplify_eq. split_and!; [done | | done].
    split; [done |]. simpl. by intros ? [= <-].
  - simplify_eq. by split_and!.
Qed.

Lemma compile_systemd_selector_complete subject template a s :
  coherent a → systemd_ok template s →
  ∃ a', compile_systemd_selector env subject (render_systemd s) template a = Ok (s, a') ∧
        coherent a'.
Proof.
  intros Hc [Hv Hm]. destruct s as [name [u |]]; simpl in *.
  - destruct (compile_identity_complete subject SystemdUnitDomain "systemd.managerUser" Passwd
                a u Hc (Hm u eq_refl)) as (a' & Hi & Hc').
    exists a'. split; [| done]. unfold compile_systemd_selector. simpl. by rewrite Hv, Hi.
  - exists a. split; [| done]. unfold compile_systemd_selector. simpl. by rewrite Hv.
Qed.

(** *** Predicates *)

(** One identity-valued predicate, read under its own key. *)
Lemma identity_branch_sound (mk : IdentitySelector → EvidencePredicate) subject d key v source
    a p a' :
  names_allowed_for d key = host_only d → coherent a →
  (let? (s, a1) := compile_identity env subject d key v source a in Ok (mk s, a1)) = Ok (p, a') →
  ∃ s, p = mk s ∧ v = render_identity s ∧ identity_ok (host_only d) source s ∧ coherent a'.
Proof.
  intros Hn Hc H. destruct (compile_identity _ _ _ _ _ _ _) as [[s a1] |] eqn:Hi; [| done].
  simplify_eq. apply compile_identity_sound in Hi as (-> & Hok & Hc'); [| done].
  rewrite Hn in Hok. eauto 6.
Qed.

Ltac identity_case H Hc :=
  apply identity_branch_sound in H as (s & -> & -> & Hok & Hc');
    [by split_and! | by apply orb_false_r | done].

Lemma predicate_of_key_sound subject d key v a p a' :
  value_wf v → coherent a → predicate_of_key env subject d key v a = Ok (p, a') →
  (key, v) = render_predicate p ∧ coherent a' ∧
  (is_ok (validate_predicate_domain subject d key p) = true → predicate_ok d p).
Proof.
  intros Hwf Hc H. unfold predicate_of_key, process_uid_slot, process_gid_slot in H.
  repeat match type of H with
  | (if String.eqb key ?k then _ else _) = _ =>
      destruct (String.eqb_spec key k) as [-> | _]; [try identity_case H Hc |]
  end.
  - unfold required_string, ok_or, invalid_expression in H.
    destruct (as_str v) as [digest |] eqn:Hv; [| done].
    assert (v = Str digest) as -> by (by destruct v; simplify_eq/=).
    destruct (valid_sha256_digest digest) eqn:Hd; [| done]. simpl in H. simplify_eq.
    split_and!; try done.
  - destruct (compile_systemd_selector _ _ _ _ _) as [[s a1] |] eqn:Hs; [| done].
    simplify_eq. apply compile_systemd_selector_sound in Hs as (-> & Hok & Hc'); [| done | done].
    split_and!; try done. by destruct d.
  - destruct (compile_systemd_selector _ _ _ _ _) as [[s a1] |] eqn:Hs; [| done].
    simplify_eq. apply compile_systemd_selector_sound in Hs as (-> & Hok & Hc'); [| done | done].
    split_and!; try done. by destruct d.
  - destruct (compile_signature_key _ _ _) as [q |] eqn:Hs; [| done].
    simplify_eq. apply compile_signature_key_sound in Hs as (Hr & Hok); [| done].
    by split_and!.
  - done.
Qed.

Lemma compile_predicate_sound subject d key v a p a' :
  value_wf v → coherent a → compile_predicate env subject d key v a = Ok (p, a') →
  (key, v) = render_predicate p ∧ predicate_ok d p ∧ coherent a'.
Proof.
  intros Hwf Hc H. unfold compile_predicate in H.
  destruct (predicate_of_key _ _ _ _ _ _) as [[q a1] |] eqn:Hp; [| done].
  apply predicate_of_key_sound in Hp as (Hr & Hc' & Hok); [| done | done].
  destruct (validate_predicate_domain subject d key q) as [[] |] eqn:Hd; [| done].
  simplify_eq. split_and!; auto.
Qed.

Lemma compile_predicate_complete subject d a p :
  coherent a → predicate_ok d p →
  ∃ a', compile_predicate env subject d (render_predicate p).1 (render_predicate p).2 a =
        Ok (p, a') ∧ coherent a'.
Proof.
  intros Hc Hok. unfold compile_predicate, predicate_of_key, process_uid_slot, process_gid_slot.
  assert (Hid : ∀ key source s, names_allowed_for d key = host_only d →
    identity_ok (host_only d) source s →
    ∃ a', compile_identity env subject d key (render_identity s) source a = Ok (s, a') ∧
          coherent a').
  { intros key source s Hn Hs. rewrite <- Hn in Hs. by apply compile_identity_complete. }
  destruct p as [s | [] s | s | [] s | s | digest | s | s | algorithm public]; simpl in *;
    try (edestruct Hid as (a' & -> & Hc'); [by apply orb_false_r | exact Hok | eauto]).
  - rewrite Hok. simpl. eauto.
  - destruct Hok as [-> Hs].
    destruct (compile_systemd_selector_complete subject false a s Hc Hs) as (a' & -> & Hc').
    simpl. eauto.
  - destruct Hok as [-> Hs].
    destruct (compile_systemd_selector_complete subject true a s Hc Hs) as (a' & -> & Hc').
    simpl. eauto.
  - pose proof (compile_signature_key_complete subject d algorithm public Hok) as Hs.
    simpl in Hs. rewrite Hs. simpl. eauto.
Qed.

(** *** Expressions *)

Lemma collect_state_ok {A B E S} (f : A → S → result E (B * S)) (R : A → B → S → S → Prop)
    l st ys st' :
  (∀ x s y s', x ∈ l → f x s = Ok (y, s') → R x y s s') →
  collect_state f l st = Ok (ys, st') →
  match l with
  | [] => ys = [] ∧ st' = st
  | x :: l' => ∃ y ys' st1, ys = y :: ys' ∧ R x y st st1 ∧ collect_state f l' st1 = Ok (ys', st')
  end.
Proof.
  intros Hf H. destruct l as [| x l]; simpl in H; [by simplify_eq |].
  destruct (f x st) as [[y st1] |] eqn:Hx; [| done].
  destruct (collect_state f l st1) as [[ys' st2] |] eqn:Hl; [| done]. simplify_eq.
  exists y, ys', st1. split_and!; [done | | done]. apply Hf; [apply list_elem_of_here | done].
Qed.

(** What one successful compilation establishes, relative to the state it
    started from. *)
Definition node_spec (d : AuthorizationDomain) (gd : nat) (v : Value_)
    (e : EvidenceExpression) (st st' : AccountCache * nat) : Prop :=
  coherent st.1 → gd ≤ MAX_EXPRESSION_DEPTH → st.2 ≤ MAX_EXPRESSION_LEAVES →
  v = render e ∧ groups_nonempty e = true ∧ Forall (predicate_ok d) (leaves_of e) ∧
  coherent st'.1 ∧ gd + depth e ≤ MAX_EXPRESSION_DEPTH ∧
  st'.2 = st.2 + leaf_count e ∧ st'.2 ≤ MAX_EXPRESSION_LEAVES.

Lemma children_sound (f : Value_ → AccountCache * nat → result LoadError _) d gd l st es st' :
  (∀ v s e s', v ∈ l → f v s = Ok (e, s') → node_spec d gd v e s s') →
  collect_state f l st = Ok (es, st') →
  coherent st.1 → gd ≤ MAX_EXPRESSION_DEPTH → st.2 ≤ MAX_EXPRESSION_LEAVES →
  l = map render es ∧ forallb groups_nonempty es = true ∧
  Forall (predicate_ok d) (flat_map leaves_of es) ∧ coherent st'.1 ∧
  gd + fold_right (λ c m, Nat.max (depth c) m) 0 es ≤ MAX_EXPRESSION_DEPTH ∧
  st'.2 = st.2 + fold_right (λ c n, leaf_count c + n) 0 es ∧ st'.2 ≤ MAX_EXPRESSION_LEAVES.
Proof.
  revert st es; induction l as [| v l IH]; intros st es Hf H Hc Hgd Hle.
  { simpl in H. simplify_eq. simpl. split_and!; try done; lia. }
  apply (collect_state_ok f (node_spec d gd)) in H as (e & es' & st1 & -> & Hn & H); [| done].
  destruct (Hn Hc Hgd Hle) as (-> & Hg & Hp & Hc1 & Hd & Hl & Hle1).
  destruct (IH st1 es') as (-> & Hg' & Hp' & Hc' & Hd' & Hl' & Hle'); try done.
  { intros v' s e' s' Hin. apply Hf. by apply list_elem_of_further. }
  simpl. rewrite Hg, Hg'. split_and!; try done; [| lia | lia].
  by apply Forall_app.
Qed.

(** Induction along the children of expression nodes. *)
Definition node_children (P : Value_ → Prop) (v : Value_) : Prop :=
  match v with Object [(_, Array cs)] => Forall P cs | _ => True end.

Fixpoint Value_node_ind (P : Value_ → Prop) (H : ∀ v, node_children P v → P v) (v : Value_)
    : P v :=
  H v (match v as v0 return node_children P v0 with
       | Object [(_, Array cs)] =>
           (fix go l : Forall P l :=
              match l with
              | [] => @List.Forall_nil _ P
              | x :: l' => @List.Forall_cons _ P x l' (Value_node_ind P H x) (go l')
              end) cs
       | _ => I
       end).

Lemma compile_node_sound subject d v gd st e st' :
  value_wf v → compile_expression_node env subject d gd v st = Ok (e, st') →
  node_spec d gd v e st st'.
Proof.
  revert gd st e st'. induction v as [v IH] using Value_node_ind.
  intros gd st e st' Hwf H Hc Hgd Hle.
  destruct v as [| | | | | [| [key v] [|]]]; try done. simpl in H.
  destruct Hwf as [_ [Hwf _]].
  destruct (String.eqb key "all" || String.eqb key "any") eqn:Hkey.
  - inv_ok_step H. apply Nat.ltb_ge in E.
    destruct v as [| | | | [| c cs] |]; try done.
    destruct (collect_state _ _ _) as [[es st1] |] eqn:Hcs; [| done].
    apply (children_sound _ d (gd + 1)) in Hcs as (Hl & Hg & Hp & Hc' & Hd & Hn & Hn'); try done.
    + assert (Hne : length es ≠ 0) by (by destruct es).
      assert (Hkeys : key = "all" ∨ key = "any").
      { apply orb_true_iff in Hkey as [->%String.eqb_eq | ->%String.eqb_eq]; auto. }
      destruct Hkeys as [-> | ->]; simpl in H; simplify_eq; rewrite Hl;
        simpl; rewrite bool_decide_eq_false_2 by done; split_and!; try done; lia.
    + intros v s e' s' Hin Hv. apply (proj1 (fold_conj_Forall value_wf (c :: cs))) in Hwf.
      simpl in IH. rewrite List.Forall_forall in IH, Hwf. apply list_elem_of_In in Hin.
      by apply IH; [| apply Hwf |].
  - destruct st as [a n]. simpl in *. inv_ok_step H. apply Nat.ltb_ge in E.
    destruct (compile_predicate _ _ _ _ _ _) as [[p a1] |] eqn:Hp; [| done]. simplify_eq.
    apply compile_predicate_sound in Hp as (Hr & Hok & Hc'); [| done | done].
    simpl. rewrite <- Hr. split_and!; try done; [by repeat constructor | lia].
Qed.

Definition node_complete (f : nat → Value_ → AccountCache * nat → result LoadError _)
    (d : AuthorizationDomain) (e : EvidenceExpression) : Prop :=
  ∀ gd a n,
    groups_nonempty e = true → Forall (predicate_ok d) (leaves_of e) → coherent a →
    gd + depth e ≤ MAX_EXPRESSION_DEPTH → n + leaf_count e ≤ MAX_EXPRESSION_LEAVES →
    ∃ a', f gd (render e) (a, n) = Ok (e, (a', n + leaf_count e)) ∧ coherent a'.

Lemma children_complete f d gd es a n :
  Forall (node_complete f d) es →
  forallb groups_nonempty es = true → Forall (predicate_ok d) (flat_map leaves_of es) →
  coherent a → gd + fold_right (λ c m, Nat.max (depth c) m) 0 es ≤ MAX_EXPRESSION_DEPTH →
  n + fold_right (λ c n, leaf_count c + n) 0 es ≤ MAX_EXPRESSION_LEAVES →
  ∃ a', collect_state (f gd) (map render es) (a, n) =
        Ok (es, (a', n + fold_right (λ c n, leaf_count c + n) 0 es)) ∧ coherent a'.
Proof.
  intros Hes. revert a n. induction Hes as [| e es He Hes IH]; intros a n Hg Hp Hc Hd Hn; simpl in *.
  { exists a. by rewrite Nat.add_0_r. }
  apply andb_true_iff in Hg as [Hge Hges]. apply Forall_app in Hp as [Hpe Hpes].
  destruct (He gd a n) as (a1 & -> & Hc1); [done | done | done | lia | lia |].
  destruct (IH a1 (n + leaf_count e)) as (a2 & -> & Hc2); [done | done | done | lia | lia |].
  exists a2. split; [| done]. by rewrite Nat.add_assoc.
Qed.

Lemma render_predicate_key p :
  String.eqb (render_predicate p).1 "all" || String.eqb (render_predicate p).1 "any" = false.
Proof. by destruct p as [| [] | | [] | | | | |]. Qed.

(** [mk] is [All] or [Any]; both groups are handled alike. *)
Lemma group_complete subject d key mk es :
  (key, mk) = ("all", All) ∨ (key, mk) = ("any", Any) →
  Forall (node_complete (compile_expression_node env subject d) d) es →
  node_complete (compile_expression_node env subject d) d (mk es).
Proof.
  intros Hk Hes gd a n Hg Hp Hc Hd Hn.
  assert (Hall : groups_nonempty (All es) = true) by (by destruct Hk; simplify_eq).
  apply andb_true_iff in Hall as [Hne Hges].
  assert (Hdepth : depth (mk es) = 1 + fold_right (λ c m, Nat.max (depth c) m) 0 es)
    by (by destruct Hk; simplify_eq).
  destruct (children_complete _ d (gd + 1) es a n Hes Hges) as (a' & Hcs & Hc').
  { by destruct Hk; simplify_eq. }
  { done. }
  { lia. }
  { by destruct Hk; simplify_eq. }
  exists a'. split; [| done].
  assert (Hlt : (MAX_EXPRESSION_DEPTH <? gd + 1)%nat = false) by (apply Nat.ltb_ge; lia).
  destruct es as [| c cs]; [done |].
  destruct Hk; simplify_eq; simpl in *; by rewrite Hlt, Hcs.
Qed.

Lemma compile_node_complete subject d e :
  node_complete (compile_expression_node env subject d) d e.
Proof.
  induction e as [p | es IH | es IH] using EvidenceExpression_nested_ind.
  - intros gd a n _ Hp Hc Hd Hn. simpl in *. inversion Hp as [| ? ? Hok]; subst.
    destruct (compile_predicate_complete subject d a p Hc Hok) as (a' & Hcp & Hc').
    exists a'. split; [| done]. pose proof (render_predicate_key p) as Hk.
    destruct (render_predicate p) as [key v]. simpl in *.
    assert ((MAX_EXPRESSION_LEAVES <? n + 1) = false)%nat as -> by (apply Nat.ltb_ge; lia).
    by rewrite Hk, Hcp.
  - apply (group_complete _ _ "all" All); auto.
  - apply (group_complete _ _ "any" Any); auto.
Qed.

Lemma compile_expression_iff subject d v e a :
  value_wf v → coherent a →
  (∃ a', compile_expression env subject d v a = Ok (e, a') ∧ coherent a') ↔
  v = render e ∧ expression_ok d e.
Proof.
  intros Hwf Hc. unfold compile_expression, expression_ok. split.
  - intros (a' & H & _).
    destruct (compile_expression_node _ _ _ _ _ _) as [[e1 [a1 n1]] |] eqn:Hn; [| done].
    simplify_eq. apply compile_node_sound in Hn; [| done].
    destruct Hn as (-> & Hg & Hp & _ & Hd & Hl & Hle); simpl in *; [done | lia | lia |].
    split_and!; try done; lia.
  - intros (-> & Hg & Hp & Hd & Hl).
    destruct (compile_node_complete subject d e 0 a 0) as (a' & -> & Hc'); try done. eauto.
Qed.

Lemma compile_expression_coherent subject d v e a a' :
  value_wf v → coherent a → compile_expression env subject d v a = Ok (e, a') → coherent a'.
Proof.
  intros Hwf Hc H. unfold compile_expression in H.
  destruct (compile_expression_node _ _ _ _ _ _) as [[e1 [a1 n1]] |] eqn:Hn; [| done].
  simplify_eq. apply compile_node_sound in Hn; [| done].
  destruct Hn as (_ & _ & _ & Hc' & _); simpl; [done | lia | lia | done].
Qed.
End meaning.

(** Compiling a subject's JSON is exact.  A value compiles to [e] iff it
    is the JSON of [e] and [e] is admissible: no empty group, at most eight
    nested groups and 64 leaves, every predicate allowed in the subject's
    domain with well-formed arguments, and every symbolic account resolved by
    the local databases. *)
Theorem compile_expression_exact env subject d v e :
  value_wf v →
  (∃ accounts, compile_expression env subject d v None = Ok (e, accounts)) ↔
  v = render e ∧ expression_ok env d e.
Proof.
  intros Hwf. assert (Hc : coherent env None) by done.
  rewrite <- (compile_expression_iff env subject d v e None Hwf Hc).
  split; intros [a Ha]; exists a; [| by destruct Ha].
  split; [done |]. by apply (compile_expression_coherent env subject d v e None).
Qed.

(** A concrete environment: the account files of [sample_observation], and
    decoders that accept the byte strings of the right length as they are. *)
Definition sample_passwd : string := "alice:x:7:7:Alice:/a:/sh" +:+ of_bytes [10%N; 10%N].
Definition sample_group : string := "wheel:x:10:alice" +:+ of_bytes [10; 10; 10; 10; 10; 10; 10; 10; 10; 10]%N.
Definition sample_env : LoaderEnv :=
  {| url_safe_no_pad_decode := Some;
     env_base32_decode := λ s, Some (bytes s);
     env_account_files :=
       {| etc_passwd := sample_observation sample_passwd;
          etc_group := sample_observation sample_group |} |}.

Definition sample_expression : EvidenceExpression :=
  All [Leaf (ProcessUid (LocalName "alice" 7 Passwd));
       Any [Leaf (ProcessGidSlot Effective (LocalName "wheel" 10 GroupFile));
            Leaf (ProcessGidSupplementary (Numeric 4))]].

(** ** The subject registry *)

(** A registered definition is the meaning of a raw one. *)
Record subject_of (env : LoaderEnv) (raw : RawSubjectDefinition) (def : SubjectDefinition)
    : Prop := {
  so_domain : subject_domain_of def = raw_domain raw;
  so_break_glass : break_glass def = raw_break_glass raw;
  so_match : raw_match raw = render (match_ def);
  so_expression : expression_ok env (raw_domain raw) (match_ def);
}.

Definition subject_name_ok (name : SubjectName) : Prop :=
  is_empty name = false ∧ String.length name ≤ 128 ∧ existsb is_control (chars name) = false.

Lemma parse_subject_ok env name raw a name' def a' :
  value_wf (raw_match raw) → coherent env a →
  parse_subject env name raw a = Ok ((name', def), a') →
  name' = trim name ∧ subject_name_ok name' ∧ subject_of env raw def ∧ coherent env a'.
Proof.
  intros Hwf Hc H. unfold parse_subject in H. inv_ok_step H. inv_ok_step H. inv_ok_step H.
  destruct (compile_expression _ _ _ _ _) as [[e a1] |] eqn:He; [| done].
  inv_ok_step H. simplify_eq. apply Nat.ltb_ge in E0.
  pose proof (compile_expression_coherent _ _ _ _ _ _ _ Hwf Hc He) as Hc'.
  destruct (proj1 (compile_expression_iff env (trim name) (raw_domain raw) (raw_match raw) e a
                     Hwf Hc) (ex_intro _ _ (conj He Hc'))) as [Hr Hok].
  split_and!; try done.
Qed.

(** The bounds the compiler enforces make the complexity check of
    [parse_subject] redundant. *)
Lemma parse_subject_complete env name raw def a :
  value_wf (raw_match raw) → coherent env a →
  subject_name_ok (trim name) → subject_of env raw def →
  ∃ a', parse_subject env name raw a = Ok ((trim name, def), a') ∧ coherent env a'.
Proof.
  intros Hwf Hc (Hne & Hlen & Hctl) [Hd Hb Hm He]. unfold parse_subject. rewrite Hne, Hctl.
  assert ((128 <? String.length (trim name))%nat = false) as -> by (by apply Nat.ltb_ge).
  destruct (proj2 (compile_expression_iff env (trim name) (raw_domain raw) (raw_match raw)
                     (match_ def) a Hwf Hc) (conj Hm He)) as (a' & -> & Hc').
  destruct He as (_ & _ & H1 & H2). apply Nat.ltb_ge in H1, H2. rewrite H1, H2.
  exists a'. split; [| done]. simpl. destruct def; simpl in *; by subst.
Qed.

Lemma subject_of_unique env raw def def' :
  value_wf (raw_match raw) → subject_of env raw def → subject_of env raw def' → def = def'.
Proof.
  intros Hwf [Hd1 Hb1 Hm1 He1] [Hd2 Hb2 Hm2 He2]. assert (Hc : coherent env None) by done.
  destruct (proj2 (compile_expression_iff env "" (raw_domain raw) (raw_match raw)
                     (match_ def) None Hwf Hc) (conj Hm1 He1)) as (a1 & H1 & _).
  destruct (proj2 (compile_expression_iff env "" (raw_domain raw) (raw_match raw)
                     (match_ def') None Hwf Hc) (conj Hm2 He2)) as (a2 & H2 & _).
  destruct def, def'; simpl in *; congruence.
Qed.

(** [def] is the meaning of the last raw entry whose trimmed name is [name]. *)
Definition from_last (env : LoaderEnv) (raw : list (SubjectName * RawSubjectDefinition))
    (name : SubjectName) (def : SubjectDefinition) : Prop :=
  ∃ raw1 k r raw2, raw = raw1 ++ (k, r) :: raw2 ∧ trim k = name ∧
    (∀ e, e ∈ raw2 → trim e.1 ≠ name) ∧ subject_of env r def.

Lemma from_last_snoc env raw k r name def :
  from_last env (raw ++ [(k, r)]) name def ↔
  (trim k = name ∧ subject_of env r def) ∨ (trim k ≠ name ∧ from_last env raw name def).
Proof.
  split.
  - intros (raw1 & k' & r' & raw2 & Heq & Ht & Hlast & Hso).
    destruct raw2 as [| x raw2 _] using rev_ind.
    + apply app_inj_tail in Heq as [-> [= -> ->]]. by left.
    + rewrite app_comm_cons, app_assoc in Heq. apply app_inj_tail in Heq as [-> <-].
      right. split; [apply (Hlast (k, r)); apply elem_of_app; right; apply list_elem_of_here |].
      exists raw1, k', r', raw2. split_and!; try done.
      intros e He. apply Hlast. apply elem_of_app. by left.
  - intros [[Ht Hso] | [Ht (raw1 & k' & r' & raw2 & -> & Ht' & Hlast & Hso)]].
    + exists raw, k, r, []. split_and!; try done. by intros ? ?%not_elem_of_nil.
    + exists raw1, k', r', (raw2 ++ [(k, r)]). split_and!; try done; [by rewrite <- app_assoc |].
      intros e [He | ->%list_elem_of_singleton]%elem_of_app; [by apply Hlast | done].
Qed.

Lemma parse_subjects_loop env raw a subjects warnings :
  Forall (λ e, value_wf (raw_match e.2)) raw →
  for_each (parse_subjects_step env) raw (None, [], []) = Ok (a, subjects, warnings) →
  coherent env a ∧ sorted subjects ∧
  (∀ name def, get subjects name = Some def → subject_name_ok name) ∧
  (∀ name def, get subjects name = Some def ↔ from_last env raw name def).
Proof.
  revert a subjects warnings; induction raw as [| [k r] raw IH] using rev_ind;
    intros a subjects warnings Hwf H.
  { simpl in H. simplify_eq. split_and!; try done; [apply sorted_nil |].
    intros name def. split; [done |]. by intros ([] & ? & ? & ? & ? & _). }
  apply Forall_app in Hwf as [Hwf Hr]. inversion Hr as [| ? ? Hwfr _]; subst. simpl in Hwfr.
  rewrite for_each_app in H. destruct (for_each _ raw _) as [[[a1 subs1] w1] |] eqn:Hraw; [| done].
  destruct (IH _ _ _ Hwf eq_refl) as (Hc & Hs & Hn & Hg). simpl in H.
  destruct (parse_subject env k r a1) as [[[name0 def0] a2] |] eqn:Hp; [| done]. simplify_eq.
  apply parse_subject_ok in Hp as (-> & Hnok & Hso & Hc'); [| done | done].
  split_and!; [done | by apply sorted_insert | |]; intros name def;
    destruct (decide (trim k = name)) as [<- | Hne].
  - done.
  - rewrite get_insert_ne by done. apply Hn.
  - rewrite get_insert_eq, from_last_snoc. split.
    + intros [= <-]. by left.
    + intros [[_ Hso'] | [? _]]; [| done]. f_equal. by apply (subject_of_unique env r).
  - rewrite get_insert_ne, from_last_snoc, Hg by done. tauto.
Qed.

(** The subject registry holds, under each trimmed and checked name, the
    exact meaning of the last raw entry that trims to it; an earlier raw entry
    with the same trimmed name leaves no trace. *)
Theorem parse_subjects_registry env raw subjects warnings :
  Forall (λ e, value_wf (raw_match e.2)) raw →
  parse_subjects env raw = Ok (subjects, warnings) →
  sorted subjects ∧ (∀ name def, get subjects name = Some def → subject_name_ok name) ∧
  (∀ name def, get subjects name = Some def ↔ from_last env raw name def).
Proof.
  intros Hwf H. unfold parse_subjects in H.
  destruct (for_each _ _ _) as [[[a subs] w] |] eqn:Hl; [| done]. simplify_eq.
  by apply parse_subjects_loop in Hl as (_ & ?).
Qed.
