(* ===== verification/PolicyLoader.v ===== *)
(** * Rules, the grant index and [load]
      ([crates/basil-core/src/core/catalog/loader.rs])

    The last stage of loading: rules are parsed against the subject registry,
    their action terms are expanded through the role table, and the result is
    the index the decision point reads.  [load] composes the stages. *)

From S2P Require Import Prelude RustStr BTreeMap Glob Policy Evidence Nkey Schema CatalogLoader.
From S2P Require Import Json Accounts SubjectLoader.

Abbreviation Subjects := (list (SubjectName * SubjectDefinition)).
Abbreviation Roles := (list (string * list Op)).

Record RawRule := {
  raw_id : string;
  raw_rule_subjects : list SubjectName;
  raw_action : list string;
  raw_target : list string;
  raw_comment : option string;
}.

(** The subjects and roles a policy document lists, before its maps are
    built: what [serde_json] hands to the visitors of the loader. *)
Record SubjectInput := {
  in_domain : AuthorizationDomain;
  in_break_glass : bool;
  in_match : JsonInput;
}.

Record PolicyInput := {
  in_subjects : list (SubjectName * SubjectInput);
  in_roles : list (string * list Op);
  in_rules : list RawRule;
  in_config : Config;
}.

Record RawPolicy := {
  raw_subjects : list (SubjectName * RawSubjectDefinition);
  raw_roles : Roles;
  raw_rules : list RawRule;
  raw_config : Config;
}.

(** [RawEvidenceExpression::deserialize] inside a subject definition. *)
Definition RawSubjectDefinition_deserialize (i : SubjectInput)
    : result string RawSubjectDefinition :=
  let? v := UniqueValueVisitor (in_match i) in
  Ok {| raw_domain := in_domain i; raw_break_glass := in_break_glass i; raw_match := v |}.

Definition raw_subject_entry (map : list (SubjectName * RawSubjectDefinition))
    (entry : SubjectName * SubjectInput)
    : result string (list (SubjectName * RawSubjectDefinition)) :=
  let? def := RawSubjectDefinition_deserialize entry.2 in
  unique_map_entry map (entry.1, def).

Definition RawPolicy_deserialize (i : PolicyInput) : result string RawPolicy :=
  let? subjects := for_each raw_subject_entry (in_subjects i) [] in
  let? roles := deserialize_unique_btree_map (in_roles i) in
  Ok {| raw_subjects := subjects; raw_roles := roles; raw_rules := in_rules i;
        raw_config := in_config i |}.

(** ** Rules *)

Definition parse_rule (raw : RawRule) (subjects : Subjects) : result LoadError Rule :=
  let id := raw_id raw in
  return_err (EmptyRuleSubjects id)
    when (length (raw_rule_subjects raw) =? 0)%nat otherwise
  let? _ := check_each
    (λ subject, if negb (contains_key subjects subject)
                then Err (UnknownSubject id subject) else Ok tt)
    (raw_rule_subjects raw) in
  let? action := map_err (BadTerm id) (collect_map ActionTerm_parse (raw_action raw)) in
  let? target := map_err (BadGlob id) (collect_map KeyGlob_parse (raw_target raw)) in
  return_err (NonBreakGlassAnyTarget id)
    when existsb matches_all target &&
         existsb (λ name, negb (match get subjects name with
                                | Some subject => break_glass subject
                                | None => false
                                end)) (raw_rule_subjects raw)
  otherwise
  Ok {| rule_id := id; rule_subjects := raw_rule_subjects raw; rule_action := action;
        rule_target := target; rule_comment := raw_comment raw |}.

(** The closure of [parse_rules], with the set of ids it captures. *)
Definition parse_rules_step (subjects : Subjects) (raw : RawRule) (seen : list string)
    : result LoadError (Rule * list string) :=
  let '(fresh, seen) := set_insert seen (raw_id raw) in
  return_err (DuplicateRuleId (raw_id raw)) when negb fresh otherwise
  let? rule := parse_rule raw subjects in
  Ok (rule, seen).

Definition parse_rules (raw : list RawRule) (subjects : Subjects) : result LoadError (list Rule) :=
  let? (rules, _) := collect_state (parse_rules_step subjects) raw [] in
  Ok rules.

Definition validate_rule_roles (rules : list Rule) (defined_roles : Roles) : checked :=
  check_each
    (λ rule,
       check_each
         (λ action,
            match action with
            | RoleTerm name =>
                if negb (contains_key defined_roles name)
                then Err (UnknownRole (rule_id rule) name) else Ok tt
            | _ => Ok tt
            end) (rule_action rule)) rules.

(** ** The grant index *)

(** One term of the loop of [expand_ops]. *)
Definition expand_term (defined_roles : Roles) (ops : list (Op * string)) (term : ActionTerm)
    : list (Op * string) :=
  match term with
  | OpTerm op => or_insert ops op ("op:" +:+ Op_token op)
  | RoleTerm name =>
      match get defined_roles name with
      | Some role_ops => fold_left (λ ops op, or_insert ops op ("role:" +:+ name)) role_ops ops
      | None => ops
      end
  | AnyOp => fold_left (λ ops op, or_insert ops op "*") ALL_OPS ops
  end.

Definition expand_ops (action : list ActionTerm) (defined_roles : Roles) : list (Op * string) :=
  fold_left (expand_term defined_roles) action [].

Definition resolve_rule (defined_roles : Roles) (rule : Rule) : ResolvedRule :=
  let ops := expand_ops (rule_action rule) defined_roles in
  {| resolved_subjects := rule_subjects rule;
     resolved_grants :=
       flat_map (λ target,
         map (λ '(op, action),
                {| grant_op := op; grant_target := target; grant_rule_id := rule_id rule;
                   grant_action := action |}) ops) (rule_target rule) |}.

Definition build_resolved (subjects : Subjects) (rules : list Rule) (defined_roles : Roles)
    : ResolvedPolicy :=
  {| Evidence.subjects := subjects; Evidence.rules := map (resolve_rule defined_roles) rules |}.

(** ** [load]

    [serde_json::from_str] is a parameter at each type it is used at: the
    catalog, the policy document and an untyped value. *)

Record JsonParsers := {
  catalog_from_str : string → result string Catalog;
  policy_from_str : string → result string PolicyInput;
  value_from_str : string → option Value_;
}.

Definition legacy_document (version : N) (first second : string)
    (second_shape : Value_ → bool) (value : option Value_) : bool :=
  match value ≫= as_object with
  | None => false
  | Some object =>
      negb (contains_key object "schema") &&
      bool_decide (get object "schemaVersion" ≫= as_u64 = Some version) &&
      match get object first with Some v => is_object v | None => false end &&
      match get object second with Some v => second_shape v | None => false end
  end.

Definition classify_catalog_parse_error (value : option Value_) (source : string) : LoadError :=
  if legacy_document 1 "backends" "keys" is_object value then LegacyCatalogV1
  else JsonError "catalog" source.

Definition classify_policy_parse_error (value : option Value_) (source : string) : LoadError :=
  if legacy_document 2 "subjects" "rules" is_array value then LegacyPolicyV2
  else JsonError "policy" source.

Record Loaded := {
  loaded_catalog : Catalog;
  loaded_policy : ResolvedPolicy;
  loaded_config : Config;
  loaded_warnings : list LoadWarning;
}.

Definition load (env : LoaderEnv) (json : JsonParsers) (catalog_json policy_json : string)
    : result LoadError Loaded :=
  let? catalog :=
    map_err (classify_catalog_parse_error (value_from_str json catalog_json))
      (catalog_from_str json catalog_json) in
  let? raw_policy :=
    map_err (classify_policy_parse_error (value_from_str json policy_json))
      (let? i := policy_from_str json policy_json in RawPolicy_deserialize i) in
  let? warnings := validate_catalog catalog in
  let? (subjects, subject_warnings) := parse_subjects env (raw_subjects raw_policy) in
  let? rules := parse_rules (raw_rules raw_policy) subjects in
  let? _ := validate_rule_roles rules (raw_roles raw_policy) in
  Ok {| loaded_catalog := catalog;
        loaded_policy := build_resolved subjects rules (raw_roles raw_policy);
        loaded_config := raw_config raw_policy;
        loaded_warnings := warnings ++ subject_warnings |}.

(** ** What a rule grants *)

Definition term_grants (defined_roles : Roles) (op : Op) (term : ActionTerm) : bool :=
  match term with
  | OpTerm op' => Op_eqb op op'
  | RoleTerm name =>
      match get defined_roles name with
      | Some role_ops => existsb (Op_eqb op) role_ops
      | None => false
      end
  | AnyOp => negb (explicit_only op)
  end.

(** A table keeps its entry; a missing entry is the new one, if any. *)
Definition first_of (old new : option string) : option string :=
  match old with Some s => Some s | None => new end.

Lemma get_or_insert (m : list (Op * string)) k v op :
  get (or_insert m k v) op = first_of (get m op) (if Op_eqb op k then Some v else None).
Proof.
  unfold or_insert, contains_key, first_of, Op_eqb.
  destruct (bool_decide (op = k)) eqn:E; bool_facts.
  - subst. destruct (get m k) eqn:Hg; [done | apply get_insert_eq].
  - assert (Hne : k ≠ op) by congruence.
    destruct (get m k); [by destruct (get m op) |].
    rewrite get_insert_ne by done. by destruct (get m op).
Qed.

Lemma get_or_insert_all (ops : list Op) m v op :
  get (fold_left (λ m o, or_insert m o v) ops m) op =
  first_of (get m op) (if existsb (Op_eqb op) ops then Some v else None).
Proof.
  revert m; induction ops as [| o ops IH]; intros m; simpl.
  - unfold first_of. by destruct (get m op).
  - rewrite IH, get_or_insert. unfold first_of.
    destruct (get m op); [done |]. by destruct (Op_eqb op o).
Qed.

Lemma existsb_ALL_OPS op : existsb (Op_eqb op) ALL_OPS = negb (explicit_only op).
Proof. by destruct op. Qed.

Lemma expand_term_get roles m t op :
  get (expand_term roles m t) op =
  first_of (get m op) (if term_grants roles op t then Some (ActionTerm_spelling t) else None).
Proof.
  destruct t as [name | o |]; unfold expand_term, term_grants, ActionTerm_spelling.
  - destruct (get roles name); [apply get_or_insert_all |].
    unfold first_of. by destruct (get m op).
  - apply get_or_insert.
  - rewrite get_or_insert_all. by rewrite existsb_ALL_OPS.
Qed.

Lemma expand_ops_get action roles op :
  get (expand_ops action roles) op =
  ActionTerm_spelling <$> List.find (term_grants roles op) action.
Proof.
  unfold expand_ops.
  assert (H : ∀ m, get (fold_left (expand_term roles) action m) op =
    first_of (get m op) (ActionTerm_spelling <$> List.find (term_grants roles op) action)).
  { induction action as [| t action IH]; intros m; simpl.
    - unfold first_of. by destruct (get m op).
    - rewrite IH, expand_term_get. unfold first_of.
      destruct (get m op); [done |]. by destruct (term_grants roles op t). }
  by rewrite H.
Qed.

Lemma expand_ops_sorted action roles : sorted (expand_ops action roles).
Proof.
  assert (Hor : ∀ m k v, sorted m → sorted (@or_insert Op string _ m k v)).
  { intros m k v Hm. unfold or_insert. destruct (contains_key m k); [done | by apply sorted_insert]. }
  assert (Hfold : ∀ ops v (m : list (Op * string)), sorted m → sorted (fold_left (λ m o, or_insert m o v) ops m)).
  { induction ops as [| o ops IH]; intros v m Hm; simpl; auto. }
  assert (H : ∀ m, sorted m → sorted (fold_left (expand_term roles) action m)).
  { induction action as [| t action IH]; intros m Hm; simpl; [done |]. apply IH.
    destruct t as [name | |]; unfold expand_term; auto. destruct (get roles name); auto. }
  apply H, sorted_nil.
Qed.

Lemma expand_ops_elem action roles op s :
  (op, s) ∈ expand_ops action roles ↔
  ActionTerm_spelling <$> List.find (term_grants roles op) action = Some s.
Proof.
  rewrite <- expand_ops_get. symmetry. apply get_Some_elem, expand_ops_sorted.
Qed.

(** A rule grants [op] on the keys of [target] under the name of [term]. *)
Definition rule_grants (roles : Roles) (rule : Rule) (g : Grant) : Prop :=
  grant_rule_id g = rule_id rule ∧ grant_target g ∈ rule_target rule ∧
  ∃ term, List.find (term_grants roles (grant_op g)) (rule_action rule) = Some term ∧
          grant_action g = ActionTerm_spelling term.

Lemma resolve_rule_grants roles rule g :
  g ∈ resolved_grants (resolve_rule roles rule) ↔ rule_grants roles rule g.
Proof.
  unfold resolve_rule, rule_grants. simpl.
  rewrite list_elem_of_In, in_flat_map. setoid_rewrite in_map_iff.
  setoid_rewrite <- list_elem_of_In. split.
  - intros (t & Ht & [op s] & <- & He). apply expand_ops_elem in He. simpl.
    destruct (List.find _ _) as [term |]; simplify_eq/=. eauto 6.
  - intros (Hid & Ht & term & Hf & Ha). exists (grant_target g). split; [done |].
    exists (grant_op g, grant_action g). split; [by destruct g; simpl in *; subst |].
    apply expand_ops_elem. by rewrite Hf, Ha.
Qed.

(** The grant index of a rule is exact.  A grant is in it iff it has the
    rule's id, one of its targets and an operation some action term grants
    through the role table; the recorded spelling is that of the FIRST such
    term, and a [*] term grants the key-scoped operations only. *)
Theorem build_resolved_grants subjects rules roles r :
  r ∈ Evidence.rules (build_resolved subjects rules roles) ↔
  ∃ rule, rule ∈ rules ∧ r = resolve_rule roles rule ∧
    resolved_subjects r = rule_subjects rule ∧
    ∀ g, g ∈ resolved_grants r ↔
      grant_rule_id g = rule_id rule ∧ grant_target g ∈ rule_target rule ∧
      ∃ before term after, rule_action rule = before ++ term :: after ∧
        term_grants roles (grant_op g) term = true ∧
        (∀ t, t ∈ before → term_grants roles (grant_op g) t = false) ∧
        grant_action g = ActionTerm_spelling term.
Proof.
  simpl. rewrite list_elem_of_fmap. split; intros (rule & H).
  - destruct H as [-> Hin]. exists rule. split_and!; try done. intros g.
    rewrite resolve_rule_grants. unfold rule_grants. setoid_rewrite find_split. naive_solver.
  - exists rule. naive_solver.
Qed.

(** ** What an accepted rule set satisfies *)

Record rule_of (subjects : Subjects) (raw : RawRule) (rule : Rule) : Prop := {
  ro_id : rule_id rule = raw_id raw;
  ro_subjects : rule_subjects rule = raw_rule_subjects raw;
  ro_comment : rule_comment rule = raw_comment raw;
  ro_nonempty : rule_subjects rule ≠ [];
  ro_registered : ∀ s, s ∈ rule_subjects rule → is_Some (get subjects s);
  ro_action : Forall2 (λ s t, ActionTerm_parse s = Ok t) (raw_action raw) (rule_action rule);
  ro_target : Forall2 (λ s g, KeyGlob_parse s = Ok g) (raw_target raw) (rule_target rule);
  ro_break_glass : ∀ g s, g ∈ rule_target rule → matches_all g = true →
    s ∈ rule_subjects rule → break_glass <$> get subjects s = Some true;
}.

Lemma registered_check id (subjects : Subjects) names :
  check_each (λ subject, if negb (contains_key subjects subject)
                         then Err (UnknownSubject id subject) else Ok tt) names = Ok tt ↔
  ∀ s, s ∈ names → is_Some (get subjects s).
Proof.
  rewrite check_each_ok, List.Forall_forall. setoid_rewrite <- list_elem_of_In.
  split; intros H s Hs; specialize (H s Hs); unfold contains_key in *;
    destruct (get subjects s); try done; try (by destruct H); eauto.
Qed.

Lemma any_target_gate (subjects : Subjects) target names :
  existsb matches_all target &&
  existsb (λ name, negb (match get subjects name with
                         | Some subject => break_glass subject
                         | None => false
                         end)) names = false ↔
  ∀ g s, g ∈ target → matches_all g = true → s ∈ names →
    break_glass <$> get subjects s = Some true.
Proof.
  rewrite andb_false_iff, <- !not_true_iff_false, !existsb_elem. split.
  - intros Hgate g s Hg Hall Hs. destruct Hgate as [Hgate | Hgate].
    + destruct Hgate. eauto.
    + destruct (break_glass <$> get subjects s) as [[] |] eqn:Hb; [done | |]; exfalso;
        apply Hgate; exists s; split; try done; by destruct (get subjects s); simplify_eq/=;
        rewrite ?Hb.
  - intros H. destruct (existsb matches_all target) eqn:Ha.
    + right. intros (s & Hs & Hneg). apply existsb_elem in Ha as (g & Hg & Hall).
      specialize (H g s Hg Hall Hs). destruct (get subjects s); simplify_eq/=. by rewrite H in Hneg.
    + left. intros (g & Hg & Hall). apply not_true_iff_false in Ha. apply Ha, existsb_elem. eauto.
Qed.

Lemma parse_rule_ok raw subjects rule :
  parse_rule raw subjects = Ok rule ↔ rule_of subjects raw rule.
Proof.
  unfold parse_rule. split.
  - intros H. inv_ok H. destruct value. rewrite registered_check in E0.
    apply map_err_ok, collect_map_ok in E1, E2. rewrite any_target_gate in E3.
    apply Nat.eqb_neq in E. split; try done. simpl. by destruct (raw_rule_subjects raw).
  - intros [Hid Hs Hcm Hne Hreg Ha Ht Hbg]. destruct rule as [id names action target comment].
    simpl in *. subst. apply collect_map_ok in Ha, Ht. rewrite <- any_target_gate in Hbg.
    rewrite <- (registered_check (raw_id raw)) in Hreg. rewrite Hreg, Ha, Ht. simpl. rewrite Hbg.
    by destruct (raw_rule_subjects raw).
Qed.

Lemma parse_rules_loop subjects raw seen rules :
  set_sorted seen →
  (∃ seen', collect_state (parse_rules_step subjects) raw seen = Ok (rules, seen')) ↔
  NoDup (map raw_id raw) ∧ (∀ i, i ∈ map raw_id raw → i ∉ seen) ∧
  Forall2 (rule_of subjects) raw rules.
Proof.
  revert seen rules; induction raw as [| r raw IH]; intros seen rules Hs; simpl.
  { split.
    - intros [? [= <- _]]. split_and!; [apply NoDup_nil_2 | by intros ? ?%not_elem_of_nil | done].
    - intros (_ & _ & Hf). inversion Hf. eauto. }
  unfold parse_rules_step at 1. rewrite list.NoDup_cons. setoid_rewrite elem_of_cons.
  pose proof (set_insert_fresh seen (raw_id r) Hs) as Hfresh.
  pose proof (set_insert_spec seen (raw_id r)) as Hspec.
  pose proof (set_insert_sorted seen (raw_id r) Hs) as Hs'.
  destruct (set_insert seen (raw_id r)) as [fresh seen1]; simpl in *.
  destruct fresh; simpl.
  2: { split; [by intros [? ?] |]. intros (_ & Hn & _).
       assert (raw_id r ∉ seen) as ?%Hfresh by (apply Hn; by left). done. }
  destruct (parse_rule r subjects) as [rule |] eqn:Hr.
  2: { split; [by intros [? ?] |]. intros (_ & _ & Hf).
       inversion Hf as [| ? ? ? ? Hro]; subst. apply parse_rule_ok in Hro. congruence. }
  apply parse_rule_ok in Hr. split.
  - intros [seen' H]. destruct (collect_state _ raw seen1) as [[rs s2] |] eqn:Hc; [| done].
    simplify_eq. destruct (proj1 (IH seen1 rs Hs') (ex_intro _ _ Hc)) as (Hnd & Hn & Hf).
    setoid_rewrite Hspec in Hn. split_and!; [| done | | by constructor].
    + intros Hin. destruct (Hn _ Hin). by left.
    + intros i [-> | Hin]; [by apply Hfresh |]. intros ?. destruct (Hn _ Hin). by right.
  - intros ([Hnin Hnd] & Hn & Hf). inversion Hf as [| ? rule' ? rs Hro Hf']; subst.
    apply parse_rule_ok in Hro, Hr. rewrite Hr in Hro. simplify_eq.
    destruct (proj2 (IH seen1 rs Hs')) as [seen' Hc]; [| by rewrite Hc; eauto].
    split_and!; try done. intros i Hi Hin. apply Hspec in Hin as [-> | Hin]; [done |].
    by apply (Hn i); [right |].
Qed.

(** A policy's rules are accepted exactly when their ids are pairwise
    distinct and each of them lists at least one subject, only registered
    subjects, well-formed terms and globs, and, if one of its targets matches
    every key, only break-glass subjects. *)
Theorem parse_rules_spec raw subjects rules :
  parse_rules raw subjects = Ok rules ↔
  NoDup (map raw_id raw) ∧ Forall2 (rule_of subjects) raw rules.
Proof.
  assert (Hs : set_sorted (@nil string)) by constructor.
  pose proof (parse_rules_loop subjects raw [] rules Hs) as H. unfold parse_rules. split.
  - destruct (collect_state _ _ _) as [[rs seen] |] eqn:Hc; intros; [| done]. simplify_eq.
    destruct H as [H _]. destruct H as (? & _ & ?); [eauto | done].
  - intros [Hnd Hf]. destruct H as [_ H]. destruct H as [seen' Hc].
    + split_and!; try done. by intros ? _ ?%not_elem_of_nil.
    + by rewrite Hc.
Qed.

(** ** The loaded policy *)

Lemma validate_rule_roles_ok rules roles :
  validate_rule_roles rules roles = Ok tt ↔
  ∀ rule name, rule ∈ rules → RoleTerm name ∈ rule_action rule → is_Some (get roles name).
Proof.
  unfold validate_rule_roles. rewrite check_each_ok, List.Forall_forall.
  setoid_rewrite check_each_ok. setoid_rewrite List.Forall_forall.
  setoid_rewrite <- list_elem_of_In. split.
  - intros H rule name Hr Ha. specialize (H rule Hr _ Ha). simpl in H.
    unfold contains_key in H. destruct (get roles name); [eauto | done].
  - intros H rule Hr [name | |] Ha; try done. specialize (H rule name Hr Ha).
    unfold contains_key. destruct (get roles name); [done | by destruct H].
Qed.

(** The raw subjects reach the compiler as well-formed values. *)
Lemma RawPolicy_deserialize_wf i raw :
  RawPolicy_deserialize i = Ok raw →
  Forall (λ e, value_wf (raw_match e.2)) (raw_subjects raw) ∧ raw_rules raw = in_rules i.
Proof.
  unfold RawPolicy_deserialize. intros H. inv_ok H. simpl. split; [| done].
  eapply (for_each_inv (Forall (λ e : SubjectName * RawSubjectDefinition,
                                  value_wf (raw_match e.2)))); [| constructor | exact E].
  intros m [name si] m' _ Hm Hstep. unfold raw_subject_entry, RawSubjectDefinition_deserialize in Hstep.
  simpl in Hstep. destruct (UniqueValueVisitor (in_match si)) as [v |] eqn:Hv; [| done].
  destruct (get m name); [done |]. inv_ok Hstep.
  rewrite List.Forall_forall in *. intros [k def] Hin%list_elem_of_In.
  apply elem_insert in Hin as [[= -> ->] | Hin]; [| by apply (Hm (k, def)), list_elem_of_In].
  simpl. by apply UniqueValueVisitor_wf in Hv.
Qed.

(** What every policy the loader returns satisfies. *)
Record policy_wf (env : LoaderEnv) (p : ResolvedPolicy) : Prop := {
  pw_sorted : sorted (Evidence.subjects p);
  pw_names : ∀ name def, get (Evidence.subjects p) name = Some def → subject_name_ok name;
  pw_expressions : ∀ name def, get (Evidence.subjects p) name = Some def →
    expression_ok env (subject_domain_of def) (match_ def);
  pw_nonempty : ∀ r, r ∈ Evidence.rules p → resolved_subjects r ≠ [];
  pw_registered : ∀ r name, r ∈ Evidence.rules p → name ∈ resolved_subjects r →
    is_Some (get (Evidence.subjects p) name);
  pw_break_glass : ∀ r g name, r ∈ Evidence.rules p → g ∈ resolved_grants r →
    matches_all (grant_target g) = true → name ∈ resolved_subjects r →
    break_glass <$> get (Evidence.subjects p) name = Some true;
  pw_explicit : ∀ r g, r ∈ Evidence.rules p → g ∈ resolved_grants r →
    explicit_only (grant_op g) = true → grant_action g ≠ "*";
  pw_globs : ∀ r g, r ∈ Evidence.rules p → g ∈ resolved_grants r → wf_glob (grant_target g);
}.

Lemma rule_grants_explicit roles rule g :
  rule_grants roles rule g → explicit_only (grant_op g) = true → grant_action g ≠ "*".
Proof.
  intros (_ & _ & term & Hf & ->) Hex. apply find_elem in Hf as [_ Hg].
  destruct term as [name | op |]; simpl in *; try done. by rewrite Hex in Hg.
Qed.

Lemma build_resolved_wf env subjects roles raw rules :
  sorted subjects →
  (∀ name def, get subjects name = Some def →
     subject_name_ok name ∧ expression_ok env (subject_domain_of def) (match_ def)) →
  Forall2 (rule_of subjects) raw rules → policy_wf env (build_resolved subjects rules roles).
Proof.
  intros Hs Hsub Hf.
  assert (Hrule : ∀ r, r ∈ Evidence.rules (build_resolved subjects rules roles) →
    ∃ rw rule, rule_of subjects rw rule ∧ r = resolve_rule roles rule).
  { intros r (rule & -> & Hin)%list_elem_of_fmap.
    destruct (Forall2_elem_r _ _ _ _ Hf Hin) as (rw & _ & Hro). eauto. }
  split; simpl in *; try done.
  - intros name def H. by apply Hsub in H as [? _].
  - intros name def H. by apply Hsub in H as [_ ?].
  - intros r (rw & rule & Hro & ->)%Hrule. apply Hro.
  - intros r name (rw & rule & Hro & ->)%Hrule. apply Hro.
  - intros r g name (rw & rule & Hro & ->)%Hrule (_ & Ht & _)%resolve_rule_grants.
    by apply (ro_break_glass _ _ _ Hro).
  - intros r g (rw & rule & Hro & ->)%Hrule Hg%resolve_rule_grants. by eapply rule_grants_explicit.
  - intros r g (rw & rule & Hro & ->)%Hrule (_ & Ht & _)%resolve_rule_grants.
    destruct (Forall2_elem_r _ _ _ _ (ro_target _ _ _ Hro) Ht) as (s & _ & Hp).
    by apply KeyGlob_parse_wf in Hp as [_ ?].
Qed.

Lemma load_parts env json catalog_json policy_json l :
  load env json catalog_json policy_json = Ok l →
  ∃ i raw subjects cw sw rules,
    policy_from_str json policy_json = Ok i ∧ RawPolicy_deserialize i = Ok raw ∧
    validate_catalog (loaded_catalog l) = Ok cw ∧
    parse_subjects env (raw_subjects raw) = Ok (subjects, sw) ∧
    parse_rules (raw_rules raw) subjects = Ok rules ∧
    validate_rule_roles rules (raw_roles raw) = Ok tt ∧
    loaded_policy l = build_resolved subjects rules (raw_roles raw).
Proof.
  unfold load. intros H. inv_ok_step H. inv_ok_step H. inv_ok_step H.
  apply map_err_ok in E, E0. inv_ok_step E0.
  destruct (parse_subjects _ _) as [[subjects sw] |] eqn:Hps; [| done].
  inv_ok_step H. inv_ok_step H. inv_ok H. destruct value4. simpl.
  eexists _, _, subjects, _, sw, _. by split_and!.
Qed.

Lemma parse_rules_ok raw subjects rules :
  parse_rules raw subjects = Ok rules → Forall2 (rule_of subjects) raw rules.
Proof.
  unfold parse_rules. destruct (collect_state _ _ _) as [[rs seen] |] eqn:Hc; intros; [| done].
  simplify_eq. assert (Hs : set_sorted (@nil string)) by constructor.
  by destruct (proj1 (parse_rules_loop subjects raw [] rules Hs) (ex_intro _ _ Hc)) as (_ & _ & ?).
Qed.

Lemma parse_subjects_ok env raw subjects warnings :
  Forall (λ e, value_wf (raw_match e.2)) raw →
  parse_subjects env raw = Ok (subjects, warnings) →
  sorted subjects ∧
  ∀ name def, get subjects name = Some def →
    subject_name_ok name ∧ expression_ok env (subject_domain_of def) (match_ def).
Proof.
  intros Hwf H. unfold parse_subjects in H.
  destruct (for_each _ _ _) as [[[a subs] w] |] eqn:Hl; [| done]. simplify_eq.
  apply parse_subjects_loop in Hl as (_ & Hs & Hn & Hg); [| done]. split; [done |].
  intros name def Hd. split; [by eapply Hn |].
  apply Hg in Hd as (_ & _ & r & _ & _ & _ & _ & [Hdom _ _ He]). by rewrite Hdom.
Qed.

Lemma load_wf env json catalog_json policy_json l :
  load env json catalog_json policy_json = Ok l → policy_wf env (loaded_policy l).
Proof.
  intros (i & raw & subjects & cw & sw & rules & _ & Hd & _ & Hs & Hr & _ & ->)%load_parts.
  apply RawPolicy_deserialize_wf in Hd as [Hwf _].
  apply parse_subjects_ok in Hs as [Hsorted Hsub]; [| done].
  apply parse_rules_ok in Hr. by eapply build_resolved_wf.
Qed.
