(* ===== verification/Actor.v ===== *)
(** * Authenticated actors ([crates/basil-core/src/core/actor.rs])

    The transport's evidence about a peer is resolved to exactly one policy
    subject, or to an error that says why not.  SHA-256 and base64url encoding
    are parameters. *)

From S2P Require Import Prelude RustStr BTreeMap Glob Policy Evidence.

Inductive WorkloadIdentity :=
| SystemdIdentity (unit : string) (manager : option N).

Inductive ProofKind := ProcessCredentials | SystemdUnitProof | SignatureKey | ProviderJwt.

Record ProofSummary := {
  proof_kind : ProofKind;
  proof_subject : SubjectName;
  proof_fingerprint : option string;
}.

Record PresenterInfo := {
  presenter_pid : option N;
  presenter_uid : option N;
  presenter_gid : option N;
  presenter_executable : option string;
  presenter_label : option string;
}.

Inductive TransportKind := UnixSocket.

Record AuthenticatedActor := {
  actor_domain : AuthorizationDomain;
  actor_subject : SubjectName;
  actor_workload : option WorkloadIdentity;
  actor_proofs : list ProofSummary;
  actor_presenter : PresenterInfo;
  actor_transport : TransportKind;
}.

(** [PeerInfo] of [crates/basil-core/src/core/peer.rs]. *)
Record PeerInfo := {
  peer_pid : option N;
  peer_uid : option N;
  peer_gid : option N;
  peer_executable : option string;
  peer_attestation_class : string;
  peer_subject_id : option string;
  peer_signature_valid : bool;
  peer_display_label : option string;
}.

Definition PeerInfo_default : PeerInfo :=
  {| peer_pid := None; peer_uid := None; peer_gid := None; peer_executable := None;
     peer_attestation_class := "Unknown"; peer_subject_id := None;
     peer_signature_valid := false; peer_display_label := None |}.

Definition PresenterInfo_from (peer : PeerInfo) : PresenterInfo :=
  {| presenter_pid := peer_pid peer; presenter_uid := peer_uid peer;
     presenter_gid := peer_gid peer; presenter_executable := peer_executable peer;
     presenter_label := peer_display_label peer |}.

Definition unix_uid (actor : AuthenticatedActor) : option N :=
  presenter_uid (actor_presenter actor).

Inductive SubjectResolutionError :=
| MissingPeerCredentials
| ActorDomainUnavailable
| ActorNoSubject (d : AuthorizationDomain) (no_match_count : nat)
| ActorAmbiguousSubject (d : AuthorizationDomain) (names : list SubjectName) (total : nat)
    (truncated : bool) (no_match_count unavailable_count : nat)
| ActorEvidenceUnavailable (d : AuthorizationDomain) (names : list SubjectName)
    (truncated : bool) (matching_count no_match_count unavailable_count : nat).

Definition error_domain (e : SubjectResolutionError) : option AuthorizationDomain :=
  match e with
  | MissingPeerCredentials | ActorDomainUnavailable => None
  | ActorNoSubject d _ | ActorAmbiguousSubject d _ _ _ _ _
  | ActorEvidenceUnavailable d _ _ _ _ _ => Some d
  end.

Definition error_evidence_state (e : SubjectResolutionError) : EvidenceState :=
  match e with
  | ActorNoSubject _ _ => NoMatch
  | ActorAmbiguousSubject _ _ _ _ _ _ => Match
  | _ => Unavailable
  end.

Definition error_matching_subjects (e : SubjectResolutionError) : list SubjectName :=
  match e with
  | ActorAmbiguousSubject _ names _ _ _ _ | ActorEvidenceUnavailable _ names _ _ _ _ => names
  | _ => []
  end.

(** [(match, no-match, unavailable)]. *)
Definition error_subject_counts (e : SubjectResolutionError) : nat * nat * nat :=
  match e with
  | MissingPeerCredentials | ActorDomainUnavailable => (0, 0, 0)
  | ActorNoSubject _ n => (0, n, 0)
  | ActorAmbiguousSubject _ _ total _ n u => (total, n, u)
  | ActorEvidenceUnavailable _ _ _ m n u => (m, n, u)
  end.

Definition error_truncated (e : SubjectResolutionError) : bool :=
  match e with
  | ActorAmbiguousSubject _ _ _ t _ _ | ActorEvidenceUnavailable _ _ t _ _ _ => t
  | _ => false
  end.

Definition map_resolution_error (e : EvidenceResolutionError) : SubjectResolutionError :=
  match e with
  | DomainUnavailable => ActorDomainUnavailable
  | NoSubject r => ActorNoSubject (res_domain r) (res_no_match_count r)
  | AmbiguousSubject r =>
      ActorAmbiguousSubject (res_domain r) (res_matching_subjects r) (res_matching_count r)
        (res_truncated r) (res_no_match_count r) (res_unavailable_count r)
  | EvidenceUnavailable r =>
      ActorEvidenceUnavailable (res_domain r) (res_matching_subjects r) (res_truncated r)
        (res_matching_count r) (res_no_match_count r) (res_unavailable_count r)
  end.

Definition domain_proof (d : AuthorizationDomain) : ProofKind :=
  match d with
  | HostProcess => ProcessCredentials
  | SystemdUnitDomain => SystemdUnitProof
  end.

Definition workload_identity (ev : EvidenceSnapshot) (d : AuthorizationDomain)
    : option WorkloadIdentity :=
  match d with
  | HostProcess => None
  | SystemdUnitDomain =>
      match systemd ev with
      | Available s => Some (SystemdIdentity (unit_name s) (manager_user s))
      | NotAvailable => None
      end
  end.

(** The compatibility snapshot built from peer credentials alone. *)
Definition host_process_snapshot (config : Config) (peer : PeerInfo) (uid : N)
    : EvidenceSnapshot :=
  {| domain := Available HostProcess;
     process :=
       {| uids := Available (uniform uid);
          gids := match peer_gid peer with
                  | Some gid => Available (uniform gid)
                  | None => NotAvailable
                  end;
          supplementary_gids :=
            Available (match groups_of config uid with Some gs => gs | None => [] end);
          executable_digest := NotAvailable |};
     systemd := NotAvailable;
     invocation_signature_key := NotAvailable |}.

Section resolve.
Variable sha256 : list N → list N.
Variable url_safe_no_pad_encode : list N → string.

Definition signature_key_fingerprint (key : SignatureKeyEvidence) : string :=
  let algorithm :=
    match signature_algorithm key with SigEd25519 => "ed25519" | SigNatsNkey => "nats-nkey" end in
  "sha256:" +:+
  url_safe_no_pad_encode (sha256 (bytes algorithm ++ bytes ":" ++ bytes (signature_public key))).

Definition resolve_evidence_actor (policy : ResolvedPolicy) (ev : EvidenceSnapshot)
    (peer : PeerInfo) : result SubjectResolutionError AuthenticatedActor :=
  let? resolution := map_err map_resolution_error (resolve_subject (subjects policy) ev) in
  match res_subject resolution with
  | None => Err ActorDomainUnavailable
  | Some subject =>
      Ok {| actor_domain := res_domain resolution;
            actor_subject := subject;
            actor_workload := workload_identity ev (res_domain resolution);
            actor_proofs :=
              {| proof_kind := domain_proof (res_domain resolution);
                 proof_subject := subject; proof_fingerprint := None |} ::
              match invocation_signature_key ev with
              | Available key =>
                  [{| proof_kind := SignatureKey; proof_subject := subject;
                      proof_fingerprint := Some (signature_key_fingerprint key) |}]
              | NotAvailable => []
              end;
            actor_presenter := PresenterInfo_from peer;
            actor_transport := UnixSocket |}
  end.

Definition resolve_unix_actor (policy : ResolvedPolicy) (config : Config) (peer : PeerInfo)
    (uid : N) : result SubjectResolutionError AuthenticatedActor :=
  let ev := host_process_snapshot config peer uid in
  let? actor := resolve_evidence_actor policy ev peer in
  let p := actor_presenter actor in
  Ok {| actor_domain := actor_domain actor;
        actor_subject := actor_subject actor;
        actor_workload := actor_workload actor;
        actor_proofs := actor_proofs actor;
        actor_presenter :=
          {| presenter_pid := presenter_pid p; presenter_uid := presenter_uid p;
             presenter_gid := presenter_gid p;
             presenter_executable := presenter_executable p;
             presenter_label := Some (user_name_num config uid) |};
        actor_transport := actor_transport actor |}.

Definition resolve_local_actor (policy : ResolvedPolicy) (config : Config) (peer : PeerInfo)
    : result SubjectResolutionError AuthenticatedActor :=
  match peer_uid peer with
  | None => Err MissingPeerCredentials
  | Some uid => resolve_unix_actor policy config peer uid
  end.

(** ** Lemmas *)

(** A resolved actor names a registered subject of its own domain that the
    evidence matches. *)
Definition registered (policy : ResolvedPolicy) (actor : AuthenticatedActor) : Prop :=
  ∃ def, get (subjects policy) (actor_subject actor) = Some def ∧
         subject_domain_of def = actor_domain actor.

Lemma resolve_evidence_actor_subject policy ev peer actor :
  sorted (subjects policy) → resolve_evidence_actor policy ev peer = Ok actor →
  domain ev = Available (actor_domain actor) ∧
  subjects_in_state ev (actor_domain actor) Match (subjects policy) = [actor_subject actor] ∧
  subjects_in_state ev (actor_domain actor) Unavailable (subjects policy) = [] ∧
  actor_presenter actor = PresenterInfo_from peer.
Proof.
  intros Hs H. unfold resolve_evidence_actor in H.
  destruct (resolve_subject (subjects policy) ev) as [r |] eqn:Hr; [| done]. simpl in H.
  apply resolve_subject_ok in Hr as (d & name & Hd & Hm & Hu & ->). simpl in H.
  by simplify_eq/=.
Qed.

Lemma resolved_actor_match policy ev peer actor :
  sorted (subjects policy) → resolve_evidence_actor policy ev peer = Ok actor →
  ∃ def, get (subjects policy) (actor_subject actor) = Some def ∧
         subject_domain_of def = actor_domain actor ∧
         evaluate_for_resolution ev (match_ def) = Match.
Proof.
  intros Hs H. apply resolve_evidence_actor_subject in H as (_ & Hm & _); [| done].
  assert (Hin : actor_subject actor ∈
                subjects_in_state ev (actor_domain actor) Match (subjects policy))
    by (rewrite Hm; apply list_elem_of_here).
  apply subjects_in_state_elem in Hin as (def & Hin & Hd & He).
  exists def. split_and!; try done. by apply get_Some_elem.
Qed.

Lemma resolved_actor_registered policy ev peer actor :
  sorted (subjects policy) → resolve_evidence_actor policy ev peer = Ok actor →
  registered policy actor.
Proof.
  intros Hs H. destruct (resolved_actor_match _ _ _ _ Hs H) as (def & ? & ? & _). by exists def.
Qed.

(** The diagnostics of a failed resolution agree with each other. *)
Lemma resolve_evidence_actor_error policy ev peer e d :
  domain ev = Available d → resolve_evidence_actor policy ev peer = Err e →
  let M := subjects_in_state ev d Match (subjects policy) in
  let N := subjects_in_state ev d NoMatch (subjects policy) in
  let U := subjects_in_state ev d Unavailable (subjects policy) in
  error_domain e = Some d ∧ error_subject_counts e = (length M, length N, length U) ∧
  error_matching_subjects e = take MAX_REPORTED_SUBJECTS M ∧
  error_truncated e = (MAX_REPORTED_SUBJECTS <? length M)%nat ∧
  error_evidence_state e =
    (if (1 <? length M)%nat then Match
     else if (0 <? length U)%nat then Unavailable else NoMatch).
Proof.
  intros Hd H M N U. unfold resolve_evidence_actor, resolve_subject in H. rewrite Hd in H.
  rewrite resolve_fold in H by (simpl; unfold MAX_REPORTED_SUBJECTS; lia). simpl in H.
  fold M N U in H. clearbody M N U.
  destruct M as [| m [| m' M]], U as [| u U]; simpl in H; simplify_eq; by simpl.
Qed.
End resolve.
