(* ===== verification/Pdp.v ===== *)
(** * The policy decision point ([crates/basil-core/src/core/catalog/pdp.rs])

    [evaluate] is the one matcher behind [decide] and [explain]; the caps on
    Nix cache identities, on read-only keys and on credential issuers come
    before any grant.  The theorems compare it with [permitted], which states
    who may do what without an order of checks. *)

From S2P Require Import Prelude RustStr BTreeMap Glob Policy Evidence Nkey Schema Actor.

Record Pdp := {
  pdp_catalog : Catalog;
  pdp_policy : ResolvedPolicy;
  pdp_config : Config;
}.

Inductive AllowVia :=
| ViaSubject (subject : string)
| PublicClass.

Inductive DenyReason :=
| UnknownKey | NixCachePurposeBound | NotWritable | IssuerRawSign | NotPermitted.

Inductive Decision :=
| Allow (via : AllowVia)
| Deny (reason : DenyReason).

Definition is_allow (d : Decision) : bool :=
  match d with Allow _ => true | Deny _ => false end.

Definition is_deny (d : Decision) : bool :=
  match d with Deny _ => true | Allow _ => false end.

Record MatchedRule := {
  matched_rule_id : string;
  matched_via : AllowVia;
  matched_subject : string;
  matched_action : string;
  matched_target : string;
}.

Record Explanation := {
  decision : Decision;
  matched : option MatchedRule;
}.

Definition Explanation_deny (reason : DenyReason) : Explanation :=
  {| decision := Deny reason; matched := None |}.

Definition Explanation_allow (subject : string) (grant : Grant) : Explanation :=
  {| decision := Allow (ViaSubject subject);
     matched := Some {| matched_rule_id := grant_rule_id grant;
                        matched_via := ViaSubject subject;
                        matched_subject := subject;
                        matched_action := grant_action grant;
                        matched_target := KeyGlob_source (grant_target grant) |} |}.

Record EffectiveGrant := {
  effective_key : string;
  effective_op : Op;
  effective_via : AllowVia;
  effective_rule_id : option string;
}.

Definition ADMIN_RELOAD_TARGET : string := "broker.reload".
Definition ADMIN_EXPLAIN_TARGET : string := "broker.explain".
Definition ADMIN_REVOKE_TARGET : string := "broker.revoke".
Definition ADMIN_WATCH_TARGET : string := "broker.watch".
Definition ADMIN_CONNECTION_STATUS_TARGET : string := "broker.connections".
Definition ADMIN_CONNECTION_DROP_TARGET : string := "broker.connections.drop".

Definition admin_target (op : Op) : option string :=
  match op with
  | Reload => Some ADMIN_RELOAD_TARGET
  | Explain => Some ADMIN_EXPLAIN_TARGET
  | Revoke => Some ADMIN_REVOKE_TARGET
  | Watch => Some ADMIN_WATCH_TARGET
  | ConnectionStatus => Some ADMIN_CONNECTION_STATUS_TARGET
  | ConnectionDrop => Some ADMIN_CONNECTION_DROP_TARGET
  | _ => None
  end.

Definition is_public_read (op : Op) : bool :=
  match op with Get | GetPublicKey => true | _ => false end.

Definition nix_cache_op_allowed (st : NixCacheState) (op : Op) : bool :=
  match st with
  | Pending => match op with EnrollNixCacheKey => true | _ => false end
  | Enrolled => match op with EnrollNixCacheKey | SignNixCacheFingerprint => true | _ => false end
  end.

Definition matching_rule_subject (rule_subjects : list SubjectName) (subject : string)
    : option string :=
  List.find (λ s, String.eqb s subject) rule_subjects.

Definition grant_matches (op : Op) (key : string) (g : Grant) : bool :=
  Op_eqb (grant_op g) op && KeyGlob_matches (grant_target g) key.

Definition actor_is_registered (pdp : Pdp) (actor : AuthenticatedActor) : bool :=
  match get (subjects (pdp_policy pdp)) (actor_subject actor) with
  | Some definition => bool_decide (subject_domain_of definition = actor_domain actor)
  | None => false
  end.

(** The rule loop of [evaluate]: the first rule that lists the subject and has
    a matching grant. *)
Fixpoint first_grant (rules : list ResolvedRule) (subject : string) (op : Op) (key : string)
    : option (string * Grant) :=
  match rules with
  | [] => None
  | rule :: rest =>
      match matching_rule_subject (resolved_subjects rule) subject with
      | Some s =>
          match List.find (grant_matches op key) (resolved_grants rule) with
          | Some grant => Some (s, grant)
          | None => first_grant rest subject op key
          end
      | None => first_grant rest subject op key
      end
  end.

Definition evaluate_decision (pdp : Pdp) (actor : AuthenticatedActor) (op : Op) (key : string)
    : Explanation :=
  match get (keys_ (pdp_catalog pdp)) key with
  | None => Explanation_deny UnknownKey
  | Some entry =>
      if match nix_cache entry with
         | Some nix => negb (nix_cache_op_allowed (state nix) op)
         | None => false
         end
      then Explanation_deny NixCachePurposeBound
      else if is_write op && negb (writable entry) then Explanation_deny NotWritable
      else if Op_eqb op Sign && is_credential_issuer entry then Explanation_deny IssuerRawSign
      else if negb (actor_is_registered pdp actor) then Explanation_deny NotPermitted
      else
        match first_grant (rules (pdp_policy pdp)) (actor_subject actor) op key with
        | Some (subject, grant) => Explanation_allow subject grant
        | None =>
            if bool_decide (class entry = Public) && is_public_read op
            then {| decision := Allow PublicClass; matched := None |}
            else Explanation_deny NotPermitted
        end
  end.

Definition decide_key (pdp : Pdp) (actor : AuthenticatedActor) (op : Op) (key : string) : Decision :=
  decision (evaluate_decision pdp actor op key).

Definition explain (pdp : Pdp) (actor : AuthenticatedActor) (op : Op) (key : string)
    : Explanation := evaluate_decision pdp actor op key.

(** The rule loop of [decide_admin]. *)
Fixpoint first_admin_rule (rules : list ResolvedRule) (subject : string) (op : Op) (key : string)
    : option string :=
  match rules with
  | [] => None
  | rule :: rest =>
      match matching_rule_subject (resolved_subjects rule) subject with
      | Some s =>
          if existsb (grant_matches op key) (resolved_grants rule) then Some s
          else first_admin_rule rest subject op key
      | None => first_admin_rule rest subject op key
      end
  end.

Definition decide_admin (pdp : Pdp) (actor : AuthenticatedActor) (op : Op) : Decision :=
  match admin_target op with
  | None => Deny NotPermitted
  | Some key =>
      if negb (actor_is_registered pdp actor) then Deny NotPermitted
      else
        match first_admin_rule (rules (pdp_policy pdp)) (actor_subject actor) op key with
        | Some subject => Allow (ViaSubject subject)
        | None => Deny NotPermitted
        end
  end.

Definition evaluate_without_actor (pdp : Pdp) (op : Op) (key : string) : Explanation :=
  match get (keys_ (pdp_catalog pdp)) key with
  | None => Explanation_deny UnknownKey
  | Some entry =>
      if match nix_cache entry with
         | Some nix => negb (nix_cache_op_allowed (state nix) op)
         | None => false
         end
      then Explanation_deny NixCachePurposeBound
      else if is_write op && negb (writable entry) then Explanation_deny NotWritable
      else if Op_eqb op Sign && is_credential_issuer entry then Explanation_deny IssuerRawSign
      else Explanation_deny NotPermitted
  end.

Definition resolve_subject_actor (pdp : Pdp) (subject : string) : option AuthenticatedActor :=
  match get (subjects (pdp_policy pdp)) subject with
  | None => None
  | Some definition =>
      Some {| actor_domain := subject_domain_of definition;
              actor_subject := subject;
              actor_workload := None;
              actor_proofs := [];
              actor_presenter :=
                {| presenter_pid := None; presenter_uid := None; presenter_gid := None;
                   presenter_executable := None;
                   presenter_label := Some "policy-inspection" |};
              actor_transport := UnixSocket |}
  end.

Definition subject_domain (pdp : Pdp) (subject : string) : option AuthorizationDomain :=
  subject_domain_of <$> get (subjects (pdp_policy pdp)) subject.

Definition explain_subject (pdp : Pdp) (subject : string) (op : Op) (key : string) : Explanation :=
  match resolve_subject_actor pdp subject with
  | None => evaluate_without_actor pdp op key
  | Some actor => evaluate_decision pdp actor op key
  end.

(** One iteration of the inner loop of [effective]. *)
Definition effective_entry (pdp : Pdp) (actor : AuthenticatedActor) (key : string) (op : Op)
    : list EffectiveGrant :=
  let ex := explain pdp actor op key in
  match decision ex with
  | Allow via =>
      [{| effective_key := key; effective_op := op; effective_via := via;
          effective_rule_id := matched_rule_id <$> matched ex |}]
  | Deny _ => []
  end.

Definition effective_cmp (a b : EffectiveGrant) : comparison :=
  cmp (effective_key a, Op_token (effective_op a)) (effective_key b, Op_token (effective_op b)).

Definition effective (pdp : Pdp) (subject : string) : list EffectiveGrant :=
  match resolve_subject_actor pdp subject with
  | None => []
  | Some actor =>
      sort_by effective_cmp
        (flat_map (λ key, flat_map (effective_entry pdp actor key) ALL_OPS)
           (keys (keys_ (pdp_catalog pdp))))
  end.

Definition user_label (pdp : Pdp) (uid : N) : string := user_name_num (pdp_config pdp) uid.
Definition group_label (pdp : Pdp) (gid : N) : string := group_name_num (pdp_config pdp) gid.

(** ** Who may do what *)

Definition granted (policy : ResolvedPolicy) (subject : string) (op : Op) (key : string) : Prop :=
  ∃ r g, r ∈ rules policy ∧ subject ∈ resolved_subjects r ∧ g ∈ resolved_grants r ∧
         grant_matches op key g = true.

Definition within_caps (entry : KeyEntry) (op : Op) : Prop :=
  (∀ nix, nix_cache entry = Some nix → nix_cache_op_allowed (state nix) op = true) ∧
  (is_write op = true → writable entry = true) ∧
  (op = Sign → is_credential_issuer entry = false).

Definition permitted (pdp : Pdp) (actor : AuthenticatedActor) (op : Op) (key : string) : Prop :=
  ∃ entry, get (keys_ (pdp_catalog pdp)) key = Some entry ∧ within_caps entry op ∧
    registered (pdp_policy pdp) actor ∧
    (granted (pdp_policy pdp) (actor_subject actor) op key ∨
     class entry = Public ∧ is_public_read op = true).

(** ** Lemmas *)

Lemma matching_rule_subject_ok names subject s :
  matching_rule_subject names subject = Some s ↔ s = subject ∧ subject ∈ names.
Proof.
  unfold matching_rule_subject. split.
  - intros [Hin Heq]%find_elem. apply String.eqb_eq in Heq as ->. done.
  - intros [-> Hin]. destruct (List.find _ names) as [s |] eqn:Hf.
    + apply find_elem in Hf as [_ Heq]. apply String.eqb_eq in Heq. by subst.
    + rewrite find_none_elem in Hf. specialize (Hf _ Hin). by rewrite String.eqb_refl in Hf.
Qed.

Lemma matching_rule_subject_none names subject :
  matching_rule_subject names subject = None ↔ subject ∉ names.
Proof.
  destruct (matching_rule_subject names subject) as [s |] eqn:E.
  - apply matching_rule_subject_ok in E as [-> Hin]. by split.
  - split; [| done]. intros _ Hin.
    assert (matching_rule_subject names subject = Some subject)
      by (by apply matching_rule_subject_ok). congruence.
Qed.

(** The rule and the grant that decide, with everything before them passed
    over. *)
Definition deciding_grant (rs : list ResolvedRule) (subject : string) (op : Op) (key : string)
    (g : Grant) : Prop :=
  ∃ before r after g1 g2,
    rs = before ++ r :: after ∧ subject ∈ resolved_subjects r ∧
    resolved_grants r = g1 ++ g :: g2 ∧ grant_matches op key g = true ∧
    (∀ g', g' ∈ g1 → grant_matches op key g' = false) ∧
    (∀ r' g', r' ∈ before → subject ∈ resolved_subjects r' → g' ∈ resolved_grants r' →
       grant_matches op key g' = false).

Lemma deciding_grant_skip rs r subject op key g :
  (subject ∈ resolved_subjects r →
   ∀ g', g' ∈ resolved_grants r → grant_matches op key g' = false) →
  deciding_grant (r :: rs) subject op key g ↔ deciding_grant rs subject op key g.
Proof.
  intros Hskip. split.
  - intros (before & r' & after & g1 & g2 & Heq & Hs & Hg & Hm & Hg1 & Hb).
    destruct before as [| r0 before]; simplify_eq/=.
    + rewrite (Hskip Hs g) in Hm; [done |]. rewrite Hg. apply elem_of_app. right.
      apply list_elem_of_here.
    + exists before, r', after, g1, g2. split_and!; try done.
      intros r1 g' Hr1. apply Hb. by apply list_elem_of_further.
  - intros (before & r' & after & g1 & g2 & -> & Hs & Hg & Hm & Hg1 & Hb).
    exists (r :: before), r', after, g1, g2. split_and!; try done.
    intros r1 g' [-> | Hr1]%elem_of_cons; [intros ? ?; by apply Hskip | by apply Hb].
Qed.

Lemma first_grant_ok rs subject op key s g :
  first_grant rs subject op key = Some (s, g) ↔ s = subject ∧ deciding_grant rs subject op key g.
Proof.
  induction rs as [| r rs IH]; simpl.
  { split; [done |]. by intros [_ ([] & ? & ? & ? & ? & ? & _)]. }
  destruct (matching_rule_subject (resolved_subjects r) subject) as [s0 |] eqn:Hs.
  - apply matching_rule_subject_ok in Hs as [-> Hin].
    destruct (List.find (grant_matches op key) (resolved_grants r)) as [g0 |] eqn:Hf.
    + apply find_split in Hf as (g1 & g2 & Hg & Hm & Hg1). split.
      * intros [= <- <-]. split; [done |]. exists [], r, rs, g1, g2. split_and!; try done.
        by intros ? ? ?%not_elem_of_nil.
      * intros [-> (before & r' & after & h1 & h2 & Heq & Hs' & Hg' & Hm' & Hh1 & Hb)].
        destruct before as [| r0 before]; simplify_eq/=.
        -- f_equal. f_equal. assert (Hsome : List.find (grant_matches op key) (resolved_grants r') = Some g0)
             by (apply find_split; eauto).
           assert (Hsome' : List.find (grant_matches op key) (resolved_grants r') = Some g)
             by (apply find_split; eauto). congruence.
        -- rewrite (Hb r0 g0) in Hm; try done; [apply list_elem_of_here |].
           rewrite Hg. apply elem_of_app. right. apply list_elem_of_here.
    + rewrite find_none_elem in Hf. rewrite IH, deciding_grant_skip; [done |]. by intros _.
  - apply matching_rule_subject_none in Hs. rewrite IH, deciding_grant_skip; [done |].
    by intros ?%Hs.
Qed.

Lemma first_grant_granted policy subject op key :
  is_Some (first_grant (rules policy) subject op key) ↔ granted policy subject op key.
Proof.
  unfold granted. induction (rules policy) as [| r rs IH]; simpl.
  { split; [by intros [? ?] |]. by intros (? & ? & ?%not_elem_of_nil & _). }
  assert (Hskip : (∀ g, subject ∈ resolved_subjects r → g ∈ resolved_grants r →
                     grant_matches op key g = false) →
    (∃ r' g, r' ∈ r :: rs ∧ subject ∈ resolved_subjects r' ∧ g ∈ resolved_grants r' ∧
             grant_matches op key g = true) ↔
    (∃ r' g, r' ∈ rs ∧ subject ∈ resolved_subjects r' ∧ g ∈ resolved_grants r' ∧
             grant_matches op key g = true)).
  { intros Hno. split.
    - intros (r' & g & [-> | Hr]%elem_of_cons & Hs & Hg & Hm); [| eauto 6].
      by rewrite Hno in Hm.
    - intros (r' & g & Hr & H). exists r', g. split; [by apply list_elem_of_further | done]. }
  destruct (matching_rule_subject (resolved_subjects r) subject) as [s0 |] eqn:Hs.
  - apply matching_rule_subject_ok in Hs as [-> Hin].
    destruct (List.find (grant_matches op key) (resolved_grants r)) as [g0 |] eqn:Hf.
    + apply find_elem in Hf as [Hg Hm]. split; [| eauto]. intros _.
      exists r, g0. split_and!; try done. apply list_elem_of_here.
    + rewrite find_none_elem in Hf. rewrite IH, Hskip; [done |]. by intros g _; apply Hf.
  - apply matching_rule_subject_none in Hs. rewrite IH, Hskip; [done |]. by intros g ?%Hs.
Qed.

Lemma actor_is_registered_ok pdp actor :
  actor_is_registered pdp actor = true ↔ registered (pdp_policy pdp) actor.
Proof.
  unfold actor_is_registered, registered. destruct (get _ _) as [def |].
  - rewrite bool_decide_eq_true. split; [eauto | by intros (? & [= <-] & ?)].
  - split; [done | by intros (? & ? & _)].
Qed.

Lemma within_caps_ok entry op :
  within_caps entry op ↔
  match nix_cache entry with
  | Some nix => negb (nix_cache_op_allowed (state nix) op)
  | None => false
  end = false ∧ is_write op && negb (writable entry) = false ∧
  Op_eqb op Sign && is_credential_issuer entry = false.
Proof.
  unfold within_caps.
  assert (H1 : (∀ nix, nix_cache entry = Some nix → nix_cache_op_allowed (state nix) op = true) ↔
    match nix_cache entry with
    | Some nix => negb (nix_cache_op_allowed (state nix) op)
    | None => false
    end = false).
  { destruct (nix_cache entry) as [nix |]; [| by split]. rewrite negb_false_iff.
    split; [by intros H; apply H | by intros H ? [= <-]]. }
  assert (H2 : (is_write op = true → writable entry = true) ↔
               is_write op && negb (writable entry) = false).
  { destruct (is_write op), (writable entry); simpl; split; auto. intros H. by rewrite H. }
  assert (H3 : (op = Sign → is_credential_issuer entry = false) ↔
               Op_eqb op Sign && is_credential_issuer entry = false).
  { unfold Op_eqb. destruct (bool_decide (op = Sign)) eqn:E; bool_facts; simpl; [tauto |].
    split; [done | by intros _ ?]. }
  by rewrite H1, H2, H3.
Qed.

(** Past the caps the decision is registration, then grants, then the
    public-read rule. *)
Lemma evaluate_within_caps pdp actor op key entry :
  get (keys_ (pdp_catalog pdp)) key = Some entry → within_caps entry op →
  evaluate_decision pdp actor op key =
  if negb (actor_is_registered pdp actor) then Explanation_deny NotPermitted
  else match first_grant (rules (pdp_policy pdp)) (actor_subject actor) op key with
       | Some (subject, grant) => Explanation_allow subject grant
       | None =>
           if bool_decide (class entry = Public) && is_public_read op
           then {| decision := Allow PublicClass; matched := None |}
           else Explanation_deny NotPermitted
       end.
Proof.
  intros Hg (H1 & H2 & H3)%within_caps_ok. unfold evaluate_decision. by rewrite Hg, H1, H2, H3.
Qed.

Lemma not_within_caps_denies pdp actor op key entry :
  get (keys_ (pdp_catalog pdp)) key = Some entry → ¬ within_caps entry op →
  is_allow (decide_key pdp actor op key) = false ∧
  evaluate_decision pdp actor op key = evaluate_without_actor pdp op key.
Proof.
  intros Hg Hcaps. rewrite within_caps_ok in Hcaps.
  unfold decide_key, evaluate_decision, evaluate_without_actor. rewrite Hg.
  destruct (match nix_cache entry with Some _ => _ | None => _ end); [done |].
  destruct (is_write op && negb (writable entry)); [done |].
  destruct (Op_eqb op Sign && is_credential_issuer entry); [done |]. by destruct Hcaps.
Qed.

Lemma within_caps_dec entry op : within_caps entry op ∨ ¬ within_caps entry op.
Proof.
  rewrite within_caps_ok.
  destruct (match nix_cache entry with Some _ => _ | None => _ end),
    (is_write op && negb (writable entry)), (Op_eqb op Sign && is_credential_issuer entry);
    first [left; split_and!; reflexivity | right; intros (? & ? & ?); discriminate].
Qed.

Lemma matched_allows pdp actor op key m :
  matched (evaluate_decision pdp actor op key) = Some m →
  is_allow (decision (evaluate_decision pdp actor op key)) = true.
Proof.
  unfold evaluate_decision. destruct (get _ key) as [entry |]; [| done].
  destruct (match nix_cache entry with Some _ => _ | None => _ end); [done |].
  destruct (is_write op && negb (writable entry)); [done |].
  destruct (Op_eqb op Sign && is_credential_issuer entry); [done |].
  destruct (negb _); [done |]. destruct (first_grant _ _ _ _) as [[s g] |]; [done |].
  by destruct (bool_decide (class entry = Public) && is_public_read op).
Qed.

(** What an allow rests on. *)
Lemma decide_allow_cases pdp actor op key via :
  decide_key pdp actor op key = Allow via →
  ∃ entry, get (keys_ (pdp_catalog pdp)) key = Some entry ∧ within_caps entry op ∧
    registered (pdp_policy pdp) actor ∧
    (via = ViaSubject (actor_subject actor) ∧
       granted (pdp_policy pdp) (actor_subject actor) op key ∨
     via = PublicClass ∧ class entry = Public ∧ is_public_read op = true).
Proof.
  intros H. destruct (get (keys_ (pdp_catalog pdp)) key) as [entry |] eqn:Hg.
  2: { unfold decide_key, evaluate_decision in H. by rewrite Hg in H. }
  destruct (within_caps_dec entry op) as [Hcaps | Hcaps].
  2: { destruct (not_within_caps_denies pdp actor op key entry Hg Hcaps) as [Hd _].
       by rewrite H in Hd. }
  exists entry. unfold decide_key in H. rewrite (evaluate_within_caps _ _ _ _ _ Hg Hcaps) in H.
  destruct (actor_is_registered pdp actor) eqn:Hr; [| done].
  apply actor_is_registered_ok in Hr. split_and!; try done. simpl in H.
  destruct (first_grant _ _ _ _) as [[s g] |] eqn:Hf.
  - left. injection H as <-. pose proof Hf as [-> _]%first_grant_ok. split; [done |].
    apply first_grant_granted. eauto.
  - right. destruct (bool_decide (class entry = Public)) eqn:E, (is_public_read op); simpl in H;
      by simplify_eq; bool_facts.
Qed.

(** ** Properties *)

(** C8: a request is allowed exactly when it is permitted: the key is in the
    catalog, no hard cap forbids the operation on it, the actor's subject and
    domain are registered in this policy, and a grant of the subject matches or
    the operation reads a public key. *)
Theorem decide_permitted pdp actor op key :
  is_allow (decide_key pdp actor op key) = true ↔ permitted pdp actor op key.
Proof.
  unfold permitted. destruct (get (keys_ (pdp_catalog pdp)) key) as [entry |] eqn:Hg.
  2: { unfold decide_key, evaluate_decision. rewrite Hg. split; [done | by intros (? & ? & _)]. }
  destruct (within_caps_dec entry op) as [Hcaps | Hcaps].
  2: { destruct (not_within_caps_denies pdp actor op key entry Hg Hcaps) as [-> _].
       split; [done | by intros (? & [= <-] & ? & _)]. }
  unfold decide_key. rewrite (evaluate_within_caps _ _ _ _ _ Hg Hcaps).
  setoid_rewrite <- first_grant_granted. setoid_rewrite <- actor_is_registered_ok.
  destruct (actor_is_registered pdp actor); [| split; [done | by intros (? & _ & _ & ? & _)]].
  destruct (first_grant _ _ _ _) as [[s g] |]; simpl.
  { split; [| done]. intros _. exists entry. split_and!; eauto. }
  split.
  - intros H. exists entry. split_and!; try done. right.
    destruct (bool_decide (class entry = Public)) eqn:E, (is_public_read op); by bool_facts.
  - intros (e & [= <-] & _ & _ & [[? ?] | [Hc Hr]]); [done |].
    by rewrite bool_decide_eq_true_2, Hr.
Qed.

(** The cap that stops an operation on a key, whoever asks. *)
Definition first_cap (entry : KeyEntry) (op : Op) : option DenyReason :=
  match nix_cache entry with
  | Some nix =>
      match state nix, op with
      | _, EnrollNixCacheKey => if writable entry then None else Some NotWritable
      | Enrolled, SignNixCacheFingerprint => None
      | _, _ => Some NixCachePurposeBound
      end
  | None =>
      match op with
      | Set_ | Rotate | Import_ | NewKey | EnrollNixCacheKey =>
          if writable entry then None else Some NotWritable
      | Sign => if is_credential_issuer entry then Some IssuerRawSign else None
      | _ => None
      end
  end.

(** The hard caps cannot be granted away: a denial for any reason but the
    absence of a grant depends on the catalog and the operation alone, for
    every actor and policy: an unknown key, an operation a Nix identity does
    not offer in its state, a write to a key that is not writable, or a raw
    signature with a credential issuer. *)
Theorem decide_hard_caps pdp actor op key reason :
  decide_key pdp actor op key = Deny reason ∧ reason ≠ NotPermitted ↔
  match get (keys_ (pdp_catalog pdp)) key with
  | None => reason = UnknownKey
  | Some entry => first_cap entry op = Some reason
  end.
Proof.
  unfold decide_key, evaluate_decision, first_cap.
  destruct (get (keys_ (pdp_catalog pdp)) key) as [entry |].
  2: { simpl. split; [by intros [[= <-] _] | by intros ->]. }
  assert (Hgrants : ∀ e : Explanation,
    e = (if negb (actor_is_registered pdp actor) then Explanation_deny NotPermitted
         else match first_grant (rules (pdp_policy pdp)) (actor_subject actor) op key with
              | Some (subject, grant) => Explanation_allow subject grant
              | None => if bool_decide (class entry = Public) && is_public_read op
                        then {| decision := Allow PublicClass; matched := None |}
                        else Explanation_deny NotPermitted
              end) →
    decision e = Deny reason ∧ reason ≠ NotPermitted ↔ None = Some reason).
  { intros e ->. destruct (negb _); [split; [by intros [[= <-] ?] | done] |].
    destruct (first_grant _ _ _ _) as [[] |]; [split; [by intros [? _] | done] |].
    destruct (bool_decide _ && _); split; try done; [by intros [? _] | by intros [[= <-] ?]]. }
  assert (Hdeny : ∀ r, r ≠ NotPermitted →
    decision (Explanation_deny r) = Deny reason ∧ reason ≠ NotPermitted ↔ Some r = Some reason).
  { intros r Hr. simpl. split; [by intros [[= ->] _] | by intros [= <-]]. }
  destruct (nix_cache entry) as [nix |].
  - destruct (state nix), op; simpl; try (by apply Hdeny);
      try (destruct (writable entry); simpl; [by apply Hgrants | by apply Hdeny]);
      by apply Hgrants.
  - destruct op; simpl; try (by apply Hgrants);
      try (destruct (writable entry); simpl; [by apply Hgrants | by apply Hdeny]).
    destruct (is_credential_issuer entry); [by apply Hdeny | by apply Hgrants].
Qed.

(** An explanation that names a rule names the one that decided: the first
    rule, in declaration order, that lists the subject and has a matching
    grant, with the first such grant of it. *)
Theorem explain_names_deciding_rule pdp actor op key m :
  matched (explain pdp actor op key) = Some m ↔
  permitted pdp actor op key ∧
  ∃ g, deciding_grant (rules (pdp_policy pdp)) (actor_subject actor) op key g ∧
       m = {| matched_rule_id := grant_rule_id g;
              matched_via := ViaSubject (actor_subject actor);
              matched_subject := actor_subject actor;
              matched_action := grant_action g;
              matched_target := KeyGlob_source (grant_target g) |}.
Proof.
  unfold explain, permitted. destruct (get (keys_ (pdp_catalog pdp)) key) as [entry |] eqn:Hg.
  2: { unfold evaluate_decision. rewrite Hg. split; [done | by intros [(? & ? & _) _]]. }
  destruct (within_caps_dec entry op) as [Hcaps | Hcaps].
  2: { destruct (not_within_caps_denies pdp actor op key entry Hg Hcaps) as [Hd _].
       split.
       - intros H%matched_allows. unfold decide_key in Hd. congruence.
       - by intros [(? & [= <-] & ? & _) _]. }
  rewrite (evaluate_within_caps _ _ _ _ _ Hg Hcaps). setoid_rewrite <- actor_is_registered_ok.
  destruct (actor_is_registered pdp actor);
    [| split; [done | by intros [(? & _ & _ & ? & _) _]]].
  destruct (first_grant _ _ _ _) as [[s g] |] eqn:Hf; simpl.
  - apply first_grant_ok in Hf as [-> Hdec]. split.
    + intros [= <-]. split; [| by exists g]. exists entry. split_and!; try done. left.
      apply first_grant_granted. exists (actor_subject actor, g). by apply first_grant_ok.
    + intros [_ (g' & Hdec' & ->)].
      assert (H1 : first_grant (rules (pdp_policy pdp)) (actor_subject actor) op key =
                   Some (actor_subject actor, g)) by (by apply first_grant_ok).
      assert (H2 : first_grant (rules (pdp_policy pdp)) (actor_subject actor) op key =
                   Some (actor_subject actor, g')) by (by apply first_grant_ok).
      congruence.
  - split.
    + by destruct (bool_decide (class entry = Public) && is_public_read op).
    + intros [_ (g & Hdec & _)].
      assert (first_grant (rules (pdp_policy pdp)) (actor_subject actor) op key =
              Some (actor_subject actor, g)) by (by apply first_grant_ok). congruence.
Qed.

(** The offline dry run cannot diverge from enforcement: explaining a
    subject by name gives the explanation any live actor resolved to it gets,
    and a name that is not registered is never allowed anything. *)
Theorem explain_subject_is_enforcement pdp subject op key :
  match get (subjects (pdp_policy pdp)) subject with
  | Some def =>
      ∀ actor, actor_subject actor = subject → actor_domain actor = subject_domain_of def →
        explain_subject pdp subject op key = explain pdp actor op key
  | None =>
      is_allow (decision (explain_subject pdp subject op key)) = false ∧
      ∀ actor, actor_subject actor = subject →
        explain_subject pdp subject op key = explain pdp actor op key
  end.
Proof.
  unfold explain_subject, resolve_subject_actor, explain.
  destruct (get (subjects (pdp_policy pdp)) subject) as [def |] eqn:Hs.
  - intros actor Hsub Hdom. unfold evaluate_decision, actor_is_registered. simpl.
    rewrite Hsub, Hdom, Hs. done.
  - split.
    + unfold evaluate_without_actor. destruct (get _ key); [| done].
      repeat (match goal with |- context [if ?b then _ else _] => destruct b end; try done).
    + intros actor Hsub. unfold evaluate_without_actor, evaluate_decision, actor_is_registered.
      rewrite Hsub, Hs. done.
Qed.

Lemma first_admin_rule_ok rs subject op key s :
  first_admin_rule rs subject op key = Some s ↔
  s = subject ∧ ∃ r g, r ∈ rs ∧ subject ∈ resolved_subjects r ∧ g ∈ resolved_grants r ∧
                       grant_matches op key g = true.
Proof.
  assert (Hfirst : first_admin_rule rs subject op key = fst <$> first_grant rs subject op key).
  { induction rs as [| r rs IH]; simpl; [done |].
    destruct (matching_rule_subject _ _); [| done].
    pose proof (find_is_existsb (grant_matches op key) (resolved_grants r)) as Hfe.
    destruct (List.find _ _), (existsb _ _); try done.
    - assert (false = true) by (apply Hfe; eauto). done.
    - assert (is_Some (@None Grant)) as [? ?] by (by apply Hfe). done. }
  pose proof (first_grant_granted {| subjects := []; rules := rs |} subject op key) as Hgr.
  unfold granted in Hgr. simpl in Hgr. rewrite Hfirst, <- Hgr.
  destruct (first_grant rs subject op key) as [[s' g] |] eqn:Hf; simpl.
  - apply first_grant_ok in Hf as [-> _]. split; [by intros [= <-]; eauto | by intros [-> _]].
  - split; [done | by intros [_ [? ?]]].
Qed.

(** A broker-wide admin operation is allowed exactly when it has a reserved
    target, the actor is registered, and a grant of exactly that operation to
    the actor's subject covers the target; key-scoped operations are never
    decided this way. *)
Theorem decide_admin_spec pdp actor op via :
  decide_admin pdp actor op = Allow via ↔
  via = ViaSubject (actor_subject actor) ∧ registered (pdp_policy pdp) actor ∧
  ∃ target, admin_target op = Some target ∧
            granted (pdp_policy pdp) (actor_subject actor) op target.
Proof.
  unfold decide_admin, granted. destruct (admin_target op) as [target |].
  2: { split; [done | by intros (_ & _ & ? & ? & _)]. }
  rewrite <- actor_is_registered_ok.
  destruct (actor_is_registered pdp actor); simpl; [| split; [done | by intros (_ & ? & _)]].
  destruct (first_admin_rule _ _ _ _) as [s |] eqn:Hf.
  - apply first_admin_rule_ok in Hf as [-> Hgr].
    split; [by intros [= <-]; eauto | by intros [-> _]].
  - split; [done |]. intros (_ & _ & ? & [= <-] & Hgr).
    assert (first_admin_rule (rules (pdp_policy pdp)) (actor_subject actor) op target =
            Some (actor_subject actor)) by (by apply first_admin_rule_ok). congruence.
Qed.

(** [effective_cmp] is a total preorder, so the preview is sorted. *)
Lemma cmp_not_gt_trans {K} `{OrdLaws K} (a b c : K) : cmp a b ≠ Gt → cmp b c ≠ Gt → cmp a c ≠ Gt.
Proof.
  intros Hab Hbc. destruct (cmp a b) eqn:E1; [| | done].
  - by apply cmp_eq_iff in E1 as ->.
  - destruct (cmp b c) eqn:E2; [| | done].
    + apply cmp_eq_iff in E2 as <-. by rewrite E1.
    + by rewrite (cmp_lt_trans _ _ _ E1 E2).
Qed.

(** The effective-permissions preview of a subject lists exactly the
    key-scoped operations of [ALL_OPS] that enforcement allows it, each with
    the means and the rule of the decision, sorted by key and operation; an
    unregistered subject has none. *)
Theorem effective_exact pdp subject :
  (∀ e, e ∈ effective pdp subject ↔
     is_Some (get (subjects (pdp_policy pdp)) subject) ∧
     effective_key e ∈ keys (keys_ (pdp_catalog pdp)) ∧
     explicit_only (effective_op e) = false ∧
     let ex := explain_subject pdp subject (effective_op e) (effective_key e) in
     decision ex = Allow (effective_via e) ∧
     effective_rule_id e = matched_rule_id <$> matched ex) ∧
  Sorted.StronglySorted (λ a b, effective_cmp a b ≠ Gt) (effective pdp subject).
Proof.
  unfold effective, explain_subject. split.
  2: { destruct (resolve_subject_actor pdp subject) as [actor |]; [| constructor]. apply sort_by_sorted.
       - intros a b. unfold effective_cmp. rewrite cmp_gt_lt. by intros ->.
       - intros a b c. unfold effective_cmp. apply cmp_not_gt_trans. }
  intros e. unfold resolve_subject_actor.
  destruct (get (subjects (pdp_policy pdp)) subject) as [def |].
  2: { split; [by intros ?%not_elem_of_nil | by intros [[? ?] _]]. }
  set (actor := {| actor_domain := _ |}). rewrite sort_by_perm.
  rewrite list_elem_of_In, in_flat_map. setoid_rewrite in_flat_map.
  setoid_rewrite <- list_elem_of_In. setoid_rewrite ALL_OPS_spec. split.
  - intros (key & Hkey & op & Hop & He). unfold effective_entry in He.
    destruct (decision (explain pdp actor op key)) as [via |] eqn:Hd.
    2: { by apply not_elem_of_nil in He. }
    apply list_elem_of_singleton in He as ->. simpl. split_and!; eauto.
  - intros (_ & Hkey & Hop & Hd & Hid). exists (effective_key e). split; [done |].
    exists (effective_op e). split; [done |]. unfold effective_entry, explain.
    rewrite Hd, <- Hid. apply list_elem_of_singleton. by destruct e.
Qed.
