(* ===== verification/Authorization.v ===== *)
(** * From documents to decisions

    The pieces composed the way the broker composes them: a catalog and a
    policy are loaded, a peer's evidence is resolved to an actor against the
    loaded policy, and the actor's requests are decided.  The theorems trace
    an allowed request back to the text of the policy document. *)

From S2P Require Import Prelude RustStr BTreeMap Glob Policy Evidence Nkey Schema CatalogLoader.
From S2P Require Import Json Accounts SubjectLoader PolicyLoader Actor Pdp.

(** [Pdp::new] over the loader's result. *)
Definition pdp_of (l : Loaded) : Pdp :=
  {| pdp_catalog := loaded_catalog l; pdp_policy := loaded_policy l;
     pdp_config := loaded_config l |}.

(** ** A concrete broker

    One signing key, an operator allowed to sign with it, and a break-glass
    administrator whose role includes the admin operation [reload]. *)

Definition sample_key : KeyEntry :=
  {| class := Asymmetric; key_type := Some Ed25519; backend := "bao"; engine := None;
     path := "transit/keys/web"; public_path := None; writable := false;
     missing := MissingError; nix_cache := None; generate := None; sealing_pin := None;
     labels := []; description := "web signer" |}.

Definition sample_catalog : Catalog :=
  {| backends := [("bao", {| kind := Vault; addr := "https://bao"; engines := [Transit];
                             capabilities := []; mint_key_types := []; requires := [] |})];
     keys_ := [("web.tls", sample_key)] |}.

Definition sample_policy : PolicyInput :=
  {| in_subjects :=
       [("operator", {| in_domain := HostProcess; in_break_glass := false;
                        in_match := InMap [("process.uid", InU64 7)] |});
        ("admin", {| in_domain := HostProcess; in_break_glass := true;
                     in_match := InMap [("process.uid", InU64 8)] |})];
     in_roles := [("ops", [Sign; Reload])];
     in_rules :=
       [{| raw_id := "sign"; raw_rule_subjects := ["operator"]; raw_action := ["op:sign"];
           raw_target := ["web.**"]; raw_comment := None |};
        {| raw_id := "root"; raw_rule_subjects := ["admin"];
           raw_action := ["*"; "role:ops"; "op:use_software_custody"];
           raw_target := ["*"]; raw_comment := None |}];
     in_config := {| names := {| users := []; groups := [] |}; memberships := [] |} |}.

Definition sample_json : JsonParsers :=
  {| catalog_from_str := λ _, Ok sample_catalog;
     policy_from_str := λ _, Ok sample_policy;
     value_from_str := λ _, None |}.

Definition sample_load : result LoadError Loaded := load sample_env sample_json "c" "p".

Definition sample_actor (uid : N) (l : Loaded) : result SubjectResolutionError AuthenticatedActor :=
  resolve_evidence_actor (λ bs, bs) of_bytes (loaded_policy l) (uid_snapshot uid) PeerInfo_default.

(** ** Properties *)

(** C22: whatever the loader returns is safe to decide on: every catalog key
    meets the guardrails, every rule lists registered subjects, a grant whose
    target matches every key belongs to break-glass subjects only, no
    operation that needs an explicit grant comes from a [*] action, and every
    subject's expression is admissible in its domain. *)
Theorem load_policy_sound env json catalog_json policy_json l :
  load env json catalog_json policy_json = Ok l →
  policy_wf env (loaded_policy l) ∧
  ∀ name key, (name, key) ∈ keys_ (loaded_catalog l) → key_ok (loaded_catalog l) name key.
Proof.
  intros H. split; [by eapply load_wf |].
  apply load_parts in H as (i & raw & subs & cw & sw & rls & _ & _ & Hv & _).
  by eapply validate_catalog_keys.
Qed.

Lemma load_policy_sound_witness :
  ∃ l, sample_load = Ok l ∧ length (rules (loaded_policy l)) = 2 ∧
    policy_wf sample_env (loaded_policy l) ∧
    ∀ name key, (name, key) ∈ keys_ (loaded_catalog l) → key_ok (loaded_catalog l) name key.
Proof.
  destruct sample_load as [l | e] eqn:E; [| vm_compute in E; discriminate E].
  exists l. split; [reflexivity |]. split.
  - vm_compute in E. injection E as <-. reflexivity.
  - apply (load_policy_sound sample_env sample_json "c" "p"). exact E.
Defined.

(** A line of the policy document that lets [subject] do [op] on [key]. *)
Definition document_allows (i : PolicyInput) (def : SubjectDefinition) (subject : SubjectName)
    (op : Op) (key : string) : Prop :=
  ∃ raw term_text term pattern g,
    raw ∈ in_rules i ∧ subject ∈ raw_rule_subjects raw ∧
    term_text ∈ raw_action raw ∧ ActionTerm_parse term_text = Ok term ∧
    term_grants (of_entries (in_roles i)) op term = true ∧
    pattern ∈ raw_target raw ∧ KeyGlob_parse pattern = Ok g ∧
    KeyGlob_matches g key = true ∧ (matches_all g = true → break_glass def = true).

(** The grants of a loaded policy come from its document. *)
Lemma granted_document env json catalog_json policy_json l i subject def op key :
  load env json catalog_json policy_json = Ok l → policy_from_str json policy_json = Ok i →
  get (subjects (loaded_policy l)) subject = Some def →
  granted (loaded_policy l) subject op key → document_allows i def subject op key.
Proof.
  intros (i' & raw & subs & cw & sw & rls & Hi' & Hd & _ & _ & Hr & _ & Hp)%load_parts Hi Hsub.
  rewrite Hi in Hi'. injection Hi' as <-. rewrite Hp in *. simpl in Hsub.
  intros (r & g & Hin & Hs & Hg & Hm). simpl in Hin.
  apply list_elem_of_fmap in Hin as (rule & -> & Hrule).
  apply resolve_rule_grants in Hg as (_ & Ht & term & Hf & _).
  apply parse_rules_ok in Hr.
  destruct (Forall2_elem_r _ _ _ _ Hr Hrule) as (rw & Hrw & Hro).
  destruct (Forall2_elem_r _ _ _ _ (ro_target _ _ _ Hro) Ht) as (pattern & Hpat & Hpg).
  apply find_elem in Hf as [Hterm Hgr].
  destruct (Forall2_elem_r _ _ _ _ (ro_action _ _ _ Hro) Hterm) as (text & Htext & Hparse).
  apply andb_true_iff in Hm as [<-%Op_eqb_eq Hmatch].
  assert (Hroles : raw_roles raw = of_entries (in_roles i) ∧ raw_rules raw = in_rules i).
  { unfold RawPolicy_deserialize in Hd. inv_ok Hd. simpl.
    by apply deserialize_unique_btree_map_ok in E0 as [_ ->]. }
  destruct Hroles as [Hroles Hrules]. rewrite Hroles in Hgr. rewrite Hrules in Hrw.
  exists rw, text, term, pattern, (grant_target g).
  rewrite <- (ro_subjects _ _ _ Hro). split_and!; try done.
  intros Hall. pose proof (ro_break_glass _ _ _ Hro _ subject Ht Hall Hs) as Hbg.
  rewrite Hsub in Hbg. by injection Hbg.
Qed.

(** C2: every allowed request is accounted for, end to end.  If documents load,
    a peer's evidence resolves against the loaded policy and the decision point
    allows the request, then the key is a validated catalog entry that no cap
    closes; the evidence proves the actor's subject, in its domain, and no
    other subject of the domain; and either a rule of the policy document names
    the subject, an action that grants the operation and a glob that covers the
    key (with break-glass status if the glob covers every key), or the
    operation reads a public key. *)
Theorem authorization_sound env json catalog_json policy_json l i sha256 encode ev peer actor op
    key via :
  load env json catalog_json policy_json = Ok l → policy_from_str json policy_json = Ok i →
  resolve_evidence_actor sha256 encode (loaded_policy l) ev peer = Ok actor →
  decide_key (pdp_of l) actor op key = Allow via →
  ∃ entry def,
    (key, entry) ∈ keys_ (loaded_catalog l) ∧ key_ok (loaded_catalog l) key entry ∧
    within_caps entry op ∧
    get (subjects (loaded_policy l)) (actor_subject actor) = Some def ∧
    domain ev = Available (subject_domain_of def) ∧
    evaluate_for_resolution ev (match_ def) = Match ∧
    expression_ok env (subject_domain_of def) (match_ def) ∧
    (∀ other def', get (subjects (loaded_policy l)) other = Some def' →
       other ≠ actor_subject actor → subject_domain_of def' = subject_domain_of def →
       evaluate_for_resolution ev (match_ def') = NoMatch) ∧
    (via = ViaSubject (actor_subject actor) ∧
       document_allows i def (actor_subject actor) op key ∨
     via = PublicClass ∧ class entry = Public ∧ is_public_read op = true).
Proof.
  intros Hload Hi Hres Hdec. pose proof (load_wf _ _ _ _ _ Hload) as Hwf.
  pose proof (load_parts _ _ _ _ _ Hload) as (? & ? & ? & ? & ? & ? & _ & _ & Hcat & _).
  destruct (resolved_actor_match _ _ _ _ _ _ (pw_sorted _ _ Hwf) Hres)
    as (def & Hdef & Hdom & Hmatch).
  destruct (resolve_evidence_actor_subject _ _ _ _ _ _ (pw_sorted _ _ Hwf) Hres)
    as (Hd & Hm & Hu & _).
  apply decide_allow_cases in Hdec as (entry & Hentry & Hcaps & _ & Hvia).
  apply get_elem in Hentry. exists entry, def. split_and!; try done.
  - by eapply validate_catalog_keys.
  - by rewrite Hdom.
  - by apply (pw_expressions _ _ Hwf (actor_subject actor)).
  - intros other def' Hget Hne Hdd. rewrite Hdom in Hdd. apply get_elem in Hget.
    by eapply (only_match_rest ev (actor_domain actor) (subjects (loaded_policy l))).
  - destruct Hvia as [[-> Hgr] | ?]; [left | by right]. split; [done |].
    by eapply granted_document.
Qed.

Lemma authorization_sound_witness :
  ∃ l actor,
    sample_load = Ok l ∧ sample_actor 7 l = Ok actor ∧
    decide_key (pdp_of l) actor Sign "web.tls" = Allow (ViaSubject "operator") ∧
    ∃ entry def,
      ("web.tls", entry) ∈ keys_ (loaded_catalog l) ∧
      get (subjects (loaded_policy l)) "operator" = Some def ∧
      document_allows sample_policy def "operator" Sign "web.tls".
Proof.
  destruct sample_load as [l | e] eqn:E; [| vm_compute in E; discriminate E].
  exists l. destruct (sample_actor 7 l) as [actor | e] eqn:Ha;
    [| vm_compute in E; injection E as <-; vm_compute in Ha; discriminate Ha].
  exists actor. split; [reflexivity |]. split; [reflexivity |].
  assert (Hd : decide_key (pdp_of l) actor Sign "web.tls" = Allow (ViaSubject "operator"))
    by (vm_compute in E; injection E as <-; vm_compute in Ha; injection Ha as <-; reflexivity).
  assert (Hs : actor_subject actor = "operator")
    by (vm_compute in E; injection E as <-; vm_compute in Ha; injection Ha as <-; reflexivity).
  split; [exact Hd |].
  destruct (authorization_sound sample_env sample_json "c" "p" l sample_policy (λ bs, bs) of_bytes
              (uid_snapshot 7) PeerInfo_default actor Sign "web.tls" (ViaSubject "operator")
              E eq_refl Ha Hd)
    as (entry & def & H1 & _ & _ & H2 & _ & _ & _ & _ & [[_ H3] | [H3 _]]); [| discriminate H3].
  rewrite Hs in H2, H3. exists entry, def. split; [exact H1 |]. split; [exact H2 | exact H3].
Defined.

(** The effective-permissions preview is not the whole of what a subject
    may do with a key: an operation outside [ALL_OPS] can be granted and
    allowed, and the preview has no line for it. *)
Theorem effective_omits_explicit_ops :
  ∃ pdp subject op key,
    is_allow (decision (explain_subject pdp subject op key)) = true ∧
    admin_target op = None ∧
    ∀ e, e ∈ effective pdp subject → effective_op e ≠ op.
Proof.
  destruct sample_load as [l |] eqn:E; [| by vm_compute in E].
  exists (pdp_of l), "admin", UseSoftwareCustody, "web.tls". split_and!; [| done |].
  - vm_compute in E. injection E as <-. by vm_compute.
  - assert (H : forallb (λ e, negb (Op_eqb (effective_op e) UseSoftwareCustody))
                  (effective (pdp_of l) "admin") = true)
      by (vm_compute in E; injection E as <-; by vm_compute).
    intros e He Heq. rewrite forallb_elem in H. specialize (H e He).
    by rewrite Heq in H.
Qed.

(** [reload] does not need an [op:reload] action: a role whose operation
    set contains it grants it as well, through a rule whose action list never
    spells it. *)
Theorem reload_granted_by_role :
  ∃ l actor r g,
    sample_load = Ok l ∧ sample_actor 8 l = Ok actor ∧
    decide_admin (pdp_of l) actor Reload = Allow (ViaSubject "admin") ∧
    r ∈ rules (loaded_policy l) ∧ g ∈ resolved_grants r ∧
    grant_op g = Reload ∧ grant_action g = "role:ops".
Proof.
  destruct sample_load as [l |] eqn:E; [| by vm_compute in E].
  exists l. destruct (sample_actor 8 l) as [actor |] eqn:Ha;
    [| vm_compute in E; injection E as <-; by vm_compute in Ha].
  exists actor. vm_compute in E. injection E as <-. vm_compute in Ha. injection Ha as <-.
  eexists _, {| grant_op := Reload; grant_target := AnyKey; grant_rule_id := "root";
                grant_action := "role:ops" |}.
  split_and!; [reflexivity | reflexivity | by vm_compute | | | done | done].
  - simpl. apply list_elem_of_further, list_elem_of_here.
  - simpl. repeat first [apply list_elem_of_here | apply list_elem_of_further].
Qed.
