(* ===== verification/Decision.v ===== *)
(** * Decision records ([crates/basil-core/src/core/decision.rs])

    The record of one authorization decision that the audit trail keeps: what
    it says of the request, and that text from the client cannot forge or
    flood a log line. *)

From S2P Require Import Prelude RustStr BTreeMap Glob Policy Evidence Nkey Schema Actor Pdp.

Inductive Outcome := OutcomeAllow | OutcomeDeny.

Definition Outcome_as_str (o : Outcome) : string :=
  match o with OutcomeAllow => "allow" | OutcomeDeny => "deny" end.

Record DecisionRecord := {
  dr_generation : N;
  dr_op : Op;
  dr_key : string;
  dr_actor_kind : string;
  dr_actor_id : string;
  dr_authorization_domain : option string;
  dr_evidence_state : string;
  dr_authenticated_by : list string;
  dr_matching_subjects : list string;
  dr_matching_subject_count : nat;
  dr_no_match_subject_count : nat;
  dr_unavailable_subject_count : nat;
  dr_matching_subjects_truncated : bool;
  dr_presenter_kind : string;
  dr_presenter_id : string;
  dr_outcome : Outcome;
  dr_reason : string;
}.

Definition MAX_CHARS : nat := 256.

Definition TRUNCATION : list N := bytes "...[truncated]".

Definition sanitize_char (c : N) : list N := if is_control c then escape_default c else [c].

(** The loop stops at the character after the last one kept. *)
Definition sanitize_chars (cs : list N) : list N :=
  flat_map sanitize_char (take MAX_CHARS cs)
  ++ (if (MAX_CHARS <? length cs)%nat then TRUNCATION else []).

Definition sanitize_log_value (value : string) : string := of_chars (sanitize_chars (chars value)).

Definition proof_token (k : ProofKind) : string :=
  match k with
  | ProcessCredentials => "process-credentials"
  | SystemdUnitProof => "systemd-unit"
  | SignatureKey => "signature-key"
  | ProviderJwt => "provider-jwt"
  end.

Definition authenticated_by (actor : AuthenticatedActor) : list string :=
  map (λ p,
    let kind := proof_token (proof_kind p) in
    match proof_fingerprint p with
    | None => kind +:+ ":" +:+ proof_subject p
    | Some fingerprint => kind +:+ ":" +:+ proof_subject p +:+ ":" +:+ fingerprint
    end) (actor_proofs actor).

Definition uid_label (uid : option N) : string :=
  match uid with None => "unknown" | Some uid => "uid:" +:+ to_string uid end.

Definition presenter_kind (actor : AuthenticatedActor) : string :=
  match presenter_uid (actor_presenter actor) with Some _ => "unix_peercred" | None => "none" end.

Definition presenter_id (actor : AuthenticatedActor) : string :=
  match presenter_label (actor_presenter actor) with
  | Some label => label
  | None => uid_label (presenter_uid (actor_presenter actor))
  end.

Definition presenter_from_peer (peer : PeerInfo) : string * string :=
  (match peer_uid peer with Some _ => "unix_peercred" | None => "none" end,
   match peer_display_label peer with Some label => label | None => uid_label (peer_uid peer) end).

Definition allow_via_str (via : AllowVia) : string :=
  match via with ViaSubject subject => "subject:" +:+ subject | PublicClass => "public_class" end.

Definition deny_reason_str (r : DenyReason) : string :=
  match r with
  | UnknownKey => "unknown_key"
  | NixCachePurposeBound => "nix_cache_purpose_bound"
  | NotWritable => "not_writable"
  | IssuerRawSign => "issuer_raw_sign"
  | NotPermitted => "not_permitted"
  end.

Definition from_actor_decision (generation : N) (actor : AuthenticatedActor) (op : Op)
    (key : string) (d : Decision) : DecisionRecord :=
  let '(outcome, reason) :=
    match d with
    | Allow via => (OutcomeAllow, allow_via_str via)
    | Deny reason => (OutcomeDeny, deny_reason_str reason)
    end in
  {| dr_generation := generation; dr_op := op; dr_key := sanitize_log_value key;
     dr_actor_kind := "subject"; dr_actor_id := sanitize_log_value (actor_subject actor);
     dr_authorization_domain := Some (AuthorizationDomain_token (actor_domain actor));
     dr_evidence_state := EvidenceState_token Match; dr_authenticated_by := authenticated_by actor;
     dr_matching_subjects := []; dr_matching_subject_count := 1; dr_no_match_subject_count := 0;
     dr_unavailable_subject_count := 0; dr_matching_subjects_truncated := false;
     dr_presenter_kind := presenter_kind actor; dr_presenter_id := presenter_id actor;
     dr_outcome := outcome; dr_reason := reason |}.

(** [from_resolution_error], with the diagnostics that
    [from_subject_resolution_error] then overwrites. *)
Definition resolution_record (generation : N) (peer : PeerInfo) (op : Op) (key : string)
    (d : option AuthorizationDomain) (e : EvidenceState) (reason : string)
    (subjects : list string) (counts : nat * nat * nat) (truncated : bool) : DecisionRecord :=
  let '(kind, id) := presenter_from_peer peer in
  let '(matching, no_match, unavailable) := counts in
  {| dr_generation := generation; dr_op := op; dr_key := sanitize_log_value key;
     dr_actor_kind := "subject"; dr_actor_id := "unresolved";
     dr_authorization_domain := option_map AuthorizationDomain_token d;
     dr_evidence_state := EvidenceState_token e; dr_authenticated_by := [];
     dr_matching_subjects := subjects; dr_matching_subject_count := matching;
     dr_no_match_subject_count := no_match; dr_unavailable_subject_count := unavailable;
     dr_matching_subjects_truncated := truncated;
     dr_presenter_kind := kind; dr_presenter_id := id;
     dr_outcome := OutcomeDeny; dr_reason := sanitize_log_value reason |}.

Definition from_resolution_error (generation : N) (peer : PeerInfo) (op : Op) (key : string)
    (d : option AuthorizationDomain) (e : EvidenceState) (reason : string) : DecisionRecord :=
  resolution_record generation peer op key d e reason [] (0, 0, 0) false.

Definition from_subject_resolution_error (generation : N) (peer : PeerInfo) (op : Op)
    (key : string) (error : SubjectResolutionError) (reason : string) : DecisionRecord :=
  resolution_record generation peer op key (error_domain error) (error_evidence_state error)
    reason (map sanitize_log_value (error_matching_subjects error)) (error_subject_counts error)
    (error_truncated error).

Definition from_actor_evidence_denial (generation : N) (actor : AuthenticatedActor) (op : Op)
    (key : string) (e : EvidenceState) (reason : string) : DecisionRecord :=
  let r := from_actor_decision generation actor op key (Deny NotPermitted) in
  {| dr_generation := dr_generation r; dr_op := dr_op r; dr_key := dr_key r;
     dr_actor_kind := dr_actor_kind r; dr_actor_id := dr_actor_id r;
     dr_authorization_domain := dr_authorization_domain r;
     dr_evidence_state := EvidenceState_token e; dr_authenticated_by := dr_authenticated_by r;
     dr_matching_subjects := dr_matching_subjects r;
     dr_matching_subject_count := dr_matching_subject_count r;
     dr_no_match_subject_count := dr_no_match_subject_count r;
     dr_unavailable_subject_count := dr_unavailable_subject_count r;
     dr_matching_subjects_truncated := dr_matching_subjects_truncated r;
     dr_presenter_kind := dr_presenter_kind r; dr_presenter_id := dr_presenter_id r;
     dr_outcome := dr_outcome r; dr_reason := sanitize_log_value reason |}.

(** ** Properties *)

(** A character a text log prints on its own line position: neither a C0
    control, nor delete, nor a C1 control. *)
Definition printable (c : N) : Prop := is_control c = false.

Lemma hex_digit_printable n : (n < 16)%N → printable (hex_digit n).
Proof.
  unfold printable, is_control, hex_digit. intros. destruct (N.ltb_spec n 10);
    apply orb_false_iff; rewrite andb_false_iff, !N.ltb_ge, N.leb_gt; lia.
Qed.

Lemma hex_digits_printable fuel n acc :
  Forall printable acc → Forall printable (hex_digits fuel n acc).
Proof.
  revert n acc. induction fuel as [| fuel IH]; intros n acc Hacc; simpl; [done |].
  assert (Forall printable (hex_digit (N.land n 15) :: acc)).
  { constructor; [| done]. apply hex_digit_printable.
    change 15%N with (N.ones 4). rewrite N.land_ones. apply N.mod_lt. done. }
  case_match; [done | by apply IH].
Qed.

Lemma length_hex_digits fuel n acc : (length (hex_digits fuel n acc) <= fuel + length acc)%nat.
Proof.
  revert n acc. induction fuel as [| fuel IH]; intros n acc; simpl; [lia |].
  case_match; simpl; [lia |]. etransitivity; [apply IH |]. simpl. lia.
Qed.

Lemma sanitize_char_printable c : Forall printable (sanitize_char c).
Proof.
  unfold sanitize_char. destruct (is_control c) eqn:E; [| by repeat constructor].
  unfold escape_default.
  repeat (case_match; [by repeat constructor |]).
  destruct (_ || _) eqn:Eq.
  { repeat (apply orb_true_iff in Eq as [Eq | Eq]); apply N.eqb_eq in Eq as ->; by repeat constructor. }
  destruct ((32 <=? c)%N && _) eqn:Er.
  { exfalso. apply andb_true_iff in Er as [?%N.leb_le ?%N.leb_le].
    unfold is_control in E. apply orb_true_iff in E as [?%N.ltb_lt | E]; [lia |].
    apply andb_true_iff in E as [?%N.leb_le _]. lia. }
  apply Forall_app; split; [by repeat constructor |]. apply Forall_app; split; [| by repeat constructor].
  by apply hex_digits_printable.
Qed.

Lemma length_sanitize_char c : (length (sanitize_char c) <= 10)%nat.
Proof.
  unfold sanitize_char, escape_default. pose proof (length_hex_digits 6 c []) as Hh.
  generalize dependent (hex_digits 6 c []). intros h Hh. simpl length in Hh.
  repeat case_match; rewrite ?length_app; simpl; lia.
Qed.

(** What a client supplies cannot forge or flood an audit line.  Every
    character of a sanitised value is printable, whatever the value, it has a
    bounded length, and values of printable characters up to 256 are recorded
    unchanged. *)
Theorem sanitize_log_value_safe cs :
  Forall printable (sanitize_chars cs) ∧ (length (sanitize_chars cs) <= 2574)%nat ∧
  (Forall printable cs → (length cs <= 256)%nat → sanitize_chars cs = cs).
Proof.
  unfold sanitize_chars. split_and!.
  - apply Forall_app; split; [| case_match; by repeat constructor].
    induction (take MAX_CHARS cs); simpl; [done |].
    apply Forall_app; split; [apply sanitize_char_printable | done].
  - rewrite length_app.
    assert (∀ l, length (flat_map sanitize_char l) <= 10 * length l)%nat as Hl.
    { induction l as [| c l IH]; simpl; [lia |]. rewrite length_app.
      pose proof (length_sanitize_char c). lia. }
    specialize (Hl (take MAX_CHARS cs)). rewrite length_take in Hl. unfold MAX_CHARS in *.
    case_match; simpl; lia.
  - intros Hp Hl. rewrite take_ge by done.
    destruct (Nat.ltb_spec MAX_CHARS (length cs)) as [H |]; [unfold MAX_CHARS in H; lia |].
    rewrite app_nil_r. clear Hl. induction Hp as [| c l Hc Hp IH]; cbn [flat_map]; [done |].
    rewrite IH by (simpl in *; lia). unfold sanitize_char. by rewrite Hc.
Qed.

(** A record reports the decision it was made from. *)
Lemma from_actor_decision_outcome g actor op key d :
  dr_outcome (from_actor_decision g actor op key d) = OutcomeAllow ↔ is_allow d = true.
Proof. by destruct d. Qed.
