(* ===== verification/Challenge.v ===== *)
(** * Single-use freshness challenges ([crates/basil-core/src/core/challenge.rs])

    The broker's challenge table: bounded issuance under three token buckets,
    exactly-once consumption, and lazy cleanup of expired records.

    Rust's [HashMap] is stdpp's [gmap]; its unspecified iteration order, which
    eviction depends on, is the class [HashIteration].  Byte arrays are lists
    of byte values.  The system CSPRNG and the allocator are inputs of an
    operation ([Entropy], [Alloc]); [blake3] is a parameter.  Times are [i64]
    and tokens [u32], as [Z] with Rust's saturating operations. *)

From stdpp Require Import gmap.
From S2P Require Import Prelude RustStr Bytes.

Definition EXPIRY_CLEANUP_LIMIT : nat := 64.
Definition SOURCE_PARTITION_DOMAIN : bytes_ :=
  bytes "basil.challenge-source-partition.v1" ++ [0%N].
Definition CHALLENGE_LEN : nat := 32.
Definition INSTANCE_ID_LEN : nat := 16.
Definition CHALLENGE_SUFFIX_LEN : nat := CHALLENGE_LEN - INSTANCE_ID_LEN.
Definition MAX_CHALLENGE_TTL_SECS : Z := 60.
Definition MAX_OUTSTANDING_PER_JKT : nat := 8.
Definition DEFAULT_GLOBAL_CAPACITY : nat := Z.to_nat 16384.

(** The iteration order of a hash map: some enumeration of its entries. *)
Class HashIteration := {
  hash_iter : ∀ {K V} `{Countable K}, gmap K V → list (K * V);
  hash_iter_perm : ∀ {K V} `{Countable K} (m : gmap K V), hash_iter m ≡ₚ map_to_list m;
}.

#[export] Instance map_to_list_iteration : HashIteration :=
  {| hash_iter := λ K V _ _ m, map_to_list m; hash_iter_perm := λ K V _ _ m, reflexivity _ |}.

(** ** Source partitions *)

Section partition.
Variable blake3 : bytes_ → bytes_.

Definition length_prefixed (value : bytes_) : bytes_ :=
  to_be_bytes 8 (N.min (N.of_nat (length value)) (2 ^ 64 - 1)) ++ value.

(** The bytes fed to the hasher, in order. *)
Definition partition_preimage (kind : N) (listener_name : string) (uid : N)
    (source : option string) : bytes_ :=
  SOURCE_PARTITION_DOMAIN ++ [kind] ++ length_prefixed (bytes listener_name) ++
  to_be_bytes 4 uid ++
  match source with
  | Some source => [1%N] ++ length_prefixed (bytes source)
  | None => [0%N]
  end.

Definition derive (kind : N) (listener_name : string) (uid : N) (source : option string)
    : bytes_ := blake3 (partition_preimage kind listener_name uid source).

Definition host (listener_name : string) (uid : N) : bytes_ := derive 0 listener_name uid None.
Definition courier (listener_name : string) (uid : N) (source : string) : bytes_ :=
  derive 2 listener_name uid (Some source).
End partition.

(** ** Token buckets *)

Record TokenBucketConfig := {
  burst : Z;
  refill_per_sec : Z;
}.

Record TokenBucket := {
  tokens : Z;
  last_refill_unix : Z;
}.

Definition TokenBucket_new (config : TokenBucketConfig) (now : Z) : TokenBucket :=
  {| tokens := burst config; last_refill_unix := now |}.

Definition refill (b : TokenBucket) (config : TokenBucketConfig) (now : Z) : TokenBucket :=
  if (now <? last_refill_unix b)%Z then {| tokens := tokens b; last_refill_unix := now |}
  else
    let elapsed := i64_saturating_sub now (last_refill_unix b) in
    if (elapsed =? 0)%Z then b
    else
      let amount := u32_saturating_mul (u32_try_from_or_max elapsed) (refill_per_sec config) in
      {| tokens := Z.min (u32_saturating_add (tokens b) amount) (burst config);
         last_refill_unix := now |}.

(** Whether a token was taken, and the bucket afterwards. *)
Definition try_take (b : TokenBucket) (config : TokenBucketConfig) (now : Z)
    : bool * TokenBucket :=
  let b := refill b config now in
  match u32_checked_sub (tokens b) 1 with
  | Some rest => (true, {| tokens := rest; last_refill_unix := last_refill_unix b |})
  | None => (false, b)
  end.

Definition is_idle (b : TokenBucket) (config : TokenBucketConfig) (now : Z) : bool :=
  (burst config <=? tokens (refill b config now))%Z.

(** ** The table *)

Record ChallengeTableConfig := {
  global_capacity : nat;
  per_jkt_capacity : nat;
  ttl_secs : Z;
  global_rate : TokenBucketConfig;
  per_jkt_rate : TokenBucketConfig;
  per_source_rate : TokenBucketConfig;
  tracked_partitions : nat;
}.

Definition ChallengeTableConfig_default : ChallengeTableConfig :=
  {| global_capacity := DEFAULT_GLOBAL_CAPACITY;
     per_jkt_capacity := MAX_OUTSTANDING_PER_JKT;
     ttl_secs := MAX_CHALLENGE_TTL_SECS;
     global_rate := {| burst := 512; refill_per_sec := 128 |};
     per_jkt_rate := {| burst := 8; refill_per_sec := 4 |};
     per_source_rate := {| burst := 64; refill_per_sec := 16 |};
     tracked_partitions := DEFAULT_GLOBAL_CAPACITY |}.

Record ChallengeRecord := {
  record_jkt : bytes_;
  record_generation : N;
  expires_at_unix : Z;
}.

Record IssuedChallenge := {
  issued_challenge : bytes_;
  issued_expires_at_unix : Z;
}.

Inductive IssueDecline := RateLimited | CapacityExhausted | EntropyUnavailable.

Inductive ConsumeDenied := Unknown | ForeignInstance | JktMismatch | GenerationMismatch | Expired.

Record ChallengeTable := {
  config : ChallengeTableConfig;
  instance_id : option bytes_;
  records : gmap bytes_ ChallengeRecord;
  outstanding_per_jkt : gmap bytes_ nat;
  global_bucket : TokenBucket;
  jkt_buckets : gmap bytes_ TokenBucket;
  source_buckets : gmap bytes_ TokenBucket;
  expiry_queue : list (bytes_ * Z);
}.

(** What the CSPRNG returns to one operation: an instance id and up to four
    suffixes. *)
Record Entropy := {
  draw_instance : option bytes_;
  draw_suffix : nat → option bytes_;
}.

(** Whether the [i]-th [try_reserve] of an operation succeeds. *)
Definition Alloc : Type := nat → bool.

Definition with_config (c : ChallengeTableConfig) (id : option bytes_) : ChallengeTable :=
  let c := {| global_capacity := Nat.max (global_capacity c) 1;
              per_jkt_capacity := Nat.max 1 (Nat.min MAX_OUTSTANDING_PER_JKT (per_jkt_capacity c));
              ttl_secs := clamp_to 1 MAX_CHALLENGE_TTL_SECS (ttl_secs c);
              global_rate := global_rate c;
              per_jkt_rate := per_jkt_rate c;
              per_source_rate := per_source_rate c;
              tracked_partitions := Nat.max (tracked_partitions c) 1 |} in
  {| config := c; instance_id := id; records := ∅; outstanding_per_jkt := ∅;
     global_bucket := TokenBucket_new (global_rate c) 0;
     jkt_buckets := ∅; source_buckets := ∅; expiry_queue := [] |}.

Definition outstanding (t : ChallengeTable) : nat := size (records t).

(** The table with other records, counts and queue. *)
Definition set_records (t : ChallengeTable) (rs : gmap bytes_ ChallengeRecord)
    (counts : gmap bytes_ nat) (q : list (bytes_ * Z)) : ChallengeTable :=
  {| config := config t; instance_id := instance_id t; records := rs;
     outstanding_per_jkt := counts; global_bucket := global_bucket t;
     jkt_buckets := jkt_buckets t; source_buckets := source_buckets t; expiry_queue := q |}.

Definition remove_record (t : ChallengeTable) (suffix : bytes_) : ChallengeTable :=
  match records t !! suffix with
  | None => t
  | Some record =>
      let rs := delete suffix (records t) in
      match outstanding_per_jkt t !! record_jkt record with
      | None => set_records t rs (outstanding_per_jkt t) (expiry_queue t)
      | Some count =>
          let count := count - 1 in
          set_records t rs
            (if (count =? 0)%nat then delete (record_jkt record) (outstanding_per_jkt t)
             else <[record_jkt record := count]> (outstanding_per_jkt t))
            (expiry_queue t)
      end
  end.

(** One iteration of the loop of [purge_expired]. *)
Definition purge_one (now : Z) (t : ChallengeTable) : ChallengeTable :=
  match expiry_queue t with
  | [] => t
  | (suffix, queued_expiry) :: q =>
      let t := set_records t (records t) (outstanding_per_jkt t) q in
      match records t !! suffix with
      | Some record =>
          if (expires_at_unix record =? queued_expiry)%Z then
            if (expires_at_unix record <? now)%Z then remove_record t suffix
            else set_records t (records t) (outstanding_per_jkt t) (q ++ [(suffix, queued_expiry)])
          else t
      | None => t
      end
  end.

Definition purge_expired (t : ChallengeTable) (now : Z) : ChallengeTable :=
  Nat.iter (Nat.min (length (expiry_queue t)) EXPIRY_CLEANUP_LIMIT) (purge_one now) t.

(** ** Partition debits *)

Inductive PartitionDebit (K : Type) :=
| Update (key : K) (bucket : TokenBucket)
| Insert (key : K) (bucket : TokenBucket) (evict : option K).
Arguments Update {K} key bucket.
Arguments Insert {K} key bucket evict.

Section debits.
Context {K : Type} `{Countable K} `{HashIteration}.

Definition is_growing (d : PartitionDebit K) : bool :=
  match d with Insert _ _ None => true | _ => false end.

Definition commit (d : PartitionDebit K) (buckets : gmap K TokenBucket) : gmap K TokenBucket :=
  match d with
  | Update key bucket => <[key := bucket]> buckets
  | Insert key bucket evict =>
      <[key := bucket]> (match evict with Some k => delete k buckets | None => buckets end)
  end.

(** [buckets.iter().find_map(..)]: some idle partition. *)
Definition find_idle (buckets : gmap K TokenBucket) (cfg : TokenBucketConfig) (now : Z)
    : option K :=
  fst <$> List.find (λ e, is_idle e.2 cfg now) (hash_iter buckets).

Definition plan_partition_token (buckets : gmap K TokenBucket) (key : K)
    (cfg : TokenBucketConfig) (tracked : nat) (now : Z) : option (PartitionDebit K) :=
  match buckets !! key with
  | Some bucket =>
      let '(taken, bucket) := try_take bucket cfg now in
      if taken : bool then Some (Update key bucket) else None
  | None =>
      let full := (tracked <=? size buckets)%nat in
      let evict := if full then find_idle buckets cfg now else None in
      if full && match evict with None => true | Some _ => false end then None
      else
        let '(taken, bucket) := try_take (TokenBucket_new cfg now) cfg now in
        if taken : bool then Some (Insert key bucket evict) else None
  end.
End debits.

(** ** Issuing and consuming *)

(** The [for _ in 0..4] loop; [i] counts the draws made. *)
Fixpoint unused_suffix_from (fuel i : nat) (rs : gmap bytes_ ChallengeRecord) (e : Entropy)
    : option bytes_ :=
  match fuel with
  | O => None
  | S fuel' =>
      match draw_suffix e i with
      | None => None
      | Some suffix =>
          match rs !! suffix with
          | None => Some suffix
          | Some _ => unused_suffix_from fuel' (S i) rs e
          end
      end
  end.

Definition unused_suffix (t : ChallengeTable) (e : Entropy) : option bytes_ :=
  unused_suffix_from 4 0 (records t) e.

(** Reserving memory either fails or changes nothing the table can observe. *)
Definition reserve_issue_maps (t : ChallengeTable) (jkt : bytes_)
    (source_debit jkt_debit : PartitionDebit bytes_) (alloc : Alloc) : result IssueDecline unit :=
  return_err CapacityExhausted when negb (alloc 0) otherwise
  return_err CapacityExhausted when negb (alloc 1) otherwise
  return_err CapacityExhausted
    when match outstanding_per_jkt t !! jkt with None => negb (alloc 2) | Some _ => false end
  otherwise
  return_err CapacityExhausted when is_growing source_debit && negb (alloc 3) otherwise
  return_err CapacityExhausted when is_growing jkt_debit && negb (alloc 4) otherwise
  Ok tt.

Section operations.
Context `{HashIteration}.

(** Everything [issue] decides before it changes the table: the instance id,
    the debited buckets and the suffix. *)
Definition plan_issue (t : ChallengeTable) (jkt source : bytes_) (now : Z) (e : Entropy)
    (alloc : Alloc)
    : result IssueDecline
        (bytes_ * TokenBucket * PartitionDebit bytes_ * PartitionDebit bytes_ * bytes_) :=
  let c := config t in
  let? id := ok_or EntropyUnavailable
               (match instance_id t with Some id => Some id | None => draw_instance e end) in
  return_err CapacityExhausted when (global_capacity c <=? size (records t))%nat otherwise
  return_err CapacityExhausted
    when (per_jkt_capacity c <=? default 0 (outstanding_per_jkt t !! jkt))%nat otherwise
  let '(taken, global) := try_take (global_bucket t) (global_rate c) now in
  return_err RateLimited when negb taken otherwise
  let? source_debit := ok_or RateLimited
    (plan_partition_token (source_buckets t) source (per_source_rate c) (tracked_partitions c) now) in
  let? jkt_debit := ok_or RateLimited
    (plan_partition_token (jkt_buckets t) jkt (per_jkt_rate c) (tracked_partitions c) now) in
  let? suffix := ok_or EntropyUnavailable (unused_suffix t e) in
  let? _ := reserve_issue_maps t jkt source_debit jkt_debit alloc in
  Ok (id, global, source_debit, jkt_debit, suffix).

Definition issue (t : ChallengeTable) (jkt source : bytes_) (generation : N) (now : Z)
    (e : Entropy) (alloc : Alloc) : ChallengeTable * result IssueDecline IssuedChallenge :=
  let t := purge_expired t now in
  match plan_issue t jkt source now e alloc with
  | Err d => (t, Err d)
  | Ok (id, global, source_debit, jkt_debit, suffix) =>
      let expires := i64_saturating_add now (ttl_secs (config t)) in
      ({| config := config t;
          instance_id := Some id;
          records :=
            <[suffix := {| record_jkt := jkt; record_generation := generation;
                           expires_at_unix := expires |}]> (records t);
          outstanding_per_jkt :=
            <[jkt := default 0 (outstanding_per_jkt t !! jkt) + 1]> (outstanding_per_jkt t);
          global_bucket := global;
          jkt_buckets := commit jkt_debit (jkt_buckets t);
          source_buckets := commit source_debit (source_buckets t);
          expiry_queue := expiry_queue t ++ [(suffix, expires)] |},
       Ok {| issued_challenge := id ++ suffix; issued_expires_at_unix := expires |})
  end.
End operations.

Definition consume (t : ChallengeTable) (challenge jkt : bytes_) (generation : N) (now : Z)
    : ChallengeTable * result ConsumeDenied unit :=
  if (length challenge <? INSTANCE_ID_LEN)%nat then (t, Err Unknown)
  else
    let prefix := take INSTANCE_ID_LEN challenge in
    let suffix := drop INSTANCE_ID_LEN challenge in
    if negb (length suffix =? CHALLENGE_SUFFIX_LEN)%nat then (t, Err Unknown)
    else if negb (bool_decide (instance_id t = Some prefix)) then (t, Err ForeignInstance)
    else
      match records t !! suffix with
      | None => (t, Err Unknown)
      | Some record =>
          if (expires_at_unix record <? now)%Z then (remove_record t suffix, Err Expired)
          else if negb (bool_decide (record_jkt record = jkt)) then (t, Err JktMismatch)
          else if negb (record_generation record =? generation)%N
          then (remove_record t suffix, Err GenerationMismatch)
          else (remove_record t suffix, Ok tt)
      end.

(** ** The table invariant *)

(** Records bound to one proof key. *)
Definition jkt_count (rs : gmap bytes_ ChallengeRecord) (jkt : bytes_) : nat :=
  size (filter (λ e : bytes_ * ChallengeRecord, record_jkt e.2 = jkt) rs).

Record table_wf (t : ChallengeTable) : Prop := {
  wf_capacity : size (records t) ≤ global_capacity (config t);
  wf_counts : ∀ jkt, default 0 (outstanding_per_jkt t !! jkt) = jkt_count (records t) jkt;
  wf_no_zero : ∀ jkt, outstanding_per_jkt t !! jkt ≠ Some 0;
  wf_per_jkt : ∀ jkt, jkt_count (records t) jkt ≤ per_jkt_capacity (config t);
  wf_queue : ∀ s r, records t !! s = Some r → (s, expires_at_unix r) ∈ expiry_queue t;
  wf_jkt_tracked : size (jkt_buckets t) ≤ tracked_partitions (config t);
  wf_source_tracked : size (source_buckets t) ≤ tracked_partitions (config t);
  wf_suffix : ∀ s r, records t !! s = Some r → length s = CHALLENGE_SUFFIX_LEN;
  wf_instance : ∀ id, instance_id t = Some id → length id = INSTANCE_ID_LEN;
  wf_issued : ∀ s r, records t !! s = Some r → is_Some (instance_id t);
}.

Definition entropy_ok (e : Entropy) : Prop :=
  (∀ id, draw_instance e = Some id → length id = INSTANCE_ID_LEN) ∧
  (∀ i s, draw_suffix e i = Some s → length s = CHALLENGE_SUFFIX_LEN).

Lemma jkt_count_insert rs s r jkt :
  rs !! s = None →
  jkt_count (<[s := r]> rs) jkt = jkt_count rs jkt + (if decide (record_jkt r = jkt) then 1 else 0).
Proof.
  intros Hs. unfold jkt_count. rewrite map_filter_insert. simpl. case_decide as Hr.
  - rewrite map_size_insert_None; [lia |]. apply map_lookup_filter_None. by left.
  - rewrite delete_id by done. lia.
Qed.

Lemma jkt_count_delete rs s r jkt :
  rs !! s = Some r →
  jkt_count rs jkt = jkt_count (delete s rs) jkt + (if decide (record_jkt r = jkt) then 1 else 0).
Proof.
  intros Hs. rewrite <- (insert_delete_id rs s r Hs) at 1.
  apply jkt_count_insert, lookup_delete_eq.
Qed.

Lemma remove_record_fields t s :
  records (remove_record t s) = delete s (records t) ∧
  expiry_queue (remove_record t s) = expiry_queue t ∧
  config (remove_record t s) = config t ∧ instance_id (remove_record t s) = instance_id t ∧
  global_bucket (remove_record t s) = global_bucket t ∧
  jkt_buckets (remove_record t s) = jkt_buckets t ∧
  source_buckets (remove_record t s) = source_buckets t.
Proof.
  unfold remove_record. destruct (records t !! s) as [r |] eqn:Hs.
  - by destruct (outstanding_per_jkt t !! record_jkt r).
  - by rewrite delete_id.
Qed.

(** The counts stay exact when a record goes. *)
Lemma remove_record_counts t s :
  (∀ jkt, default 0 (outstanding_per_jkt t !! jkt) = jkt_count (records t) jkt) →
  (∀ jkt, outstanding_per_jkt t !! jkt ≠ Some 0) →
  (∀ jkt, default 0 (outstanding_per_jkt (remove_record t s) !! jkt) =
          jkt_count (delete s (records t)) jkt) ∧
  (∀ jkt, outstanding_per_jkt (remove_record t s) !! jkt ≠ Some 0).
Proof.
  intros Hc Hz. unfold remove_record. destruct (records t !! s) as [r |] eqn:Hs.
  2: { by rewrite delete_id. }
  assert (Hcount : ∀ jkt, default 0 (outstanding_per_jkt t !! jkt) =
    jkt_count (delete s (records t)) jkt + (if decide (record_jkt r = jkt) then 1 else 0)).
  { intros jkt. rewrite Hc. by apply jkt_count_delete. }
  destruct (outstanding_per_jkt t !! record_jkt r) as [n |] eqn:Hn; simpl.
  2: { specialize (Hcount (record_jkt r)). rewrite Hn in Hcount. simpl in Hcount.
       case_decide; [lia | done]. }
  destruct (n - 1 =? 0)%nat eqn:E; bool_facts; split; intros jkt;
    destruct (decide (record_jkt r = jkt)) as [<- | Hne];
    rewrite ?lookup_delete_eq, ?lookup_insert_eq, ?lookup_delete_ne, ?lookup_insert_ne by done;
    simpl; try done; specialize (Hcount jkt) || specialize (Hcount (record_jkt r));
    rewrite ?Hn in Hcount; simpl in Hcount; case_decide; try done; try lia.
  all: intros ?; simplify_eq; lia.
Qed.

Lemma remove_record_wf t s : table_wf t → table_wf (remove_record t s).
Proof.
  intros [H1 H2 H3 H4 H5 H6 H7 H8 H9 H10].
  destruct (remove_record_counts t s H2 H3) as [Hc Hz].
  destruct (remove_record_fields t s) as (Hr & Hq & Hcfg & Hid & _ & Hj & Hso).
  assert (Hsub : ∀ s' r, delete s (records t) !! s' = Some r → records t !! s' = Some r).
  { by intros s' r [_ ?]%lookup_delete_Some. }
  split; rewrite ?Hr, ?Hq, ?Hcfg, ?Hid, ?Hj, ?Hso; eauto.
  - etrans; [apply map_subseteq_size, delete_subseteq | done].
  - intros jkt. specialize (H4 jkt). destruct (records t !! s) as [r |] eqn:Hs.
    + rewrite (jkt_count_delete _ _ _ jkt Hs) in H4. lia.
    + by rewrite delete_id.
Qed.

Lemma purge_one_wf now t : table_wf t → table_wf (purge_one now t).
Proof.
  intros Hwf. unfold purge_one. destruct (expiry_queue t) as [| [s q] rest] eqn:Hq; [done |].
  assert (Hpop : ∀ s' r, records t !! s' = Some r → (s', expires_at_unix r) ≠ (s, q) →
                   (s', expires_at_unix r) ∈ rest).
  { intros s' r Hr Hne. pose proof (wf_queue t Hwf s' r Hr) as Hin. rewrite Hq in Hin.
    by apply elem_of_cons in Hin as [? | ?]. }
  assert (Hset : ∀ q', (∀ s' r, records t !! s' = Some r → (s', expires_at_unix r) ∈ q') →
                   table_wf (set_records t (records t) (outstanding_per_jkt t) q')).
  { intros q' Hq'. destruct Hwf. by split. }
  simpl. destruct (records t !! s) as [r |] eqn:Hs.
  - destruct (expires_at_unix r =? q)%Z eqn:Heq; bool_facts.
    + destruct (expires_at_unix r <? now)%Z eqn:Hlt.
      * (* the popped entry is the record's own *)
        assert (Hwf' : table_wf (remove_record t s)) by by apply remove_record_wf.
        destruct (remove_record_fields t s) as (Hr & _).
        destruct (remove_record_fields (set_records t (records t) (outstanding_per_jkt t) rest) s)
          as (Hr' & Hq' & Hcfg & Hid & _ & Hj & Hso).
        destruct (remove_record_counts (set_records t (records t) (outstanding_per_jkt t) rest) s)
          as [Hc Hz]; [apply Hwf | apply Hwf |].
        destruct Hwf' as [W1 W2 W3 W4 W5 W6 W7 W8 W9 W10].
        rewrite Hr in W1, W4, W5, W8, W10.
        destruct (remove_record_fields t s) as (_ & _ & Hcfg2 & Hid2 & _ & Hj2 & Hso2).
        rewrite ?Hcfg2, ?Hid2, ?Hj2, ?Hso2 in *.
        split; rewrite ?Hr', ?Hq', ?Hcfg, ?Hid, ?Hj, ?Hso; simpl; eauto.
        intros s' r' [Hne Hr1]%lookup_delete_Some. apply Hpop; [done | congruence].
      * apply Hset. intros s' r' Hr'. apply elem_of_app.
        destruct (decide ((s', expires_at_unix r') = (s, q))) as [-> | Hne].
        -- right. apply list_elem_of_here.
        -- left. by apply Hpop.
    + apply Hset. intros s' r' Hr'. apply Hpop; [done |]. intros [= -> <-]. by simplify_eq.
  - apply Hset. intros s' r' Hr'. apply Hpop; [done |]. intros [= -> <-]. by simplify_eq.
Qed.

Lemma purge_expired_wf now t : table_wf t → table_wf (purge_expired t now).
Proof.
  intros Hwf. unfold purge_expired. apply Nat.iter_invariant; [| done].
  intros ?. apply purge_one_wf.
Qed.

(** Cleanup touches nothing but records that have expired. *)
Record purged (now : Z) (t t' : ChallengeTable) : Prop := {
  purged_config : config t' = config t;
  purged_instance : instance_id t' = instance_id t;
  purged_global : global_bucket t' = global_bucket t;
  purged_jkt : jkt_buckets t' = jkt_buckets t;
  purged_source : source_buckets t' = source_buckets t;
  purged_sub : ∀ s r, records t' !! s = Some r → records t !! s = Some r;
  purged_keep : ∀ s r, records t !! s = Some r → (now ≤ expires_at_unix r)%Z →
    records t' !! s = Some r;
}.

Lemma purged_refl now t : purged now t t.
Proof. by split. Qed.

Lemma purged_trans now t1 t2 t3 : purged now t1 t2 → purged now t2 t3 → purged now t1 t3.
Proof.
  intros [A1 A2 A3 A4 A5 A6 A7] [B1 B2 B3 B4 B5 B6 B7]. split; try congruence; auto.
Qed.

Lemma purge_one_purged now t : purged now t (purge_one now t).
Proof.
  unfold purge_one. destruct (expiry_queue t) as [| [s q] rest]; [apply purged_refl |].
  simpl. destruct (records t !! s) as [r |] eqn:Hs; [| by split].
  destruct (expires_at_unix r =? q)%Z; [| by split].
  destruct (expires_at_unix r <? now)%Z eqn:Hlt; [| by split]. bool_facts.
  destruct (remove_record_fields (set_records t (records t) (outstanding_per_jkt t) rest) s)
    as (Hr & _ & Hcfg & Hid & Hg & Hj & Hso).
  split; try done; rewrite Hr; simpl.
  - by intros s' r' [_ ?]%lookup_delete_Some.
  - intros s' r' Hr' Hle. apply lookup_delete_Some. split; [| done].
    intros ->. simplify_eq. lia.
Qed.

Lemma purge_expired_purged now t : purged now t (purge_expired t now).
Proof.
  unfold purge_expired. apply Nat.iter_invariant; [| apply purged_refl].
  intros t' Ht'. eapply purged_trans; [exact Ht' | apply purge_one_purged].
Qed.

(** ** Debits *)

Section debit_lemmas.
Context {K : Type} `{Countable K} `{HashIteration}.

Lemma find_idle_ok (buckets : gmap K TokenBucket) cfg now k :
  find_idle buckets cfg now = Some k →
  ∃ b, buckets !! k = Some b ∧ is_idle b cfg now = true.
Proof.
  unfold find_idle. destruct (List.find _ _) as [[k' b] |] eqn:Hf; simpl; [| done].
  intros [= ->]. apply find_elem in Hf as [Hin Hidle]. exists b. split; [| done].
  rewrite hash_iter_perm in Hin. by apply elem_of_map_to_list.
Qed.

(** What a planned debit says about the map it was planned on. *)
Lemma plan_partition_token_ok (buckets : gmap K TokenBucket) key cfg tracked now d :
  plan_partition_token buckets key cfg tracked now = Some d →
  ∃ b, try_take (default (TokenBucket_new cfg now) (buckets !! key)) cfg now = (true, b) ∧
    match d with
    | Update k b' => k = key ∧ b' = b ∧ is_Some (buckets !! key)
    | Insert k b' evict => k = key ∧ b' = b ∧ buckets !! key = None ∧
        match evict with
        | None => size buckets < tracked
        | Some v => ∃ bv, buckets !! v = Some bv ∧ is_idle bv cfg now = true
        end
    end.
Proof.
  unfold plan_partition_token. destruct (buckets !! key) as [b0 |] eqn:Hk; simpl.
  - destruct (try_take b0 cfg now) as [[] b]; [| done]. intros [= <-]. eauto 6.
  - destruct (tracked <=? size buckets)%nat eqn:Hfull; bool_facts; simpl.
    + destruct (find_idle buckets cfg now) as [v |] eqn:Hv; [| done].
      destruct (try_take _ cfg now) as [[] b]; [| done]. intros [= <-].
      exists b. split_and!; try done. by apply find_idle_ok.
    + destruct (try_take _ cfg now) as [[] b]; [| done]. intros [= <-].
      exists b. by split_and!.
Qed.

Lemma commit_size (buckets : gmap K TokenBucket) key cfg tracked now d :
  plan_partition_token buckets key cfg tracked now = Some d →
  size buckets ≤ tracked → size (commit d buckets) ≤ tracked.
Proof.
  intros (b & _ & Hd)%plan_partition_token_ok Hsize. destruct d as [k b' | k b' evict]; simpl.
  - destruct Hd as (-> & _ & Hb0). by rewrite map_size_insert_Some.
  - destruct Hd as (-> & _ & Hnone & He). destruct evict as [v |].
    + destruct He as (bv & Hv & _).
      rewrite map_size_insert_None by (apply lookup_delete_None; by right).
      rewrite map_size_delete, Hv. destruct (size buckets) eqn:E; [| lia].
      apply map_size_empty_inv in E. by rewrite E, lookup_empty in Hv.
    + rewrite map_size_insert_None by done. lia.
Qed.

Lemma commit_lookup_ne (buckets : gmap K TokenBucket) key cfg tracked now d k :
  plan_partition_token buckets key cfg tracked now = Some d → k ≠ key →
  commit d buckets !! k = buckets !! k ∨
  commit d buckets !! k = None ∧ ∃ b, buckets !! k = Some b ∧ is_idle b cfg now = true.
Proof.
  intros (b & _ & Hd)%plan_partition_token_ok Hne.
  destruct d as [k' b' | k' b' [v |]]; simpl; destruct Hd as (-> & _ & Hd);
    rewrite lookup_insert_ne by done; [by left | | by left].
  destruct Hd as (_ & bv & Hv & Hidle). destruct (decide (v = k)) as [-> | Hvk].
  - right. rewrite lookup_delete_eq. eauto.
  - left. by rewrite lookup_delete_ne.
Qed.

Lemma commit_lookup_eq (buckets : gmap K TokenBucket) key cfg tracked now d :
  plan_partition_token buckets key cfg tracked now = Some d →
  ∃ b, try_take (default (TokenBucket_new cfg now) (buckets !! key)) cfg now = (true, b) ∧
       commit d buckets !! key = Some b.
Proof.
  intros (b & Ht & Hd)%plan_partition_token_ok. exists b. split; [done |].
  destruct d; destruct Hd as (-> & -> & _); simpl; by rewrite lookup_insert_eq.
Qed.
End debit_lemmas.

Lemma unused_suffix_ok fuel i rs e s :
  unused_suffix_from fuel i rs e = Some s → rs !! s = None ∧ ∃ j, draw_suffix e j = Some s.
Proof.
  revert i; induction fuel as [| fuel IH]; intros i; simpl; [done |].
  destruct (draw_suffix e i) as [s' |] eqn:Hd; [| done].
  destruct (rs !! s') eqn:Hs; [apply IH |]. intros [= <-]. eauto.
Qed.

(** ** Sequences of operations

    The table sits behind one mutex, so a history is a sequence of whole
    operations. *)

Inductive Event :=
| EIssue (jkt source : bytes_) (generation : N) (now : Z) (e : Entropy) (alloc : Alloc)
| EConsume (challenge jkt : bytes_) (generation : N) (now : Z).

Inductive Outcome :=
| Issued (r : result IssueDecline IssuedChallenge)
| Consumed (r : result ConsumeDenied unit).

Definition event_time (ev : Event) : Z :=
  match ev with EIssue _ _ _ now _ _ => now | EConsume _ _ _ now => now end.

Definition event_ok (ev : Event) : Prop :=
  match ev with EIssue _ _ _ _ e _ => entropy_ok e | EConsume _ _ _ _ => True end.

Section runs.
Context `{HashIteration}.

Definition step (t : ChallengeTable) (ev : Event) : ChallengeTable * Outcome :=
  match ev with
  | EIssue jkt source generation now e alloc =>
      let '(t', r) := issue t jkt source generation now e alloc in (t', Issued r)
  | EConsume challenge jkt generation now =>
      let '(t', r) := consume t challenge jkt generation now in (t', Consumed r)
  end.

Fixpoint run (t : ChallengeTable) (evs : list Event) : ChallengeTable * list Outcome :=
  match evs with
  | [] => (t, [])
  | ev :: evs' =>
      let '(t', o) := step t ev in
      let '(t'', os) := run t' evs' in
      (t'', o :: os)
  end.

(** *** Issuing *)

Record issue_plan (t : ChallengeTable) (jkt source : bytes_) (now : Z) (e : Entropy)
    (id : bytes_) (global : TokenBucket) (sd jd : PartitionDebit bytes_) (s : bytes_) : Prop := {
  ip_id : instance_id t = Some id ∨ instance_id t = None ∧ draw_instance e = Some id;
  ip_capacity : size (records t) < global_capacity (config t);
  ip_per_jkt : default 0 (outstanding_per_jkt t !! jkt) < per_jkt_capacity (config t);
  ip_global : try_take (global_bucket t) (global_rate (config t)) now = (true, global);
  ip_source : plan_partition_token (source_buckets t) source (per_source_rate (config t))
                (tracked_partitions (config t)) now = Some sd;
  ip_jkt : plan_partition_token (jkt_buckets t) jkt (per_jkt_rate (config t))
             (tracked_partitions (config t)) now = Some jd;
  ip_fresh : records t !! s = None;
  ip_drawn : ∃ j, draw_suffix e j = Some s;
}.

Lemma plan_issue_ok t jkt source now e alloc id global sd jd s :
  plan_issue t jkt source now e alloc = Ok (id, global, sd, jd, s) →
  issue_plan t jkt source now e id global sd jd s.
Proof.
  unfold plan_issue, ok_or. intros Hp.
  destruct (match instance_id t with Some _ => _ | None => _ end) as [id' |] eqn:Hid; [| done].
  inv_ok_step Hp. inv_ok_step Hp. bool_facts.
  destruct (try_take (global_bucket t) (global_rate (config t)) now) as [[] g] eqn:Hg; [| done].
  simpl in Hp.
  destruct (plan_partition_token (source_buckets t) _ _ _ _) as [sd' |] eqn:Hsd; [| done].
  destruct (plan_partition_token (jkt_buckets t) _ _ _ _) as [jd' |] eqn:Hjd; [| done].
  destruct (unused_suffix t e) as [s' |] eqn:Hs; [| done].
  destruct (reserve_issue_maps _ _ _ _ _); [| done]. simplify_eq.
  apply unused_suffix_ok in Hs as [Hf Hdr].
  split; try done. destruct (instance_id t); simplify_eq; auto.
Qed.

(** The two ways an issuance ends. *)
Lemma issue_cases t jkt source generation now e alloc t' r :
  issue t jkt source generation now e alloc = (t', r) →
  let t0 := purge_expired t now in
  (∃ d, r = Err d ∧ t' = t0) ∨
  ∃ id global sd jd s,
    issue_plan t0 jkt source now e id global sd jd s ∧
    r = Ok {| issued_challenge := id ++ s;
              issued_expires_at_unix := i64_saturating_add now (ttl_secs (config t0)) |} ∧
    config t' = config t0 ∧ instance_id t' = Some id ∧
    records t' = <[s := {| record_jkt := jkt; record_generation := generation;
                           expires_at_unix := i64_saturating_add now (ttl_secs (config t0)) |}]>
                   (records t0) ∧
    outstanding_per_jkt t' =
      <[jkt := default 0 (outstanding_per_jkt t0 !! jkt) + 1]> (outstanding_per_jkt t0) ∧
    global_bucket t' = global ∧
    jkt_buckets t' = commit jd (jkt_buckets t0) ∧
    source_buckets t' = commit sd (source_buckets t0) ∧
    expiry_queue t' =
      expiry_queue t0 ++ [(s, i64_saturating_add now (ttl_secs (config t0)))].
Proof.
  unfold issue. destruct (plan_issue _ _ _ _ _ _) as [[[[[id g] sd] jd] s] | d] eqn:Hp;
    intros Heq; injection Heq as <- <-.
  - right. exists id, g, sd, jd, s. apply plan_issue_ok in Hp. by split_and!.
  - left. eauto.
Qed.

Lemma issue_wf t jkt source generation now e alloc t' r :
  table_wf t → entropy_ok e → issue t jkt source generation now e alloc = (t', r) → table_wf t'.
Proof.
  intros Hwf [He1 He2] Hi. apply issue_cases in Hi.
  pose proof (purge_expired_wf now t Hwf) as Hwf0. revert Hi Hwf0.
  generalize (purge_expired t now) as t0. clear Hwf t. intros t Hi Hwf.
  destruct Hi as [(d & _ & ->) | (id & g & sd & jd & s & Hp & _ & Hcfg & Hid & Hr & Ho & _ & Hj & Hs & Hq)];
    [done |].
  destruct Hp as [P1 P2 P3 _ P5 P6 P7 [j P8]], Hwf as [W1 W2 W3 W4 W5 W6 W7 W8 W9 W10].
  assert (Hlen : length id = INSTANCE_ID_LEN) by (destruct P1 as [? | [_ ?]]; auto).
  split; rewrite ?Hcfg, ?Hid, ?Hr, ?Ho, ?Hj, ?Hs, ?Hq.
  - rewrite map_size_insert_None by done. lia.
  - intros jkt'. rewrite jkt_count_insert by done. simpl. destruct (decide (jkt = jkt')) as [-> | Hne].
    + rewrite lookup_insert_eq. simpl. by rewrite W2.
    + rewrite lookup_insert_ne by done. rewrite W2. lia.
  - intros jkt'. destruct (decide (jkt = jkt')) as [-> | Hne].
    + rewrite lookup_insert_eq. intros [= ?]. lia.
    + by rewrite lookup_insert_ne.
  - intros jkt'. rewrite jkt_count_insert by done. simpl. case_decide as Hd; [subst |].
    + rewrite W2 in P3. lia.
    + rewrite Nat.add_0_r. apply W4.
  - intros s' r' [[<- <-] | [Hne Hr']]%lookup_insert_Some; apply elem_of_app.
    + right. apply list_elem_of_here.
    + left. by apply W5.
  - by eapply commit_size.
  - by eapply commit_size.
  - intros s' r' [[<- <-] | [Hne Hr']]%lookup_insert_Some; [by eapply He2 | by eapply W8].
  - by intros ? [= <-].
  - eauto.
Qed.

(** *** Consuming *)

(** A consumption that reaches a record either leaves the table alone or
    removes that record. *)
Lemma consume_cases t challenge jkt generation now t' r :
  consume t challenge jkt generation now = (t', r) →
  (t' = t ∧ ∃ d, r = Err d ∧ (d = Unknown ∨ d = ForeignInstance ∨ d = JktMismatch)) ∨
  ∃ id s rec, challenge = id ++ s ∧ length id = INSTANCE_ID_LEN ∧ instance_id t = Some id ∧
    records t !! s = Some rec ∧ t' = remove_record t s ∧
    (r = Err Expired ∧ (expires_at_unix rec < now)%Z ∨
     (now ≤ expires_at_unix rec)%Z ∧ record_jkt rec = jkt ∧
     (r = Err GenerationMismatch ∧ record_generation rec ≠ generation ∨
      r = Ok tt ∧ record_generation rec = generation)).
Proof.
  unfold consume. intros Hc.
  destruct (length challenge <? INSTANCE_ID_LEN)%nat eqn:Hlen; bool_facts.
  { simplify_eq. left. eauto 6. }
  destruct (negb _) eqn:Hsl in Hc; [simplify_eq; left; eauto 6 |].
  destruct (negb (bool_decide (instance_id t = _))) eqn:Hid in Hc;
    [simplify_eq; left; eauto 6 |]. bool_facts.
  destruct (records t !! drop INSTANCE_ID_LEN challenge) as [rec |] eqn:Hrec;
    [| simplify_eq; left; eauto 6].
  assert (Hpart : challenge = take INSTANCE_ID_LEN challenge ++ drop INSTANCE_ID_LEN challenge)
    by (by rewrite take_drop).
  assert (Htake : length (take INSTANCE_ID_LEN challenge) = INSTANCE_ID_LEN)
    by (rewrite length_take; lia).
  destruct (expires_at_unix rec <? now)%Z eqn:Hexp; bool_facts.
  { simplify_eq. right. eexists _, _, rec. split_and!; eauto. }
  destruct (negb (bool_decide (record_jkt rec = jkt))) eqn:Hj; [simplify_eq; left; eauto 6 |].
  bool_facts. right. eexists _, _, rec.
  destruct (negb (record_generation rec =? generation)%N) eqn:Hg; bool_facts; simplify_eq;
    split_and!; eauto 7.
Qed.

Lemma consume_wf t challenge jkt generation now t' r :
  table_wf t → consume t challenge jkt generation now = (t', r) → table_wf t'.
Proof.
  intros Hwf [[-> _] | (id & s & rec & _ & _ & _ & _ & -> & _)]%consume_cases; [done |].
  by apply remove_record_wf.
Qed.

Lemma step_wf t ev : table_wf t → event_ok ev → table_wf (step t ev).1.
Proof.
  intros Hwf Hev. destruct ev as [jkt source generation now e alloc | challenge jkt generation now];
    simpl in *.
  - destruct (issue _ _ _ _ _ _ _) as [t' r] eqn:Hi. by eapply issue_wf.
  - destruct (consume _ _ _ _ _) as [t' r] eqn:Hc. by eapply consume_wf.
Qed.

Lemma with_config_wf c id :
  (∀ i, id = Some i → length i = INSTANCE_ID_LEN) → table_wf (with_config c id).
Proof.
  intros Hid. assert (Hcount : ∀ jkt, jkt_count ∅ jkt = 0).
  { intros jkt. unfold jkt_count. by rewrite map_filter_empty, map_size_empty. }
  split; simpl; try done; try (intros ? ?; by rewrite lookup_empty);
    rewrite ?map_size_empty; try lia; intros jkt; rewrite ?Hcount; try lia.
Qed.
End runs.

(** ** Consumption: available until used, and used at most once *)

(** The table holds a record for [challenge]. *)
Definition bound (t : ChallengeTable) (challenge : bytes_) (rec : ChallengeRecord) : Prop :=
  ∃ id s, challenge = id ++ s ∧ length id = INSTANCE_ID_LEN ∧
          length s = CHALLENGE_SUFFIX_LEN ∧ instance_id t = Some id ∧ records t !! s = Some rec.

(** An attempt to consume [challenge] by the holder of its proof key. *)
Definition uses (challenge jkt : bytes_) (ev : Event) : bool :=
  match ev with
  | EConsume c j _ _ => bool_decide (c = challenge) && bool_decide (j = jkt)
  | EIssue _ _ _ _ _ _ => false
  end.

Section consumption.
Context `{HashIteration}.

Lemma consume_bound t challenge rec now :
  bound t challenge rec → (now ≤ expires_at_unix rec)%Z →
  (consume t challenge (record_jkt rec) (record_generation rec) now).2 = Ok tt.
Proof.
  intros (id & s & -> & Hid & Hs & Hi & Hr) Hnow. unfold consume.
  rewrite length_app, Hid, Hs. simpl.
  rewrite take_app_length', drop_app_length' by done. rewrite Hs. simpl.
  rewrite bool_decide_eq_true_2 by done. simpl. rewrite Hr.
  assert ((expires_at_unix rec <? now)%Z = false) as -> by (apply Z.ltb_ge; lia).
  rewrite bool_decide_eq_true_2 by done. by rewrite N.eqb_refl.
Qed.

Lemma purged_bound t t' challenge rec now :
  purged now t t' → bound t challenge rec → (now ≤ expires_at_unix rec)%Z → bound t' challenge rec.
Proof.
  intros Hp (id & s & -> & Hid & Hs & Hi & Hr) Hnow. exists id, s.
  rewrite (purged_instance _ _ _ Hp). split_and!; try done. by apply (purged_keep _ _ _ Hp).
Qed.

Lemma remove_other_bound t challenge rec s' :
  bound t challenge rec → s' ≠ drop INSTANCE_ID_LEN challenge →
  bound (remove_record t s') challenge rec.
Proof.
  intros (id & s & -> & Hid & Hs & Hi & Hr) Hne. exists id, s.
  destruct (remove_record_fields t s') as (Hrec & _ & _ & Hinst & _).
  rewrite drop_app_length' in Hne by done. rewrite Hinst, Hrec. split_and!; try done.
  by rewrite lookup_delete_ne.
Qed.

(** Nothing but its rightful holder, its expiry or a lapse of time takes an
    outstanding challenge away. *)
Lemma step_bound t ev challenge rec :
  bound t challenge rec → (event_time ev ≤ expires_at_unix rec)%Z →
  uses challenge (record_jkt rec) ev = false → bound (step t ev).1 challenge rec.
Proof.
  intros Hb Hnow Huse. destruct ev as [jkt source g now e alloc | c jkt g now]; simpl in *.
  - destruct (issue _ _ _ _ _ _ _) as [t' r] eqn:Hi. simpl. apply issue_cases in Hi.
    assert (Hb0 : bound (purge_expired t now) challenge rec)
      by (eapply purged_bound; [apply purge_expired_purged | done | done]).
    destruct Hi as [(d & _ & ->) | (id' & g' & sd & jd & s' & Hp & _ & _ & Hid & Hr & _)]; [done |].
    destruct Hb0 as (id & s & -> & Hl & Hs & Hinst & Hrec). exists id, s.
    destruct Hp as [P1 _ _ _ _ _ P7 _]. rewrite Hid, Hr.
    assert (id' = id) as -> by (destruct P1 as [? | [? _]]; congruence).
    split_and!; try done. rewrite lookup_insert_ne; [done |]. intros ->. congruence.
  - destruct (consume _ _ _ _ _) as [t' r] eqn:Hc. simpl. apply consume_cases in Hc.
    destruct Hc as [[-> _] | (id' & s' & rec' & -> & Hl' & Hinst' & Hrec' & -> & Hres)]; [done |].
    destruct Hb as (id & s & -> & Hl & Hs & Hinst & Hrec).
    assert (Hne : s' ≠ s).
    { intros ->. assert (id' = id) by congruence. assert (rec' = rec) by congruence. subst.
      destruct Hres as [[_ ?] | (_ & Hj & _)]; [lia |].
      apply andb_false_iff in Huse as [?%bool_decide_eq_false | ?%bool_decide_eq_false]; done. }
    apply remove_other_bound; [by exists id, s |]. by rewrite drop_app_length'.
Qed.

Lemma run_bound t evs challenge rec :
  bound t challenge rec →
  Forall (λ ev, (event_time ev ≤ expires_at_unix rec)%Z ∧
                uses challenge (record_jkt rec) ev = false) evs →
  bound (run t evs).1 challenge rec.
Proof.
  intros Hb Hevs. revert t Hb. induction Hevs as [| ev evs [Ht Hu] _ IH]; intros t Hb; simpl; [done |].
  pose proof (step_bound t ev challenge rec Hb Ht Hu) as Hb'.
  destruct (step t ev) as [t1 o]. simpl in Hb'. specialize (IH t1 Hb').
  by destruct (run t1 evs) as [t2 os].
Qed.

Lemma issue_bound t jkt source generation now e alloc t' c :
  table_wf t → entropy_ok e → issue t jkt source generation now e alloc = (t', Ok c) →
  bound t' (issued_challenge c)
    {| record_jkt := jkt; record_generation := generation;
       expires_at_unix := issued_expires_at_unix c |}.
Proof.
  intros Hwf [He1 He2] Hi. pose proof (purge_expired_wf now t Hwf) as Hwf0.
  apply issue_cases in Hi as [(d & ? & _) |
    (id & g & sd & jd & s & Hp & Hc & _ & Hid & Hr & _)]; [done |].
  simplify_eq. simpl. exists id, s. destruct Hp as [P1 _ _ _ _ _ P7 [j P8]]. rewrite Hr, lookup_insert_eq.
  split_and!; try done; [| by eapply He2].
  destruct P1 as [P1 | [_ P1]]; [by apply (wf_instance _ Hwf0) | by apply He1].
Qed.
End consumption.

(** C39: an issued challenge stays usable: whatever issuances, cleanups and
    consumption attempts happen in between, as long as no operation sees a
    clock past its expiry and its own holder has not presented it, presenting
    it with its proof key and generation by its expiry succeeds.  Capacity and
    rate pressure never revoke it, and neither does a guess with another key. *)
Theorem issued_challenge_consumable `{HashIteration} t jkt source generation now e alloc t1 c
    evs now' :
  table_wf t → entropy_ok e →
  issue t jkt source generation now e alloc = (t1, Ok c) →
  Forall (λ ev, (event_time ev ≤ issued_expires_at_unix c)%Z ∧
                uses (issued_challenge c) jkt ev = false) evs →
  (now' ≤ issued_expires_at_unix c)%Z →
  (consume (run t1 evs).1 (issued_challenge c) jkt generation now').2 = Ok tt.
Proof.
  intros Hwf He Hi Hevs Hnow.
  pose proof (issue_bound _ _ _ _ _ _ _ _ _ Hwf He Hi) as Hb.
  apply (run_bound _ evs) in Hb; [| exact Hevs].
  exact (consume_bound _ _ _ now' Hb Hnow).
Qed.

(** A concrete table and inputs. *)
Definition sample_id : bytes_ := repeat 1%N 16.
Definition sample_entropy (b : N) : Entropy :=
  {| draw_instance := Some sample_id; draw_suffix := λ i, Some (repeat (b + N.of_nat i)%N 16) |}.
Definition sample_alloc : Alloc := λ _, true.
Definition sample_table : ChallengeTable :=
  with_config
    {| global_capacity := 4; per_jkt_capacity := 2; ttl_secs := 60;
       global_rate := {| burst := 4; refill_per_sec := 1 |};
       per_jkt_rate := {| burst := 2; refill_per_sec := 1 |};
       per_source_rate := {| burst := 4; refill_per_sec := 1 |};
       tracked_partitions := 4 |} (Some sample_id).
Definition sample_events : list Event :=
  [EIssue [8%N] [3%N] 5 130 (sample_entropy 9) sample_alloc;
   EConsume (sample_id ++ repeat 7%N 16) [8%N] 5 140;
   EIssue [9%N] [3%N] 5 150 (sample_entropy 7) sample_alloc].

Lemma sample_table_wf : table_wf sample_table.
Proof. apply with_config_wf. by intros i [= <-]. Qed.

Lemma sample_entropy_ok b : entropy_ok (sample_entropy b).
Proof. split; [by intros id [= <-] |]. by intros i s [= <-]. Qed.

Lemma issued_challenge_consumable_witness :
  let '(t1, r) := issue sample_table [9%N] [3%N] 5 100 (sample_entropy 7) sample_alloc in
  r = Ok {| issued_challenge := sample_id ++ repeat 7%N 16; issued_expires_at_unix := 160 |} ∧
  (consume (run t1 sample_events).1 (sample_id ++ repeat 7%N 16) [9%N] 5 160).2 = Ok tt.
Proof.
  destruct (issue sample_table [9%N] [3%N] 5 100 (sample_entropy 7) sample_alloc)
    as [t1 r] eqn:Hi.
  assert (Hr : r = Ok {| issued_challenge := sample_id ++ repeat 7%N 16;
                         issued_expires_at_unix := 160 |})
    by (vm_compute in Hi; injection Hi as _ <-; reflexivity).
  split; [exact Hr |]. subst r.
  refine (issued_challenge_consumable sample_table [9%N] [3%N] 5 100 (sample_entropy 7)
            sample_alloc t1 _ sample_events 160 sample_table_wf (sample_entropy_ok 7) Hi _ _).
  - repeat constructor; simpl; try lia; vm_compute; reflexivity.
  - simpl. lia.
Defined.

(** *** At most once *)

(** How often [challenge] was issued, and how often consumed, in a history. *)
Fixpoint issuances (challenge : bytes_) (os : list Outcome) : nat :=
  match os with
  | [] => 0
  | o :: os' =>
      match o with
      | Issued (Ok c) => if decide (issued_challenge c = challenge) then 1 else 0
      | _ => 0
      end + issuances challenge os'
  end.

Fixpoint consumptions (challenge : bytes_) (evs : list Event) (os : list Outcome) : nat :=
  match evs, os with
  | ev :: evs', o :: os' =>
      match ev, o with
      | EConsume c _ _ _, Consumed (Ok _) => if decide (c = challenge) then 1 else 0
      | _, _ => 0
      end + consumptions challenge evs' os'
  | _, _ => 0
  end.

(** One when the table holds a record for [challenge]. *)
Definition live (t : ChallengeTable) (challenge : bytes_) : nat :=
  if decide (instance_id t = Some (take INSTANCE_ID_LEN challenge) ∧
             is_Some (records t !! drop INSTANCE_ID_LEN challenge))
  then 1 else 0.

Section at_most_once.
Context `{HashIteration}.

Lemma live_le t t' challenge :
  instance_id t' = instance_id t →
  (∀ s r, records t' !! s = Some r → records t !! s = Some r) → live t' challenge ≤ live t challenge.
Proof.
  intros Hid Hsub. unfold live. rewrite Hid. case_decide as H1; case_decide as H2; try lia.
  destruct H2. destruct H1 as [? [r Hr]]. split; [done |]. eauto.
Qed.

Lemma issue_live t jkt source generation now e alloc t' r challenge :
  table_wf t → issue t jkt source generation now e alloc = (t', r) →
  live t' challenge ≤ live t challenge + issuances challenge [Issued r].
Proof.
  intros Hwf Hi. pose proof (purge_expired_purged now t) as Hp.
  pose proof (purge_expired_wf now t Hwf) as Hwf0.
  assert (Hle : live (purge_expired t now) challenge ≤ live t challenge)
    by (apply live_le; [apply Hp | apply Hp]).
  apply issue_cases in Hi as [(d & -> & ->) |
    (id & g & sd & jd & s & Hplan & -> & _ & Hid & Hr & _)]; simpl; [lia |].
  destruct (decide (id ++ s = challenge)) as [Heq | Hne].
  { unfold live at 1. case_decide; lia. }
  assert (Hlive : live t' challenge ≤ live (purge_expired t now) challenge); [| lia].
  unfold live. rewrite Hid, Hr. case_decide as H1; case_decide as H2; try lia.
  destruct H1 as [[= ->] [r Hrec]].
  apply lookup_insert_Some in Hrec as [[-> _] | [_ Hrec]]; [by rewrite take_drop in Hne |].
  destruct H2. split; [| eauto].
  destruct (ip_id _ _ _ _ _ _ _ _ _ _ Hplan) as [? | [Hnone _]]; [done |].
  destruct (wf_issued _ Hwf0 _ _ Hrec) as [? ?]. congruence.
Qed.

Lemma consume_live t c jkt generation now t' r challenge :
  consume t c jkt generation now = (t', r) →
  live t' challenge + consumptions challenge [EConsume c jkt generation now] [Consumed r]
    ≤ live t challenge.
Proof.
  intros [[-> (d & -> & _)] |
          (id & s & rec & -> & Hid & Hinst & Hrec & -> & Hres)]%consume_cases; simpl; [lia |].
  destruct (remove_record_fields t s) as (Hr & _ & _ & Hi & _).
  assert (Hle : live (remove_record t s) challenge ≤ live t challenge).
  { apply live_le; [done |]. rewrite Hr. by intros s' r' [_ ?]%lookup_delete_Some. }
  destruct (decide (id ++ s = challenge)) as [<- | Hne].
  - assert (live (remove_record t s) (id ++ s) = 0) as ->.
    { unfold live. rewrite drop_app_length', Hr, lookup_delete_eq by done.
      case_decide as Hd; [| done]. by destruct Hd as [_ [? ?]]. }
    unfold live. rewrite take_app_length', drop_app_length' by done.
    rewrite decide_True by (by rewrite Hrec; eauto). destruct r; lia.
  - destruct r; lia.
Qed.

Lemma run_at_most_once t evs challenge :
  table_wf t → Forall event_ok evs →
  live (run t evs).1 challenge + consumptions challenge evs (run t evs).2
    ≤ live t challenge + issuances challenge (run t evs).2.
Proof.
  intros Hwf Hevs. revert t Hwf. induction Hevs as [| ev evs Hev _ IH]; intros t Hwf; [simpl; lia |].
  pose proof (step_wf t ev Hwf Hev) as Hwf1. simpl.
  destruct ev as [jkt source g now e alloc | c jkt g now]; simpl in *.
  - destruct (issue _ _ _ _ _ _ _) as [t1 r] eqn:Hi. simpl in Hwf1.
    pose proof (issue_live _ _ _ _ _ _ _ _ _ challenge Hwf Hi) as Hl.
    specialize (IH t1 Hwf1). destruct (run t1 evs) as [t2 os]. simpl in *. lia.
  - destruct (consume _ _ _ _ _) as [t1 r] eqn:Hc. simpl in Hwf1.
    pose proof (consume_live _ _ _ _ _ _ _ challenge Hc) as Hl.
    specialize (IH t1 Hwf1). destruct (run t1 evs) as [t2 os]. simpl in *. lia.
Qed.
End at_most_once.

(** C10: consumption is at most once: in every history of the table, a
    challenge is consumed successfully no more often than it was issued, so
    two presentations of one issued challenge never both succeed. *)
Theorem consumed_at_most_once `{HashIteration} c id evs challenge :
  (∀ i, id = Some i → length i = INSTANCE_ID_LEN) → Forall event_ok evs →
  consumptions challenge evs (run (with_config c id) evs).2
    ≤ issuances challenge (run (with_config c id) evs).2.
Proof.
  intros Hid Hevs.
  pose proof (run_at_most_once _ evs challenge (with_config_wf c id Hid) Hevs) as Hrun.
  assert (Hl : live (with_config c id) challenge = 0); [| lia].
  unfold live. case_decide as Hd; [| done]. destruct Hd as [_ [? Hr]]. simpl in Hr. by rewrite lookup_empty in Hr.
Qed.

Lemma consumed_at_most_once_witness :
  let ch := sample_id ++ repeat 7%N 16 in
  let evs := [EIssue [9%N] [3%N] 5 100 (sample_entropy 7) sample_alloc;
              EConsume ch [9%N] 5 101; EConsume ch [9%N] 5 102] in
  let os := (run sample_table evs).2 in
  consumptions ch evs os = 1 ∧ issuances ch os = 1 ∧ consumptions ch evs os ≤ issuances ch os.
Proof.
  intros ch evs os. split; [vm_compute; reflexivity |]. split; [vm_compute; reflexivity |].
  apply consumed_at_most_once.
  - intros i Hi. injection Hi as <-. reflexivity.
  - repeat constructor; apply sample_entropy_ok.
Defined.

(** ** Bounds *)

Section bounds.
Context `{HashIteration}.

Lemma step_config t ev : config (step t ev).1 = config t.
Proof.
  destruct ev as [jkt source g now e alloc | c jkt g now]; simpl.
  - destruct (issue _ _ _ _ _ _ _) as [t' r] eqn:Hi. simpl.
    pose proof (purged_config _ _ _ (purge_expired_purged now t)) as Hp.
    apply issue_cases in Hi as [(d & _ & ->) | (? & ? & ? & ? & ? & _ & _ & -> & _)]; done.
  - destruct (consume _ _ _ _ _) as [t' r] eqn:Hc. simpl.
    apply consume_cases in Hc as [[-> _] | (? & s & ? & _ & _ & _ & _ & -> & _)]; [done |].
    apply remove_record_fields.
Qed.

Lemma run_wf t evs :
  table_wf t → Forall event_ok evs →
  table_wf (run t evs).1 ∧ config (run t evs).1 = config t.
Proof.
  intros Hwf Hevs. revert t Hwf. induction Hevs as [| ev evs Hev _ IH]; intros t Hwf; [done |].
  simpl. pose proof (step_wf t ev Hwf Hev) as Hwf1. pose proof (step_config t ev) as Hcfg.
  destruct (step t ev) as [t1 o]. simpl in *. specialize (IH t1 Hwf1).
  destruct (run t1 evs) as [t2 os]. simpl in *. rewrite <- Hcfg. done.
Qed.
End bounds.

(** In every history the table keeps its invariant and its bounds: at most
    the configured number of records, at most eight per proof key whatever the
    configuration says, per-key counts that equal the records they count, a
    queue entry for every record so that cleanup reaches it, and no more
    tracked rate partitions than allowed. *)
Theorem challenge_table_bounded `{HashIteration} c id evs :
  (∀ i, id = Some i → length i = INSTANCE_ID_LEN) → Forall event_ok evs →
  let t := (run (with_config c id) evs).1 in
  table_wf t ∧ outstanding t ≤ Nat.max (global_capacity c) 1 ∧
  (∀ jkt, jkt_count (records t) jkt ≤ MAX_OUTSTANDING_PER_JKT) ∧
  size (jkt_buckets t) ≤ Nat.max (tracked_partitions c) 1 ∧
  size (source_buckets t) ≤ Nat.max (tracked_partitions c) 1.
Proof.
  intros Hid Hevs t.
  destruct (run_wf (with_config c id) evs (with_config_wf c id Hid) Hevs) as [Hwf Hcfg].
  fold t in Hwf, Hcfg. destruct Hwf as [W1 W2 W3 W4 W5 W6 W7 W8 W9 W10].
  assert (Hcap : per_jkt_capacity (config (with_config c id)) ≤ MAX_OUTSTANDING_PER_JKT)
    by (cbn [config with_config per_jkt_capacity]; unfold MAX_OUTSTANDING_PER_JKT; lia).
  split_and!; try (rewrite Hcfg in *; done).
  - by split.
  - intros jkt. specialize (W4 jkt). rewrite Hcfg in W4. lia.
Qed.

(** A declined issuance debits nothing: the instance id, all token buckets
    and the partition maps are as before, and no record is lost that has not
    expired; the attempt's only effect is the cleanup of expired records. *)
Theorem issue_decline_debits_nothing `{HashIteration} t jkt source generation now e alloc t' d :
  issue t jkt source generation now e alloc = (t', Err d) → purged now t t'.
Proof.
  intros [(d' & _ & ->) | (? & ? & ? & ? & ? & _ & ? & _)]%issue_cases; [| done].
  apply purge_expired_purged.
Qed.

(** Consumption is decided by the record alone.  It succeeds exactly when
    the table holds a record for these bytes that names this proof key and
    generation and has not expired; the record is then gone.  A presenter with
    another proof key changes nothing. *)
Theorem consume_spec t challenge jkt generation now :
  table_wf t →
  ((consume t challenge jkt generation now).2 = Ok tt ↔
   ∃ rec, bound t challenge rec ∧ record_jkt rec = jkt ∧ record_generation rec = generation ∧
          (now ≤ expires_at_unix rec)%Z) ∧
  ((consume t challenge jkt generation now).2 = Ok tt →
   ∀ rec, ¬ bound (consume t challenge jkt generation now).1 challenge rec) ∧
  (∀ rec, bound t challenge rec → record_jkt rec ≠ jkt → (now ≤ expires_at_unix rec)%Z →
   consume t challenge jkt generation now = (t, Err JktMismatch)).
Proof.
  intros Hwf. destruct (consume t challenge jkt generation now) as [t' r] eqn:Hc. simpl.
  split; [split |split].
  - intros ->. apply consume_cases in Hc as [[_ (? & ? & _)] |
      (id & s & rec & -> & Hl & Hi & Hr & _ & [[? _] | (Hn & Hj & [[? _] | [_ Hg]])])]; try done.
    exists rec. split_and!; try done. exists id, s. split_and!; try done. by eapply wf_suffix.
  - intros (rec & Hb & <- & <- & Hn). pose proof (consume_bound _ _ _ _ Hb Hn) as Hok.
    by rewrite Hc in Hok.
  - intros -> rec (id & s & -> & Hl & _ & _ & Hr).
    apply consume_cases in Hc as [[_ (? & ? & _)] | (id' & s' & rec' & Heq & Hl' & _ & _ & -> & _)];
      [done |].
    apply app_inj_1 in Heq as [-> ->]; [| lia].
    destruct (remove_record_fields t s') as (Hrr & _). by rewrite Hrr, lookup_delete_eq in Hr.
  - intros rec (id & s & -> & Hl & Hs & Hi & Hr) Hne Hn. rewrite <- Hc. unfold consume.
    rewrite length_app, Hl, Hs. simpl. rewrite take_app_length', drop_app_length' by done.
    rewrite Hs. simpl. rewrite bool_decide_eq_true_2 by done. simpl. rewrite Hr.
    assert ((expires_at_unix rec <? now)%Z = false) as -> by (apply Z.ltb_ge; lia).
    by rewrite bool_decide_eq_false_2.
Qed.

(** ** Source partitions do not collide *)

Definition u64_length (s : string) : Prop := (N.of_nat (String.length s) < 2 ^ 64)%N.

(** A length prefix delimits: what follows starts where the string ends. *)
Lemma length_prefixed_inj a b x y :
  u64_length a → u64_length b →
  length_prefixed (bytes a) ++ x = length_prefixed (bytes b) ++ y → a = b ∧ x = y.
Proof.
  unfold length_prefixed, u64_length. intros Ha Hb. rewrite <- !app_assoc, !length_bytes.
  intros [Hlen Hrest]%app_inj_1; [| by rewrite !length_to_be_bytes].
  apply to_be_bytes_inj in Hlen; [| simpl N.of_nat; lia | simpl N.of_nat; lia].
  rewrite !N.min_l in Hlen by lia.
  apply app_inj_1 in Hrest as [Hab ->]; [| rewrite !length_bytes; lia].
  split; [| done]. rewrite <- (of_bytes_bytes a), Hab. apply of_bytes_bytes.
Qed.

(** The rate-limit partition of a request is determined by listener kind,
    listener name, kernel uid and courier source without ambiguity: requests
    that differ in any of them hash different byte strings. *)
Theorem partition_preimage_injective k1 l1 u1 s1 k2 l2 u2 s2 :
  u64_length l1 → u64_length l2 → (u1 < 2 ^ 32)%N → (u2 < 2 ^ 32)%N →
  (∀ s, s1 = Some s → u64_length s) → (∀ s, s2 = Some s → u64_length s) →
  partition_preimage k1 l1 u1 s1 = partition_preimage k2 l2 u2 s2 →
  k1 = k2 ∧ l1 = l2 ∧ u1 = u2 ∧ s1 = s2.
Proof.
  intros Hl1 Hl2 Hu1 Hu2 Hs1 Hs2. unfold partition_preimage.
  intros Heq. apply app_inv_head, (app_inj_1 [k1] [k2]) in Heq as [[= ->] Heq]; [| done].
  apply length_prefixed_inj in Heq as [-> Heq]; [| done | done].
  apply app_inj_1 in Heq as [Hu Hs]; [| by rewrite !length_to_be_bytes].
  apply to_be_bytes_inj in Hu as ->; [| simpl N.of_nat; lia | simpl N.of_nat; lia].
  destruct s1 as [a |], s2 as [b |]; [| discriminate Hs | discriminate Hs | done].
  apply app_inv_head in Hs.
  destruct (length_prefixed_inj a b [] []) as [-> _]; [by apply Hs1 | by apply Hs2 | | done].
  by rewrite !app_nil_r.
Qed.

