(* ===== verification/ChallengeRate.v ===== *)
(** * Issuance rates ([crates/basil-core/src/core/challenge.rs], [TokenBucket])

    The buckets are kept in saturating machine arithmetic and dropped for idle
    partitions.  Neither loses precision: a refill is the ideal one, and over
    any stretch of time with a clock that does not run backwards every
    partition, tracked or not, gets at most a burst plus its sustained rate. *)

From stdpp Require Import gmap.
From S2P Require Import Prelude RustStr Bytes Challenge.

Definition rate_ok (cfg : TokenBucketConfig) : Prop :=
  (0 ≤ burst cfg ≤ u32_max)%Z ∧ (0 ≤ refill_per_sec cfg ≤ u32_max)%Z.

Definition bucket_ok (cfg : TokenBucketConfig) (now : Z) (b : TokenBucket) : Prop :=
  (0 ≤ tokens b ≤ burst cfg)%Z ∧ (i64_min ≤ last_refill_unix b ≤ now)%Z ∧ (now ≤ i64_max)%Z.

Lemma refill_ideal cfg b now :
  rate_ok cfg → bucket_ok cfg now b →
  refill b cfg now =
  {| tokens := Z.min (tokens b + (now - last_refill_unix b) * refill_per_sec cfg) (burst cfg);
     last_refill_unix := now |}.
Proof.
  intros [[Hb0 Hb1] [Hr0 Hr1]] [[Ht0 Ht1] [[Hl0 Hl1] Hn]]. unfold refill.
  assert ((now <? last_refill_unix b)%Z = false) as -> by (apply Z.ltb_ge; lia).
  assert (Hsub : i64_saturating_sub now (last_refill_unix b) =
                 Z.min i64_max (now - last_refill_unix b))
    by (unfold_ints; lia).
  rewrite Hsub. destruct (Z.eqb_spec (Z.min i64_max (now - last_refill_unix b)) 0) as [E | E].
  { assert (now = last_refill_unix b) as -> by (unfold_ints; lia).
    rewrite Z.sub_diag, Z.mul_0_l, Z.add_0_r, Z.min_l by lia. by destruct b. }
  f_equal. set (el := (now - last_refill_unix b)%Z) in *.
  assert (Hel : (0 < el)%Z) by (unfold_ints; lia).
  assert (Hu : u32_try_from_or_max (Z.min i64_max el) = Z.min u32_max el).
  { unfold u32_try_from_or_max.
    destruct (Z.leb_spec (Z.min i64_max el) u32_max), (Z.leb_spec 0 (Z.min i64_max el));
      unfold_ints; simpl; lia. }
  rewrite Hu. unfold u32_saturating_add, u32_saturating_mul.
  destruct (Z.le_gt_cases el u32_max) as [Hle | Hgt].
  - rewrite (Z.min_r u32_max el) by lia. lia.
  - rewrite (Z.min_l u32_max el) by lia. destruct (Z.eq_dec (refill_per_sec cfg) 0) as [-> | Hr].
    + lia.
    + assert (u32_max * 1 ≤ u32_max * refill_per_sec cfg)%Z by (apply Z.mul_le_mono_nonneg_l; lia).
      assert (el * 1 ≤ el * refill_per_sec cfg)%Z by (apply Z.mul_le_mono_nonneg_l; lia). lia.
Qed.

(** Nothing accrues beyond the ideal, so [available] below is well behaved. *)
Definition available (cfg : TokenBucketConfig) (ob : option TokenBucket) (now : Z) : Z :=
  match ob with
  | Some b => tokens (refill b cfg now)
  | None => burst cfg
  end.

Lemma try_take_ideal cfg b now b' :
  rate_ok cfg → bucket_ok cfg now b → try_take b cfg now = (true, b') →
  tokens b' = (tokens (refill b cfg now) - 1)%Z ∧ last_refill_unix b' = now ∧ (0 ≤ tokens b')%Z.
Proof.
  intros Hcfg Hb. unfold try_take, u32_checked_sub. rewrite refill_ideal by done. simpl.
  destruct (Z.leb_spec 1 (Z.min (tokens b + (now - last_refill_unix b) * refill_per_sec cfg)
                            (burst cfg))); [| done].
  intros [= <-]. simpl. split_and!; [done | done | lia].
Qed.

Lemma new_bucket_ok cfg now :
  rate_ok cfg → (i64_min ≤ now ≤ i64_max)%Z → bucket_ok cfg now (TokenBucket_new cfg now).
Proof. intros [[? ?] _] ?. unfold bucket_ok. simpl. lia. Qed.

Lemma available_bounds cfg ob now :
  rate_ok cfg → (∀ b, ob = Some b → bucket_ok cfg now b) →
  (0 ≤ available cfg ob now ≤ burst cfg)%Z.
Proof.
  intros Hcfg Hob. destruct Hcfg as [[H1 H2] [H3 H4]] eqn:E. destruct ob as [b |]; simpl; [| lia].
  specialize (Hob b eq_refl). rewrite refill_ideal by done. simpl.
  destruct Hob as [? [? ?]].
  assert (0 ≤ (now - last_refill_unix b) * refill_per_sec cfg)%Z by (apply Z.mul_nonneg_nonneg; lia).
  lia.
Qed.

(** Tokens accrue no faster than the sustained rate. *)
Lemma available_later cfg ob now now' :
  rate_ok cfg → (∀ b, ob = Some b → bucket_ok cfg now b) → (now ≤ now' ≤ i64_max)%Z →
  (available cfg ob now' ≤ available cfg ob now + refill_per_sec cfg * (now' - now))%Z.
Proof.
  intros Hcfg Hob Hnow. pose proof Hcfg as [_ [Hr _]].
  assert (0 ≤ refill_per_sec cfg * (now' - now))%Z by (apply Z.mul_nonneg_nonneg; lia).
  destruct ob as [b |]; simpl; [| lia]. specialize (Hob b eq_refl).
  assert (Hb' : bucket_ok cfg now' b) by (destruct Hob as [? [? ?]]; split_and!; lia).
  rewrite !refill_ideal by done. simpl. lia.
Qed.

Lemma bucket_ok_later cfg now now' b :
  (now ≤ now' ≤ i64_max)%Z → bucket_ok cfg now b → bucket_ok cfg now' b.
Proof. intros ? [? [? ?]]. unfold bucket_ok. lia. Qed.

(** Saturation and polling are invisible: a forward refill adds exactly
    the elapsed seconds times the rate, capped at the burst, for every [u32]
    rate and every pair of [i64] times, and refilling at any moment in between
    changes nothing. *)
Theorem refill_exact cfg b mid now :
  rate_ok cfg → bucket_ok cfg mid b → (mid ≤ now ≤ i64_max)%Z →
  refill b cfg now =
    {| tokens := Z.min (tokens b + (now - last_refill_unix b) * refill_per_sec cfg) (burst cfg);
       last_refill_unix := now |} ∧
  refill (refill b cfg mid) cfg now = refill b cfg now.
Proof.
  intros Hcfg Hb Hmid. pose proof (bucket_ok_later _ _ _ _ Hmid Hb) as Hb'.
  split; [by apply refill_ideal |]. rewrite (refill_ideal cfg b) by done.
  pose proof Hcfg as [[? ?] [? ?]]. pose proof Hb as [? [? ?]].
  assert (0 ≤ (mid - last_refill_unix b) * refill_per_sec cfg)%Z by (apply Z.mul_nonneg_nonneg; lia).
  assert (0 ≤ (now - mid) * refill_per_sec cfg)%Z by (apply Z.mul_nonneg_nonneg; lia).
  rewrite !refill_ideal; try done; simpl.
  - f_equal. lia.
  - unfold bucket_ok. simpl. lia.
Qed.

(** Stepping the clock back and forth mints tokens.  After a backward step
    the bucket is re-anchored, so returning to a time it was already refilled
    for refills it again, up to a full burst; without the backward step the
    same call adds nothing. *)
Theorem backward_step_refills_again cfg b past :
  rate_ok cfg → bucket_ok cfg (last_refill_unix b) b → (i64_min ≤ past < last_refill_unix b)%Z →
  refill b cfg (last_refill_unix b) = b ∧
  tokens (refill (refill b cfg past) cfg (last_refill_unix b)) =
  Z.min (tokens b + (last_refill_unix b - past) * refill_per_sec cfg) (burst cfg).
Proof.
  intros Hcfg Hb Hpast. split.
  - rewrite refill_ideal by done. rewrite Z.sub_diag, Z.mul_0_l, Z.add_0_r.
    destruct Hb as [? _]. rewrite Z.min_l by lia. by destruct b.
  - assert (refill b cfg past = {| tokens := tokens b; last_refill_unix := past |}) as ->.
    { unfold refill. by rewrite (proj2 (Z.ltb_lt _ _)) by lia. }
    rewrite refill_ideal; [done | done |]. destruct Hb as [? [? ?]]. split_and!; simpl; lia.
Qed.

(** ** Partitions *)

Section partitions.
Context {K : Type} `{Countable K} `{HashIteration}.

Definition partition_ok (cfg : TokenBucketConfig) (now : Z) (buckets : gmap K TokenBucket) : Prop :=
  ∀ k b, buckets !! k = Some b → bucket_ok cfg now b.

(** A debit takes one token from its own partition and none from any other,
    tracked or evicted. *)
Lemma debit_available (buckets : gmap K TokenBucket) key cfg tracked now d :
  rate_ok cfg → (i64_min ≤ now ≤ i64_max)%Z → partition_ok cfg now buckets →
  plan_partition_token buckets key cfg tracked now = Some d →
  partition_ok cfg now (commit d buckets) ∧
  ∀ k, (available cfg (commit d buckets !! k) now + (if decide (k = key) then 1 else 0)
        ≤ available cfg (buckets !! k) now)%Z.
Proof.
  intros Hcfg Hnow Hok Hplan.
  destruct (commit_lookup_eq _ _ _ _ _ _ Hplan) as (b & Htake & Hkey).
  assert (Hold : bucket_ok cfg now (default (TokenBucket_new cfg now) (buckets !! key))).
  { destruct (buckets !! key) as [b0 |] eqn:E; [by eapply Hok | by apply new_bucket_ok]. }
  pose proof (try_take_ideal _ _ _ _ Hcfg Hold Htake) as (Htok & Hlast & Hpos).
  assert (Hbounds : (0 ≤ tokens (refill (default (TokenBucket_new cfg now) (buckets !! key)) cfg now)
                     ≤ burst cfg)%Z).
  { apply (available_bounds cfg (Some _)); [done |]. by intros ? [= <-]. }
  assert (Hb : bucket_ok cfg now b) by (unfold bucket_ok; lia).
  split.
  - intros k b' Hk. destruct (decide (k = key)) as [-> | Hne]; [by simplify_eq |].
    destruct (commit_lookup_ne _ _ _ _ _ _ k Hplan Hne) as [Heq | [Hnone _]];
      [| by rewrite Hnone in Hk].
    rewrite Heq in Hk. by eapply Hok.
  - intros k. case_decide as Hk; [subst k |].
    + rewrite Hkey. simpl. rewrite refill_ideal by done. simpl.
      rewrite Hlast, Z.sub_diag, Z.mul_0_l, Z.add_0_r.
      destruct (buckets !! key) as [b0 |]; simpl in *; lia.
    + destruct (commit_lookup_ne _ _ _ _ _ _ k Hplan Hk) as [-> | [-> (b' & -> & Hidle)]]; [lia |].
      unfold is_idle in Hidle. apply Z.leb_le in Hidle. simpl. lia.
Qed.
End partitions.

(** ** Histories *)

(** A clock that does not run backwards, starting from [from]. *)
Fixpoint clock_ok (from : Z) (evs : list Event) : Prop :=
  match evs with
  | [] => True
  | ev :: evs' => (from ≤ event_time ev ≤ i64_max)%Z ∧ clock_ok (event_time ev) evs'
  end.

Fixpoint last_time (from : Z) (evs : list Event) : Z :=
  match evs with
  | [] => from
  | ev :: evs' => last_time (event_time ev) evs'
  end.

(** Successful issuances among those [sel] picks by proof key and source. *)
Fixpoint issued_count (sel : bytes_ → bytes_ → bool) (evs : list Event) (os : list Outcome) : Z :=
  match evs, os with
  | ev :: evs', o :: os' =>
      match ev, o with
      | EIssue jkt source _ _ _ _, Issued (Ok _) => if sel jkt source then 1 else 0
      | _, _ => 0
      end + issued_count sel evs' os'
  | _, _ => 0
  end%Z.

Definition rates_ok (c : ChallengeTableConfig) : Prop :=
  rate_ok (global_rate c) ∧ rate_ok (per_jkt_rate c) ∧ rate_ok (per_source_rate c).

Record buckets_ok (now : Z) (t : ChallengeTable) : Prop := {
  bo_now : (i64_min ≤ now ≤ i64_max)%Z;
  bo_global : bucket_ok (global_rate (config t)) now (global_bucket t);
  bo_jkt : partition_ok (per_jkt_rate (config t)) now (jkt_buckets t);
  bo_source : partition_ok (per_source_rate (config t)) now (source_buckets t);
}.

(** The three meters of a table, by what they count. *)
Inductive Meter := GlobalMeter | JktMeter (jkt : bytes_) | SourceMeter (source : bytes_).

Definition meter_config (c : ChallengeTableConfig) (m : Meter) : TokenBucketConfig :=
  match m with
  | GlobalMeter => global_rate c
  | JktMeter _ => per_jkt_rate c
  | SourceMeter _ => per_source_rate c
  end.

Definition meter_bucket (t : ChallengeTable) (m : Meter) : option TokenBucket :=
  match m with
  | GlobalMeter => Some (global_bucket t)
  | JktMeter jkt => jkt_buckets t !! jkt
  | SourceMeter source => source_buckets t !! source
  end.

Definition meter_counts (m : Meter) (jkt source : bytes_) : bool :=
  match m with
  | GlobalMeter => true
  | JktMeter j => bool_decide (j = jkt)
  | SourceMeter s => bool_decide (s = source)
  end.

Definition meter_available (t : ChallengeTable) (m : Meter) (now : Z) : Z :=
  available (meter_config (config t) m) (meter_bucket t m) now.

Section rates.
Context `{HashIteration}.

Lemma meter_rate_ok c m : rates_ok c → rate_ok (meter_config c m).
Proof. intros (? & ? & ?). by destruct m. Qed.

Lemma meter_bucket_ok now t m b :
  buckets_ok now t → meter_bucket t m = Some b → bucket_ok (meter_config (config t) m) now b.
Proof.
  intros [_ Hg Hj Hs]. destruct m; simpl; [by intros [= <-] | apply Hj | apply Hs].
Qed.

Lemma buckets_ok_later now now' t :
  (now ≤ now' ≤ i64_max)%Z → buckets_ok now t → buckets_ok now' t.
Proof.
  intros Hn [Hnow Hg Hj Hs].
  split; [lia | | intros k b Hk | intros k b Hk]; eapply bucket_ok_later; eauto.
Qed.

(** The meters see only what [purged] preserves. *)
Lemma purged_meters now now' t t' :
  purged now t t' → buckets_ok now' t → buckets_ok now' t' ∧
  ∀ m, meter_available t' m now' = meter_available t m now'.
Proof.
  intros [P1 P2 P3 P4 P5 _ _] [B1 B2 B3 B4]. split.
  - split; rewrite ?P1, ?P3, ?P4, ?P5; done.
  - intros m. unfold meter_available, meter_bucket. by rewrite P1, P3, P4, P5.
Qed.

Lemma issue_meters t jkt source generation now e alloc t' r :
  rates_ok (config t) → buckets_ok now t →
  issue t jkt source generation now e alloc = (t', r) →
  buckets_ok now t' ∧
  ∀ m, (meter_available t' m now +
        (if is_ok r && meter_counts m jkt source then 1 else 0) ≤ meter_available t m now)%Z.
Proof.
  intros Hrates Hok Hi. pose proof (purge_expired_purged now t) as Hp.
  destruct (purged_meters now now _ _ Hp Hok) as [Hok0 Hav].
  assert (Hrates0 : rates_ok (config (purge_expired t now)))
    by (by rewrite (purged_config _ _ _ Hp)).
  apply issue_cases in Hi as [(d & -> & ->) |
    (id & g & sd & jd & s & Hplan & -> & Hcfg & _ & _ & _ & Hg & Hj & Hs & _)]; simpl.
  { split; [done |]. intros m. rewrite Hav. lia. }
  destruct Hplan as [_ _ _ P4 P5 P6 _ _], Hrates0 as (R1 & R2 & R3), Hok0 as [B1 B2 B3 B4].
  destruct (debit_available _ _ _ _ _ _ R3 B1 B4 P5) as [B4' A4].
  destruct (debit_available _ _ _ _ _ _ R2 B1 B3 P6) as [B3' A3].
  pose proof (try_take_ideal _ _ _ _ R1 B2 P4) as (G1 & G2 & G3).
  assert (Gb : (0 ≤ tokens (refill (global_bucket (purge_expired t now))
                              (global_rate (config (purge_expired t now))) now)
                ≤ burst (global_rate (config (purge_expired t now))))%Z).
  { apply (available_bounds _ (Some _)); [done |]. by intros ? [= <-]. }
  assert (Bg : bucket_ok (global_rate (config t')) now (global_bucket t')).
  { rewrite Hcfg, Hg. unfold bucket_ok. lia. }
  split; [split; rewrite ?Hcfg, ?Hj, ?Hs; try done; by rewrite <- Hcfg |].
  intros m. rewrite <- Hav. unfold meter_available, meter_bucket. rewrite Hcfg.
  destruct m as [| j | sc]; simpl.
  - rewrite Hcfg in Bg. rewrite refill_ideal by done. simpl. rewrite Hg, G2, Z.sub_diag. lia.
  - specialize (A3 j). rewrite Hj. case_decide; [rewrite bool_decide_eq_true_2 by done |
      rewrite bool_decide_eq_false_2 by done]; done.
  - specialize (A4 sc). rewrite Hs. case_decide; [rewrite bool_decide_eq_true_2 by done |
      rewrite bool_decide_eq_false_2 by done]; done.
Qed.

Lemma step_meters t ev m :
  rates_ok (config t) → buckets_ok (event_time ev) t →
  buckets_ok (event_time ev) (step t ev).1 ∧
  (meter_available (step t ev).1 m (event_time ev) +
     issued_count (meter_counts m) [ev] [(step t ev).2]
   ≤ meter_available t m (event_time ev))%Z.
Proof.
  intros Hrates Hok. destruct ev as [jkt source g now e alloc | c jkt g now]; simpl in *.
  - destruct (issue _ _ _ _ _ _ _) as [t' r] eqn:Hi. simpl.
    destruct (issue_meters _ _ _ _ _ _ _ _ _ Hrates Hok Hi) as [Hok' Hm].
    split; [done |]. specialize (Hm m). destruct r; simpl in *; lia.
  - destruct (consume _ _ _ _ _) as [t' r] eqn:Hc. simpl.
    assert (Hsame : ∃ s, t' = t ∨ t' = remove_record t s).
    { apply consume_cases in Hc as [[-> _] | (? & s & ? & _ & _ & _ & _ & -> & _)].
      - exists []. by left.
      - exists s. by right. }
    destruct Hsame as [s [-> | ->]]; [split; [done | lia] |].
    destruct (remove_record_fields t s) as (_ & _ & F1 & _ & F2 & F3 & F4).
    split; [destruct Hok; by split; rewrite ?F1, ?F2, ?F3, ?F4 |].
    unfold meter_available, meter_bucket. rewrite F1, F2, F3, F4. lia.
Qed.

Lemma run_meters t evs from m :
  rates_ok (config t) → buckets_ok from t → clock_ok from evs →
  buckets_ok (last_time from evs) (run t evs).1 ∧
  (meter_available (run t evs).1 m (last_time from evs) +
     issued_count (meter_counts m) evs (run t evs).2
   ≤ meter_available t m from +
     refill_per_sec (meter_config (config t) m) * (last_time from evs - from))%Z.
Proof.
  revert t from; induction evs as [| ev evs IH]; intros t from Hrates Hok Hclock; simpl in *.
  { split; [done | lia]. }
  destruct Hclock as [Hnow Hclock].
  pose proof (buckets_ok_later _ _ _ Hnow Hok) as Hok'.
  destruct (step_meters t ev m Hrates Hok') as [Hok1 Hstep].
  pose proof (available_later (meter_config (config t) m) (meter_bucket t m) from (event_time ev)
                (meter_rate_ok _ m Hrates) (λ b, meter_bucket_ok from t m b Hok) Hnow) as Hlater.
  pose proof (step_config t ev) as Hcfg.
  destruct (step t ev) as [t1 o]. simpl in *.
  destruct (IH t1 (event_time ev)) as [Hok2 Hrun]; [by rewrite Hcfg | done | done |].
  destruct (run t1 evs) as [t2 os]. simpl in *. split; [done |].
  rewrite Hcfg in Hrun. unfold meter_available in *. rewrite Hcfg in *.
  destruct ev, o as [[] |]; simpl in *; lia.
Qed.

Lemma run_config t evs : config (run t evs).1 = config t.
Proof.
  revert t; induction evs as [| ev evs IH]; intros t; simpl; [done |].
  pose proof (step_config t ev) as Hcfg. destruct (step t ev) as [t1 o]. specialize (IH t1).
  destruct (run t1 evs) as [t2 os]. simpl in *. congruence.
Qed.

Lemma clock_ok_app from evs1 evs2 :
  clock_ok from (evs1 ++ evs2) ↔ clock_ok from evs1 ∧ clock_ok (last_time from evs1) evs2.
Proof.
  revert from; induction evs1 as [| ev evs1 IH]; intros from; simpl; [tauto |]. rewrite IH. tauto.
Qed.

Lemma with_config_buckets c id now :
  rates_ok c → (0 ≤ now ≤ i64_max)%Z → buckets_ok now (with_config c id).
Proof.
  intros ((? & ?) & _ & _) Hnow. split; simpl.
  - unfold_ints. lia.
  - unfold bucket_ok. simpl. unfold_ints. lia.
  - intros k b. by rewrite lookup_empty.
  - intros k b. by rewrite lookup_empty.
Qed.
End rates.

(** Issuance is rate limited over every stretch of every history with a
    clock that does not run backwards.  In the operations [evs2] that follow
    [evs1], the number of challenges issued in total, to one proof key and to
    one source partition is at most that meter's burst plus its sustained rate
    times the time they span; dropping and re-creating a partition's bucket
    does not help. *)
Theorem issuance_rate_bounded `{HashIteration} c id from evs1 evs2 m :
  rates_ok c → (0 ≤ from ≤ i64_max)%Z → clock_ok from (evs1 ++ evs2) →
  let t := (run (with_config c id) evs1).1 in
  let span := (last_time (last_time from evs1) evs2 - last_time from evs1)%Z in
  (issued_count (meter_counts m) evs2 (run t evs2).2
   ≤ burst (meter_config c m) + refill_per_sec (meter_config c m) * span)%Z.
Proof.
  intros Hrates Hfrom [Hclock1 Hclock2]%clock_ok_app t span.
  pose proof (with_config_buckets c id from Hrates Hfrom) as Hok.
  assert (Hrates0 : rates_ok (config (with_config c id))) by done.
  destruct (run_meters _ evs1 from m Hrates0 Hok Hclock1) as [Hok1 _]. fold t in Hok1.
  assert (Hcfg : config t = config (with_config c id)) by apply run_config.
  assert (Hrates1 : rates_ok (config t)) by (by rewrite Hcfg).
  destruct (run_meters t evs2 _ m Hrates1 Hok1 Hclock2) as [Hok2 Hrun].
  pose proof (available_bounds _ _ _ (meter_rate_ok _ m Hrates1)
                (λ b, meter_bucket_ok _ t m b Hok1)) as Hav1.
  assert (Hcfg2 : config (run t evs2).1 = config t) by apply run_config.
  assert (Hrates2 : rates_ok (config (run t evs2).1)) by (by rewrite Hcfg2).
  pose proof (available_bounds _ _ _ (meter_rate_ok _ m Hrates2)
                (λ b, meter_bucket_ok _ _ m b Hok2)) as Hav2.
  assert (Hm : meter_config (config t) m = meter_config c m) by (rewrite Hcfg; by destruct m).
  unfold meter_available in Hrun. rewrite Hm in *. fold span in Hrun. lia.
Qed.

