(* ===== verification/RunQuota.v ===== *)
(** * Per-run operation quotas ([RunQuotaTable] of
      [crates/basil-core/src/core/ci_federation.rs])

    The bounded counters of the operations a CI workload performs per
    [(rule, run, attempt)].  Counts are [u64] and times [i64], as [N] and [Z]
    with Rust's saturating operations; the caller holds one mutex around a
    charge, so a history of the table is a sequence of charges. *)

From stdpp Require Import gmap.
From S2P Require Import Prelude RustStr Challenge.

Definition DEFAULT_MAX_TRACKED_RUN_BUCKETS_PER_RULE : N := 4096.

Record RunQuotaKey := {
  qk_rule_id : string;
  qk_run_id : N;
  qk_run_attempt : N;
}.

#[export] Instance RunQuotaKey_eq_dec : EqDecision RunQuotaKey.
Proof. solve_decision. Defined.
#[export] Instance RunQuotaKey_countable : Countable RunQuotaKey.
Proof.
  refine (inj_countable'
    (λ k, (qk_rule_id k, qk_run_id k, qk_run_attempt k))
    (λ '(r, i, a), {| qk_rule_id := r; qk_run_id := i; qk_run_attempt := a |}) _).
  by intros [].
Defined.

Inductive RunQuotaDenied := QuotaExhausted | QuotaUnavailable | QuotaUntracked.

Record RunQuotaReceipt := {
  charged_count : N;
  remaining : N;
}.

Record RunQuotaBucket := {
  rb_count : N;
  rb_expires_at_unix : Z;
}.

Record RunQuotaTable := {
  max_tracked_buckets_per_rule : N;
  rq_generation : option N;
  counters : gmap RunQuotaKey RunQuotaBucket;
  rule_buckets : gmap string N;
}.

Definition RunQuotaTable_new (max_tracked_buckets_per_rule : N) : RunQuotaTable :=
  {| max_tracked_buckets_per_rule := max_tracked_buckets_per_rule; rq_generation := None;
     counters := ∅; rule_buckets := ∅ |}.

Definition u64_saturating_add (a b : N) : N := N.min (a + b) (2 ^ 64 - 1).
Definition i64_saturating_add (a b : Z) : Z := Z.max (- 2 ^ 63) (Z.min (a + b) (2 ^ 63 - 1)).

(** [now_unix.saturating_add(i64::try_from(retention_secs).unwrap_or(i64::MAX))]. *)
Definition bucket_expiry (now_unix : Z) (retention_secs : N) : Z :=
  i64_saturating_add now_unix (Z.min (Z.of_N retention_secs) (2 ^ 63 - 1)).

Definition set_counters (t : RunQuotaTable) (cs : gmap RunQuotaKey RunQuotaBucket)
    (rbs : gmap string N) : RunQuotaTable :=
  {| max_tracked_buckets_per_rule := max_tracked_buckets_per_rule t;
     rq_generation := rq_generation t; counters := cs; rule_buckets := rbs |}.

Definition rule_bucket_count (t : RunQuotaTable) (rule_id : string) : N :=
  default 0%N (rule_buckets t !! rule_id).

Section table.
Context `{HashIteration}.

(** The body of the loop of [reclaim_expired]. *)
Definition reclaim_one (t : RunQuotaTable) (key : RunQuotaKey) : RunQuotaTable :=
  set_counters t (delete key (counters t))
    match rule_buckets t !! qk_rule_id key with
    | Some count =>
        let count := (count - 1)%N in
        if (count =? 0)%N then delete (qk_rule_id key) (rule_buckets t)
        else <[qk_rule_id key := count]> (rule_buckets t)
    | None => rule_buckets t
    end.

Definition reclaim_expired (t : RunQuotaTable) (now_unix : Z) : RunQuotaTable :=
  let expired :=
    map fst (List.filter (λ e : RunQuotaKey * RunQuotaBucket,
                            (rb_expires_at_unix e.2 <=? now_unix)%Z) (hash_iter (counters t))) in
  foldl reclaim_one t expired.

(** The generation scope: a newer generation resets the counters. *)
Definition enter_generation (t : RunQuotaTable) (generation : N) : RunQuotaTable :=
  match rq_generation t with
  | Some tracked =>
      if (tracked <? generation)%N then
        {| max_tracked_buckets_per_rule := max_tracked_buckets_per_rule t;
           rq_generation := Some generation; counters := ∅; rule_buckets := ∅ |}
      else t
  | None =>
      {| max_tracked_buckets_per_rule := max_tracked_buckets_per_rule t;
         rq_generation := Some generation; counters := counters t;
         rule_buckets := rule_buckets t |}
  end.

Definition charge_with_receipt (t : RunQuotaTable) (generation : N) (key : RunQuotaKey)
    (limit : option N) (retention_secs : N) (now_unix : Z)
    : RunQuotaTable * result RunQuotaDenied RunQuotaReceipt :=
  match limit with
  | None => (t, Err QuotaUnavailable)
  | Some 0%N => (t, Err QuotaExhausted)
  | Some limit =>
      let t := enter_generation t generation in
      let expires_at_unix := bucket_expiry now_unix retention_secs in
      match counters t !! key with
      | Some bucket =>
          let expires_at_unix := Z.max (rb_expires_at_unix bucket) expires_at_unix in
          let store count :=
            set_counters t
              (<[key := {| rb_count := count; rb_expires_at_unix := expires_at_unix |}]>
                 (counters t)) (rule_buckets t) in
          if (limit <=? rb_count bucket)%N then (store (rb_count bucket), Err QuotaExhausted)
          else
            let count := u64_saturating_add (rb_count bucket) 1 in
            (store count, Ok {| charged_count := count; remaining := limit - count |})
      | None =>
          let full t := (max_tracked_buckets_per_rule t <=? rule_bucket_count t (qk_rule_id key))%N in
          let t := if full t then reclaim_expired t now_unix else t in
          if full t then (t, Err QuotaUntracked)
          else
            (set_counters t
               (<[key := {| rb_count := 1; rb_expires_at_unix := expires_at_unix |}]> (counters t))
               (<[qk_rule_id key := (rule_bucket_count t (qk_rule_id key) + 1)%N]> (rule_buckets t)),
             Ok {| charged_count := 1; remaining := limit - 1 |})
      end
  end.

Definition charge (t : RunQuotaTable) (generation : N) (key : RunQuotaKey) (limit : option N)
    (retention_secs : N) (now_unix : Z) : RunQuotaTable * result RunQuotaDenied unit :=
  let '(t, outcome) := charge_with_receipt t generation key limit retention_secs now_unix in
  (t, match outcome with Ok _ => Ok tt | Err e => Err e end).

(** ** Histories *)

Record Charge := {
  c_generation : N;
  c_key : RunQuotaKey;
  c_limit : option N;
  c_retention_secs : N;
  c_now_unix : Z;
}.

Definition charge_step (t : RunQuotaTable) (c : Charge)
    : RunQuotaTable * result RunQuotaDenied RunQuotaReceipt :=
  charge_with_receipt t (c_generation c) (c_key c) (c_limit c) (c_retention_secs c) (c_now_unix c).

Fixpoint charges (t : RunQuotaTable) (cs : list Charge)
    : RunQuotaTable * list (result RunQuotaDenied RunQuotaReceipt) :=
  match cs with
  | [] => (t, [])
  | c :: cs =>
      let '(t, o) := charge_step t c in
      let '(t, os) := charges t cs in
      (t, o :: os)
  end.

(** ** The lockstep invariant *)

Definition of_rule (r : string) (m : gmap RunQuotaKey RunQuotaBucket) :=
  filter (λ e : RunQuotaKey * RunQuotaBucket, qk_rule_id e.1 = r) m.

(** The per-rule counts are exact and no rule exceeds its allowance. *)
Record quota_wf (t : RunQuotaTable) : Prop := {
  qwf_counts : ∀ r, rule_bucket_count t r = N.of_nat (size (of_rule r (counters t)));
  qwf_no_zero : ∀ r, rule_buckets t !! r ≠ Some 0%N;
  qwf_bound : ∀ r, (rule_bucket_count t r <= max_tracked_buckets_per_rule t)%N;
}.

Definition unexpired (now : Z) (m : gmap RunQuotaKey RunQuotaBucket) :=
  filter (λ e : RunQuotaKey * RunQuotaBucket, (now < rb_expires_at_unix e.2)%Z) m.

Lemma of_rule_delete m k b r :
  m !! k = Some b →
  N.of_nat (size (of_rule r (delete k m))) =
  (N.of_nat (size (of_rule r m)) - if decide (qk_rule_id k = r) then 1 else 0)%N.
Proof.
  intros Hk. unfold of_rule. rewrite map_filter_delete. destruct (decide _) as [Hr | Hr].
  - rewrite map_size_delete_Some; [lia |]. exists b. by apply map_lookup_filter_Some.
  - rewrite map_size_delete_None; [lia |]. apply map_lookup_filter_None. right. intros ? ?. done.
Qed.

Lemma of_rule_insert m k b r :
  m !! k = None →
  N.of_nat (size (of_rule r (<[k := b]> m))) =
  (N.of_nat (size (of_rule r m)) + if decide (qk_rule_id k = r) then 1 else 0)%N.
Proof.
  intros Hk. unfold of_rule. destruct (decide _) as [Hr | Hr].
  - rewrite map_filter_insert_True by done. rewrite map_size_insert_None; [lia |].
    apply map_lookup_filter_None. by left.
  - rewrite map_filter_insert_False, delete_id by done. lia.
Qed.

Lemma of_rule_replace m k b b' r :
  m !! k = Some b → size (of_rule r (<[k := b']> m)) = size (of_rule r m).
Proof.
  intros Hk. unfold of_rule. destruct (decide (qk_rule_id k = r)) as [Hr | Hr].
  - rewrite map_filter_insert_True by done. rewrite map_size_insert_Some; [done |].
    exists b. by apply map_lookup_filter_Some.
  - rewrite map_filter_insert_False by done. rewrite map_filter_delete, map_size_delete_None; [done |].
    apply map_lookup_filter_None. right. intros ? ?. done.
Qed.
Lemma reclaim_one_wf t k b :
  quota_wf t → counters t !! k = Some b → quota_wf (reclaim_one t k).
Proof.
  intros [Hc Hz Hb] Hk.
  assert (∀ r, rule_bucket_count (reclaim_one t k) r =
    (rule_bucket_count t r - if decide (qk_rule_id k = r) then 1 else 0)%N) as E.
  { intros r. unfold reclaim_one, rule_bucket_count. simpl.
    destruct (decide _) as [<- | Hr]; case_match; try case_match; bool_facts;
      simplify_map_eq; (done || lia || by rewrite N.sub_0_r). }
  split.
  - intros r. rewrite E, Hc. simpl. by rewrite (of_rule_delete _ _ b).
  - intros r. unfold reclaim_one. simpl. specialize (Hz r).
    destruct (decide (qk_rule_id k = r)) as [<- | Hr]; case_match; try case_match; bool_facts;
      simplify_map_eq; (done || congruence).
  - intros r. rewrite E. specialize (Hb r). simpl. lia.
Qed.

Lemma reclaim_fold l : ∀ t,
  quota_wf t → NoDup l → (∀ k, k ∈ l → is_Some (counters t !! k)) →
  let t' := foldl reclaim_one t l in
  quota_wf t' ∧ (∀ k, counters t' !! k = if decide (k ∈ l) then None else counters t !! k) ∧
  max_tracked_buckets_per_rule t' = max_tracked_buckets_per_rule t ∧
  rq_generation t' = rq_generation t.
Proof.
  induction l as [| k l IH]; intros t Hwf Hnd Hl; [done |].
  apply list.NoDup_cons in Hnd as [Hk Hnd]. destruct (Hl k) as [b Hb]; [left |].
  destruct (IH (reclaim_one t k)) as (Hwf' & Hm & Hmax & Hgen).
  - by eapply reclaim_one_wf.
  - done.
  - intros k' Hk'. unfold reclaim_one. simpl. rewrite lookup_delete_ne by (by intros ->).
    apply Hl. by right.
  - simpl. split_and!; [done | | by rewrite Hmax | by rewrite Hgen].
    intros k'. rewrite Hm. unfold reclaim_one. simpl.
    destruct (decide (k' = k)) as [-> | Hne].
    + rewrite lookup_delete_eq, (decide_True (P := k ∈ k :: l)) by left. by destruct (decide _).
    + rewrite lookup_delete_ne by done.
      destruct (decide (k' ∈ l)), (decide (k' ∈ k :: l)) as [He | He]; try done.
      * destruct He. by right.
      * by apply elem_of_cons in He as [].
Qed.

Lemma NoDup_fmap_fst_filter (m : gmap RunQuotaKey RunQuotaBucket) p :
  NoDup (map fst (List.filter p (hash_iter m))).
Proof.
  assert (NoDup (map fst (hash_iter m))) as Hnd.
  { change (NoDup (hash_iter m).*1). rewrite hash_iter_perm. apply NoDup_fst_map_to_list. }
  induction (hash_iter m) as [| [k b] l IH]; [constructor |].
  simpl in Hnd. apply list.NoDup_cons in Hnd as [Hk Hnd]. simpl. case_match; [| by apply IH].
  simpl. constructor; [| by apply IH]. intros Hin. apply Hk.
  apply list_elem_of_fmap in Hin as ([k' b'] & -> & Hin). apply list_elem_of_In, filter_In in Hin as [Hin _].
  apply list_elem_of_fmap. exists (k', b'). split; [done | by apply list_elem_of_In].
Qed.

(** Reclaiming keeps exactly the unexpired buckets, in whatever order the map
    is enumerated. *)
Lemma reclaim_expired_spec t now :
  quota_wf t →
  quota_wf (reclaim_expired t now) ∧
  counters (reclaim_expired t now) = unexpired now (counters t) ∧
  max_tracked_buckets_per_rule (reclaim_expired t now) = max_tracked_buckets_per_rule t ∧
  rq_generation (reclaim_expired t now) = rq_generation t.
Proof.
  intros Hwf. unfold reclaim_expired.
  set (l := map fst _).
  assert (∀ k, k ∈ l ↔ ∃ b, counters t !! k = Some b ∧ (rb_expires_at_unix b <= now)%Z) as Hl.
  { intros k. unfold l. rewrite list_elem_of_fmap. split.
    - intros ([k' b] & -> & Hin). apply list_elem_of_In, filter_In in Hin as [Hin He].
      apply list_elem_of_In in Hin. rewrite hash_iter_perm in Hin.
      apply elem_of_map_to_list in Hin. exists b. split; [done |]. simpl in He. by apply Z.leb_le.
    - intros (b & Hb & He). exists (k, b). split; [done |].
      apply list_elem_of_In, filter_In. split; [| by apply Z.leb_le].
      apply list_elem_of_In. rewrite hash_iter_perm. by apply elem_of_map_to_list. }
  destruct (reclaim_fold l t Hwf) as (Hwf' & Hm & Hmax & Hgen).
  - unfold l. apply (NoDup_fmap_fst_filter (counters t)).
  - intros k (b & Hb & _)%Hl. by exists b.
  - split_and!; [done | | done | done]. apply map_eq. intros k. rewrite Hm.
    destruct (decide (k ∈ l)) as [Hin | Hin]; rewrite Hl in Hin.
    + destruct Hin as (b & Hb & He). symmetry. apply map_lookup_filter_None. right.
      intros b' Hb'. simplify_eq. simpl. lia.
    + destruct (counters t !! k) as [b |] eqn:Hb; symmetry.
      * apply map_lookup_filter_Some. split; [done |]. simpl.
        destruct (Z.le_gt_cases (rb_expires_at_unix b) now); [| lia]. destruct Hin. by exists b.
      * apply map_lookup_filter_None. by left.
Qed.
Lemma enter_generation_wf t g : quota_wf t → quota_wf (enter_generation t g).
Proof.
  intros [Hc Hz Hb]. unfold enter_generation. repeat case_match; split; simpl; try done.
  intros r. unfold rule_bucket_count. simpl. rewrite lookup_empty. simpl. lia.
Qed.

Lemma enter_generation_id t g g0 :
  rq_generation t = Some g0 → (g <= g0)%N → enter_generation t g = t.
Proof. intros E Hle. unfold enter_generation. rewrite E. by rewrite (proj2 (N.ltb_ge _ _)). Qed.

Lemma rule_bucket_count_insert t cs r n r' :
  rule_bucket_count (set_counters t cs (<[r := n]> (rule_buckets t))) r' =
  if decide (r = r') then n else rule_bucket_count t r'.
Proof.
  unfold rule_bucket_count. simpl. destruct (decide _) as [-> |].
  - by rewrite lookup_insert_eq.
  - by rewrite lookup_insert_ne.
Qed.

(** A new bucket is admitted under the allowance only. *)
Lemma new_bucket_wf t k b :
  quota_wf t → counters t !! k = None →
  (rule_bucket_count t (qk_rule_id k) < max_tracked_buckets_per_rule t)%N →
  quota_wf (set_counters t (<[k := b]> (counters t))
    (<[qk_rule_id k := (rule_bucket_count t (qk_rule_id k) + 1)%N]> (rule_buckets t))).
Proof.
  intros [Hc Hz Hb] Hk Hlt. split.
  - intros r. rewrite rule_bucket_count_insert. simpl. rewrite of_rule_insert by done.
    destruct (decide _) as [<- |]; rewrite Hc; lia.
  - intros r. simpl. destruct (decide (qk_rule_id k = r)) as [<- |].
    + rewrite lookup_insert_eq. intros [= E]. lia.
    + rewrite lookup_insert_ne by done. apply Hz.
  - intros r. rewrite rule_bucket_count_insert. simpl. specialize (Hb r).
    destruct (decide _) as [<- |]; lia.
Qed.

Lemma replace_bucket_wf t k b b' :
  quota_wf t → counters t !! k = Some b →
  quota_wf (set_counters t (<[k := b']> (counters t)) (rule_buckets t)).
Proof.
  intros [Hc Hz Hb] Hk. split; [| done | done].
  intros r. simpl. rewrite (of_rule_replace _ _ b) by done. apply Hc.
Qed.

(** A step of the table, by cases of the code. *)
Inductive charge_cases (t : RunQuotaTable) (c : Charge)
    : RunQuotaTable → result RunQuotaDenied RunQuotaReceipt → Prop :=
| ChargeRefused o :
    c_limit c = None ∧ o = Err QuotaUnavailable ∨ c_limit c = Some 0%N ∧ o = Err QuotaExhausted →
    charge_cases t c t o
| ChargeTracked L t0 b b' o :
    c_limit c = Some L → (0 < L)%N → t0 = enter_generation t (c_generation c) →
    counters t0 !! c_key c = Some b →
    rb_expires_at_unix b' =
      Z.max (rb_expires_at_unix b) (bucket_expiry (c_now_unix c) (c_retention_secs c)) →
    (if (L <=? rb_count b)%N then rb_count b' = rb_count b ∧ o = Err QuotaExhausted
     else rb_count b' = u64_saturating_add (rb_count b) 1 ∧
          o = Ok {| charged_count := rb_count b'; remaining := L - rb_count b' |}) →
    charge_cases t c (set_counters t0 (<[c_key c := b']> (counters t0)) (rule_buckets t0)) o
| ChargeUntracked L t0 t1 :
    c_limit c = Some L → (0 < L)%N → t0 = enter_generation t (c_generation c) →
    counters t0 !! c_key c = None → t1 = reclaim_expired t0 (c_now_unix c) →
    (max_tracked_buckets_per_rule t0 <= rule_bucket_count t1 (qk_rule_id (c_key c)))%N →
    (max_tracked_buckets_per_rule t0 <= rule_bucket_count t0 (qk_rule_id (c_key c)))%N →
    charge_cases t c t1 (Err QuotaUntracked)
| ChargeOpened L t0 t1 :
    c_limit c = Some L → (0 < L)%N → t0 = enter_generation t (c_generation c) →
    counters t0 !! c_key c = None →
    (t1 = t0 ∨ t1 = reclaim_expired t0 (c_now_unix c)) →
    (rule_bucket_count t1 (qk_rule_id (c_key c)) < max_tracked_buckets_per_rule t1)%N →
    charge_cases t c
      (set_counters t1
         (<[c_key c := {| rb_count := 1;
                          rb_expires_at_unix := bucket_expiry (c_now_unix c) (c_retention_secs c) |}]>
            (counters t1))
         (<[qk_rule_id (c_key c) := (rule_bucket_count t1 (qk_rule_id (c_key c)) + 1)%N]>
            (rule_buckets t1)))
      (Ok {| charged_count := 1; remaining := L - 1 |}).

Lemma charge_step_cases t c :
  quota_wf t → charge_cases t c (charge_step t c).1 (charge_step t c).2.
Proof.
  intros Hwf. unfold charge_step, charge_with_receipt.
  destruct (c_limit c) as [[| p] |] eqn:El; simpl.
  - constructor. by right.
  - set (t0 := enter_generation t (c_generation c)).
    assert (quota_wf t0) as Hwf0 by (by apply enter_generation_wf).
    destruct (counters t0 !! c_key c) as [b |] eqn:Ek.
    + destruct (N.leb_spec (N.pos p) (rb_count b)) as [Hle | Hlt]; simpl;
        (eapply ChargeTracked; [done | lia | done | done | done |]); simpl.
      * by rewrite (proj2 (N.leb_le _ _)).
      * by rewrite (proj2 (N.leb_gt _ _)).
    + destruct (reclaim_expired_spec t0 (c_now_unix c) Hwf0) as (_ & _ & Hmax & _).
      destruct (N.leb_spec (max_tracked_buckets_per_rule t0)
                  (rule_bucket_count t0 (qk_rule_id (c_key c)))) as [Hf | Hf].
      * cbn iota. case_match eqn:Hf2; bool_facts; simpl.
        -- eapply ChargeUntracked; [done | lia | done | done | done | fold t0; lia | done].
        -- eapply ChargeOpened; [done | lia | done | done | by right | lia].
      * rewrite (proj2 (N.leb_gt _ _)) by done. simpl.
        eapply ChargeOpened; [done | lia | done | done | by left | lia].
  - constructor. by left.
Qed.

(** Every charge preserves the table invariant. *)
Lemma charge_step_wf t c : quota_wf t → quota_wf (charge_step t c).1.
Proof.
  intros Hwf. destruct (charge_step_cases t c Hwf) as [| ? ? b | | ? ? ? ? ? -> Hk Ht1];
    [done | | |]; subst.
  - eapply replace_bucket_wf; [by apply enter_generation_wf | done].
  - by apply reclaim_expired_spec, enter_generation_wf.
  - apply new_bucket_wf; [| | done]; destruct Ht1 as [-> | ->].
    + by apply enter_generation_wf.
    + by apply reclaim_expired_spec, enter_generation_wf.
    + done.
    + destruct (reclaim_expired_spec (enter_generation t (c_generation c)) (c_now_unix c))
        as (_ & -> & _); [by apply enter_generation_wf |].
      apply map_lookup_filter_None. by left.
Qed.
Lemma charges_wf cs : ∀ t, quota_wf t → quota_wf (charges t cs).1.
Proof.
  induction cs as [| c cs IH]; intros t Hwf; [done |]. simpl.
  pose proof (charge_step_wf t c Hwf) as Hwf'. destruct (charge_step t c) as [t' o].
  specialize (IH t' Hwf'). by destruct (charges t' cs).
Qed.

Lemma charge_step_max t c :
  quota_wf t →
  max_tracked_buckets_per_rule (charge_step t c).1 = max_tracked_buckets_per_rule t.
Proof.
  intros Hwf.
  assert (quota_wf (enter_generation t (c_generation c))) as Hwf0 by (by apply enter_generation_wf).
  destruct (reclaim_expired_spec _ (c_now_unix c) Hwf0) as (_ & _ & Hmax & _).
  assert (max_tracked_buckets_per_rule (enter_generation t (c_generation c))
          = max_tracked_buckets_per_rule t) as E by (unfold enter_generation; by repeat case_match).
  destruct (charge_step_cases t c Hwf) as [| ? ? ? ? ? ? ? -> | | ? ? ? ? ? -> ? [-> | ->]]; simpl;
    congruence.
Qed.

Lemma charges_max cs : ∀ t, quota_wf t →
  max_tracked_buckets_per_rule (charges t cs).1 = max_tracked_buckets_per_rule t.
Proof.
  induction cs as [| c cs IH]; intros t Hwf; [done |]. simpl.
  pose proof (charge_step_wf t c Hwf) as Hwf'. pose proof (charge_step_max t c Hwf) as Hm.
  destruct (charge_step t c) as [t' o]. specialize (IH t' Hwf').
  destruct (charges t' cs). simpl in *. congruence.
Qed.

Lemma new_wf n : quota_wf (RunQuotaTable_new n).
Proof.
  split; unfold rule_bucket_count; simpl; intros r; rewrite ?lookup_empty; [done .. |].
  simpl. lia.
Qed.

(** C29: in every table a history of charges can produce, the per-rule counts are exactly the
    numbers of tracked buckets of the rules, and no rule holds more buckets than its allowance: a
    tenant that opens many runs cannot grow the table past the bound, nor drift the counters the
    bound is checked with. *)
Theorem run_quota_table_bounded n cs r :
  let t := (charges (RunQuotaTable_new n) cs).1 in
  rule_bucket_count t r = N.of_nat (size (of_rule r (counters t))) ∧
  (rule_bucket_count t r <= n)%N ∧
  (rule_buckets t !! r = None ↔ of_rule r (counters t) = ∅).
Proof.
  intros t. destruct (charges_wf cs _ (new_wf n)) as [Hc Hz Hb]. fold t in Hc, Hz, Hb.
  split_and!; [apply Hc | |].
  - specialize (Hb r). unfold t in *. by rewrite charges_max in Hb by apply new_wf.
  - specialize (Hc r). specialize (Hz r). unfold rule_bucket_count in Hc.
    rewrite <- map_size_empty_iff. destruct (rule_buckets t !! r) as [m |]; simpl in Hc; [| split; [intros _; lia | done]].
    split; [done |]. intros E. destruct m; [done | lia].
Qed.

(** A new run is refused for lack of room exactly when its own rule already has its whole
    allowance in buckets that have not expired; buckets of other rules and expired ones never
    deny it. *)
Theorem run_quota_untracked_iff t c :
  quota_wf t →
  (charge_step t c).2 = Err QuotaUntracked ↔
  (∃ L, c_limit c = Some L ∧ (0 < L)%N) ∧
  let t0 := enter_generation t (c_generation c) in
  counters t0 !! c_key c = None ∧
  (max_tracked_buckets_per_rule t0 <=
   N.of_nat (size (of_rule (qk_rule_id (c_key c)) (unexpired (c_now_unix c) (counters t0)))))%N.
Proof.
  intros Hwf. cbv zeta. set (t0 := enter_generation t (c_generation c)).
  assert (quota_wf t0) as Hwf0 by (by apply enter_generation_wf).
  destruct (reclaim_expired_spec t0 (c_now_unix c) Hwf0) as ([Hc _ _] & Hm & Hmax & _).
  specialize (Hc (qk_rule_id (c_key c))). rewrite Hm in Hc. rewrite <- Hc.
  pose proof (charge_step_cases t c Hwf) as Hcases.
  destruct (charge_step t c) as [t' o]. simpl in *.
  destruct Hcases as [o [[E ->] | [E ->]] | L t1 b b' o E HL -> Hk _ Ho | L t1 t2 E HL -> Hk -> H1 H2
                     | L t1 t2 E HL -> Hk Ht H1].
  - split; [done | intros [(L & E' & HL) _]; congruence].
  - split; [done | intros [(L & E' & HL) _]]. rewrite E in E'. injection E' as <-. lia.
  - fold t0 in Hk. split; [| intros (_ & Hk' & _); congruence].
    intros ->. case_match; by destruct Ho.
  - split; [| done]. intros _. split; [by eauto |]. done.
  - split; [done |]. intros (_ & _ & H2). fold t0 in Ht. destruct Ht as [-> | ->].
    + assert (rule_bucket_count (reclaim_expired t0 (c_now_unix c)) (qk_rule_id (c_key c)) <=
              rule_bucket_count t0 (qk_rule_id (c_key c)))%N; [| lia].
      rewrite Hc. destruct Hwf0 as [Hc0 _ _]. rewrite Hc0.
      assert (size (of_rule (qk_rule_id (c_key c)) (unexpired (c_now_unix c) (counters t0))) <=
              size (of_rule (qk_rule_id (c_key c)) (counters t0)))%nat; [| lia].
      apply map_subseteq_size, map_subseteq_spec. intros k b.
      unfold of_rule, unexpired. rewrite !map_lookup_filter_Some. naive_solver.
    + lia.
Qed.
(** ** No run is over-admitted *)

(** The operations of a run the table has admitted so far. *)
Definition used (t : RunQuotaTable) (k : RunQuotaKey) : N :=
  match counters t !! k with Some b => rb_count b | None => 0 end.

Fixpoint admitted (k : RunQuotaKey) (cs : list Charge)
    (os : list (result RunQuotaDenied RunQuotaReceipt)) : N :=
  match cs, os with
  | c :: cs, o :: os =>
      ((if bool_decide (c_key c = k) then match o with Ok _ => 1 | Err _ => 0 end else 0)
       + admitted k cs os)%N
  | _, _ => 0
  end.

(** No charge of another run comes after the retention window of the last
    attempt of [k]; [e] is the end of that window, once [k] has been seen. *)
Fixpoint retained (k : RunQuotaKey) (e : option Z) (cs : list Charge) : Prop :=
  match cs with
  | [] => True
  | c :: cs =>
      let here := bucket_expiry (c_now_unix c) (c_retention_secs c) in
      if bool_decide (c_key c = k) then retained k (Some here) cs
      else match e with Some e => (c_now_unix c < e)%Z | None => True end ∧ retained k e cs
  end.

(** The bucket of [k] is kept at least until [e]. *)
Definition kept (t : RunQuotaTable) (k : RunQuotaKey) (e : option Z) : Prop :=
  match counters t !! k with
  | Some b => ∃ e', e = Some e' ∧ (e' <= rb_expires_at_unix b)%Z
  | None => True
  end.

(** A charge of another run leaves the bucket of [k] alone while it is retained. *)
Lemma other_charge t c k e g :
  quota_wf t → rq_generation t = Some g → (c_generation c <= g)%N → c_key c ≠ k →
  kept t k e → match e with Some e => (c_now_unix c < e)%Z | None => True end →
  counters (charge_step t c).1 !! k = counters t !! k ∧ rq_generation (charge_step t c).1 = Some g.
Proof.
  intros Hwf Hg Hle Hne Hkept He. pose proof (enter_generation_id t _ _ Hg Hle) as Et.
  destruct (reclaim_expired_spec t (c_now_unix c) Hwf) as (_ & Hm & _ & Hg').
  assert (counters (reclaim_expired t (c_now_unix c)) !! k = counters t !! k) as Hr.
  { rewrite Hm. unfold kept in Hkept. destruct (counters t !! k) as [b |] eqn:Hb.
    - destruct Hkept as (e' & -> & Hlt). apply map_lookup_filter_Some. split; [done | simpl; lia].
    - apply map_lookup_filter_None. by left. }
  destruct (charge_step_cases t c Hwf) as [| ? ? ? ? ? ? ? -> | ? ? ? ? ? -> ? -> | ? ? ? ? ? -> ? Ht];
    rewrite ?Et in *.
  - done.
  - simpl. by rewrite lookup_insert_ne.
  - by rewrite Hg'.
  - simpl. rewrite lookup_insert_ne by done. destruct Ht as [-> | ->]; by rewrite ?Hg'.
Qed.

(** A charge of [k] itself. *)
Lemma own_charge t c k e g L :
  quota_wf t → rq_generation t = Some g → (c_generation c <= g)%N → c_key c = k →
  c_limit c = Some L → (0 < L < 2 ^ 64)%N → kept t k e →
  let '(t', o) := charge_step t c in
  let here := bucket_expiry (c_now_unix c) (c_retention_secs c) in
  kept t' k (Some here) ∧
  rq_generation t' = Some g ∧
  match o with
  | Ok r => used t' k = (used t k + 1)%N ∧ (used t' k <= L)%N ∧
            charged_count r = used t' k ∧ remaining r = (L - used t' k)%N
  | Err _ => used t' k = used t k
  end.
Proof.
  intros Hwf Hg Hle Hk HL HL0 Hkept. pose proof (enter_generation_id t _ _ Hg Hle) as Et.
  destruct (reclaim_expired_spec t (c_now_unix c) Hwf) as (_ & Hm & _ & Hg').
  pose proof (charge_step_cases t c Hwf) as Hcases. destruct (charge_step t c) as [t' o].
  simpl in Hcases.
  destruct Hcases as [o Hr | L' t0 b b' o E HL' -> Hb He Ho | L' t0 t1 E HL' -> Hb -> H1 H2
                     | L' t0 t1 E HL' -> Hb Ht H1];
    rewrite ?Et, ?Hk in *; simplify_eq.
  - destruct Hr as [[? ->] | [? ->]]; simplify_eq. lia.
  - unfold kept, used in *. simpl. rewrite lookup_insert_eq, Hb.
    split_and!; [eexists; split; [done | lia] | done |].
    destruct (N.leb_spec L (rb_count b)); destruct Ho as [Ho ->]; [done |].
    rewrite Ho. unfold u64_saturating_add. simpl. lia.
  - assert (counters (reclaim_expired t (c_now_unix c)) !! c_key c = None) as Hn.
    { rewrite Hm. apply map_lookup_filter_None. by left. }
    unfold kept, used. rewrite Hn, Hb. by rewrite Hg'.
  - unfold kept, used in *. simpl. rewrite lookup_insert_eq, Hb. simpl.
    split_and!; [eexists; split; [done | lia] | by destruct Ht as [-> | ->]; rewrite ?Hg' | lia ..].
Qed.

(** The window the bucket of [k] already has. *)
Definition bucket_window (t : RunQuotaTable) (k : RunQuotaKey) : option Z :=
  rb_expires_at_unix <$> counters t !! k.

Lemma admitted_bounded k L g cs : ∀ t e,
  (0 < L < 2 ^ 64)%N → quota_wf t → rq_generation t = Some g →
  Forall (λ c, (c_generation c <= g)%N ∧ (c_key c = k → c_limit c = Some L)) cs →
  kept t k e → retained k e cs →
  (used t k + admitted k cs (charges t cs).2 <= N.max L (used t k))%N.
Proof.
  induction cs as [| c cs IH]; intros t e HL Hwf Hg Hcs Hkept Hret; [simpl; lia |].
  apply list.Forall_cons in Hcs as [[Hle Hlim] Hcs]. simpl in *.
  pose proof (charge_step_wf t c Hwf) as Hwf'.
  destruct (bool_decide_reflect (c_key c = k)) as [Hk | Hk].
  - pose proof (own_charge t c k e g L Hwf Hg Hle Hk (Hlim Hk) HL Hkept) as Ho.
    destruct (charge_step t c) as [t' o]. destruct Ho as (Hkept' & Hg' & Ho).
    specialize (IH t' _ HL Hwf' Hg' Hcs Hkept' Hret).
    destruct (charges t' cs) as [t'' os]. simpl in *. destruct o; lia.
  - destruct Hret as [He Hret].
    destruct (other_charge t c k e g Hwf Hg Hle Hk Hkept He) as [Hsame Hg'].
    destruct (charge_step t c) as [t' o]. simpl in *.
    assert (used t' k = used t k) as Hu by (unfold used; by rewrite Hsame).
    assert (kept t' k e) as Hkept' by (unfold kept; by rewrite Hsame).
    specialize (IH t' _ HL Hwf' Hg' Hcs Hkept' Hret).
    destruct (charges t' cs) as [t'' os]. simpl in *. lia.
Qed.

(** C16: a workflow run never performs more operations than its rule's quota.  Take any history of
    charges, by any rules and runs, in which the serving generation does not advance past the
    table's and every other charge falls inside the retention window of the run's last attempt:
    the number of the run's charges that are admitted, added to those its bucket already counts,
    does not exceed the limit, or what the bucket already counted if that is more. *)
Theorem run_quota_never_over_admits t k L g cs :
  quota_wf t → rq_generation t = Some g → (0 < L < 2 ^ 64)%N →
  Forall (λ c, (c_generation c <= g)%N ∧ (c_key c = k → c_limit c = Some L)) cs →
  retained k (bucket_window t k) cs →
  (used t k + admitted k cs (charges t cs).2 <= N.max L (used t k))%N.
Proof.
  intros Hwf Hg HL Hcs Hret. eapply admitted_bounded; try done.
  unfold kept, bucket_window. destruct (counters t !! k); simpl; [| done].
  eexists. split; [done | lia].
Qed.
End table.

(** A rule with a quota of two and room for one run: the first run is admitted twice and then
    refused, while another run of the rule finds no room. *)
Definition sample_run (attempt : N) : RunQuotaKey :=
  {| qk_rule_id := "release"; qk_run_id := 7; qk_run_attempt := attempt |}.
Definition sample_charge (attempt : N) (now : Z) : Charge :=
  {| c_generation := 3; c_key := sample_run attempt; c_limit := Some 2%N; c_retention_secs := 930;
     c_now_unix := now |}.
Definition sample_quota_table : RunQuotaTable :=
  (charges (RunQuotaTable_new 1) [sample_charge 1 100]).1.
Definition sample_charges : list Charge :=
  [sample_charge 1 110; sample_charge 2 120; sample_charge 1 130].

Lemma run_quota_never_over_admits_witness :
  admitted (sample_run 1) sample_charges (charges sample_quota_table sample_charges).2 = 1%N ∧
  (used sample_quota_table (sample_run 1) +
   admitted (sample_run 1) sample_charges (charges sample_quota_table sample_charges).2 <=
   N.max 2 (used sample_quota_table (sample_run 1)))%N.
Proof.
  split; [by vm_compute |].
  apply (run_quota_never_over_admits sample_quota_table (sample_run 1) 2 3 sample_charges).
  - apply charges_wf, new_wf.
  - reflexivity.
  - lia.
  - by repeat constructor.
  - vm_compute. auto.
Defined.

