(* ===== verification/NixFingerprint.v ===== *)
(** * Nix path fingerprints
      ([crates/basil-core/src/core/nix_cache_fingerprint.rs])

    [PathInfoV1_parse] is the gate before a Nix cache key signs: it admits the
    canonical text of one path record.  [PathInfo] is that record and [render_info]
    its text; parsing is shown to admit exactly the rendered well-formed
    records, each text standing for one record. *)

From stdpp Require Import pretty.
From S2P Require Import Prelude RustStr Bytes BTreeMap.

Definition MAX_PATH_INFO_V1_LEN : N := 524626.
Definition MAX_REFERENCES : N := 2048.
Definition NIX32 : string := "0123456789abcdfghijklmnpqrsvwxyz".
Definition STORE_PREFIX : string := "/nix/store/".

Record PathInfoV1 := { pi_bytes : bytes_ }.

Inductive PathInfoV1Error :=
| PiLength | PiUtf8 | PiControlCharacter | PiFieldCount | PiVersion | PiStorePath | PiNarHash
| PiNarSize | PiReferenceOrder | PiReferenceCount | PiNonCanonical.

(** ** The validators *)

(** [NIX32.contains(character)]. *)
Definition nix32_char (c : N) : bool := existsb (N.eqb c) (bytes NIX32).

Definition validate_nar_hash (value : string) : result PathInfoV1Error unit :=
  match strip_prefix "sha256:" value with
  | None => Err PiNarHash
  | Some encoded =>
      return_err PiNarHash
        when negb (String.length encoded =? 52)%nat || negb (forallb nix32_char (chars encoded))
        otherwise Ok tt
  end.

(** [value.parse::<u64>()]. *)
Definition parse_u64 (s : string) : option N :=
  let digits := match bytes s with 43%N :: rest => rest | l => l end in
  match digits with
  | [] => None
  | _ => match parse_digits 0 digits with
         | Some n => if (n <? 2 ^ 64)%N then Some n else None
         | None => None
         end
  end.

Definition validate_nar_size (value : string) : result PathInfoV1Error unit :=
  return_err PiNarSize
    when is_empty value || String.eqb value "0"
         || (starts_with "0" value && (1 <? String.length value)%nat)
         || negb (forallb is_ascii_digit (bytes value))
         || match parse_u64 value with None => true | Some _ => false end
    otherwise Ok tt.

(** [+ - . _ ? =] and the alphanumerics. *)
Definition is_store_name_byte (b : N) : bool :=
  is_ascii_alphanumeric b || existsb (N.eqb b) (bytes "+-._?=").

Definition validate_store_path (value : string) : result PathInfoV1Error unit :=
  match strip_prefix STORE_PREFIX value with
  | None => Err PiStorePath
  | Some base_name =>
      match split_once "-"%char base_name with
      | None => Err PiStorePath
      | Some (hash, name) =>
          return_err PiStorePath
            when negb (String.length hash =? 32)%nat || negb (forallb nix32_char (chars hash))
                 || is_empty name || (211 <? String.length name)%nat
                 || String.eqb name "." || String.eqb name ".." || starts_with "." name
                 || negb (forallb is_store_name_byte (bytes name))
            otherwise Ok tt
      end
  end.

(** The loop over the references. *)
Fixpoint validate_references (references : list string) (count : N) (previous : option string)
    : result PathInfoV1Error unit :=
  match references with
  | [] => Ok tt
  | reference :: references =>
      let count := N.min (2 ^ 64 - 1) (count + 1) in
      return_err PiReferenceCount when (MAX_REFERENCES <? count)%N otherwise
      let? _ := validate_store_path reference in
      return_err PiReferenceOrder
        when match previous with
             | Some prior => match cmp prior reference with Lt => false | _ => true end
             | None => false
             end otherwise
      validate_references references count (Some reference)
  end.

(** [u8::is_ascii_control]. *)
Definition is_ascii_control (b : N) : bool := ((b <? 32) || (b =? 127))%N.

Definition PathInfoV1_parse (input : bytes_) : result PathInfoV1Error PathInfoV1 :=
  return_err PiLength
    when match input with [] => true | _ => false end
         || (MAX_PATH_INFO_V1_LEN <? N.of_nat (length input))%N otherwise
  let? text := ok_or PiUtf8 (from_utf8 input) in
  return_err PiControlCharacter when existsb is_ascii_control (bytes text) otherwise
  match split ";"%char text with
  | [version; path; nar_hash; nar_size; references] =>
      return_err PiVersion when negb (String.eqb version "1") otherwise
      let? _ := validate_store_path path in
      let? _ := validate_nar_hash nar_hash in
      let? _ := validate_nar_size nar_size in
      let? _ :=
        if is_empty references then Ok tt
        else validate_references (split ","%char references) 0 None in
      let rendered := "1;" +:+ path +:+ ";" +:+ nar_hash +:+ ";" +:+ nar_size +:+ ";" +:+ references in
      return_err PiNonCanonical when negb (bool_decide (bytes rendered = input)) otherwise
      Ok {| pi_bytes := input |}
  | _ => Err PiFieldCount
  end.

(** ** Specification *)

Record StorePath := { sp_hash : string; sp_name : string }.

Record PathInfo := {
  info_path : StorePath;
  info_nar_hash : string;
  info_nar_size : N;
  info_references : list StorePath;
}.

Definition render_path (p : StorePath) : string := STORE_PREFIX +:+ sp_hash p +:+ "-" +:+ sp_name p.

Definition info_fields (i : PathInfo) : list string :=
  ["1"; render_path (info_path i); "sha256:" +:+ info_nar_hash i; to_string (info_nar_size i);
   join ","%char (map render_path (info_references i))].

Definition render_info (i : PathInfo) : string := join ";"%char (info_fields i).

(** [n] digits of Nix's base 32. *)
Definition nix32 (n : nat) (s : string) : Prop :=
  String.length s = n ∧ forallb nix32_char (bytes s) = true.

Record store_path_ok (p : StorePath) : Prop := {
  spo_hash : nix32 32 (sp_hash p);
  spo_name : forallb is_store_name_byte (bytes (sp_name p)) = true;
  spo_len : 1 ≤ String.length (sp_name p) ≤ 211;
  spo_dot : starts_with "." (sp_name p) = false;
}.

Record path_info_ok (i : PathInfo) : Prop := {
  pio_path : store_path_ok (info_path i);
  pio_nar_hash : nix32 52 (info_nar_hash i);
  pio_nar_size : (0 < info_nar_size i < 2 ^ 64)%N;
  pio_references : Forall store_path_ok (info_references i);
  pio_sorted : set_sorted (map render_path (info_references i));
  pio_count : length (info_references i) ≤ 2048;
}.

(** ** UTF-8 pieces *)

Definition ascii_headed (l : bytes_) : Prop := match l with [] => True | b :: _ => (b < 128)%N end.

Lemma not_continuation lo hi b : (b < 128)%N → (128 ≤ lo)%N → in_range lo hi b = false.
Proof. intros. unfold in_range. apply andb_false_iff. left. apply N.leb_gt. lia. Qed.

(** A multi-byte character that runs into an ASCII byte. *)
Ltac utf8_stuck y Hy :=
  let H := fresh in
  intros H; exfalso; destruct y as [| ? [| ? [| ? ?]]]; simpl in H, Hy; try discriminate H;
  match type of H with context [in_range ?lo ?hi ?b] =>
    rewrite (not_continuation lo hi b Hy) in H by (done || (case_match; done));
    rewrite ?andb_false_r in H; discriminate H
  end.

Lemma is_utf8_app_inv x y :
  ascii_headed y → is_utf8 (x ++ y) = true → is_utf8 x = true ∧ is_utf8 y = true.
Proof.
  intros Hy. induction x as [x IH] using (induction_ltof1 _ length). unfold ltof in IH.
  destruct x as [| b0 x]; [done |]. simpl.
  destruct (b0 <? 128)%N; [apply IH; simpl; lia |].
  destruct (in_range 194 223 b0); [| destruct (in_range 224 239 b0);
    [| destruct (in_range 240 244 b0); [| done]]].
  - destruct x as [| b1 x]; simpl; [utf8_stuck y Hy |].
    intros [-> H]%andb_true_iff. apply IH; [simpl; lia | done].
  - destruct x as [| b1 [| b2 x]]; simpl; [utf8_stuck y Hy .. |].
    intros [-> H]%andb_true_iff. apply IH; [simpl; lia | done].
  - destruct x as [| b1 [| b2 [| b3 x]]]; simpl; [utf8_stuck y Hy .. |].
    intros [-> H]%andb_true_iff. apply IH; [simpl; lia | done].
Qed.

Lemma bytes_app s t : bytes (s +:+ t) = bytes s ++ bytes t.
Proof. induction s as [| a s IH]; [done |]. simpl. by rewrite <- IH. Qed.

Lemma is_utf8_ascii l : Forall (λ b, (b < 128)%N) l → is_utf8 l = true.
Proof. induction 1 as [| b l Hb _ IH]; simpl; [done |]. by rewrite (proj2 (N.ltb_lt b 128) Hb). Qed.

Lemma utf8_app_ascii_inv s t :
  Forall (λ b, (b < 128)%N) (bytes s) → is_utf8 (bytes (s +:+ t)) = true → is_utf8 (bytes t) = true.
Proof.
  rewrite bytes_app. induction 1 as [| b l Hb _ IH]; simpl; [done |].
  by rewrite (proj2 (N.ltb_lt b 128) Hb).
Qed.

Lemma utf8_split c s w :
  (Strings.Ascii.N_of_ascii c < 128)%N → is_utf8 (bytes s) = true → w ∈ split c s →
  is_utf8 (bytes w) = true.
Proof.
  intros Hc. rewrite <- (join_split c s) at 1. induction (split c s) as [| v ws IH]; [by intros _ []%elem_of_nil |].
  intros Hs Hw. destruct ws as [| v' ws].
  { by apply list_elem_of_singleton in Hw as ->. }
  rewrite join_cons in Hs by done. rewrite bytes_app in Hs.
  apply is_utf8_app_inv in Hs as [Hv Hs]; [| done]. simpl in Hs.
  rewrite (proj2 (N.ltb_lt _ 128) Hc) in Hs.
  apply elem_of_cons in Hw as [-> | Hw]; [done | by apply IH].
Qed.

(** A character that takes several bytes is not ASCII. *)
Lemma lor_ge a b : (a ≤ N.lor a b)%N.
Proof.
  apply N.ldiff_le, N.bits_inj_0. intros n. rewrite N.ldiff_spec, N.lor_spec.
  by destruct (N.testbit a n), (N.testbit b n).
Qed.

Lemma shifted_big x b k m : (x ≤ N.land b m)%N → (128 ≤ x * 2 ^ k)%N →
  (128 ≤ N.shiftl (N.land b m) k)%N.
Proof. rewrite N.shiftl_mul_pow2. intros. nia. Qed.

Lemma land_low k b lo hi q : (q * 2 ^ k + lo ≤ b ≤ hi)%N → (hi < (q + 1) * 2 ^ k)%N →
  (lo ≤ N.land b (N.ones k))%N.
Proof.
  intros H H'. rewrite N.land_ones.
  rewrite <- (N.mod_unique b (2 ^ k) q (b - q * 2 ^ k)); lia.
Qed.

Lemma in_range_iff lo hi b : in_range lo hi b = true ↔ (lo ≤ b ≤ hi)%N.
Proof. unfold in_range. rewrite andb_true_iff, !N.leb_le. done. Qed.

(** The first character of a string with a non-ASCII first byte. *)
Lemma decode_utf8_head b0 l :
  (128 ≤ b0)%N → is_utf8 (b0 :: l) = true →
  ∃ c l', decode_utf8 (b0 :: l) = c :: l' ∧ (128 ≤ c)%N.
Proof.
  intros Hb. simpl. rewrite (proj2 (N.ltb_ge b0 128)) by done.
  destruct (in_range 194 223 b0) eqn:E2; [apply in_range_iff in E2 |].
  { destruct l as [| b1 l]; [done |]. intros _. rewrite (proj2 (N.ltb_lt b0 224)) by lia.
    eexists _, _; split; [done |]. etransitivity; [| apply lor_ge].
    apply (shifted_big 2); [apply (land_low 5 b0 2 223 6) |]; simpl; lia. }
  destruct (in_range 224 239 b0) eqn:E3; [apply in_range_iff in E3 |].
  { destruct l as [| b1 [| b2 l]]; [done.. |]. rewrite !andb_true_iff. intros [[H1%in_range_iff _] _].
    rewrite (proj2 (N.ltb_ge b0 224)), (proj2 (N.ltb_lt b0 240)) by lia.
    eexists _, _; split; [done |].
    revert H1. destruct (N.eqb_spec b0 224), (b0 =? 237)%N; intros H1.
    1, 2: rewrite N.lor_comm; etransitivity; [| apply lor_ge]; etransitivity; [| apply lor_ge];
      apply (shifted_big 32); [apply (land_low 6 b1 32 191 2) |]; simpl; lia.
    all: etransitivity; [| apply lor_ge];
      apply (shifted_big 1); [apply (land_low 4 b0 1 239 14) |]; simpl; lia. }
  destruct (in_range 240 244 b0) eqn:E4; [apply in_range_iff in E4 | done].
  destruct l as [| b1 [| b2 [| b3 l]]]; [done.. |].
  rewrite !andb_true_iff. intros [[[H1%in_range_iff _] _] _].
  rewrite (proj2 (N.ltb_ge b0 224)), (proj2 (N.ltb_ge b0 240)) by lia.
  eexists _, _; split; [done |].
  revert H1. destruct (N.eqb_spec b0 240), (b0 =? 244)%N; intros H1.
  1, 2: rewrite N.lor_comm; etransitivity; [| apply lor_ge]; etransitivity; [| apply lor_ge];
    apply (shifted_big 16); [apply (land_low 6 b1 16 191 2) |]; simpl; lia.
  all: etransitivity; [| apply lor_ge];
    apply (shifted_big 1); [apply (land_low 3 b0 1 244 30) |]; simpl; lia.
Qed.

Lemma decode_utf8_ascii l :
  is_utf8 l = true → Forall (λ c, (c < 128)%N) (decode_utf8 l) → decode_utf8 l = l.
Proof.
  induction l as [| b0 l IH]; [done |]. intros Hu Hc. destruct (N.lt_ge_cases b0 128) as [Hb | Hb].
  - revert Hu Hc. simpl. rewrite (proj2 (N.ltb_lt b0 128)) by done. intros Hu Hc. inv Hc.
    f_equal. auto.
  - destruct (decode_utf8_head b0 l Hb Hu) as (c & l' & E & Hc'). rewrite E in Hc. inv Hc. lia.
Qed.

(** ** Decimals *)

Lemma pretty_N_char_digit d :
  (d < 10)%N →
  Strings.Ascii.N_of_ascii (pretty_N_char d) = (48 + d)%N ∧
  pretty_N_char d = Strings.Ascii.ascii_of_N (48 + d).
Proof.
  intros H.
  assert (d ∈ [0; 1; 2; 3; 4; 5; 6; 7; 8; 9]%N) as Hd by (rewrite !elem_of_cons; lia).
  repeat (apply elem_of_cons in Hd as [-> | Hd]; [done |]). by apply elem_of_nil in Hd.
Qed.

Lemma is_ascii_digit_iff b : is_ascii_digit b = true ↔ (48 ≤ b ≤ 57)%N.
Proof. apply in_range_iff. Qed.

Lemma pretty_N_go_snoc x d s :
  (0 < x)%N → (d < 10)%N →
  pretty_N_go (x * 10 + d) s = pretty_N_go x (String (pretty_N_char d) s).
Proof.
  intros Hx Hd. rewrite pretty_N_go_step by lia.
  replace ((x * 10 + d) `div` 10)%N with x by (apply (N.div_unique _ _ _ d); lia).
  by replace ((x * 10 + d) `mod` 10)%N with d by (apply (N.mod_unique _ _ x); lia).
Qed.

Lemma parse_digits_pretty x s : parse_digits 0 (bytes (pretty_N_go x s)) = parse_digits x (bytes s).
Proof.
  revert s. induction x as [x IH] using (well_founded_ind N.lt_wf_0). intros s.
  destruct (N.eq_0_gt_0_cases x) as [-> | Hx]; [by rewrite pretty_N_go_0 |].
  rewrite pretty_N_go_step, IH by (done || by apply N.div_lt).
  pose proof (N.mod_lt x 10 ltac:(done)) as Hm. pose proof (N.div_mod x 10 ltac:(done)) as Hd.
  clear IH. generalize dependent (x `mod` 10)%N. intros m Hm. generalize (x `div` 10)%N. intros q ->.
  destruct (pretty_N_char_digit _ Hm) as [E _]. cbn [bytes parse_digits]. rewrite E.
  rewrite (proj2 (is_ascii_digit_iff (48 + m))) by lia. f_equal. lia.
Qed.

Lemma pretty_parse_digits x l n :
  (0 < x)%N → forallb is_ascii_digit l = true → parse_digits x l = Some n →
  pretty_N_go n "" = pretty_N_go x (of_bytes l).
Proof.
  revert x. induction l as [| b l IH]; intros x Hx; simpl; [by intros _ [= ->] |].
  intros [Hb Hl]%andb_true_iff. rewrite Hb. intros Hp. apply is_ascii_digit_iff in Hb.
  rewrite (IH (x * 10 + (b - 48))%N), pretty_N_go_snoc by (done || lia).
  destruct (pretty_N_char_digit (b - 48)) as [_ ->]; [lia |]. do 3 f_equal. lia.
Qed.

Lemma to_string_pos n : (0 < n)%N → to_string n = pretty_N_go n "".
Proof. intros H. unfold to_string, pretty, pretty_N. by rewrite decide_False by lia. Qed.

Lemma pretty_digits x s :
  forallb is_ascii_digit (bytes s) = true → forallb is_ascii_digit (bytes (pretty_N_go x s)) = true.
Proof.
  revert s. induction x as [x IH] using (well_founded_ind N.lt_wf_0). intros s Hs.
  destruct (N.eq_0_gt_0_cases x) as [-> | Hx]; [by rewrite pretty_N_go_0 |].
  rewrite pretty_N_go_step by done. apply IH; [by apply N.div_lt |]. cbn [bytes forallb].
  pose proof (N.mod_lt x 10 ltac:(done)) as Hm. revert Hm. generalize (x `mod` 10)%N. intros m Hm.
  destruct (pretty_N_char_digit _ Hm) as [E _].
  rewrite E, Hs, (proj2 (is_ascii_digit_iff (48 + m))); [done | lia].
Qed.

Lemma pretty_head x s : (0 < x)%N → ∃ d t, (0 < d < 10)%N ∧ pretty_N_go x s = String (pretty_N_char d) t.
Proof.
  revert s. induction x as [x IH] using (well_founded_ind N.lt_wf_0). intros s Hx.
  rewrite pretty_N_go_step by done. destruct (N.lt_ge_cases x 10).
  - rewrite N.div_small, N.mod_small, pretty_N_go_0 by done. by exists x, s.
  - apply IH; [by apply N.div_lt |]. by apply N.div_str_pos.
Qed.

Lemma pretty_length k x s :
  (x < 10 ^ N.of_nat k)%N → String.length (pretty_N_go x s) ≤ k + String.length s.
Proof.
  revert x s. induction k as [| k IH]; intros x s Hx.
  { replace x with 0%N by (simpl in Hx; lia). by rewrite pretty_N_go_0. }
  destruct (N.eq_0_gt_0_cases x) as [-> | H0]; [rewrite pretty_N_go_0; lia |].
  rewrite pretty_N_go_step by done. etransitivity; [apply IH | simpl; lia].
  apply N.Div0.div_lt_upper_bound. by rewrite <- N.pow_succ_r', <- Nat2N.inj_succ.
Qed.

Lemma parse_u64_digits a s :
  let digits := bytes (String a s) in
  forallb is_ascii_digit digits = true →
  parse_u64 (String a s) =
  match parse_digits 0 digits with
  | Some n => if (n <? 2 ^ 64)%N then Some n else None
  | None => None
  end.
Proof.
  cbn [bytes forallb]. intros [Hb _]%andb_true_iff. unfold parse_u64. cbn [bytes].
  generalize dependent (Strings.Ascii.N_of_ascii a). intros b Hb. apply is_ascii_digit_iff in Hb.
  assert (b ∈ [48; 49; 50; 51; 52; 53; 54; 55; 56; 57]%N) as Hd by (rewrite !elem_of_cons; lia).
  repeat (apply elem_of_cons in Hd as [-> | Hd]; [done |]). by apply elem_of_nil in Hd.
Qed.

Lemma pretty_digit d s : (0 < d < 10)%N → pretty_N_go d s = String (pretty_N_char d) s.
Proof.
  intros H. rewrite pretty_N_go_step by lia.
  by rewrite N.div_small, N.mod_small, pretty_N_go_0 by lia.
Qed.

Lemma canonical_decimal a s n :
  forallb is_ascii_digit (bytes (String a s)) = true → a ≠ "0"%char →
  parse_digits 0 (bytes (String a s)) = Some n → (0 < n)%N ∧ String a s = to_string n.
Proof.
  cbn [bytes forallb parse_digits]. intros [Hb Hs]%andb_true_iff Ha. rewrite Hb, N.mul_0_l, N.add_0_l.
  apply is_ascii_digit_iff in Hb.
  assert (Strings.Ascii.N_of_ascii a ≠ 48%N) as H48.
  { intros E. apply Ha. by rewrite <- (Strings.Ascii.ascii_N_embedding a), E. }
  assert (a = pretty_N_char (Strings.Ascii.N_of_ascii a - 48)) as Ea.
  { destruct (pretty_N_char_digit (Strings.Ascii.N_of_ascii a - 48)) as [_ ->]; [lia |].
    replace (48 + (Strings.Ascii.N_of_ascii a - 48))%N with (Strings.Ascii.N_of_ascii a) by lia.
    by rewrite Strings.Ascii.ascii_N_embedding. }
  intros Hp. apply pretty_parse_digits in Hp; [| lia | done].
  rewrite of_bytes_bytes, (pretty_digit (Strings.Ascii.N_of_ascii a - 48)), <- Ea in Hp by lia.
  destruct (N.eq_0_gt_0_cases n) as [-> | Hn]; [done |]. by rewrite to_string_pos.
Qed.

Lemma validate_nar_size_Ok s :
  validate_nar_size s = Ok tt ↔ ∃ n, (0 < n < 2 ^ 64)%N ∧ s = to_string n.
Proof.
  unfold validate_nar_size. split.
  - intros H. inv_ok H. destruct s as [| a s]; [done |].
    bool_facts. rewrite parse_u64_digits in * by done.
    destruct (parse_digits 0 (bytes (String a s))) as [n |] eqn:Hp; [| done].
    destruct (N.ltb_spec n (2 ^ 64)) as [Hn |]; [| done]. exists n.
    destruct (canonical_decimal a s n) as [? ?]; [done | | done | done].
    intros ->. by destruct s.
  - intros (n & Hn & ->). rewrite to_string_pos by lia.
    pose proof (pretty_digits n "" eq_refl) as Hd. pose proof (parse_digits_pretty n "") as Hp.
    destruct (pretty_head n "") as (d & t & Hdd & E); [lia |]. rewrite E in *.
    change (parse_digits n (bytes "")) with (Some n) in Hp. rewrite parse_u64_digits, Hp, Hd by done.
    rewrite (proj2 (N.ltb_lt n _)) by lia.
    assert (pretty_N_char d ≠ "0"%char) as Hz.
    { intros Hz. destruct (pretty_N_char_digit d) as [Hc _]; [lia |]. rewrite Hz in Hc.
      change (48 = 48 + d)%N in Hc. lia. }
    unfold starts_with. cbn [is_empty strip_prefix String.eqb].
    rewrite (proj2 (Strings.Ascii.eqb_neq "0"%char (pretty_N_char d))) by congruence.
    by rewrite (proj2 (Strings.Ascii.eqb_neq (pretty_N_char d) "0"%char)) by done.
Qed.

(** ** Characters of the fields *)

Definition all_bytes (P : N → bool) (s : string) : Prop := forallb P (bytes s) = true.

Lemma all_bytes_app P s t : all_bytes P (s +:+ t) ↔ all_bytes P s ∧ all_bytes P t.
Proof. unfold all_bytes. by rewrite bytes_app, forallb_app, andb_true_iff. Qed.

Lemma all_bytes_mono (P Q : N → bool) s :
  (∀ b, P b = true → Q b = true) → all_bytes P s → all_bytes Q s.
Proof. intros H. unfold all_bytes. rewrite !forallb_forall. auto. Qed.

Lemma all_bytes_join P c l :
  P (Strings.Ascii.N_of_ascii c) = true → Forall (all_bytes P) l → all_bytes P (join c l).
Proof.
  intros Hc. induction 1 as [| w l Hw _ IH]; [done |]. destruct l as [| v l]; [done |].
  rewrite join_cons by done. apply all_bytes_app. split; [done |].
  unfold all_bytes. simpl bytes. cbn [forallb]. by rewrite Hc.
Qed.

Lemma no_char P c s :
  all_bytes P s → P (Strings.Ascii.N_of_ascii c) = false → contains_char c s = false.
Proof.
  intros Hs Hc. induction s as [| a s IH]; [done |]. revert Hs. unfold all_bytes. simpl.
  intros [Ha Hs]%andb_true_iff. rewrite IH by done.
  destruct (Strings.Ascii.eqb_spec a c) as [-> |]; [congruence | done].
Qed.

Definition printable (b : N) : bool := in_range 32 126 b.

Lemma existsb_printable l b :
  forallb printable l = true → existsb (N.eqb b) l = true → printable b = true.
Proof.
  rewrite forallb_forall, existsb_exists. intros Hl (b' & Hin & ->%N.eqb_eq). auto.
Qed.

Lemma alphanumeric_printable b : is_ascii_alphanumeric b = true → printable b = true.
Proof.
  unfold printable, is_ascii_alphanumeric. rewrite in_range_iff, !orb_true_iff.
  intros [[H | H] | H]; apply in_range_iff in H; lia.
Qed.

Lemma nix32_printable b : nix32_char b = true → printable b = true.
Proof. by apply existsb_printable. Qed.

Lemma name_printable b : is_store_name_byte b = true → printable b = true.
Proof.
  unfold is_store_name_byte. rewrite orb_true_iff.
  intros [H | H]; [by apply alphanumeric_printable | by apply (existsb_printable (bytes "+-._?="))].
Qed.

Lemma printable_ascii s : all_bytes printable s → Forall (λ b, (b < 128)%N) (bytes s).
Proof.
  unfold all_bytes. rewrite forallb_forall, List.Forall_forall. intros H b Hb.
  specialize (H b Hb). apply in_range_iff in H. lia.
Qed.

Lemma decode_ascii l : Forall (λ b, (b < 128)%N) l → decode_utf8 l = l.
Proof.
  induction 1 as [| b l Hb _ IH]; [done |]. simpl. rewrite (proj2 (N.ltb_lt b 128)) by done.
  by rewrite IH.
Qed.

(** Digits read as characters or as bytes. *)
Lemma nix32_chars s :
  is_utf8 (bytes s) = true → forallb nix32_char (chars s) = true ↔ all_bytes nix32_char s.
Proof.
  intros Hu. unfold chars, all_bytes. split; intros H.
  - rewrite decode_utf8_ascii in H; [done | done |].
    rewrite forallb_forall in H. apply List.Forall_forall. intros c Hc.
    specialize (H c Hc). apply nix32_printable, in_range_iff in H. lia.
  - rewrite decode_ascii; [done |]. apply printable_ascii. by eapply all_bytes_mono, H; apply nix32_printable.
Qed.

(** ** The fields *)

Lemma split_once_Some c s k v :
  split_once c s = Some (k, v) ↔ s = k +:+ String c v ∧ contains_char c k = false.
Proof.
  revert k. induction s as [| a s IH]; intros k; simpl.
  { split; [done |]. by intros [H _]; destruct k. }
  destruct (Strings.Ascii.eqb_spec a c) as [-> | Hac].
  - split; [by intros [= <- <-] |]. intros [H Hk]. destruct k as [| b k]; simpl in *.
    + by injection H as ->.
    + injection H as <- _. by rewrite Strings.Ascii.eqb_refl in Hk.
  - destruct (split_once c s) as [[k' v'] |].
    + split.
      * intros [= <- <-]. destruct (proj1 (IH k') eq_refl) as [-> Hk]. simpl.
        by rewrite (proj2 (Strings.Ascii.eqb_neq a c) Hac), Hk.
      * intros [H Hk]. destruct k as [| b k]; simpl in *; injection H as -> ->; [done |].
        apply orb_false_iff in Hk as [_ Hk].
        assert (Some (k', v') = Some (k, v)) as [= -> ->] by (by apply IH). done.
    + split; [done |]. intros [H Hk]. destruct k as [| b k]; simpl in *; injection H as -> ->; [done |].
      apply orb_false_iff in Hk as [_ Hk]. assert (None = Some (k, v)) as [=] by (by apply IH).
Qed.

Lemma utf8_around c k v :
  (Strings.Ascii.N_of_ascii c < 128)%N → is_utf8 (bytes (k +:+ String c v)) = true →
  is_utf8 (bytes k) = true.
Proof. rewrite bytes_app. intros Hc H. by apply is_utf8_app_inv in H as [? _]. Qed.

Lemma dot_names name : starts_with "." name = false → name ≠ "." ∧ name ≠ "..".
Proof. by intros H; split; intros ->. Qed.

Lemma validate_store_path_Ok s :
  is_utf8 (bytes s) = true →
  validate_store_path s = Ok tt ↔ ∃ p, store_path_ok p ∧ s = render_path p.
Proof.
  intros Hu. unfold validate_store_path. split.
  - destruct (strip_prefix STORE_PREFIX s) as [base |] eqn:Eb; [| done].
    apply strip_prefix_Some in Eb as ->.
    destruct (split_once "-"%char base) as [[hash name] |] eqn:Eo; [| done].
    apply split_once_Some in Eo as [-> Hh]. intros H. inv_ok H. bool_facts.
    apply utf8_app_ascii_inv, utf8_around in Hu; [| done | by apply printable_ascii].
    exists {| sp_hash := hash; sp_name := name |}. split; [| done].
    split; cbn [sp_hash sp_name]; try done.
    + split; [done | by apply nix32_chars].
    + destruct name; [done |]. simpl in *. lia.
  - intros (p & [[Hl Hh] Hn [Hlo Hhi] Hd] & ->). unfold render_path.
    rewrite (proj2 (strip_prefix_Some _ _ _) eq_refl).
    rewrite (proj2 (split_once_Some "-"%char _ (sp_hash p) (sp_name p)))
      by (split; [done | by apply (no_char nix32_char)]).
    destruct (dot_names _ Hd) as [H1%String.eqb_neq H2%String.eqb_neq].
    assert (is_utf8 (bytes (sp_hash p)) = true) as Hu'.
    { apply is_utf8_ascii, printable_ascii. eapply all_bytes_mono, Hh. apply nix32_printable. }
    rewrite (proj2 (nix32_chars _ Hu') Hh), Hn, Hd, H1, H2, Hl, Nat.eqb_refl.
    rewrite (proj2 (Nat.ltb_ge _ _) Hhi). by destruct (sp_name p); [simpl in Hlo; lia |].
Qed.

Lemma validate_nar_hash_Ok s :
  is_utf8 (bytes s) = true →
  validate_nar_hash s = Ok tt ↔ ∃ h, nix32 52 h ∧ s = "sha256:" +:+ h.
Proof.
  intros Hu. unfold validate_nar_hash. split.
  - destruct (strip_prefix "sha256:" s) as [h |] eqn:E; [| done].
    apply strip_prefix_Some in E as ->. apply utf8_app_ascii_inv in Hu; [| by apply printable_ascii].
    intros H. inv_ok H. bool_facts. exists h. split; [| done].
    split; [done | by apply nix32_chars].
  - intros (h & [Hl Hh] & ->). rewrite (proj2 (strip_prefix_Some _ _ _) eq_refl).
    apply utf8_app_ascii_inv in Hu; [| by apply printable_ascii].
    by rewrite Hl, (proj2 (nix32_chars _ Hu) Hh).
Qed.

Lemma validate_references_Ok l count previous :
  (count ≤ 2048)%N →
  validate_references l count previous = Ok tt ↔
  Forall (λ s, validate_store_path s = Ok tt) l ∧
  set_sorted (option_list previous ++ l) ∧ (count + N.of_nat (length l) ≤ 2048)%N.
Proof.
  revert count previous. induction l as [| s l IH]; intros count previous Hc; simpl.
  { split; [| done]. intros _. split; [done |]. split; [| lia].
    destruct previous; repeat constructor. }
  rewrite N.min_r by (simpl; lia). destruct (N.ltb_spec MAX_REFERENCES (count + 1)) as [Hm | Hm].
  { split; [done |]. intros (_ & _ & H). unfold MAX_REFERENCES in Hm. lia. }
  unfold MAX_REFERENCES in Hm.
  destruct (validate_store_path s) as [[] | e] eqn:Es;
    [| split; [done | intros (H & _); inv H; congruence]].
  assert (set_sorted (option_list previous ++ s :: l) ↔
          match previous with
          | Some prior => match cmp prior s with Lt => false | _ => true end
          | None => false
          end = false ∧ set_sorted (s :: l)) as ->.
  { destruct previous as [prior |]; simpl; [| tauto]. unfold set_sorted. split.
    - intros H. inv H as [| ?? Hs Hf]. inv Hf as [| ?? Hlt]. by rewrite Hlt.
    - intros [Hlt Hs]. destruct (cmp prior s) eqn:E; try done. constructor; [done |].
      inv Hs as [| ?? Hs' Hf]. constructor; [done |]. eapply List.Forall_impl; [| exact Hf].
      intros t Ht. by eapply cmp_lt_trans. }
  destruct (match previous with Some _ => _ | None => _ end);
    [split; [done | by intros (_ & [? _] & _)] |].
  rewrite IH, List.Forall_cons_iff by lia. simpl. rewrite Es.
  replace (count + 1 + N.of_nat (length l))%N with (count + N.pos (Pos.of_succ_nat (length l)))%N by lia.
  tauto.
Qed.

(** ** Rendered records *)

(** The bytes of a store path, and those of a field. *)
Definition path_byte (b : N) : bool := is_store_name_byte b || (b =? 47)%N.
Definition field_byte (b : N) : bool := printable b && negb (b =? 59)%N.

Lemma nix32_name b : nix32_char b = true → is_store_name_byte b = true.
Proof.
  unfold nix32_char. rewrite existsb_exists. intros (b' & Hin & ->%N.eqb_eq). revert b' Hin.
  by apply forallb_forall.
Qed.

Lemma path_field b : path_byte b = true → field_byte b = true.
Proof.
  unfold path_byte, field_byte. intros [H | ->%N.eqb_eq]%orb_true_iff; [| done].
  rewrite (name_printable _ H). simpl. apply negb_true_iff, N.eqb_neq. by intros ->.
Qed.

Lemma render_path_bytes p : store_path_ok p → all_bytes path_byte (render_path p).
Proof.
  intros [[_ Hh] Hn _ _]. unfold render_path. rewrite !all_bytes_app. split_and!; try done.
  - eapply all_bytes_mono, Hh. intros b Hb%nix32_name. unfold path_byte. by rewrite Hb.
  - eapply all_bytes_mono, Hn. intros b Hb. unfold path_byte. by rewrite Hb.
Qed.

Lemma digit_field b : is_ascii_digit b = true → field_byte b = true.
Proof.
  intros H%is_ascii_digit_iff. unfold field_byte, printable.
  rewrite (proj2 (in_range_iff 32 126 b)) by lia. simpl. apply negb_true_iff, N.eqb_neq. lia.
Qed.

Lemma info_fields_bytes i : path_info_ok i → Forall (all_bytes field_byte) (info_fields i).
Proof.
  intros [Hp [_ Hh] Hs Hr _ _]. unfold info_fields. repeat apply List.Forall_cons; try done.
  - eapply all_bytes_mono, render_path_bytes, Hp. apply path_field.
  - apply all_bytes_app. split; [done |]. eapply all_bytes_mono, Hh.
    intros b Hb%nix32_name. apply path_field. unfold path_byte. by rewrite Hb.
  - rewrite to_string_pos by lia. eapply all_bytes_mono, pretty_digits; [apply digit_field | done].
  - apply all_bytes_join; [done |]. apply List.Forall_map. eapply List.Forall_impl; [| exact Hr].
    intros p Hp'. eapply all_bytes_mono, render_path_bytes, Hp'. apply path_field.
Qed.

Lemma split_render i : path_info_ok i → split ";"%char (render_info i) = info_fields i.
Proof.
  intros Hi. apply split_join; [done |]. intros w Hw.
  pose proof (info_fields_bytes i Hi) as H. rewrite List.Forall_forall in H.
  apply (no_char field_byte); [| done]. by apply H, list_elem_of_In.
Qed.

Lemma split_references ps :
  Forall store_path_ok ps → ps ≠ [] →
  split ","%char (join ","%char (map render_path ps)) = map render_path ps.
Proof.
  intros H Hne. apply split_join; [by destruct ps |]. intros w Hw.
  apply list_elem_of_In, in_map_iff in Hw as (p & <- & Hp). rewrite List.Forall_forall in H.
  by apply (no_char path_byte); [apply render_path_bytes, H |].
Qed.

Lemma render_printable i : path_info_ok i → all_bytes printable (render_info i).
Proof.
  intros Hi. apply all_bytes_join; [done |]. eapply List.Forall_impl, info_fields_bytes, Hi.
  intros s Hs. eapply all_bytes_mono, Hs. by intros b [? _]%andb_true_iff.
Qed.

Lemma length_str_app s t : String.length (s +:+ t) = String.length s + String.length t.
Proof. by rewrite <- !length_bytes, bytes_app, length_app. Qed.

Lemma length_join c l n :
  Forall (λ s, String.length s ≤ n) l → String.length (join c l) ≤ length l * S n - 1.
Proof.
  induction 1 as [| w l Hw _ IH]; [done |]. destruct l as [| v l]; [simpl; lia |].
  rewrite join_cons by done. rewrite length_str_app. cbn [String.length length] in *. lia.
Qed.

Lemma render_path_length p : store_path_ok p → String.length (render_path p) ≤ 255.
Proof.
  intros [[Hh _] _ Hn _]. unfold render_path. rewrite !length_str_app, Hh. simpl. lia.
Qed.

(** The length bound of the protocol is the length of the longest record. *)
Lemma render_length i :
  path_info_ok i → (N.of_nat (String.length (render_info i)) ≤ MAX_PATH_INFO_V1_LEN)%N.
Proof.
  intros [Hp [Hh _] Hs Hr _ Hc]. pose proof (render_path_length _ Hp) as Hpl.
  assert (String.length (join ","%char (map render_path (info_references i))) ≤
          length (info_references i) * 256 - 1) as Hrl.
  { rewrite <- (length_map render_path). apply length_join, List.Forall_map.
    eapply List.Forall_impl, Hr. apply render_path_length. }
  assert (String.length (to_string (info_nar_size i)) ≤ 20) as Hsl.
  { rewrite to_string_pos by lia. rewrite (pretty_length 20); [simpl; lia |].
    eapply N.lt_trans; [apply Hs | done]. }
  unfold render_info, info_fields, MAX_PATH_INFO_V1_LEN. cbn [join].
  rewrite !length_str_app. cbn [String.length]. rewrite !length_str_app. cbn [String.length].
  rewrite !length_str_app. cbn [String.length]. rewrite !length_str_app. cbn [String.length].
  rewrite Hh. lia.
Qed.

Lemma from_utf8_printable s : all_bytes printable s → from_utf8 (bytes s) = Some s.
Proof.
  intros H. unfold from_utf8. by rewrite is_utf8_ascii, of_bytes_bytes by (by apply printable_ascii).
Qed.

Lemma printable_no_control s : all_bytes printable s → existsb is_ascii_control (bytes s) = false.
Proof.
  unfold all_bytes. induction (bytes s) as [| b l IH]; [done |]. simpl.
  intros [Hb%in_range_iff Hl]%andb_true_iff. rewrite IH by done. unfold is_ascii_control.
  rewrite (proj2 (N.ltb_ge b 32)), (proj2 (N.eqb_neq b 127)) by lia. done.
Qed.

Lemma references_complete i :
  path_info_ok i →
  let references := join ","%char (map render_path (info_references i)) in
  (if is_empty references then Ok tt else validate_references (split ","%char references) 0 None)
  = Ok tt.
Proof.
  intros [_ _ _ Hr Hs Hc]. destruct (info_references i) as [| p ps] eqn:E; [done |].
  cbn zeta. rewrite split_references by done. case_match; [done |].
  apply validate_references_Ok; [lia |]. split_and!; [| done | rewrite length_map; lia].
  apply List.Forall_map. eapply List.Forall_impl, Hr. intros q Hq. apply validate_store_path_Ok.
  - apply is_utf8_ascii, printable_ascii. eapply all_bytes_mono, render_path_bytes, Hq.
    intros b Hb%path_field. by apply andb_true_iff in Hb as [? _].
  - by exists q.
Qed.

Lemma PathInfoV1_parse_complete i :
  path_info_ok i → PathInfoV1_parse (bytes (render_info i)) = Ok {| pi_bytes := bytes (render_info i) |}.
Proof.
  intros Hi. unfold PathInfoV1_parse. pose proof (render_printable i Hi) as Hpr.
  rewrite from_utf8_printable by done. cbn [ok_or].
  pose proof (render_length i Hi) as Hl. rewrite <- length_bytes in Hl.
  rewrite (proj2 (N.ltb_ge _ _) Hl).
  rewrite printable_no_control, split_render by done. unfold info_fields.
  assert (∀ s, s ∈ info_fields i → is_utf8 (bytes s) = true) as Hu.
  { intros s Hs. pose proof (info_fields_bytes i Hi) as Hf. rewrite List.Forall_forall in Hf.
    apply is_utf8_ascii, printable_ascii. eapply all_bytes_mono, Hf, list_elem_of_In, Hs.
    by intros b [? _]%andb_true_iff. }
  rewrite (proj2 (validate_store_path_Ok _ (Hu _ ltac:(do 1 right; left))))
    by (exists (info_path i); split; [apply Hi | done]).
  rewrite (proj2 (validate_nar_hash_Ok _ (Hu _ ltac:(do 2 right; left))))
    by (exists (info_nar_hash i); split; [apply Hi | done]).
  rewrite (proj2 (validate_nar_size_Ok _)) by (exists (info_nar_size i); split; [apply Hi | done]).
  pose proof (references_complete i Hi) as Hr. cbn zeta in Hr. rewrite Hr.
  rewrite bool_decide_eq_true_2 by done. by destruct (bytes (render_info i)) eqn:E.
Qed.

(** ** Parsing is exact *)

Lemma store_paths_sound l :
  Forall (λ s, is_utf8 (bytes s) = true) l → Forall (λ s, validate_store_path s = Ok tt) l →
  ∃ ps, Forall store_path_ok ps ∧ l = map render_path ps.
Proof.
  induction 1 as [| s l Hu _ IH]; intros H; [by exists [] |]. inv H as [| ?? Hs Hl].
  apply validate_store_path_Ok in Hs as (p & Hp & ->); [| done].
  destruct (IH Hl) as (ps & Hps & ->). exists (p :: ps). by split; [constructor |].
Qed.

Lemma references_sound s :
  is_utf8 (bytes s) = true →
  (if is_empty s then Ok tt else validate_references (split ","%char s) 0 None) = Ok tt →
  ∃ ps, Forall store_path_ok ps ∧ s = join ","%char (map render_path ps) ∧
        set_sorted (map render_path ps) ∧ length ps ≤ 2048.
Proof.
  intros Hu H. destruct (is_empty s) eqn:E.
  { apply is_empty_true in E as ->. exists []. split_and!; [done | done | constructor | simpl; lia]. }
  apply validate_references_Ok in H as (Hp & Hs & Hc); [| lia].
  apply store_paths_sound in Hp as (ps & Hps & Eps).
  - rewrite Eps in Hs, Hc. rewrite length_map in Hc. exists ps.
    split_and!; [done | by rewrite <- Eps, join_split | exact Hs | lia].
  - apply List.Forall_forall. intros w Hw. apply (utf8_split ","%char s); [done | done |].
    by apply list_elem_of_In.
Qed.

Lemma PathInfoV1_parse_sound input p :
  PathInfoV1_parse input = Ok p →
  p = {| pi_bytes := input |} ∧ ∃ i, path_info_ok i ∧ input = bytes (render_info i).
Proof.
  unfold PathInfoV1_parse. intros H. inv_ok_step H. unfold from_utf8 in H.
  destruct (is_utf8 input) eqn:Hu; [| done]. cbn [ok_or] in H. inv_ok_step H.
  destruct (split ";"%char (of_bytes input)) as [| v [| path [| hash [| size [| refs [|]]]]]] eqn:Es;
    try done.
  repeat inv_ok_step H. subst p. split; [done |]. bool_facts. subst v.
  match goal with H : bytes _ = input |- _ => rename H into Hin end.
  assert (∀ w, w ∈ split ";"%char (of_bytes input) → is_utf8 (bytes w) = true) as Hw.
  { intros w. apply utf8_split; [done |]. by rewrite <- Hin, of_bytes_bytes, Hin. }
  rewrite Es in Hw. repeat match goal with u : unit |- _ => destruct u end.
  match goal with H : validate_store_path _ = _ |- _ =>
    apply validate_store_path_Ok in H as (sp & Hsp & ->); [| apply Hw; do 1 right; left] end.
  match goal with H : validate_nar_hash _ = _ |- _ =>
    apply validate_nar_hash_Ok in H as (h & Hh & ->); [| apply Hw; do 2 right; left] end.
  match goal with H : validate_nar_size _ = _ |- _ =>
    apply validate_nar_size_Ok in H as (n & Hn & ->) end.
  match goal with H : (if is_empty _ then _ else _) = _ |- _ =>
    apply references_sound in H as (ps & Hps & -> & Hso & Hc); [| apply Hw; do 4 right; left] end.
  by exists {| info_path := sp; info_nar_hash := h; info_nar_size := n; info_references := ps |}.
Qed.

(** ** A text stands for one record *)

Lemma cons_eq {A} (x y : A) l k : x :: l = y :: k → x = y ∧ l = k.
Proof. by intros [= -> ->]. Qed.

Lemma render_path_inj p q :
  store_path_ok p → store_path_ok q → render_path p = render_path q → p = q.
Proof.
  assert (∀ r, store_path_ok r →
    split_once "-"%char (sp_hash r +:+ "-" +:+ sp_name r) = Some (sp_hash r, sp_name r)) as Hs.
  { intros r [[_ Hh] _ _ _]. apply split_once_Some. split; [done |]. by apply (no_char nix32_char). }
  intros Hp Hq E. unfold render_path in E.
  apply (proj2 (strip_prefix_Some _ _ _)) in E.
  rewrite (proj2 (strip_prefix_Some STORE_PREFIX _ _) eq_refl) in E. injection E as E.
  pose proof (Hs p Hp) as Ep. rewrite <- E, (Hs q Hq) in Ep || rewrite E, (Hs q Hq) in Ep.
  destruct p, q; simpl in *. by simplify_eq.
Qed.

Lemma render_paths_inj ps qs :
  Forall store_path_ok ps → Forall store_path_ok qs →
  map render_path ps = map render_path qs → ps = qs.
Proof.
  intros Hp. revert qs. induction Hp as [| p ps Hp _ IH]; intros [| q qs] Hq E; try done.
  apply cons_eq in E as [E1 E2]. apply List.Forall_cons_iff in Hq as [??]. f_equal; [by apply render_path_inj | by apply IH].
Qed.

Lemma references_inj ps qs :
  Forall store_path_ok ps → Forall store_path_ok qs →
  join ","%char (map render_path ps) = join ","%char (map render_path qs) → ps = qs.
Proof.
  assert (∀ p rs, join ","%char (map render_path (p :: rs)) ≠ "") as Hne.
  { intros p rs. by destruct rs. }
  intros Hp Hq E. destruct ps as [| p ps], qs as [| q qs]; [done | | |].
  - by destruct (Hne q qs).
  - by destruct (Hne p ps).
  - apply render_paths_inj; [done | done |].
    rewrite <- (split_references (p :: ps)), <- (split_references (q :: qs)) by done. by rewrite E.
Qed.

Lemma render_info_inj i j :
  path_info_ok i → path_info_ok j → render_info i = render_info j → i = j.
Proof.
  intros Hi Hj E. assert (info_fields i = info_fields j) as F.
  { by rewrite <- !split_render, E by done. }
  apply cons_eq in F as [_ (Ep & (Eh & (Es & (Er & _)%cons_eq)%cons_eq)%cons_eq)%cons_eq].
  apply (proj2 (strip_prefix_Some _ _ _)) in Eh.
  rewrite (proj2 (strip_prefix_Some "sha256:" _ _) eq_refl) in Eh. injection Eh as Eh.
  apply (inj pretty) in Es. apply render_path_inj in Ep; [| apply Hi | apply Hj].
  apply references_inj in Er; [| apply Hi | apply Hj]. destruct i, j. cbn in *. by subst.
Qed.

(** C24: the parser accepts exactly the canonical texts of well-formed path
    records, returns them unchanged, and every accepted text stands for one
    record: base-32 hashes of the right length, a valid store name, a positive
    64-bit size in decimal and at most 2048 references in strict order. *)
Theorem fingerprint_exact input p :
  PathInfoV1_parse input = Ok p ↔
  p = {| pi_bytes := input |} ∧ exists! i, path_info_ok i ∧ input = bytes (render_info i).
Proof.
  split.
  - intros H. apply PathInfoV1_parse_sound in H as [-> (i & Hi & ->)]. split; [done |].
    exists i. split; [done |]. intros j [Hj E]. apply render_info_inj; [done | done |].
    by rewrite <- (of_bytes_bytes (render_info i)), E, of_bytes_bytes.
  - intros [-> (i & [Hi ->] & _)]. by apply PathInfoV1_parse_complete.
Qed.
