(* ===== verification/StrictCodec.v ===== *)
(** * The strict codec of the Nix cache messages
      ([crates/basil-proto/src/codec.rs])

    [preflight] walks the protobuf bytes of a message before [prost] decodes
    them: every field of the schema once, no other field, each value within
    its rule.  [wire] is the protobuf wire format of a list of fields;
    preflight is shown to accept exactly the wire forms of the lists the schema
    admits, and the size limits to be those of the largest message.  The
    decoder of [prost] is a parameter.  [usize] is 64 bits wide. *)

From S2P Require Import Prelude RustStr Bytes NixFingerprint.

Definition DESCRIBE_NIX_CACHE_KEY_REQUEST_MAX : N := 295.
Definition DESCRIBE_NIX_CACHE_KEY_RESPONSE_MAX : N := 203.
Definition ENROLL_NIX_CACHE_KEY_REQUEST_MAX : N := 295.
Definition ENROLL_NIX_CACHE_KEY_RESPONSE_MAX : N := 205.
Definition SIGN_NIX_CACHE_FINGERPRINT_REQUEST_MAX : N := 524939.
Definition SIGN_NIX_CACHE_FINGERPRINT_RESPONSE_MAX : N := 269.
Definition KEY_ID_MAX : N := 256.
Definition KEY_NAME_MAX : N := 128.
Definition FINGERPRINT_MAX : N := 524626.
Definition PROFILE : string := "PATH_INFO_V1".

Inductive LengthKind :=
| LkKeyId | LkKeyName | LkPublicKey | LkIdentifier | LkProfile | LkFingerprint | LkSignature.

Inductive FieldRule :=
| LengthDelimited (kind : LengthKind)
| ExactVarint (expected : N)
| EnrollmentDisposition.

(** The trait: its constants and the rules of the fields, [1] first. *)
Record StrictMessage := {
  MAX_ENCODED_LEN : N;
  IS_RESPONSE : bool;
  field_rules : list FieldRule;
}.

Definition FIELD_COUNT (m : StrictMessage) : nat := length (field_rules m).

Definition field_rule (m : StrictMessage) (number : N) : option FieldRule :=
  if (number =? 0)%N then None else field_rules m !! N.to_nat (number - 1).

Definition DescribeNixCacheKeyRequest : StrictMessage :=
  {| MAX_ENCODED_LEN := DESCRIBE_NIX_CACHE_KEY_REQUEST_MAX; IS_RESPONSE := false;
     field_rules := [LengthDelimited LkKeyId; LengthDelimited LkIdentifier;
                     LengthDelimited LkIdentifier] |}.
Definition DescribeNixCacheKeyResponse : StrictMessage :=
  {| MAX_ENCODED_LEN := DESCRIBE_NIX_CACHE_KEY_RESPONSE_MAX; IS_RESPONSE := true;
     field_rules := [LengthDelimited LkKeyName; LengthDelimited LkPublicKey; ExactVarint 1;
                     LengthDelimited LkIdentifier; LengthDelimited LkIdentifier] |}.
Definition EnrollNixCacheKeyRequest : StrictMessage :=
  {| MAX_ENCODED_LEN := ENROLL_NIX_CACHE_KEY_REQUEST_MAX; IS_RESPONSE := false;
     field_rules := [LengthDelimited LkKeyId; LengthDelimited LkIdentifier;
                     LengthDelimited LkIdentifier] |}.
Definition EnrollNixCacheKeyResponse : StrictMessage :=
  {| MAX_ENCODED_LEN := ENROLL_NIX_CACHE_KEY_RESPONSE_MAX; IS_RESPONSE := true;
     field_rules := [LengthDelimited LkKeyName; LengthDelimited LkPublicKey; ExactVarint 1;
                     EnrollmentDisposition; LengthDelimited LkIdentifier;
                     LengthDelimited LkIdentifier] |}.
Definition SignNixCacheFingerprintRequest : StrictMessage :=
  {| MAX_ENCODED_LEN := SIGN_NIX_CACHE_FINGERPRINT_REQUEST_MAX; IS_RESPONSE := false;
     field_rules := [LengthDelimited LkKeyId; LengthDelimited LkProfile;
                     LengthDelimited LkFingerprint; LengthDelimited LkIdentifier;
                     LengthDelimited LkIdentifier] |}.
Definition SignNixCacheFingerprintResponse : StrictMessage :=
  {| MAX_ENCODED_LEN := SIGN_NIX_CACHE_FINGERPRINT_RESPONSE_MAX; IS_RESPONSE := true;
     field_rules := [LengthDelimited LkKeyName; LengthDelimited LkPublicKey; ExactVarint 1;
                     LengthDelimited LkSignature; LengthDelimited LkIdentifier;
                     LengthDelimited LkIdentifier] |}.

(** ** Values *)

Definition field_text (number : N) (rest : string) : string :=
  "field " +:+ to_string number +:+ rest.

Definition require_length (number : N) (value : bytes_) (minimum maximum : N)
    : result string unit :=
  let len := N.of_nat (length value) in
  return_err (field_text number (" is " +:+ to_string len +:+ " bytes; expected "
                +:+ to_string minimum +:+ "..=" +:+ to_string maximum))
    when negb ((minimum <=? len) && (len <=? maximum))%N otherwise Ok tt.

Definition key_name_byte (b : N) : bool :=
  is_ascii_alphanumeric b || existsb (N.eqb b) (bytes "._-").

Definition is_valid_key_name (value : bytes_) : bool :=
  match value with [] => false | b :: _ => is_ascii_alphanumeric b end && forallb key_name_byte value.

Definition validate_length_value (number : N) (kind : LengthKind) (value : bytes_)
    : result string unit :=
  match kind with
  | LkKeyId =>
      let? _ := require_length number value 1 KEY_ID_MAX in
      let? text := ok_or (field_text number " is not valid UTF-8") (from_utf8 value) in
      return_err (field_text number " contains a control byte")
        when existsb is_ascii_control (bytes text) otherwise Ok tt
  | LkKeyName =>
      let? _ := require_length number value 1 KEY_NAME_MAX in
      return_err (field_text number " is not a valid Nix key name")
        when negb (is_valid_key_name value) otherwise Ok tt
  | LkPublicKey => require_length number value 32 32
  | LkIdentifier =>
      let? _ := require_length number value 16 16 in
      return_err (field_text number " must not be all zero")
        when forallb (N.eqb 0) value otherwise Ok tt
  | LkProfile =>
      return_err (field_text number " must equal `PATH_INFO_V1`")
        when negb (bool_decide (value = bytes PROFILE)) otherwise Ok tt
  | LkFingerprint => require_length number value 1 FINGERPRINT_MAX
  | LkSignature => require_length number value 64 64
  end.

(** ** Varints *)

(** One turn of the loop per allowed byte; [shift] grows by seven. *)
Fixpoint read_varint_loop (turns : nat) (raw : bytes_) (cursor : nat) (shift value : N)
    : result string (N * nat) :=
  match turns with
  | O => Err "protobuf varint is too long"
  | S turns =>
      let? byte := ok_or "truncated protobuf varint" (raw !! cursor) in
      let cursor := S cursor in
      return_err "protobuf varint overflows u64" when (shift =? 63)%N && (1 <? byte)%N otherwise
      let value := N.lor value (N.shiftl (N.land byte 0x7f) shift mod 2 ^ 64) in
      if (N.land byte 0x80 =? 0)%N then Ok (value, cursor)
      else read_varint_loop turns raw cursor (shift + 7) value
  end.

Definition read_varint (raw : bytes_) (cursor : nat) : result string (N * nat) :=
  read_varint_loop 10 raw cursor 0 0.

(** ** The preflight *)

Definition wire_type_error (number wire_type expected : N) : string :=
  field_text number (" has wire type " +:+ to_string wire_type +:+ "; expected "
    +:+ to_string expected).

(** [raw.get(cursor..cursor + len)]. *)
Definition slice (raw : bytes_) (cursor : nat) (len : N) : option bytes_ :=
  if (N.of_nat cursor + len <=? N.of_nat (length raw))%N
  then Some (take (N.to_nat len) (drop cursor raw)) else None.

(** The value of one field: the cursor behind it. *)
Definition check_value (raw : bytes_) (number wire_type : N) (rule : FieldRule) (cursor : nat)
    : result string nat :=
  match rule with
  | LengthDelimited kind =>
      return_err (wire_type_error number wire_type 2) when negb (wire_type =? 2)%N otherwise
      let? (len, cursor) := read_varint raw cursor in
      return_err (field_text number " length overflows")
        when (2 ^ 64 <=? N.of_nat cursor + len)%N otherwise
      let? value := ok_or (field_text number " is truncated") (slice raw cursor len) in
      let? _ := validate_length_value number kind value in
      Ok (cursor + length value)%nat
  | ExactVarint expected =>
      return_err (wire_type_error number wire_type 0) when negb (wire_type =? 0)%N otherwise
      let? (value, cursor) := read_varint raw cursor in
      return_err (field_text number (" must equal " +:+ to_string expected))
        when negb (value =? expected)%N otherwise Ok cursor
  | EnrollmentDisposition =>
      return_err (wire_type_error number wire_type 0) when negb (wire_type =? 0)%N otherwise
      let? (value, cursor) := read_varint raw cursor in
      return_err (field_text number (" has invalid enum value " +:+ to_string value))
        when negb ((value =? 1) || (value =? 2))%N otherwise Ok cursor
  end.

(** One turn of the loop: the cursor and the seen fields after it. *)
Definition check_field (m : StrictMessage) (raw : bytes_) (cursor : nat) (seen : N)
    : result string (nat * N) :=
  let? (key, cursor) := read_varint raw cursor in
  let number := N.shiftr key 3 in
  return_err "field number overflows u32" when (2 ^ 32 <=? number)%N otherwise
  return_err ("unknown field " +:+ to_string number)
    when (number =? 0)%N || (63 <? number)%N otherwise
  let bit := N.shiftl 1 (number - 1) in
  return_err ("duplicate field " +:+ to_string number)
    when negb (N.land seen bit =? 0)%N otherwise
  let? rule := ok_or ("unknown field " +:+ to_string number) (field_rule m number) in
  let? cursor := check_value raw number (N.land key 7) rule cursor in
  Ok (cursor, N.lor seen bit).

(** [None] is lack of fuel; every turn reads a byte. *)
Fixpoint check_fields (fuel : nat) (m : StrictMessage) (raw : bytes_) (cursor : nat) (seen : N)
    : option (result string N) :=
  match fuel with
  | O => None
  | S fuel =>
      if (cursor <? length raw)%nat then
        match check_field m raw cursor seen with
        | Ok (cursor, seen) => check_fields fuel m raw cursor seen
        | Err e => Some (Err e)
        end
      else Some (Ok seen)
  end.

Definition required_fields (m : StrictMessage) : N :=
  if (FIELD_COUNT m =? 64)%nat then (2 ^ 64 - 1)%N
  else (N.shiftl 1 (N.of_nat (FIELD_COUNT m)) - 1)%N.

Fixpoint join_text (sep : string) (l : list string) : string :=
  match l with [] => "" | [w] => w | w :: l => w +:+ sep +:+ join_text sep l end.

Definition missing_fields (m : StrictMessage) (seen : N) : string :=
  join_text ", "
    (map (λ n, to_string (N.of_nat n))
       (List.filter (λ n, (N.land seen (N.shiftl 1 (N.of_nat n - 1)) =? 0)%N)
          (seq 1 (FIELD_COUNT m)))).

Definition preflight (m : StrictMessage) (raw : bytes_) : option (result string unit) :=
  let len := N.of_nat (length raw) in
  if (MAX_ENCODED_LEN m <? len)%N then
    Some (Err ("Nix cache protobuf is " +:+ to_string len +:+ " bytes; maximum is "
                 +:+ to_string (MAX_ENCODED_LEN m)))
  else
    match check_fields (S (length raw)) m raw 0 0 with
    | Some (Ok seen) =>
        if (seen =? required_fields m)%N then Some (Ok tt)
        else Some (Err ("missing required field(s): " +:+ missing_fields m seen))
    | Some (Err e) => Some (Err e)
    | None => None
    end.

(** ** The decoder *)

Inductive CodecStatus := DataLoss (message : string) | CodecInvalidArgument (message : string).

Definition codec_status (m : StrictMessage) (message : string) : CodecStatus :=
  if IS_RESPONSE m then DataLoss message else CodecInvalidArgument message.

(** [StrictProstDecoder::decode], over the decoder of [prost]. *)
Definition strict_decode {T} (prost_decode : bytes_ → result string T) (m : StrictMessage)
    (raw : bytes_) : option (result CodecStatus T) :=
  match preflight m raw with
  | Some (Ok _) =>
      Some (map_err (λ e, codec_status m ("invalid protobuf: " +:+ e)) (prost_decode raw))
  | Some (Err e) => Some (Err (codec_status m e))
  | None => None
  end.

(** ** Wire format *)

(** Base-128 digits, low first; not only the shortest form. *)
Inductive varint : N → bytes_ → Prop :=
| varint_last b : (b < 128)%N → varint b [b]
| varint_more b v l : (128 ≤ b < 256)%N → varint v l → varint (b - 128 + 128 * v) (b :: l).

(** A 64-bit varint: at most ten bytes. *)
Definition varint64 (v : N) (l : bytes_) : Prop := varint v l ∧ length l ≤ 10 ∧ (v < 2 ^ 64)%N.

Inductive WireValue := Bytes_ (b : bytes_) | Varint (v : N).

Definition wire_type_of (w : WireValue) : N := match w with Bytes_ _ => 2 | Varint _ => 0 end.

Inductive wire_value : WireValue → bytes_ → Prop :=
| wire_bytes b l : varint64 (N.of_nat (length b)) l → wire_value (Bytes_ b) (l ++ b)
| wire_varint v l : varint64 v l → wire_value (Varint v) l.

Inductive wire : list (N * WireValue) → bytes_ → Prop :=
| wire_nil : wire [] []
| wire_cons n w fs k l rest :
    varint64 (n * 8 + wire_type_of w) k → wire_value w l → wire fs rest →
    wire ((n, w) :: fs) (k ++ l ++ rest).

(** What a rule admits. *)
Definition length_ok (kind : LengthKind) (b : bytes_) : Prop :=
  match kind with
  | LkKeyId => 1 ≤ length b ≤ 256 ∧ is_utf8 b = true ∧ existsb is_ascii_control b = false
  | LkKeyName => length b ≤ 128 ∧ is_valid_key_name b = true
  | LkPublicKey => length b = 32
  | LkIdentifier => length b = 16 ∧ forallb (N.eqb 0) b = false
  | LkProfile => b = bytes PROFILE
  | LkFingerprint => b ≠ [] ∧ (N.of_nat (length b) ≤ MAX_PATH_INFO_V1_LEN)%N
  | LkSignature => length b = 64
  end.

Definition value_ok (rule : FieldRule) (w : WireValue) : Prop :=
  match rule, w with
  | LengthDelimited kind, Bytes_ b => length_ok kind b
  | ExactVarint e, Varint v => v = e
  | EnrollmentDisposition, Varint v => v = 1%N ∨ v = 2%N
  | _, _ => False
  end.

(** A field the schema has, with a value its rule admits. *)
Definition field_ok (m : StrictMessage) (f : N * WireValue) : Prop :=
  ∃ rule, field_rule m f.1 = Some rule ∧ value_ok rule f.2.

(** Every field of the schema once. *)
Definition complete (m : StrictMessage) (fs : list (N * WireValue)) : Prop :=
  map fst fs ≡ₚ map N.of_nat (seq 1 (FIELD_COUNT m)).

(** ** Varints are read *)

Lemma land_127 b : N.land b 0x7f = (b mod 128)%N.
Proof. apply (N.land_ones b 7). Qed.

Lemma continues b : (b < 256)%N → (N.land b 0x80 =? 0)%N = (b <? 128)%N.
Proof.
  intros H. assert (b = N.of_nat (N.to_nat b)) as -> by lia.
  assert (N.to_nat b < 256) as Hn by lia. clear H. revert Hn. generalize (N.to_nat b). intros n Hn.
  assert (In n (seq 0 256)) as Hin by (apply in_seq; lia).
  apply (proj1 (forallb_forall (λ n, Bool.eqb (N.land (N.of_nat n) 0x80 =? 0)%N
    (N.of_nat n <? 128)%N) (seq 0 256)) eq_refl) in Hin. by apply Bool.eqb_prop.
Qed.

Lemma lor_disjoint a x k : (a < 2 ^ k)%N → N.lor a (N.shiftl x k) = (a + x * 2 ^ k)%N.
Proof.
  intros Ha. assert (N.land a (N.shiftl x k) = 0%N) as H0.
  { apply N.bits_inj_0. intros n. rewrite N.land_spec. destruct (N.lt_ge_cases n k) as [Hn | Hn].
    - by rewrite N.shiftl_spec_low, andb_false_r.
    - destruct (N.eq_dec a 0) as [-> | Hz]; [by rewrite N.bits_0 |].
      rewrite N.bits_above_log2; [done |]. apply N.log2_lt_pow2 in Ha; lia. }
  by rewrite <- N.lxor_lor, <- N.add_nocarry_lxor, N.shiftl_mul_pow2 by done.
Qed.

(** The shift of the turn that leaves [turns - 1] more. *)
Definition shift_at (turns : nat) : N := 7 * (10 - N.of_nat turns).

Lemma shift_next turns : S turns ≤ 10 → (shift_at (S turns) + 7)%N = shift_at turns.
Proof. unfold shift_at. lia. Qed.

Lemma shift_pow turns :
  1 ≤ turns ≤ 10 →
  (shift_at turns = 63%N ∧ turns = 1%nat) ∨
  (shift_at turns ≠ 63 ∧ 2 ^ shift_at turns ≤ 2 ^ 56)%N.
Proof.
  intros H. unfold shift_at. destruct (decide (turns = 1)) as [-> | Ht]; [by left | right].
  split; [lia |]. apply N.pow_le_mono_r; lia.
Qed.

(** A digit added at its place. *)
Lemma add_digit turns acc x :
  1 ≤ turns ≤ 10 → (acc < 2 ^ shift_at turns)%N → (x < 128)%N → (turns = 1%nat → (x ≤ 1)%N) →
  N.lor acc (N.shiftl x (shift_at turns) mod 2 ^ 64) = (acc + x * 2 ^ shift_at turns)%N ∧
  (acc + x * 2 ^ shift_at turns < 2 ^ 64)%N.
Proof.
  intros Ht Ha Hx H1.
  assert (acc + x * 2 ^ shift_at turns < 2 ^ 64)%N as Hlt.
  { destruct (shift_pow turns Ht) as [[E ->] | [_ Hp]].
    - rewrite E in *. specialize (H1 eq_refl). simpl in *. lia.
    - simpl in *. nia. }
  split; [| done]. rewrite N.mod_small, lor_disjoint; [done | done |].
  rewrite N.shiftl_mul_pow2. lia.
Qed.

Lemma digit_below turns acc x :
  (acc < 2 ^ shift_at (S turns))%N → S turns ≤ 10 → (x < 128)%N →
  (acc + x * 2 ^ shift_at (S turns) < 2 ^ shift_at turns)%N.
Proof.
  intros Ha Ht Hx. rewrite <- (shift_next turns), N.pow_add_r by done.
  generalize dependent (2 ^ shift_at (S turns))%N. intros p Hp. simpl. nia.
Qed.

Lemma digit_of b : (b < 256)%N → N.land b 0x7f = if (b <? 128)%N then b else (b - 128)%N.
Proof.
  intros Hb. rewrite land_127. destruct (N.ltb_spec b 128); [by apply N.mod_small |].
  symmetry. apply (N.mod_unique _ _ 1); lia.
Qed.

Lemma read_varint_loop_sound turns raw cursor acc v c :
  is_bytes raw → turns ≤ 10 → (acc < 2 ^ shift_at turns)%N →
  read_varint_loop turns raw cursor (shift_at turns) acc = Ok (v, c) →
  ∃ w l, drop cursor raw = l ++ drop c raw ∧ varint w l ∧ length l ≤ turns ∧
    v = (acc + w * 2 ^ shift_at turns)%N ∧ (v < 2 ^ 64)%N ∧ c = cursor + length l.
Proof.
  intros Hb. revert cursor acc. induction turns as [| turns IH]; intros cursor acc Ht Ha; [done |].
  cbn [read_varint_loop]. destruct (raw !! cursor) as [b |] eqn:E; [| done]. cbn [ok_or].
  pose proof (Forall_lookup_1 _ _ _ _ Hb E) as H256. unfold is_byte in H256.
  destruct ((shift_at (S turns) =? 63)%N && (1 <? b)%N) eqn:E63; [done |].
  assert (S turns = 1%nat → (b ≤ 1)%N) as H1.
  { intros [= ->]. simpl in E63. by apply N.ltb_ge. }
  rewrite continues, digit_of by done. destruct (N.ltb_spec b 128) as [Hl | Hl].
  - destruct (add_digit (S turns) acc b) as [-> Hv]; [lia | done | done | done |].
    intros [= <- <-]. exists b, [b]. split_and!; try done; [| by constructor | simpl; lia | simpl; lia].
    by apply drop_S.
  - destruct turns as [| turns]; [done |].
    destruct (add_digit (S (S turns)) acc (b - 128)) as [-> Hv]; [lia | done | lia | lia |].
    rewrite shift_next by done. intros H. apply IH in H as (w & l & Hd & Hw & Hlen & -> & Hv' & ->);
      [| lia | by apply digit_below; lia].
    exists (b - 128 + 128 * w)%N, (b :: l). split_and!; [| by constructor | simpl; lia | | done | simpl; lia].
    + by rewrite (drop_S _ _ _ E), Hd.
    + rewrite <- (shift_next (S turns)), N.pow_add_r by done. change (2 ^ 7)%N with 128%N. lia.
Qed.

Lemma drop_cons_lookup (raw : bytes_) cursor b t :
  drop cursor raw = b :: t → raw !! cursor = Some b ∧ drop (S cursor) raw = t.
Proof.
  intros H. split.
  - by rewrite <- (Nat.add_0_r cursor), <- lookup_drop, H.
  - by rewrite <- Nat.add_1_r, <- drop_drop, H.
Qed.

Lemma varint_cons_pos v l : varint v l → 1 ≤ length l.
Proof. destruct 1; simpl; lia. Qed.

Lemma read_varint_loop_complete w l :
  varint w l → ∀ turns raw cursor acc rest,
  length l ≤ turns ≤ 10 → (acc < 2 ^ shift_at turns)%N → drop cursor raw = l ++ rest →
  (acc + w * 2 ^ shift_at turns < 2 ^ 64)%N →
  read_varint_loop turns raw cursor (shift_at turns) acc =
  Ok ((acc + w * 2 ^ shift_at turns)%N, cursor + length l).
Proof.
  induction 1 as [b Hb | b v l Hb Hv IH]; intros turns raw cursor acc rest Ht Ha Hd Hlt;
    (destruct turns as [| turns]; [simpl in Ht; lia |]);
    apply drop_cons_lookup in Hd as [E Hd]; cbn [read_varint_loop]; rewrite E; cbn [ok_or];
    rewrite continues, digit_of by lia.
  - assert (S turns = 1%nat → (b ≤ 1)%N) as H1.
    { intros [= ->]. change (shift_at 1) with 63%N in Hlt. simpl in Hlt. lia. }
    destruct ((shift_at (S turns) =? 63)%N && (1 <? b)%N) eqn:E63.
    { apply andb_true_iff in E63 as [E1%N.eqb_eq E2%N.ltb_lt].
      destruct (shift_pow (S turns)) as [[_ Et] | []]; [simpl in Ht; lia | | done].
      specialize (H1 Et). lia. }
    rewrite (proj2 (N.ltb_lt b 128)) by done.
    destruct (add_digit (S turns) acc b) as [-> _]; [lia | done | done | done |].
    simpl length. do 2 f_equal. lia.
  - pose proof (varint_cons_pos _ _ Hv). simpl in Ht. destruct turns as [| turns]; [lia |].
    destruct (shift_pow (S (S turns))) as [[_ [=]] | [E63 _]]; [lia |].
    rewrite (proj2 (N.eqb_neq _ _) E63). cbn [andb].
    rewrite (proj2 (N.ltb_ge b 128)) by lia.
    destruct (add_digit (S (S turns)) acc (b - 128)) as [-> _]; [lia | done | lia | lia |].
    assert ((b - 128 + 128 * v) * 2 ^ shift_at (S (S turns)) =
            (b - 128) * 2 ^ shift_at (S (S turns)) + v * 2 ^ shift_at (S turns))%N as Es.
    { rewrite <- (shift_next (S turns)), N.pow_add_r by lia. change (2 ^ 7)%N with 128%N. lia. }
    rewrite shift_next by lia. rewrite (IH (S turns) raw (S cursor) _ rest).
    + simpl length. do 2 f_equal; lia.
    + lia.
    + apply digit_below; [done | lia | lia].
    + done.
    + lia.
Qed.

Lemma read_varint_sound raw cursor v c :
  is_bytes raw → read_varint raw cursor = Ok (v, c) →
  ∃ l, drop cursor raw = l ++ drop c raw ∧ varint64 v l ∧ c = cursor + length l.
Proof.
  intros Hb H. apply (read_varint_loop_sound 10 raw cursor 0) in H
    as (w & l & Hd & Hw & Hl & -> & Hv & ->); [| done | lia | done].
  change (shift_at 10) with 0%N in *. rewrite N.pow_0_r, N.mul_1_r, N.add_0_l in *.
  by exists l.
Qed.

Lemma read_varint_complete raw cursor v l rest :
  drop cursor raw = l ++ rest → varint64 v l → read_varint raw cursor = Ok (v, cursor + length l).
Proof.
  intros Hd (Hv & Hl & H64).
  pose proof (read_varint_loop_complete _ _ Hv 10 raw cursor 0 rest) as H.
  change (shift_at 10) with 0%N in H. rewrite N.pow_0_r, N.mul_1_r, N.add_0_l in H.
  apply H; [lia | lia | done | done].
Qed.

(** ** Values are checked *)

Lemma require_length_Ok number b lo hi :
  require_length number b lo hi = Ok tt ↔ (lo ≤ N.of_nat (length b) ≤ hi)%N.
Proof.
  unfold require_length. destruct (_ && _) eqn:E; simpl.
  - split; [| done]. intros _. apply andb_true_iff in E as [?%N.leb_le ?%N.leb_le]. done.
  - split; [done |]. intros [?%N.leb_le ?%N.leb_le]. apply andb_false_iff in E. intuition congruence.
Qed.

Lemma from_utf8_Ok b s : is_bytes b → from_utf8 b = Some s ↔ is_utf8 b = true ∧ bytes s = b ∧ s = of_bytes b.
Proof.
  intros Hb. unfold from_utf8. destruct (is_utf8 b); [| by split; [| intros []]].
  split; [intros [= <-] | by intros (_ & _ & ->)]. split; [done |]. by rewrite bytes_of_bytes.
Qed.

Lemma validate_length_value_Ok number kind b :
  is_bytes b → validate_length_value number kind b = Ok tt ↔ length_ok kind b.
Proof.
  intros Hb. destruct kind; simpl validate_length_value; simpl length_ok;
    rewrite ?require_length_Ok; unfold KEY_ID_MAX, KEY_NAME_MAX, FINGERPRINT_MAX, MAX_PATH_INFO_V1_LEN.
  - destruct (require_length number b 1 256) as [[] |] eqn:E.
    + apply require_length_Ok in E. unfold from_utf8. destruct (is_utf8 b) eqn:Eu; simpl.
      * rewrite bytes_of_bytes by done. destruct (existsb is_ascii_control b);
          [by split; [| intros (_ & _ & ?)] |].
        split; [| done]. intros _. split; [lia | done].
      * split; [done | by intros (_ & ? & _)].
    + split; [done |]. intros [H _]. assert (require_length number b 1 256 = Ok tt); [| congruence].
      apply require_length_Ok. lia.
  - destruct (require_length number b 1 128) as [[] |] eqn:E.
    + apply require_length_Ok in E. destruct (is_valid_key_name b); simpl.
      * split; [| done]. intros _. split; [lia | done].
      * split; [done | by intros []].
    + split; [done |]. intros [H Hv]. assert (require_length number b 1 128 = Ok tt); [| congruence].
      apply require_length_Ok. destruct b; [done |]. simpl in *. lia.
  - lia.
  - destruct (require_length number b 16 16) as [[] |] eqn:E.
    + apply require_length_Ok in E. destruct (forallb _ b); [by split; [| intros []] |].
      split; [| done]. intros _. split; [lia | done].
    + split; [done |]. intros [H _]. assert (require_length number b 16 16 = Ok tt); [| congruence].
      apply require_length_Ok. lia.
  - case_bool_decide; simpl; by split.
  - split; [intros H; split; [| lia]; by destruct b; [simpl in H; lia |] |].
    intros [Hne H]. destruct b; [done |]. simpl in *. lia.
  - lia.
Qed.

Lemma slice_Some raw cursor len b :
  slice raw cursor len = Some b → N.of_nat (length b) = len ∧ drop cursor raw = b ++ drop (cursor + length b) raw.
Proof.
  unfold slice. destruct (N.leb_spec (N.of_nat cursor + len) (N.of_nat (length raw))) as [H |]; [| done].
  intros [= <-]. assert (length (take (N.to_nat len) (drop cursor raw)) = N.to_nat len) as E.
  { rewrite length_take, length_drop. lia. }
  split; [lia |]. by rewrite E, <- drop_drop, take_drop.
Qed.

Lemma slice_complete raw cursor b rest :
  cursor ≤ length raw → drop cursor raw = b ++ rest →
  slice raw cursor (N.of_nat (length b)) = Some b.
Proof.
  intros Hc H. unfold slice. assert (length (drop cursor raw) = length b + length rest) as E
    by (by rewrite H, length_app). rewrite length_drop in E.
  rewrite (proj2 (N.leb_le _ _)) by lia. by rewrite H, Nat2N.id, take_app_length.
Qed.

Lemma drop_app_len {A} (raw l rest : list A) cursor :
  drop cursor raw = l ++ rest → drop (cursor + length l) raw = rest.
Proof. intros H. by rewrite <- drop_drop, H, drop_app_length. Qed.

Lemma check_value_sound raw number wire_type rule cursor c :
  is_bytes raw → check_value raw number wire_type rule cursor = Ok c →
  ∃ w l, drop cursor raw = l ++ drop c raw ∧ wire_value w l ∧ wire_type = wire_type_of w ∧
    value_ok rule w ∧ c = cursor + length l.
Proof.
  intros Hb. destruct rule as [kind | e |]; cbn [check_value]; intros H; inv_ok_step H; bool_facts;
    (destruct (read_varint raw cursor) as [[v c'] |] eqn:Er; [| done]);
    apply read_varint_sound in Er as (l & Hd & Hv & ->); [| done | | done | | done].
  - inv_ok_step H. destruct (slice _ _ _) as [b |] eqn:Es; [| done]. cbn [ok_or] in H.
    apply slice_Some in Es as [<- Hs].
    destruct (validate_length_value number kind b) as [[] |] eqn:Ev; [| done]. injection H as <-.
    rewrite Hs, app_assoc in Hd. exists (Bytes_ b), (l ++ b). split_and!; [done | by constructor | done | |].
    + eapply validate_length_value_Ok; [| done].
      assert (is_bytes (b ++ drop (cursor + length l + length b) raw)) as Hbs
        by (rewrite <- Hs; by apply is_bytes_drop).
      by apply Forall_app in Hbs as [? _].
    + rewrite length_app. lia.
  - inv_ok H. bool_facts. exists (Varint v), l. by split_and!; [| constructor | | |].
  - inv_ok H. bool_facts. exists (Varint v), l. split_and!; [done | by constructor | done | | done].
    simpl. destruct (v =? 1)%N eqn:E1; [left | right]; by apply N.eqb_eq.
Qed.

Lemma check_value_complete raw number rule w cursor l rest :
  is_bytes raw → (N.of_nat (length raw) < 2 ^ 64)%N → drop cursor raw = l ++ rest →
  wire_value w l → value_ok rule w →
  check_value raw number (wire_type_of w) rule cursor = Ok (cursor + length l).
Proof.
  intros Hb H64 Hd Hw Hok. destruct rule as [kind | e |], Hw as [b l Hv | v l Hv]; try done.
  - cbn [check_value wire_type_of]. rewrite N.eqb_refl. cbn [negb].
    rewrite <- app_assoc in Hd. rewrite (read_varint_complete _ _ _ _ _ Hd Hv).
    pose proof (drop_app_len _ _ _ _ Hd) as Hd'.
    assert (length (drop cursor raw) = length l + (length b + length rest)) as El
      by (by rewrite Hd, !length_app). rewrite length_drop in El.
    destruct Hv as (Hv & _ & _). pose proof (varint_cons_pos _ _ Hv).
    rewrite (proj2 (N.leb_gt (2 ^ 64) _)) by lia.
    rewrite (slice_complete _ _ b rest) by (done || lia). cbn [ok_or].
    assert (is_bytes b) as Hbb.
    { apply (is_bytes_drop _ (cursor + length l)) in Hb. rewrite Hd' in Hb.
      by apply Forall_app in Hb as [? _]. }
    by rewrite (proj2 (validate_length_value_Ok number kind b Hbb) Hok), length_app, Nat.add_assoc.
  - cbn in Hok. subst v. cbn [check_value wire_type_of]. rewrite N.eqb_refl. cbn [negb].
    rewrite (read_varint_complete _ _ _ _ _ Hd Hv). by rewrite N.eqb_refl.
  - cbn [check_value wire_type_of]. rewrite N.eqb_refl. cbn [negb].
    rewrite (read_varint_complete _ _ _ _ _ Hd Hv). by destruct Hok as [-> | ->].
Qed.

(** ** Fields are checked *)

(** [n] is among the seen fields. *)
Definition has (seen n : N) : bool := N.testbit seen (n - 1).

Lemma land_bit seen k : (N.land seen (N.shiftl 1 k) =? 0)%N = negb (N.testbit seen k).
Proof.
  rewrite N.shiftl_1_l. destruct (N.testbit seen k) eqn:E; simpl.
  - apply N.eqb_neq. intros H. assert (N.testbit (N.land seen (2 ^ k)) k = false) as H'
      by (by rewrite H, N.bits_0). by rewrite N.land_spec, E, N.pow2_bits_true in H'.
  - apply N.eqb_eq, N.bits_inj_0. intros n. rewrite N.land_spec, N.pow2_bits_eqb.
    destruct (N.eqb_spec k n) as [-> |]; [by rewrite E | apply andb_false_r].
Qed.

Lemma lor_bit seen k n : N.testbit (N.lor seen (N.shiftl 1 k)) n = N.testbit seen n || (k =? n)%N.
Proof. by rewrite N.lor_spec, N.shiftl_1_l, N.pow2_bits_eqb. Qed.

(** The schemas have fewer than 64 fields and limits below [2 ^ 64]. *)
Definition schema_ok (m : StrictMessage) : Prop :=
  FIELD_COUNT m ≤ 63 ∧ (MAX_ENCODED_LEN m < 2 ^ 64)%N.

Lemma field_rule_range m n rule :
  field_rule m n = Some rule → (1 ≤ n ≤ N.of_nat (FIELD_COUNT m))%N.
Proof.
  unfold field_rule, FIELD_COUNT. destruct (N.eqb_spec n 0); [done |].
  intros H%lookup_lt_Some. lia.
Qed.

Lemma key_parts n w : N.shiftr (n * 8 + wire_type_of w) 3 = n ∧ N.land (n * 8 + wire_type_of w) 7 = wire_type_of w.
Proof.
  rewrite N.shiftr_div_pow2. change 7%N with (N.ones 3). rewrite N.land_ones. change (2 ^ 3)%N with 8%N.
  assert (wire_type_of w < 8)%N by (by destruct w).
  split; symmetry; [apply (N.div_unique _ _ _ (wire_type_of w)) | apply (N.mod_unique _ _ n)]; lia.
Qed.

Lemma key_of_parts key : (N.shiftr key 3 * 8 + N.land key 7)%N = key.
Proof.
  rewrite N.shiftr_div_pow2. change 7%N with (N.ones 3). rewrite N.land_ones. change (2 ^ 3)%N with 8%N.
  pose proof (N.div_mod key 8 ltac:(done)). lia.
Qed.

Lemma check_field_sound m raw cursor seen c seen' :
  is_bytes raw → check_field m raw cursor seen = Ok (c, seen') →
  ∃ n w k l, drop cursor raw = k ++ l ++ drop c raw ∧ varint64 (n * 8 + wire_type_of w) k ∧
    wire_value w l ∧ field_ok m (n, w) ∧ has seen n = false ∧
    seen' = N.lor seen (N.shiftl 1 (n - 1)) ∧ c = cursor + length k + length l.
Proof.
  intros Hb. unfold check_field. destruct (read_varint raw cursor) as [[key c'] |] eqn:Er; [| done].
  apply read_varint_sound in Er as (k & Hd & Hk & ->); [| done]. intros H.
  inv_ok_step H. inv_ok_step H. inv_ok_step H.
  destruct (field_rule m (N.shiftr key 3)) as [rule |] eqn:Erule; [| done]. cbn [ok_or] in H.
  destruct (check_value _ _ _ _ _) as [c'' |] eqn:Ec; [| done]. injection H as <- <-.
  apply check_value_sound in Ec as (w & l & Hd' & Hw & Ewt & Hok & ->); [| done].
  exists (N.shiftr key 3), w, k, l. rewrite <- Ewt, key_of_parts, Hd, Hd'.
  rewrite land_bit, negb_involutive in E1.
  split_and!; try done; [by exists rule].
Qed.

Lemma check_field_complete m raw cursor seen n w k l rest :
  schema_ok m → is_bytes raw → (N.of_nat (length raw) < 2 ^ 64)%N →
  drop cursor raw = k ++ l ++ rest → varint64 (n * 8 + wire_type_of w) k → wire_value w l →
  field_ok m (n, w) → has seen n = false →
  check_field m raw cursor seen =
  Ok (cursor + length k + length l, N.lor seen (N.shiftl 1 (n - 1))).
Proof.
  intros [Hc _] Hb H64 Hd Hk Hw (rule & Hr & Hok) Hs. cbn [fst snd] in *. unfold check_field.
  rewrite (read_varint_complete _ _ _ _ _ Hd Hk). destruct (key_parts n w) as [-> ->].
  pose proof (field_rule_range _ _ _ Hr) as Hn.
  rewrite (proj2 (N.leb_gt (2 ^ 32) n)) by lia.
  rewrite (proj2 (N.eqb_neq n 0)), (proj2 (N.ltb_ge 63 n)) by lia. cbn [orb].
  unfold has in Hs. rewrite land_bit, Hs, Hr. cbn [negb ok_or].
  by rewrite (check_value_complete raw n rule w _ l rest) by (done || by apply drop_app_len in Hd).
Qed.

(** The seen fields after the fields [fs]. *)
Definition sees (seen : N) (fs : list (N * WireValue)) (seen' : N) : Prop :=
  ∀ k, N.testbit seen' k = N.testbit seen k || existsb (λ f, (f.1 - 1 =? k)%N) fs.

(** Distinct fields, none of them seen. *)
Definition fresh_fields (seen : N) (fs : list (N * WireValue)) : Prop :=
  NoDup (map fst fs) ∧ Forall (λ f, has seen f.1 = false) fs.

Lemma sees_cons seen n w fs seen' :
  sees (N.lor seen (N.shiftl 1 (n - 1))) fs seen' ↔ sees seen ((n, w) :: fs) seen'.
Proof. unfold sees. simpl. setoid_rewrite lor_bit. setoid_rewrite orb_assoc. done. Qed.

Lemma fresh_cons m seen n w fs :
  field_ok m (n, w) → Forall (field_ok m) fs →
  fresh_fields seen ((n, w) :: fs) ↔
  has seen n = false ∧ fresh_fields (N.lor seen (N.shiftl 1 (n - 1))) fs.
Proof.
  intros (rule & Hr%field_rule_range & _) Hfs. unfold fresh_fields. simpl.
  rewrite list.NoDup_cons, List.Forall_cons_iff, !List.Forall_forall.
  unfold has. cbn [fst snd] in *. setoid_rewrite lor_bit. rewrite List.Forall_forall in Hfs.
  assert (∀ f, In f fs → (n - 1 =? f.1 - 1)%N = (n =? f.1)%N) as Heq.
  { intros f (r' & Hr'%field_rule_range & _)%Hfs.
    destruct (N.eqb_spec n f.1) as [-> | Hne]; [by apply N.eqb_eq | apply N.eqb_neq; lia]. }
  split.
  - intros [[Hn Hnd] [Hs Hall]]. split_and!; [done | done |]. intros f Hf.
    rewrite (Hall f Hf), Heq by done. apply N.eqb_neq. intros ->. apply Hn.
    by apply list_elem_of_In, in_map.
  - intros [Hs [Hnd Hall]]. split_and!; [| done | done |].
    + intros (f & <- & Hf)%list_elem_of_In%in_map_iff. specialize (Hall f Hf).
      rewrite Heq, N.eqb_refl, orb_true_r in Hall by done. done.
    + intros f Hf. specialize (Hall f Hf). by apply orb_false_iff in Hall as [? _].
Qed.

Lemma check_fields_sound fuel m raw cursor seen seen' :
  is_bytes raw → check_fields fuel m raw cursor seen = Some (Ok seen') →
  ∃ fs, wire fs (drop cursor raw) ∧ Forall (field_ok m) fs ∧ fresh_fields seen fs ∧ sees seen fs seen'.
Proof.
  intros Hb. revert cursor seen. induction fuel as [| fuel IH]; intros cursor seen; [done |].
  cbn [check_fields]. destruct (Nat.ltb_spec cursor (length raw)) as [Hc | Hc].
  - destruct (check_field m raw cursor seen) as [[c s] |] eqn:E; [| done].
    apply check_field_sound in E as (n & w & k & l & Hd & Hk & Hw & Hok & Hn & -> & ->); [| done].
    intros (fs & Hfs & Hall & Hf & Hs)%IH. exists ((n, w) :: fs). rewrite Hd.
    split_and!; [by constructor | by constructor | by apply (fresh_cons m) | by apply sees_cons].
  - intros [= <-]. exists []. rewrite drop_ge by done.
    split_and!; [constructor | constructor | split; constructor |].
    intros k. by rewrite orb_false_r.
Qed.

Lemma check_fields_complete m raw fs rest :
  schema_ok m → is_bytes raw → (N.of_nat (length raw) < 2 ^ 64)%N → wire fs rest →
  ∀ fuel cursor seen, drop cursor raw = rest → Forall (field_ok m) fs → fresh_fields seen fs →
  length fs < fuel → ∃ seen', check_fields fuel m raw cursor seen = Some (Ok seen') ∧ sees seen fs seen'.
Proof.
  intros Hm Hb H64. induction 1 as [| n w fs k l rest Hk Hw Hfs IH]; intros fuel cursor seen Hd Hall Hf Hl;
    (destruct fuel as [| fuel]; [simpl in Hl; lia |]); cbn [check_fields].
  - assert (length (drop cursor raw) = 0%nat) as E by (by rewrite Hd). rewrite length_drop in E.
    rewrite (proj2 (Nat.ltb_ge _ _)) by lia. exists seen. split; [done |].
    intros j. by rewrite orb_false_r.
  - apply List.Forall_cons_iff in Hall as [Hok Hall]. apply (fresh_cons m) in Hf as [Hn Hf]; [| done | done].
    assert (length (drop cursor raw) = length k + (length l + length rest)) as E
      by (by rewrite Hd, !length_app). rewrite length_drop in E.
    pose proof (varint_cons_pos _ _ (proj1 Hk)). rewrite (proj2 (Nat.ltb_lt _ _)) by lia.
    rewrite (check_field_complete m raw cursor seen n w k l rest) by done.
    destruct (IH fuel (cursor + length k + length l) (N.lor seen (N.shiftl 1 (n - 1)))) as (s & -> & Hs).
    + by apply drop_app_len, drop_app_len.
    + done.
    + done.
    + simpl in Hl. lia.
    + exists s. split; [done |]. by apply sees_cons.
Qed.

Lemma check_fields_total fuel m raw cursor seen :
  is_bytes raw → length raw - cursor < fuel → check_fields fuel m raw cursor seen ≠ None.
Proof.
  intros Hb. revert cursor seen. induction fuel as [| fuel IH]; intros cursor seen Hf; [lia |].
  cbn [check_fields]. destruct (Nat.ltb_spec cursor (length raw)); [| done].
  destruct (check_field m raw cursor seen) as [[c s] |] eqn:E; [| done].
  apply check_field_sound in E as (n & w & k & l & _ & [Hk _] & _ & _ & _ & _ & ->); [| done].
  apply IH. apply varint_cons_pos in Hk. lia.
Qed.

(** ** The preflight is exact *)

Lemma required_ones m : schema_ok m → required_fields m = N.ones (N.of_nat (FIELD_COUNT m)).
Proof.
  intros [H _]. unfold required_fields. rewrite (proj2 (Nat.eqb_neq _ 64)) by lia.
  unfold N.ones. by rewrite N.sub_1_r.
Qed.

Lemma seen_required m fs seen :
  schema_ok m → Forall (field_ok m) fs → sees 0 fs seen →
  seen = required_fields m ↔
  ∀ n, n ∈ map fst fs ↔ n ∈ map N.of_nat (seq 1 (FIELD_COUNT m)).
Proof.
  intros Hm Hall Hs. rewrite required_ones by done.
  assert (∀ n, n ∈ map N.of_nat (seq 1 (FIELD_COUNT m)) ↔ (1 ≤ n ≤ N.of_nat (FIELD_COUNT m))%N) as Hseq.
  { intros n. rewrite list_elem_of_In, in_map_iff. setoid_rewrite in_seq. split.
    - intros (x & <- & Hx). lia.
    - intros Hn. exists (N.to_nat n). lia. }
  assert (∀ k, N.testbit seen k = true ↔ (k + 1)%N ∈ map fst fs) as Hseen.
  { intros k. rewrite Hs, N.bits_0. cbn [orb]. rewrite existsb_exists, list_elem_of_In, in_map_iff.
    rewrite List.Forall_forall in Hall. split; intros (f & H1 & H2); exists f.
    - apply N.eqb_eq in H2. destruct (Hall f H1) as (r & Hr%field_rule_range & _). split; [lia | done].
    - split; [done |]. apply N.eqb_eq. lia. }
  split.
  - intros -> n. rewrite Hseq. split.
    + intros (f & <- & Hf)%list_elem_of_In%in_map_iff. rewrite List.Forall_forall in Hall.
      destruct (Hall f Hf) as (r & Hr%field_rule_range & _). done.
    + intros Hn. replace n with (n - 1 + 1)%N by lia. apply Hseen, N.ones_spec_iff. lia.
  - intros H. apply N.bits_inj. intros k. apply eq_true_iff_eq.
    rewrite Hseen, H, Hseq, N.ones_spec_iff. lia.
Qed.

Lemma complete_iff m fs seen :
  schema_ok m → Forall (field_ok m) fs → NoDup (map fst fs) → sees 0 fs seen →
  seen = required_fields m ↔ complete m fs.
Proof.
  intros Hm Hall Hnd Hs. rewrite (seen_required m fs) by done. unfold complete. split.
  - intros H. apply NoDup_Permutation; [done | | done].
    apply NoDup_fmap_2; [apply _ | apply NoDup_seq].
  - intros Hp n. by rewrite Hp.
Qed.

(** Every field of the schema once, with a value its rule admits. *)
Definition admits (m : StrictMessage) (fs : list (N * WireValue)) : Prop :=
  complete m fs ∧ Forall (field_ok m) fs.

Lemma admits_fresh m fs : admits m fs → fresh_fields 0 fs ∧ length fs = FIELD_COUNT m.
Proof.
  intros [Hc _]. unfold complete in Hc. split; [split |].
  - rewrite Hc. apply NoDup_fmap_2; [apply _ | apply NoDup_seq].
  - apply List.Forall_forall. intros f _. unfold has. apply N.bits_0.
  - apply Permutation_length in Hc. by rewrite !length_map, length_seq in Hc.
Qed.

Definition nix_messages : list StrictMessage :=
  [DescribeNixCacheKeyRequest; DescribeNixCacheKeyResponse; EnrollNixCacheKeyRequest;
   EnrollNixCacheKeyResponse; SignNixCacheFingerprintRequest; SignNixCacheFingerprintResponse].

Lemma nix_schema_ok m : m ∈ nix_messages → schema_ok m.
Proof.
  intros H. unfold nix_messages in H.
  repeat (apply elem_of_cons in H as [-> | H]; [split; [by apply Nat.leb_le | done] |]).
  by apply elem_of_nil in H.
Qed.

Lemma wire_length fs l : wire fs l → length fs ≤ length l.
Proof.
  induction 1 as [| n w fs k l rest Hk Hw Hfs IH]; [done |]. rewrite !length_app. simpl.
  pose proof (varint_cons_pos _ _ (proj1 Hk)). lia.
Qed.

Lemma preflight_Ok m raw :
  schema_ok m → is_bytes raw →
  preflight m raw = Some (Ok tt) ↔
  (N.of_nat (length raw) ≤ MAX_ENCODED_LEN m)%N ∧ ∃ fs, wire fs raw ∧ admits m fs.
Proof.
  intros Hm Hb. unfold preflight. destruct (N.ltb_spec (MAX_ENCODED_LEN m) (N.of_nat (length raw))) as [H | H].
  { split; [done |]. intros [? _]. lia. }
  split.
  - destruct (check_fields _ m raw 0 0) as [[seen | e] |] eqn:E; [| done | done].
    apply check_fields_sound in E as (fs & Hw & Hall & [Hnd _] & Hs); [| done].
    destruct (N.eqb_spec seen (required_fields m)) as [Heq |]; [| done]. intros _. split; [done |].
    exists fs. split; [done |]. split; [| done]. by apply (complete_iff m fs seen).
  - intros [_ (fs & Hw & Ha)]. destruct (admits_fresh m fs Ha) as [Hf _]. destruct Ha as [Hc Hall].
    destruct Hm as [Hcount Hmax] eqn:Em.
    destruct (check_fields_complete m raw fs raw Hm Hb ltac:(lia) Hw (S (length raw)) 0 0)
      as (seen & -> & Hs); [done | done | done | apply wire_length in Hw; lia |].
    apply (complete_iff m fs seen) in Hc as ->; [by rewrite N.eqb_refl | done | done | apply Hf | done].
Qed.

(** C23: the codec decides every byte string, and passes on to the protobuf
    decoder exactly those within the size limit that are the wire form of
    every field of the schema, each once and none other, with values the rules
    admit; there is no second occurrence that could override a checked one. *)
Theorem preflight_exact m raw :
  m ∈ nix_messages → is_bytes raw →
  preflight m raw ≠ None ∧
  (preflight m raw = Some (Ok tt) ↔
   (N.of_nat (length raw) ≤ MAX_ENCODED_LEN m)%N ∧ ∃ fs, wire fs raw ∧ admits m fs).
Proof.
  intros Hm%nix_schema_ok Hb. split; [| by apply preflight_Ok].
  unfold preflight. case_match; [done |].
  pose proof (check_fields_total (S (length raw)) m raw 0 0 Hb ltac:(lia)).
  destruct (check_fields _ m raw 0 0) as [[seen |] |]; [by case_match | done | done].
Qed.

(** ** The limits fit every message *)

(** The shortest varint, which is the one encoders write. *)
Fixpoint varint_encode (fuel : nat) (v : N) : bytes_ :=
  match fuel with
  | O => []
  | S fuel => if (v <? 128)%N then [v] else (v mod 128 + 128)%N :: varint_encode fuel (v / 128)
  end.

Definition varint_bytes (v : N) : bytes_ := varint_encode 10 v.

Definition encode_value (w : WireValue) : bytes_ :=
  match w with Bytes_ b => varint_bytes (N.of_nat (length b)) ++ b | Varint v => varint_bytes v end.

Definition encode_field (f : N * WireValue) : bytes_ :=
  varint_bytes (f.1 * 8 + wire_type_of f.2) ++ encode_value f.2.

Definition encode_fields (fs : list (N * WireValue)) : bytes_ := concat (map encode_field fs).

Lemma varint_encode_ok fuel v :
  (v < 128 ^ N.of_nat fuel)%N → 1 ≤ fuel →
  varint v (varint_encode fuel v) ∧ length (varint_encode fuel v) ≤ fuel.
Proof.
  revert v. induction fuel as [| fuel IH]; intros v Hv H1; [lia |]. cbn [varint_encode].
  destruct (N.ltb_spec v 128) as [Hl | Hl]; [split; [by constructor | simpl; lia] |].
  assert (v / 128 < 128 ^ N.of_nat fuel)%N as Hq.
  { apply N.Div0.div_lt_upper_bound. by rewrite <- N.pow_succ_r', <- Nat2N.inj_succ. }
  destruct fuel as [| fuel]; [simpl in Hv; lia |].
  destruct (IH _ Hq ltac:(lia)) as [Hw Hlen]. split; [| simpl in *; lia].
  pose proof (N.mod_lt v 128 ltac:(done)) as Hm. pose proof (N.div_mod v 128 ltac:(done)) as Hd.
  revert Hw Hm Hd. generalize (varint_encode (S fuel) (v / 128)).
  generalize (v / 128)%N, (v mod 128)%N. intros q r l Hw Hr ->.
  replace (128 * q + r)%N with (r + 128 - 128 + 128 * q)%N by lia. constructor; [lia | done].
Qed.

Lemma varint_bytes_ok v : (v < 2 ^ 64)%N → varint64 v (varint_bytes v).
Proof.
  intros H. destruct (varint_encode_ok 10 v) as [Hv Hl]; [| lia | done].
  eapply N.lt_trans; [exact H | done].
Qed.

(** Shorter than [128 ^ n]: at most [n] bytes. *)
Lemma varint_encode_length n fuel v :
  (v < 128 ^ N.of_nat n)%N → 1 ≤ n → length (varint_encode fuel v) ≤ n.
Proof.
  revert fuel v. induction n as [| n IH]; intros fuel v Hv H1; [lia |].
  destruct fuel as [| fuel]; cbn [varint_encode]; [simpl; lia |].
  destruct (N.ltb_spec v 128) as [Hl | Hl]; [simpl; lia |].
  destruct n as [| n]; [simpl in Hv; lia |]. cbn [length].
  enough (length (varint_encode fuel (v / 128)) ≤ S n) by lia. apply IH; [| lia].
  apply N.Div0.div_lt_upper_bound. by rewrite <- N.pow_succ_r', <- Nat2N.inj_succ.
Qed.

Definition kind_max (kind : LengthKind) : N :=
  match kind with
  | LkKeyId => KEY_ID_MAX | LkKeyName => KEY_NAME_MAX | LkPublicKey => 32 | LkIdentifier => 16
  | LkProfile => 12 | LkFingerprint => FINGERPRINT_MAX | LkSignature => 64
  end.

(** The bytes of a length. *)
Definition size_bytes (n : N) : N := if (n <? 128)%N then 1 else if (n <? 16384)%N then 2 else 3.

(** The longest encoding of a field: one byte of key, its length, its value. *)
Definition rule_max (rule : FieldRule) : N :=
  match rule with
  | LengthDelimited kind => 1 + size_bytes (kind_max kind) + kind_max kind
  | ExactVarint _ | EnrollmentDisposition => 2
  end.

Lemma length_ok_max kind b : length_ok kind b → (N.of_nat (length b) ≤ kind_max kind)%N.
Proof.
  unfold kind_max, KEY_ID_MAX, KEY_NAME_MAX, FINGERPRINT_MAX.
  destruct kind; simpl; intros H; try lia; [by subst | ]. unfold MAX_PATH_INFO_V1_LEN in H. lia.
Qed.

Lemma size_bytes_ok n len :
  (len ≤ n)%N → (n < 2097152)%N → (N.of_nat (length (varint_bytes len)) ≤ size_bytes n)%N.
Proof.
  intros Hl Hn. unfold size_bytes, varint_bytes.
  destruct (N.ltb_spec n 128); [| destruct (N.ltb_spec n 16384)].
  - pose proof (varint_encode_length 1 10 len ltac:(simpl; lia) ltac:(lia)). lia.
  - pose proof (varint_encode_length 2 10 len ltac:(simpl; lia) ltac:(lia)). lia.
  - pose proof (varint_encode_length 3 10 len ltac:(simpl; lia) ltac:(lia)). lia.
Qed.

Definition sum_N (l : list N) : N := fold_right N.add 0%N l.

Lemma sum_N_perm l k : l ≡ₚ k → sum_N l = sum_N k.
Proof. induction 1; simpl in *; lia. Qed.

(** One-byte keys and constants, and a limit that is the sum of the fields. *)
Definition tight (m : StrictMessage) : Prop :=
  FIELD_COUNT m ≤ 15 ∧
  Forall (λ r, match r with ExactVarint e => (e < 128)%N | _ => True end) (field_rules m) ∧
  sum_N (map rule_max (field_rules m)) = MAX_ENCODED_LEN m.

Lemma nix_tight m : m ∈ nix_messages → tight m.
Proof.
  intros H. unfold nix_messages in H.
  repeat (apply elem_of_cons in H as [-> | H];
    [split_and!; [by apply Nat.leb_le | by repeat constructor | done] |]).
  by apply elem_of_nil in H.
Qed.

Lemma field_rule_In m n rule : field_rule m n = Some rule → In rule (field_rules m).
Proof.
  unfold field_rule. case_match; [done |]. intros Hl. apply list_elem_of_In.
  by eapply list_elem_of_lookup_2.
Qed.

Lemma encode_value_length m n rule w :
  tight m → field_rule m n = Some rule → value_ok rule w →
  (1 + N.of_nat (length (encode_value w)) ≤ rule_max rule)%N.
Proof.
  intros (_ & Hsmall & _) Hr Hok. rewrite List.Forall_forall in Hsmall.
  specialize (Hsmall _ (field_rule_In _ _ _ Hr)).
  destruct rule as [kind | e |], w as [b | v]; try done; cbn [encode_value rule_max].
  - apply length_ok_max in Hok. rewrite length_app, Nat2N.inj_add.
    pose proof (size_bytes_ok (kind_max kind) (N.of_nat (length b)) Hok ltac:(by destruct kind)). lia.
  - cbn in Hok. subst. pose proof (varint_encode_length 1 10 e ltac:(simpl; lia) ltac:(lia)).
    unfold varint_bytes. lia.
  - by destruct Hok as [-> | ->].
Qed.

Lemma encode_field_length m f :
  tight m → field_ok m f →
  (N.of_nat (length (encode_field f)) ≤ from_option rule_max 0%N (field_rule m f.1))%N.
Proof.
  destruct f as [n w]. intros Ht (rule & Hr & Hok). cbn [fst snd] in *.
  pose proof (encode_value_length m n rule w Ht Hr Hok) as Hv. rewrite Hr. cbn [from_option].
  pose proof (field_rule_range _ _ _ Hr) as Hn. destruct Ht as (Hc & _ & _).
  unfold encode_field. cbn [fst snd]. rewrite length_app.
  assert (wire_type_of w ≤ 2)%N by (by destruct w).
  pose proof (varint_encode_length 1 10 (n * 8 + wire_type_of w) ltac:(simpl; lia) ltac:(lia)).
  unfold varint_bytes. lia.
Qed.

Lemma encode_fields_sum m fs :
  tight m → Forall (field_ok m) fs →
  (N.of_nat (length (encode_fields fs)) ≤
   sum_N (map (λ n, from_option rule_max 0%N (field_rule m n)) (map fst fs)))%N.
Proof.
  intros Ht. induction 1 as [| f fs Hf _ IH]; [done |]. unfold encode_fields in *. simpl.
  rewrite length_app. pose proof (encode_field_length m f Ht Hf). lia.
Qed.

Lemma rules_in_order m :
  map (λ n, from_option rule_max 0%N (field_rule m n)) (map N.of_nat (seq 1 (FIELD_COUNT m))) =
  map rule_max (field_rules m).
Proof.
  rewrite map_map. unfold FIELD_COUNT. apply list_eq. intros i.
  rewrite !list_lookup_fmap. destruct (decide (i < length (field_rules m))) as [Hi | Hi].
  - rewrite lookup_seq_lt by done. simpl. unfold field_rule.
    rewrite (proj2 (N.eqb_neq _ 0)) by lia.
    replace (N.to_nat (N.of_nat (S i) - 1)) with i by lia.
    by destruct (lookup_lt_is_Some_2 _ _ Hi) as [r ->].
  - rewrite lookup_seq_ge by lia. by rewrite lookup_ge_None_2 by lia.
Qed.

Lemma encode_fields_fit m fs :
  tight m → admits m fs → (N.of_nat (length (encode_fields fs)) ≤ MAX_ENCODED_LEN m)%N.
Proof.
  intros Ht [Hc Hall]. etransitivity; [by apply (encode_fields_sum m) |].
  rewrite (sum_N_perm _ _ (Permutation_map _ Hc)), rules_in_order. by destruct Ht as (_ & _ & ->).
Qed.

Lemma wire_encode m fs : schema_ok m → Forall (field_ok m) fs → tight m → wire fs (encode_fields fs).
Proof.
  intros [H63 _] Hall Ht. induction Hall as [| [n w] fs Hf _ IH]; [constructor |].
  unfold encode_fields. simpl. unfold encode_field at 1. cbn [fst snd]. rewrite <- app_assoc.
  pose proof (encode_field_length m _ Ht Hf) as Hl. destruct Hf as (rule & Hr & Hok). cbn [fst snd] in *.
  pose proof (field_rule_range _ _ _ Hr) as Hn. constructor; [| | done].
  - apply varint_bytes_ok. destruct w; simpl wire_type_of; lia.
  - assert (rule_max rule < 2 ^ 64)%N as Hmax by (by destruct rule as [[] | |]).
    pose proof (encode_value_length m n rule w Ht Hr Hok) as Hv.
    destruct w as [b | v]; cbn [encode_value] in *; constructor; apply varint_bytes_ok.
    + rewrite length_app in Hv. lia.
    + destruct Ht as (_ & Hs & _). rewrite List.Forall_forall in Hs.
      specialize (Hs _ (field_rule_In _ _ _ Hr)). destruct rule; try done; cbn in Hok; lia.
Qed.

Lemma varint_is_bytes v l : varint v l → is_bytes l.
Proof. induction 1; repeat (constructor; [unfold is_byte; lia |]); [constructor | done]. Qed.

Definition value_bytes (f : N * WireValue) : Prop :=
  match f.2 with Bytes_ b => is_bytes b | Varint _ => True end.

Lemma wire_is_bytes fs l : wire fs l → Forall value_bytes fs → is_bytes l.
Proof.
  induction 1 as [| n w fs k l rest [Hk _] Hw _ IH]; intros Hb; [constructor |].
  apply List.Forall_cons_iff in Hb as [Hb Hfs]. apply Forall_app_2; [by eapply varint_is_bytes |].
  apply Forall_app_2; [| by apply IH]. destruct Hw as [b l [Hv _] | v l [Hv _]].
  - apply Forall_app_2; [by eapply varint_is_bytes | done].
  - by eapply varint_is_bytes.
Qed.

(** C36: the size limits are exactly right: they are the sums of the longest
    fields, and so every message whose fields the rules admit passes when its
    fields are written in the shortest form, in whatever order. *)
Theorem canonical_accepted m fs :
  m ∈ nix_messages → admits m fs → Forall value_bytes fs →
  sum_N (map rule_max (field_rules m)) = MAX_ENCODED_LEN m ∧
  preflight m (encode_fields fs) = Some (Ok tt).
Proof.
  intros Hm Ha Hb. pose proof (nix_tight m Hm) as Ht. pose proof (nix_schema_ok m Hm) as Hs.
  split; [apply Ht |]. pose proof (wire_encode m fs Hs (proj2 Ha) Ht) as Hw.
  apply preflight_Ok; [done | by eapply wire_is_bytes |].
  split; [by apply encode_fields_fit | by exists fs].
Qed.

(** ** Signing requests *)

(** The fields of a request to sign the fingerprint of a path. *)
Definition sign_request_fields (key_id : string) (i : PathInfo) (batch request : bytes_)
    : list (N * WireValue) :=
  [(1%N, Bytes_ (bytes key_id)); (2%N, Bytes_ (bytes PROFILE)); (3%N, Bytes_ (bytes (render_info i)));
   (4%N, Bytes_ batch); (5%N, Bytes_ request)].

(** A record that can be signed can be sent. *)
Lemma sign_request_admitted key_id i batch request :
  length_ok LkKeyId (bytes key_id) → path_info_ok i →
  length_ok LkIdentifier batch → length_ok LkIdentifier request →
  admits SignNixCacheFingerprintRequest (sign_request_fields key_id i batch request).
Proof.
  intros Hk Hi Hb Hr. split; [by unfold complete; simpl |].
  assert (length_ok LkFingerprint (bytes (render_info i))) as Hf.
  { split; [done |]. rewrite length_bytes. by apply render_length. }
  unfold sign_request_fields. repeat constructor; eexists; by split.
Qed.

(** ** A request *)

Definition sample_path_info : PathInfo :=
  {| info_path := {| sp_hash := "00000000000000000000000000000000"; sp_name := "hello" |};
     info_nar_hash := "0000000000000000000000000000000000000000000000000000";
     info_nar_size := 120;
     info_references := [{| sp_hash := "10000000000000000000000000000000"; sp_name := "glibc" |}] |}.

Lemma sample_path_info_ok : path_info_ok sample_path_info.
Proof.
  split; [by repeat split; simpl; lia | done | done | | | simpl; lia].
  - apply List.Forall_cons; [by repeat split; simpl; lia | constructor].
  - repeat constructor.
Qed.

Definition sample_sign_fields : list (N * WireValue) :=
  sign_request_fields "cache.key" sample_path_info (replicate 16 1%N) (replicate 16 2%N).

Lemma sample_admitted : admits SignNixCacheFingerprintRequest sample_sign_fields.
Proof.
  apply sign_request_admitted; [| apply sample_path_info_ok | done | done].
  by split; [simpl; lia |].
Qed.

Lemma sample_bytes : Forall value_bytes sample_sign_fields.
Proof. by repeat constructor; apply is_bytes_decide. Qed.

Lemma canonical_accepted_witness :
  preflight SignNixCacheFingerprintRequest (encode_fields sample_sign_fields) = Some (Ok tt).
Proof.
  apply (canonical_accepted SignNixCacheFingerprintRequest sample_sign_fields).
  - do 4 right. left.
  - apply sample_admitted.
  - apply sample_bytes.
Defined.

Lemma preflight_exact_witness :
  ∃ fs, wire fs (encode_fields sample_sign_fields) ∧ admits SignNixCacheFingerprintRequest fs.
Proof.
  assert (is_bytes (encode_fields sample_sign_fields)) as Hb by (by apply is_bytes_decide).
  assert (SignNixCacheFingerprintRequest ∈ nix_messages) as Hm by (do 4 right; left).
  destruct (preflight_exact _ _ Hm Hb) as [_ H]. apply H. vm_compute. reflexivity.
Defined.
