(* ===== verification/Revocation.v ===== *)
(** * The JWT-SVID deny-list ([crates/basil-core/src/core/revocation.rs])

    An in-memory map from (trust domain, token id) to an expiry, with an
    optional backing value in the catalog.  Lock poisoning is a flag of the
    store, the clock an argument, and [serde_json] together with the backend's
    key-value calls are parameters. *)

From S2P Require Import Prelude RustStr BTreeMap Schema.

Definition STORE_LABEL : string := "revocation_store".
Definition JWT_SVID_STORE : string := "jwt-svid".
Definition STORE_VERSION : N := 1.

Record RevocationKey := {
  trust_domain : string;
  jti : string;
}.

#[export] Instance RevocationKey_eq_dec : EqDecision RevocationKey.
Proof. solve_decision. Defined.

(** The derived [Ord] compares the trust domain first. *)
#[export] Instance RevocationKey_ord : Ord RevocationKey :=
  λ a b, cmp (trust_domain a, jti a) (trust_domain b, jti b).

#[export] Instance RevocationKey_ord_laws : OrdLaws RevocationKey.
Proof.
  apply (ord_laws_inj (λ k, (trust_domain k, jti k))); [done |].
  by intros [??] [??] [= -> ->].
Qed.

Definition RevocationKey_new (trust_domain jti : string) : RevocationKey :=
  {| trust_domain := trust_domain; jti := jti |}.

Abbreviation Entries := (list (RevocationKey * N)).

Inductive ManagerError := Backend (message : string).

Record JwtRevocationStore := {
  storage_key : option string;
  storage_key_poisoned : bool;
  entries : Entries;
  entries_poisoned : bool;
}.

Definition JwtRevocationStore_default : JwtRevocationStore :=
  {| storage_key := None; storage_key_poisoned := false; entries := [];
     entries_poisoned := false |}.

Definition set_entries (s : JwtRevocationStore) (m : Entries) : JwtRevocationStore :=
  {| storage_key := storage_key s; storage_key_poisoned := storage_key_poisoned s;
     entries := m; entries_poisoned := entries_poisoned s |}.

Record StoredRevocation := {
  stored_trust_domain : string;
  stored_jti : string;
  stored_expires_at_unix : N;
}.

Record StoredRevocations := {
  stored_version : N;
  stored_list : list StoredRevocation;
}.

Definition prune_expired (m : Entries) (now : N) : Entries :=
  retain (λ _ expires_at, (now <? expires_at)%N) m.

(** The answer, and the store with its expired entries dropped. *)
Definition is_revoked (s : JwtRevocationStore) (trust_domain jti : string) (now : N)
    : bool * JwtRevocationStore :=
  if entries_poisoned s then (true, s)
  else
    let m := prune_expired (entries s) now in
    (contains_key m (RevocationKey_new trust_domain jti), set_entries s m).

Definition revocation_insert (s : JwtRevocationStore) (trust_domain jti : string)
    (expires_at_unix now : N) : result ManagerError JwtRevocationStore :=
  if (now <? expires_at_unix)%N then
    if entries_poisoned s then Err (Backend "jwt revocation store lock poisoned")
    else Ok (set_entries s
               (insert (entries s) (RevocationKey_new trust_domain jti) expires_at_unix))
  else Ok s.

Definition has_persistent_store (s : JwtRevocationStore) : result ManagerError bool :=
  if storage_key_poisoned s then Err (Backend "jwt revocation store key lock poisoned")
  else Ok (match storage_key s with Some _ => true | None => false end).

(** [entry(key).and_modify(|c| *c = c.max(e)).or_insert(e)]. *)
Definition merge_entry (m : Entries) (e : RevocationKey * N) : Entries :=
  match get m e.1 with
  | Some current => insert m e.1 (N.max current e.2)
  | None => insert m e.1 e.2
  end.

(** The store's new state and the outcome: the storage key is replaced before
    the second lock is taken. *)
Definition merge_from (s loaded : JwtRevocationStore) (now : N)
    : JwtRevocationStore * result ManagerError unit :=
  if storage_key_poisoned loaded
  then (s, Err (Backend "jwt revocation loaded store key lock poisoned"))
  else if entries_poisoned loaded
  then (s, Err (Backend "jwt revocation loaded entries lock poisoned"))
  else if storage_key_poisoned s
  then (s, Err (Backend "jwt revocation store key lock poisoned"))
  else
    let s1 := {| storage_key := storage_key loaded; storage_key_poisoned := false;
                 entries := entries s; entries_poisoned := entries_poisoned s |} in
    if entries_poisoned s then (s1, Err (Backend "jwt revocation store lock poisoned"))
    else
      let m := prune_expired (entries s) now in
      (set_entries s1 (fold_left merge_entry (prune_expired (entries loaded) now) m), Ok tt).

(** ** The backing value *)

Definition is_jwt_store (entry : KeyEntry) : bool :=
  bool_decide (label_get (labels entry) STORE_LABEL = Some JWT_SVID_STORE).

Definition validate_jwt_store_key (name : string) (entry : KeyEntry) : result ManagerError unit :=
  if bool_decide (class entry = Value) then Ok tt
  else Err (Backend ("jwt revocation store `" +:+ name +:+ "` must be a value key")).

Definition record_jwt_store_key (found : option string) (name : string)
    : result ManagerError (option string) :=
  match found with
  | Some _ => Err (Backend "multiple jwt revocation stores configured")
  | None => Ok (Some name)
  end.

Definition jwt_revocation_store_key (manager_keys : list (string * KeyEntry))
    : result ManagerError (option string) :=
  for_each
    (λ found e,
       let? _ := validate_jwt_store_key e.1 e.2 in
       record_jwt_store_key found e.1)
    (List.filter (λ e, is_jwt_store e.2) manager_keys) None.

Section persistence.
Context {Payload : Type}.
Variable to_vec : StoredRevocations → result string Payload.
Variable from_slice : Payload → result string StoredRevocations.

Definition snapshot_json (s : JwtRevocationStore) : result ManagerError Payload :=
  if entries_poisoned s then Err (Backend "jwt revocation store lock poisoned")
  else
    map_err (λ e, Backend ("jwt revocation store serialize: " +:+ e))
      (to_vec {| stored_version := STORE_VERSION;
                 stored_list :=
                   map (λ e, {| stored_trust_domain := trust_domain e.1; stored_jti := jti e.1;
                                stored_expires_at_unix := e.2 |}) (entries s) |}).

Definition stored_entries (input : Payload) : result ManagerError Entries :=
  let? stored := map_err (λ e, Backend ("jwt revocation store parse: " +:+ e))
                   (from_slice input) in
  return_err (Backend ("unsupported jwt revocation store version "
                       +:+ to_string (stored_version stored)))
    when negb (stored_version stored =? STORE_VERSION)%N otherwise
  Ok (of_entries
        (map (λ e, (RevocationKey_new (stored_trust_domain e) (stored_jti e),
                    stored_expires_at_unix e))
           (List.filter
              (λ e, negb (is_empty (stored_trust_domain e)) && negb (is_empty (stored_jti e)))
              (stored_list stored)))).

(** What the backend's [kv_get] answers. *)
Inductive KvGet :=
| KvFound (value : Payload)
| KvKeyNotFound
| KvError (e : ManagerError).

(** [resolve] finds the backend of the storage key; [kv] is its answer. *)
Definition load_from_manager (manager_keys : list (string * KeyEntry))
    (resolve : string → result ManagerError unit) (kv : KvGet) (now : N)
    : result ManagerError JwtRevocationStore :=
  let? found := jwt_revocation_store_key manager_keys in
  match found with
  | None => Ok JwtRevocationStore_default
  | Some key =>
      let? _ := resolve key in
      let? m := match kv with
                | KvFound value => stored_entries value
                | KvKeyNotFound => Ok []
                | KvError e => Err e
                end in
      Ok {| storage_key := Some key; storage_key_poisoned := false;
            entries := prune_expired m now; entries_poisoned := false |}
  end.

(** The outcome, and the payload handed to the backend's [kv_put], if any. *)
Definition persist (s : JwtRevocationStore) (resolve : string → result ManagerError unit)
    (kv_put : string → Payload → result ManagerError unit)
    : result ManagerError (option (string * Payload)) :=
  return_err (Backend "jwt revocation store key lock poisoned")
    when storage_key_poisoned s otherwise
  match storage_key s with
  | None => Ok None
  | Some key =>
      let? _ := resolve key in
      let? payload := snapshot_json s in
      let? _ := kv_put key payload in
      Ok (Some (key, payload))
  end.

(** The load awaits the backend; live insertions may land before the merge,
    which starts from the store [s] it finds then. *)
Definition refresh_from_manager (s : JwtRevocationStore) (manager_keys : list (string * KeyEntry))
    (resolve : string → result ManagerError unit) (kv : KvGet) (now_load now_merge : N)
    : JwtRevocationStore * result ManagerError unit :=
  match load_from_manager manager_keys resolve kv now_load with
  | Err e => (s, Err e)
  | Ok loaded => merge_from s loaded now_merge
  end.
End persistence.

(** ** When a token is denied *)

(** The expiry a store denies a token until, as seen at [now]. *)
Definition denied_until (s : JwtRevocationStore) (k : RevocationKey) (now : N) : option N :=
  match get (entries s) k with
  | Some e => if (now <? e)%N then Some e else None
  | None => None
  end.

Lemma get_prune m k now :
  sorted m →
  get (prune_expired m now) k =
  match get m k with Some e => if (now <? e)%N then Some e else None | None => None end.
Proof. intros Hs. unfold prune_expired. rewrite get_retain by done. by destruct (get m k). Qed.

Definition combine_max (a b : option N) : option N :=
  match a, b with
  | Some x, Some y => Some (N.max x y)
  | Some x, None => Some x
  | None, b => b
  end.

Lemma combine_max_denied s l k now :
  match combine_max (denied_until s k now) (denied_until l k now) with
  | Some e => if (now <? e)%N then Some e else None
  | None => None
  end = combine_max (denied_until s k now) (denied_until l k now).
Proof.
  unfold denied_until. destruct (get (entries s) k) as [x |], (get (entries l) k) as [y |];
    simpl; try destruct (N.ltb_spec now x); try destruct (N.ltb_spec now y); simpl; try done;
    rewrite (proj2 (N.ltb_lt _ _)) by lia; done.
Qed.

Lemma merge_entry_get m e k :
  get (merge_entry m e) k =
  combine_max (get m k) (if decide (k = e.1) then Some e.2 else None).
Proof.
  unfold merge_entry. destruct e as [ke x]. simpl. case_decide as Hk; [subst ke |].
  - destruct (get m k) eqn:E; by rewrite get_insert_eq.
  - destruct (get m ke); rewrite get_insert_ne by congruence; by destruct (get m k).
Qed.

Lemma merge_entry_sorted m e : sorted m → sorted (merge_entry m e).
Proof. intros. unfold merge_entry. destruct (get m e.1); by apply sorted_insert. Qed.

Lemma merge_fold_sorted l m : sorted m → sorted (fold_left merge_entry l m).
Proof. revert m. induction l; simpl; auto using merge_entry_sorted. Qed.

Lemma merge_fold_get l m k :
  NoDup (keys l) →
  get (fold_left merge_entry l m) k = combine_max (get m k) (get l k).
Proof.
  revert m; induction l as [| [kl x] l IH]; intros m Hnd; simpl.
  { by destruct (get m k). }
  apply list.NoDup_cons in Hnd as [Hnin Hnd].
  rewrite IH by done. rewrite merge_entry_get. simpl. case_decide as Hk.
  - subst kl. rewrite cmp_refl. assert (get l k = None) as ->.
    { destruct (get l k) eqn:E; [| done]. destruct Hnin. apply get_elem in E.
      apply list_elem_of_fmap. by exists (k, n). }
    by destruct (get m k).
  - assert (cmp k kl ≠ Eq) by (by apply cmp_ne). by destruct (cmp k kl), (get m k).
Qed.

(** ** Histories of a live store *)

Definition store_wf (s : JwtRevocationStore) : Prop := sorted (entries s).

Lemma prune_sorted m now : sorted m → sorted (prune_expired m now).
Proof. apply sorted_retain. Qed.

Lemma insert_wf s td jti e now s' :
  store_wf s → revocation_insert s td jti e now = Ok s' → store_wf s'.
Proof.
  unfold revocation_insert, store_wf. intros Hs H.
  destruct (now <? e)%N, (entries_poisoned s); simplify_eq/=; try done; by apply sorted_insert.
Qed.

Lemma merge_from_wf s loaded now :
  store_wf s → store_wf loaded → store_wf (merge_from s loaded now).1.
Proof.
  unfold merge_from, store_wf. intros Hs Hl.
  repeat case_match; simpl; try done.
  by apply merge_fold_sorted, prune_sorted.
Qed.

(** The union a merge leaves, when neither deny-list lock is poisoned. *)
Lemma merge_from_get s loaded now s' k :
  store_wf s → store_wf loaded → merge_from s loaded now = (s', Ok tt) →
  get (entries s') k = combine_max (denied_until s k now) (denied_until loaded k now).
Proof.
  unfold merge_from, store_wf. intros Hs Hl H.
  destruct (storage_key_poisoned loaded), (entries_poisoned loaded),
    (storage_key_poisoned s), (entries_poisoned s); simplify_eq/=.
  rewrite merge_fold_get by (by apply sorted_NoDup_keys, prune_sorted).
  by rewrite !get_prune.
Qed.

Lemma load_from_manager_wf {Payload} from_slice keys resolve (kv : @KvGet Payload) now s :
  load_from_manager from_slice keys resolve kv now = Ok s →
  store_wf s ∧ entries_poisoned s = false ∧ storage_key_poisoned s = false.
Proof.
  unfold load_from_manager, stored_entries, store_wf. intros H. inv_ok H.
  case_match; [inv_ok H | by simplify_eq/=; split_and!; try apply sorted_nil].
  split_and!; try done. simpl. apply prune_sorted.
  destruct kv; simplify_eq/=; [| apply sorted_nil].
  inv_ok E1. apply sorted_of_entries.
Qed.

Section histories.
Context {Payload : Type}.
Variable from_slice : Payload → result string StoredRevocations.

(** What may happen to a live store: a query, a revocation, a refresh from
    the backing value, or a writer that panics while it holds the entries. *)
Inductive StoreOp :=
| OpIsRevoked (trust_domain jti : string) (now : N)
| OpInsert (trust_domain jti : string) (expires_at_unix now : N)
| OpRefresh (manager_keys : list (string * KeyEntry))
    (resolve : string → result ManagerError unit) (kv : @KvGet Payload)
    (now_load now_merge : N)
| OpPanic.

Definition apply_op (s : JwtRevocationStore) (op : StoreOp) : JwtRevocationStore :=
  match op with
  | OpIsRevoked td jti now => (is_revoked s td jti now).2
  | OpInsert td jti e now =>
      match revocation_insert s td jti e now with Ok s' => s' | Err _ => s end
  | OpRefresh ks resolve kv now_load now_merge =>
      (refresh_from_manager from_slice s ks resolve kv now_load now_merge).1
  | OpPanic =>
      {| storage_key := storage_key s; storage_key_poisoned := storage_key_poisoned s;
         entries := entries s; entries_poisoned := true |}
  end.

Definition run_ops : list StoreOp → JwtRevocationStore → JwtRevocationStore :=
  λ ops s, fold_left apply_op ops s.

(** The operation prunes before [e], and does not itself revoke [k] anew with
    an earlier expiry. *)
Definition op_respects (k : RevocationKey) (e : N) (op : StoreOp) : bool :=
  match op with
  | OpIsRevoked _ _ now => (now <? e)%N
  | OpInsert td jti e' now =>
      negb (bool_decide (RevocationKey_new td jti = k)) || (e <=? e')%N
  | OpRefresh _ _ _ _ now_merge => (now_merge <? e)%N
  | OpPanic => true
  end.

Definition denies_until (s : JwtRevocationStore) (k : RevocationKey) (e : N) : Prop :=
  store_wf s ∧
  (entries_poisoned s = true ∨ ∃ e', get (entries s) k = Some e' ∧ (e <= e')%N).

Lemma insert_denies s td jti e now s' :
  store_wf s → (now < e)%N → revocation_insert s td jti e now = Ok s' →
  denies_until s' (RevocationKey_new td jti) e.
Proof.
  intros Hwf Hnow H. split; [by eapply insert_wf |].
  unfold revocation_insert in H. apply N.ltb_lt in Hnow. rewrite Hnow in H.
  destruct (entries_poisoned s) eqn:Ep; simplify_eq/=. right. exists e.
  by rewrite get_insert_eq.
Qed.

Lemma is_revoked_denies s td jti now k e :
  (now < e)%N → denies_until s k e → denies_until (is_revoked s td jti now).2 k e.
Proof.
  intros Hnow [Hwf Hd]. unfold is_revoked.
  destruct (entries_poisoned s) eqn:Ep; [split; eauto |].
  destruct Hd as [? | (e' & Hget & He)]; [congruence |].
  split; [by apply prune_sorted |]. right. exists e'. split; [| done]. simpl.
  rewrite get_prune, Hget by done. by rewrite (proj2 (N.ltb_lt now e')) by lia.
Qed.

Lemma insert_other_denies s td jti e' now k e :
  denies_until s k e → op_respects k e (OpInsert td jti e' now) = true →
  denies_until (apply_op s (OpInsert td jti e' now)) k e.
Proof.
  intros [Hwf Hd] Hr. simpl in *. apply orb_true_iff in Hr.
  destruct (revocation_insert s td jti e' now) as [s' |] eqn:Hi; [| done].
  split; [by eapply insert_wf |]. unfold revocation_insert in Hi.
  destruct (now <? e')%N; [| by simplify_eq].
  destruct (entries_poisoned s) eqn:Ep; simplify_eq/=.
  destruct Hd as [? | (e0 & Hget & He)]; [congruence |]. right.
  destruct (decide (k = RevocationKey_new td jti)) as [-> |].
  - exists e'. rewrite get_insert_eq. split; [done |].
    destruct Hr as [Hr | Hr]; by bool_facts.
  - exists e0. by rewrite get_insert_ne.
Qed.

Lemma merge_from_denies s loaded now k e :
  (now < e)%N → store_wf loaded → denies_until s k e →
  denies_until (merge_from s loaded now).1 k e.
Proof.
  intros Hnow Hl [Hwf Hd]. split; [by apply merge_from_wf |].
  destruct (merge_from s loaded now) as [s' r] eqn:Hm. simpl.
  destruct r as [[] | err].
  - destruct (entries_poisoned s) eqn:Ep.
    { unfold merge_from in Hm. rewrite Ep in Hm. repeat case_match; simplify_eq. }
    destruct Hd as [? | (e' & Hget & He)]; [congruence |]. right.
    rewrite (merge_from_get _ _ _ _ k Hwf Hl Hm). unfold denied_until at 1.
    rewrite Hget, (proj2 (N.ltb_lt now e')) by lia.
    destruct (denied_until loaded k now); eexists; (split; [done | lia]).
  - unfold merge_from in Hm. repeat case_match; simplify_eq/=; auto.
Qed.

Lemma apply_op_denies s op k e :
  denies_until s k e → op_respects k e op = true → denies_until (apply_op s op) k e.
Proof.
  intros Hd Hr. destruct op; simpl in Hr.
  - apply is_revoked_denies; [by apply N.ltb_lt | done].
  - by apply insert_other_denies.
  - simpl. unfold refresh_from_manager.
    destruct (load_from_manager _ _ _ _ _) eqn:Hl; [| done].
    apply merge_from_denies; [by apply N.ltb_lt | | done].
    by eapply load_from_manager_wf.
  - destruct Hd as [Hwf _]. split; [done | by left].
Qed.

Lemma run_ops_denies ops s k e :
  denies_until s k e → forallb (op_respects k e) ops = true →
  denies_until (run_ops ops s) k e.
Proof.
  revert s. induction ops as [| op ops IH]; intros s Hd Hr; [done |].
  simpl in *. apply andb_true_iff in Hr as [Hop Hr].
  apply IH; [by apply apply_op_denies | done].
Qed.

Lemma denies_is_revoked s td jti e now :
  denies_until s (RevocationKey_new td jti) e → (now < e)%N →
  (is_revoked s td jti now).1 = true.
Proof.
  intros [Hwf Hd] Hnow. unfold is_revoked. destruct (entries_poisoned s); [done |].
  destruct Hd as [? | (e' & Hget & He)]; [done |]. simpl. unfold contains_key.
  rewrite get_prune, Hget by done. by rewrite (proj2 (N.ltb_lt now e')) by lia.
Qed.

(** C17: once [insert] has accepted a revocation that expires at [e], every
    query before [e] answers that the token is revoked, whatever happened in
    between: queries that prune, other revocations, refreshes from a backing
    value with any content or any failure, a panicking writer that poisons the
    lock.  The one exclusion is a later revocation of the same token with an
    earlier expiry. *)
Theorem revocation_persists s td jti e now0 s' ops now :
  store_wf s →
  (now0 < e)%N →
  revocation_insert s td jti e now0 = Ok s' →
  forallb (op_respects (RevocationKey_new td jti) e) ops = true →
  (now < e)%N →
  (is_revoked (run_ops ops s') td jti now).1 = true.
Proof.
  intros Hwf Hnow0 Hi Hops Hnow. eapply denies_is_revoked; [| done].
  apply run_ops_denies; [| done].
  exact (insert_denies _ _ _ _ _ _ Hwf Hnow0 Hi).
Qed.
End histories.

(** A toy payload for the witnesses: the stored value itself. *)
Definition demo_store : StoredRevocations :=
  {| stored_version := 1;
     stored_list := [{| stored_trust_domain := "prod"; stored_jti := "t2";
                        stored_expires_at_unix := 90 |};
                     {| stored_trust_domain := "prod"; stored_jti := "t1";
                        stored_expires_at_unix := 20 |}] |}.

Definition demo_key_entry : KeyEntry :=
  {| class := Value; key_type := None; backend := "bao"; engine := None;
     path := "kv/revocations"; public_path := None; writable := true;
     missing := MissingError; nix_cache := None; generate := None; sealing_pin := None;
     labels := ["revocation_store=jwt-svid"]; description := "deny-list" |}.

Definition demo_keys : list (string * KeyEntry) := [("deny.list", demo_key_entry)].
Definition demo_ops : list (@StoreOp StoredRevocations) :=
  [OpIsRevoked "prod" "t9" 40; OpInsert "prod" "t3" 60 40;
   OpRefresh demo_keys (λ _, Ok tt) (KvFound demo_store) 41 42;
   OpRefresh demo_keys (λ _, Ok tt) (KvError (Backend "sealed")) 43 43; OpPanic].

Lemma revocation_persists_witness :
  (is_revoked
     (run_ops Ok demo_ops
        (set_entries JwtRevocationStore_default [((RevocationKey_new "prod" "t1"), 50%N)]))
     "prod" "t1" 45).1 = true.
Proof.
  apply (revocation_persists Ok JwtRevocationStore_default "prod" "t1" 50 30 _ demo_ops 45);
    [apply sorted_nil | lia | reflexivity | vm_compute; reflexivity | lia].
Defined.

(** A refresh that succeeds leaves exactly the union of the live deny-list
    and the value it read, each token denied until the later of the two
    expiries; a refresh whose read fails leaves the store as it was. *)
Theorem refresh_is_union {Payload} from_slice s ks resolve (kv : @KvGet Payload)
    now_load now_merge :
  store_wf s →
  match load_from_manager from_slice ks resolve kv now_load with
  | Err e => refresh_from_manager from_slice s ks resolve kv now_load now_merge = (s, Err e)
  | Ok loaded =>
      entries_poisoned s = false → storage_key_poisoned s = false →
      let '(s', r) := refresh_from_manager from_slice s ks resolve kv now_load now_merge in
      r = Ok tt ∧ storage_key s' = storage_key loaded ∧
      ∀ k, denied_until s' k now_merge =
           combine_max (denied_until s k now_merge) (denied_until loaded k now_merge)
  end.
Proof.
  intros Hwf. unfold refresh_from_manager.
  destruct (load_from_manager _ _ _ _ _) as [loaded | e] eqn:Hl; [| done].
  apply load_from_manager_wf in Hl as (Hlw & Hle & Hls). intros Hpe Hps.
  destruct (merge_from s loaded now_merge) as [s' r] eqn:Hm.
  assert (r = Ok tt ∧ storage_key s' = storage_key loaded) as [-> Hk].
  { unfold merge_from in Hm. rewrite Hle, Hls, Hpe, Hps in Hm. by simplify_eq/=. }
  split_and!; try done. intros k. unfold denied_until at 1.
  rewrite (merge_from_get _ _ _ _ k Hwf Hlw Hm).
  apply combine_max_denied.
Qed.

(** What [is_revoked] answers at [now], read off the entries. *)
Lemma is_revoked_denied_until s td jti now :
  store_wf s → entries_poisoned s = false →
  (is_revoked s td jti now).1 = true ↔ is_Some (denied_until s (RevocationKey_new td jti) now).
Proof.
  intros Hwf Hp. unfold is_revoked, denied_until, contains_key. rewrite Hp. simpl.
  rewrite get_prune by done. unfold is_Some. repeat case_match; naive_solver.
Qed.

Definition nonempty_key (e : RevocationKey * N) : bool :=
  negb (is_empty (trust_domain e.1)) && negb (is_empty (jti e.1)).

Section round_trip.
Context {Payload : Type}.
Variable to_vec : StoredRevocations → result string Payload.
Variable from_slice : Payload → result string StoredRevocations.
Hypothesis from_slice_to_vec : ∀ v p, to_vec v = Ok p → from_slice p = Ok v.

Lemma snapshot_stored s payload :
  store_wf s → forallb nonempty_key (entries s) = true →
  snapshot_json to_vec s = Ok payload → stored_entries from_slice payload = Ok (entries s).
Proof.
  unfold snapshot_json. intros Hwf Hne H. inv_ok H.
  destruct (to_vec _) as [p |] eqn:Hv; simplify_eq/=.
  unfold stored_entries. rewrite (from_slice_to_vec _ _ Hv). simpl. f_equal.
  rewrite <- (of_entries_sorted (entries s)) at 2 by done. f_equal.
  clear -Hne. induction (entries s) as [| [[td jti] e] m IH]; [done |].
  simpl in *. unfold nonempty_key in *. simpl in *.
  apply andb_true_iff in Hne as [-> Hne]. simpl. by rewrite IH.
Qed.

(** A deny-list that [persist] wrote and a later start reads back denies
    exactly the same tokens at every time from the load on, given that
    [serde_json] reads what it wrote and the catalog still names one value
    key.  Token ids and trust domains are non-empty, which the revoke request's
    validation requires. *)
Theorem persist_load_roundtrip s ks resolve kv_put key payload key' now :
  store_wf s →
  forallb nonempty_key (entries s) = true →
  persist to_vec s resolve kv_put = Ok (Some (key, payload)) →
  jwt_revocation_store_key ks = Ok (Some key') →
  resolve key' = Ok tt →
  ∃ s', load_from_manager from_slice ks resolve (KvFound payload) now = Ok s' ∧
    storage_key s' = Some key' ∧
    ∀ td jti t, (now <= t)%N → (is_revoked s' td jti t).1 = (is_revoked s td jti t).1.
Proof.
  intros Hwf Hne Hp Hk Hr. unfold persist in Hp. inv_ok Hp.
  destruct (storage_key s); inv_ok Hp; simplify_eq.
  assert (Hs : entries_poisoned s = false).
  { unfold snapshot_json in E1. by destruct (entries_poisoned s). }
  pose proof (snapshot_stored _ _ Hwf Hne E1) as Hst.
  unfold load_from_manager. rewrite Hk, Hr, Hst. eexists. split_and!; [done | done |].
  intros td jti t Ht. apply eq_iff_eq_true.
  rewrite !is_revoked_denied_until by (done || by apply prune_sorted).
  unfold denied_until. simpl. rewrite get_prune by done.
  destruct (get (entries s) _) as [e |]; [| done].
  destruct (N.ltb_spec now e); [done |]. by destruct (N.ltb_spec t e); [lia |].
Qed.
End round_trip.

(** [insert] replaces the expiry of a token that is already revoked, so a
    second revocation with an earlier expiry ends the first one early: between
    the two expiries the token is accepted again. *)
Theorem insert_can_shorten s td jti e1 e2 now :
  store_wf s → entries_poisoned s = false → (now < e2)%N → (e2 < e1)%N →
  ∃ s1 s2, revocation_insert s td jti e1 now = Ok s1 ∧
    revocation_insert s1 td jti e2 now = Ok s2 ∧
    ∀ t, (e2 <= t < e1)%N →
      (is_revoked s1 td jti t).1 = true ∧ (is_revoked s2 td jti t).1 = false.
Proof.
  intros Hwf Hp H2 H1. unfold revocation_insert.
  rewrite (proj2 (N.ltb_lt now e1)), (proj2 (N.ltb_lt now e2)), Hp by lia. simpl.
  eexists _, _. split; [done |]. simpl. rewrite Hp. split; [done |]. intros t Ht.
  unfold is_revoked, contains_key. simpl. rewrite Hp. simpl.
  rewrite !get_prune by (repeat apply sorted_insert; done). rewrite !get_insert_eq.
  by rewrite (proj2 (N.ltb_lt t e1)), (proj2 (N.ltb_ge t e2)) by lia.
Qed.
