(* ===== verification/Capability.v ===== *)
(** * Backend capability enforcement ([crates/basil-core/src/core/capability.rs])

    Does each backend provide what the catalog requires of it?  The check is a
    pure function of the catalog and the operator's policy; the log lines it
    emits are left out, the counters of its summary are kept. *)

From stdpp Require Import sets.
From S2P Require Import Prelude RustStr BTreeMap Schema.

Inductive CapabilityPolicy := Strict | Degraded | Off.

#[export] Instance CapabilityPolicy_eq_dec : EqDecision CapabilityPolicy.
Proof. solve_decision. Defined.

Definition CapabilityPolicy_from_str (s : string) : result string CapabilityPolicy :=
  if String.eqb s "strict" then Ok Strict
  else if String.eqb s "degraded" then Ok Degraded
  else if String.eqb s "off" then Ok Off
  else Err ("invalid capability-policy `" +:+ s
            +:+ "` (want one of: strict, degraded, off)").

Definition CapabilityPolicy_fmt (p : CapabilityPolicy) : string :=
  match p with Strict => "strict" | Degraded => "degraded" | Off => "off" end.

Record CapabilityGap := {
  gap_backend : string;
  gap_key : option string;
  missing_engines : list Engine;
  missing_capabilities : list Capability;
  missing_mint_key_types : list KeyAlgorithm;
}.

Definition listed (what : string) (tokens : list string) : string :=
  match tokens with
  | [] => ""
  | _ => " needs " +:+ what +:+ " [" +:+ String.concat ", " tokens +:+ "]"
  end.

Definition CapabilityGap_fmt (g : CapabilityGap) : string :=
  match gap_key g with
  | Some k => "key `" +:+ k +:+ "` (backend `" +:+ gap_backend g +:+ "`)"
  | None => "backend `" +:+ gap_backend g +:+ "` requires"
  end
  +:+ listed "engine(s)" (map Engine_token (missing_engines g))
  +:+ listed "capabilit(ies)" (map Capability_token (missing_capabilities g))
  +:+ listed "mint key type(s)" (map KeyAlgorithm_token (missing_mint_key_types g)).

Definition newline : string := String (Ascii.ascii_of_nat 10) EmptyString.

Definition format_gaps (gaps : list CapabilityGap) : string :=
  String.concat (newline +:+ "  - ") (map CapabilityGap_fmt gaps).

Record CapabilitySummary := {
  enforced : nat;
  skipped_undeclared : nat;
  warnings : nat;
}.

Definition CapabilitySummary_default : CapabilitySummary :=
  {| enforced := 0; skipped_undeclared := 0; warnings := 0 |}.

Definition add_enforced (s : CapabilitySummary) : CapabilitySummary :=
  {| enforced := S (enforced s); skipped_undeclared := skipped_undeclared s;
     warnings := warnings s |}.
Definition add_skipped (s : CapabilitySummary) : CapabilitySummary :=
  {| enforced := enforced s; skipped_undeclared := S (skipped_undeclared s);
     warnings := warnings s |}.
Definition add_warning (s : CapabilitySummary) : CapabilitySummary :=
  {| enforced := enforced s; skipped_undeclared := skipped_undeclared s;
     warnings := S (warnings s) |}.

(** Membership in a set collected from a list. *)
Definition provided {A} `{EqDecision A} (l : list A) (x : A) : bool := bool_decide (x ∈ l).

Definition required_mint_key_type (entry : KeyEntry) : option KeyAlgorithm :=
  if bool_decide (class entry = Asymmetric) && bool_decide (effective_engine entry = Transit)
     && bool_decide (missing entry = MissingGenerate)
  then key_type entry else None.

(** [opt.filter(|x| !set.contains(x)).into_iter().collect::<Vec<_>>()]. *)
Definition unprovided {A} `{EqDecision A} (provides : list A) (need : option A) : list A :=
  match need with
  | Some x => if provided provides x then [] else [x]
  | None => []
  end.

Definition key_gap (backend_name : string) (provides : BackendRef) (kname : string)
    (entry : KeyEntry) : CapabilityGap :=
  {| gap_backend := backend_name;
     gap_key := Some kname;
     missing_engines := unprovided (engines provides) (Some (effective_engine entry));
     missing_capabilities :=
       unprovided (capabilities provides) (key_type entry ≫= required_capability);
     missing_mint_key_types :=
       unprovided (mint_key_types provides) (required_mint_key_type entry) |}.

Definition gap_is_empty (g : CapabilityGap) : bool :=
  match missing_engines g, missing_capabilities g, missing_mint_key_types g with
  | [], [], [] => true
  | _, _, _ => false
  end.

Definition key_capability_gaps (catalog : Catalog) (backend_name : string)
    (provides : BackendRef) : list (CapabilityGap * MissingPolicy) :=
  omap
    (λ '(kname, entry),
       if negb (String.eqb (backend entry) backend_name) then None
       else
         let gap := key_gap backend_name provides kname entry in
         if gap_is_empty gap then None else Some (gap, missing entry))
    (keys_ catalog).

(** The loop's mutable state: the summary and the fatal gaps so far. *)
Abbreviation Progress := (CapabilitySummary * list CapabilityGap)%type.

Definition record_key_gap (policy : CapabilityPolicy) (st : Progress)
    (g : CapabilityGap * MissingPolicy) : Progress :=
  let '(summary, fatal) := st in
  match policy with
  | Strict => (summary, fatal ++ [g.1])
  | Degraded =>
      if bool_decide (g.2 = MissingError) then (summary, fatal ++ [g.1])
      else (add_warning summary, fatal)
  | Off => (summary, fatal)
  end.

Definition undeclared (b : BackendRef) : bool :=
  match engines b, capabilities b, mint_key_types b with
  | [], [], [] => true
  | _, _, _ => false
  end.

Definition missing_requires (b : BackendRef) : list Capability :=
  List.filter (λ c, negb (provided (capabilities b) c)) (requires b).

Definition record_requires_gap (policy : CapabilityPolicy) (st : Progress)
    (bname : string) (b : BackendRef) : Progress :=
  let '(summary, fatal) := st in
  match missing_requires b with
  | [] => st
  | missing_req =>
      match policy with
      | Strict =>
          (summary,
           fatal ++ [{| gap_backend := bname; gap_key := None; missing_engines := [];
                        missing_capabilities := missing_req; missing_mint_key_types := [] |}])
      | Degraded => (add_warning summary, fatal)
      | Off => st
      end
  end.

Definition enforce_backend (catalog : Catalog) (policy : CapabilityPolicy) (st : Progress)
    (e : string * BackendRef) : Progress :=
  let '(bname, b) := e in
  if undeclared b then (add_skipped st.1, st.2)
  else
    let st1 := record_requires_gap policy (add_enforced st.1, st.2) bname b in
    fold_left (record_key_gap policy) (key_capability_gaps catalog bname b) st1.

(** [None < Some _], as the derived [Ord] of [Option] has it. *)
#[export] Instance ord_option {A} `{Ord A} : Ord (option A) :=
  λ a b, match a, b with
         | None, None => Eq
         | None, Some _ => Lt
         | Some _, None => Gt
         | Some x, Some y => cmp x y
         end.

Definition gap_order (a b : CapabilityGap) : comparison :=
  cmp (gap_backend a, gap_key a) (gap_backend b, gap_key b).

Definition enforce_capabilities (catalog : Catalog) (policy : CapabilityPolicy)
    : result (list CapabilityGap) CapabilitySummary :=
  if bool_decide (policy = Off) then Ok CapabilitySummary_default
  else
    let '(summary, fatal) :=
      fold_left (enforce_backend catalog policy) (backends catalog)
        (CapabilitySummary_default, []) in
    match fatal with
    | [] => Ok summary
    | _ => Err (sort_by gap_order fatal)
    end.

(** ** What the catalog requires *)

Inductive Requirement :=
| NeedEngine (e : Engine)
| NeedCapability (c : Capability)
| NeedMintKeyType (a : KeyAlgorithm).

Definition provides (b : BackendRef) (r : Requirement) : Prop :=
  match r with
  | NeedEngine e => e ∈ engines b
  | NeedCapability c => c ∈ capabilities b
  | NeedMintKeyType a => a ∈ mint_key_types b
  end.

(** What serving a key takes: its engine, the capability its algorithm calls
    for, and minting its algorithm if the broker generates it in transit. *)
Definition key_needs (entry : KeyEntry) (r : Requirement) : Prop :=
  match r with
  | NeedEngine e => e = effective_engine entry
  | NeedCapability c => ∃ a, key_type entry = Some a ∧ required_capability a = Some c
  | NeedMintKeyType a =>
      class entry = Asymmetric ∧ effective_engine entry = Transit ∧
      missing entry = MissingGenerate ∧ key_type entry = Some a
  end.

Definition declares_provides (b : BackendRef) : Prop :=
  engines b ≠ [] ∨ capabilities b ≠ [] ∨ mint_key_types b ≠ [].

(** An unmet requirement the policy makes fatal, of the backend itself or of
    one of its keys. *)
Definition fatal_requirement (catalog : Catalog) (policy : CapabilityPolicy)
    (bname : string) (key : option string) (r : Requirement) : Prop :=
  ∃ b, (bname, b) ∈ backends catalog ∧ declares_provides b ∧ ¬ provides b r ∧
    match key with
    | None => policy = Strict ∧ ∃ c, r = NeedCapability c ∧ c ∈ requires b
    | Some k =>
        ∃ entry, (k, entry) ∈ keys_ catalog ∧ backend entry = bname ∧ key_needs entry r ∧
          (policy = Strict ∨ policy = Degraded ∧ missing entry = MissingError)
    end.

Definition gap_lists (g : CapabilityGap) (r : Requirement) : Prop :=
  match r with
  | NeedEngine e => e ∈ missing_engines g
  | NeedCapability c => c ∈ missing_capabilities g
  | NeedMintKeyType a => a ∈ missing_mint_key_types g
  end.

(** ** Lemmas *)

Lemma elem_unprovided {A} `{EqDecision A} (l : list A) need x :
  x ∈ unprovided l need ↔ need = Some x ∧ x ∉ l.
Proof.
  unfold unprovided, provided. destruct need as [y |]; [| set_solver].
  case_bool_decide; set_solver.
Qed.

Lemma key_gap_lists bname b k entry r :
  gap_lists (key_gap bname b k entry) r ↔ key_needs entry r ∧ ¬ provides b r.
Proof.
  destruct r as [e | c | a]; unfold gap_lists, key_gap;
    cbn [missing_engines missing_capabilities missing_mint_key_types];
    rewrite elem_unprovided; simpl.
  - naive_solver.
  - f_equiv. destruct (key_type entry); simpl; naive_solver.
  - f_equiv. unfold required_mint_key_type. repeat case_bool_decide; naive_solver.
Qed.

Lemma gap_is_empty_lists g : gap_is_empty g = false ↔ ∃ r, gap_lists g r.
Proof.
  unfold gap_is_empty. split.
  - intros H. destruct (missing_engines g) as [| e l] eqn:E1.
    + destruct (missing_capabilities g) as [| c l] eqn:E2.
      * destruct (missing_mint_key_types g) as [| a l] eqn:E3; [done |].
        exists (NeedMintKeyType a). simpl. rewrite E3. left.
      * exists (NeedCapability c). simpl. rewrite E2. left.
    + exists (NeedEngine e). simpl. rewrite E1. left.
  - intros [[e | c | a] Hr]; simpl in Hr; repeat case_match; set_solver.
Qed.

Lemma undeclared_declares b : undeclared b = false ↔ declares_provides b.
Proof. unfold undeclared, declares_provides. repeat case_match; naive_solver. Qed.

Definition key_fatal (policy : CapabilityPolicy) (missing : MissingPolicy) : bool :=
  match policy with
  | Strict => true
  | Degraded => bool_decide (missing = MissingError)
  | Off => false
  end.

Lemma record_key_gaps_fatal policy gaps st g :
  g ∈ (fold_left (record_key_gap policy) gaps st).2 ↔
  g ∈ st.2 ∨ ∃ m, (g, m) ∈ gaps ∧ key_fatal policy m = true.
Proof.
  revert st. induction gaps as [| [g' m'] gaps IH]; intros st; simpl; [set_solver |].
  rewrite IH. setoid_rewrite elem_of_cons.
  assert ((record_key_gap policy st (g', m')).2 =
          st.2 ++ (if key_fatal policy m' then [g'] else [])) as ->.
  { destruct st, policy; simpl; [| destruct (bool_decide _) |]; by rewrite ?app_nil_r. }
  rewrite elem_of_app. destruct (key_fatal policy m') eqn:Ef;
    rewrite ?list_elem_of_singleton, ?elem_of_nil.
  - split; [intros [[? | ->] | (m & ? & ?)]; eauto |].
    intros [? | (m & [[= -> ->] | ?] & ?)]; eauto.
  - split; [intros [[? | []] | (m & ? & ?)]; eauto |].
    intros [? | (m & [[= -> ->] | ?] & ?)]; [eauto | congruence | eauto].
Qed.

Lemma elem_key_capability_gaps catalog bname b g m :
  (g, m) ∈ key_capability_gaps catalog bname b ↔
  ∃ k entry, (k, entry) ∈ keys_ catalog ∧ backend entry = bname ∧
    g = key_gap bname b k entry ∧ m = missing entry ∧ ∃ r, gap_lists g r.
Proof.
  unfold key_capability_gaps. rewrite list_elem_of_omap. split.
  - intros ([k entry] & Hin & H). exists k, entry.
    destruct (String.eqb_spec (backend entry) bname); [| done]. simpl in H.
    destruct (gap_is_empty _) eqn:E; simplify_eq. by apply gap_is_empty_lists in E.
  - intros (k & entry & Hin & <- & -> & -> & Hr). exists (k, entry). split; [done |].
    rewrite String.eqb_refl. simpl. apply gap_is_empty_lists in Hr. by rewrite Hr.
Qed.

Lemma record_requires_fatal policy st bname b g :
  g ∈ (record_requires_gap policy st bname b).2 ↔
  g ∈ st.2 ∨
  policy = Strict ∧ missing_requires b ≠ [] ∧
  g = {| gap_backend := bname; gap_key := None; missing_engines := [];
         missing_capabilities := missing_requires b; missing_mint_key_types := [] |}.
Proof.
  unfold record_requires_gap. destruct st as [summary fatal].
  destruct (missing_requires b) as [| c l] eqn:E; simpl; [naive_solver |].
  destruct policy; simpl; [set_solver | naive_solver | naive_solver].
Qed.

(** The fatal gaps one backend contributes. *)
Definition backend_gap (catalog : Catalog) (policy : CapabilityPolicy)
    (e : string * BackendRef) (g : CapabilityGap) : Prop :=
  declares_provides e.2 ∧
  (policy = Strict ∧ missing_requires e.2 ≠ [] ∧
   g = {| gap_backend := e.1; gap_key := None; missing_engines := [];
          missing_capabilities := missing_requires e.2; missing_mint_key_types := [] |} ∨
   ∃ k entry, (k, entry) ∈ keys_ catalog ∧ backend entry = e.1 ∧
     g = key_gap e.1 e.2 k entry ∧ key_fatal policy (missing entry) = true ∧
     ∃ r, gap_lists g r).

Lemma enforce_backend_fatal catalog policy st e g :
  g ∈ (enforce_backend catalog policy st e).2 ↔ g ∈ st.2 ∨ backend_gap catalog policy e g.
Proof.
  destruct e as [bname b]. unfold enforce_backend, backend_gap. cbn [fst snd].
  destruct (undeclared b) eqn:Hu.
  - assert (¬ declares_provides b).
    { rewrite <- undeclared_declares. congruence. }
    naive_solver.
  - apply undeclared_declares in Hu.
    rewrite record_key_gaps_fatal, record_requires_fatal.
    setoid_rewrite elem_key_capability_gaps. naive_solver.
Qed.

Lemma enforce_backends_fatal catalog policy bs st g :
  g ∈ (fold_left (enforce_backend catalog policy) bs st).2 ↔
  g ∈ st.2 ∨ ∃ e, e ∈ bs ∧ backend_gap catalog policy e g.
Proof.
  revert st. induction bs as [| e bs IH]; intros st; simpl; [set_solver |].
  rewrite IH, enforce_backend_fatal. set_solver.
Qed.

Lemma key_fatal_policy policy m :
  key_fatal policy m = true ↔ policy = Strict ∨ policy = Degraded ∧ m = MissingError.
Proof. destruct policy; simpl; rewrite ?bool_decide_eq_true; naive_solver. Qed.

Lemma elem_missing_requires b c : c ∈ missing_requires b ↔ c ∈ requires b ∧ c ∉ capabilities b.
Proof.
  unfold missing_requires, provided. rewrite list_elem_of_In, List.filter_In, <- list_elem_of_In.
  rewrite negb_true_iff, bool_decide_eq_false. done.
Qed.

(** The gaps of the backends list exactly the fatal requirements. *)
Lemma backend_gap_requirement catalog policy bname key r :
  (∃ e g, e ∈ backends catalog ∧ backend_gap catalog policy e g ∧
     gap_backend g = bname ∧ gap_key g = key ∧ gap_lists g r) ↔
  fatal_requirement catalog policy bname key r.
Proof.
  unfold backend_gap, fatal_requirement. setoid_rewrite key_fatal_policy. split.
  - intros ([n b] & g & Hin & [Hd [(-> & _ & ->) | (k & entry & Hk & Hb & -> & Hf & _)]] & Hbn & Hkey & Hr);
      simpl in *; subst n key; exists b.
    + destruct r as [e | c | a]; simpl in Hr; [set_solver | | set_solver].
      apply elem_missing_requires in Hr as [??]. simpl. naive_solver.
    + apply key_gap_lists in Hr as [??]. naive_solver.
  - intros (b & Hin & Hd & Hnp & Hkey). destruct key as [k |].
    + destruct Hkey as (entry & Hk & Hb & Hneed & Hf).
      assert (Hr : gap_lists (key_gap bname b k entry) r) by by apply key_gap_lists.
      exists (bname, b), (key_gap bname b k entry). naive_solver.
    + destruct Hkey as (-> & c & -> & Hc). simpl in Hnp.
      assert (Hm : c ∈ missing_requires b) by by apply elem_missing_requires.
      assert (missing_requires b ≠ []) by (intros E; rewrite E in Hm; set_solver).
      eexists (bname, b), _. split_and!; [done | done | by left | done | done | done].
Qed.

(** Every fatal gap lists something. *)
Lemma backend_gap_lists catalog policy e g :
  backend_gap catalog policy e g → ∃ r, gap_lists g r.
Proof.
  intros [_ [(_ & Hne & ->) | (k & entry & _ & _ & _ & _ & Hr)]]; [| done].
  destruct (missing_requires e.2) as [| c l] eqn:E; [done |].
  exists (NeedCapability c). simpl. left.
Qed.

(** The check reports exactly the unmet requirements the policy makes
    fatal.  A requirement (an engine, a capability, a mintable key type) of a
    backend with declared provides, or of a key on it, is unmet when the
    backend does not provide it; it appears in a reported gap under its backend
    and key iff [strict] is set, or [degraded] and the key is a required one.
    The check succeeds iff there is none, and a failure
    never carries an empty report. *)
Theorem enforce_capabilities_exact catalog policy :
  match enforce_capabilities catalog policy with
  | Ok _ => ∀ bname key r, ¬ fatal_requirement catalog policy bname key r
  | Err gaps =>
      gaps ≠ [] ∧ (∀ g, g ∈ gaps → ∃ r, gap_lists g r) ∧
      ∀ bname key r,
        (∃ g, g ∈ gaps ∧ gap_backend g = bname ∧ gap_key g = key ∧ gap_lists g r) ↔
        fatal_requirement catalog policy bname key r
  end.
Proof.
  unfold enforce_capabilities. case_bool_decide as Hoff.
  { subst policy. intros bname key r. rewrite <- backend_gap_requirement.
    intros (e & g & _ & [_ [[? _] | (? & ? & _ & _ & _ & ? & _)]] & _); done. }
  pose proof (enforce_backends_fatal catalog policy (backends catalog)
                (CapabilitySummary_default, [])) as Hfatal.
  destruct (fold_left _ _ _) as [summary fatal]. simpl in Hfatal.
  assert (Hall : ∀ g, g ∈ fatal ↔ ∃ e, e ∈ backends catalog ∧ backend_gap catalog policy e g).
  { intros g. rewrite Hfatal, elem_of_nil. naive_solver. }
  clear Hfatal. destruct fatal as [| g0 fatal].
  - intros bname key r. rewrite <- backend_gap_requirement. intros (e & g & He & Hg & _).
    assert (g ∈ []) by (apply Hall; eauto). set_solver.
  - pose proof (sort_by_perm gap_order (g0 :: fatal)) as Hp.
    assert (Hsort : ∀ g, g ∈ sort_by gap_order (g0 :: fatal) ↔
              ∃ e, e ∈ backends catalog ∧ backend_gap catalog policy e g).
    { intros g. rewrite Hp. apply Hall. }
    split_and!.
    + intros E. rewrite E in Hp. by apply Permutation_nil_cons in Hp.
    + intros g (e & _ & Hg)%Hsort. by eapply backend_gap_lists.
    + intros bname key r. rewrite <- backend_gap_requirement. setoid_rewrite Hsort.
      naive_solver.
Qed.
