(* ===== verification/CoseTypes.v ===== *)
(** * The vocabulary of the COSE profile ([crates/basil-cose/src])

    Error enums ([error.rs]), algorithm code points ([alg.rs]), header labels
    and their canonical order ([label.rs]), the validated newtypes ([types.rs],
    [kdf.rs], [hash.rs]) and the claim set with its validation ([claims.rs]).

    SHA-256 and X25519 are third-party crates: they are the operations of the
    class [Primitives]. *)

From S2P Require Import Prelude RustStr Bytes BTreeMap.

Local Open Scope Z_scope.

(** ** Errors *)

Inductive ProfileError :=
| KeyIdLength (actual : nat)
| MessageIdLength (actual : nat)
| EmptySubject
| ContentTypeForm
| EmptyPartyIdentity
| EmptySignature
| FreshnessChallengeLength (actual : nat)
| ResponsePublicKeyCoseShape
| ResponsePublicKeyHighBitAlias
| ResponsePublicKeyNonContributory.

Inductive DecodeError :=
| Malformed
| NotTagged
| WrongTag (expected actual : N)
| IndefiniteLength
| NonMinimalEncoding
| NonDeterministicEncoding
| DuplicateLabel
| UnknownLabel (label : Z)
| TextLabel
| WrongType (label : Z)
| MissingHeader (label : Z)
| UnknownAlgorithm (alg : Z)
| CritMissing
| CritIncomplete (label : Z)
| CritUnexpected (label : Z)
| ClaimsInUnprotected
| UnknownClaim (claim : Z)
| FractionalTime
| DecodeMissingClaim (claim : Z)
| RecipientCount (count : N)
| NestedRecipients
| RecipientCiphertextPresent
| MissingPayload
| EmbeddedNotEncrypt
| EphemeralKeyShape
| InvalidLength (label : Z) (expected actual : nat)
| Identifier (e : ProfileError)
| DecodeResponseKeyIdMismatch.

Inductive ClaimsError :=
| IssuedInFuture
| ClaimsExpired
| TtlTooLong (seconds : Z)
| NonPositiveTtl
| AudienceRejected
| MissingClaim (label : Z)
| ForbiddenClaim (label : Z)
| ResponseKeyIdMismatch.

(** ** Algorithms *)

Inductive SignatureAlgorithm := EdDsa | Es256.
Inductive KeyAgreementAlgorithm := EcdhEsHkdf256.
Inductive ContentAlgorithm := A256Gcm | ContentChaCha20Poly1305.

#[export] Instance SignatureAlgorithm_eq_dec : EqDecision SignatureAlgorithm.
Proof. solve_decision. Defined.

Definition SignatureAlgorithm_codepoint (a : SignatureAlgorithm) : Z :=
  match a with EdDsa => -8 | Es256 => -7 end.

Definition SignatureAlgorithm_from_codepoint (alg : Z) : option SignatureAlgorithm :=
  if alg =? -8 then Some EdDsa else if alg =? -7 then Some Es256 else None.

Definition KeyAgreementAlgorithm_codepoint (a : KeyAgreementAlgorithm) : Z :=
  match a with EcdhEsHkdf256 => -25 end.

Definition KeyAgreementAlgorithm_from_codepoint (alg : Z) : option KeyAgreementAlgorithm :=
  if alg =? -25 then Some EcdhEsHkdf256 else None.

Definition ContentAlgorithm_codepoint (a : ContentAlgorithm) : Z :=
  match a with A256Gcm => 3 | ContentChaCha20Poly1305 => 24 end.

Definition ContentAlgorithm_from_codepoint (alg : Z) : option ContentAlgorithm :=
  if alg =? 3 then Some A256Gcm else if alg =? 24 then Some ContentChaCha20Poly1305 else None.

Definition key_len (a : ContentAlgorithm) : N := 32.

(** ** Labels *)

Definition IN_REPLY_TO : Z := -70001.
Definition REQUEST_HASH : Z := -70002.
Definition SENDER_KEY_ID : Z := -70003.
Definition RESPONSE_KEY_ID : Z := -70004.
Definition RESPONSE_SUBJECT : Z := -70005.
Definition SIGNER_CERTIFICATES_JWT : Z := -70006.
Definition SIGNER_PUBLIC_KEY_COSE : Z := -70007.
Definition FRESHNESS_CHALLENGE : Z := -70008.
Definition RESPONSE_PUBLIC_KEY_COSE : Z := -70009.
Definition OPERATION_TARGET_KEY_ID : Z := -70010.

Definition HDR_ALG : Z := 1.
Definition HDR_CRIT : Z := 2.
Definition HDR_CONTENT_TYPE : Z := 3.
Definition HDR_KID : Z := 4.
Definition HDR_IV : Z := 5.
Definition HDR_CWT_CLAIMS : Z := 15.
Definition HDR_EPHEMERAL_KEY : Z := -1.
Definition HDR_PARTY_U_IDENTITY : Z := -21.
Definition HDR_PARTY_V_IDENTITY : Z := -24.

Definition CWT_ISS : Z := 1.
Definition CWT_AUD : Z := 3.
Definition CWT_EXP : Z := 4.
Definition CWT_IAT : Z := 6.
Definition CWT_CTI : Z := 7.

(** [label as u64] wraps a negative label; [!] complements 64 bits. *)
Definition canonical_sort_key (label : Z) : N * N :=
  if 0 <=? label then (0%N, Z.to_N label)
  else (1%N, Z.to_N (u64_max - label mod 2 ^ 64)).

(** ** Primitives *)

Class Primitives := {
  sha256 : bytes_ → bytes_;
  (** [StaticSecret::from(secret).diffie_hellman(&PublicKey::from(public))]. *)
  diffie_hellman : bytes_ → bytes_ → bytes_;
  (** [PublicKey::from(&secret)]. *)
  x25519_public : bytes_ → bytes_;
  was_contributory : bytes_ → bool;
  (** [Hkdf::<Sha256>::new(None, secret).expand(info, 32 bytes)]. *)
  hkdf_sha256 : bytes_ → bytes_ → option bytes_;
  aead_encrypt : ContentAlgorithm → bytes_ → bytes_ → bytes_ → bytes_ → option bytes_;
  aead_decrypt : ContentAlgorithm → bytes_ → bytes_ → bytes_ → bytes_ → option bytes_;
}.

(** ** Newtypes *)

Record KeyId := { key_id_bytes : bytes_ }.

Definition KeyId_from_bytes (id : bytes_) : result ProfileError KeyId :=
  return_err (KeyIdLength (length id))
    when (length id =? 0)%nat || (128 <? length id)%nat otherwise
  Ok {| key_id_bytes := id |}.

Definition KeyId_from_text (id : string) : result ProfileError KeyId :=
  KeyId_from_bytes (bytes id).

Definition as_catalog_name (k : KeyId) : option string := from_utf8 (key_id_bytes k).

Record MessageId := { message_id_bytes : bytes_ }.

Definition MessageId_from_bytes (id : bytes_) : result ProfileError MessageId :=
  return_err (MessageIdLength (length id))
    when (length id =? 0)%nat || (64 <? length id)%nat otherwise
  Ok {| message_id_bytes := id |}.

Record Subject := { subject_str : string }.

Definition Subject_new (subject : string) : result ProfileError Subject :=
  return_err EmptySubject when is_empty subject otherwise
  Ok {| subject_str := subject |}.

Record ResponseSubject := { response_subject_str : string }.

Definition ResponseSubject_new (subject : string) : result ProfileError ResponseSubject :=
  return_err EmptySubject when is_empty subject otherwise
  Ok {| response_subject_str := subject |}.

Record ContentType := { content_type_str : string }.

(** [s.matches('/').count()]. *)
Definition count_slashes (s : string) : nat :=
  length (List.filter (λ b, (b =? 47)%N) (bytes s)).

Definition ContentType_new (content_type : string) : result ProfileError ContentType :=
  return_err ContentTypeForm
    when is_empty content_type || negb (String.eqb (trim content_type) content_type)
         || negb (count_slashes content_type =? 1)%nat otherwise
  Ok {| content_type_str := content_type |}.

Record FreshnessChallenge := { challenge_bytes : bytes_ }.

Definition FreshnessChallenge_from_bytes (b : bytes_) : result ProfileError FreshnessChallenge :=
  if (length b =? 32)%nat then Ok {| challenge_bytes := b |}
  else Err (FreshnessChallengeLength (length b)).

Record RequestHash := { request_hash_bytes : bytes_ }.

Record PartyIdentity := { party_bytes : option bytes_ }.

Definition PartyIdentity_nil : PartyIdentity := {| party_bytes := None |}.

Definition PartyIdentity_from_bytes (identity : bytes_) : result ProfileError PartyIdentity :=
  return_err EmptyPartyIdentity when (length identity =? 0)%nat otherwise
  Ok {| party_bytes := Some identity |}.

Record KdfParties := {
  kdf_party_u : PartyIdentity;
  kdf_party_v : PartyIdentity;
}.

Definition KdfParties_anonymous : KdfParties :=
  {| kdf_party_u := PartyIdentity_nil; kdf_party_v := PartyIdentity_nil |}.

Definition is_anonymous (p : KdfParties) : bool :=
  match party_bytes (kdf_party_u p), party_bytes (kdf_party_v p) with
  | None, None => true
  | _, _ => false
  end.

Record CoseSignature := { signature_bytes : bytes_ }.

Definition Signature_from_bytes (b : bytes_) : result ProfileError CoseSignature :=
  return_err EmptySignature when (length b =? 0)%nat otherwise
  Ok {| signature_bytes := b |}.

(** *** [base64url_no_pad] *)

Definition base64url_alphabet (value : N) : N :=
  (if value <=? 25 then 65 + value
   else if value <=? 51 then 97 + (value - 26)
   else if value <=? 61 then 48 + (value - 52)
   else if value =? 62 then 45 else 95)%N.

Fixpoint base64url_no_pad (l : bytes_) : bytes_ :=
  match l with
  | a :: b :: c :: l' =>
      base64url_alphabet (N.shiftr a 2)
      :: base64url_alphabet (N.lor (N.shiftl (N.land a 3) 4) (N.shiftr b 4))
      :: base64url_alphabet (N.lor (N.shiftl (N.land b 15) 2) (N.shiftr c 6))
      :: base64url_alphabet (N.land c 63)
      :: base64url_no_pad l'
  | [a; b] =>
      [base64url_alphabet (N.shiftr a 2);
       base64url_alphabet (N.lor (N.shiftl (N.land a 3) 4) (N.shiftr b 4));
       base64url_alphabet (N.shiftl (N.land b 15) 2)]
  | [a] => [base64url_alphabet (N.shiftr a 2); base64url_alphabet (N.shiftl (N.land a 3) 4)]
  | [] => []
  end.

(** *** The response public key *)

Record X25519ResponsePublicKey := { response_public : bytes_ }.

Definition COSE_KEY_PREFIX : bytes_ := [163; 1; 1; 32; 4; 33; 88; 32]%N.

Section response_key.
Context `{Primitives}.

(** The argument is a [[u8; 32]]. *)
Definition from_public_bytes (public : bytes_) : result ProfileError X25519ResponsePublicKey :=
  return_err ResponsePublicKeyHighBitAlias
    when match head (rev public) with
         | Some l => negb (N.land l 128 =? 0)%N
         | None => false
         end otherwise
  let shared := diffie_hellman (replicate 32 90%N) public in
  return_err ResponsePublicKeyNonContributory
    when forallb (λ b, (b =? 0)%N) shared otherwise
  Ok {| response_public := public |}.

Definition from_cose_key_bytes (b : bytes_) : result ProfileError X25519ResponsePublicKey :=
  let? public := ok_or ResponsePublicKeyCoseShape (strip_bytes COSE_KEY_PREFIX b) in
  return_err ResponsePublicKeyCoseShape when negb (length public =? 32)%nat otherwise
  from_public_bytes public.

Definition to_cose_key_bytes (k : X25519ResponsePublicKey) : bytes_ :=
  COSE_KEY_PREFIX ++ response_public k.

Definition quote : bytes_ := [34%N].

Definition thumbprint (k : X25519ResponsePublicKey) : bytes_ :=
  base64url_no_pad
    (sha256
       (bytes "{" ++ quote ++ bytes "crv" ++ quote ++ bytes ":" ++ quote ++ bytes "X25519" ++
        quote ++ bytes "," ++ quote ++ bytes "kty" ++ quote ++ bytes ":" ++ quote ++ bytes "OKP" ++
        quote ++ bytes "," ++ quote ++ bytes "x" ++ quote ++ bytes ":" ++ quote ++
        base64url_no_pad (response_public k) ++ quote ++ bytes "}")).
End response_key.

#[export] Instance KeyId_eq_dec : EqDecision KeyId.
Proof. solve_decision. Defined.
#[export] Instance Subject_eq_dec : EqDecision Subject.
Proof. solve_decision. Defined.
#[export] Instance PartyIdentity_eq_dec : EqDecision PartyIdentity.
Proof. solve_decision. Defined.
#[export] Instance KdfParties_eq_dec : EqDecision KdfParties.
Proof. solve_decision. Defined.

(** ** Claims *)

(** [UnixTime] is its [i64]; [Duration] its whole seconds, a [u64]. *)
Record Claims := {
  issuer : option Subject;
  audience : option Subject;
  expires_at : option Z;
  issued_at : Z;
  message_id : MessageId;
  sender_key_id : option KeyId;
  response_key_id : option KeyId;
  response_subject : option ResponseSubject;
  in_reply_to : option MessageId;
  request_hash : option RequestHash;
  freshness_challenge : option FreshnessChallenge;
  response_public_key_cose : option X25519ResponsePublicKey;
}.

Record ProtectedHeaders := {
  signer_certificates_jwt : list string;
  signer_public_key_cose : option bytes_;
  operation_target_key_id : option KeyId;
}.

Definition ProtectedHeaders_default : ProtectedHeaders :=
  {| signer_certificates_jwt := []; signer_public_key_cose := None;
     operation_target_key_id := None |}.

Definition is_some {A} (o : option A) : bool := match o with Some _ => true | None => false end.

Definition headers_is_empty (h : ProtectedHeaders) : bool :=
  match signer_certificates_jwt h with [] => true | _ => false end
  && negb (is_some (signer_public_key_cose h)) && negb (is_some (operation_target_key_id h)).

Inductive MessageRole := Request | Response | Peer.

Record ValidationParams := {
  now : Z;
  max_clock_skew : Z;
  max_ttl : Z;
  default_ttl : Z;
  allowed_audiences : list Subject;
  role : MessageRole;
}.

(** A [u64] number of seconds as an [i64], saturating. *)
Definition secs_i64 (d : Z) : Z := if i64_max <? d then i64_max else d.

Definition require (present : bool) (l : Z) : result ClaimsError unit :=
  if present then Ok tt else Err (MissingClaim l).

Definition forbid (present : bool) (l : Z) : result ClaimsError unit :=
  if present then Err (ForbiddenClaim l) else Ok tt.

Section claims.
Context `{Primitives}.

Definition response_key_binding_matches (c : Claims) : bool :=
  match response_key_id c, response_public_key_cose c with
  | Some key_id, Some public => bool_decide (key_id_bytes key_id = thumbprint public)
  | _, _ => true
  end.

Definition validate_role (c : Claims) (role : MessageRole) : result ClaimsError unit :=
  return_err ResponseKeyIdMismatch when negb (response_key_binding_matches c) otherwise
  match role with
  | Request =>
      let? _ := require (is_some (sender_key_id c)) SENDER_KEY_ID in
      let? _ := require (is_some (response_key_id c)) RESPONSE_KEY_ID in
      let? _ := forbid (is_some (in_reply_to c)) IN_REPLY_TO in
      forbid (is_some (request_hash c)) REQUEST_HASH
  | Response =>
      let? _ := require (is_some (in_reply_to c)) IN_REPLY_TO in
      let? _ := require (is_some (request_hash c)) REQUEST_HASH in
      let? _ := forbid (is_some (response_key_id c)) RESPONSE_KEY_ID in
      let? _ := forbid (is_some (response_subject c)) RESPONSE_SUBJECT in
      let? _ := forbid (is_some (freshness_challenge c)) FRESHNESS_CHALLENGE in
      forbid (is_some (response_public_key_cose c)) RESPONSE_PUBLIC_KEY_COSE
  | Peer =>
      let? _ := require (is_some (sender_key_id c)) SENDER_KEY_ID in
      let? _ := forbid (is_some (in_reply_to c)) IN_REPLY_TO in
      let? _ := forbid (is_some (request_hash c)) REQUEST_HASH in
      let? _ := forbid (is_some (response_key_id c)) RESPONSE_KEY_ID in
      let? _ := forbid (is_some (response_subject c)) RESPONSE_SUBJECT in
      let? _ := forbid (is_some (freshness_challenge c)) FRESHNESS_CHALLENGE in
      forbid (is_some (response_public_key_cose c)) RESPONSE_PUBLIC_KEY_COSE
  end.

Definition effective_exp (c : Claims) (params : ValidationParams) : result ClaimsError Z :=
  match expires_at c with
  | Some exp =>
      let span := i64_saturating_sub exp (issued_at c) in
      return_err NonPositiveTtl when span <=? 0 otherwise
      return_err (TtlTooLong span) when secs_i64 (max_ttl params) <? span otherwise
      Ok exp
  | None => Ok (i64_saturating_add (issued_at c) (secs_i64 (default_ttl params)))
  end.

Definition audience_allowed (c : Claims) (params : ValidationParams) : bool :=
  match allowed_audiences params, audience c with
  | [], _ => true
  | _, None => true
  | allowed, Some aud => bool_decide (aud ∈ allowed)
  end.

Definition validate (c : Claims) (params : ValidationParams) : result ClaimsError unit :=
  let skew := secs_i64 (max_clock_skew params) in
  return_err IssuedInFuture
    when i64_saturating_add (now params) skew <? issued_at c otherwise
  let? exp := effective_exp c params in
  return_err ClaimsExpired
    when i64_saturating_add exp skew <? now params otherwise
  return_err AudienceRejected when negb (audience_allowed c params) otherwise
  validate_role c (role params).
End claims.

(** ** What validation means *)

Definition role_shape (c : Claims) (role : MessageRole) : Prop :=
  match role with
  | Request =>
      is_Some (sender_key_id c) ∧ is_Some (response_key_id c) ∧
      in_reply_to c = None ∧ request_hash c = None
  | Response =>
      is_Some (in_reply_to c) ∧ is_Some (request_hash c) ∧
      response_key_id c = None ∧ response_subject c = None ∧
      freshness_challenge c = None ∧ response_public_key_cose c = None
  | Peer =>
      is_Some (sender_key_id c) ∧ in_reply_to c = None ∧ request_hash c = None ∧
      response_key_id c = None ∧ response_subject c = None ∧
      freshness_challenge c = None ∧ response_public_key_cose c = None
  end.

(** The validity window, in unbounded arithmetic. *)
Definition in_window (c : Claims) (p : ValidationParams) : Prop :=
  issued_at c ≤ now p + max_clock_skew p ∧
  match expires_at c with
  | Some exp => issued_at c < exp ≤ issued_at c + max_ttl p ∧ now p ≤ exp + max_clock_skew p
  | None => now p ≤ issued_at c + default_ttl p + max_clock_skew p
  end.

Definition audience_ok (c : Claims) (p : ValidationParams) : Prop :=
  allowed_audiences p = [] ∨ ∀ aud, audience c = Some aud → aud ∈ allowed_audiences p.

Definition times_ok (c : Claims) (p : ValidationParams) : Prop :=
  is_i64 (issued_at c) ∧ is_i64 (now p) ∧ (∀ exp, expires_at c = Some exp → is_i64 exp) ∧
  0 ≤ max_clock_skew p ≤ i64_max ∧ 0 ≤ max_ttl p < i64_max ∧ 0 ≤ default_ttl p ≤ i64_max.

Lemma is_some_true {A} (o : option A) : is_some o = true ↔ is_Some o.
Proof. unfold is_Some. destruct o; naive_solver. Qed.

Lemma require_ok b l : require b l = Ok tt ↔ b = true.
Proof. by destruct b. Qed.

Lemma forbid_ok {A} (o : option A) l : forbid (is_some o) l = Ok tt ↔ o = None.
Proof. by destruct o. Qed.

Lemma let_unit_ok {E T} (c : result E unit) (k : result E T) t :
  (let? _ := c in k) = Ok t ↔ c = Ok tt ∧ k = Ok t.
Proof. destruct c as [[] |]; naive_solver. Qed.

Section validation.
Context `{Primitives}.

Lemma validate_role_ok c role :
  validate_role c role = Ok tt ↔ response_key_binding_matches c = true ∧ role_shape c role.
Proof.
  unfold validate_role. destruct (response_key_binding_matches c); simpl; [| naive_solver].
  destruct role; simpl; rewrite ?let_unit_ok, ?require_ok, ?forbid_ok, ?is_some_true; naive_solver.
Qed.

Lemma audience_allowed_ok c p : audience_allowed c p = true ↔ audience_ok c p.
Proof.
  unfold audience_allowed, audience_ok.
  destruct (allowed_audiences p) as [| a l]; [naive_solver |].
  destruct (audience c) as [aud |]; [rewrite bool_decide_eq_true |]; naive_solver.
Qed.

Lemma effective_exp_ok c p exp :
  times_ok c p →
  effective_exp c p = Ok exp ↔
  match expires_at c with
  | Some e => e = exp ∧ issued_at c < e ≤ issued_at c + max_ttl p
  | None => exp = i64_saturating_add (issued_at c) (default_ttl p)
  end.
Proof.
  intros (Hiat & Hnow & Hexp & Hskew & Hmax & Hdef). unfold effective_exp, secs_i64.
  destruct (expires_at c) as [e |].
  - specialize (Hexp e eq_refl). unfold_ints.
    destruct (Z.ltb_spec 9223372036854775807 (max_ttl p)); [lia |].
    destruct (Z.leb_spec (Z.max (-9223372036854775808) (Z.min 9223372036854775807
      (e - issued_at c))) 0); [split; [done | lia] |].
    destruct (Z.ltb_spec (max_ttl p) (Z.max (-9223372036854775808) (Z.min 9223372036854775807
      (e - issued_at c)))); [split; [done | lia] |].
    split; [intros [= ->]; lia | by intros [-> _]].
  - unfold_ints. destruct (Z.ltb_spec 9223372036854775807 (default_ttl p)); [lia |].
    naive_solver.
Qed.

Lemma validate_iff c p :
  times_ok c p →
  validate c p = Ok tt ↔
  in_window c p ∧ audience_ok c p ∧ response_key_binding_matches c = true ∧
  role_shape c (role p).
Proof.
  intros Ht. pose proof Ht as (Hiat & Hnow & Hexp & Hskew & Hmax & Hdef).
  rewrite <- validate_role_ok, <- audience_allowed_ok. unfold validate, in_window.
  assert (Hs : secs_i64 (max_clock_skew p) = max_clock_skew p).
  { unfold secs_i64. destruct (Z.ltb_spec i64_max (max_clock_skew p)); [lia | done]. }
  rewrite Hs.
  destruct (Z.ltb_spec (i64_saturating_add (now p) (max_clock_skew p)) (issued_at c)) as [Hf | Hf].
  { split; [done |]. intros [[Hi _] _]. unfold_ints. lia. }
  destruct (effective_exp c p) as [exp | e] eqn:He.
  - apply effective_exp_ok in He; [| done].
    destruct (Z.ltb_spec (i64_saturating_add exp (max_clock_skew p)) (now p)) as [Hx | Hx].
    { split; [done |]. intros [[_ Hw] _].
      destruct (expires_at c); unfold_ints; destruct_and?; subst; lia. }
    destruct (audience_allowed c p); simpl; [| naive_solver].
    split; [| naive_solver]. intros Hv. split_and!; try done; [unfold_ints; lia |].
    destruct (expires_at c) as [e |]; [| unfold_ints; lia].
    specialize (Hexp _ eq_refl). unfold_ints. lia.
  - split; [done |]. intros [[_ Hw] _]. exfalso.
    destruct (expires_at c) as [x |] eqn:Ee.
    + assert (effective_exp c p = Ok x) as Hc; [| congruence].
      apply effective_exp_ok; [done |]. rewrite Ee. naive_solver.
    + assert (effective_exp c p = Ok (i64_saturating_add (issued_at c) (default_ttl p))) as Hc;
        [| congruence]. apply effective_exp_ok; [done |]. by rewrite Ee.
Qed.

(** C35: claim validation is exact.  For times that fit in 64 bits, a skew
    and a default lifetime of at most [2^63 - 1] seconds and a maximal lifetime
    of strictly less than that (at [2^63 - 1] the saturating subtraction of the
    lifetime check limits nothing), [validate] accepts a claim set iff its times lie in the validity window
    computed without overflow (issue not in the future beyond the skew, a
    positive explicit lifetime of at most [max_ttl], not past the expiry plus
    the skew), its audience is allowed, its response key id is the thumbprint
    of the response public key when both are there, and exactly the labels of
    its role are present. *)
Theorem validate_exact c p :
  times_ok c p →
  validate c p = Ok tt ↔
  in_window c p ∧ audience_ok c p ∧ response_key_binding_matches c = true ∧
  role_shape c (role p).
Proof. apply validate_iff. Qed.
End validation.

(** ** A concrete instance

    Stand-ins with the algebra of the primitives, for evaluating the model on
    concrete inputs; they have no security. *)

Definition pad_to (n : nat) (b : bytes_) : bytes_ := take n (b ++ replicate n 0%N).

Definition toy_primitives : Primitives := {|
  sha256 b := pad_to 32 (rev b);
  diffie_hellman a p := zip_with (λ x y, ((x + y + 1) mod 256)%N) (pad_to 32 a) p;
  x25519_public := pad_to 32;
  was_contributory s := negb (forallb (λ b, (b =? 0)%N) s);
  hkdf_sha256 s _ := Some s;
  aead_encrypt _ key nonce m aad := Some (key ++ nonce ++ aad ++ m);
  aead_decrypt _ key nonce c aad := strip_bytes (key ++ nonce ++ aad) c;
|}.

Definition sample_claims : Claims :=
  {| issuer := None; audience := Some {| subject_str := "svc" |}; expires_at := Some 160;
     issued_at := 100; message_id := {| message_id_bytes := [7%N] |};
     sender_key_id := Some {| key_id_bytes := [1%N; 2%N] |};
     response_key_id := Some {| key_id_bytes := bytes "reply" |};
     response_subject := Some {| response_subject_str := "inbox" |};
     in_reply_to := None; request_hash := None; freshness_challenge := None;
     response_public_key_cose := None |}.

Definition sample_validation : ValidationParams :=
  {| now := 120; max_clock_skew := 5; max_ttl := 300; default_ttl := 60;
     allowed_audiences := [{| subject_str := "svc" |}]; role := Request |}.

Lemma validate_exact_witness :
  @validate toy_primitives sample_claims sample_validation = Ok tt.
Proof.
  apply (@validate_exact toy_primitives).
  - unfold times_ok. unfold_ints. simpl. split_and!; try lia. intros exp [= <-]. lia.
  - split_and!; [by unfold in_window; simpl; lia | | done | by split_and!; try eexists].
    right. intros aud [= <-]. by apply list_elem_of_singleton.
Defined.
