(* ===== verification/Cbor.v ===== *)
(** * Deterministic CBOR ([crates/basil-cose/src/codec/precheck.rs])

    [scan] walks raw bytes and accepts one complete item whose heads are all
    definite and minimal.  [item] and [cbor_encode] are the data model of RFC 8949
    and its preferred encoding, the specification the scanner is compared
    with. *)

From S2P Require Import Prelude RustStr Bytes CoseTypes.

Record Scan := { top_tag : option N }.

Definition MAX_DEPTH : nat := 32.

(** ** The scanner *)

Definition major_of (initial : N) : N := N.shiftr initial 5.
Definition info_of (initial : N) : N := N.land initial 31.

(** A head whose argument is in the [n] bytes after the initial one, not
    below [minimum] unless the major type is 7. *)
Definition read_wide (b : bytes_) (pos n : nat) (initial minimum : N)
    : result DecodeError (N * nat) :=
  let? raw := ok_or Malformed (get_range b (pos + 1) (pos + 1 + n)) in
  let v := from_be_bytes raw in
  return_err NonMinimalEncoding
    when negb (major_of initial =? 7)%N && (v <? minimum)%N otherwise
  Ok (v, pos + 1 + n).

Definition read_head (b : bytes_) (pos : nat) : result DecodeError (N * nat) :=
  let? initial := ok_or Malformed (b !! pos) in
  let ai := info_of initial in
  if (ai <=? 23)%N then Ok (ai, pos + 1)
  else if (ai =? 24)%N then
    let? v := ok_or Malformed (b !! (pos + 1)) in
    let minimum := if (major_of initial =? 7)%N then 32%N else 24%N in
    return_err NonMinimalEncoding when (v <? minimum)%N otherwise
    Ok (v, pos + 2)
  else if (ai =? 25)%N then read_wide b pos 2 initial 256
  else if (ai =? 26)%N then read_wide b pos 4 initial 65536
  else if (ai =? 27)%N then read_wide b pos 8 initial 4294967296
  else if (ai <=? 30)%N then Err Malformed
  else Err IndefiniteLength.

(** [for _ in 0..count { next = scan_one(next)? }].  [None] is the model
    running out of [fuel]. *)
Fixpoint scan_loop (scan_one : nat → option (result DecodeError nat)) (fuel : nat) (count : N)
    (next : nat) : option (result DecodeError nat) :=
  if (count =? 0)%N then Some (Ok next)
  else
    match fuel with
    | O => None
    | S fuel' =>
        match scan_one next with
        | Some (Ok next') => scan_loop scan_one fuel' (count - 1) next'
        | r => r
        end
    end.

(** [levels] bounds the recursion; it is larger than the depth that is left. *)
Fixpoint scan_item (levels : nat) (b : bytes_) (pos depth : nat)
    : option (result DecodeError nat) :=
  match levels with
  | O => None
  | S levels' =>
      if (MAX_DEPTH <? depth)%nat then Some (Err Malformed)
      else
        match b !! pos with
        | None => Some (Err Malformed)
        | Some initial =>
            let major := major_of initial in
            if (info_of initial =? 31)%N then
              Some (Err (if (2 <=? major)%N && (major <=? 5)%N
                         then IndefiniteLength else Malformed))
            else
              match read_head b pos with
              | Err e => Some (Err e)
              | Ok (arg, next) =>
                  if ((major =? 0) || (major =? 1) || (major =? 7))%N then Some (Ok next)
                  else if ((major =? 2) || (major =? 3))%N then
                    (* [usize] is 64 bits wide; a sum that overflows it is
                       past the end as well. *)
                    if (N.of_nat (length b) <? N.of_nat next + arg)%N
                    then Some (Err Malformed) else Some (Ok (next + N.to_nat arg)%nat)
                  else if (major =? 4)%N then
                    scan_loop (λ p, scan_item levels' b p (depth + 1)) (S (length b)) arg next
                  else if (major =? 5)%N then
                    if (2 ^ 64 <=? arg * 2)%N then Some (Err Malformed)
                    else scan_loop (λ p, scan_item levels' b p (depth + 1)) (S (length b))
                           (arg * 2) next
                  else scan_item levels' b next (depth + 1)
              end
        end
  end.

Definition scan_top_tag (b : bytes_) : result DecodeError (option N) :=
  match b !! 0%nat with
  | Some initial =>
      if (major_of initial =? 6)%N then
        let? (tag, _) := read_head b 0 in
        Ok (Some tag)
      else Ok None
  | None => Err Malformed
  end.

Definition scan (b : bytes_) : result DecodeError Scan :=
  let? tag := scan_top_tag b in
  match scan_item (MAX_DEPTH + 2) b 0 0 with
  | Some (Ok e) =>
      if (e =? length b)%nat then Ok {| top_tag := tag |} else Err Malformed
  | Some (Err e) => Err e
  | None => Err Malformed
  end.

(** ** The data model of RFC 8949 *)

(** The keys and values of a map alternate in its list. *)
Inductive item :=
| UInt (n : N)
| NInt (n : N)
| ByteStr (l : bytes_)
| TextStr (l : bytes_)
| Arr (l : list item)
| Map_ (l : list item)
| Tag (t : N) (x : item)
| Simple (v : N)
| Float (l : bytes_).

(** A head in the preferred (shortest) form. *)
Definition cbor_head (major arg : N) : bytes_ :=
  (if arg <? 24 then [major * 32 + arg]
   else if arg <? 256 then [major * 32 + 24; arg]
   else if arg <? 65536 then (major * 32 + 25) :: to_be_bytes 2 arg
   else if arg <? 4294967296 then (major * 32 + 26) :: to_be_bytes 4 arg
   else (major * 32 + 27) :: to_be_bytes 8 arg)%N.

Fixpoint cbor_encode (x : item) : bytes_ :=
  match x with
  | UInt n => cbor_head 0 n
  | NInt n => cbor_head 1 n
  | ByteStr l => cbor_head 2 (N.of_nat (length l)) ++ l
  | TextStr l => cbor_head 3 (N.of_nat (length l)) ++ l
  | Arr l => cbor_head 4 (N.of_nat (length l)) ++ flat_map cbor_encode l
  | Map_ l => cbor_head 5 (N.of_nat (length l) / 2) ++ flat_map cbor_encode l
  | Tag t x => cbor_head 6 t ++ cbor_encode x
  | Simple v => if (v <? 24)%N then [(224 + v)%N] else [248%N; v]
  | Float l =>
      (if (length l =? 2)%nat then 249%N
       else if (length l =? 4)%nat then 250%N else 251%N) :: l
  end.

Fixpoint height (x : item) : nat :=
  match x with
  | Arr l | Map_ l => fold_right (λ y n, Nat.max (S (height y)) n) 0 l
  | Tag _ x => S (height x)
  | _ => 0
  end.

Definition u64 (n : N) : Prop := (n < 2 ^ 64)%N.

Fixpoint item_wf (x : item) : Prop :=
  match x with
  | UInt n | NInt n => u64 n
  | ByteStr l | TextStr l => is_bytes l ∧ u64 (N.of_nat (length l))
  | Arr l => u64 (N.of_nat (length l)) ∧ fold_right (λ y P, item_wf y ∧ P) True l
  | Map_ l =>
      u64 (N.of_nat (length l)) ∧ Nat.Even (length l) ∧
      fold_right (λ y P, item_wf y ∧ P) True l
  | Tag t x => u64 t ∧ item_wf x
  | Simple v => (v < 24 ∨ 32 ≤ v < 256)%N
  | Float l => is_bytes l ∧ (length l = 2 ∨ length l = 4 ∨ length l = 8)%nat
  end.

(** Evaluate the tests of a goal that are closed. *)
Ltac eval_tests :=
  repeat match goal with
  | |- context [if ?c then _ else _] =>
      is_ground c; first [change c with true | change c with false]; cbv iota
  end.

(** ** Heads *)

Section item_induction.
Variable P : item → Prop.
Hypothesis P_uint : ∀ n, P (UInt n).
Hypothesis P_nint : ∀ n, P (NInt n).
Hypothesis P_bytes : ∀ l, P (ByteStr l).
Hypothesis P_text : ∀ l, P (TextStr l).
Hypothesis P_arr : ∀ l, Forall P l → P (Arr l).
Hypothesis P_map : ∀ l, Forall P l → P (Map_ l).
Hypothesis P_tag : ∀ t x, P x → P (Tag t x).
Hypothesis P_simple : ∀ v, P (Simple v).
Hypothesis P_float : ∀ l, P (Float l).

Fixpoint item_nested_ind (x : item) : P x :=
  let all := fix all (l : list item) : Forall P l :=
    match l with
    | [] => List.Forall_nil P
    | y :: l' => List.Forall_cons P y l' (item_nested_ind y) (all l')
    end in
  match x with
  | UInt n => P_uint n
  | NInt n => P_nint n
  | ByteStr l => P_bytes l
  | TextStr l => P_text l
  | Arr l => P_arr l (all l)
  | Map_ l => P_map l (all l)
  | Tag t x => P_tag t x (item_nested_ind x)
  | Simple v => P_simple v
  | Float l => P_float l
  end.
End item_induction.

Lemma items_wf_Forall l : fold_right (λ y P, item_wf y ∧ P) True l ↔ Forall item_wf l.
Proof. induction l as [| x l IH]; simpl; [by split |]. rewrite Forall_cons_iff, IH. done. Qed.

Lemma height_Forall l n :
  fold_right (λ y k, Nat.max (S (height y)) k) 0 l ≤ n ↔ Forall (λ y, S (height y) ≤ n) l.
Proof.
  induction l as [| x l IH]; simpl; [split; [constructor | lia] |].
  rewrite Forall_cons_iff, <- IH. lia.
Qed.

Lemma info_of_head m k : (k < 32)%N → info_of (m * 32 + k) = k.
Proof.
  intros Hk. unfold info_of. change 31%N with (N.ones 5). rewrite N.land_ones.
  change (2 ^ 5)%N with 32%N. rewrite N.add_comm, N.Div0.mod_add. by apply N.mod_small.
Qed.

Lemma major_of_head m k : (k < 32)%N → major_of (m * 32 + k) = m.
Proof.
  intros Hk. unfold major_of. rewrite N.shiftr_div_pow2. change (2 ^ 5)%N with 32%N.
  rewrite N.div_add_l by done. rewrite N.div_small by done. apply N.add_0_r.
Qed.

Lemma initial_split b : b = (major_of b * 32 + info_of b)%N.
Proof.
  unfold major_of, info_of. change 31%N with (N.ones 5).
  rewrite N.shiftr_div_pow2, N.land_ones. change (2 ^ 5)%N with 32%N.
  rewrite N.mul_comm. by apply N.div_mod.
Qed.

Lemma info_of_lt b : (info_of b < 32)%N.
Proof.
  unfold info_of. change 31%N with (N.ones 5). rewrite N.land_ones. by apply N.mod_upper_bound.
Qed.

Lemma length_head_pos m a : (1 <= length (cbor_head m a))%nat.
Proof. unfold cbor_head. repeat case_match; simpl; lia. Qed.

Lemma encode_not_empty x : (1 <= length (cbor_encode x))%nat.
Proof.
  destruct x; simpl; rewrite ?length_app;
    try (pose proof (length_head_pos 0 n); lia); try (pose proof (length_head_pos 1 n); lia);
    try (match goal with |- context [cbor_head ?m ?a] => pose proof (length_head_pos m a) end; lia);
    repeat case_match; simpl; lia.
Qed.

Lemma head_first m a : ∃ k rest, cbor_head m a = (m * 32 + k)%N :: rest ∧ (k < 28)%N.
Proof. unfold cbor_head. repeat case_match; bool_facts; eexists _, _; (split; [done | lia]). Qed.

Lemma lookup_at_pre (pre : bytes_) x l : (pre ++ x :: l) !! length pre = Some x.
Proof. by apply list_lookup_middle. Qed.

Lemma lookup_after_pre (pre : bytes_) x y l : (pre ++ x :: y :: l) !! (length pre + 1)%nat = Some y.
Proof.
  rewrite (cons_middle x), app_assoc. apply list_lookup_middle. rewrite length_app. simpl. lia.
Qed.

Lemma get_range_after_pre (pre raw post : bytes_) x n :
  length raw = n →
  get_range (pre ++ x :: raw ++ post) (length pre + 1) (length pre + 1 + n) = Some raw.
Proof.
  intros <-. apply get_range_Some. exists (pre ++ [x]), post.
  rewrite length_app. simpl. split_and!; [by rewrite <- app_assoc | done | done].
Qed.

Lemma read_wide_after_pre pre post n m k a minimum :
  (k < 32)%N → (a < 256 ^ N.of_nat n)%N → (minimum <= a)%N →
  read_wide (pre ++ (m * 32 + k)%N :: to_be_bytes n a ++ post) (length pre) n (m * 32 + k) minimum
  = Ok (a, length pre + 1 + n).
Proof.
  intros Hk Ha Hmin. unfold read_wide.
  rewrite (get_range_after_pre pre (to_be_bytes n a)) by apply length_to_be_bytes. simpl.
  rewrite from_to_be_bytes by done.
  rewrite (proj2 (N.ltb_ge a minimum)) by lia. by rewrite andb_false_r.
Qed.

Lemma read_head_head pre m a post :
  m ≠ 7%N → u64 a →
  read_head (pre ++ cbor_head m a ++ post) (length pre) = Ok (a, length pre + length (cbor_head m a)).
Proof.
  intros Hm Ha. unfold read_head, cbor_head, u64 in *.
  destruct (N.ltb_spec a 24); simpl.
  { rewrite lookup_at_pre. simpl. rewrite info_of_head by lia.
    by rewrite (proj2 (N.leb_le a 23)) by lia. }
  destruct (N.ltb_spec a 256); simpl.
  { rewrite lookup_at_pre, lookup_after_pre. simpl. rewrite info_of_head, major_of_head by lia.
    simpl. rewrite (proj2 (N.eqb_neq m 7)) by done.
    by rewrite (proj2 (N.ltb_ge a 24)) by lia. }
  destruct (N.ltb_spec a 65536); [| destruct (N.ltb_spec a 4294967296)];
    cbn [app]; rewrite lookup_at_pre; cbn [ok_or]; rewrite info_of_head by lia;
    eval_tests;
    rewrite read_wide_after_pre by (cbn; lia);
    cbn [length]; rewrite length_to_be_bytes; do 2 f_equal; lia.
Qed.

(** What a successful cbor_head read says about the bytes. *)

Lemma lookup_drop_cons (b : bytes_) pos x : b !! pos = Some x → drop pos b = x :: drop (pos + 1) b.
Proof.
  intros H. rewrite Nat.add_1_r. by apply drop_S.
Qed.

Lemma get_range_drop_app (b : bytes_) pos n raw :
  get_range b pos (pos + n) = Some raw → drop pos b = raw ++ drop (pos + n) b ∧ length raw = n.
Proof.
  intros (pre & post & -> & <- & Hn)%get_range_Some. assert (length raw = n) as <- by lia.
  split; [| done]. rewrite drop_app_length.
  rewrite (app_assoc pre raw), drop_app_ge by (rewrite length_app; lia).
  rewrite length_app. by rewrite Nat.sub_diag.
Qed.

Lemma read_wide_inv b pos n initial minimum arg next :
  is_bytes b → b !! pos = Some initial → read_wide b pos n initial minimum = Ok (arg, next) →
  ∃ raw, drop pos b = initial :: raw ++ drop next b ∧ length raw = n ∧ is_bytes raw ∧
    arg = from_be_bytes raw ∧ next = (pos + 1 + n)%nat ∧
    (major_of initial = 7%N ∨ (minimum <= arg)%N).
Proof.
  unfold read_wide. intros Hb Hi H.
  destruct (get_range b (pos + 1) (pos + 1 + n)) as [raw |] eqn:Hr; [| done]. simpl in H.
  inv_ok H. apply get_range_drop_app in Hr as [Hd Hl]. exists raw.
  apply lookup_drop_cons in Hi. simplify_eq. split_and!; try done.
  - by rewrite Hi, Hd.
  - apply (is_bytes_drop _ (pos + 1)) in Hb. rewrite Hd in Hb.
    by apply Forall_app in Hb as [? _].
  - apply andb_false_iff in E as [?%negb_false_iff%N.eqb_eq | ?%N.ltb_ge]; auto.
Qed.

Lemma to_be_bytes_of (raw : bytes_) n :
  length raw = n → is_bytes raw → to_be_bytes n (from_be_bytes raw) = raw.
Proof. intros <-. apply to_from_be_bytes. Qed.

(** What a head says about the bytes it was read from. *)
Definition head_spec (b : bytes_) (pos : nat) (initial arg : N) (next : nat) : Prop :=
  if (major_of initial =? 7)%N
  then ∃ x, item_wf x ∧ height x = 0 ∧ drop pos b = cbor_encode x ++ drop next b ∧
         next = (pos + length (cbor_encode x))%nat
  else u64 arg ∧ drop pos b = cbor_head (major_of initial) arg ++ drop next b ∧
       next = (pos + length (cbor_head (major_of initial) arg))%nat.

Lemma read_wide_spec b pos n initial minimum arg next :
  is_bytes b → b !! pos = Some initial → read_wide b pos n initial minimum = Ok (arg, next) →
  (n = 2 ∧ info_of initial = 25%N ∧ minimum = 256%N ∨
   n = 4 ∧ info_of initial = 26%N ∧ minimum = 65536%N ∨
   n = 8 ∧ info_of initial = 27%N ∧ minimum = 4294967296%N)%nat →
  head_spec b pos initial arg next.
Proof.
  intros Hb Hi Hr Hcase. unfold head_spec.
  apply read_wide_inv in Hr as (raw & Hd & Hl & Hraw & -> & -> & Hmin); [| done | done].
  pose proof (from_be_bytes_lt raw Hraw) as Hlt. rewrite Hl in Hlt.
  pose proof (to_be_bytes_of raw n Hl Hraw) as Hto. pose proof (initial_split initial) as Hsplit.
  destruct (N.eqb_spec (major_of initial) 7) as [H7 | H7].
  - exists (Float raw). simpl. rewrite H7 in Hsplit.
    split_and!; [done | lia | done | | lia].
    rewrite Hd. f_equal. rewrite Hsplit.
    destruct Hcase as [(-> & -> & _) | [(-> & -> & _) | (-> & -> & _)]]; by rewrite Hl.
  - destruct Hmin as [? | Hmin]; [done |].
    assert (cbor_head (major_of initial) (from_be_bytes raw) = initial :: raw) as Hh.
    { transitivity ((major_of initial * 32 + info_of initial)%N :: raw);
        [unfold cbor_head | by rewrite <- Hsplit].
      destruct Hcase as [(-> & -> & ->) | [(-> & -> & ->) | (-> & -> & ->)]];
        cbn in Hlt; repeat (case_match; bool_facts; try lia); by rewrite Hto. }
    rewrite Hh. simpl. split_and!; [| done | lia]. unfold u64.
    destruct Hcase as [(-> & _) | [(-> & _) | (-> & _)]]; cbn in Hlt; lia.
Qed.

Lemma read_head_spec b pos initial arg next :
  is_bytes b → b !! pos = Some initial → read_head b pos = Ok (arg, next) →
  head_spec b pos initial arg next.
Proof.
  intros Hb Hi H. unfold read_head in H. rewrite Hi in H. simpl in H.
  pose proof (info_of_lt initial) as Hlt. pose proof (initial_split initial) as Hsplit.
  pose proof (lookup_drop_cons _ _ _ Hi) as Hd.
  destruct (N.leb_spec (info_of initial) 23).
  { simplify_eq. unfold head_spec, cbor_head, u64. rewrite Hd.
    destruct (N.eqb_spec (major_of initial) 7) as [H7 | H7].
    - exists (Simple (info_of initial)). simpl. rewrite (proj2 (N.ltb_lt _ 24)) by lia.
      rewrite H7 in Hsplit. split_and!; [lia | done | | done]. simpl. f_equal. lia.
    - rewrite (proj2 (N.ltb_lt _ 24)) by lia. simpl. split_and!; [lia | f_equal; lia | done]. }
  destruct (N.eqb_spec (info_of initial) 24) as [H24 |].
  { destruct (b !! (pos + 1)%nat) as [v |] eqn:Hv; [| done]. simpl in H. inv_ok H.
    bool_facts. simplify_eq. apply lookup_drop_cons in Hv as Hd'.
    assert (is_byte arg) as Hvb by (eapply Forall_lookup_1; [exact Hb | exact Hv]).
    unfold is_byte in Hvb. rewrite Hd', <- Nat.add_assoc in Hd. simpl in Hd.
    unfold head_spec, cbor_head, u64. rewrite Hd.
    destruct (N.eqb_spec (major_of initial) 7) as [H7 | H7]; simpl in *.
    - exists (Simple arg). simpl. rewrite (proj2 (N.ltb_ge arg 24)) by lia.
      rewrite H7, H24 in Hsplit. split_and!; [lia | done | | done]. simpl. by rewrite Hsplit.
    - rewrite (proj2 (N.ltb_ge arg 24)), (proj2 (N.ltb_lt arg 256)) by lia.
      simpl. split_and!; [lia | by rewrite <- H24, <- Hsplit | done]. }
  destruct (N.eqb_spec (info_of initial) 25); [eapply read_wide_spec; eauto; lia |].
  destruct (N.eqb_spec (info_of initial) 26); [eapply read_wide_spec; eauto; lia |].
  destruct (N.eqb_spec (info_of initial) 27); [eapply read_wide_spec; eauto; lia |].
  by destruct (info_of initial <=? 30)%N.
Qed.

(** ** The scanner accepts exactly the encodings *)

(** [x] is encoded in [b] from [pos] up to [next], within the depth limit. *)
Definition item_at (b : bytes_) (pos depth : nat) (x : item) (next : nat) : Prop :=
  item_wf x ∧ (depth + height x <= MAX_DEPTH)%nat ∧
  drop pos b = cbor_encode x ++ drop next b ∧ next = (pos + length (cbor_encode x))%nat.

Lemma scan_loop_sound (b : bytes_) depth scan_one fuel count next e :
  (∀ p q, scan_one p = Some (Ok q) → ∃ x, item_at b p depth x q) →
  scan_loop scan_one fuel count next = Some (Ok e) →
  ∃ l, N.of_nat (length l) = count ∧ Forall item_wf l ∧
    Forall (λ x, depth + height x <= MAX_DEPTH)%nat l ∧
    drop next b = flat_map cbor_encode l ++ drop e b ∧
    e = (next + length (flat_map cbor_encode l))%nat.
Proof.
  intros Hone. revert count next. induction fuel as [| fuel IH]; intros count next; simpl;
    destruct (N.eqb_spec count 0) as [-> | Hc]; try done.
  1, 2: intros [= <-]; exists []; simpl; split_and!; auto using List.Forall_nil; lia.
  destruct (scan_one next) as [[p |] |] eqn:Hp; [| done | done]. intros Hl.
  apply Hone in Hp as (x & Hwf & Hh & Hd & ->).
  apply IH in Hl as (l & Hlen & Hwfs & Hhs & Hds & ->).
  exists (x :: l). simpl. rewrite length_app, Hd, Hds, <- app_assoc.
  split_and!; [lia | by constructor | by constructor | done | lia].
Qed.

Lemma scan_loop_step f fuel n next next' :
  f next = Some (Ok next') →
  scan_loop f (S fuel) (N.of_nat (S n)) next = scan_loop f fuel (N.of_nat n) next'.
Proof.
  intros Hf. cbn [scan_loop]. rewrite (proj2 (N.eqb_neq _ 0)) by lia. rewrite Hf.
  f_equal. lia.
Qed.

#[local] Arguments scan_loop : simpl never.

Lemma scan_string_sound b pos depth m arg next :
  is_bytes b → (depth <= MAX_DEPTH)%nat → (m = 2 ∨ m = 3)%N → u64 arg →
  drop pos b = cbor_head m arg ++ drop (pos + length (cbor_head m arg)) b →
  (if (N.of_nat (length b) <? N.of_nat (pos + length (cbor_head m arg)) + arg)%N
   then Some (Err Malformed)
   else Some (Ok (pos + length (cbor_head m arg) + N.to_nat arg)%nat))
  = Some (@Ok DecodeError nat next) →
  ∃ x, item_at b pos depth x next.
Proof.
  intros Hb Hdep Hm Ha Hd.
  destruct (N.ltb_spec (N.of_nat (length b)) (N.of_nat (pos + length (cbor_head m arg)) + arg));
    [done |].
  intros [= <-]. set (p := (pos + length (cbor_head m arg))%nat) in *.
  set (content := take (N.to_nat arg) (drop p b)).
  assert (Hc : length content = N.to_nat arg).
  { unfold content. rewrite length_take, length_drop. lia. }
  assert (Hsplit : drop p b = content ++ drop (p + N.to_nat arg) b).
  { unfold content. rewrite <- (take_drop (N.to_nat arg) (drop p b)) at 1. by rewrite drop_drop. }
  assert (is_bytes content) by (by apply Forall_take, is_bytes_drop).
  destruct Hm as [-> | ->]; [exists (ByteStr content) | exists (TextStr content)];
    unfold item_at; simpl; rewrite length_app, Hc, N2Nat.id;
    (split_and!; [done | done | lia | by rewrite Hd, Hsplit, <- app_assoc | unfold p; lia]).
Qed.

Lemma children_height depth l :
  Forall (λ x, depth + 1 + height x <= MAX_DEPTH)%nat l → (depth <= MAX_DEPTH)%nat →
  (depth + fold_right (λ y k, Nat.max (S (height y)) k) 0 l <= MAX_DEPTH)%nat.
Proof.
  intros Hh Hd.
  assert (Forall (λ y, S (height y) <= MAX_DEPTH - depth)%nat l) as Hf%height_Forall; [| lia].
  eapply List.Forall_impl; [| exact Hh]. simpl. lia.
Qed.

Lemma scan_item_sound levels b pos depth next :
  is_bytes b → (N.of_nat (length b) < 2 ^ 64)%N →
  scan_item levels b pos depth = Some (Ok next) → ∃ x, item_at b pos depth x next.
Proof.
  intros Hb Hlen. revert pos depth next.
  induction levels as [| levels IH]; intros pos depth next; simpl; [done |].
  destruct (Nat.ltb_spec MAX_DEPTH depth); [done |].
  destruct (b !! pos) as [initial |] eqn:Hi; [| done].
  destruct (N.eqb_spec (info_of initial) 31); [by destruct (_ && _) |].
  destruct (read_head b pos) as [[arg p] |] eqn:Hr; [| done].
  apply (read_head_spec _ _ _ _ _ Hb Hi) in Hr. unfold head_spec, item_at in *.
  destruct (N.eqb_spec (major_of initial) 7) as [H7 | H7].
  { destruct Hr as (x & Hwf & Hh & Hd & ->). rewrite orb_true_r. intros [= <-].
    exists x. split_and!; [done | lia | done | done]. }
  rewrite orb_false_r. destruct Hr as (Ha & Hd & ->).
  destruct (N.eqb_spec (major_of initial) 0) as [H0 |]; simpl.
  { intros [= <-]. exists (UInt arg). simpl. rewrite H0 in *. split_and!; [done | lia | done | done]. }
  destruct (N.eqb_spec (major_of initial) 1) as [H1 |]; simpl.
  { intros [= <-]. exists (NInt arg). simpl. rewrite H1 in *. split_and!; [done | lia | done | done]. }
  destruct ((major_of initial =? 2) || (major_of initial =? 3))%N eqn:H23.
  { apply scan_string_sound; try done. apply orb_true_iff in H23.
    by rewrite !N.eqb_eq in H23. }
  destruct (N.eqb_spec (major_of initial) 4) as [H4 |].
  { intros (l & Hn & Hwf & Hh & Hds & ->)%(scan_loop_sound b (depth + 1));
      [| by intros p q; apply IH].
    exists (Arr l). simpl. rewrite items_wf_Forall, Hn, H4 in *. rewrite length_app, Hd, Hds.
    split_and!; [done | done | | by rewrite <- app_assoc | lia].
    by apply children_height. }
  destruct (N.eqb_spec (major_of initial) 5) as [H5 |].
  { destruct (N.leb_spec (2 ^ 64) (arg * 2)); [done |].
    intros (l & Hn & Hwf & Hh & Hds & ->)%(scan_loop_sound b (depth + 1));
      [| by intros p q; apply IH].
    exists (Map_ l). simpl. rewrite items_wf_Forall, Hn, N.div_mul, H5 in * by done.
    rewrite length_app, Hd, Hds.
    split_and!; [done | exists (N.to_nat arg); lia | done | | by rewrite <- app_assoc | lia].
    by apply children_height. }
  intros (x & Hwf & Hh & Hds & ->)%IH. exists (Tag arg x). simpl.
  assert (major_of initial = 6%N) as H6.
  { assert (is_byte initial) as Hbyte by (eapply Forall_lookup_1; [exact Hb | exact Hi]).
    unfold is_byte in Hbyte. pose proof (initial_split initial).
    apply orb_false_iff in H23 as [?%N.eqb_neq ?%N.eqb_neq]. lia. }
  rewrite H6 in *. rewrite length_app, Hd, Hds.
  split_and!; [done | done | lia | by rewrite <- app_assoc | lia].
Qed.

Lemma scan_loop_complete b f l fuel pre post :
  b = pre ++ flat_map cbor_encode l ++ post →
  Forall (λ x, ∀ pre post, b = pre ++ cbor_encode x ++ post →
            f (length pre) = Some (Ok (length pre + length (cbor_encode x))%nat)) l →
  (length l <= fuel)%nat →
  scan_loop f fuel (N.of_nat (length l)) (length pre)
  = Some (Ok (length pre + length (flat_map cbor_encode l))%nat).
Proof.
  revert fuel pre. induction l as [| x l IH]; intros fuel pre Hb Hf Hfuel.
  { simpl. rewrite Nat.add_0_r. by destruct fuel. }
  inversion Hf as [| ? ? Hx Hl]; subst. destruct fuel as [| fuel]; [simpl in Hfuel; lia |].
  cbn [length flat_map].
  erewrite scan_loop_step
    by (apply (Hx pre (flat_map cbor_encode l ++ post)); simpl; by rewrite <- app_assoc).
  rewrite <- length_app, IH; [| | done | simpl in Hfuel; lia].
  - rewrite !length_app. do 2 f_equal. lia.
  - simpl. by rewrite <- !app_assoc.
Qed.

(** Scanning a head of a major type other than 7 continues by that type. *)
Lemma scan_item_head levels pre m arg post depth :
  (m < 7)%N → u64 arg → (depth <= MAX_DEPTH)%nat →
  let b := pre ++ cbor_head m arg ++ post in
  let next := (length pre + length (cbor_head m arg))%nat in
  scan_item (S levels) b (length pre) depth =
  if ((m =? 0) || (m =? 1))%N then Some (Ok next)
  else if ((m =? 2) || (m =? 3))%N then
    if (N.of_nat (length b) <? N.of_nat next + arg)%N
    then Some (Err Malformed) else Some (Ok (next + N.to_nat arg)%nat)
  else if (m =? 4)%N then
    scan_loop (λ p, scan_item levels b p (depth + 1)) (S (length b)) arg next
  else if (m =? 5)%N then
    if (2 ^ 64 <=? arg * 2)%N then Some (Err Malformed)
    else scan_loop (λ p, scan_item levels b p (depth + 1)) (S (length b)) (arg * 2) next
  else scan_item levels b next (depth + 1).
Proof.
  intros Hm Ha Hdepth b next. cbn [scan_item].
  rewrite (proj2 (Nat.ltb_ge MAX_DEPTH depth)) by done.
  unfold b at 1. destruct (head_first m arg) as (k & rest & Hh & Hk).
  assert (Hl : (pre ++ cbor_head m arg ++ post) !! length pre = Some (m * 32 + k)%N).
  { rewrite Hh. apply lookup_at_pre. }
  rewrite Hl, info_of_head, major_of_head by lia.
  rewrite (proj2 (N.eqb_neq k 31)), (proj2 (N.eqb_neq m 7)), orb_false_r by lia.
  unfold b at 1. by rewrite read_head_head by (done || lia).
Qed.

Lemma length_flat_map_encode l : (length l <= length (flat_map cbor_encode l))%nat.
Proof.
  induction l as [| x l IH]; simpl; [done |]. rewrite length_app.
  pose proof (encode_not_empty x). lia.
Qed.

Lemma scan_simple_complete levels pre x post depth :
  (∃ v, x = Simple v) ∨ (∃ l, x = Float l) → item_wf x → (depth <= MAX_DEPTH)%nat →
  scan_item (S levels) (pre ++ cbor_encode x ++ post) (length pre) depth
  = Some (Ok (length pre + length (cbor_encode x))%nat).
Proof.
  intros Hx Hwf Hd. cbn [scan_item]. rewrite (proj2 (Nat.ltb_ge MAX_DEPTH depth)) by done.
  destruct Hx as [[v ->] | [l ->]]; simpl in *.
  - destruct (N.ltb_spec v 24); simpl; rewrite lookup_at_pre.
    + change (224 + v)%N with (7 * 32 + v)%N. unfold read_head. rewrite lookup_at_pre. simpl ok_or.
      cbv beta iota zeta. rewrite info_of_head, major_of_head by lia.
      rewrite (proj2 (N.eqb_neq v 31)), (proj2 (N.leb_le v 23)) by lia. done.
    + change 248%N with (7 * 32 + 24)%N. unfold read_head.
      rewrite lookup_at_pre, lookup_after_pre. cbn [ok_or].
      rewrite info_of_head, major_of_head by lia. eval_tests.
      by rewrite (proj2 (N.ltb_ge v 32)) by lia.
  - destruct Hwf as [Hb Hl].
    destruct Hl as [Hl | [Hl | Hl]]; rewrite Hl; cbn [Nat.eqb];
      [change 249%N with (7 * 32 + 25)%N | change 250%N with (7 * 32 + 26)%N
      | change 251%N with (7 * 32 + 27)%N];
      rewrite lookup_at_pre; unfold read_head; rewrite lookup_at_pre; cbn [ok_or];
      rewrite info_of_head, major_of_head by lia; eval_tests;
      unfold read_wide; rewrite (get_range_after_pre pre l post) by done; cbn [ok_or];
      rewrite major_of_head by lia; cbn [N.eqb Pos.eqb negb andb orb length];
      do 2 f_equal; lia.
Qed.

Definition scans (x : item) : Prop :=
  ∀ levels pre post depth,
    item_wf x → (depth + height x <= MAX_DEPTH)%nat → (height x < levels)%nat →
    scan_item levels (pre ++ cbor_encode x ++ post) (length pre) depth
    = Some (Ok (length pre + length (cbor_encode x))%nat).

Lemma scan_children l levels b depth :
  Forall scans l → Forall item_wf l →
  (depth + fold_right (λ y k, Nat.max (S (height y)) k) 0 l <= MAX_DEPTH)%nat →
  (fold_right (λ y k, Nat.max (S (height y)) k) 0 l <= levels)%nat →
  Forall (λ x, ∀ pre post, b = pre ++ cbor_encode x ++ post →
            scan_item levels b (length pre) (depth + 1)
            = Some (Ok (length pre + length (cbor_encode x))%nat)) l.
Proof.
  intros Hs Hwf Hd Hl.
  assert (Forall (λ y, S (height y) <= MAX_DEPTH - depth)%nat l) as Hd' by (apply height_Forall; lia).
  apply height_Forall in Hl. rewrite List.Forall_forall in *.
  intros x Hx pre post ->. specialize (Hl x Hx). specialize (Hd' x Hx). simpl in *.
  apply Hs; [done | by apply Hwf | lia | lia].
Qed.

Lemma scan_item_complete x : scans x.
Proof.
  induction x as [n | n | l | l | l IH | l IH | t x IH | v | l] using item_nested_ind;
    intros levels pre post depth Hwf Hd Hlev; destruct levels as [| levels];
    try (simpl in Hlev; lia);
    try (apply scan_simple_complete;
         [first [left; by eexists | right; by eexists] | done | simpl in Hd; lia]);
    simpl cbor_encode in *; simpl in Hwf, Hd; rewrite <- ?app_assoc.
  - by rewrite scan_item_head by (done || lia).
  - by rewrite scan_item_head by (done || lia).
  - rewrite scan_item_head by (tauto || lia). eval_tests. rewrite Nat2N.id, !length_app.
    rewrite (proj2 (N.ltb_ge _ _)) by lia. do 2 f_equal. lia.
  - rewrite scan_item_head by (tauto || lia). eval_tests. rewrite Nat2N.id, !length_app.
    rewrite (proj2 (N.ltb_ge _ _)) by lia. do 2 f_equal. lia.
  - destruct Hwf as [Hu Hwf%items_wf_Forall].
    rewrite scan_item_head by (done || lia). eval_tests. rewrite <- length_app. set (b := pre ++ _).
    rewrite (scan_loop_complete b _ l (S (length b)) (pre ++ cbor_head 4 (N.of_nat (length l))) post).
    + rewrite !length_app. do 2 f_equal. lia.
    + unfold b. by rewrite <- app_assoc.
    + apply scan_children; [done | done | done | simpl in Hlev; lia].
    + unfold b. rewrite !length_app. pose proof (length_flat_map_encode l). lia.
  - destruct Hwf as (Hu & [k Hk] & Hwf%items_wf_Forall). unfold u64 in Hu.
    assert (u64 (N.of_nat (length l) / 2)).
    { unfold u64. apply N.Div0.div_lt_upper_bound. lia. }
    rewrite scan_item_head by (done || lia). eval_tests.
    assert (N.of_nat (length l) / 2 * 2 = N.of_nat (length l))%N as Heven.
    { rewrite Hk. replace (N.of_nat (2 * k)) with (N.of_nat k * 2)%N by lia.
      by rewrite N.div_mul. }
    rewrite Heven, (proj2 (N.leb_gt _ _)) by done.
    rewrite <- length_app. set (b := pre ++ _).
    rewrite (scan_loop_complete b _ l (S (length b))
               (pre ++ cbor_head 5 (N.of_nat (length l) / 2)) post).
    + rewrite !length_app. do 2 f_equal. lia.
    + unfold b. by rewrite <- app_assoc.
    + apply scan_children; [done | done | done | simpl in Hlev; lia].
    + unfold b. rewrite !length_app. pose proof (length_flat_map_encode l). lia.
  - simpl in Hlev. rewrite scan_item_head by (tauto || lia). eval_tests.
    rewrite <- length_app, app_assoc, IH by (tauto || lia).
    rewrite !length_app. do 2 f_equal. lia.
Qed.

(** ** Termination *)

Lemma drop_app_bound (b l : bytes_) pos next :
  (1 <= length l)%nat → drop pos b = l ++ drop next b → next = (pos + length l)%nat →
  (pos < next <= length b)%nat.
Proof.
  intros Hl Hd ->. apply (f_equal length) in Hd. rewrite length_app, !length_drop in Hd. lia.
Qed.

Lemma read_head_bound b pos arg next :
  is_bytes b → read_head b pos = Ok (arg, next) → (pos < next <= length b)%nat.
Proof.
  intros Hb Hr. destruct (b !! pos) as [initial |] eqn:Hi.
  - apply (read_head_spec _ _ _ _ _ Hb Hi) in Hr. unfold head_spec in Hr.
    destruct (major_of initial =? 7)%N.
    + destruct Hr as (x & _ & _ & Hd & Hn). eapply drop_app_bound; eauto using encode_not_empty.
    + destruct Hr as (_ & Hd & Hn). eapply drop_app_bound; eauto using length_head_pos.
  - unfold read_head in Hr. by rewrite Hi in Hr.
Qed.

Lemma scan_loop_total (b : bytes_) f fuel count next :
  (∀ p, f p ≠ None) →
  (∀ p q, f p = Some (Ok q) → p < q <= length b)%nat →
  (next <= length b < fuel + next)%nat → scan_loop f fuel count next ≠ None.
Proof.
  intros Hf Hadv. revert count next. induction fuel as [| fuel IH]; intros count next Hfuel;
    [lia |].
  cbv [scan_loop]; fold scan_loop. destruct (count =? 0)%N; [done |].
  specialize (Hf next). destruct (f next) as [[q |] |] eqn:Hq; [| done | done].
  apply Hadv in Hq. apply IH. lia.
Qed.

Lemma scan_item_total levels b pos depth :
  is_bytes b → (N.of_nat (length b) < 2 ^ 64)%N → (depth <= MAX_DEPTH + 1)%nat →
  (MAX_DEPTH + 2 <= levels + depth)%nat → scan_item levels b pos depth ≠ None.
Proof.
  intros Hb Hlen. revert pos depth. induction levels as [| levels IH]; intros pos depth Hd Hl;
    [lia |]. simpl.
  destruct (Nat.ltb_spec MAX_DEPTH depth); [done |]. destruct (b !! pos); [| done].
  destruct (info_of _ =? 31)%N; [done |].
  destruct (read_head b pos) as [[arg next] |] eqn:Hr; [| done].
  apply read_head_bound in Hr; [| done].
  assert (Hloop : ∀ count, scan_loop (λ p, scan_item levels b p (depth + 1))
                             (S (length b)) count next ≠ None).
  { intros count. apply (scan_loop_total b); [intros p; apply IH; lia | | lia].
    intros p q (x & _ & _ & Hdr & Hq)%scan_item_sound; [| done | done].
    eapply drop_app_bound; eauto using encode_not_empty. }
  repeat case_match; try done; try apply Hloop; apply IH; lia.
Qed.

(** C30: the scanner terminates on every input, however large the counts in
    its heads are: the recursion is bounded by the nesting limit, and every
    turn of a loop consumes a byte, so a loop over up to [2^64] announced
    items ends with the input.  The model's bounds are never reached. *)
Theorem scan_terminates b :
  is_bytes b → (N.of_nat (length b) < 2 ^ 64)%N →
  ∃ r, scan_item (MAX_DEPTH + 2) b 0 0 = Some r.
Proof.
  intros Hb Hl. destruct (scan_item (MAX_DEPTH + 2) b 0 0) eqn:E; [eauto |].
  by apply (scan_item_total (MAX_DEPTH + 2) b 0 0 Hb Hl ltac:(lia) ltac:(lia)) in E.
Qed.

Lemma scan_terminates_witness :
  ∃ r, scan_item (MAX_DEPTH + 2) [155; 255; 255; 255; 255; 255; 255; 255; 255; 1; 2]%N 0 0 = Some r.
Proof. apply scan_terminates; [repeat constructor | reflexivity]. Defined.

Definition tag_of (x : item) : option N := match x with Tag t _ => Some t | _ => None end.

Lemma encode_major x :
  item_wf x → ∃ initial rest, cbor_encode x = initial :: rest ∧
    (major_of initial = 6%N ↔ is_Some (tag_of x)).
Proof.
  intros Hwf. unfold is_Some.
  destruct x; simpl;
    try (match goal with |- context [cbor_head ?m ?a] =>
           destruct (head_first m a) as (k & rest & -> & Hk) end;
         eexists _, _; (split; [done |]); rewrite major_of_head by lia; naive_solver).
  - simpl in Hwf. destruct (N.ltb_spec v 24); eexists _, _; (split; [done |]).
    + change (224 + v)%N with (7 * 32 + v)%N. rewrite major_of_head by lia. naive_solver.
    + naive_solver.
  - eexists _, _; (split; [done |]). repeat case_match; naive_solver.
Qed.

Lemma scan_top_tag_encode x : item_wf x → scan_top_tag (cbor_encode x) = Ok (tag_of x).
Proof.
  intros Hwf. unfold scan_top_tag.
  destruct (encode_major x Hwf) as (initial & rest & He & Hmajor). rewrite He at 1. simpl.
  destruct (N.eqb_spec (major_of initial) 6) as [H6 | H6].
  - apply Hmajor in H6 as [t Ht]. destruct x; try done. simpl in *. simplify_eq.
    pose proof (read_head_head [] 6 t (cbor_encode x)) as Hr. simpl in Hr. by rewrite Hr by (done || tauto).
  - destruct (tag_of x) eqn:E; [| done]. destruct H6. apply Hmajor. eauto.
Qed.

Lemma scan_encode x :
  item_wf x → (height x <= MAX_DEPTH)%nat → scan (cbor_encode x) = Ok {| top_tag := tag_of x |}.
Proof.
  intros Hwf Hh. unfold scan.
  pose proof (scan_item_complete x (MAX_DEPTH + 2) [] [] 0 Hwf ltac:(lia) ltac:(lia)) as Hs.
  cbn [app length] in Hs. rewrite app_nil_r in Hs.
  by rewrite Hs, Nat.add_0_l, Nat.eqb_refl, scan_top_tag_encode by done.
Qed.

(** C31: the structural check is exact.  It accepts a byte string iff the
    string is, from its first to its last byte, the preferred encoding of one
    CBOR item nested at most 32 deep: all lengths definite, all heads minimal,
    no trailing bytes; and the tag it reports is the item's. *)
Theorem scan_exact b s :
  is_bytes b → (N.of_nat (length b) < 2 ^ 64)%N →
  scan b = Ok s ↔
  ∃ x, item_wf x ∧ (height x <= MAX_DEPTH)%nat ∧ b = cbor_encode x ∧ top_tag s = tag_of x.
Proof.
  intros Hb Hl. split.
  - unfold scan. intros H. inv_ok H. destruct (scan_item _ b 0 0) as [[e |] |] eqn:Hs; try done.
    inv_ok H. bool_facts. subst e.
    apply scan_item_sound in Hs as (x & Hwf & Hh & Hd & He); [| done | done].
    rewrite drop_0, drop_all, app_nil_r in Hd. subst b. exists x. split_and!; try done.
    simpl. rewrite scan_top_tag_encode in E by done. by simplify_eq.
  - intros (x & Hwf & Hh & -> & Ht). rewrite scan_encode by done. destruct s. simpl in Ht.
    by subst.
Qed.

Lemma scan_exact_witness :
  scan [210; 130; 1; 65; 170]%N = Ok {| top_tag := Some 18%N |}.
Proof.
  apply scan_exact; [repeat constructor | reflexivity |].
  exists (Tag 18 (Arr [UInt 1; ByteStr [170%N]])). simpl.
  split_and!; try done; try (repeat constructor); apply Nat.leb_le; reflexivity.
Defined.
