(* ===== verification/InvocationBody.v ===== *)
(** * Sealed-invocation bodies ([crates/basil-proto/src/invocation.rs])

    The plaintext of a sealed invocation: the body schemas, their
    deterministic CBOR encoders and the decoder, a cursor over the bytes.  A
    body decodes exactly when it is the encoding of a well-formed value. *)

From S2P Require Import Prelude RustStr Bytes CoseTypes Cbor.

Definition DEFAULT_EXPIRES_AFTER_SECS : N := 60.

Definition CONTENT_TYPE_SIGN_REQUEST : string := "application/basil.sign-request".
Definition CONTENT_TYPE_SIGN_RESPONSE : string := "application/basil.sign-response".

Inductive InvocationError := MissingField (field : string) | InvalidBody (reason : string).

(** ** Bodies *)

Inductive InvocationStatusCode :=
| CodeOk | CodeDenied | CodeInvalidRequest | CodeInternalError | CodeChallengeUnknown
| CodePerRunQuotaExceeded.

#[export] Instance InvocationStatusCode_eq_dec : EqDecision InvocationStatusCode.
Proof. solve_decision. Defined.

(** [self as u64]. *)
Definition InvocationStatusCode_as_u64 (c : InvocationStatusCode) : N :=
  match c with
  | CodeOk => 1 | CodeDenied => 2 | CodeInvalidRequest => 3 | CodeInternalError => 4
  | CodeChallengeUnknown => 5 | CodePerRunQuotaExceeded => 6
  end%N.

Definition InvocationStatusCode_from_u64 (v : N) : option InvocationStatusCode :=
  match v with
  | 1 => Some CodeOk | 2 => Some CodeDenied | 3 => Some CodeInvalidRequest
  | 4 => Some CodeInternalError | 5 => Some CodeChallengeUnknown
  | 6 => Some CodePerRunQuotaExceeded
  | _ => None
  end%N.

Record InvocationStatus := {
  is_code : InvocationStatusCode;
  is_reason : string;
  is_message : option string;
  is_retryable : bool;
}.

Definition status_ok : InvocationStatus :=
  {| is_code := CodeOk; is_reason := "OK"; is_message := None; is_retryable := false |}.
Definition status_denied : InvocationStatus :=
  {| is_code := CodeDenied; is_reason := "UNAUTHORIZED"; is_message := Some "not authorized";
     is_retryable := false |}.
Definition status_invalid_request (reason : string) : InvocationStatus :=
  {| is_code := CodeInvalidRequest; is_reason := reason; is_message := None;
     is_retryable := false |}.
Definition status_internal_error : InvocationStatus :=
  {| is_code := CodeInternalError; is_reason := "INTERNAL_ERROR"; is_message := None;
     is_retryable := true |}.
Definition status_challenge_unknown : InvocationStatus :=
  {| is_code := CodeChallengeUnknown; is_reason := "CHALLENGE_UNKNOWN"; is_message := None;
     is_retryable := false |}.
Definition status_per_run_quota_exceeded : InvocationStatus :=
  {| is_code := CodePerRunQuotaExceeded; is_reason := "PER_RUN_QUOTA_EXCEEDED";
     is_message := None; is_retryable := false |}.
Definition status_run_quota_untracked : InvocationStatus :=
  {| is_code := CodeInternalError; is_reason := "RUN_QUOTA_UNTRACKED"; is_message := None;
     is_retryable := true |}.

Record SignInvocationRequest := {
  sq_key_id : string;
  sq_message : bytes_;
  sq_algorithm : Z;
}.

Record SignInvocationResponse := {
  sp_status : InvocationStatus;
  sp_policy_generation : N;
  sp_signature : option bytes_;
}.

(** [MintJwtInvocationResponse] and [MintNatsUserInvocationResponse] have the
    same fields and encoding. *)
Record MintInvocationResponse := {
  mr_status : InvocationStatus;
  mr_policy_generation : N;
  mr_jwt : option string;
  mr_expires_at_unix : option N;
}.

Record MintJwtInvocationRequest := {
  mj_key_id : string;
  mj_subject : option string;
  mj_ttl_secs : option N;
  mj_claims_json : bytes_;
}.

Record MintNatsUserInvocationRequest := {
  mn_account_key_id : string;
  mn_user_nkey : string;
  mn_name : string;
  mn_ttl_secs : option N;
  mn_issuer_account : option string;
}.

(** ** Encoding *)

Definition cbor_type_len (major value : N) : bytes_ :=
  let head := N.shiftl major 5 in
  if (value <=? 23)%N then [N.lor head value]
  else if (value <? 256)%N then [N.lor head 0x18; value]
  else if (value <? 65536)%N then N.lor head 0x19 :: to_be_bytes 2 value
  else if (value <? 4294967296)%N then N.lor head 0x1a :: to_be_bytes 4 value
  else N.lor head 0x1b :: to_be_bytes 8 value.

Definition cbor_u64 (value : N) : bytes_ := cbor_type_len 0 value.
Definition cbor_i64 (value : Z) : bytes_ :=
  if (0 <=? value)%Z then cbor_u64 (Z.abs_N value)
  else cbor_type_len 1 (Z.abs_N value - 1)%N.
Definition cbor_null : bytes_ := [0xf6%N].
Definition cbor_bool (value : bool) : bytes_ := [if value then 0xf5%N else 0xf4%N].
Definition cbor_map (len : N) : bytes_ := cbor_type_len 5 len.
Definition cbor_text (value : string) : bytes_ :=
  cbor_type_len 3 (N.of_nat (length (bytes value))) ++ bytes value.
Definition cbor_bytes (value : bytes_) : bytes_ :=
  cbor_type_len 2 (N.of_nat (length value)) ++ value.
Definition cbor_optional {A} (enc : A → bytes_) (value : option A) : bytes_ :=
  match value with Some value => enc value | None => cbor_null end.

Definition InvocationStatus_encode_cbor (s : InvocationStatus) : bytes_ :=
  cbor_map 4
  ++ cbor_u64 1 ++ cbor_u64 (InvocationStatusCode_as_u64 (is_code s))
  ++ cbor_u64 2 ++ cbor_text (is_reason s)
  ++ cbor_u64 3 ++ cbor_optional cbor_text (is_message s)
  ++ cbor_u64 4 ++ cbor_bool (is_retryable s).

Definition SignInvocationRequest_to_cbor_bytes (r : SignInvocationRequest) : bytes_ :=
  cbor_map 3
  ++ cbor_u64 1 ++ cbor_text (sq_key_id r)
  ++ cbor_u64 2 ++ cbor_bytes (sq_message r)
  ++ cbor_u64 3 ++ cbor_i64 (sq_algorithm r).

Definition SignInvocationResponse_to_cbor_bytes (r : SignInvocationResponse) : bytes_ :=
  cbor_map 3
  ++ cbor_u64 1 ++ InvocationStatus_encode_cbor (sp_status r)
  ++ cbor_u64 2 ++ cbor_u64 (sp_policy_generation r)
  ++ cbor_u64 3 ++ cbor_optional cbor_bytes (sp_signature r).

Definition MintInvocationResponse_to_cbor_bytes (r : MintInvocationResponse) : bytes_ :=
  cbor_map 4
  ++ cbor_u64 1 ++ InvocationStatus_encode_cbor (mr_status r)
  ++ cbor_u64 2 ++ cbor_u64 (mr_policy_generation r)
  ++ cbor_u64 3 ++ cbor_optional cbor_text (mr_jwt r)
  ++ cbor_u64 4 ++ cbor_optional cbor_u64 (mr_expires_at_unix r).

Definition MintJwtInvocationRequest_to_cbor_bytes (r : MintJwtInvocationRequest) : bytes_ :=
  cbor_map 4
  ++ cbor_u64 1 ++ cbor_text (mj_key_id r)
  ++ cbor_u64 2 ++ cbor_optional cbor_text (mj_subject r)
  ++ cbor_u64 3 ++ cbor_optional cbor_u64 (mj_ttl_secs r)
  ++ cbor_u64 4 ++ cbor_bytes (mj_claims_json r).

Definition MintNatsUserInvocationRequest_to_cbor_bytes (r : MintNatsUserInvocationRequest)
    : bytes_ :=
  cbor_map 5
  ++ cbor_u64 1 ++ cbor_text (mn_account_key_id r)
  ++ cbor_u64 2 ++ cbor_text (mn_user_nkey r)
  ++ cbor_u64 3 ++ cbor_text (mn_name r)
  ++ cbor_u64 4 ++ cbor_optional cbor_u64 (mn_ttl_secs r)
  ++ cbor_u64 5 ++ cbor_optional cbor_text (mn_issuer_account r).

(** ** Decoding *)

Record CborDecoder := { cd_bytes : bytes_; cd_offset : nat }.

Abbreviation Read A := (result InvocationError (A * CborDecoder)).

Definition CborDecoder_new (b : bytes_) : CborDecoder := {| cd_bytes := b; cd_offset := 0 |}.

(** [self.offset += n]. *)
Definition advance (d : CborDecoder) (n : nat) : CborDecoder :=
  {| cd_bytes := cd_bytes d; cd_offset := cd_offset d + n |}.

Definition cd_finish (d : CborDecoder) : result InvocationError unit :=
  if (cd_offset d =? length (cd_bytes d))%nat then Ok tt
  else Err (InvalidBody "trailing CBOR bytes").

Definition cd_peek (d : CborDecoder) : option N := cd_bytes d !! cd_offset d.

Definition cd_take (d : CborDecoder) (field : string) : Read N :=
  let? byte := ok_or (InvalidBody field) (cd_peek d) in
  Ok (byte, advance d 1).

(** [usize] is 64 bits wide. *)
Definition cd_take_n (d : CborDecoder) (len : N) (field : string) : Read bytes_ :=
  let stop := (N.of_nat (cd_offset d) + len)%N in
  return_err (InvalidBody "CBOR length overflow") when (2 ^ 64 <=? stop)%N otherwise
  return_err (InvalidBody field) when (N.of_nat (length (cd_bytes d)) <? stop)%N otherwise
  let n := N.to_nat len in
  Ok (take n (drop (cd_offset d) (cd_bytes d)), advance d n).

(** [take_array::<N>] and [from_be_bytes], not below [minimum]. *)
Definition cd_wide (d : CborDecoder) (n : nat) (minimum : N) (field : string) : Read N :=
  let? (raw, d) := cd_take_n d (N.of_nat n) field in
  let value := from_be_bytes raw in
  return_err (InvalidBody "non-minimal CBOR integer or length encoding")
    when (value <? minimum)%N otherwise
  Ok (value, d).

Definition cd_len_value (d : CborDecoder) (additional : N) (field : string) : Read N :=
  if (additional <=? 23)%N then Ok (additional, d)
  else if (additional =? 24)%N then
    let? (value, d) := cd_take d field in
    return_err (InvalidBody "non-minimal CBOR integer or length encoding")
      when (value <? 24)%N otherwise
    Ok (value, d)
  else if (additional =? 25)%N then cd_wide d 2 256 field
  else if (additional =? 26)%N then cd_wide d 4 65536 field
  else if (additional =? 27)%N then cd_wide d 8 4294967296 field
  else Err (InvalidBody "unsupported CBOR additional info").

Definition cd_type_len (d : CborDecoder) (expected_major : N) (field : string) : Read N :=
  let? (initial, d) := cd_take d field in
  return_err (InvalidBody "unexpected CBOR type")
    when negb (major_of initial =? expected_major)%N otherwise
  cd_len_value d (info_of initial) field.

Definition cd_u64 (d : CborDecoder) (field : string) : Read N := cd_type_len d 0 field.

Definition cd_i64 (d : CborDecoder) (field : string) : Read Z :=
  let? (initial, d) := cd_take d field in
  let? (value, d) := cd_len_value d (info_of initial) field in
  match major_of initial with
  | 0%N =>
      return_err (InvalidBody "positive integer out of range") when (2 ^ 63 <=? value)%N otherwise
      Ok (Z.of_N value, d)
  | 1%N =>
      return_err (InvalidBody "negative integer out of range") when (2 ^ 63 <=? value)%N otherwise
      Ok (-1 - Z.of_N value, d)%Z
  | _ => Err (InvalidBody "expected CBOR integer")
  end.

Definition cd_text (d : CborDecoder) (field : string) : Read string :=
  let? (len, d) := cd_type_len d 3 field in
  let? (raw, d) := cd_take_n d len field in
  let? text := ok_or (InvalidBody "invalid UTF-8 text") (from_utf8 raw) in
  Ok (text, d).

Definition cd_bytes_ (d : CborDecoder) (field : string) : Read bytes_ :=
  let? (len, d) := cd_type_len d 2 field in
  cd_take_n d len field.

(** [optional_text], [optional_bytes] and [optional_u64]. *)
Definition cd_optional {A} (read : CborDecoder → string → Read A) (d : CborDecoder)
    (field : string) : Read (option A) :=
  if bool_decide (cd_peek d = Some 0xf6%N) then Ok (None, advance d 1)
  else
    let? (x, d) := read d field in
    Ok (Some x, d).

Definition cd_bool (d : CborDecoder) (field : string) : Read bool :=
  let? (byte, d) := cd_take d field in
  if (byte =? 0xf4)%N then Ok (false, d)
  else if (byte =? 0xf5)%N then Ok (true, d)
  else Err (InvalidBody "expected CBOR bool").

Definition cd_map_len (d : CborDecoder) (expected : N) (schema : string) : Read unit :=
  let? (len, d) := cd_type_len d 5 schema in
  if (len =? expected)%N then Ok (tt, d) else Err (InvalidBody "unexpected CBOR map length").

Definition cd_key (d : CborDecoder) (expected : N) : Read unit :=
  let? (actual, d) := cd_u64 d "map key" in
  if (actual =? expected)%N then Ok (tt, d) else Err (InvalidBody "unexpected CBOR map key").

Definition cd_status (d : CborDecoder) : Read InvocationStatus :=
  let? (_, d) := cd_map_len d 4 "InvocationStatus" in
  let? (_, d) := cd_key d 1 in
  let? (code, d) := cd_u64 d "status.code" in
  let? code :=
    ok_or (InvalidBody "invalid invocation status code") (InvocationStatusCode_from_u64 code) in
  let? (_, d) := cd_key d 2 in
  let? (reason, d) := cd_text d "status.reason" in
  return_err (InvalidBody "empty invocation status reason") when is_empty reason otherwise
  let? (_, d) := cd_key d 3 in
  let? (message, d) := cd_optional cd_text d "status.message" in
  let? (_, d) := cd_key d 4 in
  let? (retryable, d) := cd_bool d "status.retryable" in
  Ok ({| is_code := code; is_reason := reason; is_message := message;
         is_retryable := retryable |}, d).

Definition SignInvocationRequest_from_cbor_bytes (b : bytes_)
    : result InvocationError SignInvocationRequest :=
  let d := CborDecoder_new b in
  let? (_, d) := cd_map_len d 3 "SignInvocationRequest" in
  let? (_, d) := cd_key d 1 in
  let? (key_id, d) := cd_text d "key_id" in
  let? (_, d) := cd_key d 2 in
  let? (message, d) := cd_bytes_ d "message" in
  let? (_, d) := cd_key d 3 in
  let? (algorithm, d) := cd_i64 d "algorithm" in
  let? _ := cd_finish d in
  return_err (InvalidBody "algorithm out of range")
    when negb ((-2147483648 <=? algorithm) && (algorithm <=? 2147483647))%Z otherwise
  Ok {| sq_key_id := key_id; sq_message := message; sq_algorithm := algorithm |}.

Definition SignInvocationResponse_from_cbor_bytes (b : bytes_)
    : result InvocationError SignInvocationResponse :=
  let d := CborDecoder_new b in
  let? (_, d) := cd_map_len d 3 "SignInvocationResponse" in
  let? (_, d) := cd_key d 1 in
  let? (status, d) := cd_status d in
  let? (_, d) := cd_key d 2 in
  let? (policy_generation, d) := cd_u64 d "policy_generation" in
  let? (_, d) := cd_key d 3 in
  let? (signature, d) := cd_optional cd_bytes_ d "signature" in
  let? _ := cd_finish d in
  let success := bool_decide (is_code status = CodeOk) in
  return_err (InvalidBody "successful sign response missing signature")
    when success && negb (is_some signature) otherwise
  return_err (InvalidBody "non-success sign response carries signature")
    when negb success && is_some signature otherwise
  Ok {| sp_status := status; sp_policy_generation := policy_generation;
        sp_signature := signature |}.

Definition MintNatsUserInvocationRequest_from_cbor_bytes (b : bytes_)
    : result InvocationError MintNatsUserInvocationRequest :=
  let d := CborDecoder_new b in
  let? (_, d) := cd_map_len d 5 "MintNatsUserInvocationRequest" in
  let? (_, d) := cd_key d 1 in
  let? (account_key_id, d) := cd_text d "account_key_id" in
  let? (_, d) := cd_key d 2 in
  let? (user_nkey, d) := cd_text d "user_nkey" in
  let? (_, d) := cd_key d 3 in
  let? (name, d) := cd_text d "name" in
  let? (_, d) := cd_key d 4 in
  let? (ttl_secs, d) := cd_optional cd_u64 d "ttl_secs" in
  let? (_, d) := cd_key d 5 in
  let? (issuer_account, d) := cd_optional cd_text d "issuer_account" in
  let? _ := cd_finish d in
  Ok {| mn_account_key_id := account_key_id; mn_user_nkey := user_nkey; mn_name := name;
        mn_ttl_secs := ttl_secs; mn_issuer_account := issuer_account |}.

(** ** The encoder writes heads in the preferred form *)

Lemma lor_head m k : (m < 8)%N → (k < 32)%N → N.lor (N.shiftl m 5) k = (m * 32 + k)%N.
Proof.
  intros Hm Hk. rewrite N.shiftl_mul_pow2. change (2 ^ 5)%N with 32%N.
  rewrite <- N.lxor_lor, N.add_nocarry_lxor; [done | |]; change 32%N with (2 ^ 5)%N;
    rewrite <- N.shiftl_mul_pow2; apply N.bits_inj; intros i; rewrite N.land_spec, N.bits_0;
    (destruct (N.le_gt_cases 5 i);
      [rewrite (N.bits_above_log2 k), ?andb_false_r; [done |]
      | rewrite N.shiftl_spec_low by done; done]);
    (destruct (N.eq_dec k 0) as [-> | ]; [simpl; lia |]; eapply N.lt_le_trans; [| eassumption];
     by apply N.log2_lt_pow2; [lia |]).
Qed.

Lemma cbor_type_len_head m v : (m < 8)%N → cbor_type_len m v = cbor_head m v.
Proof.
  intros Hm. unfold cbor_type_len, cbor_head.
  destruct (N.leb_spec v 23), (N.ltb_spec v 24); try lia; [by rewrite lor_head by lia |].
  rewrite !(lor_head m) by lia. by repeat case_match.
Qed.

(** ** Exact readers *)

Definition decoder_ok (d : CborDecoder) : Prop :=
  is_bytes (cd_bytes d) ∧ u64 (N.of_nat (length (cd_bytes d))) ∧
  (cd_offset d <= length (cd_bytes d))%nat.

Definition rest (d : CborDecoder) : bytes_ := drop (cd_offset d) (cd_bytes d).

(** [d'] is [d] after the bytes [x]. *)
Definition follows (d : CborDecoder) (x : bytes_) (d' : CborDecoder) : Prop :=
  d' = advance d (length x) ∧ ∃ post, rest d = x ++ post.

(** [rd] reads exactly the encodings of values that satisfy [wf]. *)
Definition reads {A} (rd : CborDecoder → Read A) (enc : A → bytes_) (wf : A → Prop) : Prop :=
  ∀ d v d', decoder_ok d → rd d = Ok (v, d') ↔ wf v ∧ follows d (enc v) d'.

Lemma rest_advance d n : rest (advance d n) = drop n (rest d).
Proof. unfold rest, advance. simpl. by rewrite drop_drop. Qed.

Lemma follows_rest d x d' : follows d x d' → rest d = x ++ rest d'.
Proof. intros [-> [post E]]. by rewrite rest_advance, E, drop_app_length. Qed.

Lemma follows_ok d x d' : decoder_ok d → follows d x d' → decoder_ok d'.
Proof.
  intros (Hb & Hl & Ho) [-> [post E]]. split_and!; [done .. |].
  apply (f_equal length) in E. unfold rest in E. rewrite length_drop, length_app in E.
  simpl. lia.
Qed.

Lemma follows_nil d d' : follows d [] d' ↔ d' = d.
Proof.
  unfold follows, advance. simpl. rewrite Nat.add_0_r. destruct d as [b o]. simpl.
  split; [by intros [-> _] | intros ->; eauto].
Qed.

Lemma follows_app d x y d'' :
  follows d (x ++ y) d'' ↔ ∃ d', follows d x d' ∧ follows d' y d''.
Proof.
  split.
  - intros [-> [post E]]. rewrite <- app_assoc in E. exists (advance d (length x)).
    split; [split; eauto |]. split.
    + unfold advance. simpl. by rewrite length_app, Nat.add_assoc.
    + exists post. by rewrite rest_advance, E, drop_app_length.
  - intros (d' & [-> [post E]] & [-> [post' E']]). rewrite rest_advance, E, drop_app_length in E'.
    split; [unfold advance; simpl; by rewrite length_app, Nat.add_assoc |].
    exists post'. by rewrite E, E', app_assoc.
Qed.

Lemma rest_cons d b : cd_peek d = Some b → rest d = b :: rest (advance d 1).
Proof. intros H. unfold cd_peek in H. apply lookup_drop_cons in H. exact H. Qed.

Lemma peek_rest d : cd_peek d = head (rest d).
Proof.
  unfold cd_peek, rest. rewrite <- (Nat.add_0_r (cd_offset d)) at 1. rewrite <- lookup_drop.
  by destruct (drop _ _).
Qed.

Lemma cd_take_Ok d f b d' : cd_take d f = Ok (b, d') ↔ follows d [b] d'.
Proof.
  unfold cd_take, follows. split.
  - destruct (cd_peek d) as [x |] eqn:E; [| done]. simpl. intros [= -> <-].
    split; [done |]. rewrite (rest_cons _ _ E). by eexists.
  - intros [-> [post E]]. rewrite peek_rest, E. done.
Qed.

Lemma cd_take_n_Ok d n f x d' :
  decoder_ok d → cd_take_n d n f = Ok (x, d') ↔ N.of_nat (length x) = n ∧ follows d x d'.
Proof.
  intros (_ & Hl & Ho). unfold cd_take_n, follows, u64 in *. split.
  - intros H. inv_reads H. bool_facts. fold (rest d).
    assert (length (rest d) = length (cd_bytes d) - cd_offset d)%nat as Hr by apply length_drop.
    rewrite length_take, Nat.min_l by lia. split_and!; [lia | done |].
    exists (drop (N.to_nat n) (rest d)). by rewrite take_drop.
  - intros (<- & -> & post & E).
    assert (length (rest d) = length (cd_bytes d) - cd_offset d)%nat as Hr by apply length_drop.
    rewrite E, length_app in Hr.
    rewrite (proj2 (N.leb_gt _ _)), (proj2 (N.ltb_ge _ _)) by lia.
    fold (rest d). by rewrite Nat2N.id, E, take_app_length.
Qed.

(** The bytes before a cursor. *)
Lemma decoder_split d : decoder_ok d →
  cd_bytes d = take (cd_offset d) (cd_bytes d) ++ rest d ∧
  length (take (cd_offset d) (cd_bytes d)) = cd_offset d.
Proof. intros (_ & _ & Ho). unfold rest. rewrite take_drop, length_take. split; [done | lia]. Qed.

(** The argument of a head, against the scanner's. *)
Lemma cd_wide_read_wide d n minimum f initial v d' :
  decoder_ok d → cd_peek d = Some initial → major_of initial ≠ 7%N →
  cd_wide (advance d 1) n minimum f = Ok (v, d') ↔
  read_wide (cd_bytes d) (cd_offset d) n initial minimum = Ok (v, cd_offset d') ∧
  cd_bytes d' = cd_bytes d.
Proof.
  intros Hd Hp H7. assert (decoder_ok (advance d 1)) as Hd'.
  { eapply follows_ok; [done |]. apply (cd_take_Ok d "" initial). unfold cd_take. by rewrite Hp. }
  unfold cd_wide, read_wide. rewrite (proj2 (N.eqb_neq _ 7)) by done. simpl. split.
  - intros H. inv_reads H. apply cd_take_n_Ok in E as (Hn & -> & post & Er); [| done].
    unfold rest in Er. simpl in Er.
    replace (get_range _ _ _) with (Some x); [simpl; rewrite E0 |].
    + split; [| done]. repeat f_equal. lia.
    + symmetry. apply get_range_Some. exists (take (cd_offset d + 1) (cd_bytes d)), post.
      rewrite <- Er, take_drop, length_take. destruct Hd' as (_ & _ & Ho). simpl in Ho.
      split_and!; [done | lia | lia].
  - intros [H Hb]. destruct (get_range _ _ _) as [raw |] eqn:Er; [| done]. simpl in H.
    inv_ok H. apply get_range_drop_app in Er as [Er Hn].
    assert (cd_take_n (advance d 1) (N.of_nat n) f = Ok (raw, d')) as ->.
    { apply cd_take_n_Ok; [done |]. split; [by rewrite Hn |]. split.
      - destruct d'. unfold advance. simpl in *. congruence.
      - eexists. exact Er. }
    simplify_eq. by rewrite E.
Qed.

Lemma cd_len_value_read_head d f initial v d' :
  decoder_ok d → cd_peek d = Some initial → major_of initial ≠ 7%N →
  cd_len_value (advance d 1) (info_of initial) f = Ok (v, d') ↔
  read_head (cd_bytes d) (cd_offset d) = Ok (v, cd_offset d') ∧ cd_bytes d' = cd_bytes d.
Proof.
  intros Hd Hp H7. unfold cd_len_value, read_head. pose proof Hp as Hp'. unfold cd_peek in Hp'.
  rewrite Hp'. simpl.
  destruct (info_of initial <=? 23)%N.
  { split; [by intros [= <- <-] |]. intros [[= <- E] Hb]. destruct d'. unfold advance.
    simpl in *. congruence. }
  destruct (info_of initial =? 24)%N.
  { unfold cd_take, cd_peek, advance. simpl. rewrite (proj2 (N.eqb_neq _ 7)) by done.
    destruct (cd_bytes d !! (cd_offset d + 1)%nat) as [x |]; simpl; [| naive_solver].
    destruct (x <? 24)%N; [naive_solver |]. rewrite <- Nat.add_assoc. simpl.
    split; [by intros [= <- <-] |]. intros [[= <- E] Hb]. destruct d'. simpl in *. congruence. }
  do 3 (case_match; [by apply cd_wide_read_wide |]).
  case_match; naive_solver.
Qed.

Lemma cd_len_value_Ok d f initial v d' :
  decoder_ok d → cd_peek d = Some initial → major_of initial ≠ 7%N →
  cd_len_value (advance d 1) (info_of initial) f = Ok (v, d') ↔
  u64 v ∧ follows d (cbor_head (major_of initial) v) d'.
Proof.
  intros Hd Hp H7. rewrite cd_len_value_read_head by done. split.
  - intros [H Hb]. apply (read_head_spec _ _ initial) in H; [| by destruct Hd | done].
    unfold head_spec in H. rewrite (proj2 (N.eqb_neq _ 7)) in H by done.
    destruct H as (Hv & Hr & Hn). split; [done |]. split.
    + destruct d'. unfold advance. simpl in *. congruence.
    + eexists. exact Hr.
  - intros (Hv & -> & post & Hr). split; [| done].
    destruct (decoder_split d Hd) as [Hs Hl]. rewrite Hr in Hs.
    pose proof (read_head_head (take (cd_offset d) (cd_bytes d)) (major_of initial) v post H7 Hv)
      as H. rewrite <- Hs, Hl in H. exact H.
Qed.

(** A head of a known major type, as [type_len] and [i64] read it. *)
Lemma head_at d f m v d' :
  decoder_ok d → (m < 7)%N → u64 v → follows d (cbor_head m v) d' →
  ∃ initial, cd_take d f = Ok (initial, advance d 1) ∧ major_of initial = m ∧
    cd_len_value (advance d 1) (info_of initial) f = Ok (v, d').
Proof.
  intros Hd Hm Hv Hf. pose proof Hf as [_ [post Hr]].
  destruct (head_first m v) as (k & tl & Hh & Hk).
  assert (cd_peek d = Some (m * 32 + k)%N) as Hp by (by rewrite peek_rest, Hr, Hh).
  exists (m * 32 + k)%N. unfold cd_take. rewrite Hp, major_of_head by lia. split_and!; [done .. |].
  apply cd_len_value_Ok; rewrite ?major_of_head; (done || lia).
Qed.

Lemma cd_type_len_reads m f :
  (m < 7)%N → reads (λ d, cd_type_len d m f) (cbor_type_len m) u64.
Proof.
  intros Hm d v d' Hd. rewrite cbor_type_len_head by lia. unfold cd_type_len. split.
  - intros H. inv_reads H. bool_facts.
    pose proof E as E'. unfold cd_take in E'.
    destruct (cd_peek d) as [y |] eqn:Hp; [| done]. injection E' as -> <-.
    apply cd_len_value_Ok in H; [by rewrite E0 in H | done | done | lia].
  - intros (Hv & Hf). destruct (head_at d f m v d') as (x & -> & Hx & Hl); [done .. |].
    simpl. by rewrite Hx, N.eqb_refl.
Qed.

Lemma cd_u64_reads f : reads (λ d, cd_u64 d f) cbor_u64 u64.
Proof. by apply cd_type_len_reads. Qed.

Lemma reads_exactly {B} (rd : CborDecoder → Read N) enc wf k (b0 : B) e :
  reads rd enc wf → wf k →
  reads (λ d, let? (x, d) := rd d in if (x =? k)%N then Ok (b0, d) else Err e)
    (λ _, enc k) (λ b, b = b0).
Proof.
  intros Hr Hk d b d' Hd. split.
  - intros H. inv_reads H. bool_facts. subst. apply Hr in E as [_ Hf]; done.
  - intros [-> Hf]. rewrite (proj2 (Hr d k d' Hd) (conj Hk Hf)). by rewrite N.eqb_refl.
Qed.

Lemma cd_map_len_reads n f : u64 n → reads (λ d, cd_map_len d n f) (λ _, cbor_map n) (λ v, v = tt).
Proof. intros Hn. by apply (reads_exactly _ _ u64); [apply cd_type_len_reads |]. Qed.

Lemma cd_key_reads n : u64 n → reads (λ d, cd_key d n) (λ _, cbor_u64 n) (λ v, v = tt).
Proof. intros Hn. by apply (reads_exactly _ _ u64); [apply cd_u64_reads |]. Qed.

Lemma cd_bytes_reads f :
  reads (λ d, cd_bytes_ d f) cbor_bytes (λ v, u64 (N.of_nat (length v))).
Proof.
  intros d v d' Hd. unfold cd_bytes_, cbor_bytes. rewrite follows_app. split.
  - intros H. inv_reads H. apply cd_type_len_reads in E as [Hv Hf]; [| done | done].
    apply cd_take_n_Ok in H as [<- Hf']; [| by eapply follows_ok]. eauto.
  - intros (Hv & d1 & Hf & Hf').
    rewrite (proj2 (cd_type_len_reads 2 f eq_refl d _ _ Hd) (conj Hv Hf)).
    apply cd_take_n_Ok; [by eapply follows_ok | done].
Qed.

Definition text_ok (s : string) : Prop :=
  is_utf8 (bytes s) = true ∧ u64 (N.of_nat (length (bytes s))).

Lemma cd_text_reads f : reads (λ d, cd_text d f) cbor_text text_ok.
Proof.
  intros d v d' Hd. unfold cd_text, cbor_text, text_ok. rewrite follows_app. split.
  - intros H. inv_reads H. apply cd_type_len_reads in E as [Hv Hf]; [| done | done].
    assert (decoder_ok d0) as Hd0 by (by eapply follows_ok).
    apply cd_take_n_Ok in E0 as [<- Hf']; [| done].
    unfold from_utf8 in E1. destruct (is_utf8 x0) eqn:Hu; [| done]. injection E1 as <-.
    rewrite bytes_of_bytes; [by eauto 6 |].
    apply follows_rest in Hf'. destruct Hd0 as (Hb & _). apply (is_bytes_drop _ (cd_offset d0)) in Hb.
    unfold rest in Hf'. rewrite Hf' in Hb. by apply Forall_app in Hb as [? _].
  - intros ((Hu & Hv) & d1 & Hf & Hf').
    rewrite (proj2 (cd_type_len_reads 3 f eq_refl d _ _ Hd) (conj Hv Hf)).
    rewrite (proj2 (cd_take_n_Ok d1 _ f (bytes v) d' (follows_ok _ _ _ Hd Hf)) (conj eq_refl Hf')).
    unfold from_utf8. simpl. rewrite Hu. simpl. by rewrite of_bytes_bytes.
Qed.

Lemma cd_optional_reads {A} (rd : CborDecoder → string → Read A) enc wf f :
  reads (λ d, rd d f) enc wf → (∀ v, wf v → ∃ b l, enc v = b :: l ∧ b ≠ 0xf6%N) →
  reads (λ d, cd_optional rd d f) (cbor_optional enc) (λ o, match o with Some v => wf v | None => True end).
Proof.
  intros Hr Hh d o d' Hd. unfold cd_optional.
  assert (cd_peek d = Some 0xf6%N ↔ ∃ post, rest d = 0xf6%N :: post) as Hp.
  { rewrite peek_rest. destruct (rest d); simpl; naive_solver. }
  destruct (bool_decide_reflect (cd_peek d = Some 0xf6%N)) as [E | E]; rewrite Hp in E.
  - destruct E as [post E]. split; [intros [= <- <-]; by split; [| split; [| exists post]] |].
    intros [Hw [-> [post' E']]]. destruct o as [v |]; [| done].
    destruct (Hh v Hw) as (b & l & Hb & Hne). simpl in E'. rewrite Hb, E in E'. naive_solver.
  - split.
    + intros H. inv_reads H. by apply Hr in E0.
    + intros [Hw Hf]. destruct o as [v |].
      * by rewrite (proj2 (Hr d v d' Hd) (conj Hw Hf)).
      * destruct Hf as [_ [post Hf]]. destruct E. by exists post.
Qed.

Lemma head_not_null m v l :
  (m < 7)%N → ∃ b l', cbor_type_len m v ++ l = b :: l' ∧ b ≠ 0xf6%N.
Proof.
  intros Hm. rewrite cbor_type_len_head by lia. destruct (head_first m v) as (k & tl & -> & Hk).
  simpl. do 2 eexists. split; [done |]. lia.
Qed.

Lemma cd_optional_text_reads f :
  reads (λ d, cd_optional cd_text d f) (cbor_optional cbor_text)
    (λ o, match o with Some v => text_ok v | None => True end).
Proof. apply cd_optional_reads; [apply cd_text_reads |]. intros v _. by apply head_not_null. Qed.

Lemma cd_optional_bytes_reads f :
  reads (λ d, cd_optional cd_bytes_ d f) (cbor_optional cbor_bytes)
    (λ o, match o with Some v => u64 (N.of_nat (length v)) | None => True end).
Proof. apply cd_optional_reads; [apply cd_bytes_reads |]. intros v _. by apply head_not_null. Qed.

Lemma cd_optional_u64_reads f :
  reads (λ d, cd_optional cd_u64 d f) (cbor_optional cbor_u64)
    (λ o, match o with Some v => u64 v | None => True end).
Proof.
  apply cd_optional_reads; [apply cd_u64_reads |]. intros v _. unfold cbor_u64.
  rewrite <- (app_nil_r (cbor_type_len 0 v)). by apply head_not_null.
Qed.

Lemma cd_bool_reads f : reads (λ d, cd_bool d f) cbor_bool (λ _, True).
Proof.
  intros d v d' Hd. unfold cd_bool, cbor_bool. split.
  - intros H. inv_reads H. apply cd_take_Ok in E. split; [done |].
    destruct (N.eqb_spec x 0xf4); [by simplify_eq |].
    destruct (N.eqb_spec x 0xf5); by simplify_eq.
  - intros [_ Hf]. apply (cd_take_Ok d f) in Hf. rewrite Hf. by destruct v.
Qed.

Lemma cd_i64_reads f : reads (λ d, cd_i64 d f) cbor_i64 (λ v, (- 2 ^ 63 <= v < 2 ^ 63)%Z).
Proof.
  intros d v d' Hd. unfold cd_i64, cbor_i64, cbor_u64. rewrite !cbor_type_len_head by done. split.
  - intros H. inv_reads H. unfold cd_take in E.
    destruct (cd_peek d) as [y |] eqn:Hp; [| done]. injection E as -> <-.
    assert (major_of x = 0%N ∨ major_of x = 1%N) as Hm.
    { destruct (major_of x) as [| []]; naive_solver. }
    apply cd_len_value_Ok in E0 as [Hv Hf]; [| done | done | lia].
    destruct Hm as [Hm | Hm]; rewrite Hm in *; inv_ok H; bool_facts; simplify_eq.
    + rewrite (proj2 (Z.leb_le 0 _)) by lia. split; [lia |]. by rewrite Zabs2N.id.
    + rewrite (proj2 (Z.leb_gt 0 _)) by lia. split; [lia |].
      by replace (Z.abs_N _ - 1)%N with x0 by lia.
  - intros [Hv Hf]. destruct (Z.leb_spec 0 v);
      apply (head_at d f) in Hf as (x & -> & Hx & Hl); try done; try (unfold u64; lia);
      simpl; rewrite Hl; simpl; rewrite Hx; rewrite (proj2 (N.leb_gt _ _)) by lia;
      repeat f_equal; lia.
Qed.

Lemma reads_then {A B} (rd : CborDecoder → Read A) enc wf (k : A → CborDecoder → result InvocationError B)
    d res :
  reads rd enc wf → decoder_ok d →
  (let? (a, d1) := rd d in k a d1) = Ok res ↔
  ∃ a d1, wf a ∧ follows d (enc a) d1 ∧ decoder_ok d1 ∧ k a d1 = Ok res.
Proof.
  intros Hr Hd. split.
  - intros H. inv_reads H. pose proof E as E'. apply Hr in E' as [Hw Hf]; [| done].
    do 2 eexists. split_and!; [done .. | by eapply follows_ok | done].
  - intros (a & d1 & Hw & Hf & _ & H). by rewrite (proj2 (Hr d a d1 Hd) (conj Hw Hf)).
Qed.

(** A read of the code, by the exactness of its reader: [reading H L] takes the first read apart,
    [by_reading L] performs it. *)
Ltac reading H L :=
  let a := fresh "v" in let d := fresh "d" in let Hw := fresh "Hw" in let Hf := fresh "Hf" in
  apply (reads_then _ _ _ _ _ _ L) in H as (a & d & Hw & Hf & ? & H); [| eassumption].
Ltac by_reading L :=
  apply (reads_then _ _ _ _ _ _ L); [eassumption |];
  do 2 eexists; split; [| split; [eassumption | split; [first [assumption | eapply follows_ok; eassumption] |]]].

Ltac follow := repeat (apply follows_app; eexists; split; [eassumption |]); eassumption.
Ltac unfollow H :=
  repeat (let d := fresh "d" in let Hf := fresh "Hf" in
          apply follows_app in H as (d & Hf & H);
          assert (decoder_ok d) by (eapply follows_ok; eassumption)).
Ltac by_key n := by_reading (cd_key_reads n eq_refl); [done |].

Definition option_ok {A} (P : A → Prop) (o : option A) : Prop :=
  match o with Some v => P v | None => True end.

Definition status_wf (s : InvocationStatus) : Prop :=
  text_ok (is_reason s) ∧ is_reason s ≠ "" ∧ option_ok text_ok (is_message s).

Lemma status_code_roundtrip v c :
  InvocationStatusCode_from_u64 v = Some c ↔ v = InvocationStatusCode_as_u64 c.
Proof.
  split; [| by intros ->; destruct c]. unfold InvocationStatusCode_from_u64.
  intros H. repeat case_match; by simplify_eq.
Qed.

Lemma cd_status_reads : reads cd_status InvocationStatus_encode_cbor status_wf.
Proof.
  intros d s d' Hd. unfold cd_status, InvocationStatus_encode_cbor. split.
  - intros H. reading H (cd_map_len_reads 4 "InvocationStatus" eq_refl).
    reading H (cd_key_reads 1 eq_refl). reading H (cd_u64_reads "status.code").
    inv_ok_step H. reading H (cd_key_reads 2 eq_refl). reading H (cd_text_reads "status.reason").
    inv_ok_step H. reading H (cd_key_reads 3 eq_refl).
    reading H (cd_optional_text_reads "status.message").
    reading H (cd_key_reads 4 eq_refl). reading H (cd_bool_reads "status.retryable").
    injection H as <- <-.
    destruct (InvocationStatusCode_from_u64 _) eqn:Hc; [| done]. injection E as ->.
    apply status_code_roundtrip in Hc as ->. split.
    + split_and!; simpl; [done | by intros -> | done].
    + cbn [is_code is_reason is_message is_retryable]. follow.
  - intros [(Ht & Hne & Hm) Hf]. unfollow Hf.
    by_reading (cd_map_len_reads 4 "InvocationStatus" eq_refl); [done |]. by_key 1%N.
    by_reading (cd_u64_reads "status.code"); [by destruct (is_code s) |].
    rewrite (proj2 (status_code_roundtrip _ _) eq_refl). simpl. by_key 2%N.
    by_reading (cd_text_reads "status.reason"); [done |].
    replace (is_empty (is_reason s)) with false by (by destruct (is_reason s)). by_key 3%N.
    by_reading (cd_optional_text_reads "status.message"); [done |]. by_key 4%N.
    by_reading (cd_bool_reads "status.retryable"); [done |]. by destruct s.
Qed.

(** A whole body is what was read, with nothing left over. *)
Lemma follows_finish b x d' :
  follows (CborDecoder_new b) x d' → cd_finish d' = Ok tt ↔ b = x.
Proof.
  intros [-> [post E]]. unfold cd_finish. cbn. unfold rest in E. cbn in E. rewrite drop_0 in E.
  subst b.
  rewrite length_app. destruct (Nat.eqb_spec (length x) (length x + length post)).
  - assert (post = []) as -> by (apply nil_length_inv; lia). by rewrite app_nil_r.
  - split; [done |]. intros H. apply (f_equal length) in H. rewrite length_app in H. lia.
Qed.

Lemma body_follows b x :
  b = x → ∃ d', follows (CborDecoder_new b) x d' ∧ cd_finish d' = Ok tt.
Proof.
  intros ->. assert (follows (CborDecoder_new x) x (advance (CborDecoder_new x) (length x))) as Hf.
  { split; [done |]. exists []. by rewrite app_nil_r. }
  eexists. split; [exact Hf | by apply (follows_finish _ _ _ Hf)].
Qed.

Lemma new_ok b : is_bytes b → u64 (N.of_nat (length b)) → decoder_ok (CborDecoder_new b).
Proof. intros. split_and!; [done .. | simpl; lia]. Qed.

Definition sign_request_wf (r : SignInvocationRequest) : Prop :=
  text_ok (sq_key_id r) ∧ u64 (N.of_nat (length (sq_message r))) ∧
  (-2147483648 <= sq_algorithm r <= 2147483647)%Z.

(** C34: a byte string decodes as a sealed sign request exactly when it is the deterministic CBOR
    encoding of that request, with a UTF-8 key id and an algorithm in the [i32] range: no other
    spelling, no reordering and no trailing byte decodes, so the body a client signs is the body
    the broker acts on. *)
Theorem sign_request_decode_exact b r :
  is_bytes b → u64 (N.of_nat (length b)) →
  SignInvocationRequest_from_cbor_bytes b = Ok r ↔
  b = SignInvocationRequest_to_cbor_bytes r ∧ sign_request_wf r.
Proof.
  intros Hb Hl. pose proof (new_ok b Hb Hl) as Hd.
  unfold SignInvocationRequest_from_cbor_bytes. cbv zeta. split.
  - intros H. reading H (cd_map_len_reads 3 "SignInvocationRequest" eq_refl).
    reading H (cd_key_reads 1 eq_refl). reading H (cd_text_reads "key_id").
    reading H (cd_key_reads 2 eq_refl). reading H (cd_bytes_reads "message").
    reading H (cd_key_reads 3 eq_refl). reading H (cd_i64_reads "algorithm").
    inv_ok H. destruct value. bool_facts.
    split; [| split_and!; simpl; (done || lia)].
    apply (follows_finish _ _ d5); [unfold SignInvocationRequest_to_cbor_bytes; follow | done].
  - intros [E (Hk & Hm & Ha)].
    apply body_follows in E as (d' & Hf & Hfin). unfollow Hf.
    by_reading (cd_map_len_reads 3 "SignInvocationRequest" eq_refl); [done |]. by_key 1%N.
    by_reading (cd_text_reads "key_id"); [done |]. by_key 2%N.
    by_reading (cd_bytes_reads "message"); [done |]. by_key 3%N.
    by_reading (cd_i64_reads "algorithm"); [lia |].
    rewrite Hfin. simpl. rewrite !(proj2 (Z.leb_le _ _)) by lia. by destruct r.
Qed.

Definition sign_response_wf (r : SignInvocationResponse) : Prop :=
  status_wf (sp_status r) ∧ u64 (sp_policy_generation r) ∧
  option_ok (λ s, u64 (N.of_nat (length s))) (sp_signature r) ∧
  (is_code (sp_status r) = CodeOk ↔ is_Some (sp_signature r)).

(** The response likewise; a signature is present exactly on success. *)
Theorem sign_response_decode_exact b r :
  is_bytes b → u64 (N.of_nat (length b)) →
  SignInvocationResponse_from_cbor_bytes b = Ok r ↔
  b = SignInvocationResponse_to_cbor_bytes r ∧ sign_response_wf r.
Proof.
  intros Hb Hl. pose proof (new_ok b Hb Hl) as Hd.
  unfold SignInvocationResponse_from_cbor_bytes. cbv zeta. split.
  - intros H. reading H (cd_map_len_reads 3 "SignInvocationResponse" eq_refl).
    reading H (cd_key_reads 1 eq_refl). reading H cd_status_reads.
    reading H (cd_key_reads 2 eq_refl). reading H (cd_u64_reads "policy_generation").
    reading H (cd_key_reads 3 eq_refl). reading H (cd_optional_bytes_reads "signature").
    inv_ok H. destruct value. split.
    + apply (follows_finish _ _ d5); [unfold SignInvocationResponse_to_cbor_bytes; follow | done].
    + unfold sign_response_wf. simpl. split_and!; [done .. |].
      destruct (bool_decide_reflect (is_code v1 = CodeOk)), v5; simpl in *; naive_solver.
  - intros [E (Hs & Hg & Hsig & Hiff)]. apply body_follows in E as (d' & Hf & Hfin). unfollow Hf.
    by_reading (cd_map_len_reads 3 "SignInvocationResponse" eq_refl); [done |]. by_key 1%N.
    by_reading cd_status_reads; [done |]. by_key 2%N.
    by_reading (cd_u64_reads "policy_generation"); [done |]. by_key 3%N.
    by_reading (cd_optional_bytes_reads "signature"); [done |].
    rewrite Hfin. destruct r as [s g [sg |]]; simpl in *.
    + rewrite bool_decide_true by naive_solver. done.
    + rewrite bool_decide_false; [done |]. intros Hc%Hiff. by apply is_Some_None in Hc.
Qed.

Definition mint_nats_user_request_wf (r : MintNatsUserInvocationRequest) : Prop :=
  text_ok (mn_account_key_id r) ∧ text_ok (mn_user_nkey r) ∧ text_ok (mn_name r) ∧
  option_ok u64 (mn_ttl_secs r) ∧ option_ok text_ok (mn_issuer_account r).

Theorem mint_nats_user_request_decode_exact b r :
  is_bytes b → u64 (N.of_nat (length b)) →
  MintNatsUserInvocationRequest_from_cbor_bytes b = Ok r ↔
  b = MintNatsUserInvocationRequest_to_cbor_bytes r ∧ mint_nats_user_request_wf r.
Proof.
  intros Hb Hl. pose proof (new_ok b Hb Hl) as Hd.
  unfold MintNatsUserInvocationRequest_from_cbor_bytes. cbv zeta. split.
  - intros H. reading H (cd_map_len_reads 5 "MintNatsUserInvocationRequest" eq_refl).
    reading H (cd_key_reads 1 eq_refl). reading H (cd_text_reads "account_key_id").
    reading H (cd_key_reads 2 eq_refl). reading H (cd_text_reads "user_nkey").
    reading H (cd_key_reads 3 eq_refl). reading H (cd_text_reads "name").
    reading H (cd_key_reads 4 eq_refl). reading H (cd_optional_u64_reads "ttl_secs").
    reading H (cd_key_reads 5 eq_refl). reading H (cd_optional_text_reads "issuer_account").
    inv_ok H. destruct value. split; [| by split_and!].
    apply (follows_finish _ _ d9); [| done].
    unfold MintNatsUserInvocationRequest_to_cbor_bytes. follow.
  - intros [E (? & ? & ? & ? & ?)]. apply body_follows in E as (d' & Hf & Hfin). unfollow Hf.
    by_reading (cd_map_len_reads 5 "MintNatsUserInvocationRequest" eq_refl); [done |]. by_key 1%N.
    by_reading (cd_text_reads "account_key_id"); [done |]. by_key 2%N.
    by_reading (cd_text_reads "user_nkey"); [done |]. by_key 3%N.
    by_reading (cd_text_reads "name"); [done |]. by_key 4%N.
    by_reading (cd_optional_u64_reads "ttl_secs"); [done |]. by_key 5%N.
    by_reading (cd_optional_text_reads "issuer_account"); [done |].
    rewrite Hfin. by destruct r.
Qed.

Definition sample_sign_request : SignInvocationRequest :=
  {| sq_key_id := "app.sign"; sq_message := [1%N; 2%N; 3%N]; sq_algorithm := 0 |}.

Lemma sign_request_decode_exact_witness :
  SignInvocationRequest_from_cbor_bytes (SignInvocationRequest_to_cbor_bytes sample_sign_request) =
  Ok sample_sign_request.
Proof.
  apply (sign_request_decode_exact (SignInvocationRequest_to_cbor_bytes sample_sign_request)
           sample_sign_request).
  - by apply is_bytes_decide.
  - by vm_compute.
  - split; [reflexivity |]. split_and!; (by vm_compute) || (cbn; lia).
Defined.
