(* ===== verification/CoseCodec.v ===== *)
(** * The COSE codec ([crates/basil-cose/src/codec/mod.rs])

    The deterministic encoder and the strict decoder of the profile.  The CBOR
    library [minicbor] is third-party code: the class [Minicbor] has the
    encoder and decoder methods the codec calls, and [MinicborLaws] what their
    documentation says about them.  An encoder method is the bytes it appends;
    a decoder's state is the input it has not consumed. *)

From S2P Require Import Prelude RustStr Bytes BTreeMap CoseTypes Cbor.

Local Open Scope Z_scope.

(** [minicbor::data::Type]. *)
Inductive DataType :=
| TyBool | TyNull | TyUndefined
| TyU8 | TyU16 | TyU32 | TyU64 | TyI8 | TyI16 | TyI32 | TyI64 | TyInt
| TyF16 | TyF32 | TyF64 | TySimple
| TyBytes | TyBytesIndef | TyString | TyStringIndef
| TyArray | TyArrayIndef | TyMap | TyMapIndef
| TyTag | TyBreak | TyUnknown.

#[export] Instance DataType_eq_dec : EqDecision DataType.
Proof. solve_decision. Defined.

Class Minicbor := {
  enc_map : N → bytes_;
  enc_array : N → bytes_;
  enc_tag : N → bytes_;
  enc_i64 : Z → bytes_;
  enc_u64 : N → bytes_;
  enc_str : string → bytes_;
  enc_bytes : bytes_ → bytes_;
  enc_null : bytes_;
  datatype : bytes_ → option DataType;
  dec_i64 : bytes_ → option (Z * bytes_);
  dec_bytes : bytes_ → option (bytes_ * bytes_);
  dec_str : bytes_ → option (string * bytes_);
  (** [None] as a length is the indefinite form. *)
  dec_map : bytes_ → option (option N * bytes_);
  dec_array : bytes_ → option (option N * bytes_);
  dec_tag : bytes_ → option (N * bytes_);
  dec_null : bytes_ → option bytes_;
}.

Inductive CodecErr := CodecError.

Definition TAG_SIGN1 : N := 18.
Definition TAG_ENCRYPT : N := 96.
Definition NONCE_LEN : nat := 12.
Definition X25519_LEN : nat := 32.

Definition CLAIM_LABELS : list Z :=
  [HDR_CWT_CLAIMS; IN_REPLY_TO; REQUEST_HASH; SENDER_KEY_ID; RESPONSE_KEY_ID; RESPONSE_SUBJECT;
   FRESHNESS_CHALLENGE; RESPONSE_PUBLIC_KEY_COSE].

(** [if let Some(x) = o { ... }] in an encoder. *)
Definition when_some {A} (o : option A) (f : A → bytes_) : bytes_ :=
  match o with Some x => f x | None => [] end.

Definition push_if (b : bool) (l : Z) : list Z := if b then [l] else [].

Definition basil_labels (c : Claims) : list Z :=
  push_if (is_some (in_reply_to c)) IN_REPLY_TO
  ++ push_if (is_some (request_hash c)) REQUEST_HASH
  ++ push_if (is_some (sender_key_id c)) SENDER_KEY_ID
  ++ push_if (is_some (response_key_id c)) RESPONSE_KEY_ID
  ++ push_if (is_some (response_subject c)) RESPONSE_SUBJECT
  ++ push_if (is_some (freshness_challenge c)) FRESHNESS_CHALLENGE
  ++ push_if (is_some (response_public_key_cose c)) RESPONSE_PUBLIC_KEY_COSE.

Definition has_jwt (h : option ProtectedHeaders) : bool :=
  match h with
  | Some h => match signer_certificates_jwt h with [] => false | _ => true end
  | None => false
  end.
Definition has_key (h : option ProtectedHeaders) : bool :=
  match h with Some h => is_some (signer_public_key_cose h) | None => false end.
Definition has_target (h : option ProtectedHeaders) : bool :=
  match h with Some h => is_some (operation_target_key_id h) | None => false end.

(** [sort_by_key] with [canonical_sort_key]. *)
Definition sort_labels (l : list Z) : list Z :=
  sort_by (λ a b, cmp (canonical_sort_key a) (canonical_sort_key b)) l.

Definition protected_header_crit_labels (h : option ProtectedHeaders) : list Z :=
  sort_labels
    (push_if (has_jwt h) SIGNER_CERTIFICATES_JWT
     ++ push_if (has_key h) SIGNER_PUBLIC_KEY_COSE
     ++ push_if (has_target h) OPERATION_TARGET_KEY_ID).

Definition crit_labels (c : option Claims) (h : option ProtectedHeaders) : list Z :=
  sort_labels
    ([HDR_CONTENT_TYPE]
     ++ match c with Some c => HDR_CWT_CLAIMS :: basil_labels c | None => [] end
     ++ protected_header_crit_labels h).

Definition u64_from (b : bool) : N := if b then 1 else 0.

Section encoder.
Context `{Minicbor, Primitives}.

Definition write_cwt_map (c : Claims) : bytes_ :=
  enc_map (2 + u64_from (is_some (issuer c)) + u64_from (is_some (audience c))
           + u64_from (is_some (expires_at c)))
  ++ when_some (issuer c) (λ iss, enc_i64 CWT_ISS ++ enc_str (subject_str iss))
  ++ when_some (audience c) (λ aud, enc_i64 CWT_AUD ++ enc_str (subject_str aud))
  ++ when_some (expires_at c) (λ exp, enc_i64 CWT_EXP ++ enc_i64 exp)
  ++ enc_i64 CWT_IAT ++ enc_i64 (issued_at c)
  ++ enc_i64 CWT_CTI ++ enc_bytes (message_id_bytes (message_id c)).

Definition write_label_array (l : Z) (labels : list Z) : bytes_ :=
  enc_i64 l ++ enc_array (N.of_nat (length labels)) ++ flat_map enc_i64 labels.

Definition write_jwts (h : ProtectedHeaders) : bytes_ :=
  enc_i64 SIGNER_CERTIFICATES_JWT
  ++ enc_array (N.of_nat (length (signer_certificates_jwt h)))
  ++ flat_map enc_str (signer_certificates_jwt h).

(** The claims between the content type and the proof headers. *)
Definition write_claims (c : Claims) : result CodecErr bytes_ :=
  let? response_kid :=
    match response_key_id c with
    | Some v =>
        let? name := ok_or CodecError (as_catalog_name v) in
        Ok (enc_i64 RESPONSE_KEY_ID ++ enc_str name)
    | None => Ok []
    end in
  Ok (enc_i64 HDR_CWT_CLAIMS ++ write_cwt_map c
      ++ when_some (in_reply_to c) (λ v, enc_i64 IN_REPLY_TO ++ enc_bytes (message_id_bytes v))
      ++ when_some (request_hash c) (λ h, enc_i64 REQUEST_HASH ++ enc_bytes (request_hash_bytes h))
      ++ when_some (sender_key_id c) (λ v, enc_i64 SENDER_KEY_ID ++ enc_bytes (key_id_bytes v))
      ++ response_kid
      ++ when_some (response_subject c)
           (λ v, enc_i64 RESPONSE_SUBJECT ++ enc_str (response_subject_str v))).

Definition claim_field {A} (c : option Claims) (f : Claims → option A) : option A :=
  match c with Some c => f c | None => None end.

Definition header_field {A} (h : option ProtectedHeaders) (f : ProtectedHeaders → option A)
    : option A :=
  match h with Some h => f h | None => None end.

Definition write_claims_capable_tail (content_type : ContentType) (c : option Claims)
    (h : option ProtectedHeaders) (kid : option KeyId) : result CodecErr bytes_ :=
  let? claims := match c with Some c => write_claims c | None => Ok [] end in
  Ok (write_label_array HDR_CRIT (crit_labels c h)
      ++ enc_i64 HDR_CONTENT_TYPE ++ enc_str (content_type_str content_type)
      ++ when_some kid (λ kid, enc_i64 HDR_KID ++ enc_bytes (key_id_bytes kid))
      ++ claims
      ++ match h with Some h' => if has_jwt h then write_jwts h' else [] | None => [] end
      ++ when_some (header_field h signer_public_key_cose)
           (λ key, enc_i64 SIGNER_PUBLIC_KEY_COSE ++ enc_bytes key)
      ++ when_some (claim_field c freshness_challenge)
           (λ v, enc_i64 FRESHNESS_CHALLENGE ++ enc_bytes (challenge_bytes v))
      ++ when_some (claim_field c response_public_key_cose)
           (λ v, enc_i64 RESPONSE_PUBLIC_KEY_COSE ++ enc_bytes (to_cose_key_bytes v))
      ++ when_some (header_field h operation_target_key_id)
           (λ target, enc_i64 OPERATION_TARGET_KEY_ID ++ enc_bytes (key_id_bytes target))).

Definition claims_capable_tail_len (c : option Claims) (h : option ProtectedHeaders) : N :=
  2 + match c with Some c => 1 + N.of_nat (length (basil_labels c)) | None => 0 end
  + u64_from (has_jwt h) + u64_from (has_key h) + u64_from (has_target h).

Definition binding_broken (c : option Claims) : bool :=
  match c with Some c => negb (response_key_binding_matches c) | None => false end.

Definition encode_sign1_protected_bare_with_headers (algorithm : SignatureAlgorithm) (kid : KeyId)
    (content_type : ContentType) (c : option Claims) (h : option ProtectedHeaders)
    : result CodecErr bytes_ :=
  return_err CodecError when binding_broken c otherwise
  let? tail := write_claims_capable_tail content_type c h (Some kid) in
  Ok (enc_map (2 + claims_capable_tail_len c h)
      ++ enc_i64 HDR_ALG ++ enc_i64 (SignatureAlgorithm_codepoint algorithm) ++ tail).

Definition encode_sign1_protected_sealed_outer_with_headers (algorithm : SignatureAlgorithm)
    (kid : KeyId) (h : option ProtectedHeaders) : result CodecErr bytes_ :=
  let has_crit := match h with Some h => negb (headers_is_empty h) | None => false end in
  Ok (enc_map (2 + u64_from has_crit + u64_from (has_jwt h) + u64_from (has_key h)
               + u64_from (has_target h))
      ++ enc_i64 HDR_ALG ++ enc_i64 (SignatureAlgorithm_codepoint algorithm)
      ++ (if has_crit then write_label_array HDR_CRIT (protected_header_crit_labels h) else [])
      ++ enc_i64 HDR_KID ++ enc_bytes (key_id_bytes kid)
      ++ match h with Some h' => if has_jwt h then write_jwts h' else [] | None => [] end
      ++ when_some (header_field h signer_public_key_cose)
           (λ key, enc_i64 SIGNER_PUBLIC_KEY_COSE ++ enc_bytes key)
      ++ when_some (header_field h operation_target_key_id)
           (λ target, enc_i64 OPERATION_TARGET_KEY_ID ++ enc_bytes (key_id_bytes target))).

Definition encode_sign1_protected_sealed_outer (algorithm : SignatureAlgorithm) (kid : KeyId)
    : result CodecErr bytes_ :=
  encode_sign1_protected_sealed_outer_with_headers algorithm kid None.

Definition encode_encrypt_protected (content_algorithm : ContentAlgorithm)
    (content_type : ContentType) (c : option Claims) : result CodecErr bytes_ :=
  return_err CodecError when binding_broken c otherwise
  let? tail := write_claims_capable_tail content_type c None None in
  Ok (enc_map (1 + claims_capable_tail_len c None)
      ++ enc_i64 HDR_ALG ++ enc_i64 (ContentAlgorithm_codepoint content_algorithm) ++ tail).

Definition party_labels (p : KdfParties) : list Z :=
  push_if (is_some (party_bytes (kdf_party_u p))) HDR_PARTY_U_IDENTITY
  ++ push_if (is_some (party_bytes (kdf_party_v p))) HDR_PARTY_V_IDENTITY.

Definition encode_recipient_protected (p : KdfParties) : result CodecErr bytes_ :=
  let party := party_labels p in
  Ok (enc_map (1 + u64_from (match party with [] => false | _ => true end)
               + N.of_nat (length party))
      ++ enc_i64 HDR_ALG ++ enc_i64 (KeyAgreementAlgorithm_codepoint EcdhEsHkdf256)
      ++ match party with [] => [] | _ => write_label_array HDR_CRIT party end
      ++ when_some (party_bytes (kdf_party_u p))
           (λ id, enc_i64 HDR_PARTY_U_IDENTITY ++ enc_bytes id)
      ++ when_some (party_bytes (kdf_party_v p))
           (λ id, enc_i64 HDR_PARTY_V_IDENTITY ++ enc_bytes id)).

Definition assemble_sign1 (protected payload signature : bytes_) : result CodecErr bytes_ :=
  Ok (enc_tag TAG_SIGN1 ++ enc_array 4 ++ enc_bytes protected ++ enc_map 0
      ++ enc_bytes payload ++ enc_bytes signature).

Record EncryptAssembly := {
  a_protected : bytes_;
  a_iv : bytes_;
  a_ciphertext : bytes_;
  a_recipient_protected : bytes_;
  a_recipient_kid : KeyId;
  a_ephemeral_x : bytes_;
}.

Definition assemble_encrypt (a : EncryptAssembly) : result CodecErr bytes_ :=
  Ok (enc_tag TAG_ENCRYPT ++ enc_array 4 ++ enc_bytes (a_protected a)
      ++ enc_map 1 ++ enc_i64 HDR_IV ++ enc_bytes (a_iv a)
      ++ enc_bytes (a_ciphertext a)
      ++ enc_array 1 ++ enc_array 3 ++ enc_bytes (a_recipient_protected a)
      ++ enc_map 2 ++ enc_i64 HDR_KID ++ enc_bytes (key_id_bytes (a_recipient_kid a))
      ++ enc_i64 HDR_EPHEMERAL_KEY
      ++ enc_map 3 ++ enc_i64 1 ++ enc_i64 1 ++ enc_i64 (-1) ++ enc_i64 4
      ++ enc_i64 (-2) ++ enc_bytes (a_ephemeral_x a)
      ++ enc_null).

Definition sig_structure (protected external_aad payload : bytes_) : result CodecErr bytes_ :=
  Ok (enc_array 4 ++ enc_str "Signature1" ++ enc_bytes protected ++ enc_bytes external_aad
      ++ enc_bytes payload).

Definition enc_structure (protected external_aad : bytes_) : result CodecErr bytes_ :=
  Ok (enc_array 3 ++ enc_str "Encrypt" ++ enc_bytes protected ++ enc_bytes external_aad).

Definition kdf_party (identity : PartyIdentity) : bytes_ :=
  enc_array 3
  ++ match party_bytes identity with Some id => enc_bytes id | None => enc_null end
  ++ enc_null ++ enc_null.

Definition kdf_context (content_algorithm : ContentAlgorithm) (p : KdfParties)
    (recipient_protected : bytes_) : result CodecErr bytes_ :=
  Ok (enc_array 4 ++ enc_i64 (ContentAlgorithm_codepoint content_algorithm)
      ++ kdf_party (kdf_party_u p) ++ kdf_party (kdf_party_v p)
      ++ enc_array 2 ++ enc_u64 (8 * key_len content_algorithm) ++ enc_bytes recipient_protected).
End encoder.

(** ** Strict decoding *)

Inductive ClaimsExpectation := ClaimsRequired | ClaimsForbidden | ClaimsOptional.
Inductive Sign1Layer := Bare | SealedOuter.

Record DecodedSign1 := {
  s_protected : bytes_;
  s_algorithm : SignatureAlgorithm;
  s_kid : KeyId;
  s_content_type : option ContentType;
  s_claims : option Claims;
  s_protected_headers : ProtectedHeaders;
  s_payload : bytes_;
  s_signature : bytes_;
}.

Record DecodedEncrypt := {
  e_protected : bytes_;
  e_content_algorithm : ContentAlgorithm;
  e_content_type : ContentType;
  e_claims : option Claims;
  e_iv : bytes_;
  e_ciphertext : bytes_;
  e_recipient_protected : bytes_;
  e_recipient_kid : KeyId;
  e_ephemeral_x : bytes_;
  e_parties : KdfParties;
}.

Definition is_int (t : DataType) : bool :=
  match t with
  | TyU8 | TyU16 | TyU32 | TyU64 | TyI8 | TyI16 | TyI32 | TyI64 | TyInt => true
  | _ => false
  end.

Definition is_type (t u : DataType) : bool := bool_decide (t = u).

Definition identifier {T} (r : result ProfileError T) : result DecodeError T :=
  map_err Identifier r.

Definition check_order (prev : option Z) (current : Z) : result DecodeError unit :=
  match prev with
  | None => Ok tt
  | Some p =>
      match cmp (canonical_sort_key p) (canonical_sort_key current) with
      | Lt => Ok tt
      | Eq => Err DuplicateLabel
      | Gt => Err NonDeterministicEncoding
      end
  end.

Record ClaimsParts := mk_parts {
  p_issuer : option Subject;
  p_audience : option Subject;
  p_expires_at : option Z;
  p_issued_at : option Z;
  p_message_id : option MessageId;
  p_in_reply_to : option MessageId;
  p_request_hash : option RequestHash;
  p_sender_key_id : option KeyId;
  p_response_key_id : option KeyId;
  p_response_subject : option ResponseSubject;
  p_freshness_challenge : option FreshnessChallenge;
  p_response_public_key_cose : option X25519ResponsePublicKey;
  p_cwt_present : bool;
  p_basil_present : bool;
}.

Definition ClaimsParts_default : ClaimsParts :=
  mk_parts None None None None None None None None None None None None false false.

(** Assignments to one field. *)
Definition set_issuer v '(mk_parts _ b c d e f g h i j k l m n) :=
  mk_parts v b c d e f g h i j k l m n.
Definition set_audience v '(mk_parts a _ c d e f g h i j k l m n) :=
  mk_parts a v c d e f g h i j k l m n.
Definition set_expires_at v '(mk_parts a b _ d e f g h i j k l m n) :=
  mk_parts a b v d e f g h i j k l m n.
Definition set_issued_at v '(mk_parts a b c _ e f g h i j k l m n) :=
  mk_parts a b c v e f g h i j k l m n.
Definition set_message_id v '(mk_parts a b c d _ f g h i j k l m n) :=
  mk_parts a b c d v f g h i j k l m n.
Definition set_in_reply_to v '(mk_parts a b c d e _ g h i j k l m n) :=
  mk_parts a b c d e v g h i j k l m n.
Definition set_request_hash v '(mk_parts a b c d e f _ h i j k l m n) :=
  mk_parts a b c d e f v h i j k l m n.
Definition set_sender_key_id v '(mk_parts a b c d e f g _ i j k l m n) :=
  mk_parts a b c d e f g v i j k l m n.
Definition set_response_key_id v '(mk_parts a b c d e f g h _ j k l m n) :=
  mk_parts a b c d e f g h v j k l m n.
Definition set_response_subject v '(mk_parts a b c d e f g h i _ k l m n) :=
  mk_parts a b c d e f g h i v k l m n.
Definition set_freshness_challenge v '(mk_parts a b c d e f g h i j _ l m n) :=
  mk_parts a b c d e f g h i j v l m n.
Definition set_response_public_key_cose v '(mk_parts a b c d e f g h i j k _ m n) :=
  mk_parts a b c d e f g h i j k v m n.
Definition set_cwt_present v '(mk_parts a b c d e f g h i j k l _ n) :=
  mk_parts a b c d e f g h i j k l v n.
Definition set_basil_present v '(mk_parts a b c d e f g h i j k l m _) :=
  mk_parts a b c d e f g h i j k l m v.

Record ClaimsCapableHeader := {
  h_alg : Z;
  h_crit : option (list Z);
  h_content_type : option ContentType;
  h_kid : option KeyId;
  h_claims : option Claims;
  h_protected_headers : ProtectedHeaders;
}.

(** The variables of the loop over a protected header, without the decoder
    and the previous label. *)
Record HeaderVars := mk_vars {
  v_alg : option Z;
  v_crit : option (list Z);
  v_content_type : option ContentType;
  v_kid : option KeyId;
  v_parts : ClaimsParts;
  v_jwts : list string;
  v_key : option bytes_;
  v_target : option KeyId;
}.

Definition HeaderVars_init : HeaderVars :=
  mk_vars None None None None ClaimsParts_default [] None None.

Definition set_alg v '(mk_vars _ b c d e f g h) := mk_vars v b c d e f g h.
Definition set_crit v '(mk_vars a _ c d e f g h) := mk_vars a v c d e f g h.
Definition set_content_type v '(mk_vars a b _ d e f g h) := mk_vars a b v d e f g h.
Definition set_kid v '(mk_vars a b c _ e f g h) := mk_vars a b c v e f g h.
Definition set_parts v '(mk_vars a b c d _ f g h) := mk_vars a b c d v f g h.
Definition set_jwts v '(mk_vars a b c d e _ g h) := mk_vars a b c d e v g h.
Definition set_key v '(mk_vars a b c d e f _ h) := mk_vars a b c d e f v h.
Definition set_target v '(mk_vars a b c d e f g _) := mk_vars a b c d e f g v.

Definition v_protected_headers (v : HeaderVars) : ProtectedHeaders :=
  {| signer_certificates_jwt := v_jwts v; signer_public_key_cose := v_key v;
     operation_target_key_id := v_target v |}.

(** Check the crit list against the profile expectation. *)
Definition check_crit (actual : option (list Z)) (expected : list Z) : result DecodeError unit :=
  match actual with
  | None => Err CritMissing
  | Some actual =>
      if bool_decide (actual = expected) then Ok tt
      else
        match List.find (λ l, negb (bool_decide (l ∈ expected))) actual with
        | Some l => Err (CritUnexpected l)
        | None =>
            match List.find (λ l, negb (bool_decide (l ∈ actual))) expected with
            | Some l => Err (CritIncomplete l)
            | None => Err NonDeterministicEncoding
            end
        end
  end.

Definition check_tag (s : Scan) (expected : N) : result DecodeError unit :=
  match top_tag s with
  | None => Err NotTagged
  | Some t => if (t =? expected)%N then Ok tt else Err (WrongTag expected t)
  end.

Section decoder.
Context `{Minicbor, Primitives}.

Definition dt (d : bytes_) : result DecodeError DataType := ok_or Malformed (datatype d).

Definition read_label (d : bytes_) : result DecodeError (Z * bytes_) :=
  let? t := dt d in
  return_err TextLabel when is_type t TyString || is_type t TyStringIndef otherwise
  return_err Malformed when negb (is_int t) otherwise
  ok_or Malformed (dec_i64 d).

Definition read_bytes (d : bytes_) (l : Z) : result DecodeError (bytes_ * bytes_) :=
  let? t := dt d in
  return_err (WrongType l) when negb (is_type t TyBytes) otherwise
  ok_or Malformed (dec_bytes d).

Definition read_str (d : bytes_) (l : Z) : result DecodeError (string * bytes_) :=
  let? t := dt d in
  return_err (WrongType l) when negb (is_type t TyString) otherwise
  ok_or Malformed (dec_str d).

Definition read_int (d : bytes_) (l : Z) : result DecodeError (Z * bytes_) :=
  let? t := dt d in
  return_err (WrongType l) when negb (is_int t) otherwise
  ok_or Malformed (dec_i64 d).

Definition read_time (d : bytes_) (l : Z) : result DecodeError (Z * bytes_) :=
  let? t := dt d in
  return_err FractionalTime
    when is_type t TyF16 || is_type t TyF32 || is_type t TyF64 otherwise
  return_err (WrongType l) when negb (is_int t) otherwise
  ok_or Malformed (dec_i64 d).

Definition read_map_len (d : bytes_) : result DecodeError (N * bytes_) :=
  let? t := dt d in
  return_err Malformed when negb (is_type t TyMap) otherwise
  let? (n, d) := ok_or Malformed (dec_map d) in
  let? n := ok_or IndefiniteLength n in
  Ok (n, d).

Definition read_array_len (d : bytes_) : result DecodeError (N * bytes_) :=
  let? t := dt d in
  return_err Malformed when negb (is_type t TyArray) otherwise
  let? (n, d) := ok_or Malformed (dec_array d) in
  let? n := ok_or IndefiniteLength n in
  Ok (n, d).

(** [for _ in 0..n { out.push(read(d)?) }]. *)
Definition read_n {A} (read : bytes_ → result DecodeError (A * bytes_)) (n : N) (d : bytes_)
    : result DecodeError (list A * bytes_) :=
  for_n (N.to_nat n)
    (λ '(out, d), let? (x, d) := read d in Ok (out ++ [x], d)) ([], d).

Definition read_string_array (d : bytes_) (l : Z) : result DecodeError (list string * bytes_) :=
  let? (n, d) := read_array_len d in
  read_n (λ d, read_str d l) n d.

(** The loop over the entries of a map: each turn reads a label, checks that
    it is above the previous one, and matches on it. *)
Definition for_labels {S} (n : N) (entry : Z → S → bytes_ → result DecodeError (S * bytes_))
    (st : S) (d : bytes_) : result DecodeError (S * bytes_) :=
  let? (_, st, d) :=
    for_n (N.to_nat n)
      (λ '(prev, st, d),
        let? (l, d) := read_label d in
        let? _ := check_order prev l in
        let? (st, d) := entry l st d in
        Ok (Some l, st, d))
      (None, st, d) in
  Ok (st, d).

Definition into_claims (p : ClaimsParts) : result DecodeError (option Claims) :=
  if negb (p_cwt_present p) then
    return_err (MissingHeader HDR_CWT_CLAIMS) when p_basil_present p otherwise
    Ok None
  else
    let? iat := ok_or (DecodeMissingClaim CWT_IAT) (p_issued_at p) in
    let? cti := ok_or (DecodeMissingClaim CWT_CTI) (p_message_id p) in
    let claims :=
      {| issuer := p_issuer p; audience := p_audience p; expires_at := p_expires_at p;
         issued_at := iat; message_id := cti; sender_key_id := p_sender_key_id p;
         response_key_id := p_response_key_id p; response_subject := p_response_subject p;
         in_reply_to := p_in_reply_to p; request_hash := p_request_hash p;
         freshness_challenge := p_freshness_challenge p;
         response_public_key_cose := p_response_public_key_cose p |} in
    return_err DecodeResponseKeyIdMismatch when negb (response_key_binding_matches claims) otherwise
    Ok (Some claims).

Definition cwt_entry (key : Z) (parts : ClaimsParts) (d : bytes_)
    : result DecodeError (ClaimsParts * bytes_) :=
  if key =? CWT_ISS then
    let? (s, d) := read_str d key in
    let? iss := identifier (Subject_new s) in
    Ok (set_issuer (Some iss) parts, d)
  else if key =? CWT_AUD then
    let? (s, d) := read_str d key in
    let? aud := identifier (Subject_new s) in
    Ok (set_audience (Some aud) parts, d)
  else if key =? CWT_EXP then
    let? (t, d) := read_time d key in
    Ok (set_expires_at (Some t) parts, d)
  else if key =? CWT_IAT then
    let? (t, d) := read_time d key in
    Ok (set_issued_at (Some t) parts, d)
  else if key =? CWT_CTI then
    let? (b, d) := read_bytes d key in
    let? cti := identifier (MessageId_from_bytes b) in
    Ok (set_message_id (Some cti) parts, d)
  else Err (UnknownClaim key).

Definition parse_cwt_map (d : bytes_) (parts : ClaimsParts)
    : result DecodeError (ClaimsParts * bytes_) :=
  let? (n, d) := read_map_len d in
  let? (parts, d) := for_labels n cwt_entry parts d in
  Ok (set_cwt_present true parts, d).

(** The labels of [parse_basil_label]; [None] is any other label. *)
Definition basil_entry (l : Z) (parts : ClaimsParts) (d : bytes_)
    : result DecodeError (option (ClaimsParts * bytes_)) :=
  if l =? IN_REPLY_TO then
    let? (b, d) := read_bytes d l in
    let? v := identifier (MessageId_from_bytes b) in
    Ok (Some (set_in_reply_to (Some v) parts, d))
  else if l =? REQUEST_HASH then
    let? (raw, d) := read_bytes d l in
    return_err (InvalidLength l 32 (length raw)) when negb (length raw =? 32)%nat otherwise
    Ok (Some (set_request_hash (Some {| request_hash_bytes := raw |}) parts, d))
  else if l =? SENDER_KEY_ID then
    let? (b, d) := read_bytes d l in
    let? v := identifier (KeyId_from_bytes b) in
    Ok (Some (set_sender_key_id (Some v) parts, d))
  else if l =? RESPONSE_KEY_ID then
    let? (s, d) := read_str d l in
    let? v := identifier (KeyId_from_text s) in
    Ok (Some (set_response_key_id (Some v) parts, d))
  else if l =? RESPONSE_SUBJECT then
    let? (s, d) := read_str d l in
    let? v := identifier (ResponseSubject_new s) in
    Ok (Some (set_response_subject (Some v) parts, d))
  else if l =? FRESHNESS_CHALLENGE then
    let? (raw, d) := read_bytes d l in
    let? v := map_err (λ _, InvalidLength l 32 (length raw)) (FreshnessChallenge_from_bytes raw) in
    Ok (Some (set_freshness_challenge (Some v) parts, d))
  else if l =? RESPONSE_PUBLIC_KEY_COSE then
    let? (b, d) := read_bytes d l in
    let? v := identifier (from_cose_key_bytes b) in
    Ok (Some (set_response_public_key_cose (Some v) parts, d))
  else Ok None.

Definition parse_basil_label (d : bytes_) (l : Z) (parts : ClaimsParts)
    : result DecodeError (bool * ClaimsParts * bytes_) :=
  let? r := basil_entry l parts d in
  match r with
  | Some (parts, d) => Ok (true, set_basil_present true parts, d)
  | None => Ok (false, parts, d)
  end.

Definition parse_crit (d : bytes_) : result DecodeError (list Z * bytes_) :=
  let? (n, d) := read_array_len d in
  return_err (WrongType HDR_CRIT) when (n =? 0)%N otherwise
  read_n read_label n d.

Definition read_key_id (d : bytes_) (l : Z) : result DecodeError (KeyId * bytes_) :=
  let? (b, d) := read_bytes d l in
  let? v := identifier (KeyId_from_bytes b) in
  Ok (v, d).

Definition header_entry (allow_kid : bool) (l : Z) (v : HeaderVars) (d : bytes_)
    : result DecodeError (HeaderVars * bytes_) :=
  if l =? HDR_ALG then
    let? (x, d) := read_int d l in Ok (set_alg (Some x) v, d)
  else if l =? HDR_CRIT then
    let? (x, d) := parse_crit d in Ok (set_crit (Some x) v, d)
  else if l =? HDR_CONTENT_TYPE then
    let? (s, d) := read_str d l in
    let? x := identifier (ContentType_new s) in
    Ok (set_content_type (Some x) v, d)
  else if (l =? HDR_KID) && allow_kid then
    let? (x, d) := read_key_id d l in Ok (set_kid (Some x) v, d)
  else if l =? HDR_CWT_CLAIMS then
    let? (parts, d) := parse_cwt_map d (v_parts v) in Ok (set_parts parts v, d)
  else if (l =? SIGNER_CERTIFICATES_JWT) && allow_kid then
    let? (x, d) := read_string_array d l in Ok (set_jwts x v, d)
  else if (l =? SIGNER_PUBLIC_KEY_COSE) && allow_kid then
    let? (x, d) := read_bytes d l in Ok (set_key (Some x) v, d)
  else if (l =? OPERATION_TARGET_KEY_ID) && allow_kid then
    let? (x, d) := read_key_id d l in Ok (set_target (Some x) v, d)
  else
    let? (known, parts, d) := parse_basil_label d l (v_parts v) in
    return_err (UnknownLabel l) when negb known otherwise
    Ok (set_parts parts v, d).

Definition parse_claims_capable_header (b : bytes_) (allow_kid : bool)
    : result DecodeError ClaimsCapableHeader :=
  return_err (MissingHeader HDR_ALG) when (length b =? 0)%nat otherwise
  let? _ := scan b in
  let? (n, d) := read_map_len b in
  let? (v, d) := for_labels n (header_entry allow_kid) HeaderVars_init d in
  let? alg := ok_or (MissingHeader HDR_ALG) (v_alg v) in
  let? claims := into_claims (v_parts v) in
  return_err (UnknownLabel RESPONSE_PUBLIC_KEY_COSE)
    when allow_kid && is_some (claim_field claims response_public_key_cose) otherwise
  Ok {| h_alg := alg; h_crit := v_crit v; h_content_type := v_content_type v; h_kid := v_kid v;
        h_claims := claims; h_protected_headers := v_protected_headers v |}.

Definition finish_claims_capable (h : ClaimsCapableHeader) (expectation : ClaimsExpectation)
    : result DecodeError unit :=
  return_err (MissingHeader HDR_CONTENT_TYPE) when negb (is_some (h_content_type h)) otherwise
  match expectation, h_claims h with
  | ClaimsRequired, None => Err (MissingHeader HDR_CWT_CLAIMS)
  | ClaimsForbidden, Some _ => Err (UnknownLabel HDR_CWT_CLAIMS)
  | _, _ => check_crit (h_crit h) (crit_labels (h_claims h) (Some (h_protected_headers h)))
  end.

(** [on_entry] has the variables it captures as its state. *)
Definition parse_unprotected {S} (d : bytes_)
    (on_entry : Z → S → bytes_ → result DecodeError (bool * S * bytes_)) (st : S)
    : result DecodeError (S * bytes_) :=
  let? (n, d) := read_map_len d in
  for_labels n
    (λ l st d,
      return_err ClaimsInUnprotected when bool_decide (l ∈ CLAIM_LABELS) otherwise
      let? (known, st, d) := on_entry l st d in
      return_err (UnknownLabel l) when negb known otherwise
      Ok (st, d))
    st d.

Definition sealed_outer_entry (l : Z) (v : HeaderVars) (d : bytes_)
    : result DecodeError (HeaderVars * bytes_) :=
  if l =? HDR_ALG then
    let? (x, d) := read_int d l in Ok (set_alg (Some x) v, d)
  else if l =? HDR_KID then
    let? (x, d) := read_key_id d l in Ok (set_kid (Some x) v, d)
  else if l =? HDR_CRIT then
    let? (x, d) := parse_crit d in Ok (set_crit (Some x) v, d)
  else if l =? SIGNER_CERTIFICATES_JWT then
    let? (x, d) := read_string_array d l in Ok (set_jwts x v, d)
  else if l =? SIGNER_PUBLIC_KEY_COSE then
    let? (x, d) := read_bytes d l in Ok (set_key (Some x) v, d)
  else if l =? OPERATION_TARGET_KEY_ID then
    let? (x, d) := read_key_id d l in Ok (set_target (Some x) v, d)
  else Err (UnknownLabel l).

Definition parse_sealed_outer_protected (b : bytes_)
    : result DecodeError (SignatureAlgorithm * KeyId * ProtectedHeaders) :=
  return_err (MissingHeader HDR_ALG) when (length b =? 0)%nat otherwise
  let? _ := scan b in
  let? (n, d) := read_map_len b in
  let? (v, d) := for_labels n sealed_outer_entry HeaderVars_init d in
  let? alg := ok_or (MissingHeader HDR_ALG) (v_alg v) in
  let? algorithm := ok_or (UnknownAlgorithm alg) (SignatureAlgorithm_from_codepoint alg) in
  let? kid := ok_or (MissingHeader HDR_KID) (v_kid v) in
  let headers := v_protected_headers v in
  let? _ :=
    if headers_is_empty headers then
      return_err (CritIncomplete HDR_CRIT) when is_some (v_crit v) otherwise
      Ok tt
    else check_crit (v_crit v) (protected_header_crit_labels (Some headers)) in
  Ok (algorithm, kid, headers).

(** Its state: [alg], [crit], [party_u] and [party_v]. *)
Definition recipient_entry (l : Z)
    (st : option Z * option (list Z) * PartyIdentity * PartyIdentity) (d : bytes_)
    : result DecodeError
        (option Z * option (list Z) * PartyIdentity * PartyIdentity * bytes_) :=
  let '(alg, crit, party_u, party_v) := st in
  if l =? HDR_ALG then
    let? (x, d) := read_int d l in Ok (Some x, crit, party_u, party_v, d)
  else if l =? HDR_CRIT then
    let? (x, d) := parse_crit d in Ok (alg, Some x, party_u, party_v, d)
  else if l =? HDR_PARTY_U_IDENTITY then
    let? (b, d) := read_bytes d l in
    let? x := identifier (PartyIdentity_from_bytes b) in
    Ok (alg, crit, x, party_v, d)
  else if l =? HDR_PARTY_V_IDENTITY then
    let? (b, d) := read_bytes d l in
    let? x := identifier (PartyIdentity_from_bytes b) in
    Ok (alg, crit, party_u, x, d)
  else Err (UnknownLabel l).

Definition parse_recipient_protected (b : bytes_) : result DecodeError KdfParties :=
  return_err (MissingHeader HDR_ALG) when (length b =? 0)%nat otherwise
  let? _ := scan b in
  let? (n, d) := read_map_len b in
  let? (alg, crit, party_u, party_v, d) :=
    for_labels n recipient_entry (None, None, PartyIdentity_nil, PartyIdentity_nil) d in
  let? alg := ok_or (MissingHeader HDR_ALG) alg in
  return_err (UnknownAlgorithm alg)
    when negb (is_some (KeyAgreementAlgorithm_from_codepoint alg)) otherwise
  let parties := {| kdf_party_u := party_u; kdf_party_v := party_v |} in
  let? _ :=
    match party_labels parties with
    | [] =>
        match crit with
        | Some crit => Err (CritUnexpected (default HDR_CRIT (head crit)))
        | None => Ok tt
        end
    | expected => check_crit crit expected
    end in
  Ok parties.

(** Its state: [x], [kty_ok] and [crv_ok]. *)
Definition ephemeral_entry (l : Z) (st : option bytes_ * bool * bool) (d : bytes_)
    : result DecodeError (option bytes_ * bool * bool * bytes_) :=
  let '(x, kty_ok, crv_ok) := st in
  if l =? 1 then
    let? (v, d) := read_int d l in Ok (x, v =? 1, crv_ok, d)
  else if l =? -1 then
    let? (v, d) := read_int d l in Ok (x, kty_ok, v =? 4, d)
  else if l =? -2 then
    let? (raw, d) := read_bytes d l in
    return_err EphemeralKeyShape when negb (length raw =? X25519_LEN)%nat otherwise
    Ok (Some raw, kty_ok, crv_ok, d)
  else Err EphemeralKeyShape.

Definition parse_ephemeral_key (d : bytes_) : result DecodeError (bytes_ * bytes_) :=
  let? t := dt d in
  return_err EphemeralKeyShape when negb (is_type t TyMap) otherwise
  let? (n, d) := ok_or Malformed (dec_map d) in
  let? n := ok_or IndefiniteLength n in
  return_err EphemeralKeyShape when negb (n =? 3)%N otherwise
  let? (x, kty_ok, crv_ok, d) := for_labels n ephemeral_entry (None, false, false) d in
  return_err EphemeralKeyShape when negb kty_ok || negb crv_ok otherwise
  let? x := ok_or EphemeralKeyShape x in
  Ok (x, d).

(** A byte string where any other type is [Malformed]. *)
Definition expect_bytes (d : bytes_) : result DecodeError (bytes_ * bytes_) :=
  let? t := dt d in
  return_err Malformed when negb (is_type t TyBytes) otherwise
  ok_or Malformed (dec_bytes d).

Definition read_payload (d : bytes_) : result DecodeError (bytes_ * bytes_) :=
  let? t := dt d in
  match t with
  | TyBytes => ok_or Malformed (dec_bytes d)
  | TyNull => Err MissingPayload
  | _ => Err Malformed
  end.

(** [.map_err(|CodecError| DecodeError::NonDeterministicEncoding)]. *)
Definition rebuild {T} (r : result CodecErr T) : result DecodeError T :=
  map_err (λ _, NonDeterministicEncoding) r.

Definition decode_sign1_layer (protected : bytes_) (layer : Sign1Layer)
    : result DecodeError (SignatureAlgorithm * KeyId * option ContentType * option Claims *
                          ProtectedHeaders * bytes_) :=
  match layer with
  | Bare =>
      let? h := parse_claims_capable_header protected true in
      let? algorithm :=
        ok_or (UnknownAlgorithm (h_alg h)) (SignatureAlgorithm_from_codepoint (h_alg h)) in
      let? _ := finish_claims_capable h ClaimsOptional in
      let? kid := ok_or (MissingHeader HDR_KID) (h_kid h) in
      let? content_type := ok_or (MissingHeader HDR_CONTENT_TYPE) (h_content_type h) in
      let? rebuilt :=
        rebuild (encode_sign1_protected_bare_with_headers algorithm kid content_type
                   (h_claims h) (Some (h_protected_headers h))) in
      Ok (algorithm, kid, Some content_type, h_claims h, h_protected_headers h, rebuilt)
  | SealedOuter =>
      let? (algorithm, kid, headers) := parse_sealed_outer_protected protected in
      let? rebuilt :=
        rebuild (encode_sign1_protected_sealed_outer_with_headers algorithm kid (Some headers)) in
      Ok (algorithm, kid, None, None, headers, rebuilt)
  end.

Definition decode_sign1_strict (b : bytes_) (layer : Sign1Layer)
    : result DecodeError DecodedSign1 :=
  let? s := scan b in
  let? _ := check_tag s TAG_SIGN1 in
  let? (_, d) := ok_or Malformed (dec_tag b) in
  let? (n, d) := read_array_len d in
  return_err Malformed when negb (n =? 4)%N otherwise
  let? (protected, d) := expect_bytes d in
  let? (_, d) := parse_unprotected d (λ _ st d, Ok (false, st, d)) tt in
  let? (payload, d) := read_payload d in
  let? (signature, d) := map_err (λ _, Malformed) (read_bytes d 0) in
  return_err Malformed when (length signature =? 0)%nat otherwise
  let? (algorithm, kid, content_type, claims, protected_headers, rebuilt_protected) :=
    decode_sign1_layer protected layer in
  let? rebuilt := rebuild (assemble_sign1 rebuilt_protected payload signature) in
  return_err NonDeterministicEncoding when negb (bool_decide (rebuilt = b)) otherwise
  Ok {| s_protected := protected; s_algorithm := algorithm; s_kid := kid;
        s_content_type := content_type; s_claims := claims;
        s_protected_headers := protected_headers; s_payload := payload;
        s_signature := signature |}.

(** The closure over [iv]. *)
Definition iv_entry (l : Z) (iv : option bytes_) (d : bytes_)
    : result DecodeError (bool * option bytes_ * bytes_) :=
  if negb (l =? HDR_IV) then Ok (false, iv, d)
  else
    let? (raw, d) := read_bytes d l in
    return_err (InvalidLength l NONCE_LEN (length raw))
      when negb (length raw =? NONCE_LEN)%nat otherwise
    Ok (true, Some raw, d).

(** The closure over [recipient_kid] and [ephemeral_x]. *)
Definition recipient_unprotected_entry (l : Z) (st : option KeyId * option bytes_) (d : bytes_)
    : result DecodeError (bool * (option KeyId * option bytes_) * bytes_) :=
  let '(recipient_kid, ephemeral_x) := st in
  if l =? HDR_KID then
    let? (x, d) := read_key_id d l in Ok (true, (Some x, ephemeral_x), d)
  else if l =? HDR_EPHEMERAL_KEY then
    let? (x, d) := parse_ephemeral_key d in Ok (true, (recipient_kid, Some x), d)
  else Ok (false, st, d).

(** The recipient array: its protected bytes, key id and ephemeral key. *)
Definition decode_recipient (d : bytes_) : result DecodeError (bytes_ * KeyId * bytes_) :=
  let? (recipient_count, d) := read_array_len d in
  return_err (RecipientCount recipient_count) when negb (recipient_count =? 1)%N otherwise
  let? (recipient_len, d) := read_array_len d in
  return_err NestedRecipients when (recipient_len =? 4)%N otherwise
  return_err Malformed when negb (recipient_len =? 3)%N otherwise
  let? (recipient_protected, d) := expect_bytes d in
  let? (st, d) := parse_unprotected d recipient_unprotected_entry (None, None) in
  let? recipient_kid := ok_or (MissingHeader HDR_KID) (fst st) in
  let? ephemeral_x := ok_or (MissingHeader HDR_EPHEMERAL_KEY) (snd st) in
  let? t := dt d in
  return_err RecipientCiphertextPresent when negb (is_type t TyNull) otherwise
  let? _ := ok_or Malformed (dec_null d) in
  Ok (recipient_protected, recipient_kid, ephemeral_x).

Definition decode_encrypt_strict (b : bytes_) (expectation : ClaimsExpectation)
    : result DecodeError DecodedEncrypt :=
  let? s := scan b in
  let? _ := check_tag s TAG_ENCRYPT in
  let? (_, d) := ok_or Malformed (dec_tag b) in
  let? (n, d) := read_array_len d in
  return_err Malformed when negb (n =? 4)%N otherwise
  let? (protected, d) := expect_bytes d in
  let? (iv, d) := parse_unprotected d iv_entry None in
  let? iv := ok_or (MissingHeader HDR_IV) iv in
  let? (ciphertext, d) := read_payload d in
  let? (recipient_protected, recipient_kid, ephemeral_x) := decode_recipient d in
  let? h := parse_claims_capable_header protected false in
  let? content_algorithm :=
    ok_or (UnknownAlgorithm (h_alg h)) (ContentAlgorithm_from_codepoint (h_alg h)) in
  let? _ := finish_claims_capable h expectation in
  let? content_type := ok_or (MissingHeader HDR_CONTENT_TYPE) (h_content_type h) in
  let? parties := parse_recipient_protected recipient_protected in
  let? rebuilt_protected :=
    rebuild (encode_encrypt_protected content_algorithm content_type (h_claims h)) in
  let? rebuilt_recipient_protected := rebuild (encode_recipient_protected parties) in
  let? rebuilt :=
    rebuild (assemble_encrypt
      {| a_protected := rebuilt_protected; a_iv := iv; a_ciphertext := ciphertext;
         a_recipient_protected := rebuilt_recipient_protected;
         a_recipient_kid := recipient_kid; a_ephemeral_x := ephemeral_x |}) in
  return_err NonDeterministicEncoding when negb (bool_decide (rebuilt = b)) otherwise
  Ok {| e_protected := protected; e_content_algorithm := content_algorithm;
        e_content_type := content_type; e_claims := h_claims h; e_iv := iv;
        e_ciphertext := ciphertext; e_recipient_protected := recipient_protected;
        e_recipient_kid := recipient_kid; e_ephemeral_x := ephemeral_x;
        e_parties := parties |}.
End decoder.
