(* ===== verification/CoseCbor.v ===== *)
(** * What the COSE codec relies on in [minicbor]

    [MinicborLaws] states the documented behaviour of the encoder and decoder
    methods the codec calls: the encoder writes the preferred serialization of
    RFC 8949, and the decoder reads back what such an encoder wrote, leaving
    the rest of the input.  [rfc8949] is a reference implementation over the
    data model of [Cbor] that satisfies them. *)

From Stdlib Require Sorted.
From S2P Require Import Prelude RustStr Bytes BTreeMap CoseTypes Cbor CoseCodec.

Local Open Scope Z_scope.

Definition int_item (z : Z) : item :=
  if 0 <=? z then UInt (Z.to_N z) else NInt (Z.to_N (-1 - z)).

Definition null_item : item := Simple 22.

Definition utf8 (s : string) : Prop := is_utf8 (bytes s) = true.

Definition len64 {A} (l : list A) : Prop := u64 (N.of_nat (length l)).

Class MinicborLaws `{Minicbor} := {
  enc_map_head n : enc_map n = cbor_head 5 n;
  enc_array_head n : enc_array n = cbor_head 4 n;
  enc_tag_head n : enc_tag n = cbor_head 6 n;
  enc_i64_item z : enc_i64 z = cbor_encode (int_item z);
  enc_u64_item n : enc_u64 n = cbor_encode (UInt n);
  enc_str_item s : enc_str s = cbor_encode (TextStr (bytes s));
  enc_bytes_item l : enc_bytes l = cbor_encode (ByteStr l);
  enc_null_item : enc_null = cbor_encode null_item;
  datatype_i64 z d : is_i64 z → ∃ t, datatype (enc_i64 z ++ d) = Some t ∧ is_int t = true;
  datatype_bytes l d : len64 l → datatype (enc_bytes l ++ d) = Some TyBytes;
  datatype_str s d : len64 (bytes s) → datatype (enc_str s ++ d) = Some TyString;
  datatype_array n d : u64 n → datatype (enc_array n ++ d) = Some TyArray;
  datatype_map n d : u64 n → datatype (enc_map n ++ d) = Some TyMap;
  datatype_null d : datatype (enc_null ++ d) = Some TyNull;
  dec_enc_i64 z d : is_i64 z → dec_i64 (enc_i64 z ++ d) = Some (z, d);
  dec_enc_bytes l d : len64 l → dec_bytes (enc_bytes l ++ d) = Some (l, d);
  dec_enc_str s d : len64 (bytes s) → utf8 s → dec_str (enc_str s ++ d) = Some (s, d);
  dec_enc_array n d : u64 n → dec_array (enc_array n ++ d) = Some (Some n, d);
  dec_enc_map n d : u64 n → dec_map (enc_map n ++ d) = Some (Some n, d);
  dec_enc_tag n d : u64 n → dec_tag (enc_tag n ++ d) = Some (n, d);
  dec_enc_null d : dec_null (enc_null ++ d) = Some d;
  dec_i64_i64 d z d' : dec_i64 d = Some (z, d') → is_i64 z ∧ d' `suffix_of` d;
  dec_bytes_slice d l d' : dec_bytes d = Some (l, d') → (l ++ d') `suffix_of` d;
  dec_str_slice d s d' :
    is_bytes d → dec_str d = Some (s, d') → utf8 s ∧ (bytes s ++ d') `suffix_of` d;
  dec_array_suffix d n d' : dec_array d = Some (n, d') → d' `suffix_of` d;
  dec_map_suffix d n d' : dec_map d = Some (n, d') → d' `suffix_of` d;
  dec_tag_suffix d n d' : dec_tag d = Some (n, d') → d' `suffix_of` d;
}.

(** ** A reference implementation *)

(** The argument of a head of major type [major], and the input after it. *)
Definition head_of (major : N) (d : bytes_) : option (N * bytes_) :=
  match d with
  | [] => None
  | initial :: _ =>
      if (major_of initial =? major)%N then
        match read_head d 0 with
        | Ok (arg, next) => Some (arg, drop next d)
        | Err _ => None
        end
      else None
  end.

Definition split_at (n : N) (d : bytes_) : option (bytes_ * bytes_) :=
  if (N.of_nat (length d) <? n)%N then None
  else Some (take (N.to_nat n) d, drop (N.to_nat n) d).

Definition ref_datatype (d : bytes_) : option DataType :=
  match d with
  | [] => None
  | initial :: _ =>
      let indefinite := (info_of initial =? 31)%N in
      Some match major_of initial with
           | 0 | 1 => TyInt
           | 2 => if indefinite then TyBytesIndef else TyBytes
           | 3 => if indefinite then TyStringIndef else TyString
           | 4 => if indefinite then TyArrayIndef else TyArray
           | 5 => if indefinite then TyMapIndef else TyMap
           | 6 => TyTag
           | _ => if (info_of initial =? 22)%N then TyNull
                  else if (info_of initial =? 25)%N then TyF16
                  else if (info_of initial =? 26)%N then TyF32
                  else if (info_of initial =? 27)%N then TyF64 else TySimple
           end%N
  end.

Definition ref_i64 (d : bytes_) : option (Z * bytes_) :=
  match head_of 0 d, head_of 1 d with
  | Some (n, d'), _ => if (n <=? 9223372036854775807)%N then Some (Z.of_N n, d') else None
  | None, Some (n, d') => if (n <=? 9223372036854775807)%N then Some (-1 - Z.of_N n, d') else None
  | None, None => None
  end.

Definition ref_bytes (d : bytes_) : option (bytes_ * bytes_) :=
  '(n, d) ← head_of 2 d; split_at n d.

Definition ref_str (d : bytes_) : option (string * bytes_) :=
  '(n, d) ← head_of 3 d; '(l, d) ← split_at n d;
  s ← from_utf8 l; Some (s, d).

Definition ref_len (major : N) (d : bytes_) : option (option N * bytes_) :=
  '(n, d) ← head_of major d; Some (Some n, d).

Definition ref_null (d : bytes_) : option bytes_ :=
  match d with
  | b :: d' => if (b =? 246)%N then Some d' else None
  | [] => None
  end.

Definition rfc8949 : Minicbor := {|
  enc_map := cbor_head 5;
  enc_array := cbor_head 4;
  enc_tag := cbor_head 6;
  enc_i64 z := cbor_encode (int_item z);
  enc_u64 n := cbor_encode (UInt n);
  enc_str s := cbor_encode (TextStr (bytes s));
  enc_bytes l := cbor_encode (ByteStr l);
  enc_null := cbor_encode null_item;
  datatype := ref_datatype;
  dec_i64 := ref_i64;
  dec_bytes := ref_bytes;
  dec_str := ref_str;
  dec_map := ref_len 5;
  dec_array := ref_len 4;
  dec_tag := head_of 6;
  dec_null := ref_null;
|}.

Lemma head_of_head m a d : m ≠ 7%N → u64 a → head_of m (cbor_head m a ++ d) = Some (a, d).
Proof.
  intros Hm Ha. unfold head_of. pose proof (read_head_head [] m a d Hm Ha) as Hr.
  destruct (head_first m a) as (k & rest & Hh & Hk). rewrite Hh in *. simpl in *.
  rewrite major_of_head by lia. rewrite N.eqb_refl, Hr. simpl. by rewrite drop_app_length.
Qed.

Lemma head_of_other m m' a d : m ≠ m' → head_of m' (cbor_head m a ++ d) = None.
Proof.
  intros Hm. unfold head_of. destruct (head_first m a) as (k & rest & -> & Hk). simpl.
  rewrite major_of_head by lia. by rewrite (proj2 (N.eqb_neq m m')).
Qed.

Lemma head_of_suffix m d n d' : head_of m d = Some (n, d') → d' `suffix_of` d.
Proof.
  unfold head_of. destruct d as [| i d]; [done |].
  destruct (_ =? _)%N; [| done]. destruct (read_head _ _) as [[a next] |]; [| done].
  intros [= _ <-]. exists (take next (i :: d)). by rewrite take_drop.
Qed.

Lemma split_at_app l d : split_at (N.of_nat (length l)) (l ++ d) = Some (l, d).
Proof.
  unfold split_at. rewrite length_app, (proj2 (N.ltb_ge _ _)) by lia.
  by rewrite Nat2N.id, take_app_length, drop_app_length.
Qed.

Lemma split_at_Some n d l d' : split_at n d = Some (l, d') → d = l ++ d'.
Proof.
  unfold split_at. destruct (_ <? _)%N; [done |]. intros [= <- <-]. by rewrite take_drop.
Qed.

Lemma ref_datatype_head m a d :
  (m < 6)%N →
  ref_datatype (cbor_head m a ++ d)
  = Some match m with
         | 0 | 1 => TyInt | 2 => TyBytes | 3 => TyString | 4 => TyArray | _ => TyMap
         end%N.
Proof.
  intros Hm. destruct (head_first m a) as (k & rest & -> & Hk). unfold ref_datatype. cbn [app].
  rewrite major_of_head, info_of_head by lia. rewrite (proj2 (N.eqb_neq k 31)) by lia.
  assert (m = 0 ∨ m = 1 ∨ m = 2 ∨ m = 3 ∨ m = 4 ∨ m = 5)%N as Hcases by lia.
  by destruct Hcases as [-> | [-> | [-> | [-> | [-> | ->]]]]].
Qed.

Lemma from_utf8_Some l s : is_bytes l → from_utf8 l = Some s ↔ utf8 s ∧ bytes s = l.
Proof.
  intros Hl. unfold from_utf8, utf8. destruct (is_utf8 l) eqn:E; split; try done.
  - intros [= <-]. by rewrite bytes_of_bytes.
  - intros [_ <-]. by rewrite of_bytes_bytes.
  - intros [H <-]. congruence.
Qed.

Lemma ref_i64_int z d : is_i64 z → ref_i64 (cbor_encode (int_item z) ++ d) = Some (z, d).
Proof.
  unfold ref_i64, int_item. intros Hz. unfold_ints. destruct (Z.leb_spec 0 z); cbn [cbor_encode].
  - rewrite head_of_head by (done || (unfold u64; lia)).
    rewrite (proj2 (N.leb_le _ _)) by lia. by rewrite Z2N.id.
  - rewrite head_of_other, head_of_head by (done || (unfold u64; lia)).
    rewrite (proj2 (N.leb_le _ _)) by lia. do 2 f_equal. lia.
Qed.

Lemma ref_i64_Some d z d' : ref_i64 d = Some (z, d') → is_i64 z ∧ d' `suffix_of` d.
Proof.
  unfold ref_i64. unfold_ints.
  destruct (head_of 0 d) as [[n d1] |] eqn:E0.
  - destruct (N.leb_spec n 9223372036854775807); [| done]. intros [= <- <-].
    split; [lia | by eapply head_of_suffix].
  - destruct (head_of 1 d) as [[n d1] |] eqn:E1; [| done].
    destruct (N.leb_spec n 9223372036854775807); [| done]. intros [= <- <-].
    split; [lia | by eapply head_of_suffix].
Qed.

#[export] Instance rfc8949_laws : @MinicborLaws rfc8949.
Proof.
  split; cbn [enc_map enc_array enc_tag enc_i64 enc_u64 enc_str enc_bytes enc_null datatype dec_i64
    dec_bytes dec_str dec_map dec_array dec_tag dec_null rfc8949]; try done; unfold len64.
  - intros z d Hz. exists TyInt. unfold int_item.
    destruct (0 <=? z); cbn [cbor_encode]; by rewrite ref_datatype_head.
  - intros l d Hl. cbn [cbor_encode]. by rewrite <- app_assoc, ref_datatype_head.
  - intros s d Hs. cbn [cbor_encode]. by rewrite <- app_assoc, ref_datatype_head.
  - intros n d _. by rewrite ref_datatype_head.
  - intros n d _. by rewrite ref_datatype_head.
  - apply ref_i64_int.
  - intros l d Hl. unfold ref_bytes. cbn [cbor_encode]. rewrite <- app_assoc, head_of_head by done.
    apply split_at_app.
  - intros s d Hl Hs. unfold ref_str. cbn [cbor_encode].
    rewrite <- app_assoc, head_of_head by done. simpl. rewrite split_at_app. simpl.
    unfold from_utf8. by rewrite Hs, of_bytes_bytes.
  - intros n d Hn. unfold ref_len. by rewrite head_of_head.
  - intros n d Hn. unfold ref_len. by rewrite head_of_head.
  - intros n d Hn. by rewrite head_of_head.
  - apply ref_i64_Some.
  - intros d l d' H. unfold ref_bytes in H. apply bind_Some in H as ([n d1] & Hh & Hs).
    apply split_at_Some in Hs as ->. by eapply head_of_suffix.
  - intros d s d' Hd H. unfold ref_str in H. apply bind_Some in H as ([n d1] & Hh & H).
    apply bind_Some in H as ([l d2] & Hs & H). apply bind_Some in H as (s' & Hu & [= -> ->]).
    apply head_of_suffix in Hh as Hsuf. apply split_at_Some in Hs as ->.
    assert (is_bytes l) as Hl.
    { destruct Hsuf as [p ->]. unfold is_bytes in *. rewrite !Forall_app in Hd. tauto. }
    apply from_utf8_Some in Hu as [Hu <-]; done.
  - intros d n d' H. unfold ref_len in H. apply bind_Some in H as ([n' d1] & Hh & [= <- <-]).
    by eapply head_of_suffix.
  - intros d n d' H. unfold ref_len in H. apply bind_Some in H as ([n' d1] & Hh & [= <- <-]).
    by eapply head_of_suffix.
  - intros d n d' H. by eapply head_of_suffix.
Qed.

(** ** Maps as lists of labelled items *)

Definition entry_items (es : list (Z * item)) : list item :=
  flat_map (λ '(l, x), [int_item l; x]) es.

Definition map_item (es : list (Z * item)) : item := Map_ (entry_items es).

Definition entries_bytes (es : list (Z * item)) : bytes_ :=
  flat_map (λ '(l, x), cbor_encode (int_item l) ++ cbor_encode x) es.

(** An entry that is there when its field is. *)
Definition opt_entry {A} (l : Z) (o : option A) (f : A → item) : list (Z * item) :=
  match o with Some a => [(l, f a)] | None => [] end.

Definition labels (es : list (Z * item)) : list Z := map fst es.

(** Labels ascend in the canonical order. *)
Definition before (a b : Z) : Prop := cmp (canonical_sort_key a) (canonical_sort_key b) = Lt.
Definition ordered (ls : list Z) : Prop := Sorted.StronglySorted before ls.

Lemma encode_tag t x : cbor_encode (Tag t x) = cbor_head 6 t ++ cbor_encode x.
Proof. done. Qed.

Lemma encode_arr l :
  cbor_encode (Arr l) = cbor_head 4 (N.of_nat (length l)) ++ flat_map cbor_encode l.
Proof. done. Qed.

Lemma length_entry_items es : length (entry_items es) = (2 * length es)%nat.
Proof.
  induction es as [| [l x] es IH]; [done |].
  change (entry_items ((l, x) :: es)) with (int_item l :: x :: entry_items es). simpl. lia.
Qed.

Lemma encode_entry_items es : flat_map cbor_encode (entry_items es) = entries_bytes es.
Proof.
  induction es as [| [l x] es IH]; [done |].
  change (entry_items ((l, x) :: es)) with (int_item l :: x :: entry_items es). simpl.
  by rewrite IH, <- app_assoc.
Qed.

Lemma encode_map_item es :
  cbor_encode (map_item es) = cbor_head 5 (N.of_nat (length es)) ++ entries_bytes es.
Proof.
  unfold map_item. cbn [cbor_encode]. rewrite encode_entry_items, length_entry_items.
  do 2 f_equal. replace (N.of_nat (2 * length es)) with (N.of_nat (length es) * 2)%N by lia.
  by rewrite N.div_mul.
Qed.

Lemma entries_bytes_cons l x es :
  entries_bytes ((l, x) :: es) = cbor_encode (int_item l) ++ cbor_encode x ++ entries_bytes es.
Proof. unfold entries_bytes. simpl. by rewrite app_assoc. Qed.

Lemma entries_bytes_one l x :
  entries_bytes [(l, x)] = cbor_encode (int_item l) ++ cbor_encode x.
Proof. rewrite entries_bytes_cons. simpl. by rewrite app_nil_r. Qed.

Lemma entries_bytes_app es1 es2 : entries_bytes (es1 ++ es2) = entries_bytes es1 ++ entries_bytes es2.
Proof. apply flat_map_app. Qed.

Lemma labels_app es1 es2 : labels (es1 ++ es2) = labels es1 ++ labels es2.
Proof. apply map_app. Qed.

Lemma labels_opt_entry {A} l (o : option A) f : labels (opt_entry l o f) = push_if (is_some o) l.
Proof. by destruct o. Qed.

Lemma length_opt_entry {A} l (o : option A) f :
  length (opt_entry l o f) = N.to_nat (u64_from (is_some o)).
Proof. by destruct o. Qed.

Lemma push_if_sublist b l : push_if b l `sublist_of` [l].
Proof. destruct b; [done | apply sublist_nil_l]. Qed.

Lemma ordered_sublist ls ls' : ls `sublist_of` ls' → ordered ls' → ordered ls.
Proof.
  unfold ordered. induction 1 as [| x l1 l2 Hs IH | x l1 l2 Hs IH]; intros Ho; [done | |];
    apply Sorted.StronglySorted_inv in Ho as [Ho Hx]; [| by apply IH].
  constructor; [by apply IH |]. rewrite list.Forall_forall in *. intros y Hy. apply Hx.
  by eapply elem_of_sublist.
Qed.

Lemma Forall_sublist {A} (P : A → Prop) l l' : l `sublist_of` l' → Forall P l' → Forall P l.
Proof. rewrite !list.Forall_forall. intros Hs H x Hx. apply H. by eapply elem_of_sublist. Qed.

(** ** The shape of an item, without its length bounds *)

Fixpoint item_shape (x : item) : Prop :=
  match x with
  | UInt n | NInt n => u64 n
  | ByteStr l | TextStr l => is_bytes l
  | Arr l => fold_right (λ y P, item_shape y ∧ P) True l
  | Map_ l => Nat.Even (length l) ∧ fold_right (λ y P, item_shape y ∧ P) True l
  | Tag t x => u64 t ∧ item_shape x
  | Simple v => (v < 24 ∨ 32 ≤ v < 256)%N
  | Float l => is_bytes l ∧ (length l = 2 ∨ length l = 4 ∨ length l = 8)%nat
  end.

Lemma items_shape_Forall l : fold_right (λ y P, item_shape y ∧ P) True l ↔ Forall item_shape l.
Proof. induction l as [| x l IH]; simpl; [by split |]. rewrite Forall_cons_iff, IH. done. Qed.

Lemma encode_child_length x l :
  x ∈ l → (length (cbor_encode x) <= length (flat_map cbor_encode l))%nat.
Proof.
  intros Hx. induction l as [| y l IH]; [by apply not_elem_of_nil in Hx |].
  simpl. rewrite length_app. apply elem_of_cons in Hx as [-> | Hx]; [lia |].
  specialize (IH Hx). lia.
Qed.

(** Short enough encodings have no length overflow. *)
Lemma item_shape_wf x : item_shape x → len64 (cbor_encode x) → item_wf x.
Proof.
  assert (∀ m l, Forall (λ x, item_shape x → len64 (cbor_encode x) → item_wf x) l →
            len64 (cbor_head m (N.of_nat (length l)) ++ flat_map cbor_encode l) ∨
            len64 (cbor_head m (N.of_nat (length l) / 2) ++ flat_map cbor_encode l) →
            Forall item_shape l →
            u64 (N.of_nat (length l)) ∧ fold_right (λ y P, item_wf y ∧ P) True l) as Hl.
  { intros m l IH Hlen Hs. rewrite items_wf_Forall. unfold len64, u64 in *.
    pose proof (length_flat_map_encode l). rewrite !length_app in Hlen.
    split; [lia |]. rewrite list.Forall_forall in *. intros y Hy. apply IH; [done | by apply Hs |].
    pose proof (encode_child_length y l Hy). lia. }
  induction x as [n | n | l | l | l IH | l IH | t x IH | v | l] using item_nested_ind;
    simpl; try tauto; try (unfold len64, u64; rewrite length_app; lia).
  - unfold len64, u64. rewrite length_app. intros. split; [done | lia].
  - unfold len64, u64. rewrite length_app. intros. split; [done | lia].
  - rewrite items_shape_Forall. intros. apply (Hl 4%N l); tauto.
  - rewrite items_shape_Forall. intros [He Hs] Hlen.
    destruct (Hl 5%N l) as [H1 H2]; tauto.
  - unfold len64, u64 in *. rewrite length_app. intros [Ht Hx] Hlen. split; [done |].
    apply IH; [done | lia].
Qed.

Lemma int_item_shape z : is_i64 z → item_shape (int_item z).
Proof. unfold int_item. unfold_ints. destruct (Z.leb_spec 0 z); simpl; unfold u64; lia. Qed.

Lemma map_item_shape es :
  Forall is_i64 (labels es) → Forall item_shape (map snd es) → item_shape (map_item es).
Proof.
  intros Hl Hx. unfold map_item. cbn [item_shape]. rewrite length_entry_items, items_shape_Forall.
  split; [by eexists |]. induction es as [| [l x] es IH]; simpl; [constructor |].
  simpl in *. rewrite Forall_cons_iff in Hl, Hx. destruct Hl, Hx.
  constructor; [by apply int_item_shape |]. constructor; [done | by apply IH].
Qed.

Lemma in_range_byte lo hi b : in_range lo hi b = true → (hi < 256)%N → is_byte b.
Proof. unfold in_range, is_byte. intros H ?. bool_facts. lia. Qed.

Lemma is_utf8_is_bytes l : is_utf8 l = true → is_bytes l.
Proof.
  unfold is_bytes. remember (length l) as n eqn:Hn. revert l Hn.
  induction n as [n IH] using lt_wf_ind; intros l ->.
  assert (∀ l', (length l' < length l)%nat → is_utf8 l' = true → Forall is_byte l') as Hl by eauto.
  clear IH. destruct l as [| b0 l1]; [constructor |]. cbn [is_utf8]. simpl in Hl.
  destruct (N.ltb_spec b0 128); [constructor; [unfold is_byte; lia | apply Hl; [lia | done]] |].
  destruct (in_range 194 223 b0) eqn:E2; [| destruct (in_range 224 239 b0) eqn:E3;
    [| destruct (in_range 240 244 b0) eqn:E4; [| done]]].
  all: repeat (destruct l1 as [| ? l1]; [done |]); intros Hu; bool_facts;
    repeat (apply Forall_cons_iff; split; [by eapply in_range_byte; [eassumption | repeat case_match] |]);
    apply Hl; [simpl; lia | done].
Qed.
