(* ===== verification/CoseCodecProofs.v ===== *)
(** * The codec is exact

    The strict decoders of [CoseCodec] accept exactly the encoder's output for
    well-formed messages, and return the message it encodes.  Every header is
    described by its list of labelled items; one lemma on [for_labels] then
    serves all the map loops of the decoder. *)

From Stdlib Require Sorted.
From S2P Require Import Prelude RustStr Bytes BTreeMap CoseTypes Cbor CoseCodec CoseCbor.

Local Open Scope Z_scope.

#[local] Arguments cbor_encode : simpl never.
#[local] Arguments entries_bytes : simpl never.
#[local] Arguments int_item : simpl never.

(** ** Reading back what was written *)

Section reads.
Context `{HM : Minicbor} {HL : MinicborLaws} `{HP : Primitives}.

Lemma dt_int z d : is_i64 z → ∃ t, dt (cbor_encode (int_item z) ++ d) = Ok t ∧ is_int t = true.
Proof.
  intros Hz. destruct (datatype_i64 z d Hz) as (t & Ht & Hi). exists t.
  unfold dt. rewrite <- enc_i64_item, Ht. done.
Qed.

Lemma dec_int z d : is_i64 z → dec_i64 (cbor_encode (int_item z) ++ d) = Some (z, d).
Proof. intros. rewrite <- enc_i64_item. by apply dec_enc_i64. Qed.

Lemma read_label_item z d : is_i64 z → read_label (cbor_encode (int_item z) ++ d) = Ok (z, d).
Proof.
  intros Hz. unfold read_label. destruct (dt_int z d Hz) as (t & -> & Ht).
  rewrite dec_int by done. by destruct t.
Qed.

Lemma read_int_item z d l : is_i64 z → read_int (cbor_encode (int_item z) ++ d) l = Ok (z, d).
Proof.
  intros Hz. unfold read_int. destruct (dt_int z d Hz) as (t & -> & Ht).
  by rewrite dec_int, Ht by done.
Qed.

Lemma read_time_item z d l : is_i64 z → read_time (cbor_encode (int_item z) ++ d) l = Ok (z, d).
Proof.
  intros Hz. unfold read_time. destruct (dt_int z d Hz) as (t & -> & Ht).
  rewrite dec_int by done. by destruct t.
Qed.

Lemma dt_bytes x d : len64 x → dt (cbor_encode (ByteStr x) ++ d) = Ok TyBytes.
Proof. intros. unfold dt. by rewrite <- enc_bytes_item, datatype_bytes. Qed.

Lemma dec_bytes_item x d : len64 x → dec_bytes (cbor_encode (ByteStr x) ++ d) = Some (x, d).
Proof. intros. by rewrite <- enc_bytes_item, dec_enc_bytes. Qed.

Lemma read_bytes_item x d l : len64 x → read_bytes (cbor_encode (ByteStr x) ++ d) l = Ok (x, d).
Proof. intros. unfold read_bytes. by rewrite dt_bytes, dec_bytes_item. Qed.

Lemma expect_bytes_item x d : len64 x → expect_bytes (cbor_encode (ByteStr x) ++ d) = Ok (x, d).
Proof. intros. unfold expect_bytes. by rewrite dt_bytes, dec_bytes_item. Qed.

Lemma read_payload_item x d : len64 x → read_payload (cbor_encode (ByteStr x) ++ d) = Ok (x, d).
Proof. intros. unfold read_payload. by rewrite dt_bytes, dec_bytes_item. Qed.

Lemma read_str_item s d l :
  len64 (bytes s) → utf8 s → read_str (cbor_encode (TextStr (bytes s)) ++ d) l = Ok (s, d).
Proof.
  intros. unfold read_str, dt. by rewrite <- enc_str_item, datatype_str, dec_enc_str.
Qed.

Lemma read_array_len_head n d : u64 n → read_array_len (cbor_head 4 n ++ d) = Ok (n, d).
Proof.
  intros. unfold read_array_len, dt. by rewrite <- enc_array_head, datatype_array, dec_enc_array.
Qed.

Lemma dec_map_head n d : u64 n → dec_map (cbor_head 5 n ++ d) = Some (Some n, d).
Proof. intros. by rewrite <- enc_map_head, dec_enc_map. Qed.

Lemma dt_map_head n d : u64 n → dt (cbor_head 5 n ++ d) = Ok TyMap.
Proof. intros. unfold dt. by rewrite <- enc_map_head, datatype_map. Qed.

Lemma read_map_len_head n d : u64 n → read_map_len (cbor_head 5 n ++ d) = Ok (n, d).
Proof. intros. unfold read_map_len. by rewrite dt_map_head, dec_map_head. Qed.

Lemma read_n_items {A} (read : bytes_ → result DecodeError (A * bytes_)) (f : A → bytes_) xs d :
  (∀ x d, x ∈ xs → read (f x ++ d) = Ok (x, d)) →
  read_n read (N.of_nat (length xs)) (flat_map f xs ++ d) = Ok (xs, d).
Proof.
  intros Hread. unfold read_n. rewrite Nat2N.id.
  assert (∀ pre, for_n (length xs)
      (λ '(out, d0), let? (x, d1) := read d0 in Ok (out ++ [x], d1)) (pre, flat_map f xs ++ d)
      = Ok (pre ++ xs, d)) as Hgen; [| by rewrite Hgen].
  induction xs as [| x xs IH]; intros pre; simpl; [by rewrite app_nil_r |].
  rewrite <- app_assoc, Hread by constructor.
  rewrite IH; [by rewrite <- app_assoc |]. intros. apply Hread. by constructor.
Qed.

Lemma len64_bytes x : len64 (cbor_encode (ByteStr x)) → len64 x.
Proof. unfold len64, u64, cbor_encode. rewrite length_app. lia. Qed.

Lemma len64_text x : len64 (cbor_encode (TextStr x)) → len64 x.
Proof. unfold len64, u64, cbor_encode. rewrite length_app. lia. Qed.

Lemma length_entries_bytes es : (length es <= length (entries_bytes es))%nat.
Proof.
  induction es as [| [l x] es IH]; [simpl; lia |]. rewrite entries_bytes_cons, !length_app.
  pose proof (encode_not_empty x). simpl. lia.
Qed.

Lemma len64_map es : len64 (cbor_encode (map_item es)) → len64 es ∧ len64 (entries_bytes es).
Proof.
  rewrite encode_map_item. unfold len64, u64. rewrite length_app.
  pose proof (length_entries_bytes es). lia.
Qed.

Lemma len64_arr l : len64 (cbor_encode (Arr l)) → len64 l ∧ Forall (λ x, len64 (cbor_encode x)) l.
Proof.
  rewrite encode_arr. unfold len64, u64. rewrite length_app. intros Hl.
  pose proof (length_flat_map_encode l). split; [lia |]. apply list.Forall_forall. intros x Hx.
  pose proof (encode_child_length x l Hx). lia.
Qed.

(** *** What a successful read says *)

Lemma is_bytes_suffix (d d' : bytes_) : is_bytes d → d' `suffix_of` d → is_bytes d'.
Proof. intros Hd [p ->]. unfold is_bytes in *. apply Forall_app in Hd. tauto. Qed.

Lemma app_suffix (x d' d : bytes_) : (x ++ d') `suffix_of` d → d' `suffix_of` d.
Proof. intros [p ->]. exists (p ++ x). by rewrite app_assoc. Qed.

Lemma read_label_Ok d l d' : read_label d = Ok (l, d') → is_i64 l ∧ d' `suffix_of` d.
Proof. unfold read_label. intros H. inv_ok H. by apply dec_i64_i64, (ok_or_Ok Malformed). Qed.

Lemma read_int_Ok d k l d' : read_int d k = Ok (l, d') → is_i64 l ∧ d' `suffix_of` d.
Proof. unfold read_int. intros H. inv_ok H. by apply dec_i64_i64, (ok_or_Ok Malformed). Qed.

Lemma read_time_Ok d k l d' : read_time d k = Ok (l, d') → is_i64 l ∧ d' `suffix_of` d.
Proof. unfold read_time. intros H. inv_ok H. by apply dec_i64_i64, (ok_or_Ok Malformed). Qed.

Lemma read_bytes_Ok d k x d' :
  is_bytes d → read_bytes d k = Ok (x, d') → is_bytes x ∧ d' `suffix_of` d.
Proof.
  unfold read_bytes. intros Hd H. inv_ok H. apply ok_or_Ok, dec_bytes_slice in H.
  split; [| by eapply app_suffix]. eapply is_bytes_suffix in H; [| done].
  unfold is_bytes in *. apply Forall_app in H. tauto.
Qed.

Lemma read_str_Ok d k s d' :
  is_bytes d → read_str d k = Ok (s, d') → utf8 s ∧ d' `suffix_of` d.
Proof.
  unfold read_str. intros Hd H. inv_ok H. apply ok_or_Ok, dec_str_slice in H as [Hs H]; [| done].
  split; [done | by eapply app_suffix].
Qed.

Lemma read_map_len_Ok d n d' : read_map_len d = Ok (n, d') → d' `suffix_of` d.
Proof.
  unfold read_map_len. intros H. inv_reads H.
  by eapply dec_map_suffix, (ok_or_Ok Malformed).
Qed.

Lemma read_array_len_Ok d n d' : read_array_len d = Ok (n, d') → d' `suffix_of` d.
Proof.
  unfold read_array_len. intros H. inv_reads H.
  by eapply dec_array_suffix, (ok_or_Ok Malformed).
Qed.

Lemma read_n_Ok {A} (P : A → Prop) (read : bytes_ → result DecodeError (A * bytes_)) n d xs d' :
  (∀ d x d', is_bytes d → read d = Ok (x, d') → P x ∧ d' `suffix_of` d) →
  is_bytes d → read_n read n d = Ok (xs, d') → Forall P xs ∧ d' `suffix_of` d.
Proof.
  intros Hread Hd H. unfold read_n in H.
  apply (for_n_inv (λ '(out, r), Forall P out ∧ r `suffix_of` d)) in H; [done | | done].
  intros [out r] [out' r'] [Ho Hr] Hb. destruct (read r) as [[x r1] |] eqn:Hx; [| done].
  simplify_eq. apply Hread in Hx as [Hx Hr1]; [| by eapply is_bytes_suffix].
  split; [apply Forall_app; by repeat constructor | by etrans].
Qed.

(** *** The map loop *)

Section steps.
Context {S : Type} (entry : Z → S → bytes_ → result DecodeError (S * bytes_)).

(** The entries turn the loop's variables [st] into [st']. *)
Inductive steps : S → list (Z * item) → S → Prop :=
| steps_nil st : steps st [] st
| steps_cons st l x es st1 st2 :
    (len64 (cbor_encode x) → ∀ d, entry l st (cbor_encode x ++ d) = Ok (st1, d)) →
    steps st1 es st2 → steps st ((l, x) :: es) st2.

Lemma steps_app st es1 es2 st1 st2 :
  steps st es1 st1 → steps st1 es2 st2 → steps st (es1 ++ es2) st2.
Proof. induction 1; simpl; [done |]. intros. econstructor; eauto. Qed.

Lemma steps_one st l x st' :
  (len64 (cbor_encode x) → ∀ d, entry l st (cbor_encode x ++ d) = Ok (st', d)) →
  steps st [(l, x)] st'.
Proof. intros. econstructor; [done | constructor]. Qed.

(** An optional entry assigns its field. *)
Lemma steps_opt {A} (set : option A → S → S) st l (o : option A) f :
  (∀ a, o = Some a → len64 (cbor_encode (f a)) → ∀ d,
     entry l st (cbor_encode (f a) ++ d) = Ok (set (Some a) st, d)) →
  set None st = st → steps st (opt_entry l o f) (set o st).
Proof.
  intros Hs Hn. destruct o as [a |]; simpl; [apply steps_one; eauto |].
  rewrite Hn. constructor.
Qed.

Lemma steps_to st es st1 st2 : steps st es st1 → st1 = st2 → steps st es st2.
Proof. by intros ? ->. Qed.

Lemma for_labels_steps es st st' d :
  ordered (labels es) → Forall is_i64 (labels es) → len64 (entries_bytes es) → steps st es st' →
  for_labels (N.of_nat (length es)) entry st (entries_bytes es ++ d) = Ok (st', d).
Proof.
  intros Ho Hi Hlen Hs. unfold for_labels. rewrite Nat2N.id.
  match goal with |- context [for_n _ ?body _] => set (loop := body) end.
  assert (∀ prev, (∀ p, prev = Some p → Forall (before p) (labels es)) →
    ∃ prev', for_n (length es) loop (prev, st, entries_bytes es ++ d) = Ok (prev', st', d))
    as Hgen; [| by destruct (Hgen None) as [? ->]].
  revert Ho Hi Hlen.
  induction Hs as [st | st l x es st1 st2 He Hs IH]; simpl; intros Ho Hi Hlen prev Hp.
  { by eexists. }
  apply Sorted.StronglySorted_inv in Ho as [Ho Hl]. apply Forall_cons_iff in Hi as [Hl64 Hi].
  rewrite entries_bytes_cons, <- !app_assoc, read_label_item by done.
  rewrite entries_bytes_cons in Hlen. unfold len64, u64 in *. rewrite !length_app in Hlen.
  assert (check_order prev l = Ok tt) as ->.
  { destruct prev as [p |]; [| done]. unfold check_order.
    specialize (Hp p eq_refl). apply Forall_cons_iff in Hp as [Hb _]. unfold before in Hb.
    by rewrite Hb. }
  rewrite He by lia. apply IH; [done | done | lia |]. by intros p [= <-].
Qed.

(** What the entries keep, the loop keeps. *)
Lemma for_labels_inv (P : S → Prop) n st d st' d' :
  (∀ l st d st' d', P st → is_bytes d → entry l st d = Ok (st', d') →
     P st' ∧ d' `suffix_of` d) →
  P st → is_bytes d → for_labels n entry st d = Ok (st', d') → P st' ∧ d' `suffix_of` d.
Proof.
  intros Hstep Hst Hd H. unfold for_labels in H.
  match type of H with context [for_n ?n ?body ?st] =>
    destruct (for_n n body st) as [[[prev st1] d1] |] eqn:Hf; [| done] end.
  simplify_eq.
  apply (for_n_inv (λ '(_, s, r), P s ∧ r `suffix_of` d)) in Hf; [done | | done].
  intros [[p s] r] [[p' s'] r'] [Hs Hr] Hb.
  destruct (read_label r) as [[l r1] |] eqn:Hl; [| done].
  destruct (check_order p l); [| done].
  destruct (entry l s r1) as [[s1 r2] |] eqn:He; [| done]. simplify_eq.
  apply read_label_Ok in Hl as [_ Hr1].
  assert (is_bytes r1) as Hb1 by (eapply is_bytes_suffix; [| by etrans]; done).
  apply Hstep in He as [Hs' Hr']; [| done | done].
  split; [done |]. by etrans; [| etrans].
Qed.
End steps.

(** Another loop body that agrees on the labels. *)
Lemma steps_agree {S} (entry entry' : Z → S → bytes_ → result DecodeError (S * bytes_)) st es st' :
  Forall (λ l, ∀ st d, entry' l st d = entry l st d) (labels es) →
  steps entry st es st' → steps entry' st es st'.
Proof.
  intros Ha Hs. induction Hs as [| st l x es st1 st2 He Hs IH]; [constructor |].
  apply Forall_cons_iff in Ha as [Hl Ha]. eapply steps_cons; [| by apply IH].
  intros Hlen d. rewrite Hl. by apply He.
Qed.
End reads.

(** ** Headers as entries *)

Definition str_item (s : string) : item := TextStr (bytes s).
Definition label_array_item (ls : list Z) : item := Arr (map int_item ls).

Definition cwt_entries (c : Claims) : list (Z * item) :=
  opt_entry CWT_ISS (issuer c) (λ s, str_item (subject_str s))
  ++ opt_entry CWT_AUD (audience c) (λ s, str_item (subject_str s))
  ++ opt_entry CWT_EXP (expires_at c) int_item
  ++ [(CWT_IAT, int_item (issued_at c)); (CWT_CTI, ByteStr (message_id_bytes (message_id c)))].

Definition jwts_entry (h : ProtectedHeaders) : list (Z * item) :=
  if has_jwt (Some h) then [(SIGNER_CERTIFICATES_JWT, Arr (map str_item (signer_certificates_jwt h)))]
  else [].

Definition key_entry (h : ProtectedHeaders) : list (Z * item) :=
  opt_entry SIGNER_PUBLIC_KEY_COSE (signer_public_key_cose h) ByteStr.

Definition target_entry (h : ProtectedHeaders) : list (Z * item) :=
  opt_entry OPERATION_TARGET_KEY_ID (operation_target_key_id h) (λ k, ByteStr (key_id_bytes k)).

Definition basil_entries (c : Claims) : list (Z * item) :=
  opt_entry IN_REPLY_TO (in_reply_to c) (λ v, ByteStr (message_id_bytes v))
  ++ opt_entry REQUEST_HASH (request_hash c) (λ v, ByteStr (request_hash_bytes v))
  ++ opt_entry SENDER_KEY_ID (sender_key_id c) (λ v, ByteStr (key_id_bytes v))
  ++ opt_entry RESPONSE_KEY_ID (response_key_id c) (λ v, TextStr (key_id_bytes v))
  ++ opt_entry RESPONSE_SUBJECT (response_subject c) (λ v, str_item (response_subject_str v)).

Definition claims_entries (c : option Claims) : list (Z * item) :=
  match c with
  | Some c => (HDR_CWT_CLAIMS, map_item (cwt_entries c)) :: basil_entries c
  | None => []
  end.

Section tail_entries.
Context `{HP : Primitives}.

Definition tail_entries (ct : ContentType) (c : option Claims) (h : ProtectedHeaders)
    (kid : option KeyId) : list (Z * item) :=
  [(HDR_CRIT, label_array_item (crit_labels c (Some h)));
   (HDR_CONTENT_TYPE, str_item (content_type_str ct))]
  ++ opt_entry HDR_KID kid (λ k, ByteStr (key_id_bytes k))
  ++ claims_entries c
  ++ jwts_entry h ++ key_entry h
  ++ opt_entry FRESHNESS_CHALLENGE (claim_field c freshness_challenge)
       (λ v, ByteStr (challenge_bytes v))
  ++ opt_entry RESPONSE_PUBLIC_KEY_COSE (claim_field c response_public_key_cose)
       (λ v, ByteStr (to_cose_key_bytes v))
  ++ target_entry h.

Definition bare_entries (a : SignatureAlgorithm) (kid : KeyId) (ct : ContentType)
    (c : option Claims) (h : ProtectedHeaders) : list (Z * item) :=
  (HDR_ALG, int_item (SignatureAlgorithm_codepoint a)) :: tail_entries ct c h (Some kid).

Definition content_entries (a : ContentAlgorithm) (ct : ContentType) (c : option Claims)
    : list (Z * item) :=
  (HDR_ALG, int_item (ContentAlgorithm_codepoint a))
  :: tail_entries ct c ProtectedHeaders_default None.

Definition outer_entries (a : SignatureAlgorithm) (kid : KeyId) (h : ProtectedHeaders)
    : list (Z * item) :=
  [(HDR_ALG, int_item (SignatureAlgorithm_codepoint a))]
  ++ (if headers_is_empty h then []
      else [(HDR_CRIT, label_array_item (protected_header_crit_labels (Some h)))])
  ++ [(HDR_KID, ByteStr (key_id_bytes kid))]
  ++ jwts_entry h ++ key_entry h ++ target_entry h.

Definition recipient_entries (p : KdfParties) : list (Z * item) :=
  [(HDR_ALG, int_item (KeyAgreementAlgorithm_codepoint EcdhEsHkdf256))]
  ++ (match party_labels p with [] => [] | ls => [(HDR_CRIT, label_array_item ls)] end)
  ++ opt_entry HDR_PARTY_U_IDENTITY (party_bytes (kdf_party_u p)) ByteStr
  ++ opt_entry HDR_PARTY_V_IDENTITY (party_bytes (kdf_party_v p)) ByteStr.

Definition sign1_item (protected payload signature : bytes_) : item :=
  Tag TAG_SIGN1 (Arr [ByteStr protected; map_item []; ByteStr payload; ByteStr signature]).

Definition ephemeral_entries (x : bytes_) : list (Z * item) :=
  [(1, int_item 1); (-1, int_item 4); (-2, ByteStr x)].

Definition encrypt_item (a : EncryptAssembly) : item :=
  Tag TAG_ENCRYPT
    (Arr [ByteStr (a_protected a);
          map_item [(HDR_IV, ByteStr (a_iv a))];
          ByteStr (a_ciphertext a);
          Arr [Arr [ByteStr (a_recipient_protected a);
                    map_item [(HDR_KID, ByteStr (key_id_bytes (a_recipient_kid a)));
                              (HDR_EPHEMERAL_KEY, map_item (ephemeral_entries (a_ephemeral_x a)))];
                    null_item]]]).
End tail_entries.

(** The response key id is text. *)
Definition response_key_text (c : option Claims) : Prop :=
  ∀ k, claim_field c response_key_id = Some k → is_utf8 (key_id_bytes k) = true.

(** ** What the encoder writes *)

Section encodings.
Context `{HM : Minicbor} {HL : MinicborLaws} `{HP : Primitives}.

Lemma when_some_entry {A} (o : option A) l (f : A → bytes_) (g : A → item) :
  (∀ x, f x = enc_i64 l ++ cbor_encode (g x)) →
  when_some o f = entries_bytes (opt_entry l o g).
Proof.
  intros Hf. destruct o as [x |]; simpl; [| done]. by rewrite Hf, enc_i64_item, entries_bytes_one.
Qed.

Lemma enc_ints ls : flat_map enc_i64 ls = flat_map cbor_encode (map int_item ls).
Proof. induction ls as [| l ls IH]; simpl; [done |]. by rewrite IH, enc_i64_item. Qed.

Lemma enc_strs ss : flat_map enc_str ss = flat_map cbor_encode (map str_item ss).
Proof. induction ss as [| s ss IH]; simpl; [done |]. by rewrite IH, enc_str_item. Qed.

Lemma write_label_array_entry l ls :
  write_label_array l ls = entries_bytes [(l, label_array_item ls)].
Proof.
  unfold write_label_array, label_array_item. simpl.
  by rewrite entries_bytes_one, enc_i64_item, enc_array_head, enc_ints,
    <- (length_map int_item).
Qed.

Lemma write_jwts_entry h :
  (if has_jwt (Some h) then write_jwts h else []) = entries_bytes (jwts_entry h).
Proof.
  unfold jwts_entry. destruct (has_jwt (Some h)); [| done]. unfold write_jwts. simpl.
  by rewrite entries_bytes_one, enc_i64_item, enc_array_head, enc_strs,
    <- (length_map str_item).
Qed.

Lemma write_cwt_map_item c : write_cwt_map c = cbor_encode (map_item (cwt_entries c)).
Proof.
  rewrite encode_map_item. unfold write_cwt_map, cwt_entries.
  rewrite enc_map_head, !entries_bytes_app, !length_app, !length_opt_entry. f_equal.
  - f_equal. simpl. lia.
  - rewrite (when_some_entry _ CWT_ISS _ (λ s, str_item (subject_str s)))
      by (intros; by rewrite enc_str_item).
    rewrite (when_some_entry _ CWT_AUD _ (λ s, str_item (subject_str s)))
      by (intros; by rewrite enc_str_item).
    rewrite (when_some_entry _ CWT_EXP _ int_item) by (intros; by rewrite !enc_i64_item).
    by rewrite entries_bytes_cons, entries_bytes_one, !enc_i64_item, enc_bytes_item.
Qed.

(** The optional claims, one rewrite each. *)
Ltac entry_of l g :=
  rewrite (when_some_entry _ l _ g) by (intros; by rewrite ?enc_bytes_item, ?enc_str_item).

Lemma response_kid_entry (o : option KeyId) :
  (match o with
   | Some v =>
       let? name := ok_or CodecError (as_catalog_name v) in
       Ok (enc_i64 RESPONSE_KEY_ID ++ enc_str name)
   | None => Ok []
   end)
  = if from_option (λ k, is_utf8 (key_id_bytes k)) true o
    then Ok (entries_bytes (opt_entry RESPONSE_KEY_ID o (λ v, TextStr (key_id_bytes v))))
    else Err CodecError.
Proof.
  destruct o as [v |]; [| done]. simpl. unfold as_catalog_name, from_utf8.
  destruct (is_utf8 (key_id_bytes v)) eqn:Hu; [| done]. simpl.
  rewrite enc_i64_item, enc_str_item, bytes_of_bytes, entries_bytes_one; [done |].
  by apply is_utf8_is_bytes.
Qed.

Lemma write_claims_entries c b :
  write_claims c = Ok b ↔
  response_key_text (Some c) ∧ b = entries_bytes (claims_entries (Some c)).
Proof.
  unfold write_claims. rewrite response_kid_entry. unfold response_key_text.
  cbn [claim_field claims_entries]. rewrite entries_bytes_cons. unfold basil_entries.
  rewrite !entries_bytes_app.
  destruct (response_key_id c) as [k |] eqn:Hk; cbn [from_option];
    [destruct (is_utf8 (key_id_bytes k)) eqn:Hu |];
    [| split; [done | intros [Ht _]; specialize (Ht k eq_refl); congruence] |].
  all: entry_of IN_REPLY_TO (λ v, ByteStr (message_id_bytes v));
    entry_of REQUEST_HASH (λ v, ByteStr (request_hash_bytes v));
    entry_of SENDER_KEY_ID (λ v, ByteStr (key_id_bytes v));
    entry_of RESPONSE_SUBJECT (λ v, str_item (response_subject_str v));
    rewrite enc_i64_item, write_cwt_map_item;
    split; [intros [= <-]; split; [by intros ? [= <-] | done] | by intros [_ ->]].
Qed.

Lemma length_push_if b l : length (push_if b l) = N.to_nat (u64_from b).
Proof. by destruct b. Qed.

Lemma length_tail_entries ct c h kid :
  N.of_nat (length (tail_entries ct c h kid))
  = (u64_from (is_some kid) + claims_capable_tail_len c (Some h))%N.
Proof.
  unfold tail_entries, claims_capable_tail_len, target_entry, key_entry, has_key, has_target.
  rewrite !length_app, !length_opt_entry.
  assert (length (jwts_entry h) = N.to_nat (u64_from (has_jwt (Some h)))) as ->.
  { unfold jwts_entry. by destruct (has_jwt _). }
  destruct c as [c |]; cbn [claims_entries claim_field length].
  - unfold basil_entries, basil_labels. rewrite !length_app, !length_opt_entry, !length_push_if. lia.
  - cbn [u64_from is_some]. lia.
Qed.

Lemma write_tail_entries ct c h kid b :
  write_claims_capable_tail ct c (Some h) kid = Ok b ↔
  response_key_text c ∧ b = entries_bytes (tail_entries ct c h kid).
Proof.
  unfold write_claims_capable_tail, tail_entries, key_entry, target_entry.
  rewrite !entries_bytes_app, write_jwts_entry. cbn [header_field].
  entry_of HDR_KID (λ v, ByteStr (key_id_bytes v)).
  entry_of SIGNER_PUBLIC_KEY_COSE ByteStr.
  entry_of FRESHNESS_CHALLENGE (λ v, ByteStr (challenge_bytes v)).
  entry_of RESPONSE_PUBLIC_KEY_COSE (λ v, ByteStr (to_cose_key_bytes v)).
  entry_of OPERATION_TARGET_KEY_ID (λ v, ByteStr (key_id_bytes v)).
  rewrite write_label_array_entry, enc_i64_item, enc_str_item.
  rewrite entries_bytes_one, entries_bytes_cons, entries_bytes_one, <- !app_assoc.
  destruct c as [c |].
  - destruct (write_claims c) as [w |] eqn:Hw.
    + apply write_claims_entries in Hw as [Ht ->]. simpl. rewrite <- !app_assoc.
      split; [by intros [= <-] | by intros [_ ->]].
    + split; [done |]. intros [Ht _].
      assert (write_claims c = Ok (entries_bytes (claims_entries (Some c)))) as Hc
        by (by apply write_claims_entries). congruence.
  - split; [by intros [= <-] | by intros [_ ->]].
Qed.

Lemma encode_bare_item a kid ct c h b :
  encode_sign1_protected_bare_with_headers a kid ct c (Some h) = Ok b ↔
  binding_broken c = false ∧ response_key_text c ∧
  b = cbor_encode (map_item (bare_entries a kid ct c h)).
Proof.
  unfold encode_sign1_protected_bare_with_headers.
  destruct (binding_broken c); [split; [done | by intros [? _]] |].
  assert (∀ w, w = entries_bytes (tail_entries ct c h (Some kid)) →
    enc_map (2 + claims_capable_tail_len c (Some h)) ++ enc_i64 HDR_ALG
      ++ enc_i64 (SignatureAlgorithm_codepoint a) ++ w
    = cbor_encode (map_item (bare_entries a kid ct c h))) as Hw.
  { intros w ->. rewrite encode_map_item, enc_map_head, !enc_i64_item. unfold bare_entries.
    rewrite entries_bytes_cons. do 2 f_equal. cbn [length]. rewrite Nat2N.inj_succ,
      length_tail_entries. cbn [is_some u64_from]. lia. }
  destruct (write_claims_capable_tail ct c (Some h) (Some kid)) as [w |] eqn:E.
  - apply write_tail_entries in E as [Ht E]. rewrite (Hw w E).
    split; [by intros [= <-] | by intros (_ & _ & ->)].
  - split; [done |]. intros (_ & Ht & _).
    by rewrite (proj2 (write_tail_entries ct c h (Some kid) _) (conj Ht eq_refl)) in E.
Qed.

Lemma encode_content_item a ct c b :
  encode_encrypt_protected a ct c = Ok b ↔
  binding_broken c = false ∧ response_key_text c ∧
  b = cbor_encode (map_item (content_entries a ct c)).
Proof.
  unfold encode_encrypt_protected.
  change (write_claims_capable_tail ct c None None)
    with (write_claims_capable_tail ct c (Some ProtectedHeaders_default) None).
  change (claims_capable_tail_len c None)
    with (claims_capable_tail_len c (Some ProtectedHeaders_default)).
  set (h := ProtectedHeaders_default).
  destruct (binding_broken c); [split; [done | by intros [? _]] |].
  assert (∀ w, w = entries_bytes (tail_entries ct c h None) →
    enc_map (1 + claims_capable_tail_len c (Some h)) ++ enc_i64 HDR_ALG
      ++ enc_i64 (ContentAlgorithm_codepoint a) ++ w
    = cbor_encode (map_item (content_entries a ct c))) as Hw.
  { intros w ->. rewrite encode_map_item, enc_map_head, !enc_i64_item. unfold content_entries.
    rewrite entries_bytes_cons. do 2 f_equal. cbn [length]. rewrite Nat2N.inj_succ,
      length_tail_entries. cbn [is_some u64_from]. fold h. lia. }
  destruct (write_claims_capable_tail ct c (Some h) None) as [w |] eqn:E.
  - apply write_tail_entries in E as [Ht E]. rewrite (Hw w E).
    split; [by intros [= <-] | by intros (_ & _ & ->)].
  - split; [done |]. intros (_ & Ht & _).
    by rewrite (proj2 (write_tail_entries ct c h None _) (conj Ht eq_refl)) in E.
Qed.

Lemma encode_outer_item a kid h :
  encode_sign1_protected_sealed_outer_with_headers a kid (Some h)
  = Ok (cbor_encode (map_item (outer_entries a kid h))).
Proof.
  unfold encode_sign1_protected_sealed_outer_with_headers. f_equal.
  rewrite encode_map_item, enc_map_head. unfold outer_entries, target_entry, key_entry.
  rewrite !entries_bytes_app, write_jwts_entry, !entries_bytes_one. cbn [header_field].
  entry_of SIGNER_PUBLIC_KEY_COSE ByteStr.
  entry_of OPERATION_TARGET_KEY_ID (λ v, ByteStr (key_id_bytes v)).
  rewrite !enc_i64_item, enc_bytes_item, <- !app_assoc, write_label_array_entry. f_equal.
  - f_equal. rewrite !length_app, !length_opt_entry. unfold has_key, has_target, jwts_entry.
    destruct (headers_is_empty h), (has_jwt (Some h)); simpl; lia.
  - by destruct (headers_is_empty h).
Qed.

Lemma encode_recipient_item p :
  encode_recipient_protected p = Ok (cbor_encode (map_item (recipient_entries p))).
Proof.
  unfold encode_recipient_protected. f_equal.
  rewrite encode_map_item, enc_map_head. unfold recipient_entries.
  rewrite !entries_bytes_app, !entries_bytes_one.
  entry_of HDR_PARTY_U_IDENTITY ByteStr. entry_of HDR_PARTY_V_IDENTITY ByteStr.
  rewrite !enc_i64_item, write_label_array_entry, <- !app_assoc. f_equal.
  - f_equal. rewrite !length_app, !length_opt_entry. unfold party_labels.
    destruct (party_bytes _), (party_bytes _); simpl; lia.
  - by destruct (party_labels p).
Qed.

Lemma assemble_sign1_item protected payload signature :
  assemble_sign1 protected payload signature
  = Ok (cbor_encode (sign1_item protected payload signature)).
Proof.
  unfold assemble_sign1, sign1_item. f_equal.
  rewrite encode_tag, encode_arr. cbn [flat_map]. rewrite encode_map_item, !app_nil_r.
  by rewrite enc_tag_head, enc_array_head, enc_map_head, !enc_bytes_item.
Qed.

Lemma assemble_encrypt_item a : assemble_encrypt a = Ok (cbor_encode (encrypt_item a)).
Proof.
  unfold assemble_encrypt, encrypt_item, ephemeral_entries. f_equal.
  rewrite encode_tag, !encode_arr. cbn [flat_map].
  rewrite !encode_arr. cbn [flat_map]. rewrite !encode_arr. cbn [flat_map].
  rewrite !encode_map_item, !entries_bytes_cons, !encode_map_item, !entries_bytes_cons.
  change (entries_bytes []) with (@nil N). rewrite !app_nil_r, <- !app_assoc.
  by rewrite enc_tag_head, !enc_array_head, !enc_map_head, !enc_i64_item, !enc_bytes_item,
    enc_null_item.
Qed.
End encodings.
