(* ===== verification/CoseStrict.v ===== *)
(** * The strict decoders are exact

    Well-formed messages, the decoders on what the encoder writes, and what
    the decoders accept.  The two together say that [decode_sign1_strict] and
    [decode_encrypt_strict] are the inverse of the encoder, on its image and
    nowhere else. *)

From Stdlib Require Sorted.
From S2P Require Import Prelude RustStr Bytes BTreeMap CoseTypes Cbor CoseCodec CoseCbor.
From S2P Require Import CoseCodecProofs.

Local Open Scope Z_scope.

#[local] Arguments cbor_encode : simpl never.
#[local] Arguments entries_bytes : simpl never.
#[local] Arguments int_item : simpl never.

(** ** Well-formed values: the invariants of the newtypes *)

Definition KeyId_wf (k : KeyId) : Prop :=
  is_bytes (key_id_bytes k) ∧ (1 <= length (key_id_bytes k) <= 128)%nat.

Definition MessageId_wf (m : MessageId) : Prop :=
  is_bytes (message_id_bytes m) ∧ (1 <= length (message_id_bytes m) <= 64)%nat.

Definition Subject_wf (s : Subject) : Prop :=
  utf8 (subject_str s) ∧ is_empty (subject_str s) = false.

Definition ResponseSubject_wf (s : ResponseSubject) : Prop :=
  utf8 (response_subject_str s) ∧ is_empty (response_subject_str s) = false.

Definition ContentType_wf (t : ContentType) : Prop :=
  utf8 (content_type_str t) ∧ ContentType_new (content_type_str t) = Ok t.

Definition RequestHash_wf (h : RequestHash) : Prop :=
  is_bytes (request_hash_bytes h) ∧ length (request_hash_bytes h) = 32%nat.

Definition FreshnessChallenge_wf (c : FreshnessChallenge) : Prop :=
  is_bytes (challenge_bytes c) ∧ length (challenge_bytes c) = 32%nat.

Definition PartyIdentity_wf (p : PartyIdentity) : Prop :=
  ∀ id, party_bytes p = Some id → is_bytes id ∧ id ≠ [].

Definition opt_wf {A} (P : A → Prop) (o : option A) : Prop := from_option P True o.

Definition headers_wf (h : ProtectedHeaders) : Prop :=
  Forall utf8 (signer_certificates_jwt h) ∧ opt_wf is_bytes (signer_public_key_cose h) ∧
  opt_wf KeyId_wf (operation_target_key_id h).

Section wf.
Context `{HP : Primitives}.

Definition ResponseKey_wf (k : X25519ResponsePublicKey) : Prop :=
  is_bytes (response_public k) ∧ length (response_public k) = 32%nat ∧
  from_public_bytes (response_public k) = Ok k.

Record claims_wf (c : Claims) : Prop := {
  wf_issuer : opt_wf Subject_wf (issuer c);
  wf_audience : opt_wf Subject_wf (audience c);
  wf_expires_at : opt_wf is_i64 (expires_at c);
  wf_issued_at : is_i64 (issued_at c);
  wf_message_id : MessageId_wf (message_id c);
  wf_sender_key_id : opt_wf KeyId_wf (sender_key_id c);
  wf_response_key_id :
    opt_wf (λ k, KeyId_wf k ∧ is_utf8 (key_id_bytes k) = true) (response_key_id c);
  wf_response_subject : opt_wf ResponseSubject_wf (response_subject c);
  wf_in_reply_to : opt_wf MessageId_wf (in_reply_to c);
  wf_request_hash : opt_wf RequestHash_wf (request_hash c);
  wf_freshness_challenge : opt_wf FreshnessChallenge_wf (freshness_challenge c);
  wf_response_public_key : opt_wf ResponseKey_wf (response_public_key_cose c);
  wf_binding : response_key_binding_matches c = true;
}.
End wf.

(** The checked constructors accept the bytes of a well-formed value. *)

Lemma KeyId_from_bytes_wf k : KeyId_wf k → KeyId_from_bytes (key_id_bytes k) = Ok k.
Proof.
  intros [_ Hl]. unfold KeyId_from_bytes.
  rewrite (proj2 (Nat.eqb_neq _ _)), (proj2 (Nat.ltb_ge _ _)) by lia. by destruct k.
Qed.

Lemma KeyId_from_text_wf k :
  KeyId_wf k → KeyId_from_text (of_bytes (key_id_bytes k)) = Ok k.
Proof.
  intros Hk. unfold KeyId_from_text. rewrite bytes_of_bytes by apply Hk.
  by apply KeyId_from_bytes_wf.
Qed.

Lemma MessageId_from_bytes_wf m : MessageId_wf m → MessageId_from_bytes (message_id_bytes m) = Ok m.
Proof.
  intros [_ Hl]. unfold MessageId_from_bytes.
  rewrite (proj2 (Nat.eqb_neq _ _)), (proj2 (Nat.ltb_ge _ _)) by lia. by destruct m.
Qed.

Lemma Subject_new_wf s : Subject_wf s → Subject_new (subject_str s) = Ok s.
Proof. intros [_ He]. unfold Subject_new. rewrite He. by destruct s. Qed.

Lemma ResponseSubject_new_wf s :
  ResponseSubject_wf s → ResponseSubject_new (response_subject_str s) = Ok s.
Proof. intros [_ He]. unfold ResponseSubject_new. rewrite He. by destruct s. Qed.

Lemma FreshnessChallenge_from_bytes_wf c :
  FreshnessChallenge_wf c → FreshnessChallenge_from_bytes (challenge_bytes c) = Ok c.
Proof. intros [_ Hl]. unfold FreshnessChallenge_from_bytes. rewrite Hl. by destruct c. Qed.

Lemma from_cose_key_bytes_wf `{HP : Primitives} k :
  ResponseKey_wf k → from_cose_key_bytes (to_cose_key_bytes k) = Ok k.
Proof.
  intros (_ & Hl & Hk). unfold from_cose_key_bytes, to_cose_key_bytes.
  rewrite (proj2 (strip_bytes_Some _ _ _) eq_refl). simpl. by rewrite Hl.
Qed.

(** ** Decoding what was encoded *)

Section complete.
Context `{HM : Minicbor} {HL : MinicborLaws} `{HP : Primitives}.

Lemma read_key_id_item k l d :
  len64 (cbor_encode (ByteStr (key_id_bytes k))) → KeyId_wf k →
  read_key_id (cbor_encode (ByteStr (key_id_bytes k)) ++ d) l = Ok (k, d).
Proof.
  intros Hl Hk. unfold read_key_id. rewrite read_bytes_item by by apply len64_bytes.
  by rewrite KeyId_from_bytes_wf.
Qed.

Lemma read_str_of_item s l d :
  len64 (cbor_encode (str_item s)) → utf8 s → read_str (cbor_encode (str_item s) ++ d) l = Ok (s, d).
Proof. intros Hl Hs. apply read_str_item; [by apply len64_text | done]. Qed.

Lemma read_string_array_item ss l d :
  len64 (cbor_encode (Arr (map str_item ss))) → Forall utf8 ss →
  read_string_array (cbor_encode (Arr (map str_item ss)) ++ d) l = Ok (ss, d).
Proof.
  intros Hl Hs. unfold read_string_array. apply len64_arr in Hl as [Hl Hx].
  rewrite encode_arr, <- app_assoc, read_array_len_head by done.
  rewrite length_map. rewrite flat_map_concat_map, map_map, <- flat_map_concat_map.
  apply read_n_items. intros s d' Hin. rewrite list.Forall_forall in Hs. rewrite list.Forall_forall in Hx.
  apply read_str_of_item; [apply Hx, list_elem_of_In, in_map, list_elem_of_In, Hin | by apply Hs].
Qed.

Lemma parse_crit_item ls d :
  len64 (cbor_encode (label_array_item ls)) → ls ≠ [] → Forall is_i64 ls →
  parse_crit (cbor_encode (label_array_item ls) ++ d) = Ok (ls, d).
Proof.
  intros Hl Hne Hs. unfold parse_crit, label_array_item in *. apply len64_arr in Hl as [Hl _].
  rewrite encode_arr, <- app_assoc, read_array_len_head by done.
  rewrite length_map. rewrite (proj2 (N.eqb_neq _ _)) by (destruct ls; simpl; [done | lia]).
  rewrite flat_map_concat_map, map_map, <- flat_map_concat_map.
  apply read_n_items. intros l d' Hin. rewrite list.Forall_forall in Hs.
  apply read_label_item. by apply Hs.
Qed.


Lemma cwt_steps c f g h i j k l m n :
  claims_wf c →
  steps cwt_entry (mk_parts None None None None None f g h i j k l m n) (cwt_entries c)
    (mk_parts (issuer c) (audience c) (expires_at c) (Some (issued_at c)) (Some (message_id c))
       f g h i j k l m n).
Proof.
  intros [Hiss Haud Hexp Hiat Hcti _ _ _ _ _ _ _ _]. unfold cwt_entries.
  eapply steps_app; [apply (steps_opt _ set_issuer); [| done] |].
  { intros s Hs Hl d. rewrite Hs in Hiss. destruct Hiss. unfold cwt_entry. eval_tests.
    by rewrite read_str_of_item, Subject_new_wf. }
  eapply steps_app; [apply (steps_opt _ set_audience); [| done] |].
  { intros s Hs Hl d. rewrite Hs in Haud. destruct Haud. unfold cwt_entry. eval_tests.
    by rewrite read_str_of_item, Subject_new_wf. }
  eapply steps_app; [apply (steps_opt _ set_expires_at); [| done] |].
  { intros t Ht Hl d. rewrite Ht in Hexp. unfold cwt_entry. eval_tests.
    by rewrite read_time_item. }
  eapply steps_cons; [| eapply steps_one]; intros Hl d; unfold cwt_entry; eval_tests.
  - by rewrite read_time_item.
  - rewrite read_bytes_item by by apply len64_bytes. by rewrite MessageId_from_bytes_wf.
Qed.

(** *** The order of the labels *)

Definition CWT_ORDER : list Z := [CWT_ISS; CWT_AUD; CWT_EXP; CWT_IAT; CWT_CTI].

Definition HEADER_ORDER : list Z :=
  [HDR_ALG; HDR_CRIT; HDR_CONTENT_TYPE; HDR_KID; HDR_CWT_CLAIMS; IN_REPLY_TO; REQUEST_HASH;
   SENDER_KEY_ID; RESPONSE_KEY_ID; RESPONSE_SUBJECT; SIGNER_CERTIFICATES_JWT;
   SIGNER_PUBLIC_KEY_COSE; FRESHNESS_CHALLENGE; RESPONSE_PUBLIC_KEY_COSE;
   OPERATION_TARGET_KEY_ID].

Definition RECIPIENT_ORDER : list Z :=
  [HDR_ALG; HDR_CRIT; HDR_PARTY_U_IDENTITY; HDR_PARTY_V_IDENTITY].

(** A closed list of labels ascends. *)
Ltac prove_ordered :=
  unfold ordered;
  repeat first [apply Sorted.SSorted_nil | apply Sorted.SSorted_cons | apply List.Forall_nil
               | apply List.Forall_cons | reflexivity].

Ltac prove_i64s :=
  repeat first [apply List.Forall_nil | apply List.Forall_cons; [by unfold_ints |]].

Lemma HEADER_ORDER_ok : ordered HEADER_ORDER ∧ Forall is_i64 HEADER_ORDER.
Proof. split; [prove_ordered | prove_i64s]. Qed.

Lemma CWT_ORDER_ok : ordered CWT_ORDER ∧ Forall is_i64 CWT_ORDER.
Proof. split; [prove_ordered | prove_i64s]. Qed.

Lemma RECIPIENT_ORDER_ok : ordered RECIPIENT_ORDER ∧ Forall is_i64 RECIPIENT_ORDER.
Proof. split; [prove_ordered | prove_i64s]. Qed.

Lemma sublist_ok ls ls' :
  ls `sublist_of` ls' → ordered ls' ∧ Forall is_i64 ls' → ordered ls ∧ Forall is_i64 ls.
Proof. intros Hs [Ho Hi]. split; [by eapply ordered_sublist | by eapply Forall_sublist]. Qed.

(** A concatenation of optional entries, against the list of all labels. *)
Ltac prove_sublist :=
  rewrite ?labels_app, ?labels_opt_entry; cbn [labels map fst app];
  rewrite <- ?app_assoc;
  repeat match goal with
  | |- (push_if _ ?l ++ _) `sublist_of` (?l :: ?ls) =>
      change (l :: ls) with ([l] ++ ls); apply sublist_app; [apply push_if_sublist |]
  | |- push_if _ ?l `sublist_of` [?l] => apply push_if_sublist
  | |- (?l :: _) `sublist_of` (?l :: _) => apply sublist_skip
  | |- [] `sublist_of` _ => apply sublist_nil_l
  | |- _ `sublist_of` (_ :: _) => apply sublist_cons
  end.

Lemma cwt_labels c : labels (cwt_entries c) `sublist_of` CWT_ORDER.
Proof. unfold cwt_entries, CWT_ORDER. prove_sublist. Qed.

Lemma labels_jwts_entry h : labels (jwts_entry h) = push_if (has_jwt (Some h)) SIGNER_CERTIFICATES_JWT.
Proof. unfold jwts_entry. by destruct (has_jwt _). Qed.

Lemma tail_labels ct c h kid : labels (tail_entries ct c h kid) `sublist_of` tail HEADER_ORDER.
Proof.
  unfold tail_entries, key_entry, target_entry. rewrite !labels_app, labels_jwts_entry.
  cbn [labels map fst app]. unfold HEADER_ORDER. cbn [tail].
  destruct c as [c |]; cbn [claims_entries claim_field].
  - change (labels (?x :: ?l)) with (fst x :: labels l). unfold basil_entries. prove_sublist.
  - prove_sublist.
Qed.

(** *** The claims-capable headers *)

Lemma parse_cwt_map_item c f g h i j k l n d :
  len64 (cbor_encode (map_item (cwt_entries c))) → claims_wf c →
  parse_cwt_map (cbor_encode (map_item (cwt_entries c)) ++ d)
    (mk_parts None None None None None f g h i j k l false n)
  = Ok (mk_parts (issuer c) (audience c) (expires_at c) (Some (issued_at c)) (Some (message_id c))
          f g h i j k l true n, d).
Proof.
  intros Hlen Hc. apply len64_map in Hlen as [Hn Hl]. unfold parse_cwt_map.
  rewrite encode_map_item, <- app_assoc, read_map_len_head by done.
  destruct (sublist_ok _ _ (cwt_labels c) CWT_ORDER_ok).
  by erewrite for_labels_steps by (done || by apply cwt_steps).
Qed.

(** The assignment of a basil label. *)
Definition basil_set {A} (set : option A → ClaimsParts → ClaimsParts) (o : option A)
    (v : HeaderVars) : HeaderVars :=
  set_parts
    (set_basil_present (if is_some o then true else p_basil_present (v_parts v))
       (set o (v_parts v))) v.

Lemma header_basil b l v d parts d' :
  bool_decide (l ∈ CLAIM_LABELS) = true → l ≠ HDR_CWT_CLAIMS →
  basil_entry l (v_parts v) d = Ok (Some (parts, d')) →
  header_entry b l v d = Ok (set_parts (set_basil_present true parts) v, d').
Proof.
  intros Hl%bool_decide_eq_true Hn He. unfold header_entry, parse_basil_label. rewrite He.
  unfold CLAIM_LABELS in Hl. rewrite !elem_of_cons, elem_of_nil in Hl.
  destruct b; repeat destruct Hl as [-> | Hl]; done.
Qed.

Lemma basil_steps b a cr ct kid c jw ky t i1 i2 i3 i4 i5 fl :
  claims_wf c →
  ∃ fl',
  steps (header_entry b)
    (mk_vars a cr ct kid (mk_parts i1 i2 i3 i4 i5 None None None None None None None true fl)
       jw ky t)
    (basil_entries c)
    (mk_vars a cr ct kid
       (mk_parts i1 i2 i3 i4 i5 (in_reply_to c) (request_hash c) (sender_key_id c)
          (response_key_id c) (response_subject c) None None true fl') jw ky t).
Proof.
  intros [_ _ _ _ _ Hsk Hrk Hrs Hir Hrh _ _ _]. eexists. unfold basil_entries.
  eapply steps_app; [eapply (steps_opt _ (basil_set set_in_reply_to)); [| done] |].
  { intros x Hx Hl d. rewrite Hx in Hir. apply header_basil; [done | done |].
    unfold basil_entry. eval_tests. rewrite read_bytes_item by by apply len64_bytes.
    by rewrite MessageId_from_bytes_wf. }
  eapply steps_app; [eapply (steps_opt _ (basil_set set_request_hash)); [| done] |].
  { intros x Hx Hl d. rewrite Hx in Hrh. destruct Hrh as [_ Hlen].
    apply header_basil; [done | done |].
    unfold basil_entry. eval_tests. rewrite read_bytes_item by by apply len64_bytes.
    rewrite Hlen. by destruct x. }
  eapply steps_app; [eapply (steps_opt _ (basil_set set_sender_key_id)); [| done] |].
  { intros x Hx Hl d. rewrite Hx in Hsk. apply header_basil; [done | done |].
    unfold basil_entry. eval_tests. rewrite read_bytes_item by by apply len64_bytes.
    by rewrite KeyId_from_bytes_wf. }
  eapply steps_app; [eapply (steps_opt _ (basil_set set_response_key_id)); [| done] |].
  { intros x Hx Hl d. rewrite Hx in Hrk. destruct Hrk as [Hk Hu].
    apply header_basil; [done | done |]. unfold basil_entry. eval_tests.
    rewrite <- (bytes_of_bytes (key_id_bytes x)) in Hl |- * by apply Hk.
    rewrite read_str_item; [by rewrite KeyId_from_text_wf | by apply len64_text |].
    unfold utf8. by rewrite bytes_of_bytes by apply Hk. }
  eapply steps_to; [eapply (steps_opt _ (basil_set set_response_subject)); [| done] | reflexivity].
  intros x Hx Hl d. rewrite Hx in Hrs. destruct Hrs. apply header_basil; [done | done |].
  unfold basil_entry. eval_tests. by rewrite read_str_of_item, ResponseSubject_new_wf.
Qed.

Lemma push_if_i64 b l ls : is_i64 l → Forall is_i64 ls → Forall is_i64 (push_if b l ++ ls).
Proof. intros. destruct b; simpl; [by constructor | done]. Qed.

Lemma sort_labels_i64 ls : Forall is_i64 ls → Forall is_i64 (sort_labels ls).
Proof. intros. unfold sort_labels. by rewrite sort_by_perm. Qed.

Lemma sort_labels_nil ls : sort_labels ls = [] → ls = [].
Proof.
  unfold sort_labels. intros H. pose proof (sort_by_perm (λ a b, cmp (canonical_sort_key a)
    (canonical_sort_key b)) ls) as Hp. rewrite H in Hp. by apply Permutation_nil in Hp.
Qed.

Ltac labels_i64 :=
  repeat first [apply push_if_i64; [by unfold_ints |] | apply List.Forall_cons; [by unfold_ints |]
               | apply List.Forall_nil].

Lemma header_crit_i64 h : Forall is_i64 (protected_header_crit_labels h).
Proof.
  unfold protected_header_crit_labels. apply sort_labels_i64.
  rewrite <- (app_nil_r (push_if (has_target h) _)). labels_i64.
Qed.

Lemma basil_labels_i64 c : Forall is_i64 (basil_labels c).
Proof.
  unfold basil_labels.
  rewrite <- (app_nil_r (push_if (is_some (response_public_key_cose c)) _)). labels_i64.
Qed.

Lemma crit_labels_i64 c h : Forall is_i64 (crit_labels c h).
Proof.
  unfold crit_labels. apply sort_labels_i64. simpl. apply List.Forall_cons; [by unfold_ints |].
  apply Forall_app; split; [| apply header_crit_i64]. destruct c as [c |]; [| constructor].
  apply List.Forall_cons; [by unfold_ints | apply basil_labels_i64].
Qed.

Lemma jwts_steps b v h :
  v_jwts v = [] → Forall utf8 (signer_certificates_jwt h) →
  (b = false → signer_certificates_jwt h = []) →
  steps (header_entry b) v (jwts_entry h) (set_jwts (signer_certificates_jwt h) v).
Proof.
  intros Hv Hu Hb. unfold jwts_entry, has_jwt.
  destruct (signer_certificates_jwt h) as [| j js].
  - destruct v; simpl in *. subst. constructor.
  - destruct b; [| by discriminate Hb]. apply steps_one. intros Hl d.
    unfold header_entry. eval_tests. rewrite read_string_array_item by done. done.
Qed.

Lemma key_steps b v h :
  v_key v = None → opt_wf is_bytes (signer_public_key_cose h) →
  (b = false → signer_public_key_cose h = None) →
  steps (header_entry b) v (key_entry h) (set_key (signer_public_key_cose h) v).
Proof.
  intros Hv Hu Hb. unfold key_entry. apply (steps_opt _ set_key).
  - intros x Hx Hl d. destruct b; [| rewrite Hb in Hx by done; done].
    unfold header_entry. eval_tests. by rewrite read_bytes_item by by apply len64_bytes.
  - destruct v. simpl in *. by subst.
Qed.

Lemma target_steps b v h :
  v_target v = None → opt_wf KeyId_wf (operation_target_key_id h) →
  (b = false → operation_target_key_id h = None) →
  steps (header_entry b) v (target_entry h) (set_target (operation_target_key_id h) v).
Proof.
  intros Hv Hu Hb. unfold target_entry. apply (steps_opt _ set_target).
  - intros x Hx Hl d. destruct b; [| rewrite Hb in Hx by done; done]. rewrite Hx in Hu.
    unfold header_entry. eval_tests. by rewrite read_key_id_item.
  - destruct v. simpl in *. by subst.
Qed.

(** The parts the loop has collected for a claim set, with [fl] saying
    whether it met a basil label. *)
Definition parts_of (c : Claims) (challenge : option FreshnessChallenge)
    (key : option X25519ResponsePublicKey) (fl : bool) : ClaimsParts :=
  mk_parts (issuer c) (audience c) (expires_at c) (Some (issued_at c)) (Some (message_id c))
    (in_reply_to c) (request_hash c) (sender_key_id c) (response_key_id c) (response_subject c)
    challenge key true fl.

Lemma into_claims_parts c fl :
  response_key_binding_matches c = true →
  into_claims (parts_of c (freshness_challenge c) (response_public_key_cose c) fl) = Ok (Some c).
Proof. intros Hb. unfold into_claims, parts_of. simpl. destruct c. simpl in *. by rewrite Hb. Qed.

Lemma claims_steps b a cr ct kid c jw ky t :
  claims_wf c →
  ∃ fl, steps (header_entry b) (mk_vars a cr ct kid ClaimsParts_default jw ky t)
    (claims_entries (Some c)) (mk_vars a cr ct kid (parts_of c None None fl) jw ky t).
Proof.
  intros Hc. edestruct (basil_steps b a cr ct kid c jw ky t) as [fl Hs]; [done |].
  exists fl. cbn [claims_entries]. eapply steps_cons; [| apply Hs].
  intros Hl d. unfold header_entry. destruct b; eval_tests; cbn [v_parts];
    unfold ClaimsParts_default; by rewrite parse_cwt_map_item.
Qed.

Lemma late_claims_steps b a cr ct kid c jw ky t fl :
  claims_wf c →
  ∃ fl', steps (header_entry b) (mk_vars a cr ct kid (parts_of c None None fl) jw ky t)
    (opt_entry FRESHNESS_CHALLENGE (freshness_challenge c) (λ v, ByteStr (challenge_bytes v))
     ++ opt_entry RESPONSE_PUBLIC_KEY_COSE (response_public_key_cose c)
          (λ v, ByteStr (to_cose_key_bytes v)))
    (mk_vars a cr ct kid (parts_of c (freshness_challenge c) (response_public_key_cose c) fl')
       jw ky t).
Proof.
  intros [_ _ _ _ _ _ _ _ _ _ Hfc Hpk _]. eexists.
  eapply steps_app; [eapply (steps_opt _ (basil_set set_freshness_challenge)); [| done] |].
  { intros x Hx Hl d. rewrite Hx in Hfc. apply header_basil; [done | done |].
    unfold basil_entry. eval_tests. rewrite read_bytes_item by by apply len64_bytes.
    by rewrite FreshnessChallenge_from_bytes_wf. }
  eapply steps_to;
    [eapply (steps_opt _ (basil_set set_response_public_key_cose)); [| done] | reflexivity].
  intros x Hx Hl d. rewrite Hx in Hpk. apply header_basil; [done | done |].
  unfold basil_entry. eval_tests. rewrite read_bytes_item by by apply len64_bytes.
  by rewrite from_cose_key_bytes_wf.
Qed.

(** A header that may not carry the sender's fields has none of them. *)
Definition kid_allowed (b : bool) (kid : option KeyId) (h : ProtectedHeaders) : Prop :=
  b = false → kid = None ∧ h = ProtectedHeaders_default.

Lemma tail_steps b a ct c h kid :
  ContentType_wf ct → opt_wf claims_wf c → headers_wf h → opt_wf KeyId_wf kid →
  kid_allowed b kid h →
  ∃ parts,
    steps (header_entry b) (mk_vars a None None None ClaimsParts_default [] None None)
      (tail_entries ct c h kid)
      (mk_vars a (Some (crit_labels c (Some h))) (Some ct) kid parts
         (signer_certificates_jwt h) (signer_public_key_cose h) (operation_target_key_id h)) ∧
    into_claims parts = Ok c.
Proof.
  intros [Hct Hct'] Hc (Hjw & Hky & Ht) Hkid Hb. unfold tail_entries.
  assert (∀ a' ct', steps (header_entry b) (mk_vars a a' ct' None ClaimsParts_default [] None None)
    (opt_entry HDR_KID kid (λ k, ByteStr (key_id_bytes k)))
    (mk_vars a a' ct' kid ClaimsParts_default [] None None)) as Hk.
  { intros a' ct'. apply (steps_opt _ set_kid); [| done]. intros x Hx Hl d.
    destruct b; [| by destruct Hb as [-> _]]. rewrite Hx in Hkid.
    unfold header_entry. eval_tests. by rewrite read_key_id_item. }
  assert (∀ v, v_jwts v = [] → steps (header_entry b) v (jwts_entry h) _) as Hj
    by (intros; apply jwts_steps; [done | done | by intros [_ ->]%Hb]).
  assert (∀ v, v_key v = None → steps (header_entry b) v (key_entry h) _) as Hky'
    by (intros; apply key_steps; [done | done | by intros [_ ->]%Hb]).
  assert (∀ v, v_target v = None → steps (header_entry b) v (target_entry h) _) as Ht'
    by (intros; apply target_steps; [done | done | by intros [_ ->]%Hb]).
  assert (∀ es st', steps (header_entry b)
    (mk_vars a (Some (crit_labels c (Some h))) (Some ct) None ClaimsParts_default [] None None) es
    st' → steps (header_entry b) (mk_vars a None None None ClaimsParts_default [] None None)
      ([(HDR_CRIT, label_array_item (crit_labels c (Some h)));
        (HDR_CONTENT_TYPE, str_item (content_type_str ct))] ++ es) st') as Hhead.
  { intros es st' Hs. eapply steps_cons; [| eapply steps_cons; [| exact Hs]]; intros Hl d;
      unfold header_entry; destruct b; eval_tests;
      (rewrite parse_crit_item || rewrite read_str_of_item); try done;
      try apply crit_labels_i64; try (by intros ?%sort_labels_nil); by rewrite Hct'. }
  destruct c as [c |].
  - edestruct claims_steps as [fl Hcl]; [exact Hc |].
    edestruct late_claims_steps as [fl' Hlate]; [exact Hc |].
    exists (parts_of c (freshness_challenge c) (response_public_key_cose c) fl').
    split; [| apply into_claims_parts, Hc].
    apply Hhead. eapply steps_app; [apply Hk |]. eapply steps_app; [apply Hcl |].
    eapply steps_app; [by apply Hj |]. eapply steps_app; [by apply Hky' |].
    rewrite app_assoc. eapply steps_app; [apply Hlate |].
    eapply steps_to; [by apply Ht' | done].
  - exists ClaimsParts_default. split; [| done].
    apply Hhead. eapply steps_app; [apply Hk |]. cbn [claims_entries claim_field opt_entry app].
    eapply steps_app; [by apply Hj |]. eapply steps_app; [by apply Hky' |].
    eapply steps_to; [by apply Ht' | done].
Qed.

(** *** The structural check passes *)

(** Values of header entries: well-shaped and at most one level deep. *)
Definition value_ok (x : item) : Prop := item_shape x ∧ (height x <= 1)%nat.
Definition values_ok (es : list (Z * item)) : Prop := Forall value_ok (map snd es).

Lemma values_app es1 es2 : values_ok es1 → values_ok es2 → values_ok (es1 ++ es2).
Proof. unfold values_ok. rewrite map_app. intros. by apply Forall_app. Qed.

Lemma values_opt {A} l (o : option A) (f : A → item) (P : A → Prop) :
  opt_wf P o → (∀ a, P a → value_ok (f a)) → values_ok (opt_entry l o f).
Proof. intros Ho Hf. destruct o; simpl in *; [| constructor]. constructor; [by apply Hf | constructor]. Qed.

Lemma values_cons l x es : value_ok x → values_ok es → values_ok ((l, x) :: es).
Proof. intros. by constructor. Qed.

Lemma bytes_value_ok x : is_bytes x → value_ok (ByteStr x).
Proof. intros. split; [done | simpl; lia]. Qed.

Lemma text_value_ok x : is_bytes x → value_ok (TextStr x).
Proof. intros. split; [done | simpl; lia]. Qed.

Lemma str_value_ok s : utf8 s → value_ok (str_item s).
Proof. intros Hs. apply text_value_ok. by apply is_utf8_is_bytes. Qed.

Lemma int_height z : height (int_item z) = 0%nat.
Proof. unfold int_item. by destruct (0 <=? z). Qed.

Lemma int_value_ok z : is_i64 z → value_ok (int_item z).
Proof. intros. split; [by apply int_item_shape | rewrite int_height; lia]. Qed.

Lemma arr_value_ok l : Forall item_shape l → Forall (λ x, height x = 0%nat) l → value_ok (Arr l).
Proof.
  intros Hs Hh. split; [by apply items_shape_Forall |]. cbn [height]. apply height_Forall.
  eapply List.Forall_impl; [| exact Hh]. simpl. lia.
Qed.

Lemma map_height es n :
  Forall (λ x, height x <= n)%nat (map snd es) → (height (map_item es) <= S n)%nat.
Proof.
  intros Hh. unfold map_item. cbn [height]. apply height_Forall.
  induction es as [| [l x] es IH]; [constructor |].
  change (entry_items ((l, x) :: es)) with (int_item l :: x :: entry_items es).
  apply Forall_cons_iff in Hh as [Hx Hh]. simpl in Hx.
  constructor; [rewrite int_height; lia |]. constructor; [lia | by apply IH].
Qed.

Lemma scan_header es :
  Forall is_i64 (labels es) → values_ok es → len64 (cbor_encode (map_item es)) →
  scan (cbor_encode (map_item es)) = Ok {| top_tag := None |}.
Proof.
  intros Hl Hv Hlen. assert (item_shape (map_item es)) as Hs.
  { apply map_item_shape; [done |]. eapply List.Forall_impl; [| exact Hv]. by intros x []. }
  rewrite scan_encode; [done | by apply item_shape_wf |].
  transitivity 2%nat; [| unfold MAX_DEPTH; lia].
  apply map_height. eapply List.Forall_impl; [| exact Hv]. by intros x [].
Qed.

Lemma labels_value_ok ls : Forall is_i64 ls → value_ok (label_array_item ls).
Proof.
  intros Hl. apply arr_value_ok.
  - apply Forall_map. eapply List.Forall_impl; [| exact Hl]. intros. by apply int_item_shape.
  - apply Forall_map, list.Forall_forall. intros. apply int_height.
Qed.

Lemma jwts_values h : headers_wf h → values_ok (jwts_entry h).
Proof.
  intros (Hj & _). unfold jwts_entry. destruct (has_jwt _); [| constructor].
  apply values_cons; [| constructor]. apply arr_value_ok.
  - apply Forall_map. eapply List.Forall_impl; [| exact Hj]. intros. by apply str_value_ok.
  - by apply Forall_map, list.Forall_forall.
Qed.

Lemma key_values h : headers_wf h → values_ok (key_entry h).
Proof. intros (_ & Hk & _). by eapply values_opt; [| apply bytes_value_ok]. Qed.

Lemma target_values h : headers_wf h → values_ok (target_entry h).
Proof. intros (_ & _ & Ht). eapply values_opt; [done |]. intros k [Hk _]. by apply bytes_value_ok. Qed.

Ltac values_done :=
  let H := fresh in
  intros ? H;
  first [apply bytes_value_ok | apply str_value_ok | apply int_value_ok | apply text_value_ok];
  first [done | apply H].

Lemma cwt_value_ok c : claims_wf c → value_ok (map_item (cwt_entries c)).
Proof.
  intros Hc.
  assert (Forall (λ x, item_shape x ∧ height x = 0%nat) (map snd (cwt_entries c))) as Hv.
  { destruct Hc as [Hiss Haud Hexp Hiat Hcti _ _ _ _ _ _ _ _].
    unfold cwt_entries. rewrite !map_app. repeat (apply Forall_app; split).
    - destruct (issuer c) as [s |]; repeat constructor. by apply is_utf8_is_bytes, Hiss.
    - destruct (audience c) as [s |]; repeat constructor. by apply is_utf8_is_bytes, Haud.
    - destruct (expires_at c) as [t |]; repeat constructor; [by apply int_item_shape |].
      apply int_height.
    - constructor; [split; [by apply int_item_shape | apply int_height] |].
      repeat constructor. apply Hcti. }
  split.
  - apply map_item_shape; [eapply Forall_sublist; [apply cwt_labels | apply CWT_ORDER_ok] |].
    eapply List.Forall_impl; [| exact Hv]. by intros x [].
  - apply map_height. eapply List.Forall_impl; [| exact Hv]. intros x [_ ->]. lia.
Qed.

Lemma claims_values c : opt_wf claims_wf c → values_ok (claims_entries c).
Proof.
  intros Hc. destruct c as [c |]; [| constructor]. simpl in Hc. cbn [claims_entries].
  apply values_cons; [by apply cwt_value_ok |].
  destruct Hc as [_ _ _ _ _ Hsk Hrk Hrs Hir Hrh _ _ _]. unfold basil_entries.
  repeat (apply values_app; [eapply values_opt; [eassumption | values_done] |]).
  eapply values_opt; [exact Hrs |]. intros x [Hx _]. by apply str_value_ok.
Qed.

Lemma tail_values ct c h kid :
  ContentType_wf ct → opt_wf claims_wf c → headers_wf h → opt_wf KeyId_wf kid →
  values_ok (tail_entries ct c h kid).
Proof.
  intros [Hct _] Hc Hh Hkid. unfold tail_entries.
  repeat apply values_app; try apply jwts_values; try apply key_values; try apply target_values;
    try apply claims_values; try done.
  - apply values_cons; [apply labels_value_ok, crit_labels_i64 |].
    apply values_cons; [by apply str_value_ok | constructor].
  - eapply values_opt; [done | values_done].
  - destruct c as [c |]; [| constructor]. destruct Hc as [_ _ _ _ _ _ _ _ _ _ Hfc _ _].
    eapply values_opt; [done | values_done].
  - destruct c as [c |]; [| constructor]. destruct Hc as [_ _ _ _ _ _ _ _ _ _ _ Hpk _].
    eapply values_opt; [done |]. intros k [Hk _]. apply bytes_value_ok.
    unfold to_cose_key_bytes, is_bytes. apply Forall_app; split; [| done].
    by repeat constructor.
Qed.

(** *** The header parsers *)

Lemma encode_nonempty x : (length (cbor_encode x) =? 0)%nat = false.
Proof. apply Nat.eqb_neq. pose proof (encode_not_empty x). lia. Qed.

(** The part the header parsers share: the check, the map head, the loop. *)
Lemma header_loop {S} (entry : Z → S → bytes_ → result DecodeError (S * bytes_)) ls es st st' :
  ordered ls ∧ Forall is_i64 ls → labels es `sublist_of` ls → values_ok es →
  len64 (cbor_encode (map_item es)) → steps entry st es st' →
  ∃ d, scan (cbor_encode (map_item es)) = Ok {| top_tag := None |} ∧
       read_map_len (cbor_encode (map_item es)) = Ok (N.of_nat (length es), d) ∧
       for_labels (N.of_nat (length es)) entry st d = Ok (st', []).
Proof.
  intros Hls Hsub Hv Hlen Hs. destruct (sublist_ok _ _ Hsub Hls) as [Ho Hi].
  exists (entries_bytes es). split; [by apply scan_header |].
  apply len64_map in Hlen as [Hn Hl]. split.
  - by rewrite encode_map_item, read_map_len_head.
  - rewrite <- (app_nil_r (entries_bytes es)). by apply for_labels_steps.
Qed.

Lemma parse_claims_capable_header_item b a ct c h kid :
  is_i64 a → ContentType_wf ct → opt_wf claims_wf c → headers_wf h → opt_wf KeyId_wf kid →
  kid_allowed b kid h → (b = true → claim_field c response_public_key_cose = None) →
  len64 (cbor_encode (map_item ((HDR_ALG, int_item a) :: tail_entries ct c h kid))) →
  parse_claims_capable_header
    (cbor_encode (map_item ((HDR_ALG, int_item a) :: tail_entries ct c h kid))) b
  = Ok {| h_alg := a; h_crit := Some (crit_labels c (Some h)); h_content_type := Some ct;
          h_kid := kid; h_claims := c; h_protected_headers := h |}.
Proof.
  intros Ha Hct Hc Hh Hkid Hb Hpk Hlen.
  destruct (tail_steps b (Some a) ct c h kid) as (parts & Hs & Hparts); try done.
  edestruct (header_loop (header_entry b) HEADER_ORDER) as (d & Hscan & Hmap & Hloop);
    [apply HEADER_ORDER_ok | | | exact Hlen | |].
  - change (labels ((?l, ?x) :: ?es)) with (l :: labels es).
    apply sublist_skip, tail_labels.
  - apply values_cons; [by apply int_value_ok | by apply tail_values].
  - eapply (steps_cons _ HeaderVars_init); [| exact Hs]. intros Hl d.
    unfold header_entry. destruct b; eval_tests; by rewrite read_int_item.
  - unfold parse_claims_capable_header. rewrite encode_nonempty, Hscan, Hmap, Hloop. simpl.
    rewrite Hparts. unfold v_protected_headers. simpl.
    destruct b; simpl; [rewrite Hpk by done |]; simpl; by destruct h.
Qed.

Definition OUTER_ORDER : list Z :=
  [HDR_ALG; HDR_CRIT; HDR_KID; SIGNER_CERTIFICATES_JWT; SIGNER_PUBLIC_KEY_COSE;
   OPERATION_TARGET_KEY_ID].

Lemma OUTER_ORDER_ok : ordered OUTER_ORDER ∧ Forall is_i64 OUTER_ORDER.
Proof. split; [prove_ordered | prove_i64s]. Qed.

Lemma outer_labels a kid h : labels (outer_entries a kid h) `sublist_of` OUTER_ORDER.
Proof.
  unfold outer_entries, key_entry, target_entry, OUTER_ORDER.
  rewrite !labels_app, labels_jwts_entry, !labels_opt_entry. cbn [labels map fst app].
  apply sublist_skip. destruct (headers_is_empty h); cbn [labels map fst app].
  - apply sublist_cons. prove_sublist.
  - prove_sublist.
Qed.

Lemma sealed_outer_agrees l v d :
  l ∈ OUTER_ORDER → sealed_outer_entry l v d = header_entry true l v d.
Proof.
  unfold OUTER_ORDER. rewrite !elem_of_cons, elem_of_nil.
  intros Hl; repeat destruct Hl as [-> | Hl]; done.
Qed.

Lemma header_crit_nonempty h :
  headers_is_empty h = false → protected_header_crit_labels (Some h) ≠ [].
Proof.
  intros He Hn%sort_labels_nil. unfold headers_is_empty in He. unfold has_jwt, has_key, has_target in Hn.
  destruct (signer_certificates_jwt h), (signer_public_key_cose h), (operation_target_key_id h); done.
Qed.

Lemma outer_values a kid h :
  KeyId_wf kid → headers_wf h → values_ok (outer_entries a kid h).
Proof.
  intros [Hk _] Hh. unfold outer_entries.
  repeat apply values_app; try apply jwts_values; try apply key_values; try apply target_values;
    try done.
  - apply values_cons; [apply int_value_ok; by destruct a | constructor].
  - destruct (headers_is_empty h); [constructor |].
    apply values_cons; [apply labels_value_ok, header_crit_i64 | constructor].
  - apply values_cons; [by apply bytes_value_ok | constructor].
Qed.

Lemma outer_steps a kid h :
  KeyId_wf kid → headers_wf h →
  steps sealed_outer_entry HeaderVars_init (outer_entries a kid h)
    (mk_vars (Some (SignatureAlgorithm_codepoint a))
       (if headers_is_empty h then None else Some (protected_header_crit_labels (Some h)))
       None (Some kid) ClaimsParts_default
       (signer_certificates_jwt h) (signer_public_key_cose h) (operation_target_key_id h)).
Proof.
  intros Hk (Hjw & Hky & Ht).
  apply (steps_agree (header_entry true)).
  { eapply Forall_sublist; [apply outer_labels |]. apply list.Forall_forall. intros l Hl st d.
    by apply sealed_outer_agrees. }
  unfold outer_entries.
  eapply steps_app.
  { apply steps_one. intros Hl d. unfold header_entry. eval_tests.
    rewrite read_int_item by by destruct a. done. }
  apply (steps_app _ _ _ _ (set_crit (if headers_is_empty h then None else
    Some (protected_header_crit_labels (Some h)))
    (set_alg (Some (SignatureAlgorithm_codepoint a)) HeaderVars_init))).
  { destruct (headers_is_empty h) eqn:He; [constructor |]. apply steps_one. intros Hl d.
    unfold header_entry. eval_tests.
    rewrite parse_crit_item; [done | done | by apply header_crit_nonempty | apply header_crit_i64]. }
  eapply steps_app.
  { apply steps_one. intros Hl d. unfold header_entry. eval_tests.
    rewrite read_key_id_item by done. done. }
  eapply steps_app; [by apply jwts_steps |]. eapply steps_app; [by apply key_steps |].
  eapply steps_to; [by apply target_steps | done].
Qed.

Lemma check_crit_refl ls : check_crit (Some ls) ls = Ok tt.
Proof. unfold check_crit. by rewrite bool_decide_eq_true_2. Qed.

Lemma parse_sealed_outer_item a kid h :
  KeyId_wf kid → headers_wf h → len64 (cbor_encode (map_item (outer_entries a kid h))) →
  parse_sealed_outer_protected (cbor_encode (map_item (outer_entries a kid h))) = Ok (a, kid, h).
Proof.
  intros Hk Hh Hlen.
  edestruct (header_loop sealed_outer_entry OUTER_ORDER) as (d & Hscan & Hmap & Hloop);
    [apply OUTER_ORDER_ok | apply outer_labels | by apply outer_values | exact Hlen
    | by apply outer_steps |].
  unfold parse_sealed_outer_protected. rewrite encode_nonempty, Hscan, Hmap, Hloop.
  cbn [v_alg v_kid v_crit ok_or].
  assert (SignatureAlgorithm_from_codepoint (SignatureAlgorithm_codepoint a) = Some a) as ->
    by by destruct a.
  match goal with |- context [v_protected_headers ?v] =>
    assert (v_protected_headers v = h) as -> by by destruct h end.
  cbn [ok_or]. destruct (headers_is_empty h); [done |]. by rewrite check_crit_refl.
Qed.

Lemma party_labels_i64 p : Forall is_i64 (party_labels p).
Proof.
  unfold party_labels. rewrite <- (app_nil_r (push_if (is_some (party_bytes (kdf_party_v p))) _)).
  labels_i64.
Qed.

Definition parties_wf (p : KdfParties) : Prop :=
  PartyIdentity_wf (kdf_party_u p) ∧ PartyIdentity_wf (kdf_party_v p).

Lemma recipient_labels p : labels (recipient_entries p) `sublist_of` RECIPIENT_ORDER.
Proof.
  unfold recipient_entries, RECIPIENT_ORDER. rewrite !labels_app. cbn [labels map fst app].
  apply sublist_skip. destruct (party_labels p); cbn [labels map fst app].
  - apply sublist_cons. prove_sublist.
  - prove_sublist.
Qed.

Lemma PartyIdentity_from_bytes_wf p id :
  PartyIdentity_wf p → party_bytes p = Some id →
  PartyIdentity_from_bytes id = Ok {| party_bytes := Some id |}.
Proof.
  intros Hp Hid. destruct (Hp id Hid) as [_ Hne]. unfold PartyIdentity_from_bytes.
  by destruct id.
Qed.

Lemma party_value p l :
  PartyIdentity_wf p → values_ok (opt_entry l (party_bytes p) ByteStr).
Proof.
  intros Hp. destruct (party_bytes p) as [id |] eqn:E; [| constructor].
  apply values_cons; [apply bytes_value_ok, (Hp id E) | constructor].
Qed.

Lemma recipient_values p : parties_wf p → values_ok (recipient_entries p).
Proof.
  intros [Hu Hv]. unfold recipient_entries.
  repeat apply values_app; try by apply party_value.
  - apply values_cons; [by apply int_value_ok | constructor].
  - pose proof (party_labels_i64 p). destruct (party_labels p); [constructor |].
    apply values_cons; [by apply labels_value_ok | constructor].
Qed.

Lemma recipient_steps p :
  parties_wf p →
  steps recipient_entry (None, None, PartyIdentity_nil, PartyIdentity_nil) (recipient_entries p)
    (Some (-25), match party_labels p with [] => None | ls => Some ls end,
     kdf_party_u p, kdf_party_v p).
Proof.
  intros [Hu Hv]. unfold recipient_entries.
  eapply steps_app.
  { apply steps_one. intros Hl d. unfold recipient_entry. eval_tests.
    rewrite read_int_item by done. reflexivity. }
  apply (steps_app _ _ _ _ (Some (-25), match party_labels p with [] => None | ls => Some ls end,
    PartyIdentity_nil, PartyIdentity_nil)).
  { pose proof (party_labels_i64 p). destruct (party_labels p) as [| l ls]; [constructor |].
    apply steps_one. intros Hl d. unfold recipient_entry. eval_tests.
    by rewrite parse_crit_item. }
  eapply steps_app.
  { eapply (steps_opt _ (λ o '(a, c, _, v), (a, c, {| party_bytes := o |}, v))); [| done].
    intros id Hid Hl d. unfold recipient_entry. eval_tests.
    rewrite read_bytes_item by by apply len64_bytes.
    by rewrite (PartyIdentity_from_bytes_wf _ _ Hu Hid). }
  eapply steps_to.
  { eapply (steps_opt _ (λ o '(a, c, u, _), (a, c, u, {| party_bytes := o |}))); [| done].
    intros id Hid Hl d. unfold recipient_entry. eval_tests.
    rewrite read_bytes_item by by apply len64_bytes.
    by rewrite (PartyIdentity_from_bytes_wf _ _ Hv Hid). }
  by destruct p as [[u] [v]].
Qed.

Lemma parse_recipient_item p :
  parties_wf p → len64 (cbor_encode (map_item (recipient_entries p))) →
  parse_recipient_protected (cbor_encode (map_item (recipient_entries p))) = Ok p.
Proof.
  intros Hp Hlen.
  edestruct (header_loop recipient_entry RECIPIENT_ORDER) as (d & Hscan & Hmap & Hloop);
    [apply RECIPIENT_ORDER_ok | apply recipient_labels | by apply recipient_values | exact Hlen
    | by apply recipient_steps |].
  unfold parse_recipient_protected. rewrite encode_nonempty, Hscan, Hmap, Hloop.
  cbn [ok_or]. change (is_some (KeyAgreementAlgorithm_from_codepoint (-25))) with true.
  cbn [negb]. destruct p as [u v]. cbn [kdf_party_u kdf_party_v].
  destruct (party_labels _) as [| l ls] eqn:E; [done |]. by rewrite check_crit_refl.
Qed.

(** *** The unprotected maps *)

Lemma parse_ephemeral_item x d :
  len64 (cbor_encode (map_item (ephemeral_entries x))) → length x = X25519_LEN →
  parse_ephemeral_key (cbor_encode (map_item (ephemeral_entries x)) ++ d) = Ok (x, d).
Proof.
  intros Hlen Hx. apply len64_map in Hlen as [Hn Hl]. unfold parse_ephemeral_key.
  rewrite encode_map_item, <- app_assoc, dt_map_head, dec_map_head by done.
  cbn [ok_or]. eval_tests.
  rewrite (for_labels_steps _ _ _ (Some x, true, true)); [done | prove_ordered | prove_i64s | done |].
  unfold ephemeral_entries.
  eapply steps_cons; [| eapply steps_cons; [| eapply steps_one]]; intros Hl' d';
    unfold ephemeral_entry; eval_tests.
  - by rewrite read_int_item.
  - by rewrite read_int_item.
  - rewrite read_bytes_item by by apply len64_bytes. by rewrite Hx.
Qed.

Lemma parse_unprotected_item {S} es (on_entry : Z → S → bytes_ → result DecodeError (bool * S * bytes_))
    st st' d :
  len64 (cbor_encode (map_item es)) → ordered (labels es) → Forall is_i64 (labels es) →
  steps (λ l st d,
      return_err ClaimsInUnprotected when bool_decide (l ∈ CLAIM_LABELS) otherwise
      let? (known, st, d) := on_entry l st d in
      return_err (UnknownLabel l) when negb known otherwise
      Ok (st, d)) st es st' →
  parse_unprotected (cbor_encode (map_item es) ++ d) on_entry st = Ok (st', d).
Proof.
  intros Hlen Ho Hi Hs. apply len64_map in Hlen as [Hn Hl]. unfold parse_unprotected.
  rewrite encode_map_item, <- app_assoc, read_map_len_head by done.
  by apply for_labels_steps.
Qed.

(** *** Whole messages *)

(** A [COSE_Sign1] message of a layer: its fields are well formed, and its
    protected bytes are the encoding of its header fields. *)
Definition sign1_wf (layer : Sign1Layer) (m : DecodedSign1) : Prop :=
  KeyId_wf (s_kid m) ∧ headers_wf (s_protected_headers m) ∧ s_signature m ≠ [] ∧
  match layer with
  | Bare =>
      ∃ ct, s_content_type m = Some ct ∧ ContentType_wf ct ∧ opt_wf claims_wf (s_claims m) ∧
            claim_field (s_claims m) response_public_key_cose = None ∧
            encode_sign1_protected_bare_with_headers (s_algorithm m) (s_kid m) ct (s_claims m)
              (Some (s_protected_headers m)) = Ok (s_protected m)
  | SealedOuter =>
      s_content_type m = None ∧ s_claims m = None ∧
      encode_sign1_protected_sealed_outer_with_headers (s_algorithm m) (s_kid m)
        (Some (s_protected_headers m)) = Ok (s_protected m)
  end.

Lemma claims_wf_encodable c :
  opt_wf claims_wf c → binding_broken c = false ∧ response_key_text c.
Proof.
  destruct c as [c |]; [| by split]. intros Hc. simpl in *. unfold response_key_text. simpl. split.
  - by rewrite (wf_binding _ Hc).
  - intros k Hk. pose proof (wf_response_key_id _ Hc) as Hr. rewrite Hk in Hr. by destruct Hr.
Qed.

Lemma algorithm_codepoint a :
  SignatureAlgorithm_from_codepoint (SignatureAlgorithm_codepoint a) = Some a.
Proof. by destruct a. Qed.

Lemma content_codepoint a :
  ContentAlgorithm_from_codepoint (ContentAlgorithm_codepoint a) = Some a.
Proof. by destruct a. Qed.

Lemma decode_sign1_layer_complete layer m :
  sign1_wf layer m → len64 (s_protected m) →
  decode_sign1_layer (s_protected m) layer
  = Ok (s_algorithm m, s_kid m, s_content_type m, s_claims m, s_protected_headers m, s_protected m).
Proof.
  intros (Hk & Hh & _ & Hm) Hlen. unfold decode_sign1_layer. destruct layer.
  - destruct Hm as (ct & -> & Hct & Hc & Hpk & He). pose proof He as He'.
    apply encode_bare_item in He as (_ & _ & Hp). rewrite Hp in Hlen |- *.
    unfold bare_entries in *. rewrite parse_claims_capable_header_item; try done;
      [| by destruct (s_algorithm m)]. cbn [h_alg h_kid h_content_type h_claims h_protected_headers].
    rewrite algorithm_codepoint. cbn [ok_or].
    unfold finish_claims_capable. cbn [h_content_type h_claims h_crit h_protected_headers is_some negb].
    rewrite check_crit_refl. fold (bare_entries (s_algorithm m) (s_kid m) ct (s_claims m)
      (s_protected_headers m)) in *. rewrite He'. simpl. by rewrite Hp.
  - destruct Hm as (-> & -> & He). pose proof He as He'.
    rewrite encode_outer_item in He. injection He as Hp. rewrite <- Hp in Hlen |- *.
    rewrite parse_sealed_outer_item by done. cbv iota beta. by rewrite He', Hp.
Qed.

Lemma is_bytes_app (x y : bytes_) : is_bytes (x ++ y) ↔ is_bytes x ∧ is_bytes y.
Proof. apply Forall_app. Qed.

Lemma sign1_item_bytes p x g :
  is_bytes (cbor_encode (sign1_item p x g)) → is_bytes p ∧ is_bytes x ∧ is_bytes g.
Proof.
  unfold sign1_item. rewrite encode_tag, encode_arr. cbn [flat_map]. unfold cbor_encode.
  rewrite !is_bytes_app. tauto.
Qed.

Lemma scan_sign1 p x g :
  is_bytes (cbor_encode (sign1_item p x g)) → len64 (cbor_encode (sign1_item p x g)) →
  scan (cbor_encode (sign1_item p x g)) = Ok {| top_tag := Some TAG_SIGN1 |}.
Proof.
  intros Hb Hlen. apply sign1_item_bytes in Hb as (Hp & Hx & Hg).
  rewrite scan_encode; [done | | simpl; unfold MAX_DEPTH; lia].
  apply item_shape_wf; [| done]. simpl. split_and!; try done. by exists 0%nat.
Qed.

Lemma decode_sign1_complete layer m b :
  is_bytes b → len64 b → sign1_wf layer m →
  assemble_sign1 (s_protected m) (s_payload m) (s_signature m) = Ok b →
  decode_sign1_strict b layer = Ok m.
Proof.
  intros Hb Hlen Hm Ha. pose proof Ha as Ha'. rewrite assemble_sign1_item in Ha. injection Ha as <-.
  unfold decode_sign1_strict. rewrite scan_sign1 by done. cbn [check_tag top_tag]. eval_tests.
  assert (len64 (s_protected m) ∧ len64 (s_payload m) ∧ len64 (s_signature m)) as (Hp & Hx & Hg).
  { revert Hlen. unfold sign1_item, len64, u64. rewrite encode_tag, encode_arr. cbn [flat_map].
    unfold cbor_encode. rewrite !length_app. lia. }
  set (b := cbor_encode (sign1_item _ _ _)).
  assert (dec_tag b = Some (TAG_SIGN1, cbor_head 4 4 ++ cbor_encode (ByteStr (s_protected m))
    ++ cbor_encode (map_item []) ++ cbor_encode (ByteStr (s_payload m))
    ++ cbor_encode (ByteStr (s_signature m)) ++ [])) as ->.
  { unfold b, sign1_item. rewrite encode_tag, <- enc_tag_head, dec_enc_tag by done. done. }
  cbn [ok_or]. rewrite read_array_len_head by done. cbn [N.eqb Pos.eqb negb].
  rewrite expect_bytes_item by done.
  rewrite (parse_unprotected_item [] _ tt tt); [| done | prove_ordered | prove_i64s | constructor].
  rewrite read_payload_item, read_bytes_item by done. simpl map_err. cbv iota beta.
  destruct Hm as (Hk & Hh & Hne & Hm). rewrite (proj2 (Nat.eqb_neq _ _)) by by destruct (s_signature m).
  rewrite decode_sign1_layer_complete by done. rewrite Ha'. simpl.
  rewrite bool_decide_eq_true_2 by done. by destruct m.
Qed.

Definition expectation_ok (e : ClaimsExpectation) (c : option Claims) : Prop :=
  match e with
  | ClaimsRequired => is_Some c
  | ClaimsForbidden => c = None
  | ClaimsOptional => True
  end.

Definition assembly_of (m : DecodedEncrypt) : EncryptAssembly :=
  {| a_protected := e_protected m; a_iv := e_iv m; a_ciphertext := e_ciphertext m;
     a_recipient_protected := e_recipient_protected m; a_recipient_kid := e_recipient_kid m;
     a_ephemeral_x := e_ephemeral_x m |}.

(** A [COSE_Encrypt] message: well-formed fields, and protected bytes that
    are the encodings of the header fields of the two layers. *)
Definition encrypt_wf (e : ClaimsExpectation) (m : DecodedEncrypt) : Prop :=
  ContentType_wf (e_content_type m) ∧ opt_wf claims_wf (e_claims m) ∧
  expectation_ok e (e_claims m) ∧ length (e_iv m) = NONCE_LEN ∧
  KeyId_wf (e_recipient_kid m) ∧ length (e_ephemeral_x m) = X25519_LEN ∧
  parties_wf (e_parties m) ∧
  encode_encrypt_protected (e_content_algorithm m) (e_content_type m) (e_claims m)
  = Ok (e_protected m) ∧
  encode_recipient_protected (e_parties m) = Ok (e_recipient_protected m).

Lemma bytestr_bytes x : is_bytes (cbor_encode (ByteStr x)) → is_bytes x.
Proof. unfold cbor_encode. rewrite is_bytes_app. tauto. Qed.

Lemma encrypt_item_bytes a :
  is_bytes (cbor_encode (encrypt_item a)) →
  is_bytes (a_protected a) ∧ is_bytes (a_iv a) ∧ is_bytes (a_ciphertext a) ∧
  is_bytes (a_recipient_protected a) ∧ is_bytes (key_id_bytes (a_recipient_kid a)) ∧
  is_bytes (a_ephemeral_x a).
Proof.
  unfold encrypt_item, ephemeral_entries.
  rewrite encode_tag, encode_arr. cbn [flat_map]. rewrite !encode_arr. cbn [flat_map].
  rewrite !encode_arr. cbn [flat_map].
  rewrite !encode_map_item, !entries_bytes_cons, !encode_map_item, !entries_bytes_cons.
  rewrite !is_bytes_app. intros. destruct_and!. split_and!; by apply bytestr_bytes.
Qed.

Lemma scan_encrypt a :
  is_bytes (cbor_encode (encrypt_item a)) → len64 (cbor_encode (encrypt_item a)) →
  scan (cbor_encode (encrypt_item a)) = Ok {| top_tag := Some TAG_ENCRYPT |}.
Proof.
  intros Hb Hlen. apply encrypt_item_bytes in Hb as (Hp & Hiv & Hc & Hr & Hk & Hx).
  rewrite scan_encode; [done | | simpl; unfold MAX_DEPTH; lia].
  apply item_shape_wf; [| done]. simpl. unfold u64.
  split_and!; try done; try (by exists 1%nat); try (by exists 2%nat); try (by exists 3%nat); lia.
Qed.

Lemma iv_item iv d :
  len64 (cbor_encode (map_item [(HDR_IV, ByteStr iv)])) → length iv = NONCE_LEN →
  parse_unprotected (cbor_encode (map_item [(HDR_IV, ByteStr iv)]) ++ d) iv_entry None
  = Ok (Some iv, d).
Proof.
  intros Hlen Hiv. apply parse_unprotected_item; [done | prove_ordered | prove_i64s |].
  apply steps_one. intros Hl d'. unfold iv_entry. eval_tests.
  rewrite read_bytes_item by by apply len64_bytes. by rewrite Hiv.
Qed.

Definition recipient_item (a : EncryptAssembly) : item :=
  Arr [ByteStr (a_recipient_protected a);
       map_item [(HDR_KID, ByteStr (key_id_bytes (a_recipient_kid a)));
                 (HDR_EPHEMERAL_KEY, map_item (ephemeral_entries (a_ephemeral_x a)))];
       null_item].

Lemma decode_recipient_item a :
  len64 (cbor_encode (Arr [recipient_item a])) → KeyId_wf (a_recipient_kid a) →
  length (a_ephemeral_x a) = X25519_LEN →
  decode_recipient (cbor_encode (Arr [recipient_item a]))
  = Ok (a_recipient_protected a, a_recipient_kid a, a_ephemeral_x a).
Proof.
  intros Hlen Hk Hx. apply len64_arr in Hlen as [_ [Hr _]%Forall_cons_iff].
  apply len64_arr in Hr as [_ Hr]. apply Forall_cons_iff in Hr as [Hp Hr].
  apply Forall_cons_iff in Hr as [Hm _].
  unfold decode_recipient, recipient_item. rewrite encode_arr. cbn [flat_map].
  rewrite read_array_len_head by done. cbn [N.eqb N.of_nat length Pos.of_succ_nat Pos.eqb negb].
  rewrite encode_arr, <- app_assoc. cbn [flat_map].
  rewrite read_array_len_head by done.
  cbn [N.eqb N.of_nat length Pos.of_succ_nat Pos.succ Pos.eqb negb].
  rewrite <- !app_assoc, expect_bytes_item by by apply len64_bytes.
  rewrite (parse_unprotected_item _ _ (None, None)
    (Some (a_recipient_kid a), Some (a_ephemeral_x a))); [| done | prove_ordered | prove_i64s |].
  - cbn [fst snd ok_or]. unfold dt. rewrite <- enc_null_item, datatype_null. cbn [ok_or].
    by rewrite dec_enc_null.
  - eapply steps_cons; [| eapply steps_one]; intros Hl d; unfold recipient_unprotected_entry;
      eval_tests; [by rewrite read_key_id_item | by rewrite parse_ephemeral_item].
Qed.

Lemma encrypt_lengths a :
  len64 (cbor_encode (encrypt_item a)) →
  len64 (a_protected a) ∧ len64 (cbor_encode (map_item [(HDR_IV, ByteStr (a_iv a))])) ∧
  len64 (a_ciphertext a) ∧ len64 (cbor_encode (Arr [recipient_item a])) ∧
  len64 (a_recipient_protected a).
Proof.
  unfold encrypt_item. rewrite encode_tag, encode_arr. cbn [flat_map].
  fold (recipient_item a). intros Hlen.
  assert (len64 (cbor_encode (ByteStr (a_protected a))) ∧
    len64 (cbor_encode (map_item [(HDR_IV, ByteStr (a_iv a))])) ∧
    len64 (cbor_encode (ByteStr (a_ciphertext a))) ∧
    len64 (cbor_encode (Arr [recipient_item a]))) as (H1 & H2 & H3 & H4)
    by (revert Hlen; unfold len64, u64; rewrite !length_app; lia).
  split_and!; [by apply len64_bytes | done | by apply len64_bytes | done |].
  apply len64_arr in H4 as [_ [Hr _]%Forall_cons_iff].
  apply len64_arr in Hr as [_ [Hr _]%Forall_cons_iff]. by apply len64_bytes.
Qed.

Lemma parse_content_header e m :
  encrypt_wf e m → len64 (e_protected m) →
  ∃ h, parse_claims_capable_header (e_protected m) false = Ok h ∧
       h_alg h = ContentAlgorithm_codepoint (e_content_algorithm m) ∧
       finish_claims_capable h e = Ok tt ∧ h_content_type h = Some (e_content_type m) ∧
       h_claims h = e_claims m.
Proof.
  intros (Hct & Hc & He & _ & _ & _ & _ & Hp & _) Hlen.
  apply encode_content_item in Hp as (_ & _ & Hp). rewrite Hp in *. eexists. split.
  - apply parse_claims_capable_header_item; try done; by destruct (e_content_algorithm m).
  - cbn [h_alg h_content_type h_claims]. split_and!; try done.
    unfold finish_claims_capable.
    cbn [h_content_type h_claims h_crit h_protected_headers is_some negb].
    rewrite check_crit_refl.
    destruct e, (e_claims m); try done; simpl in He; by try destruct He.
Qed.

Lemma parse_recipient_complete e m :
  encrypt_wf e m → len64 (e_recipient_protected m) →
  parse_recipient_protected (e_recipient_protected m) = Ok (e_parties m).
Proof.
  intros (_ & _ & _ & _ & _ & _ & Hp & _ & Hr) Hlen.
  rewrite encode_recipient_item in Hr. injection Hr as Hr. rewrite <- Hr in *.
  by apply parse_recipient_item.
Qed.

Lemma decode_encrypt_complete e m b :
  is_bytes b → len64 b → encrypt_wf e m → assemble_encrypt (assembly_of m) = Ok b →
  decode_encrypt_strict b e = Ok m.
Proof.
  intros Hb Hlen Hm Ha. pose proof Ha as Ha'. rewrite assemble_encrypt_item in Ha. injection Ha as <-.
  destruct (encrypt_lengths _ Hlen) as (Hlp & Hliv & Hlc & Hlr & Hlrp).
  destruct (parse_content_header e m Hm Hlp) as (h & Hh & Hal & Hfin & Hhct & Hhc).
  pose proof (parse_recipient_complete e m Hm Hlrp) as Hrec.
  destruct Hm as (Hct & Hc & He & Hiv & Hk & Hx & Hpt & Hp & Hrp).
  unfold decode_encrypt_strict. rewrite scan_encrypt by done. cbn [check_tag top_tag]. eval_tests.
  set (b := cbor_encode (encrypt_item _)).
  assert (dec_tag b = Some (TAG_ENCRYPT, cbor_head 4 4 ++ cbor_encode (ByteStr (e_protected m))
    ++ cbor_encode (map_item [(HDR_IV, ByteStr (e_iv m))])
    ++ cbor_encode (ByteStr (e_ciphertext m))
    ++ cbor_encode (Arr [recipient_item (assembly_of m)]))) as ->.
  { unfold b, encrypt_item. rewrite encode_tag, <- enc_tag_head, dec_enc_tag by done.
    do 2 f_equal. rewrite encode_arr. cbn [flat_map]. by rewrite app_nil_r. }
  cbn [ok_or]. rewrite read_array_len_head by done. cbn [N.eqb Pos.eqb negb].
  rewrite expect_bytes_item, iv_item by done. cbn [ok_or].
  rewrite read_payload_item, decode_recipient_item by done.
  cbn [a_recipient_protected a_recipient_kid a_ephemeral_x assembly_of].
  rewrite Hh, Hal, content_codepoint. cbn [ok_or]. rewrite Hfin, Hhct, Hhc. cbn [ok_or].
  rewrite Hrec, Hp, Hrp. unfold rebuild. cbn [map_err].
  change {| a_protected := e_protected m; a_iv := _; a_ciphertext := _; a_recipient_protected := _;
            a_recipient_kid := _; a_ephemeral_x := _ |} with (assembly_of m).
  rewrite Ha'. simpl. rewrite bool_decide_eq_true_2 by done. by destruct m.
Qed.
End complete.
