(* ===== verification/CoseExact.v ===== *)
(** * What the strict decoders accept

    The invariants of the decoder loops: every field a decoder returns is a
    well-formed value of its type.  With the final comparison of the rebuilt
    bytes this makes the decoders exact. *)

From S2P Require Import Prelude RustStr Bytes BTreeMap CoseTypes Cbor CoseCodec CoseCbor.
From S2P Require Import CoseCodecProofs CoseStrict.

Local Open Scope Z_scope.

#[local] Arguments cbor_encode : simpl never.
#[local] Arguments entries_bytes : simpl never.
#[local] Arguments int_item : simpl never.
#[local] Arguments cbor_head : simpl never.

(** ** The checked constructors *)

Lemma identifier_Ok {T} (r : result ProfileError T) x : identifier r = Ok x → r = Ok x.
Proof. apply map_err_ok. Qed.

Lemma KeyId_from_bytes_Ok b k : is_bytes b → KeyId_from_bytes b = Ok k → KeyId_wf k.
Proof. unfold KeyId_from_bytes. intros Hb H. inv_ok H. bool_facts. split; simpl; [done | lia]. Qed.

Lemma MessageId_from_bytes_Ok b m : is_bytes b → MessageId_from_bytes b = Ok m → MessageId_wf m.
Proof. unfold MessageId_from_bytes. intros Hb H. inv_ok H. bool_facts. split; simpl; [done | lia]. Qed.

Lemma Subject_new_Ok s x : utf8 s → Subject_new s = Ok x → Subject_wf x.
Proof. unfold Subject_new. intros Hs H. by inv_ok H. Qed.

Lemma ResponseSubject_new_Ok s x : utf8 s → ResponseSubject_new s = Ok x → ResponseSubject_wf x.
Proof. unfold ResponseSubject_new. intros Hs H. by inv_ok H. Qed.

Lemma ContentType_new_Ok s x : utf8 s → ContentType_new s = Ok x → ContentType_wf x.
Proof.
  intros Hs H. pose proof H as H'. unfold ContentType_new in H. inv_ok H. by split.
Qed.

Lemma KeyId_from_text_Ok s k :
  utf8 s → KeyId_from_text s = Ok k → KeyId_wf k ∧ is_utf8 (key_id_bytes k) = true.
Proof.
  intros Hs H. unfold KeyId_from_text in H. split.
  - eapply KeyId_from_bytes_Ok; [| done]. by apply is_utf8_is_bytes.
  - unfold KeyId_from_bytes in H. by inv_ok H.
Qed.

Lemma FreshnessChallenge_from_bytes_Ok b c :
  is_bytes b → FreshnessChallenge_from_bytes b = Ok c → FreshnessChallenge_wf c.
Proof.
  unfold FreshnessChallenge_from_bytes. intros Hb H. inv_ok H. bool_facts. by split.
Qed.

Lemma PartyIdentity_from_bytes_Ok b p :
  is_bytes b → PartyIdentity_from_bytes b = Ok p → PartyIdentity_wf p.
Proof.
  unfold PartyIdentity_from_bytes. intros Hb H. inv_ok H. bool_facts.
  intros id [= <-]. split; [done |]. by intros ->.
Qed.

Lemma from_cose_key_bytes_Ok `{HP : Primitives} b k :
  is_bytes b → from_cose_key_bytes b = Ok k → ResponseKey_wf k.
Proof.
  unfold from_cose_key_bytes. intros Hb H. inv_ok H. bool_facts.
  apply ok_or_Ok, strip_bytes_Some in E as ->. apply is_bytes_app in Hb as [_ Hb].
  pose proof H as H'. unfold from_public_bytes in H'. inv_ok H'. by split_and!.
Qed.

(** ** Loop invariants *)

Section sound.
Context `{HM : Minicbor} {HL : MinicborLaws} `{HP : Primitives}.

Record parts_wf (p : ClaimsParts) : Prop := {
  pw_issuer : opt_wf Subject_wf (p_issuer p);
  pw_audience : opt_wf Subject_wf (p_audience p);
  pw_expires_at : opt_wf is_i64 (p_expires_at p);
  pw_issued_at : opt_wf is_i64 (p_issued_at p);
  pw_message_id : opt_wf MessageId_wf (p_message_id p);
  pw_in_reply_to : opt_wf MessageId_wf (p_in_reply_to p);
  pw_request_hash : opt_wf RequestHash_wf (p_request_hash p);
  pw_sender_key_id : opt_wf KeyId_wf (p_sender_key_id p);
  pw_response_key_id :
    opt_wf (λ k, KeyId_wf k ∧ is_utf8 (key_id_bytes k) = true) (p_response_key_id p);
  pw_response_subject : opt_wf ResponseSubject_wf (p_response_subject p);
  pw_freshness_challenge : opt_wf FreshnessChallenge_wf (p_freshness_challenge p);
  pw_response_key : opt_wf ResponseKey_wf (p_response_public_key_cose p);
}.

(** An assignment keeps the other fields. *)
Ltac set_wf := match goal with H : parts_wf ?p |- _ => destruct p, H; split; simpl in *; done end.

Lemma into_claims_wf p c : parts_wf p → into_claims p = Ok c → opt_wf claims_wf c.
Proof.
  intros Hp H. unfold into_claims in H. destruct (negb (p_cwt_present p)); inv_ok H; [done |].
  apply ok_or_Ok in E, E0. bool_facts. destruct Hp. rewrite E in *. rewrite E0 in *.
  simpl. by split.
Qed.

(** Take a chain of reads apart: the facts about each value read, and that
    the rest of the input is a suffix. *)
Ltac read_facts :=
  repeat match goal with
  | H : identifier _ = Ok _ |- _ => apply identifier_Ok in H
  | H : map_err _ (FreshnessChallenge_from_bytes _) = Ok _ |- _ => apply map_err_ok in H
  | Hb : is_bytes ?b, H : FreshnessChallenge_from_bytes ?b = Ok _ |- _ =>
      apply (FreshnessChallenge_from_bytes_Ok _ _ Hb) in H
  | H : read_time _ _ = Ok _ |- _ => apply read_time_Ok in H as [? ?]
  | H : read_int _ _ = Ok _ |- _ => apply read_int_Ok in H as [? ?]
  | Hd : is_bytes ?d, H : read_str ?d _ = Ok _ |- _ => apply (read_str_Ok _ _ _ _ Hd) in H as [? ?]
  | Hd : is_bytes ?d, H : read_bytes ?d _ = Ok _ |- _ =>
      apply (read_bytes_Ok _ _ _ _ Hd) in H as [? ?]
  | Hb : is_bytes ?b, H : KeyId_from_bytes ?b = Ok _ |- _ => apply (KeyId_from_bytes_Ok _ _ Hb) in H
  | Hb : is_bytes ?b, H : MessageId_from_bytes ?b = Ok _ |- _ =>
      apply (MessageId_from_bytes_Ok _ _ Hb) in H
  | Hb : is_bytes ?b, H : from_cose_key_bytes ?b = Ok _ |- _ =>
      apply (from_cose_key_bytes_Ok _ _ Hb) in H
  | Hb : is_bytes ?b, H : PartyIdentity_from_bytes ?b = Ok _ |- _ =>
      apply (PartyIdentity_from_bytes_Ok _ _ Hb) in H
  | Hs : utf8 ?s, H : Subject_new ?s = Ok _ |- _ => apply (Subject_new_Ok _ _ Hs) in H
  | Hs : utf8 ?s, H : ResponseSubject_new ?s = Ok _ |- _ =>
      apply (ResponseSubject_new_Ok _ _ Hs) in H
  | Hs : utf8 ?s, H : ContentType_new ?s = Ok _ |- _ => apply (ContentType_new_Ok _ _ Hs) in H
  | Hs : utf8 ?s, H : KeyId_from_text ?s = Ok _ |- _ =>
      apply (KeyId_from_text_Ok _ _ Hs) in H
  end.

Lemma cwt_entry_wf l p d p' d' :
  parts_wf p → is_bytes d → cwt_entry l p d = Ok (p', d') → parts_wf p' ∧ d' `suffix_of` d.
Proof.
  intros Hp Hd H. unfold cwt_entry in H.
  repeat (destruct (l =? _); [inv_reads H; read_facts; (split; [set_wf | done]) |]). done.
Qed.

Lemma parse_cwt_map_wf d p p' d' :
  parts_wf p → is_bytes d → parse_cwt_map d p = Ok (p', d') → parts_wf p' ∧ d' `suffix_of` d.
Proof.
  intros Hp Hd H. unfold parse_cwt_map in H. inv_reads H.
  apply read_map_len_Ok in E.
  apply (for_labels_inv _ parts_wf) in E0 as [Hp' Hs];
    [| by eauto using cwt_entry_wf | done | by eapply is_bytes_suffix].
  split; [set_wf | by etrans].
Qed.

Lemma basil_entry_wf l p d p' d' :
  parts_wf p → is_bytes d → basil_entry l p d = Ok (Some (p', d')) →
  parts_wf p' ∧ d' `suffix_of` d.
Proof.
  intros Hp Hd H. unfold basil_entry in H.
  repeat (destruct (l =? _);
    [inv_reads H; read_facts; bool_facts; (split; [set_wf | done]) |]). done.
Qed.

Lemma parse_basil_label_wf d l p known p' d' :
  parts_wf p → is_bytes d → parse_basil_label d l p = Ok (known, p', d') →
  parts_wf p' ∧ d' `suffix_of` d.
Proof.
  intros Hp Hd H. unfold parse_basil_label in H.
  destruct (basil_entry l p d) as [[[p1 d1] |] |] eqn:E; simplify_eq; [| done].
  apply basil_entry_wf in E as [Hp1 Hs]; [| done | done]. split; [set_wf | done].
Qed.

Record vars_wf (v : HeaderVars) : Prop := {
  vw_alg : opt_wf is_i64 (v_alg v);
  vw_content_type : opt_wf ContentType_wf (v_content_type v);
  vw_kid : opt_wf KeyId_wf (v_kid v);
  vw_parts : parts_wf (v_parts v);
  vw_jwts : Forall utf8 (v_jwts v);
  vw_key : opt_wf is_bytes (v_key v);
  vw_target : opt_wf KeyId_wf (v_target v);
}.

Ltac set_vars := match goal with H : vars_wf ?v |- _ => destruct v, H; split; simpl in *; done end.

Lemma vars_init_wf : vars_wf HeaderVars_init.
Proof. by repeat constructor. Qed.

Lemma read_key_id_Ok d l k d' :
  is_bytes d → read_key_id d l = Ok (k, d') → KeyId_wf k ∧ d' `suffix_of` d.
Proof. intros Hd H. unfold read_key_id in H. inv_reads H. by read_facts. Qed.

Lemma parse_crit_Ok d ls d' : is_bytes d → parse_crit d = Ok (ls, d') → d' `suffix_of` d.
Proof.
  intros Hd H. unfold parse_crit in H. inv_reads H. apply read_array_len_Ok in E.
  apply (read_n_Ok is_i64) in H as [_ Hs];
    [by etrans | by intros; eapply read_label_Ok | by eapply is_bytes_suffix].
Qed.

Lemma read_string_array_Ok d l ss d' :
  is_bytes d → read_string_array d l = Ok (ss, d') → Forall utf8 ss ∧ d' `suffix_of` d.
Proof.
  intros Hd H. unfold read_string_array in H. inv_reads H. apply read_array_len_Ok in E.
  apply (read_n_Ok utf8) in H as [Hu Hs];
    [split; [done | by etrans] | by intros; eapply read_str_Ok | by eapply is_bytes_suffix].
Qed.

Ltac header_facts :=
  read_facts;
  repeat match goal with
  | Hd : is_bytes ?d, H : read_key_id ?d _ = Ok _ |- _ =>
      apply (read_key_id_Ok _ _ _ _ Hd) in H as [? ?]
  | Hd : is_bytes ?d, H : parse_crit ?d = Ok _ |- _ => apply (parse_crit_Ok _ _ _ Hd) in H
  | Hd : is_bytes ?d, H : read_string_array ?d _ = Ok _ |- _ =>
      apply (read_string_array_Ok _ _ _ _ Hd) in H as [? ?]
  end.

Ltac case_label H :=
  lazymatch type of H with (if ?c then _ else _) = Ok _ => destruct c end.

Lemma header_entry_wf b l v d v' d' :
  vars_wf v → is_bytes d → header_entry b l v d = Ok (v', d') → vars_wf v' ∧ d' `suffix_of` d.
Proof.
  intros Hv Hd H. pose proof (vw_parts _ Hv) as Hp. unfold header_entry in H.
  do 4 (case_label H; [inv_reads H; header_facts; (split; [set_vars | done]) |]).
  case_label H.
  { inv_reads H. apply parse_cwt_map_wf in E as [Hp' Hs]; [| done | done].
    split; [set_vars | done]. }
  do 3 (case_label H; [inv_reads H; header_facts; (split; [set_vars | done]) |]).
  inv_reads H. apply parse_basil_label_wf in E as [Hp' Hs]; [| done | done].
  split; [set_vars | done].
Qed.

Lemma sealed_outer_entry_wf l v d v' d' :
  vars_wf v → is_bytes d → sealed_outer_entry l v d = Ok (v', d') →
  vars_wf v' ∧ d' `suffix_of` d.
Proof.
  intros Hv Hd H. unfold sealed_outer_entry in H.
  do 6 (case_label H; [inv_reads H; header_facts; (split; [set_vars | done]) |]). done.
Qed.

Lemma v_headers_wf v : vars_wf v → headers_wf (v_protected_headers v).
Proof. intros [_ _ _ _ ? ? ?]. by split_and!. Qed.

Lemma parse_claims_capable_header_wf b allow h :
  is_bytes b → parse_claims_capable_header b allow = Ok h →
  opt_wf ContentType_wf (h_content_type h) ∧ opt_wf KeyId_wf (h_kid h) ∧
  opt_wf claims_wf (h_claims h) ∧ headers_wf (h_protected_headers h) ∧
  (allow = true → claim_field (h_claims h) response_public_key_cose = None).
Proof.
  intros Hb H. unfold parse_claims_capable_header in H. inv_reads H.
  apply read_map_len_Ok in E1.
  apply (for_labels_inv _ vars_wf) in E2 as [Hv _];
    [| by eauto using header_entry_wf | apply vars_init_wf | by eapply is_bytes_suffix].
  apply into_claims_wf in E4; [| apply Hv]. simpl.
  split_and!; try apply Hv; [done | by apply v_headers_wf |].
  intros ->. simpl in *. by destruct (claim_field _ _).
Qed.

Lemma parse_sealed_outer_wf b a kid h :
  is_bytes b → parse_sealed_outer_protected b = Ok (a, kid, h) → KeyId_wf kid ∧ headers_wf h.
Proof.
  intros Hb H. unfold parse_sealed_outer_protected in H. inv_reads H.
  apply read_map_len_Ok in E1.
  apply (for_labels_inv _ vars_wf) in E2 as [Hv _];
    [| by eauto using sealed_outer_entry_wf | apply vars_init_wf | by eapply is_bytes_suffix].
  apply ok_or_Ok in E5. split; [| by apply v_headers_wf].
  pose proof (vw_kid _ Hv) as Hk. by rewrite E5 in Hk.
Qed.

Lemma parse_recipient_wf b p :
  is_bytes b → parse_recipient_protected b = Ok p → parties_wf p.
Proof.
  intros Hb H. unfold parse_recipient_protected in H. inv_reads H.
  apply read_map_len_Ok in E1.
  apply (for_labels_inv _ (λ '(_, _, u, v), PartyIdentity_wf u ∧ PartyIdentity_wf v)) in E2
    as [Hv _]; [done | | done | by eapply is_bytes_suffix].
  clear -HL. intros l [[[a c] u] v] d [[[a' c'] u'] v'] d' [Hu Hv] Hd H. unfold recipient_entry in H.
  do 4 (case_label H; [inv_reads H; header_facts; by split_and! |]). done.
Qed.

(** *** The unprotected maps *)

Lemma parse_unprotected_inv {S} (P : S → Prop) d
    (on_entry : Z → S → bytes_ → result DecodeError (bool * S * bytes_)) st st' d' :
  (∀ l st d known st' d', P st → is_bytes d → on_entry l st d = Ok (known, st', d') →
     P st' ∧ d' `suffix_of` d) →
  P st → is_bytes d → parse_unprotected d on_entry st = Ok (st', d') →
  P st' ∧ d' `suffix_of` d.
Proof.
  intros Hstep Hst Hd H. unfold parse_unprotected in H. inv_reads H. apply read_map_len_Ok in E.
  apply (for_labels_inv _ P) in H as [Hp Hs];
    [split; [done | by etrans] | | done | by eapply is_bytes_suffix].
  clear -Hstep. intros l st d st' d' Hst Hd H. inv_reads H. by eapply Hstep.
Qed.

Lemma iv_entry_wf l iv d known iv' d' :
  opt_wf (λ x, length x = NONCE_LEN) iv → is_bytes d → iv_entry l iv d = Ok (known, iv', d') →
  opt_wf (λ x, length x = NONCE_LEN) iv' ∧ d' `suffix_of` d.
Proof.
  intros Hiv Hd H. unfold iv_entry in H. case_label H; [by simplify_eq |].
  inv_reads H. read_facts. bool_facts. by split.
Qed.

Lemma parse_ephemeral_key_wf d x d' :
  is_bytes d → parse_ephemeral_key d = Ok (x, d') → length x = X25519_LEN ∧ d' `suffix_of` d.
Proof.
  intros Hd H. unfold parse_ephemeral_key in H. inv_reads H.
  apply ok_or_Ok, dec_map_suffix in E1.
  apply (for_labels_inv _ (λ '(x, _, _), opt_wf (λ x, length x = X25519_LEN) x)) in E4
    as [Hx Hs]; [| | done | by eapply is_bytes_suffix].
  - apply ok_or_Ok in E6. rewrite E6 in Hx. split; [done | by etrans].
  - clear -HL. intros l [[x k] c] d [[x' k'] c'] d' Hx Hd H. unfold ephemeral_entry in H.
    do 3 (case_label H; [inv_reads H; read_facts; bool_facts; by split |]). done.
Qed.

Definition recipient_state_wf (st : option KeyId * option bytes_) : Prop :=
  opt_wf KeyId_wf (fst st) ∧ opt_wf (λ x, length x = X25519_LEN) (snd st).

Lemma recipient_unprotected_wf l st d known st' d' :
  recipient_state_wf st → is_bytes d →
  recipient_unprotected_entry l st d = Ok (known, st', d') →
  recipient_state_wf st' ∧ d' `suffix_of` d.
Proof.
  unfold recipient_state_wf. destruct st as [k x]. intros [Hk Hx] Hd H.
  unfold recipient_unprotected_entry in H.
  case_label H; [inv_reads H; header_facts; by split_and! |].
  case_label H; [| by simplify_eq].
  inv_reads H. apply parse_ephemeral_key_wf in E as [? ?]; [by split_and! | done].
Qed.

Lemma expect_bytes_Ok d x d' :
  is_bytes d → expect_bytes d = Ok (x, d') → is_bytes x ∧ d' `suffix_of` d.
Proof.
  intros Hd H. apply (read_bytes_Ok d 0); [done |]. unfold expect_bytes in H. unfold read_bytes.
  inv_ok H. by rewrite H.
Qed.

Lemma read_payload_Ok d x d' :
  is_bytes d → read_payload d = Ok (x, d') → is_bytes x ∧ d' `suffix_of` d.
Proof.
  intros Hd H. apply (expect_bytes_Ok d); [done |]. unfold read_payload in H. unfold expect_bytes.
  destruct (dt d) as [t |]; [| done]. by destruct t.
Qed.

Lemma decode_recipient_wf d rp kid x :
  is_bytes d → decode_recipient d = Ok (rp, kid, x) →
  is_bytes rp ∧ KeyId_wf kid ∧ length x = X25519_LEN.
Proof.
  intros Hd H. unfold decode_recipient in H. inv_reads H. apply ok_or_Ok in E6, E7.
  apply read_array_len_Ok in E, E1.
  assert (is_bytes d1) as Hd1 by (eapply is_bytes_suffix; [| by etrans]; done).
  apply expect_bytes_Ok in E4 as [Hrp Hs]; [| done].
  apply (parse_unprotected_inv recipient_state_wf) in E5 as [[Hk Hx] _];
    [| by eauto using recipient_unprotected_wf | done | by eapply is_bytes_suffix].
  rewrite E6 in Hk. rewrite E7 in Hx. done.
Qed.

(** ** Exactness *)

Lemma decode_sign1_layer_sound protected layer a kid ct c h rebuilt :
  is_bytes protected →
  decode_sign1_layer protected layer = Ok (a, kid, ct, c, h, rebuilt) →
  ∀ payload signature, signature ≠ [] →
  sign1_wf layer {| s_protected := rebuilt; s_algorithm := a; s_kid := kid; s_content_type := ct;
                    s_claims := c; s_protected_headers := h; s_payload := payload;
                    s_signature := signature |}.
Proof.
  intros Hb H payload signature Hs. unfold decode_sign1_layer in H. destruct layer; inv_reads H.
  - apply parse_claims_capable_header_wf in E as (Hct & Hk & Hc & Hh & Hpk); [| done].
    apply ok_or_Ok in E2, E3. rewrite E2 in Hk. rewrite E3 in Hct. apply map_err_ok in E4.
    unfold sign1_wf. simpl. split_and!; try done. eexists.
    split_and!; [done | done | done | by apply Hpk | done].
  - apply parse_sealed_outer_wf in E as [Hk Hh]; [| done]. apply map_err_ok in E0.
    by split_and!.
Qed.

(** The first element of a tagged array of four. *)
Lemma first_of_tagged t p rest d n d1 q d2 :
  u64 t → len64 p →
  dec_tag (cbor_head 6 t ++ cbor_head 4 4 ++ cbor_encode (ByteStr p) ++ rest) = Some (n, d) →
  read_array_len d = Ok (4%N, d1) → expect_bytes d1 = Ok (q, d2) → q = p ∧ d2 = rest.
Proof.
  intros Ht Hp. rewrite <- enc_tag_head, dec_enc_tag by done.
  set (d0 := cbor_head 4 4 ++ _). intros [= <- <-]. subst d0.
  rewrite read_array_len_head by done. intros [= <-]. rewrite expect_bytes_item by done.
  by intros [= <- <-].
Qed.

(** The bytes both decoders start from. *)
Lemma tagged_array_bytes b n d m d1 q d2 :
  is_bytes b → dec_tag b = Some (n, d) → read_array_len d = Ok (m, d1) →
  expect_bytes d1 = Ok (q, d2) → is_bytes q ∧ is_bytes d2.
Proof.
  intros Hb Ht Ha Hq. apply dec_tag_suffix in Ht. apply read_array_len_Ok in Ha.
  assert (is_bytes d1) as Hd1 by (eapply is_bytes_suffix; [| by etrans]; done).
  apply expect_bytes_Ok in Hq as [Hx Hs]; [| done]. split; [done | by eapply is_bytes_suffix].
Qed.

Lemma decode_sign1_sound layer m b :
  is_bytes b → len64 b → decode_sign1_strict b layer = Ok m →
  sign1_wf layer m ∧ assemble_sign1 (s_protected m) (s_payload m) (s_signature m) = Ok b.
Proof.
  intros Hb Hlen H. unfold decode_sign1_strict in H. inv_reads H.
  apply ok_or_Ok in E1. apply map_err_ok in E10. bool_facts. subst.
  destruct (tagged_array_bytes _ _ _ _ _ _ _ Hb E1 E2 E4) as [Hp _].
  rewrite assemble_sign1_item in E10. injection E10 as Hbe. rewrite <- Hbe in Hlen.
  assert (x1 = d5) as ->.
  { revert E1. rewrite <- Hbe. revert Hlen. unfold sign1_item.
    rewrite encode_tag, encode_arr. cbn [flat_map length]. intros Hlen E1.
    edestruct (first_of_tagged TAG_SIGN1 d5) as [Hq _];
      [done | | exact E1 | exact E2 | exact E4 | exact Hq].
    apply len64_bytes. revert Hlen. unfold len64, u64. rewrite !length_app. lia. }
  split; [| by simpl; rewrite assemble_sign1_item, Hbe].
  eapply decode_sign1_layer_sound; [exact Hp | exact E9 |]. by intros ->.
Qed.

Lemma expectation_of_finish h e u :
  finish_claims_capable h e = Ok u → expectation_ok e (h_claims h).
Proof.
  unfold finish_claims_capable. intros H. inv_ok H.
  destruct e, (h_claims h); simpl; try done; by eexists.
Qed.

(** The second and third elements of a [COSE_Encrypt], and its recipient. *)
Lemma encrypt_rest a iv d2 x d3 rp k e :
  len64 (cbor_encode (encrypt_item a)) → length (a_iv a) = NONCE_LEN →
  KeyId_wf (a_recipient_kid a) → length (a_ephemeral_x a) = X25519_LEN →
  parse_unprotected
    (cbor_encode (map_item [(HDR_IV, ByteStr (a_iv a))]) ++ cbor_encode (ByteStr (a_ciphertext a))
     ++ cbor_encode (Arr [recipient_item a])) iv_entry None = Ok (iv, d2) →
  read_payload d2 = Ok (x, d3) → decode_recipient d3 = Ok (rp, k, e) →
  rp = a_recipient_protected a.
Proof.
  intros Hlen Hiv Hk Hx. destruct (encrypt_lengths _ Hlen) as (_ & Hliv & Hlc & Hlr & _).
  rewrite iv_item by done. intros [= <- <-]. rewrite read_payload_item by done. intros [= <- <-].
  rewrite decode_recipient_item by done. by intros [= <- <- <-].
Qed.

Lemma decode_encrypt_sound e m b :
  is_bytes b → len64 b → decode_encrypt_strict b e = Ok m →
  encrypt_wf e m ∧ assemble_encrypt (assembly_of m) = Ok b.
Proof.
  intros Hb Hlen H. unfold decode_encrypt_strict in H. inv_reads H.
  apply ok_or_Ok in E1, E6, E12. apply map_err_ok in E14, E15, E16. bool_facts. subst.
  destruct (tagged_array_bytes _ _ _ _ _ _ _ Hb E1 E2 E4) as [Hp Hd1].
  pose proof E5 as Hiv. apply (parse_unprotected_inv (opt_wf (λ x, length x = NONCE_LEN))) in Hiv
    as [Hiv Hd2]; [| by eauto using iv_entry_wf | done | done].
  pose proof E7 as Hpay. apply read_payload_Ok in Hpay as [_ Hd3]; [| by eapply is_bytes_suffix].
  assert (is_bytes d3) as Hb3 by (eapply is_bytes_suffix; [| by etrans]; done).
  pose proof E8 as Hrec. apply decode_recipient_wf in Hrec as (Hrp & Hk & Hx); [| done].
  apply parse_claims_capable_header_wf in E9 as (Hct & _ & Hc & _ & _); [| done].
  rewrite E12 in Hct. apply parse_recipient_wf in E13; [| done].
  apply expectation_of_finish in E11. pose proof E16 as Ha. rewrite assemble_encrypt_item in Ha.
  injection Ha as Hbe. rewrite <- Hbe in Hlen.
  destruct (encrypt_lengths _ Hlen) as (Hlp & _).
  set (a := {| a_protected := value7 |}) in *.
  assert (x1 = value7 ∧ x5 = value8) as [-> ->].
  { revert E1. rewrite <- Hbe. unfold encrypt_item. rewrite encode_tag, encode_arr.
    cbn [flat_map length]. fold (recipient_item a). intros E1.
    edestruct (first_of_tagged TAG_ENCRYPT value7) as [Hq Hd];
      [done | done | exact E1 | exact E2 | exact E4 |].
    split; [exact Hq |]. subst d1. rewrite app_nil_r in E5.
    by eapply (encrypt_rest a); [done | done | done | done | exact E5 | exact E7 | exact E8]. }
  split; [| done]. by split_and!.
Qed.

(** C18: strict decoding of a signed message is exact.  A byte string decodes
    as a [COSE_Sign1] of a layer iff it is, byte for byte, what the
    deterministic encoder assembles from the message it decodes to, and that
    message is well formed: every identifier within its length bounds, text
    valid UTF-8, times 64-bit, the signature not empty, the claims' response
    key id bound to the response key, and the protected bytes the encoding of
    the header fields.  In particular a message has exactly one accepted
    encoding. *)
Theorem decode_sign1_exact layer m b :
  is_bytes b → len64 b →
  decode_sign1_strict b layer = Ok m ↔
  sign1_wf layer m ∧ assemble_sign1 (s_protected m) (s_payload m) (s_signature m) = Ok b.
Proof.
  intros Hb Hlen. split; [by apply decode_sign1_sound |].
  intros [Hm Ha]. by apply decode_sign1_complete.
Qed.

(** C40: strict decoding of an encrypted message is exact.  A byte string, of a
    length that fits in 64 bits, decodes as a single-recipient [COSE_Encrypt]
    under the caller's expectation of claims iff it is, byte for byte, what the
    encoder assembles from the message it decodes to, and that message is well
    formed and carries claims as the caller expects. *)
Theorem decode_encrypt_exact e m b :
  is_bytes b → len64 b →
  decode_encrypt_strict b e = Ok m ↔
  encrypt_wf e m ∧ assemble_encrypt (assembly_of m) = Ok b.
Proof.
  intros Hb Hlen. split; [by apply decode_encrypt_sound |].
  intros [Hm Ha]. by apply decode_encrypt_complete.
Qed.
End sound.

Definition sample_sign1 : DecodedSign1 :=
  {| s_protected := [162; 1; 39; 4; 65; 1]%N; s_algorithm := EdDsa;
     s_kid := {| key_id_bytes := [1%N] |}; s_content_type := None; s_claims := None;
     s_protected_headers := ProtectedHeaders_default; s_payload := [7%N]; s_signature := [9%N] |}.

Lemma decode_sign1_exact_witness :
  @decode_sign1_strict rfc8949 toy_primitives
    [210; 132; 70; 162; 1; 39; 4; 65; 1; 160; 65; 7; 65; 9]%N SealedOuter = Ok sample_sign1.
Proof.
  apply (@decode_sign1_exact rfc8949 _ toy_primitives);
    [by apply is_bytes_decide | done |].
  split; [| reflexivity]. split_and!; try done;
    (split; [by apply is_bytes_decide | simpl; lia]).
Defined.

Definition sample_encrypt : DecodedEncrypt :=
  {| e_protected := [163; 1; 3; 2; 129; 3; 3; 99; 97; 47; 98]%N; e_content_algorithm := A256Gcm;
     e_content_type := {| content_type_str := "a/b" |}; e_claims := None;
     e_iv := replicate 12 0%N; e_ciphertext := [5%N]; e_recipient_protected := [161; 1; 56; 24]%N;
     e_recipient_kid := {| key_id_bytes := [1%N] |}; e_ephemeral_x := replicate 32 2%N;
     e_parties := KdfParties_anonymous |}.

Definition sample_encrypt_bytes : bytes_ :=
  Eval vm_compute in
    match @assemble_encrypt rfc8949 (assembly_of sample_encrypt) with Ok b => b | Err _ => [] end.

Lemma decode_encrypt_exact_witness :
  @decode_encrypt_strict rfc8949 toy_primitives sample_encrypt_bytes ClaimsForbidden
  = Ok sample_encrypt.
Proof.
  apply (@decode_encrypt_exact rfc8949 _ toy_primitives); [by apply is_bytes_decide | done |].
  split; [| reflexivity]. split_and!; try done;
    (split; [by apply is_bytes_decide | simpl; lia]).
Defined.
