(* ===== verification/CoseProfile.v ===== *)
(** * Constructions of the COSE profile

    [crates/basil-cose/src]: the traits ([traits.rs]), the local keys
    ([keys.rs]), signing ([sign.rs]), encryption ([encrypt.rs], [kdf.rs]) and
    the sealed construction ([seal.rs]).

    The signature schemes are third-party crates, the class
    [SignaturePrimitives].  A draw of randomness is an argument: [None] is
    [getrandom] failing. *)

From S2P Require Import Prelude RustStr Bytes BTreeMap CoseTypes Cbor CoseCodec.

Local Open Scope Z_scope.

(** ** Errors *)

Inductive SignError :=
| AlgorithmUnsupported
| SignProvider (message : string).

Inductive BuildError :=
| BuildSenderKeyMismatch
| RoleShape (e : ClaimsError)
| ResponseKeyNotText
| ResponsePublicKeyRequiresEncryption
| Rng
| SealFailed
| Sign (e : SignError)
| BuildCodec.

Inductive VerifyError :=
| VerifyDecode (e : DecodeError)
| SignatureInvalid
| UnknownKeyId
| AlgorithmMismatch
| VerifySenderKeyMismatch
| VerifyClaims (e : ClaimsError)
| ClaimsPresenceMismatch
| VerifyProvider (message : string).

Inductive OpenError :=
| OpenDecode (e : DecodeError)
| RecipientKeyMismatch
| PartyMismatch
| OpenFailed
| OpenProvider (message : string).

Inductive KeyError := InvalidPublicKey | InvalidPrivateKey.

Record KeyLengthError := { actual_len : nat }.

(** ** Traits *)

Record OpenRequest := {
  cose_encrypt : bytes_;
  external_aad : bytes_;
  expected_parties : option KdfParties;
}.

Class Signer (S : Type) := {
  signer_key_id : S → KeyId;
  signer_algorithm : S → SignatureAlgorithm;
  sign : S → bytes_ → result SignError CoseSignature;
}.

Class Verifier (V : Type) := {
  verify : V → KeyId → SignatureAlgorithm → ProtectedHeaders → bytes_ → CoseSignature →
           result VerifyError unit;
}.

Class Recipient (R : Type) := {
  recipient_key_id : R → KeyId;
  recipient_open : R → OpenRequest → result OpenError bytes_;
}.

(** Signatures and hashes: [ed25519_dalek], [p256] and [sha3]. *)
Class SignaturePrimitives := {
  ed25519_sign : bytes_ → bytes_ → bytes_;
  ed25519_public : bytes_ → bytes_;
  (** [VerifyingKey::from_bytes] accepts. *)
  ed25519_valid : bytes_ → bool;
  ed25519_verify_strict : bytes_ → bytes_ → bytes_ → bool;
  (** [SigningKey::from_slice] accepts. *)
  p256_scalar : bytes_ → bool;
  p256_sign : bytes_ → bytes_ → option bytes_;
  (** [VerifyingKey::from_sec1_bytes]: the key in its uncompressed form. *)
  p256_from_sec1 : bytes_ → option bytes_;
  p256_public_sec1 : bytes_ → bytes_;
  (** [Signature::from_slice] accepts. *)
  p256_signature : bytes_ → bool;
  (** [sig.normalize_s()]: [None] when [s] is already low. *)
  p256_normalize_s : bytes_ → option bytes_;
  p256_verify : bytes_ → bytes_ → bytes_ → bool;
  sha3_256 : bytes_ → bytes_;
}.

#[export] Instance KeyId_ord : Ord KeyId := λ a b, cmp (key_id_bytes a) (key_id_bytes b).

#[export] Instance KeyId_ord_laws : OrdLaws KeyId.
Proof. apply (ord_laws_inj key_id_bytes); [done |]. by intros [x] [y] [= ->]. Qed.

(** ** Local signers and verifiers *)

Record Ed25519Signer := { ed_secret : bytes_; ed_key_id : KeyId }.
Record Ed25519Verifier := { ed_keys : list (KeyId * bytes_) }.
Record Es256Signer := { es_secret : bytes_; es_key_id : KeyId }.
Record P256Verifier := { p256_keys : list (KeyId * bytes_) }.

Section keys.
Context `{SignaturePrimitives}.

Definition Ed25519Signer_from_secret_bytes (key_id : KeyId) (secret : bytes_) : Ed25519Signer :=
  {| ed_secret := secret; ed_key_id := key_id |}.

Definition Ed25519Signer_public_key_bytes (s : Ed25519Signer) : bytes_ :=
  ed25519_public (ed_secret s).

Definition empty_signature {T} (r : result ProfileError T) : result SignError T :=
  map_err (λ _, SignProvider "empty signature") r.

#[export] Instance Ed25519Signer_Signer : Signer Ed25519Signer := {|
  signer_key_id := ed_key_id;
  signer_algorithm _ := EdDsa;
  sign s sig_structure :=
    empty_signature (Signature_from_bytes (ed25519_sign (ed_secret s) sig_structure));
|}.

Definition ed25519_key (public : bytes_) : result KeyError bytes_ :=
  if ed25519_valid public then Ok public else Err InvalidPublicKey.

Definition Ed25519Verifier_from_key (key_id : KeyId) (public : bytes_)
    : result KeyError Ed25519Verifier :=
  let? key := ed25519_key public in
  Ok {| ed_keys := insert [] key_id key |}.

Definition Ed25519Verifier_add_key (v : Ed25519Verifier) (key_id : KeyId) (public : bytes_)
    : result KeyError Ed25519Verifier :=
  let? key := ed25519_key public in
  Ok {| ed_keys := insert (ed_keys v) key_id key |}.

#[export] Instance Ed25519Verifier_Verifier : Verifier Ed25519Verifier := {|
  verify v key_id algorithm _ sig_structure signature :=
    return_err AlgorithmMismatch when negb (bool_decide (algorithm = EdDsa)) otherwise
    let? key := ok_or UnknownKeyId (get (ed_keys v) key_id) in
    return_err SignatureInvalid
      when negb (length (signature_bytes signature) =? 64)%nat otherwise
    if ed25519_verify_strict key sig_structure (signature_bytes signature)
    then Ok tt else Err SignatureInvalid;
|}.

Definition Es256Signer_from_secret_bytes (key_id : KeyId) (secret : bytes_)
    : result KeyError Es256Signer :=
  return_err InvalidPrivateKey when negb (p256_scalar secret) otherwise
  Ok {| es_secret := secret; es_key_id := key_id |}.

Definition Es256Signer_public_key_sec1 (s : Es256Signer) : bytes_ := p256_public_sec1 (es_secret s).

#[export] Instance Es256Signer_Signer : Signer Es256Signer := {|
  signer_key_id := es_key_id;
  signer_algorithm _ := Es256;
  sign s sig_structure :=
    let? sig := ok_or (SignProvider "ecdsa signing failed") (p256_sign (es_secret s) sig_structure) in
    let sig := default sig (p256_normalize_s sig) in
    empty_signature (Signature_from_bytes sig);
|}.

Definition P256Verifier_from_sec1 (key_id : KeyId) (public : bytes_) : result KeyError P256Verifier :=
  let? key := ok_or InvalidPublicKey (p256_from_sec1 public) in
  Ok {| p256_keys := insert [] key_id key |}.

Definition P256Verifier_add_key (v : P256Verifier) (key_id : KeyId) (public : bytes_)
    : result KeyError P256Verifier :=
  let? key := ok_or InvalidPublicKey (p256_from_sec1 public) in
  Ok {| p256_keys := insert (p256_keys v) key_id key |}.

#[export] Instance P256Verifier_Verifier : Verifier P256Verifier := {|
  verify v key_id algorithm _ sig_structure signature :=
    return_err AlgorithmMismatch when negb (bool_decide (algorithm = Es256)) otherwise
    let? key := ok_or UnknownKeyId (get (p256_keys v) key_id) in
    let sig := signature_bytes signature in
    return_err SignatureInvalid when negb (p256_signature sig) otherwise
    return_err SignatureInvalid when is_some (p256_normalize_s sig) otherwise
    if p256_verify key sig_structure sig then Ok tt else Err SignatureInvalid;
|}.

Definition request_hash_of (request_cose_sign1 : bytes_) : RequestHash :=
  {| request_hash_bytes := sha3_256 request_cose_sign1 |}.
End keys.

(** ** Key agreement and content encryption *)

Inductive KdfFail := KdfFailed.

Record X25519RecipientPublic := { target_key_id : KeyId; target_public : bytes_ }.
Record X25519Recipient := { x_private : bytes_; x_key_id : KeyId }.

Record EncryptCore := {
  core_content_algorithm : ContentAlgorithm;
  core_content_type : ContentType;
  core_claims : option Claims;
  core_plaintext : bytes_;
  core_recipient : X25519RecipientPublic;
  core_external_aad : bytes_;
  core_kdf_parties : KdfParties;
}.

Record EncryptParams := {
  ep_content_type : ContentType;
  ep_plaintext : bytes_;
  ep_recipient : X25519RecipientPublic;
  ep_content_algorithm : ContentAlgorithm;
  ep_external_aad : bytes_;
  ep_kdf_parties : KdfParties;
}.

Record EncryptedMessage := {
  em_content_type : ContentType;
  em_recipient_key_id : KeyId;
  em_content_algorithm : ContentAlgorithm;
  em_parties : KdfParties;
  em_bytes : bytes_;
}.

Record Opened := { opened_plaintext : bytes_; opened_content_type : ContentType }.

(** [.map_err(|CodecError| BuildError::Codec)]. *)
Definition build_codec {T} (r : result CodecErr T) : result BuildError T := map_err (λ _, BuildCodec) r.

Definition random_array (fill : option bytes_) : result BuildError bytes_ := ok_or Rng fill.

(** [if let Some(expected) = expected_parties && *expected != parties]. *)
Definition parties_mismatch (expected : option KdfParties) (p : KdfParties) : bool :=
  match expected with Some e => negb (bool_decide (e = p)) | None => false end.

Section encrypt.
Context `{Minicbor, Primitives}.

Definition derive_cek (shared_secret kdf_context : bytes_) : result KdfFail bytes_ :=
  ok_or KdfFailed (hkdf_sha256 shared_secret kdf_context).

Definition aead_seal (alg : ContentAlgorithm) (key nonce plaintext aad : bytes_)
    : result BuildError bytes_ :=
  ok_or SealFailed (aead_encrypt alg key nonce plaintext aad).

Definition aead_open (alg : ContentAlgorithm) (key nonce ciphertext aad : bytes_)
    : result OpenError bytes_ :=
  ok_or OpenFailed (aead_decrypt alg key nonce ciphertext aad).

Definition build_encrypt_core (core : EncryptCore) (ephemeral_private nonce : bytes_)
    : result BuildError bytes_ :=
  let ephemeral_pub := x25519_public ephemeral_private in
  let shared := diffie_hellman ephemeral_private (target_public (core_recipient core)) in
  return_err SealFailed when negb (was_contributory shared) otherwise
  let? recipient_protected := build_codec (encode_recipient_protected (core_kdf_parties core)) in
  let? info :=
    build_codec (kdf_context (core_content_algorithm core) (core_kdf_parties core)
                   recipient_protected) in
  let? cek := map_err (λ _, SealFailed) (derive_cek shared info) in
  let? protected :=
    build_codec (encode_encrypt_protected (core_content_algorithm core) (core_content_type core)
                   (core_claims core)) in
  let? aad := build_codec (enc_structure protected (core_external_aad core)) in
  let? ciphertext := aead_seal (core_content_algorithm core) cek nonce (core_plaintext core) aad in
  build_codec
    (assemble_encrypt
       {| a_protected := protected; a_iv := nonce; a_ciphertext := ciphertext;
          a_recipient_protected := recipient_protected;
          a_recipient_kid := target_key_id (core_recipient core);
          a_ephemeral_x := ephemeral_pub |}).

Definition EncryptParams_core (p : EncryptParams) : EncryptCore :=
  {| core_content_algorithm := ep_content_algorithm p; core_content_type := ep_content_type p;
     core_claims := None; core_plaintext := ep_plaintext p; core_recipient := ep_recipient p;
     core_external_aad := ep_external_aad p; core_kdf_parties := ep_kdf_parties p |}.

Definition build_encrypted (params : EncryptParams) (fill_ephemeral fill_nonce : option bytes_)
    : result BuildError bytes_ :=
  let? ephemeral := random_array fill_ephemeral in
  let? nonce := random_array fill_nonce in
  build_encrypt_core (EncryptParams_core params) ephemeral nonce.

Definition decode_encrypted (b : bytes_) : result DecodeError EncryptedMessage :=
  let? decoded := decode_encrypt_strict b ClaimsForbidden in
  Ok {| em_content_type := e_content_type decoded; em_recipient_key_id := e_recipient_kid decoded;
        em_content_algorithm := e_content_algorithm decoded; em_parties := e_parties decoded;
        em_bytes := b |}.

Definition EncryptedMessage_open {R} `{Recipient R} (m : EncryptedMessage) (recipient : R)
    (aad : bytes_) (expected : option KdfParties) : result OpenError Opened :=
  return_err RecipientKeyMismatch
    when negb (bool_decide (recipient_key_id recipient = em_recipient_key_id m)) otherwise
  return_err PartyMismatch when parties_mismatch expected (em_parties m) otherwise
  let? plaintext :=
    recipient_open recipient
      {| cose_encrypt := em_bytes m; external_aad := aad; expected_parties := expected |} in
  Ok {| opened_plaintext := plaintext; opened_content_type := em_content_type m |}.

(** *** The local recipient *)

Definition X25519Recipient_new (key_id : KeyId) (private : bytes_) : X25519Recipient :=
  {| x_private := private; x_key_id := key_id |}.

Definition generate_ephemeral_response (fill : option bytes_)
    : result BuildError (X25519Recipient * X25519ResponsePublicKey) :=
  let? private := random_array fill in
  let? public := map_err (λ _, SealFailed) (from_public_bytes (x25519_public private)) in
  (* The thumbprint is ASCII text; [from_text] takes its bytes. *)
  let? key_id := map_err (λ _, BuildCodec) (KeyId_from_bytes (thumbprint public)) in
  Ok (X25519Recipient_new key_id private, public).

Definition from_private_slice (key_id : KeyId) (b : bytes_) : result KeyLengthError X25519Recipient :=
  return_err {| actual_len := length b |} when negb (length b =? 32)%nat otherwise
  Ok (X25519Recipient_new key_id b).

Definition X25519Recipient_public (r : X25519Recipient) : X25519RecipientPublic :=
  {| target_key_id := x_key_id r; target_public := x25519_public (x_private r) |}.

Definition decode_any_encrypt (b : bytes_) : result OpenError DecodedEncrypt :=
  map_err OpenDecode (decode_encrypt_strict b ClaimsOptional).

Definition open_local (recipient : X25519Recipient) (request : OpenRequest)
    : result OpenError bytes_ :=
  let? decoded := decode_any_encrypt (cose_encrypt request) in
  return_err RecipientKeyMismatch
    when negb (bool_decide (e_recipient_kid decoded = x_key_id recipient)) otherwise
  return_err PartyMismatch
    when parties_mismatch (expected_parties request) (e_parties decoded) otherwise
  let shared := diffie_hellman (x_private recipient) (e_ephemeral_x decoded) in
  return_err OpenFailed when negb (was_contributory shared) otherwise
  let? info :=
    map_err (λ _, OpenFailed)
      (kdf_context (e_content_algorithm decoded) (e_parties decoded)
         (e_recipient_protected decoded)) in
  let? cek := map_err (λ _, OpenFailed) (derive_cek shared info) in
  let? aad :=
    map_err (λ _, OpenFailed) (enc_structure (e_protected decoded) (external_aad request)) in
  aead_open (e_content_algorithm decoded) cek (e_iv decoded) (e_ciphertext decoded) aad.

#[export] Instance X25519Recipient_Recipient : Recipient X25519Recipient := {|
  recipient_key_id := x_key_id;
  recipient_open := open_local;
|}.
End encrypt.

(** ** The signed construction *)

Record SignParams := {
  sp_content_type : ContentType;
  sp_payload : bytes_;
  sp_claims : option Claims;
  sp_external_aad : bytes_;
}.

Record VerifySignedParams := {
  vp_external_aad : bytes_;
  vp_validation : option ValidationParams;
}.

Record VerifiedSigned := {
  vs_content_type : ContentType;
  vs_payload : bytes_;
  vs_claims : option Claims;
  vs_protected_headers : ProtectedHeaders;
  vs_signer_key_id : KeyId;
}.

(** [if let Some(k) = &response_key_id && k.as_catalog_name().is_none()]. *)
Definition response_key_not_text (c : Claims) : bool :=
  match response_key_id c with Some k => negb (is_some (as_catalog_name k)) | None => false end.

Section sign.
Context `{Minicbor, Primitives} {S} `{Signer S} {V} `{Verifier V}.

Definition check_sign_claims (c : Claims) (signer : S) : result BuildError unit :=
  return_err BuildSenderKeyMismatch
    when match sender_key_id c with
         | Some sender => negb (bool_decide (sender = signer_key_id signer))
         | None => false
         end otherwise
  return_err ResponseKeyNotText when response_key_not_text c otherwise
  return_err ResponsePublicKeyRequiresEncryption
    when is_some (response_public_key_cose c) otherwise
  Ok tt.

Definition build_signed_with_headers (params : SignParams) (headers : ProtectedHeaders)
    (signer : S) : result BuildError bytes_ :=
  let? _ := match sp_claims params with Some c => check_sign_claims c signer | None => Ok tt end in
  let? protected :=
    build_codec (encode_sign1_protected_bare_with_headers (signer_algorithm signer)
      (signer_key_id signer) (sp_content_type params) (sp_claims params) (Some headers)) in
  let? to_sign :=
    build_codec (sig_structure protected (sp_external_aad params) (sp_payload params)) in
  let? signature := map_err Sign (sign signer to_sign) in
  build_codec (assemble_sign1 protected (sp_payload params) (signature_bytes signature)).

Definition build_signed (params : SignParams) (signer : S) : result BuildError bytes_ :=
  build_signed_with_headers params ProtectedHeaders_default signer.

(** The signature check both constructions share; [fail] is the error of the
    structure encoding. *)
Definition check_signature (verifier : V) (m : DecodedSign1) (aad : bytes_) (fail : VerifyError)
    : result VerifyError unit :=
  let? to_verify := map_err (λ _, fail) (sig_structure (s_protected m) aad (s_payload m)) in
  let? signature := map_err (λ _, SignatureInvalid) (Signature_from_bytes (s_signature m)) in
  verify verifier (s_kid m) (s_algorithm m) (s_protected_headers m) to_verify signature.

Definition verify_signed (b : bytes_) (verifier : V) (params : VerifySignedParams)
    : result VerifyError VerifiedSigned :=
  let? decoded := map_err VerifyDecode (decode_sign1_strict b Bare) in
  let? _ := check_signature verifier decoded (vp_external_aad params) SignatureInvalid in
  let? _ :=
    match vp_validation params, s_claims decoded with
    | Some validation, Some claims =>
        return_err VerifySenderKeyMismatch
          when match sender_key_id claims with
               | Some sender => negb (bool_decide (sender = s_kid decoded))
               | None => false
               end otherwise
        map_err VerifyClaims (validate claims validation)
    | None, None => Ok tt
    | _, _ => Err ClaimsPresenceMismatch
    end in
  let? content_type :=
    ok_or (VerifyDecode (MissingHeader HDR_CONTENT_TYPE)) (s_content_type decoded) in
  Ok {| vs_content_type := content_type; vs_payload := s_payload decoded;
        vs_claims := s_claims decoded; vs_protected_headers := s_protected_headers decoded;
        vs_signer_key_id := s_kid decoded |}.
End sign.

(** ** The sealed construction *)

(** [SealedAad]: the external data of the two layers. *)
Record SealedAad := { aad_signature : bytes_; aad_encryption : bytes_ }.

Record SealParams := {
  seal_content_type : ContentType;
  seal_plaintext : bytes_;
  seal_claims : Claims;
  seal_role : MessageRole;
  seal_recipient : X25519RecipientPublic;
  seal_content_algorithm : ContentAlgorithm;
  seal_aad : SealedAad;
  seal_kdf_parties : KdfParties;
}.

Record VerifySealedParams := {
  vsp_signature_aad : bytes_;
  vsp_validation : ValidationParams;
}.

Record VerifiedSealed := {
  sealed_claims : Claims;
  sealed_content_type : ContentType;
  sealed_signer_key_id : KeyId;
  sealed_protected_headers : ProtectedHeaders;
  sealed_recipient_key_id : KeyId;
  sealed_content_algorithm : ContentAlgorithm;
  sealed_parties : KdfParties;
  sealed_encrypt_bytes : bytes_;
}.

Section seal.
Context `{Minicbor, Primitives} {S} `{Signer S} {V} `{Verifier V} {R} `{Recipient R}.

Definition check_seal_claims (params : SealParams) (key_id : KeyId) : result BuildError unit :=
  let? _ := map_err RoleShape (validate_role (seal_claims params) (seal_role params)) in
  return_err BuildSenderKeyMismatch
    when negb (bool_decide (sender_key_id (seal_claims params) = Some key_id)) otherwise
  return_err ResponseKeyNotText when response_key_not_text (seal_claims params) otherwise
  Ok tt.

(** The steps of [build_sealed_inner] up to the signature: the protected
    header, the encrypted payload and the bytes to sign. *)
Definition seal_to_sign (params : SealParams) (key_id : KeyId) (algorithm : SignatureAlgorithm)
    (ephemeral_private nonce : bytes_) (headers : option ProtectedHeaders)
    : result BuildError (bytes_ * bytes_ * bytes_) :=
  let? _ := check_seal_claims params key_id in
  let? encrypt_bytes :=
    build_encrypt_core
      {| core_content_algorithm := seal_content_algorithm params;
         core_content_type := seal_content_type params;
         core_claims := Some (seal_claims params);
         core_plaintext := seal_plaintext params;
         core_recipient := seal_recipient params;
         core_external_aad := aad_encryption (seal_aad params);
         core_kdf_parties := seal_kdf_parties params |}
      ephemeral_private nonce in
  let? protected :=
    build_codec
      match headers with
      | None => encode_sign1_protected_sealed_outer algorithm key_id
      | Some h => encode_sign1_protected_sealed_outer_with_headers algorithm key_id (Some h)
      end in
  let? to_sign :=
    build_codec (sig_structure protected (aad_signature (seal_aad params)) encrypt_bytes) in
  Ok (protected, encrypt_bytes, to_sign).

Definition build_sealed_inner (params : SealParams) (signer : S) (ephemeral_private nonce : bytes_)
    (headers : option ProtectedHeaders) : result BuildError bytes_ :=
  let? (protected, encrypt_bytes, to_sign) :=
    seal_to_sign params (signer_key_id signer) (signer_algorithm signer) ephemeral_private nonce
      headers in
  let? signature := map_err Sign (sign signer to_sign) in
  build_codec (assemble_sign1 protected encrypt_bytes (signature_bytes signature)).

Definition build_sealed (params : SealParams) (signer : S) (fill_ephemeral fill_nonce : option bytes_)
    : result BuildError bytes_ :=
  let? ephemeral := random_array fill_ephemeral in
  let? nonce := random_array fill_nonce in
  build_sealed_inner params signer ephemeral nonce None.

Definition build_sealed_with_headers (params : SealParams) (headers : ProtectedHeaders) (signer : S)
    (fill_ephemeral fill_nonce : option bytes_) : result BuildError bytes_ :=
  let? ephemeral := random_array fill_ephemeral in
  let? nonce := random_array fill_nonce in
  build_sealed_inner params signer ephemeral nonce (Some headers).

Definition embedded_error (e : DecodeError) : VerifyError :=
  match e with
  | NotTagged | WrongTag _ _ => VerifyDecode EmbeddedNotEncrypt
  | other => VerifyDecode other
  end.

Definition verify_sealed (b : bytes_) (verifier : V) (params : VerifySealedParams)
    : result VerifyError VerifiedSealed :=
  let? outer := map_err VerifyDecode (decode_sign1_strict b SealedOuter) in
  let? embedded := map_err embedded_error (decode_encrypt_strict (s_payload outer) ClaimsRequired) in
  let? _ := check_signature verifier outer (vsp_signature_aad params) (VerifyDecode Malformed) in
  let? claims := ok_or (VerifyDecode (MissingHeader HDR_CWT_CLAIMS)) (e_claims embedded) in
  return_err VerifySenderKeyMismatch
    when negb (bool_decide (sender_key_id claims = Some (s_kid outer))) otherwise
  let? _ := map_err VerifyClaims (validate claims (vsp_validation params)) in
  Ok {| sealed_claims := claims; sealed_content_type := e_content_type embedded;
        sealed_signer_key_id := s_kid outer;
        sealed_protected_headers := s_protected_headers outer;
        sealed_recipient_key_id := e_recipient_kid embedded;
        sealed_content_algorithm := e_content_algorithm embedded;
        sealed_parties := e_parties embedded; sealed_encrypt_bytes := s_payload outer |}.

(** The checks of [VerifiedSealed::open] before the recipient is asked. *)
Definition VerifiedSealed_open_request (m : VerifiedSealed) (key_id : KeyId) (aad : bytes_)
    (expected : option KdfParties) : result OpenError OpenRequest :=
  return_err RecipientKeyMismatch
    when negb (bool_decide (key_id = sealed_recipient_key_id m)) otherwise
  return_err PartyMismatch when parties_mismatch expected (sealed_parties m) otherwise
  Ok {| cose_encrypt := sealed_encrypt_bytes m; external_aad := aad; expected_parties := expected |}.

Definition VerifiedSealed_open (m : VerifiedSealed) (recipient : R) (aad : bytes_)
    (expected : option KdfParties) : result OpenError Opened :=
  let? request := VerifiedSealed_open_request m (recipient_key_id recipient) aad expected in
  let? plaintext := recipient_open recipient request in
  Ok {| opened_plaintext := plaintext; opened_content_type := sealed_content_type m |}.
End seal.
