(* ===== verification/CoseDisplay.v ===== *)
(** * Texts of the COSE errors ([crates/basil-cose/src/error.rs])

    The [Display] implementations, which the invocation service copies into
    its audit records and statuses. *)

From stdpp Require Import pretty.
From S2P Require Import Prelude RustStr Bytes CoseTypes Cbor CoseCodec CoseProfile.

Definition z_text (z : Z) : string := pretty z.
Definition nat_text (n : nat) : string := pretty n.

Definition ProfileError_display (e : ProfileError) : string :=
  match e with
  | KeyIdLength actual => "key id must be 1..=128 bytes, got " +:+ nat_text actual
  | MessageIdLength actual => "message id must be 1..=64 bytes, got " +:+ nat_text actual
  | EmptySubject => "subject string must be non-empty"
  | ContentTypeForm =>
      "content type must be of type/subtype form without surrounding whitespace"
  | EmptyPartyIdentity => "party identity must be non-empty when present"
  | EmptySignature => "signature must be non-empty"
  | FreshnessChallengeLength actual =>
      "freshness challenge must be exactly 32 bytes, got " +:+ nat_text actual
  | ResponsePublicKeyCoseShape =>
      "response public key is not the deterministic X25519 COSE_Key shape"
  | ResponsePublicKeyHighBitAlias =>
      "response public key uses a noncanonical high-bit X25519 alias"
  | ResponsePublicKeyNonContributory => "response public key is non-contributory"
  end.

Definition DecodeError_display (e : DecodeError) : string :=
  match e with
  | Malformed => "malformed CBOR input"
  | NotTagged => "top-level item is not tagged"
  | WrongTag expected actual =>
      "wrong COSE tag: expected " +:+ to_string expected +:+ ", got " +:+ to_string actual
  | IndefiniteLength => "indefinite-length item"
  | NonMinimalEncoding => "non-minimal integer encoding"
  | NonDeterministicEncoding => "non-deterministic encoding"
  | DuplicateLabel => "duplicate map label"
  | UnknownLabel label => "unknown label " +:+ z_text label
  | TextLabel => "text label outside the integer-labelled profile"
  | WrongType label => "wrong CBOR type for label " +:+ z_text label
  | MissingHeader label => "missing required header " +:+ z_text label
  | UnknownAlgorithm alg => "algorithm " +:+ z_text alg +:+ " outside the profile"
  | CritMissing => "missing crit header"
  | CritIncomplete label => "label " +:+ z_text label +:+ " not listed in crit"
  | CritUnexpected label => "unexpected crit entry " +:+ z_text label
  | ClaimsInUnprotected => "claims in unprotected header"
  | UnknownClaim claim => "unknown CWT claim " +:+ z_text claim
  | FractionalTime => "fractional CWT timestamp"
  | DecodeMissingClaim claim => "missing required CWT claim " +:+ z_text claim
  | RecipientCount count => "expected exactly one recipient, got " +:+ to_string count
  | NestedRecipients => "nested recipients are not in the profile"
  | RecipientCiphertextPresent => "recipient ciphertext must be nil for direct key agreement"
  | MissingPayload => "payload is absent"
  | EmbeddedNotEncrypt => "sealed payload is not a tagged COSE_Encrypt"
  | EphemeralKeyShape => "ephemeral key is not the profile OKP/X25519 shape"
  | InvalidLength label expected actual =>
      "field " +:+ z_text label +:+ " must be " +:+ nat_text expected +:+ " bytes, got "
      +:+ nat_text actual
  | Identifier e => "invalid identifier: " +:+ ProfileError_display e
  | DecodeResponseKeyIdMismatch =>
      "response key id does not match response public key thumbprint"
  end.

Definition ClaimsError_display (e : ClaimsError) : string :=
  match e with
  | IssuedInFuture => "issued-at is in the future beyond allowed skew"
  | ClaimsExpired => "message expired"
  | TtlTooLong seconds => "explicit ttl of " +:+ z_text seconds +:+ "s exceeds the maximum"
  | NonPositiveTtl => "expiry is not after issued-at"
  | AudienceRejected => "audience not allowed"
  | MissingClaim label => "role requires claim " +:+ z_text label
  | ForbiddenClaim label => "role forbids claim " +:+ z_text label
  | ResponseKeyIdMismatch => "response key id does not match response public key thumbprint"
  end.

Definition VerifyError_display (e : VerifyError) : string :=
  match e with
  | VerifyDecode e => "strict decode failed: " +:+ DecodeError_display e
  | SignatureInvalid => "signature verification failed"
  | UnknownKeyId => "unknown signing key id"
  | AlgorithmMismatch => "algorithm does not match the pinned key"
  | VerifySenderKeyMismatch => "sender key id claim does not match the outer kid"
  | VerifyClaims e => "claim validation failed: " +:+ ClaimsError_display e
  | ClaimsPresenceMismatch => "claims presence does not match the validation expectation"
  | VerifyProvider message => "verification provider failed: " +:+ message
  end.

Definition OpenError_display (e : OpenError) : string :=
  match e with
  | OpenDecode e => "strict decode failed: " +:+ DecodeError_display e
  | RecipientKeyMismatch => "message is for a different recipient key"
  | PartyMismatch => "KDF party identities do not match expectation"
  | OpenFailed => "open failed"
  | OpenProvider message => "open provider failed: " +:+ message
  end.
