(* ===== verification/SealedClient.v ===== *)
(** * The client of sealed invocations
      ([crates/basil-client/src/sealed_invocation.rs])

    Building a sealed [Sign] request, with a response key of the catalog or a
    fresh one, and reading the broker's answer: verification under pinned
    keys, correlation with the request, opening, decoding.  Random bytes and
    the clock are arguments; the carrier of a [CarrierSigner] is a class. *)

From stdpp Require Import pretty.
From S2P Require Import Prelude RustStr Bytes BTreeMap CoseTypes Cbor InvocationBody CoseCodec.
From S2P Require Import CoseProfile CoseDisplay.

(** ** Requests *)

Record SealedInvocationOptions := {
  so_message_id : string;
  so_issued_at_unix : N;
  so_expires_at_unix : option N;
  so_sender_sign_id : string;
  so_sender_subject : option string;
  so_recipient_key_id : string;
  so_recipient_subject : option string;
  so_response_encryption_key_id : string;
  so_freshness_challenge : option bytes_;
}.

Record EphemeralSealedInvocationOptions := {
  eo_message_id : string;
  eo_issued_at_unix : N;
  eo_expires_at_unix : option N;
  eo_sender_sign_id : string;
  eo_sender_subject : option string;
  eo_recipient_key_id : string;
  eo_recipient_subject : option string;
  eo_freshness_challenge : bytes_;
}.

Record PreparedSealedInvocation := {
  ps_message : bytes_;
  ps_message_id : bytes_;
  ps_response_encryption_key_id : string;
  ps_request_hash : bytes_;
}.

Record PreparedEphemeralSealedInvocation := {
  pe_prepared : PreparedSealedInvocation;
  pe_response_recipient : X25519Recipient;
}.

Inductive SealedInvocationError :=
| SiProfile (e : ProfileError)
| RecipientPublicKeyLength (actual : nat)
| SiBuild (e : BuildError)
| MissingProviderProofHeaders.

Inductive SealedInvocationResponseError :=
| SrProfile (e : ProfileError)
| BrokerPublicKeyLength (actual : nat)
| ResponsePrivateKeyLength (actual : nat)
| SrVerify (e : VerifyError)
| SrOpen (e : OpenError)
| InReplyToMismatch
| RequestHashMismatch
| UnexpectedContentType (actual expected : string)
| SignResponseBody (e : InvocationError).

Section client.
Context `{HM : Minicbor} `{HP : Primitives} `{SP : SignaturePrimitives}.

Definition optional_subject (value : option string)
    : result SealedInvocationError (option Subject) :=
  match value with
  | None => Ok None
  | Some s => let? s := map_err SiProfile (Subject_new s) in Ok (Some s)
  end.

(** The headers of the request, with the operation target bound in. *)
Definition target_headers (headers : option ProtectedHeaders) (key_id : string)
    : result SealedInvocationError (option ProtectedHeaders) :=
  match headers with
  | None => Ok None
  | Some h =>
      let? target := map_err SiProfile (KeyId_from_text key_id) in
      Ok (Some {| signer_certificates_jwt := signer_certificates_jwt h;
                  signer_public_key_cose := signer_public_key_cose h;
                  operation_target_key_id := Some target |})
  end.

Definition invocation_claims (o : SealedInvocationOptions) (sender response : KeyId)
    (response_public : option X25519ResponsePublicKey) : result SealedInvocationError Claims :=
  let? issuer := optional_subject (so_sender_subject o) in
  let? audience := optional_subject (so_recipient_subject o) in
  let? id := map_err SiProfile (MessageId_from_bytes (bytes (so_message_id o))) in
  Ok {| issuer := issuer; audience := audience;
        expires_at := option_map Z.of_N (so_expires_at_unix o);
        issued_at := Z.of_N (so_issued_at_unix o); message_id := id;
        sender_key_id := Some sender; response_key_id := Some response; response_subject := None;
        in_reply_to := None; request_hash := None;
        freshness_challenge :=
          option_map (λ c, {| challenge_bytes := c |}) (so_freshness_challenge o);
        response_public_key_cose := response_public |}.

(** What is sealed, and the headers it is sealed under. *)
Definition invocation_params (o : SealedInvocationOptions) (recipient_public_key : bytes_)
    (body : SignInvocationRequest) (response_public : option X25519ResponsePublicKey)
    (headers : option ProtectedHeaders)
    : result SealedInvocationError (SealParams * option ProtectedHeaders) :=
  let? sender := map_err SiProfile (KeyId_from_text (so_sender_sign_id o)) in
  let? response := map_err SiProfile (KeyId_from_text (so_response_encryption_key_id o)) in
  let? recipient := map_err SiProfile (KeyId_from_text (so_recipient_key_id o)) in
  let? headers := target_headers headers (sq_key_id body) in
  return_err (RecipientPublicKeyLength (length recipient_public_key))
    when negb (length recipient_public_key =? 32)%nat otherwise
  let? claims := invocation_claims o sender response response_public in
  let? content_type := map_err SiProfile (ContentType_new CONTENT_TYPE_SIGN_REQUEST) in
  Ok ({| seal_content_type := content_type;
         seal_plaintext := SignInvocationRequest_to_cbor_bytes body;
         seal_claims := claims; seal_role := Request;
         seal_recipient :=
           {| target_key_id := recipient; target_public := recipient_public_key |};
         seal_content_algorithm := A256Gcm;
         seal_aad := {| aad_signature := []; aad_encryption := [] |};
         seal_kdf_parties := KdfParties_anonymous |}, headers).

Section signer.
Context {S} `{HS : Signer S}.

Definition prepare_sealed_invocation_inner (o : SealedInvocationOptions)
    (recipient_public_key : bytes_) (body : SignInvocationRequest) (signer : S)
    (response_public : option X25519ResponsePublicKey) (headers : option ProtectedHeaders)
    (fill_ephemeral fill_nonce : option bytes_)
    : result SealedInvocationError PreparedSealedInvocation :=
  let? (params, headers) :=
    invocation_params o recipient_public_key body response_public headers in
  let? message :=
    map_err SiBuild
      match headers with
      | Some headers => build_sealed_with_headers params headers signer fill_ephemeral fill_nonce
      | None => build_sealed params signer fill_ephemeral fill_nonce
      end in
  Ok {| ps_message := message;
        ps_message_id := message_id_bytes (message_id (seal_claims params));
        ps_response_encryption_key_id := so_response_encryption_key_id o;
        ps_request_hash := request_hash_bytes (request_hash_of message) |}.

Definition prepare_sealed_invocation (o : SealedInvocationOptions) (recipient_public_key : bytes_)
    (body : SignInvocationRequest) (signer : S) (fill_ephemeral fill_nonce : option bytes_)
    : result SealedInvocationError PreparedSealedInvocation :=
  prepare_sealed_invocation_inner o recipient_public_key body signer None None
    fill_ephemeral fill_nonce.

Definition prepare_ephemeral_sealed_invocation (o : EphemeralSealedInvocationOptions)
    (recipient_public_key : bytes_) (body : SignInvocationRequest) (headers : ProtectedHeaders)
    (signer : S) (fill_response fill_ephemeral fill_nonce : option bytes_)
    : result SealedInvocationError PreparedEphemeralSealedInvocation :=
  return_err MissingProviderProofHeaders
    when bool_decide (signer_certificates_jwt headers = [])
         || match signer_public_key_cose headers with
            | Some key => bool_decide (key = [])
            | None => true
            end otherwise
  let? (recipient, public) := map_err SiBuild (generate_ephemeral_response fill_response) in
  let options :=
    {| so_message_id := eo_message_id o; so_issued_at_unix := eo_issued_at_unix o;
       so_expires_at_unix := eo_expires_at_unix o; so_sender_sign_id := eo_sender_sign_id o;
       so_sender_subject := eo_sender_subject o; so_recipient_key_id := eo_recipient_key_id o;
       so_recipient_subject := eo_recipient_subject o;
       so_response_encryption_key_id := of_bytes (thumbprint public);
       so_freshness_challenge := Some (eo_freshness_challenge o) |} in
  let? prepared :=
    prepare_sealed_invocation_inner options recipient_public_key body signer (Some public)
      (Some headers) fill_ephemeral fill_nonce in
  Ok {| pe_prepared := prepared; pe_response_recipient := recipient |}.
End signer.

(** ** Responses *)

Section response.
Context {V} `{HV : Verifier V} {R} `{HR : Recipient R}.

Definition verify_and_open_sign_response (request : PreparedSealedInvocation) (response : bytes_)
    (recipient : R) (broker_verifier : V) (validation : ValidationParams)
    : result SealedInvocationResponseError SignInvocationResponse :=
  let? sealed :=
    map_err SrVerify
      (verify_sealed response broker_verifier
         {| vsp_signature_aad := []; vsp_validation := validation |}) in
  return_err InReplyToMismatch
    when negb (bool_decide (option_map message_id_bytes (in_reply_to (sealed_claims sealed)) =
                            Some (ps_message_id request))) otherwise
  return_err RequestHashMismatch
    when negb (bool_decide (option_map request_hash_bytes (request_hash (sealed_claims sealed)) =
                            Some (ps_request_hash request))) otherwise
  let? opened :=
    map_err SrOpen (VerifiedSealed_open sealed recipient [] (Some KdfParties_anonymous)) in
  let content_type := content_type_str (opened_content_type opened) in
  return_err (UnexpectedContentType content_type CONTENT_TYPE_SIGN_RESPONSE)
    when negb (String.eqb content_type CONTENT_TYPE_SIGN_RESPONSE) otherwise
  map_err SignResponseBody (SignInvocationResponse_from_cbor_bytes (opened_plaintext opened)).
End response.

Definition pinned_key (public : bytes_) : result SealedInvocationResponseError bytes_ :=
  return_err (BrokerPublicKeyLength (length public))
    when negb (length public =? 32)%nat otherwise
  Ok public.

(** The keys of the [BTreeMap], in its order. *)
Definition pinned_broker_verifier (keys : list (string * bytes_))
    : result SealedInvocationResponseError Ed25519Verifier :=
  match keys with
  | [] => Err (BrokerPublicKeyLength 0)
  | (first_id, first_key) :: entries =>
      let? first := pinned_key first_key in
      let? id := map_err SrProfile (KeyId_from_text first_id) in
      let? verifier :=
        map_err (λ _, BrokerPublicKeyLength 32) (Ed25519Verifier_from_key id first) in
      for_each
        (λ verifier entry,
           let? public := pinned_key entry.2 in
           let? id := map_err SrProfile (KeyId_from_text entry.1) in
           map_err (λ _, BrokerPublicKeyLength 32) (Ed25519Verifier_add_key verifier id public))
        entries verifier
  end.

Definition verify_and_decrypt_sign_response (request : PreparedSealedInvocation)
    (response response_private_key : bytes_) (broker_signing_keys : list (string * bytes_))
    (validation : ValidationParams)
    : result SealedInvocationResponseError SignInvocationResponse :=
  let? verifier := pinned_broker_verifier broker_signing_keys in
  let? id := map_err SrProfile (KeyId_from_text (ps_response_encryption_key_id request)) in
  let? recipient :=
    map_err (λ e, ResponsePrivateKeyLength (actual_len e))
      (from_private_slice id response_private_key) in
  verify_and_open_sign_response request response recipient verifier validation.

Definition ephemeral_verify_and_decrypt_sign_response (request : PreparedEphemeralSealedInvocation)
    (response : bytes_) (broker_signing_keys : list (string * bytes_))
    (validation : ValidationParams)
    : result SealedInvocationResponseError SignInvocationResponse :=
  let? verifier := pinned_broker_verifier broker_signing_keys in
  verify_and_open_sign_response (pe_prepared request) response (pe_response_recipient request)
    verifier validation.
End client.

(** ** Error texts *)

Definition SignError_display (e : SignError) : string :=
  match e with
  | AlgorithmUnsupported => "signer does not support the algorithm"
  | SignProvider message => "signing provider failed: " +:+ message
  end.

Definition BuildError_display (e : BuildError) : string :=
  match e with
  | BuildSenderKeyMismatch => "claims sender key id does not match the signer key id"
  | RoleShape e => "claims do not fit the message role: " +:+ ClaimsError_display e
  | ResponseKeyNotText => "response key id must be UTF-8"
  | ResponsePublicKeyRequiresEncryption =>
      "response public key requires an encrypted protected layer"
  | Rng => "randomness unavailable"
  | SealFailed => "seal failed"
  | Sign e => "signing failed: " +:+ SignError_display e
  | BuildCodec => "structure encoding failed"
  end.

Definition InvocationError_display (e : InvocationError) : string :=
  match e with
  | MissingField field => "missing required header field `" +:+ field +:+ "`"
  | InvalidBody reason => "invalid invocation body: " +:+ reason
  end.

Definition SealedInvocationError_display (e : SealedInvocationError) : string :=
  match e with
  | SiProfile e => "invalid COSE profile value: " +:+ ProfileError_display e
  | RecipientPublicKeyLength actual =>
      "X25519 recipient public key must be 32 bytes, got " +:+ nat_text actual
  | SiBuild e => "failed to build sealed invocation request: " +:+ BuildError_display e
  | MissingProviderProofHeaders =>
      "ephemeral response-key requests require provider proof headers"
  end.

Definition SealedInvocationResponseError_display (e : SealedInvocationResponseError) : string :=
  match e with
  | SrProfile e => "invalid COSE profile value: " +:+ ProfileError_display e
  | BrokerPublicKeyLength actual =>
      "broker Ed25519 public key must be 32 bytes, got " +:+ nat_text actual
  | ResponsePrivateKeyLength actual =>
      "response X25519 private key must be 32 bytes, got " +:+ nat_text actual
  | SrVerify e => "failed to verify sealed response: " +:+ VerifyError_display e
  | SrOpen e => "failed to open sealed response: " +:+ OpenError_display e
  | InReplyToMismatch => "sealed response in-reply-to claim did not match the request"
  | RequestHashMismatch => "sealed response request hash did not match the request"
  | UnexpectedContentType actual expected =>
      "sealed response content type was " +:+ actual +:+ ", expected " +:+ expected
  | SignResponseBody e => "invalid sign response body: " +:+ InvocationError_display e
  end.

Definition InvocationStatusCode_debug (c : InvocationStatusCode) : string :=
  match c with
  | CodeOk => "Ok"
  | CodeDenied => "Denied"
  | CodeInvalidRequest => "InvalidRequest"
  | CodeInternalError => "InternalError"
  | CodeChallengeUnknown => "ChallengeUnknown"
  | CodePerRunQuotaExceeded => "PerRunQuotaExceeded"
  end.

(** ** The carrier signer *)

(** A carrier; the error is its [Display] text. *)
Class SealedInvocationCarrier (C : Type) := {
  round_trip : C → bytes_ → result string bytes_;
}.

Record CarrierSignerConfig := {
  cs_request_sign_id : string;
  cs_request_subject : option string;
  cs_broker_request_key_id : string;
  cs_broker_request_public : bytes_;
  cs_broker_request_subject : option string;
  cs_response_encryption_key_id : string;
  cs_request_ttl : N;
  cs_max_clock_skew : Z;
  cs_max_ttl : Z;
  cs_default_ttl : Z;
  cs_allowed_audiences : list Subject;
}.

Record CarrierSigner (C S R V : Type) := {
  cs_target_key_id : KeyId;
  cs_target_key_name : string;
  cs_carrier : C;
  cs_request_signer : S;
  cs_recipient : R;
  cs_broker_verifier : V;
  cs_config : CarrierSignerConfig;
}.
Arguments cs_target_key_id {_ _ _ _} _.
Arguments cs_target_key_name {_ _ _ _} _.
Arguments cs_carrier {_ _ _ _} _.
Arguments cs_request_signer {_ _ _ _} _.
Arguments cs_recipient {_ _ _ _} _.
Arguments cs_broker_verifier {_ _ _ _} _.
Arguments cs_config {_ _ _ _} _.

(** The low [n] hexadecimal digits of a number. *)
Fixpoint hex_text (n : nat) (v : N) : string :=
  match n with
  | O => ""
  | S n => hex_text n (v / 16) +:+ of_bytes [hex_digit (v mod 16)]
  end.

Definition u32_max_n : N := 4294967295.

(** [current_unix_secs] of the seconds since the epoch, [None] before it. *)
Definition current_unix_secs (since_epoch : option N) : result SignError N :=
  let? secs :=
    ok_or (SignProvider "second time provided was later than self") since_epoch in
  return_err (SignProvider "system clock is beyond the u32 unix-seconds range")
    when (u32_max_n <? secs)%N otherwise
  Ok secs.

Section carrier.
Context `{HM : Minicbor} `{HP : Primitives} `{SP : SignaturePrimitives}.
Context {C} `{HC : SealedInvocationCarrier C} {S} `{HS : Signer S}.
Context {R} `{HR : Recipient R} {V} `{HV : Verifier V}.

Definition carrier_options (c : CarrierSignerConfig) (now nonce : N) : SealedInvocationOptions :=
  let ttl := N.min (cs_request_ttl c) u32_max_n in
  {| so_message_id := cs_request_sign_id c +:+ "-" +:+ pretty now +:+ "-" +:+ hex_text 16 nonce;
     so_issued_at_unix := now; so_expires_at_unix := Some (N.min (now + ttl) u32_max_n);
     so_sender_sign_id := cs_request_sign_id c; so_sender_subject := cs_request_subject c;
     so_recipient_key_id := cs_broker_request_key_id c;
     so_recipient_subject := cs_broker_request_subject c;
     so_response_encryption_key_id := cs_response_encryption_key_id c;
     so_freshness_challenge := None |}.

Definition carrier_validation (c : CarrierSignerConfig) (now : N) : ValidationParams :=
  {| CoseTypes.now := Z.of_N now; max_clock_skew := cs_max_clock_skew c; max_ttl := cs_max_ttl c;
     default_ttl := cs_default_ttl c; allowed_audiences := cs_allowed_audiences c;
     role := Response |}.

(** The signature a response carries. *)
Definition response_signature (r : SignInvocationResponse) : result SignError CoseSignature :=
  return_err (SignProvider
    ("bridged sign returned " +:+ InvocationStatusCode_debug (is_code (sp_status r)) +:+ ": " +:+
     default (is_reason (sp_status r)) (is_message (sp_status r))))
    when negb (bool_decide (is_code (sp_status r) = CodeOk)) otherwise
  let? signature :=
    ok_or (SignProvider "bridged sign response carried no signature") (sp_signature r) in
  map_err (λ e, SignProvider (ProfileError_display e)) (Signature_from_bytes signature).

Definition CarrierSigner_sign (c : CarrierSigner C S R V) (since_epoch : option N) (nonce : N)
    (fill_ephemeral fill_nonce : option bytes_) (sig_structure : bytes_)
    : result SignError CoseSignature :=
  let? now := current_unix_secs since_epoch in
  let? prepared :=
    map_err (λ e, SignProvider (SealedInvocationError_display e))
      (prepare_sealed_invocation (carrier_options (cs_config c) now nonce)
         (cs_broker_request_public (cs_config c))
         {| sq_key_id := cs_target_key_name c; sq_message := sig_structure; sq_algorithm := 0 |}
         (cs_request_signer c) fill_ephemeral fill_nonce) in
  let? response := map_err SignProvider (round_trip (cs_carrier c) (ps_message prepared)) in
  let? response :=
    map_err (λ e, SignProvider (SealedInvocationResponseError_display e))
      (verify_and_open_sign_response prepared response (cs_recipient c) (cs_broker_verifier c)
         (carrier_validation (cs_config c) now)) in
  response_signature response.
End carrier.
