(* ===== verification/CoseProfileProofs.v ===== *)
(** * The profile's guarantees

    A sealed message verifies and opens to what was sealed; a verified
    message was signed by the key it names; the bytes that are signed, and
    the inputs of key derivation and content encryption, determine what they
    stand for. *)

From S2P Require Import Prelude RustStr Bytes BTreeMap CoseTypes Cbor CoseCodec CoseCbor.
From S2P Require Import CoseCodecProofs CoseStrict CoseExact CoseProfile.

Local Open Scope Z_scope.

#[local] Arguments cbor_encode : simpl never.

(** What the profile relies on in the key agreement and the AEAD. *)
Class PrimitivesLaws `{Primitives} : Prop := {
  dh_commutes a b : diffie_hellman a (x25519_public b) = diffie_hellman b (x25519_public a);
  public_length a : length (x25519_public a) = X25519_LEN;
  aead_correct alg key nonce m aad c :
    aead_encrypt alg key nonce m aad = Some c → aead_decrypt alg key nonce c aad = Some m;
}.

(** The verifier accepts the signer's signatures. *)
Definition verifies {S V} `{Signer S, Verifier V} (verifier : V) (signer : S)
    (h : ProtectedHeaders) : Prop :=
  ∀ msg sig, sign signer msg = Ok sig →
    verify verifier (signer_key_id signer) (signer_algorithm signer) h msg sig = Ok tt.

(** Signatures are not empty: the invariant of [Signature]. *)
Definition signs {S} `{Signer S} (signer : S) : Prop :=
  ∀ msg sig, sign signer msg = Ok sig → signature_bytes sig ≠ [].

(** ** The structures are prefix codes *)

Section injective.
Context `{HM : Minicbor} {HL : MinicborLaws} `{HP : Primitives}.

Lemma enc_bytes_inj x y r r' :
  len64 x → len64 y → enc_bytes x ++ r = enc_bytes y ++ r' → x = y ∧ r = r'.
Proof.
  intros Hx Hy He. pose proof (dec_enc_bytes x r Hx) as H1. rewrite He in H1.
  rewrite dec_enc_bytes in H1 by done. by simplify_eq.
Qed.

(** The bytes that are signed determine the protected header, the external
    data and the payload. *)
Lemma sig_structure_injective p a x p' a' x' b :
  len64 p → len64 a → len64 x → len64 p' → len64 a' → len64 x' →
  sig_structure p a x = Ok b → sig_structure p' a' x' = Ok b → p = p' ∧ a = a' ∧ x = x'.
Proof.
  unfold sig_structure. intros Hp Ha Hx Hp' Ha' Hx' [= <-] [= He].
  do 2 apply app_inv_head in He.
  apply enc_bytes_inj in He as [-> He]; [| done | done].
  apply enc_bytes_inj in He as [-> He]; [| done | done].
  rewrite <- (app_nil_r (enc_bytes x)), <- (app_nil_r (enc_bytes x')) in He.
  by apply enc_bytes_inj in He as [-> _].
Qed.

Lemma enc_structure_injective p a p' a' b :
  len64 p → len64 a → len64 p' → len64 a' →
  enc_structure p a = Ok b → enc_structure p' a' = Ok b → p = p' ∧ a = a'.
Proof.
  unfold enc_structure. intros Hp Ha Hp' Ha' [= <-] [= He]. do 2 apply app_inv_head in He.
  apply enc_bytes_inj in He as [-> He]; [| done | done].
  rewrite <- (app_nil_r (enc_bytes a)), <- (app_nil_r (enc_bytes a')) in He.
  by apply enc_bytes_inj in He as [-> _].
Qed.

Definition party_len (p : PartyIdentity) : Prop := opt_wf len64 (party_bytes p).

Lemma kdf_party_inj p p' r r' :
  party_len p → party_len p' → kdf_party p ++ r = kdf_party p' ++ r' → p = p' ∧ r = r'.
Proof.
  destruct p as [[id |]], p' as [[id' |]]; unfold party_len, kdf_party; simpl; intros Hp Hp' He;
    rewrite <- !app_assoc in He; apply app_inv_head in He.
  - apply enc_bytes_inj in He as [-> He]; [| done | done]. do 2 apply app_inv_head in He. done.
  - exfalso. pose proof (datatype_null (enc_null ++ enc_null ++ r')) as Hd. rewrite <- He in Hd.
    by rewrite datatype_bytes in Hd.
  - exfalso. pose proof (datatype_null (enc_null ++ enc_null ++ r)) as Hd. rewrite He in Hd.
    by rewrite datatype_bytes in Hd.
  - do 3 apply app_inv_head in He. done.
Qed.

Lemma enc_i64_inj x y r r' : is_i64 x → is_i64 y → enc_i64 x ++ r = enc_i64 y ++ r' → x = y ∧ r = r'.
Proof.
  intros Hx Hy He. pose proof (dec_enc_i64 x r Hx) as H1. rewrite He in H1.
  rewrite dec_enc_i64 in H1 by done. by simplify_eq.
Qed.

(** The key-derivation context determines what the derived key is for:
    equal contexts come from the same content algorithm, the same pair of
    party identities (a missing identity differs from every present one) and
    the same recipient header. *)
Theorem kdf_context_injective alg p r alg' p' r' b :
  party_len (kdf_party_u p) → party_len (kdf_party_v p) → len64 r →
  party_len (kdf_party_u p') → party_len (kdf_party_v p') → len64 r' →
  kdf_context alg p r = Ok b → kdf_context alg' p' r' = Ok b → alg = alg' ∧ p = p' ∧ r = r'.
Proof.
  unfold kdf_context. intros Hu Hv Hr Hu' Hv' Hr' [= <-] [= He]. apply app_inv_head in He.
  apply enc_i64_inj in He as [Ha He]; [| by destruct alg' | by destruct alg].
  apply kdf_party_inj in He as [Hue He]; [| done | done].
  apply kdf_party_inj in He as [Hve He]; [| done | done].
  apply app_inv_head in He. unfold key_len in He. apply app_inv_head in He.
  rewrite <- (app_nil_r (enc_bytes r)), <- (app_nil_r (enc_bytes r')) in He.
  apply enc_bytes_inj in He as [-> _]; [| done | done].
  destruct alg, alg', p, p'; simpl in *; by simplify_eq.
Qed.
End injective.

(** ** Verification *)

Section verified.
Context `{HM : Minicbor} {HL : MinicborLaws} `{HP : Primitives} {V} `{HV : Verifier V}.

Lemma assemble_sign1_fields p x g b :
  is_bytes b → len64 b → assemble_sign1 p x g = Ok b →
  is_bytes x ∧ len64 p ∧ len64 x.
Proof.
  intros Hb Hlen. rewrite assemble_sign1_item. intros He. injection He as <-.
  destruct (sign1_item_bytes _ _ _ Hb) as (_ & Hx & _). split; [done |].
  revert Hlen. unfold sign1_item. rewrite encode_tag, encode_arr. cbn [flat_map].
  unfold len64, u64. rewrite !length_app. intros Hlen.
  split; apply len64_bytes; unfold len64, u64; lia.
Qed.

Lemma check_signature_ok verifier m aad fail u :
  check_signature verifier m aad fail = Ok u →
  ∃ signed sig, sig_structure (s_protected m) aad (s_payload m) = Ok signed ∧
    signature_bytes sig = s_signature m ∧
    verify verifier (s_kid m) (s_algorithm m) (s_protected_headers m) signed sig = Ok tt.
Proof.
  unfold check_signature. intros H. inv_ok H. apply map_err_ok in E, E0.
  eexists _, _. split; [exact E |]. split; [| by destruct u].
  unfold Signature_from_bytes in E0. by inv_ok E0.
Qed.

(** The steps of a successful verification. *)
Lemma verify_sealed_steps b verifier params m :
  verify_sealed b verifier params = Ok m →
  ∃ outer embedded u,
    decode_sign1_strict b SealedOuter = Ok outer ∧
    decode_encrypt_strict (s_payload outer) ClaimsRequired = Ok embedded ∧
    check_signature verifier outer (vsp_signature_aad params) (VerifyDecode Malformed) = Ok u ∧
    e_claims embedded = Some (sealed_claims m) ∧
    sender_key_id (sealed_claims m) = Some (s_kid outer) ∧
    validate (sealed_claims m) (vsp_validation params) = Ok tt ∧
    m = {| sealed_claims := sealed_claims m; sealed_content_type := e_content_type embedded;
           sealed_signer_key_id := s_kid outer;
           sealed_protected_headers := s_protected_headers outer;
           sealed_recipient_key_id := e_recipient_kid embedded;
           sealed_content_algorithm := e_content_algorithm embedded;
           sealed_parties := e_parties embedded; sealed_encrypt_bytes := s_payload outer |}.
Proof.
  intros H. unfold verify_sealed in H. inv_ok H. apply map_err_ok in E, E0, E4.
  apply ok_or_Ok in E2. bool_facts. eexists _, _, _.
  split_and!; [exact E | exact E0 | exact E1 | exact E2 | exact E3 | by destruct value3 | done].
Qed.

(** C6: what verification establishes about a sealed message.  The input is
    the canonical encoding of an outer signature over a canonical
    [COSE_Encrypt]; the verifier accepted the signature over the exact
    protected bytes, external data and payload under the key id that is
    reported; the claims name that same key id as the sender and passed
    validation. *)
Theorem verify_sealed_sound b verifier params m :
  is_bytes b → len64 b → verify_sealed b verifier params = Ok m →
  ∃ outer embedded signed sig,
    assemble_sign1 (s_protected outer) (sealed_encrypt_bytes m) (s_signature outer) = Ok b ∧
    sign1_wf SealedOuter outer ∧
    assemble_encrypt (assembly_of embedded) = Ok (sealed_encrypt_bytes m) ∧
    encrypt_wf ClaimsRequired embedded ∧
    sig_structure (s_protected outer) (vsp_signature_aad params) (sealed_encrypt_bytes m)
    = Ok signed ∧
    signature_bytes sig = s_signature outer ∧
    verify verifier (sealed_signer_key_id m) (s_algorithm outer) (sealed_protected_headers m)
      signed sig = Ok tt ∧
    sender_key_id (sealed_claims m) = Some (sealed_signer_key_id m) ∧
    validate (sealed_claims m) (vsp_validation params) = Ok tt ∧
    e_claims embedded = Some (sealed_claims m).
Proof.
  intros Hb Hlen H.
  destruct (verify_sealed_steps _ _ _ _ H) as (o & e & u & Ho & He & Hs & Hc & Hk & Hv & Hm).
  apply decode_sign1_sound in Ho as [How Hoa]; [| done | done].
  destruct (assemble_sign1_fields _ _ _ _ Hb Hlen Hoa) as (Hpb & _ & Hpl).
  apply decode_encrypt_sound in He as [Hew Hea]; [| done | done].
  destruct (check_signature_ok _ _ _ _ _ Hs) as (signed & sig & H1 & H2 & H3).
  exists o, e, signed, sig. rewrite Hm. cbn. by split_and!.
Qed.

(** The bytes a sealed message has signed, under external data [aad]. *)
Definition signed_bytes (b aad : bytes_) : option bytes_ :=
  match decode_sign1_strict b SealedOuter with
  | Ok m => match sig_structure (s_protected m) aad (s_payload m) with
            | Ok x => Some x | Err _ => None end
  | Err _ => None
  end.


Lemma signed_bytes_outer b aad m x :
  decode_sign1_strict b SealedOuter = Ok m → signed_bytes b aad = Some x →
  sig_structure (s_protected m) aad (s_payload m) = Ok x.
Proof.
  intros Hm Hx. unfold signed_bytes in Hx. rewrite Hm in Hx.
  destruct (sig_structure _ _ _); congruence.
Qed.

Lemma decode_sign1_layer_of b layer m :
  decode_sign1_strict b layer = Ok m →
  ∃ r, decode_sign1_layer (s_protected m) layer
       = Ok (s_algorithm m, s_kid m, s_content_type m, s_claims m, s_protected_headers m, r).
Proof. intros H. unfold decode_sign1_strict in H. inv_reads H. by eexists. Qed.

(** Everything verification reports is a function of the signed bytes:
    two verified messages whose signed bytes agree, whatever the messages,
    verifiers and parameters, report the same claims, content type, signer,
    proof headers, recipient, algorithm, parties and ciphertext message, and
    were checked under the same external data. *)
Theorem verified_determined b1 b2 verifier1 verifier2 params1 params2 m1 m2 x :
  is_bytes b1 → len64 b1 → is_bytes b2 → len64 b2 →
  len64 (vsp_signature_aad params1) → len64 (vsp_signature_aad params2) →
  verify_sealed b1 verifier1 params1 = Ok m1 → verify_sealed b2 verifier2 params2 = Ok m2 →
  signed_bytes b1 (vsp_signature_aad params1) = Some x →
  signed_bytes b2 (vsp_signature_aad params2) = Some x →
  m1 = m2 ∧ vsp_signature_aad params1 = vsp_signature_aad params2.
Proof.
  intros Hb1 Hl1 Hb2 Hl2 Ha1 Ha2 H1 H2 Hs1 Hs2.
  destruct (verify_sealed_steps _ _ _ _ H1) as (o1 & e1 & u1 & Ho1 & He1 & _ & Hc1 & _ & _ & Hm1).
  destruct (verify_sealed_steps _ _ _ _ H2) as (o2 & e2 & u2 & Ho2 & He2 & _ & Hc2 & _ & _ & Hm2).
  apply (signed_bytes_outer _ _ _ _ Ho1) in Hs1. apply (signed_bytes_outer _ _ _ _ Ho2) in Hs2.
  destruct (decode_sign1_layer_of _ _ _ Ho1) as [r1 Hr1].
  destruct (decode_sign1_layer_of _ _ _ Ho2) as [r2 Hr2].
  apply decode_sign1_sound in Ho1 as [_ Ho1]; [| done | done].
  apply decode_sign1_sound in Ho2 as [_ Ho2]; [| done | done].
  destruct (assemble_sign1_fields _ _ _ _ Hb1 Hl1 Ho1) as (_ & Hp1 & Hx1).
  destruct (assemble_sign1_fields _ _ _ _ Hb2 Hl2 Ho2) as (_ & Hp2 & Hx2).
  destruct (sig_structure_injective (s_protected o1) (vsp_signature_aad params1) (s_payload o1)
    (s_protected o2) (vsp_signature_aad params2) (s_payload o2) x) as (Hp & Ha & Hx); try done.
  rewrite Hp in Hr1. rewrite Hr1 in Hr2. injection Hr2 as _ Hkid _ _ Hh _.
  rewrite Hx, He2 in He1. injection He1 as <-. rewrite Hc2 in Hc1. injection Hc1 as Hc.
  split; [| done]. rewrite Hm1, Hm2, Hc, Hx, Hkid, Hh. done.
Qed.
End verified.

(** ** Round trips *)

Section roundtrip.
Context `{HM : Minicbor} {HL : MinicborLaws} `{HP : Primitives} {HPL : PrimitivesLaws}.

Record core_wf (core : EncryptCore) (nonce : bytes_) : Prop := {
  cw_content_type : ContentType_wf (core_content_type core);
  cw_claims : opt_wf claims_wf (core_claims core);
  cw_recipient : KeyId_wf (target_key_id (core_recipient core));
  cw_parties : parties_wf (core_kdf_parties core);
  cw_nonce : length nonce = NONCE_LEN;
}.

(** The local recipient holds the private half of the target key. *)
Definition holds_key (r : X25519Recipient) (t : X25519RecipientPublic) : Prop :=
  x_key_id r = target_key_id t ∧ x25519_public (x_private r) = target_public t.

(** The message an encryption encodes, with the content key it was sealed
    under. *)
Lemma build_encrypt_core_message core eph nonce b :
  core_wf core nonce → build_encrypt_core core eph nonce = Ok b →
  ∃ m info cek aad,
    assemble_encrypt (assembly_of m) = Ok b ∧
    (∀ e, expectation_ok e (core_claims core) → encrypt_wf e m) ∧
    e_content_algorithm m = core_content_algorithm core ∧
    e_content_type m = core_content_type core ∧ e_claims m = core_claims core ∧
    e_recipient_kid m = target_key_id (core_recipient core) ∧
    e_parties m = core_kdf_parties core ∧ e_ephemeral_x m = x25519_public eph ∧
    was_contributory (diffie_hellman eph (target_public (core_recipient core))) = true ∧
    kdf_context (e_content_algorithm m) (e_parties m) (e_recipient_protected m) = Ok info ∧
    derive_cek (diffie_hellman eph (target_public (core_recipient core))) info = Ok cek ∧
    enc_structure (e_protected m) (core_external_aad core) = Ok aad ∧
    aead_decrypt (e_content_algorithm m) cek (e_iv m) (e_ciphertext m) aad
    = Some (core_plaintext core).
Proof.
  intros [Hct Hc Hk Hpt Hn] H. unfold build_encrypt_core, aead_seal in H. inv_ok H.
  apply map_err_ok in E0, E1, E2, E3, E4, H. apply ok_or_Ok, aead_correct in E5. bool_facts.
  eexists {| e_protected := value2; e_content_algorithm := core_content_algorithm core;
             e_content_type := core_content_type core; e_claims := core_claims core;
             e_iv := nonce; e_ciphertext := value4; e_recipient_protected := value;
             e_recipient_kid := target_key_id (core_recipient core);
             e_ephemeral_x := x25519_public eph; e_parties := core_kdf_parties core |}, _, _, _.
  simpl. split_and!; try done; try eassumption.
  intros e He. unfold encrypt_wf. simpl. split_and!; try done. apply public_length.
Qed.

Lemma build_encrypt_core_roundtrip core eph nonce b e :
  core_wf core nonce → expectation_ok e (core_claims core) → is_bytes b → len64 b →
  build_encrypt_core core eph nonce = Ok b →
  ∃ m, decode_encrypt_strict b e = Ok m ∧ e_content_type m = core_content_type core ∧
    e_content_algorithm m = core_content_algorithm core ∧ e_claims m = core_claims core ∧
    e_recipient_kid m = target_key_id (core_recipient core) ∧
    e_parties m = core_kdf_parties core ∧
    ∀ r expected, holds_key r (core_recipient core) →
      parties_mismatch expected (core_kdf_parties core) = false →
      open_local r {| cose_encrypt := b; external_aad := core_external_aad core;
                      expected_parties := expected |} = Ok (core_plaintext core).
Proof.
  intros Hw He Hb Hlen H.
  destruct (build_encrypt_core_message _ _ _ _ Hw H)
    as (m & info & cek & aad & Ha & Hm & Halg & Hct & Hc & Hk & Hp & Hx & Hdh & Hi & Hcek & Haad & Hd).
  exists m. split_and!; try done; [by apply decode_encrypt_complete; auto |].
  intros r expected [Hrk Hrp] Hexp. unfold open_local, decode_any_encrypt.
  cbn [cose_encrypt external_aad expected_parties].
  rewrite (decode_encrypt_complete ClaimsOptional m b) by (try done; by apply Hm).
  cbn [map_err]. rewrite bool_decide_eq_true_2 by congruence. cbn [negb]. rewrite Hp, Hexp.
  assert (diffie_hellman (x_private r) (e_ephemeral_x m)
    = diffie_hellman eph (target_public (core_recipient core))) as ->
    by by rewrite Hx, dh_commutes, Hrp.
  rewrite Hdh. cbn [negb]. rewrite <- Hp, Hi. cbn [map_err]. rewrite Hcek. cbn [map_err].
  rewrite Haad. cbn [map_err]. unfold aead_open. by rewrite Hd.
Qed.

Context {S} `{HS : Signer S} {V} `{HV : Verifier V}.

Record seal_wf (params : SealParams) (nonce : bytes_) : Prop := {
  sw_content_type : ContentType_wf (seal_content_type params);
  sw_claims : claims_wf (seal_claims params);
  sw_recipient : KeyId_wf (target_key_id (seal_recipient params));
  sw_parties : parties_wf (seal_kdf_parties params);
  sw_nonce : length nonce = NONCE_LEN;
}.

Lemma check_seal_claims_sender params key_id u :
  check_seal_claims params key_id = Ok u → sender_key_id (seal_claims params) = Some key_id.
Proof. unfold check_seal_claims. intros H. inv_ok H. by bool_facts. Qed.

(** The sealed layers, before the signature. *)
Lemma seal_to_sign_Ok params key_id alg eph nonce headers protected payload to_sign :
  seal_to_sign params key_id alg eph nonce headers = Ok (protected, payload, to_sign) →
  sender_key_id (seal_claims params) = Some key_id ∧
  build_encrypt_core
    {| core_content_algorithm := seal_content_algorithm params;
       core_content_type := seal_content_type params; core_claims := Some (seal_claims params);
       core_plaintext := seal_plaintext params; core_recipient := seal_recipient params;
       core_external_aad := aad_encryption (seal_aad params);
       core_kdf_parties := seal_kdf_parties params |} eph nonce = Ok payload ∧
  encode_sign1_protected_sealed_outer_with_headers alg key_id
    (Some (default ProtectedHeaders_default headers)) = Ok protected ∧
  sig_structure protected (aad_signature (seal_aad params)) payload = Ok to_sign.
Proof.
  unfold seal_to_sign. intros H. inv_ok H. simplify_eq.
  apply check_seal_claims_sender in E. apply map_err_ok in E1, E2.
  split_and!; [done .. | by destruct headers | done].
Qed.

(** A signature over assembled fields checks. *)
Lemma check_signature_complete verifier m aad fail to_sign :
  verify verifier (s_kid m) (s_algorithm m) (s_protected_headers m) to_sign
    {| signature_bytes := s_signature m |} = Ok tt →
  s_signature m ≠ [] → sig_structure (s_protected m) aad (s_payload m) = Ok to_sign →
  check_signature verifier m aad fail = Ok tt.
Proof.
  intros Hv Hs Hto. unfold check_signature. rewrite Hto. cbn [map_err].
  unfold Signature_from_bytes. rewrite (proj2 (Nat.eqb_neq _ _)) by (by destruct (s_signature m)).
  done.
Qed.

(** The outer layer of a sealed message. *)
Lemma outer_roundtrip key_id alg h protected payload sig b :
  KeyId_wf key_id → headers_wf h → sig ≠ [] → is_bytes b → len64 b →
  encode_sign1_protected_sealed_outer_with_headers alg key_id (Some h) = Ok protected →
  assemble_sign1 protected payload sig = Ok b →
  decode_sign1_strict b SealedOuter
  = Ok {| s_protected := protected; s_algorithm := alg; s_kid := key_id; s_content_type := None;
          s_claims := None; s_protected_headers := h; s_payload := payload; s_signature := sig |}.
Proof. intros. by apply decode_sign1_complete. Qed.

(** The round trip of a message assembled from its parts. *)
Lemma sealed_parts_roundtrip params key_id alg verifier eph nonce headers protected payload to_sign
    sig b v r expected :
  seal_wf params nonce → KeyId_wf key_id → opt_wf headers_wf headers →
  seal_to_sign params key_id alg eph nonce headers = Ok (protected, payload, to_sign) →
  sig ≠ [] →
  verify verifier key_id alg (default ProtectedHeaders_default headers) to_sign
    {| signature_bytes := sig |} = Ok tt →
  is_bytes b → len64 b → assemble_sign1 protected payload sig = Ok b →
  validate (seal_claims params) v = Ok tt → holds_key r (seal_recipient params) →
  parties_mismatch expected (seal_kdf_parties params) = false →
  ∃ m,
    verify_sealed b verifier
      {| vsp_signature_aad := aad_signature (seal_aad params); vsp_validation := v |} = Ok m ∧
    sealed_claims m = seal_claims params ∧ sealed_content_type m = seal_content_type params ∧
    sealed_signer_key_id m = key_id ∧
    sealed_protected_headers m = default ProtectedHeaders_default headers ∧
    VerifiedSealed_open m r (aad_encryption (seal_aad params)) expected
    = Ok {| opened_plaintext := seal_plaintext params;
            opened_content_type := seal_content_type params |}.
Proof.
  intros [Hct Hc Hrk Hpt Hn] Hk Hh Hseal Hsig Hver Hb Hlen H Hval Hr Hexp.
  apply seal_to_sign_Ok in Hseal as (E & E0 & Henc & E2).
  set (h := default ProtectedHeaders_default headers) in *.
  assert (headers_wf h) as Hhw by (destruct headers; [done | by split_and!; try constructor]).
  destruct (assemble_sign1_fields _ _ _ _ Hb Hlen H) as (Hpb & _ & Hpl).
  edestruct build_encrypt_core_roundtrip as (m & Hm & Hmct & Hma & Hmc & Hmk & Hmp & Hopen);
    [| | exact Hpb | exact Hpl | exact E0 |]; [by split | |].
  { instantiate (1 := ClaimsRequired). by eexists. }
  cbn [core_content_type core_content_algorithm core_claims core_recipient core_kdf_parties
       core_plaintext core_external_aad] in *.
  eexists. split.
  - unfold verify_sealed. erewrite outer_roundtrip; [| exact Hk | exact Hhw | exact Hsig | done
      | done | exact Henc | exact H]. cbn [map_err s_payload]. rewrite Hm. cbn [map_err].
    erewrite check_signature_complete; [| exact Hver | exact Hsig | exact E2].
    rewrite Hmc. cbn [ok_or s_kid]. rewrite bool_decide_eq_true_2 by done. cbn [negb].
    cbn [vsp_validation]. rewrite Hval. cbn [map_err]. reflexivity.
  - cbn [sealed_claims sealed_content_type sealed_signer_key_id sealed_protected_headers s_kid
         s_protected_headers]. split_and!; try done.
    unfold VerifiedSealed_open, VerifiedSealed_open_request. cbn [sealed_recipient_key_id sealed_parties sealed_encrypt_bytes
      sealed_content_type]. rewrite Hmk, Hmp, Hmct, Hexp.
    cbn [recipient_key_id recipient_open X25519Recipient_Recipient].
    rewrite bool_decide_eq_true_2 by apply Hr. cbn [negb]. by rewrite Hopen.
Qed.

(** C32: sealing round trip.  A message that [build_sealed] produces under a
    signer verifies under every verifier that accepts the signer's
    signatures, whenever its claims validate; verification reports the
    claims, the content type, the signer's key id and the proof headers that
    were sealed; and the recipient that holds the private half of the target
    key opens it to the plaintext, expecting any party identities or exactly
    the sealed ones. *)
Theorem sealed_roundtrip params (signer : S) verifier eph nonce headers b v r expected :
  seal_wf params nonce → KeyId_wf (signer_key_id signer) → opt_wf headers_wf headers →
  signs signer → verifies verifier signer (default ProtectedHeaders_default headers) →
  is_bytes b → len64 b → build_sealed_inner params signer eph nonce headers = Ok b →
  validate (seal_claims params) v = Ok tt → holds_key r (seal_recipient params) →
  parties_mismatch expected (seal_kdf_parties params) = false →
  ∃ m,
    verify_sealed b verifier
      {| vsp_signature_aad := aad_signature (seal_aad params); vsp_validation := v |} = Ok m ∧
    sealed_claims m = seal_claims params ∧ sealed_content_type m = seal_content_type params ∧
    sealed_signer_key_id m = signer_key_id signer ∧
    sealed_protected_headers m = default ProtectedHeaders_default headers ∧
    VerifiedSealed_open m r (aad_encryption (seal_aad params)) expected
    = Ok {| opened_plaintext := seal_plaintext params;
            opened_content_type := seal_content_type params |}.
Proof.
  intros Hwf Hk Hh Hs Hver Hb Hlen H Hval Hr Hexp.
  unfold build_sealed_inner in H. inv_ok_step H. destruct value as [[protected payload] to_sign].
  inv_ok H. apply map_err_ok in E0 as Hsig. apply map_err_ok in H. destruct value as [sig].
  eapply sealed_parts_roundtrip; try done; [by eapply Hs in Hsig | by apply Hver].
Qed.

(** The bare signed construction round trip: what [build_signed] produces
    verifies, when the claims are as expected by the caller, and verification
    returns the payload, content type, claims, proof headers and key id that
    were signed. *)
Lemma signed_roundtrip params (signer : S) verifier headers b v :
  ContentType_wf (sp_content_type params) → opt_wf claims_wf (sp_claims params) →
  KeyId_wf (signer_key_id signer) → headers_wf headers →
  signs signer → verifies verifier signer headers → is_bytes b → len64 b →
  build_signed_with_headers params headers signer = Ok b →
  match v, sp_claims params with
  | Some v, Some c => validate c v = Ok tt
  | None, None => True
  | _, _ => False
  end →
  verify_signed b verifier {| vp_external_aad := sp_external_aad params; vp_validation := v |}
  = Ok {| vs_content_type := sp_content_type params; vs_payload := sp_payload params;
          vs_claims := sp_claims params; vs_protected_headers := headers;
          vs_signer_key_id := signer_key_id signer |}.
Proof.
  intros Hct Hc Hk Hh Hs Hver Hb Hlen H Hval. unfold build_signed_with_headers in H. inv_ok H.
  apply map_err_ok in E0, E1, E2, H.
  set (m := {| s_protected := value0; s_algorithm := signer_algorithm signer;
    s_kid := signer_key_id signer; s_content_type := Some (sp_content_type params);
    s_claims := sp_claims params; s_protected_headers := headers; s_payload := sp_payload params;
    s_signature := signature_bytes value2 |}).
  assert (∀ c, sp_claims params = Some c → check_sign_claims c signer = Ok tt) as Hcheck.
  { intros c Hc'. rewrite Hc' in E. by destruct value. }
  assert (decode_sign1_strict b Bare = Ok m) as Hm.
  { apply decode_sign1_complete; try done. split_and!; try done; [by eapply Hs |].
    eexists. split_and!; try done.
    destruct (sp_claims params) as [c |] eqn:Ec; [| done]. simpl.
    specialize (Hcheck c eq_refl). unfold check_sign_claims in Hcheck. inv_ok Hcheck.
    by destruct (response_public_key_cose c). }
  unfold verify_signed. rewrite Hm. cbn [map_err].
  rewrite (check_signature_complete verifier m _ _ value1);
    [| cbn; destruct value2; by apply Hver | by eapply Hs in E2 | done].
  unfold m. cbn [s_claims vp_validation s_kid s_content_type s_payload s_protected_headers].
  destruct v as [v |], (sp_claims params) as [c |] eqn:Ec; try done.
  specialize (Hcheck c eq_refl). unfold check_sign_claims in Hcheck. inv_ok Hcheck.
  by rewrite Hval.
Qed.

(** Encryption without a signature round trip: the recipient that holds
    the target's private half opens what [build_encrypted] produced to the
    plaintext and the content type. *)
Lemma encrypted_roundtrip params eph nonce b r expected :
  core_wf (EncryptParams_core params) nonce → is_bytes b → len64 b →
  build_encrypted params (Some eph) (Some nonce) = Ok b →
  holds_key r (ep_recipient params) →
  parties_mismatch expected (ep_kdf_parties params) = false →
  ∃ m, decode_encrypted b = Ok m ∧
       EncryptedMessage_open m r (ep_external_aad params) expected
       = Ok {| opened_plaintext := ep_plaintext params;
               opened_content_type := ep_content_type params |}.
Proof.
  intros Hw Hb Hlen H Hr Hexp. cbn in H.
  destruct (build_encrypt_core_roundtrip _ _ _ _ ClaimsForbidden Hw eq_refl Hb Hlen H)
    as (m & Hm & Hmct & Hma & Hmc & Hmk & Hmp & Hopen).
  unfold decode_encrypted. rewrite Hm. eexists. split; [done |].
  unfold EncryptedMessage_open. cbn [em_recipient_key_id em_parties em_bytes em_content_type
    recipient_key_id recipient_open X25519Recipient_Recipient].
  rewrite Hmk, Hmp, Hmct. cbn [EncryptParams_core core_recipient core_kdf_parties
    core_content_type] in *. rewrite bool_decide_eq_true_2 by apply Hr. cbn [negb].
  rewrite Hexp. cbn [EncryptParams_core core_external_aad core_plaintext] in Hopen.
  by rewrite Hopen.
Qed.
End roundtrip.

(** ** The shipped keys *)

(** An ephemeral response key is bound: the recipient generated for a
    response has the thumbprint of the public key as its key id, so claims
    that carry the two pass the binding check, and it holds the private half
    of that public key. *)
Theorem generate_ephemeral_response_bound `{HP : Primitives} fill r public c :
  generate_ephemeral_response fill = Ok (r, public) →
  response_key_id c = Some (x_key_id r) → response_public_key_cose c = Some public →
  response_key_binding_matches c = true ∧
  X25519Recipient_public r
  = {| target_key_id := x_key_id r; target_public := response_public public |}.
Proof.
  intros H Hk Hp. unfold generate_ephemeral_response in H. inv_reads H.
  apply map_err_ok in E0, E1. unfold response_key_binding_matches. rewrite Hk, Hp. simpl.
  unfold KeyId_from_bytes in E1. inv_ok E1. unfold from_public_bytes in E0. inv_ok E0.
  split; [by apply bool_decide_eq_true |]. done.
Qed.

(** What the local Ed25519 keys rely on. *)
Class Ed25519Laws `{SignaturePrimitives} : Prop := {
  ed25519_correct s m : ed25519_verify_strict (ed25519_public s) m (ed25519_sign s m) = true;
  ed25519_length s m : length (ed25519_sign s m) = 64%nat;
}.

Section ed25519.
Context `{HSP : SignaturePrimitives} {HEL : Ed25519Laws}.

Lemma Ed25519Signer_signs (s : Ed25519Signer) : signs s.
Proof.
  intros msg sig H. cbn in H. apply map_err_ok in H. unfold Signature_from_bytes in H. inv_ok H.
  cbn. intros Hn. pose proof (ed25519_length (ed_secret s) msg) as Hl. by rewrite Hn in Hl.
Qed.

(** A verifier pinned to the signer's public key accepts its signatures. *)
Lemma Ed25519Verifier_verifies (s : Ed25519Signer) v h :
  Ed25519Verifier_from_key (ed_key_id s) (Ed25519Signer_public_key_bytes s) = Ok v →
  verifies v s h.
Proof.
  unfold Ed25519Verifier_from_key, ed25519_key. intros Hv. inv_ok Hv.
  assert (value = ed25519_public (ed_secret s)) as -> by by case_match; simplify_eq.
  intros msg sig H. cbn in H. apply map_err_ok in H. unfold Signature_from_bytes in H. inv_ok H.
  cbn [verify Ed25519Verifier_Verifier signer_key_id signer_algorithm Ed25519Signer_Signer
       ed_keys signature_bytes].
  rewrite bool_decide_eq_true_2 by done. cbn [negb].
  assert (get [(ed_key_id s, ed25519_public (ed_secret s))] (ed_key_id s)
    = Some (ed25519_public (ed_secret s))) as -> by apply (get_insert_eq []).
  cbn [ok_or]. by rewrite ed25519_length, ed25519_correct.
Qed.
End ed25519.

(** ** Concrete messages *)

Definition toy_signatures : SignaturePrimitives := {|
  ed25519_sign s m := pad_to 64 (s ++ m);
  ed25519_public s := s;
  ed25519_valid _ := true;
  ed25519_verify_strict p m sig := bool_decide (sig = pad_to 64 (p ++ m));
  p256_scalar _ := true;
  p256_sign s m := Some (s ++ m);
  p256_from_sec1 p := Some p;
  p256_public_sec1 s := s;
  p256_signature _ := true;
  p256_normalize_s _ := None;
  p256_verify p m sig := bool_decide (sig = p ++ m);
  sha3_256 := pad_to 32;
|}.

Lemma length_pad_to n b : length (pad_to n b) = n.
Proof. unfold pad_to. rewrite length_take, length_app, length_replicate. lia. Qed.

#[export] Instance toy_signatures_laws : @Ed25519Laws toy_signatures.
Proof.
  split; cbn; intros.
  - by apply bool_decide_eq_true.
  - apply length_pad_to.
Qed.

#[export] Instance toy_primitives_laws : @PrimitivesLaws toy_primitives.
Proof.
  split; cbn.
  - intros a b. generalize (pad_to 32 a) (pad_to 32 b). intros l. induction l as [| x l IH];
      intros [| y k]; try done. cbn. rewrite IH. f_equal. f_equal. lia.
  - intros. apply length_pad_to.
  - intros _ key nonce m aad c [= <-]. apply strip_bytes_Some. by rewrite <- !app_assoc.
Qed.

Definition sample_recipient : X25519Recipient :=
  {| x_private := [9%N; 8%N]; x_key_id := {| key_id_bytes := bytes "box" |} |}.

Definition sample_signer : Ed25519Signer :=
  {| ed_secret := [5%N]; ed_key_id := {| key_id_bytes := [1%N; 2%N] |} |}.

Definition sample_verifier : Ed25519Verifier :=
  {| ed_keys := [({| key_id_bytes := [1%N; 2%N] |}, [5%N])] |}.

Definition sample_seal : SealParams :=
  {| seal_content_type := {| content_type_str := "text/plain" |};
     seal_plaintext := bytes "hello"; seal_claims := sample_claims; seal_role := Request;
     seal_recipient := @X25519Recipient_public toy_primitives sample_recipient;
     seal_content_algorithm := A256Gcm;
     seal_aad := {| aad_signature := bytes "sig"; aad_encryption := bytes "enc" |};
     seal_kdf_parties :=
       {| kdf_party_u := {| party_bytes := Some [3%N] |}; kdf_party_v := PartyIdentity_nil |} |}.

Definition sample_nonce : bytes_ := replicate 12 4%N.

Definition build_sample : result BuildError bytes_ :=
  @build_sealed_inner rfc8949 toy_primitives _ (@Ed25519Signer_Signer toy_signatures)
    sample_seal sample_signer [6%N] sample_nonce None.

Definition sample_sealed : bytes_ :=
  Eval vm_compute in match build_sample with Ok b => b | Err _ => [] end.

Lemma sample_key_wf k :
  forallb (λ b, (b <? 256)%N) (key_id_bytes k)
  && ((1 <=? length (key_id_bytes k)) && (length (key_id_bytes k) <=? 128))%nat = true →
  KeyId_wf k.
Proof. intros H. bool_facts. split; [by apply is_bytes_decide | lia]. Qed.

Lemma sample_claims_wf : @claims_wf toy_primitives sample_claims.
Proof.
  split; try done.
  - split; [by apply is_bytes_decide | simpl; lia].
  - by apply sample_key_wf.
  - split; [by apply sample_key_wf | done].
Qed.

Lemma sealed_roundtrip_witness :
  ∃ m,
    @verify_sealed rfc8949 toy_primitives _ (@Ed25519Verifier_Verifier toy_signatures)
      sample_sealed sample_verifier
      {| vsp_signature_aad := bytes "sig"; vsp_validation := sample_validation |} = Ok m ∧
    sealed_claims m = sample_claims ∧ sealed_content_type m = seal_content_type sample_seal ∧
    sealed_signer_key_id m = {| key_id_bytes := [1%N; 2%N] |} ∧
    sealed_protected_headers m = ProtectedHeaders_default ∧
    @VerifiedSealed_open _ (@X25519Recipient_Recipient rfc8949 toy_primitives) m sample_recipient
      (bytes "enc") None
    = Ok {| opened_plaintext := bytes "hello";
            opened_content_type := seal_content_type sample_seal |}.
Proof.
  apply (@sealed_roundtrip rfc8949 _ toy_primitives _ _ (@Ed25519Signer_Signer toy_signatures) _
    (@Ed25519Verifier_Verifier toy_signatures) sample_seal sample_signer sample_verifier [6%N]
    sample_nonce None); try done.
  - split; try done; [apply sample_claims_wf | by apply sample_key_wf |].
    split; intros id [= <-]. split; [| done]. by apply is_bytes_decide.
  - by apply sample_key_wf.
  - apply @Ed25519Signer_signs, _.
  - by apply Ed25519Verifier_verifies.
  - by apply is_bytes_decide.
Defined.

Definition sample_verify_params : VerifySealedParams :=
  {| vsp_signature_aad := bytes "sig"; vsp_validation := sample_validation |}.

Definition verify_sample : result VerifyError VerifiedSealed :=
  @verify_sealed rfc8949 toy_primitives _ (@Ed25519Verifier_Verifier toy_signatures)
    sample_sealed sample_verifier sample_verify_params.

Definition sample_verified : option VerifiedSealed :=
  Eval vm_compute in match verify_sample with Ok m => Some m | Err _ => None end.

Lemma verify_sample_ok : ∃ m, verify_sample = Ok m ∧ sample_verified = Some m.
Proof. eexists. split; vm_compute; reflexivity. Qed.

Lemma verify_sealed_sound_witness :
  ∃ m, verify_sample = Ok m ∧
    sender_key_id (sealed_claims m) = Some (sealed_signer_key_id m) ∧
    @validate toy_primitives (sealed_claims m) sample_validation = Ok tt.
Proof.
  destruct verify_sample_ok as (m & Hm & _). exists m. split; [done |].
  destruct (@verify_sealed_sound rfc8949 _ toy_primitives _
    (@Ed25519Verifier_Verifier toy_signatures) sample_sealed sample_verifier
    sample_verify_params m) as (o & e & sg & s & _ & _ & _ & _ & _ & _ & _ & Hk & Hv & _);
    [by apply is_bytes_decide | done | exact Hm | by split].
Defined.

Definition sample_parties : KdfParties :=
  {| kdf_party_u := {| party_bytes := Some [3%N] |}; kdf_party_v := PartyIdentity_nil |}.

