(* ===== verification/RustCrypto.v ===== *)
(** * The cryptographic crates

    [hkdf], [aes-gcm], [chacha20poly1305], [ml-kem], [ml-dsa] and
    [ed25519-dalek] are third-party code: the class [RustCrypto] has the calls
    that the streaming client and the broker's local cryptography make, with the randomness they draw as an
    argument, and [RustCryptoLaws] what those crates document and the code
    relies on. *)

From S2P Require Import Prelude RustStr Bytes.

(** The two AEAD types and the three ML-KEM parameter sets. *)
Inductive Cipher := CipherAes256Gcm | CipherChaCha20Poly1305.
Inductive KemParams := Kem512 | Kem768 | Kem1024.
Inductive DsaParams := Dsa44 | Dsa65 | Dsa87.

#[export] Instance Cipher_eq_dec : EqDecision Cipher.
Proof. solve_decision. Defined.

Class RustCrypto := {
  (** [Hkdf::<Sha256>::new(salt, ikm).expand(info, &mut [0; 32])]. *)
  hkdf_expand : option bytes_ → bytes_ → bytes_ → option bytes_;
  (** [cipher.encrypt(nonce, Payload { msg, aad })] under a 32-byte key:
      key, nonce, message, additional data. *)
  cipher_encrypt : Cipher → bytes_ → bytes_ → bytes_ → bytes_ → option bytes_;
  cipher_decrypt : Cipher → bytes_ → bytes_ → bytes_ → bytes_ → option bytes_;
  (** The encapsulation key [K::from_seed] gives, as bytes. *)
  kem_public : KemParams → bytes_ → bytes_;
  (** [EncapsulationKey::new_from_slice], as [to_bytes] exports it. *)
  kem_load : KemParams → bytes_ → option bytes_;
  (** [encapsulate]: key, randomness; encapsulated key and shared secret. *)
  kem_encapsulate : KemParams → bytes_ → bytes_ → bytes_ * bytes_;
  (** [decapsulate_slice] under the seed's key. *)
  kem_decapsulate : KemParams → bytes_ → bytes_ → option bytes_;
  (** [SigningKey::from_seed(seed)]'s [verifying_key().encode()] and
      [try_sign(message)]. *)
  dsa_public : DsaParams → bytes_ → bytes_;
  dsa_sign : DsaParams → bytes_ → bytes_ → option bytes_;
  (** [EncodedVerifyingKey::try_from] and [Signature::try_from] accept. *)
  dsa_key_ok : DsaParams → bytes_ → bool;
  dsa_signature_ok : DsaParams → bytes_ → bool;
  (** [verify(message, signature).is_ok()]. *)
  dsa_verify : DsaParams → bytes_ → bytes_ → bytes_ → bool;
  (** [SigningKey::from_bytes(seed)]: its public key and [sign]. *)
  ed_public : bytes_ → bytes_;
  ed_sign : bytes_ → bytes_ → bytes_;
  (** [VerifyingKey::from_bytes] accepts, and [verify] under that key. *)
  ed_valid : bytes_ → bool;
  ed_verify : bytes_ → bytes_ → bytes_ → bool;
}.

(** FIPS 203 encapsulated-key lengths. *)
Definition kem_ciphertext_len (k : KemParams) : nat :=
  match k with Kem512 => 768 | Kem768 => 1088 | Kem1024 => 1568 end.

Class RustCryptoLaws `(RC : RustCrypto) := {
  (** A 32-byte output is within HKDF's limit. *)
  hkdf_total salt ikm info : ∃ okm, hkdf_expand salt ikm info = Some okm;
  (** Messages below the ciphers' 2{^36}-byte limits are sealed, the record
      is the message's length plus the 16-byte tag, and it opens again. *)
  cipher_total c k n m a :
    (N.of_nat (length m) < 2 ^ 32)%N → ∃ r, cipher_encrypt c k n m a = Some r;
  cipher_length c k n m a r :
    cipher_encrypt c k n m a = Some r → length r = (length m + 16)%nat;
  cipher_opens c k n m a r :
    cipher_encrypt c k n m a = Some r → cipher_decrypt c k n r a = Some m;
  (** A published key loads, and FIPS 203 decapsulation inverts
      encapsulation to it (its failure probability, below 2{^-138}, is taken
      to be zero). *)
  kem_loads p seed : kem_load p (kem_public p seed) = Some (kem_public p seed);
  kem_correct p seed rnd ct ss :
    kem_encapsulate p (kem_public p seed) rnd = (ct, ss) →
    kem_decapsulate p seed ct = Some ss;
  kem_length p pk rnd ct ss :
    kem_encapsulate p pk rnd = (ct, ss) → length ct = kem_ciphertext_len p;
  (** What a signing key signs verifies under its public key. *)
  dsa_signs p seed m : ∃ sig, dsa_sign p seed m = Some sig;
  dsa_correct p seed m sig :
    dsa_sign p seed m = Some sig →
    dsa_key_ok p (dsa_public p seed) = true ∧ dsa_signature_ok p sig = true ∧
    dsa_verify p (dsa_public p seed) m sig = true;
  dsa_public_nonempty p seed : dsa_public p seed ≠ [];
  kem_public_nonempty p seed : kem_public p seed ≠ [];
  ed_lengths seed m : length (ed_public seed) = 32%nat ∧ length (ed_sign seed m) = 64%nat;
  ed_correct seed m :
    ed_valid (ed_public seed) = true ∧ ed_verify (ed_public seed) m (ed_sign seed m) = true;
}.

(** ** A concrete instance

    It satisfies the laws without any secrecy: a record is the message and
    the end of its additional data, and a derived key is the beginning of its
    input. *)

Definition first_bytes (n : nat) (l : bytes_) : bytes_ := take n (l ++ replicate n 0%N).

#[export] Instance toy_crypto : RustCrypto := {|
  hkdf_expand salt ikm info := Some (first_bytes 32 (ikm ++ info));
  cipher_encrypt c k n m a := Some (m ++ first_bytes 16 (rev a));
  cipher_decrypt c k n r a :=
    let m := take (length r - 16) r in
    if bool_decide (r = m ++ first_bytes 16 (rev a)) then Some m else None;
  kem_public p seed := 1%N :: seed;
  kem_load p pk := Some pk;
  kem_encapsulate p pk rnd :=
    (first_bytes (kem_ciphertext_len p) rnd, first_bytes 32 pk);
  kem_decapsulate p seed ct := Some (first_bytes 32 (1%N :: seed));
  dsa_public p seed := 2%N :: seed;
  dsa_sign p seed m := Some (m ++ seed);
  dsa_key_ok p pk := true;
  dsa_signature_ok p sig := true;
  dsa_verify p pk m sig := bool_decide (2%N :: sig = 2%N :: m ++ tail pk);
  ed_public seed := first_bytes 32 seed;
  ed_sign seed m := first_bytes 32 seed ++ first_bytes 32 m;
  ed_valid pk := true;
  ed_verify pk m sig := bool_decide (sig = first_bytes 32 pk ++ first_bytes 32 m);
|}.

Lemma length_first_bytes n l : length (first_bytes n l) = n.
Proof. unfold first_bytes. rewrite length_take, length_app, length_replicate. lia. Qed.

Lemma first_bytes_idem n l : first_bytes n (first_bytes n l) = first_bytes n l.
Proof.
  pose proof (length_first_bytes n l) as Hl. unfold first_bytes at 1.
  by rewrite <- Hl at 1; rewrite take_app_length.
Qed.

#[export] Instance toy_crypto_laws : RustCryptoLaws toy_crypto.
Proof.
  split; simpl.
  - eauto.
  - eauto.
  - intros ? ? ? m a r [= <-]. by rewrite length_app, length_first_bytes.
  - intros ? ? ? m a r [= <-]. rewrite length_app, length_first_bytes.
    rewrite Nat.add_sub, take_app_length. by rewrite bool_decide_eq_true_2.
  - done.
  - by intros p seed rnd ct ss [= <- <-].
  - intros p pk rnd ct ss [= <- <-]. apply length_first_bytes.
  - eauto.
  - intros p seed m sig [= <-]. by rewrite bool_decide_eq_true_2.
  - done.
  - done.
  - intros seed m. by rewrite length_app, !length_first_bytes.
  - intros seed m. rewrite bool_decide_eq_true_2; [done |]. by rewrite first_bytes_idem.
Qed.
