(* ===== verification/LocalCrypto.v ===== *)
(** * The broker's local cryptography

    [crates/basil-core/src/core]: the X25519 sealed box ([x25519_seal.rs]),
    materialize-to-sign Ed25519 ([ed25519_sign.rs]), ML-DSA ([ml_dsa_sign.rs])
    and the ML-KEM envelope ([ml_kem_envelope.rs]).  Each module takes raw key
    bytes and reaches no backend.  Fixed-size arrays are byte lists whose
    length the conversions check. *)

From S2P Require Import Prelude RustStr Bytes RustCrypto CoseTypes.

(** ** X25519 sealed box *)

Definition PUBLIC_KEY_LEN : nat := 32.
Definition PRIVATE_KEY_LEN : nat := 32.
Definition SEAL_NONCE_LEN : nat := 12.
Definition X25519_HKDF_LABEL : bytes_ := bytes "basil-x25519-seal-v1".

Record SealedEnvelope := {
  se_encapsulated_key : bytes_;
  se_nonce : bytes_;
  se_ciphertext : bytes_;
}.

Inductive SealError :=
| BadKeyLength (expected actual : nat)
| BadNonceLength (expected actual : nat)
| SealKdfFailed
| BoxSealFailed
| BoxOpenFailed.

Definition array32 (b : bytes_) : result SealError bytes_ :=
  return_err (BadKeyLength PUBLIC_KEY_LEN (length b))
    when negb (length b =? PUBLIC_KEY_LEN)%nat otherwise Ok b.

Definition private_from_slice (b : bytes_) : result SealError bytes_ := array32 b.
Definition public_from_slice (b : bytes_) : result SealError bytes_ := array32 b.

Definition envelope_from_parts (encapsulated_key nonce ciphertext : bytes_)
    : result SealError SealedEnvelope :=
  let? encapsulated_key := array32 encapsulated_key in
  return_err (BadNonceLength SEAL_NONCE_LEN (length nonce))
    when negb (length nonce =? SEAL_NONCE_LEN)%nat otherwise
  Ok {| se_encapsulated_key := encapsulated_key; se_nonce := nonce; se_ciphertext := ciphertext |}.

Section x25519_seal.
Context `{Primitives} `{RustCrypto}.

Definition public_from_private (private : bytes_) : bytes_ := x25519_public private.

Definition derive_box_key (shared ephemeral_pub recipient_pub : bytes_) : result SealError bytes_ :=
  ok_or SealKdfFailed (hkdf_expand None shared (X25519_HKDF_LABEL ++ ephemeral_pub ++ recipient_pub)).

Definition seal_with_parts (recipient_pub plaintext aad ephemeral_private nonce : bytes_)
    : result SealError SealedEnvelope :=
  let ephemeral_pub := x25519_public ephemeral_private in
  let shared := diffie_hellman ephemeral_private recipient_pub in
  return_err BoxSealFailed when negb (was_contributory shared) otherwise
  let? aead_key := derive_box_key shared ephemeral_pub recipient_pub in
  let? ciphertext :=
    ok_or BoxSealFailed (cipher_encrypt CipherChaCha20Poly1305 aead_key nonce plaintext aad) in
  Ok {| se_encapsulated_key := ephemeral_pub; se_nonce := nonce; se_ciphertext := ciphertext |}.

(** [seal] draws the ephemeral private key and the nonce. *)
Definition box_seal (recipient_pub plaintext aad : bytes_) (ephemeral nonce : bytes_)
    : result SealError SealedEnvelope :=
  seal_with_parts recipient_pub plaintext aad ephemeral nonce.

Definition box_open (recipient_priv : bytes_) (env : SealedEnvelope) (aad : bytes_)
    : result SealError bytes_ :=
  let recipient_pub := x25519_public recipient_priv in
  let shared := diffie_hellman recipient_priv (se_encapsulated_key env) in
  return_err BoxOpenFailed when negb (was_contributory shared) otherwise
  let? aead_key := derive_box_key shared (se_encapsulated_key env) recipient_pub in
  ok_or BoxOpenFailed
    (cipher_decrypt CipherChaCha20Poly1305 aead_key (se_nonce env) (se_ciphertext env) aad).
End x25519_seal.

(** ** Ed25519 materialize-to-sign *)

Definition ED_SEED_LEN : nat := 32.
Definition ED_PUBLIC_KEY_LEN : nat := 32.
Definition SIGNATURE_LEN : nat := 64.

Inductive EdSignError :=
| EdBadSeedLength (expected actual : nat)
| BadFieldLength (what : string) (expected actual : nat).

Definition ed_seed_from_slice (b : bytes_) : result EdSignError bytes_ :=
  return_err (EdBadSeedLength ED_SEED_LEN (length b))
    when negb (length b =? ED_SEED_LEN)%nat otherwise Ok b.

Definition ed_public_from_slice (b : bytes_) : result EdSignError bytes_ :=
  return_err (BadFieldLength "public key" ED_PUBLIC_KEY_LEN (length b))
    when negb (length b =? ED_PUBLIC_KEY_LEN)%nat otherwise Ok b.

Section ed25519_sign.
Context `{RustCrypto}.

Definition ed25519_sign_seed (seed message : bytes_) : bytes_ := ed_sign seed message.
Definition ed25519_public_from_seed (seed : bytes_) : bytes_ := ed_public seed.

Definition ed25519_verify_sig (public message signature : bytes_) : result EdSignError bool :=
  return_err (BadFieldLength "signature" SIGNATURE_LEN (length signature))
    when negb (length signature =? SIGNATURE_LEN)%nat otherwise
  if negb (ed_valid public) then Ok false else Ok (ed_verify public message signature).
End ed25519_sign.

(** ** ML-DSA *)

Definition DSA_SEED_LEN : nat := 32.

Inductive MlDsaAlgorithm := AlgMlDsa44 | AlgMlDsa65 | AlgMlDsa87.

Definition MlDsaAlgorithm_token (a : MlDsaAlgorithm) : string :=
  match a with
  | AlgMlDsa44 => "ml-dsa-44" | AlgMlDsa65 => "ml-dsa-65" | AlgMlDsa87 => "ml-dsa-87"
  end.

(** The [MlDsaParams] each algorithm instantiates [P] with. *)
Definition dsa_params (a : MlDsaAlgorithm) : DsaParams :=
  match a with AlgMlDsa44 => Dsa44 | AlgMlDsa65 => Dsa65 | AlgMlDsa87 => Dsa87 end.

Inductive MlDsaError :=
| DsaBadSeedLength (expected actual : nat)
| BadPublicKeyLength
| BadSignatureEncoding
| DsaSignFailed.

(** The length check of [signing_key_from_seed]; the key is its seed. *)
Definition signing_key_from_seed (seed : bytes_) : result MlDsaError bytes_ :=
  return_err (DsaBadSeedLength DSA_SEED_LEN (length seed))
    when negb (length seed =? DSA_SEED_LEN)%nat otherwise Ok seed.

Section ml_dsa_sign.
Context `{RustCrypto}.

Definition ml_dsa_public_from_seed (a : MlDsaAlgorithm) (seed : bytes_) : result MlDsaError bytes_ :=
  let? key := signing_key_from_seed seed in
  Ok (dsa_public (dsa_params a) key).

Definition ml_dsa_sign (a : MlDsaAlgorithm) (seed message : bytes_) : result MlDsaError bytes_ :=
  let? key := signing_key_from_seed seed in
  ok_or DsaSignFailed (dsa_sign (dsa_params a) key message).

Definition ml_dsa_verify (a : MlDsaAlgorithm) (public_key message signature : bytes_)
    : result MlDsaError bool :=
  return_err BadPublicKeyLength when negb (dsa_key_ok (dsa_params a) public_key) otherwise
  return_err BadSignatureEncoding when negb (dsa_signature_ok (dsa_params a) signature) otherwise
  Ok (dsa_verify (dsa_params a) public_key message signature).
End ml_dsa_sign.

(** ** ML-KEM envelope *)

Definition KEM_SEED_LEN : nat := 64.
Definition KEM_NONCE_LEN : nat := 12.
Definition KEM_HKDF_LABEL : bytes_ := bytes "basil-ml-kem-envelope-v1".

Inductive KemAlgorithm := AlgMlKem512 | AlgMlKem768 | AlgMlKem1024.

#[export] Instance KemAlgorithm_eq_dec : EqDecision KemAlgorithm.
Proof. solve_decision. Defined.

Definition KemAlgorithm_token (a : KemAlgorithm) : string :=
  match a with
  | AlgMlKem512 => "ml-kem-512" | AlgMlKem768 => "ml-kem-768" | AlgMlKem1024 => "ml-kem-1024"
  end.

(** The [K] each algorithm instantiates. *)
Definition kem_params (a : KemAlgorithm) : KemParams :=
  match a with AlgMlKem512 => Kem512 | AlgMlKem768 => Kem768 | AlgMlKem1024 => Kem1024 end.

Inductive EnvelopeAlgorithm := EnvAes256Gcm | EnvChaCha20Poly1305.

Definition EnvelopeAlgorithm_token (a : EnvelopeAlgorithm) : string :=
  match a with EnvAes256Gcm => "aes-256-gcm" | EnvChaCha20Poly1305 => "chacha20-poly1305" end.

Definition envelope_cipher (a : EnvelopeAlgorithm) : Cipher :=
  match a with
  | EnvAes256Gcm => CipherAes256Gcm
  | EnvChaCha20Poly1305 => CipherChaCha20Poly1305
  end.

Record MlKemEnvelope := {
  mk_kem_algorithm : KemAlgorithm;
  mk_envelope_algorithm : EnvelopeAlgorithm;
  mk_encapsulated_key : bytes_;
  mk_nonce : bytes_;
  mk_ciphertext : bytes_;
}.

Inductive MlKemEnvelopeError :=
| KemBadSeedLength (expected actual : nat)
| BadCiphertextLength
| KemBadNonceLength (expected actual : nat)
| KemKdfFailed
| KemSealFailed
| KemOpenFailed.

Definition ml_kem_envelope_from_parts (kem : KemAlgorithm) (env : EnvelopeAlgorithm)
    (encapsulated_key nonce ciphertext : bytes_) : result MlKemEnvelopeError MlKemEnvelope :=
  return_err (KemBadNonceLength KEM_NONCE_LEN (length nonce))
    when negb (length nonce =? KEM_NONCE_LEN)%nat otherwise
  Ok {| mk_kem_algorithm := kem; mk_envelope_algorithm := env;
        mk_encapsulated_key := encapsulated_key; mk_nonce := nonce; mk_ciphertext := ciphertext |}.

Definition kem_seed_from_slice (seed : bytes_) : result MlKemEnvelopeError bytes_ :=
  return_err (KemBadSeedLength KEM_SEED_LEN (length seed))
    when negb (length seed =? KEM_SEED_LEN)%nat otherwise Ok seed.

Section ml_kem_envelope.
Context `{RustCrypto}.

Definition derive_envelope_key (kem : KemAlgorithm) (env : EnvelopeAlgorithm)
    (shared_secret encapsulated_key public_key : bytes_) : result MlKemEnvelopeError bytes_ :=
  let info :=
    KEM_HKDF_LABEL ++ bytes (KemAlgorithm_token kem) ++ bytes (EnvelopeAlgorithm_token env)
    ++ encapsulated_key ++ public_key in
  ok_or KemKdfFailed (hkdf_expand None shared_secret info).

Definition envelope_encrypt (env : EnvelopeAlgorithm) (key nonce plaintext aad : bytes_)
    : result MlKemEnvelopeError bytes_ :=
  ok_or KemSealFailed (cipher_encrypt (envelope_cipher env) key nonce plaintext aad).

Definition envelope_decrypt (env : EnvelopeAlgorithm) (key nonce ciphertext aad : bytes_)
    : result MlKemEnvelopeError bytes_ :=
  ok_or KemOpenFailed (cipher_decrypt (envelope_cipher env) key nonce ciphertext aad).

Definition ml_kem_open (seed : bytes_) (envelope : MlKemEnvelope) (aad : bytes_)
    : result MlKemEnvelopeError bytes_ :=
  let? seed := kem_seed_from_slice seed in
  let k := kem_params (mk_kem_algorithm envelope) in
  let? shared_secret :=
    ok_or BadCiphertextLength (kem_decapsulate k seed (mk_encapsulated_key envelope)) in
  let? aead_key :=
    derive_envelope_key (mk_kem_algorithm envelope) (mk_envelope_algorithm envelope) shared_secret
      (mk_encapsulated_key envelope) (kem_public k seed) in
  envelope_decrypt (mk_envelope_algorithm envelope) aead_key (mk_nonce envelope)
    (mk_ciphertext envelope) aad.

(** [kem_rnd] and [nonce] are drawn. *)
Definition ml_kem_seal (seed : bytes_) (kem : KemAlgorithm) (env : EnvelopeAlgorithm)
    (plaintext aad kem_rnd nonce : bytes_) : result MlKemEnvelopeError MlKemEnvelope :=
  let? seed := kem_seed_from_slice seed in
  let k := kem_params kem in
  let public_key := kem_public k seed in
  let '(encapsulated_key, shared_secret) := kem_encapsulate k public_key kem_rnd in
  let? aead_key := derive_envelope_key kem env shared_secret encapsulated_key public_key in
  let? ciphertext := envelope_encrypt env aead_key nonce plaintext aad in
  Ok {| mk_kem_algorithm := kem; mk_envelope_algorithm := env;
        mk_encapsulated_key := encapsulated_key; mk_nonce := nonce; mk_ciphertext := ciphertext |}.

Definition ml_kem_public_from_seed (seed : bytes_) (kem : KemAlgorithm)
    : result MlKemEnvelopeError bytes_ :=
  let? seed := kem_seed_from_slice seed in
  Ok (kem_public (kem_params kem) seed).

Definition ml_kem_encapsulate (seed : bytes_) (kem : KemAlgorithm) (kem_rnd : bytes_)
    : result MlKemEnvelopeError (bytes_ * bytes_) :=
  let? seed := kem_seed_from_slice seed in
  Ok (kem_encapsulate (kem_params kem) (kem_public (kem_params kem) seed) kem_rnd).

Definition ml_kem_decapsulate (seed : bytes_) (kem : KemAlgorithm) (encapsulated_key : bytes_)
    : result MlKemEnvelopeError bytes_ :=
  let? seed := kem_seed_from_slice seed in
  ok_or BadCiphertextLength (kem_decapsulate (kem_params kem) seed encapsulated_key).
End ml_kem_envelope.

(** ** Round trips *)

Section laws.
Context `{HP : Primitives} `{RC : RustCrypto} `{!RustCryptoLaws RC}.

Lemma seed_len_ok seed : length seed = KEM_SEED_LEN → kem_seed_from_slice seed = Ok seed.
Proof. intros Hs. unfold kem_seed_from_slice. by rewrite Hs. Qed.

(** An envelope sealed to the public half of a seed opens under the seed. *)
Lemma ml_kem_open_seal seed kem env m aad rnd nonce envelope :
  ml_kem_seal seed kem env m aad rnd nonce = Ok envelope → ml_kem_open seed envelope aad = Ok m.
Proof.
  unfold ml_kem_seal, ml_kem_open, kem_seed_from_slice. intros Hs.
  destruct (negb _) eqn:El in Hs; [done |]. rewrite El. simpl in *.
  destruct (kem_encapsulate _ _ _) as [ct ss] eqn:Ek.
  inv_ok Hs. simpl. rewrite (kem_correct _ _ _ _ _ Ek). simpl.
  unfold envelope_encrypt in *. unfold envelope_decrypt.
  match goal with H : derive_envelope_key _ _ _ _ _ = Ok _ |- _ => rewrite H end. simpl.
  destruct (cipher_encrypt _ _ _ _ _) eqn:Ec; simplify_eq/=. by rewrite (cipher_opens _ _ _ _ _ _ Ec).
Qed.

(** A sealed box addressed to a private key's public half opens under it. *)
Lemma box_open_seal private m aad eph nonce env :
  (∀ a b, diffie_hellman a (x25519_public b) = diffie_hellman b (x25519_public a)) →
  seal_with_parts (x25519_public private) m aad eph nonce = Ok env →
  box_open private env aad = Ok m.
Proof.
  intros Hdh. unfold seal_with_parts, box_open. intros Hs. inv_ok Hs. simpl.
  rewrite (Hdh private eph).
  match goal with H : negb (was_contributory _) = _ |- _ => rewrite H end. simpl.
  match goal with H : derive_box_key _ _ _ = Ok _ |- _ => rewrite H end. simpl.
  destruct (cipher_encrypt _ _ _ _ _) eqn:Ec; simplify_eq/=. by rewrite (cipher_opens _ _ _ _ _ _ Ec).
Qed.
End laws.
