(* ===== verification/Stream.v ===== *)
(** * Streaming encryption ([crates/basil-client/src/stream])

    The container format ([format.rs]), the chunk loops and entry points
    ([mod.rs]) and the ML-KEM key establishment ([kem.rs]).

    A reader delivers the input in arbitrary pieces: it is the list of what
    its successive [read] calls have available, [None] being an I/O error.
    The writer is a byte vector; the loops return what they wrote also when
    they fail.  The cryptographic crates are the class [RustCrypto]; random
    bytes are arguments. *)

From S2P Require Import Prelude RustStr Bytes RustCrypto.

Local Open Scope Z_scope.

(** ** Constants ([format.rs]) *)

Definition MAGIC : bytes_ := bytes "BSLSTR".
Definition FORMAT_VERSION : N := 1.
Definition FIXED_HEADER_LEN : nat := 61.
Definition CHUNK_AAD_MAGIC : bytes_ := bytes "BSLA".
Definition CEKWRAP_AAD_MAGIC : bytes_ := bytes "BSLK".
Definition STREAM_CEK_LABEL : bytes_ := bytes "basil-stream-cek-v1".
Definition TAG_LEN : nat := 16.
Definition STREAM_NONCE_LEN : nat := 12.
Definition CEK_LEN : nat := 32.
Definition STREAM_ID_LEN : nat := 16.
Definition STREAM_SALT_LEN : nat := 32.
Definition MAX_CHUNK_SIZE : N := 1048576.

Definition SUITE_AES256GCM : N := 1.
Definition SUITE_CHACHA20POLY1305 : N := 2.
Definition SUITE_MLKEM512 : N := 3.
Definition SUITE_MLKEM768 : N := 4.
Definition SUITE_MLKEM1024 : N := 5.

Inductive StreamError :=
| StreamIo
| BadMagic
| UnsupportedVersion (v : N)
| UnsupportedSuite (id : N)
| ReservedFlags
| ShortHeader
| BadChunkSize (n : N)
| ChunkTooLarge
| SuiteMismatch (actual : N)
| BadPublicKey
| BadCekLength
| BadKemCiphertext
| Truncated
| AuthFailed
| StreamKdfFailed
| StreamSealFailed
| CekRecoveryFailed.

Inductive ChunkAead := ChunkAes256Gcm | ChunkChaCha20Poly1305.

Record StreamHeader := {
  suite_id : N;
  chunk_size : N;
  stream_id : bytes_;
  stream_salt : bytes_;
}.

Inductive AeadSuite := AeadAes256Gcm | AeadChaCha20Poly1305.
Inductive MlKemSuite := SuiteMlKem512 | SuiteMlKem768 | SuiteMlKem1024.

Definition u32_be (n : N) : bytes_ := to_be_bytes 4 n.
Definition u64_be (n : N) : bytes_ := to_be_bytes 8 n.

(** [u32::try_from(n)]. *)
Definition u32_try_from (n : N) : option N := if (n <? 4294967296)%N then Some n else None.

Definition chunk_aead_for_suite (suite : N) : option ChunkAead :=
  if ((suite =? SUITE_AES256GCM) || (suite =? SUITE_MLKEM512) || (suite =? SUITE_MLKEM768)
      || (suite =? SUITE_MLKEM1024))%N
  then Some ChunkAes256Gcm
  else if (suite =? SUITE_CHACHA20POLY1305)%N then Some ChunkChaCha20Poly1305 else None.

Definition write_fixed_header (suite chunk : N) (id salt : bytes_) : bytes_ :=
  MAGIC ++ [FORMAT_VERSION; suite; 0%N] ++ u32_be chunk ++ id ++ salt.

Definition parse_fixed_header (buf : bytes_) : result StreamError StreamHeader :=
  let? magic := ok_or ShortHeader (get_range buf 0 6) in
  return_err BadMagic when negb (bool_decide (magic = MAGIC)) otherwise
  let? version := ok_or ShortHeader (buf !! 6%nat) in
  return_err (UnsupportedVersion version) when negb (version =? FORMAT_VERSION)%N otherwise
  let? suite := ok_or ShortHeader (buf !! 7%nat) in
  let? flags := ok_or ShortHeader (buf !! 8%nat) in
  return_err ReservedFlags when negb (flags =? 0)%N otherwise
  return_err (UnsupportedSuite suite)
    when match chunk_aead_for_suite suite with None => true | Some _ => false end otherwise
  let? raw := ok_or ShortHeader (get_range buf 9 13) in
  let chunk := from_be_bytes raw in
  return_err (BadChunkSize chunk)
    when negb ((1 <=? chunk) && (chunk <=? MAX_CHUNK_SIZE))%N otherwise
  let? id := ok_or ShortHeader (get_range buf 13 29) in
  let? salt := ok_or ShortHeader (get_range buf 29 61) in
  Ok {| suite_id := suite; chunk_size := chunk; stream_id := id; stream_salt := salt |}.

Definition build_chunk_aad (suite : N) (id : bytes_) (index : N) (is_final : bool)
    (plaintext_len chunk : N) : bytes_ :=
  CHUNK_AAD_MAGIC ++ [FORMAT_VERSION; suite] ++ id ++ u64_be index
  ++ [if is_final then 1%N else 0%N] ++ u32_be plaintext_len ++ u32_be chunk.

Definition build_cekwrap_aad (suite : N) (id : bytes_) : bytes_ :=
  CEKWRAP_AAD_MAGIC ++ [FORMAT_VERSION; suite] ++ id.

Definition chunk_nonce (index : N) : bytes_ := replicate 4 0%N ++ u64_be index.

Definition chunk_cipher (alg : ChunkAead) : Cipher :=
  match alg with
  | ChunkAes256Gcm => CipherAes256Gcm
  | ChunkChaCha20Poly1305 => CipherChaCha20Poly1305
  end.

Section format.
Context `{RustCrypto}.

Definition derive_message_key (salt cek : bytes_) (suite : N) (id : bytes_)
    : result StreamError bytes_ :=
  ok_or StreamKdfFailed (hkdf_expand (Some salt) cek (STREAM_CEK_LABEL ++ [suite] ++ id)).

Definition stream_aead_seal (alg : ChunkAead) (key nonce plaintext aad : bytes_)
    : result StreamError bytes_ :=
  ok_or StreamSealFailed (cipher_encrypt (chunk_cipher alg) key nonce plaintext aad).

Definition stream_aead_open (alg : ChunkAead) (key nonce ciphertext aad : bytes_)
    : result StreamError bytes_ :=
  ok_or AuthFailed (cipher_decrypt (chunk_cipher alg) key nonce ciphertext aad).
End format.

(** ** Suites *)

Definition AeadSuite_suite_id (s : AeadSuite) : N :=
  match s with
  | AeadAes256Gcm => SUITE_AES256GCM
  | AeadChaCha20Poly1305 => SUITE_CHACHA20POLY1305
  end.

Definition AeadSuite_chunk_aead (s : AeadSuite) : ChunkAead :=
  match s with
  | AeadAes256Gcm => ChunkAes256Gcm
  | AeadChaCha20Poly1305 => ChunkChaCha20Poly1305
  end.

Definition AeadSuite_from_suite_id (id : N) : option AeadSuite :=
  if (id =? SUITE_AES256GCM)%N then Some AeadAes256Gcm
  else if (id =? SUITE_CHACHA20POLY1305)%N then Some AeadChaCha20Poly1305 else None.

Definition MlKemSuite_suite_id (s : MlKemSuite) : N :=
  match s with
  | SuiteMlKem512 => SUITE_MLKEM512 | SuiteMlKem768 => SUITE_MLKEM768 | SuiteMlKem1024 => SUITE_MLKEM1024
  end.

Definition kem_token (s : MlKemSuite) : string :=
  match s with
  | SuiteMlKem512 => "ml-kem-512" | SuiteMlKem768 => "ml-kem-768" | SuiteMlKem1024 => "ml-kem-1024"
  end.

Definition ciphertext_len (s : MlKemSuite) : nat :=
  match s with SuiteMlKem512 => 768 | SuiteMlKem768 => 1088 | SuiteMlKem1024 => 1568 end.

(** The [ml_kem] parameter set each suite instantiates [K] with. *)
Definition MlKemSuite_params (s : MlKemSuite) : KemParams :=
  match s with SuiteMlKem512 => Kem512 | SuiteMlKem768 => Kem768 | SuiteMlKem1024 => Kem1024 end.

Definition MlKemSuite_from_suite_id (id : N) : option MlKemSuite :=
  if (id =? SUITE_MLKEM512)%N then Some SuiteMlKem512
  else if (id =? SUITE_MLKEM768)%N then Some SuiteMlKem768
  else if (id =? SUITE_MLKEM1024)%N then Some SuiteMlKem1024 else None.

(** ** Reading *)

Definition Reader := list (option bytes_).

(** One [read] into a buffer of [n > 0] bytes: what is available now, up to
    [n]; nothing left is end of file. *)
Definition read_some (r : Reader) (n : nat) : result StreamError (bytes_ * Reader) :=
  match r with
  | [] => Ok ([], [])
  | None :: _ => Err StreamIo
  | Some piece :: r' =>
      if (length piece <=? n)%nat then Ok (piece, r')
      else Ok (take n piece, Some (drop n piece) :: r')
  end.

(** [while filled < buf.len()]: each turn that does not end the loop fills at
    least a byte, so [n] turns are enough. *)
Fixpoint read_full_loop (fuel n : nat) (r : Reader) (filled : bytes_)
    : result StreamError (bytes_ * Reader) :=
  match fuel with
  | O => Ok (filled, r)
  | S fuel' =>
      if (n <=? length filled)%nat then Ok (filled, r)
      else
        let? (got, r) := read_some r (n - length filled) in
        if (length got =? 0)%nat then Ok (filled, r)
        else read_full_loop fuel' n r (filled ++ got)
  end.

(** The bytes read; fewer than [n] at the end of the input. *)
Definition read_full (r : Reader) (n : nat) : result StreamError (bytes_ * Reader) :=
  read_full_loop n n r [].

Definition read_record_exact (r : Reader) (n : nat) : result StreamError (bytes_ * Reader) :=
  let? (buf, r) := read_full r n in
  return_err Truncated when negb (length buf =? n)%nat otherwise
  Ok (buf, r).

Definition read_record (r : Reader) (len max_record : N) : result StreamError (bytes_ * Reader) :=
  return_err ChunkTooLarge when (max_record <? len)%N otherwise
  read_record_exact r (N.to_nat len).

Definition read_len_prefix (r : Reader) : result StreamError (option N * Reader) :=
  let? (buf, r) := read_full r 4 in
  if (length buf =? 0)%nat then Ok (None, r)
  else if (length buf =? 4)%nat then Ok (Some (from_be_bytes buf), r)
  else Err Truncated.

Definition read_fixed_header (r : Reader) : result StreamError (StreamHeader * Reader) :=
  let? (buf, r) := read_full r FIXED_HEADER_LEN in
  return_err ShortHeader when negb (length buf =? FIXED_HEADER_LEN)%nat otherwise
  let? h := parse_fixed_header buf in
  Ok (h, r).

(** ** The chunk loops *)

Record ChunkCrypto := {
  cc_suite_id : N;
  cc_chunk_aead : ChunkAead;
  cc_chunk_size : N;
  cc_stream_id : bytes_;
  cc_message_key : bytes_;
}.

Definition validate_chunk_size (n : N) : result StreamError N :=
  return_err (BadChunkSize n) when ((n =? 0) || (MAX_CHUNK_SIZE <? n))%N otherwise Ok n.

(** [index.checked_add(1)]. *)
Definition next_index (index : N) : option N :=
  if (index =? 18446744073709551615)%N then None else Some (index + 1)%N.

(** What was written, and how the loop ended. *)
Definition Written T : Type := bytes_ * result StreamError T.

Section chunks.
Context `{RustCrypto}.

(** The record of one chunk. *)
Definition seal_chunk (c : ChunkCrypto) (chunk_u32 index : N) (is_final : bool) (plaintext : bytes_)
    : result StreamError bytes_ :=
  let? plaintext_len := ok_or StreamSealFailed (u32_try_from (N.of_nat (length plaintext))) in
  let aad := build_chunk_aad (cc_suite_id c) (cc_stream_id c) index is_final plaintext_len
               chunk_u32 in
  stream_aead_seal (cc_chunk_aead c) (cc_message_key c) (chunk_nonce index) plaintext aad.

(** The loop of [write_chunks]; [current] is [current[..have]].  [None] is
    the model running out of [fuel]. *)
Fixpoint write_loop (fuel : nat) (c : ChunkCrypto) (chunk_u32 : N) (r : Reader) (index : N)
    (current out : bytes_) : option (Written unit) :=
  match fuel with
  | O => None
  | S fuel' =>
      match read_full r (N.to_nat (cc_chunk_size c)) with
      | Err e => Some (out, Err e)
      | Ok (next, r) =>
          let is_final := (length next =? 0)%nat in
          match seal_chunk c chunk_u32 index is_final current with
          | Err e => Some (out, Err e)
          | Ok record =>
              match u32_try_from (N.of_nat (length record)) with
              | None => Some (out, Err StreamSealFailed)
              | Some record_len =>
                  let out := out ++ u32_be record_len ++ record in
                  match next_index index with
                  | None => Some (out, Err StreamSealFailed)
                  | Some index =>
                      if is_final then Some (out, Ok tt)
                      else write_loop fuel' c chunk_u32 r index next out
                  end
              end
          end
      end
  end.

(** The bytes a reader can still deliver. *)
Definition available (r : Reader) : bytes_ := concat (omap id r).

Definition write_chunks (r : Reader) (header : bytes_) (c : ChunkCrypto) : option (Written unit) :=
  match u32_try_from (cc_chunk_size c) with
  | None => Some (header, Err (BadChunkSize (cc_chunk_size c)))
  | Some chunk_u32 =>
      match read_full r (N.to_nat (cc_chunk_size c)) with
      | Err e => Some (header, Err e)
      | Ok (current, r) => write_loop (S (length (available r))) c chunk_u32 r 0 current header
      end
  end.

(** One record opened: [current.len().checked_sub(TAG_LEN)] and the rest. *)
Definition open_chunk (c : ChunkCrypto) (chunk_u32 index : N) (is_final : bool) (record : bytes_)
    : result StreamError bytes_ :=
  return_err AuthFailed when (length record <? TAG_LEN)%nat otherwise
  let plaintext_len := N.of_nat (length record - TAG_LEN) in
  let? len_u32 := ok_or ChunkTooLarge (u32_try_from plaintext_len) in
  let aad := build_chunk_aad (cc_suite_id c) (cc_stream_id c) index is_final len_u32 chunk_u32 in
  let? plaintext :=
    stream_aead_open (cc_chunk_aead c) (cc_message_key c) (chunk_nonce index) record aad in
  return_err AuthFailed
    when negb is_final && negb (plaintext_len =? cc_chunk_size c)%N otherwise
  Ok plaintext.

Fixpoint read_loop (fuel : nat) (c : ChunkCrypto) (chunk_u32 max_record : N) (r : Reader)
    (index : N) (current out : bytes_) : option (Written unit) :=
  match fuel with
  | O => None
  | S fuel' =>
      match read_len_prefix r with
      | Err e => Some (out, Err e)
      | Ok (next_len, r) =>
          let is_final := match next_len with None => true | Some _ => false end in
          match open_chunk c chunk_u32 index is_final current with
          | Err e => Some (out, Err e)
          | Ok plaintext =>
              let out := out ++ plaintext in
              match next_len with
              | None => Some (out, Ok tt)
              | Some next_len =>
                  match next_index index with
                  | None => Some (out, Err Truncated)
                  | Some index =>
                      match read_record r next_len max_record with
                      | Err e => Some (out, Err e)
                      | Ok (current, r) =>
                          read_loop fuel' c chunk_u32 max_record r index current out
                      end
                  end
              end
          end
      end
  end.

Definition read_chunks (r : Reader) (c : ChunkCrypto) : option (Written unit) :=
  let max_record := (cc_chunk_size c + N.of_nat TAG_LEN)%N in
  match u32_try_from (cc_chunk_size c) with
  | None => Some ([], Err (BadChunkSize (cc_chunk_size c)))
  | Some chunk_u32 =>
      match read_len_prefix r with
      | Err e => Some ([], Err e)
      | Ok (None, _) => Some ([], Err Truncated)
      | Ok (Some first_len, r) =>
          match read_record r first_len max_record with
          | Err e => Some ([], Err e)
          | Ok (current, r) =>
              read_loop (S (length (available r))) c chunk_u32 max_record r 0 current []
          end
      end
  end.

(** ** Entry points *)

(** The random draws: content key, stream id and salt. *)
Record StreamRandom := { rnd_cek : bytes_; rnd_stream_id : bytes_; rnd_stream_salt : bytes_ }.

Inductive CekSource := CekGenerate | CekProvided (key : bytes_).

Definition encrypt_aead (r : Reader) (suite : AeadSuite) (source : CekSource) (chunk : N)
    (rnd : StreamRandom) : option (Written bytes_) :=
  let cek := match source with CekGenerate => rnd_cek rnd | CekProvided key => key end in
  match
    let? chunk := validate_chunk_size chunk in
    let suite_id := AeadSuite_suite_id suite in
    let? chunk_u32 := ok_or (BadChunkSize chunk) (u32_try_from chunk) in
    let header := write_fixed_header suite_id chunk_u32 (rnd_stream_id rnd) (rnd_stream_salt rnd) in
    let? message_key := derive_message_key (rnd_stream_salt rnd) cek suite_id (rnd_stream_id rnd) in
    Ok (header,
        {| cc_suite_id := suite_id; cc_chunk_aead := AeadSuite_chunk_aead suite;
           cc_chunk_size := chunk; cc_stream_id := rnd_stream_id rnd;
           cc_message_key := message_key |})
  with
  | Err e => Some ([], Err e)
  | Ok (header, crypto) =>
      match write_chunks r header crypto with
      | Some (out, Ok _) => Some (out, Ok cek)
      | Some (out, Err e) => Some (out, Err e)
      | None => None
      end
  end.

Definition decrypt_aead (r : Reader) (cek : bytes_) : option (Written unit) :=
  match
    let? (h, r) := read_fixed_header r in
    let? suite := ok_or (SuiteMismatch (suite_id h)) (AeadSuite_from_suite_id (suite_id h)) in
    let? message_key := derive_message_key (stream_salt h) cek (suite_id h) (stream_id h) in
    Ok (r, {| cc_suite_id := suite_id h; cc_chunk_aead := AeadSuite_chunk_aead suite;
              cc_chunk_size := chunk_size h; cc_stream_id := stream_id h;
              cc_message_key := message_key |})
  with
  | Err e => Some ([], Err e)
  | Ok (r, crypto) => read_chunks r crypto
  end.
End chunks.

(** ** ML-KEM key establishment ([kem.rs]) *)

Definition KEM_ENVELOPE_LABEL : bytes_ := bytes "basil-ml-kem-envelope-v1".
Definition ENV_TOKEN_AES256GCM : bytes_ := bytes "aes-256-gcm".

Record StreamKemEnvelope := {
  sk_encapsulated_key : bytes_;
  sk_nonce : bytes_;
  sk_ciphertext : bytes_;
}.

Definition serialize_kem_header (env : StreamKemEnvelope) : result StreamError bytes_ :=
  let? kem_ct_len :=
    ok_or StreamSealFailed (u32_try_from (N.of_nat (length (sk_encapsulated_key env)))) in
  let? wrapped_len :=
    ok_or StreamSealFailed (u32_try_from (N.of_nat (length (sk_ciphertext env)))) in
  Ok (u32_be kem_ct_len ++ sk_encapsulated_key env ++ sk_nonce env ++ u32_be wrapped_len
      ++ sk_ciphertext env).

Definition read_kem_envelope (r : Reader) (suite : MlKemSuite)
    : result StreamError (StreamKemEnvelope * Reader) :=
  let? (len, r) := read_len_prefix r in
  let? kem_ct_len := ok_or ShortHeader len in
  let expected := ciphertext_len suite in
  return_err BadKemCiphertext when negb (kem_ct_len =? N.of_nat expected)%N otherwise
  let? (encapsulated_key, r) := read_record_exact r expected in
  let? (nonce, r) := read_record_exact r STREAM_NONCE_LEN in
  let? (len, r) := read_len_prefix r in
  let? wrapped_len := ok_or ShortHeader len in
  let wrapped := (CEK_LEN + TAG_LEN)%nat in
  return_err BadKemCiphertext when negb (wrapped_len =? N.of_nat wrapped)%N otherwise
  let? (ciphertext, r) := read_record_exact r wrapped in
  Ok ({| sk_encapsulated_key := encapsulated_key; sk_nonce := nonce;
         sk_ciphertext := ciphertext |}, r).

(** [CekRecovery::recover_cek]: envelope and additional data. *)
Definition CekRecovery : Type := StreamKemEnvelope → bytes_ → result StreamError bytes_.

(** [pb::KemEnvelope], with the suite for its two algorithm numbers. *)
Record PbKemEnvelope := {
  pe_kem_algorithm : MlKemSuite;
  pe_envelope_algorithm : ChunkAead;
  pe_key_version : N;
  pe_encapsulated_key : bytes_;
  pe_nonce : bytes_;
  pe_ciphertext : bytes_;
}.

(** [BrokerCekRecovery]; [unwrap_envelope] is the RPC. *)
Definition BrokerCekRecovery (unwrap_envelope : string → PbKemEnvelope → option bytes_ → option bytes_)
    (key_id : string) (suite : MlKemSuite) : CekRecovery := λ envelope aad,
  let pb_env :=
    {| pe_kem_algorithm := suite; pe_envelope_algorithm := ChunkAes256Gcm; pe_key_version := 0;
       pe_encapsulated_key := sk_encapsulated_key envelope; pe_nonce := sk_nonce envelope;
       pe_ciphertext := sk_ciphertext envelope |} in
  let? cek := ok_or CekRecoveryFailed (unwrap_envelope key_id pb_env (Some aad)) in
  return_err BadCekLength when negb (length cek =? CEK_LEN)%nat otherwise
  Ok cek.

Section kem.
Context `{RustCrypto}.

Definition derive_kem_aead_key (suite : MlKemSuite)
    (shared_secret encapsulated_key public_key : bytes_) : result StreamError bytes_ :=
  let info :=
    KEM_ENVELOPE_LABEL ++ bytes (kem_token suite) ++ ENV_TOKEN_AES256GCM ++ encapsulated_key
    ++ public_key in
  ok_or StreamKdfFailed (hkdf_expand None shared_secret info).

Definition encapsulate_to (suite : MlKemSuite) (public_key rnd : bytes_)
    : result StreamError (bytes_ * bytes_ * bytes_) :=
  let? derived_public := ok_or BadPublicKey (kem_load (MlKemSuite_params suite) public_key) in
  let '(encapsulated_key, shared_secret) :=
    kem_encapsulate (MlKemSuite_params suite) derived_public rnd in
  Ok (encapsulated_key, shared_secret, derived_public).

Definition decapsulate_with_seed (suite : MlKemSuite) (seed encapsulated_key : bytes_)
    : result StreamError (bytes_ * bytes_) :=
  let? shared_secret :=
    ok_or BadKemCiphertext (kem_decapsulate (MlKemSuite_params suite) seed encapsulated_key) in
  Ok (shared_secret, kem_public (MlKemSuite_params suite) seed).

Definition seed_from_slice (seed : bytes_) : result StreamError bytes_ :=
  return_err BadKemCiphertext when negb (length seed =? 64)%nat otherwise Ok seed.

Definition wrap_cek (public_key : bytes_) (suite : MlKemSuite) (cek aad kem_rnd nonce : bytes_)
    : result StreamError StreamKemEnvelope :=
  let? (encapsulated_key, shared_secret, derived_public) :=
    encapsulate_to suite public_key kem_rnd in
  let? aead_key := derive_kem_aead_key suite shared_secret encapsulated_key derived_public in
  let? ciphertext := stream_aead_seal ChunkAes256Gcm aead_key nonce cek aad in
  Ok {| sk_encapsulated_key := encapsulated_key; sk_nonce := nonce; sk_ciphertext := ciphertext |}.

Definition open_cek_local (seed : bytes_) (suite : MlKemSuite) (envelope : StreamKemEnvelope)
    (aad : bytes_) : result StreamError bytes_ :=
  let? seed := seed_from_slice seed in
  let? (shared_secret, derived_public) :=
    decapsulate_with_seed suite seed (sk_encapsulated_key envelope) in
  let? aead_key :=
    derive_kem_aead_key suite shared_secret (sk_encapsulated_key envelope) derived_public in
  stream_aead_open ChunkAes256Gcm aead_key (sk_nonce envelope) (sk_ciphertext envelope) aad.

Definition LocalSeedCekRecovery (seed : bytes_) (suite : MlKemSuite) : CekRecovery :=
  open_cek_local seed suite.

Definition encrypt_ml_kem (r : Reader) (suite : MlKemSuite) (public_key : bytes_) (chunk : N)
    (rnd : StreamRandom) (kem_rnd nonce : bytes_) : option (Written unit) :=
  match
    let? chunk := validate_chunk_size chunk in
    let cek := rnd_cek rnd in
    let suite_id := MlKemSuite_suite_id suite in
    let cekwrap_aad := build_cekwrap_aad suite_id (rnd_stream_id rnd) in
    let? envelope := wrap_cek public_key suite cek cekwrap_aad kem_rnd nonce in
    let? chunk_u32 := ok_or (BadChunkSize chunk) (u32_try_from chunk) in
    let header := write_fixed_header suite_id chunk_u32 (rnd_stream_id rnd) (rnd_stream_salt rnd) in
    let? kem_header := serialize_kem_header envelope in
    let? message_key := derive_message_key (rnd_stream_salt rnd) cek suite_id (rnd_stream_id rnd) in
    Ok (header ++ kem_header,
        {| cc_suite_id := suite_id; cc_chunk_aead := ChunkAes256Gcm; cc_chunk_size := chunk;
           cc_stream_id := rnd_stream_id rnd; cc_message_key := message_key |})
  with
  | Err e => Some ([], Err e)
  | Ok (header, crypto) => write_chunks r header crypto
  end.

Definition decrypt_ml_kem (r : Reader) (recovery : CekRecovery) : option (Written unit) :=
  match
    let? (h, r) := read_fixed_header r in
    let? suite := ok_or (SuiteMismatch (suite_id h)) (MlKemSuite_from_suite_id (suite_id h)) in
    let? (envelope, r) := read_kem_envelope r suite in
    let cekwrap_aad := build_cekwrap_aad (suite_id h) (stream_id h) in
    let? cek := recovery envelope cekwrap_aad in
    return_err BadCekLength when negb (length cek =? CEK_LEN)%nat otherwise
    let? message_key := derive_message_key (stream_salt h) cek (suite_id h) (stream_id h) in
    Ok (r, {| cc_suite_id := suite_id h; cc_chunk_aead := ChunkAes256Gcm;
              cc_chunk_size := chunk_size h; cc_stream_id := stream_id h;
              cc_message_key := message_key |})
  with
  | Err e => Some ([], Err e)
  | Ok (r, crypto) => read_chunks r crypto
  end.
End kem.
