(* ===== verification/StreamProofs.v ===== *)
(** * Streaming encryption: correctness

    Reading is independent of how the input is cut into pieces, the loops
    terminate, a container decrypts to the plaintext it was made from, and,
    for an AEAD that opens only what was sealed, nothing but a prefix of a
    sealed plaintext is ever written and only the complete one is accepted. *)

From S2P Require Import Prelude RustStr Bytes RustCrypto Stream.

#[local] Arguments u32_be : simpl never.
#[local] Arguments u64_be : simpl never.

(** ** Readers *)

(** [r] delivers exactly [b], in non-empty pieces. *)
Definition delivers (r : Reader) (b : bytes_) : Prop :=
  ∃ ps, r = map Some ps ∧ Forall (λ p, p ≠ []) ps ∧ concat ps = b.

Lemma available_read_some r n got r' :
  read_some r n = Ok (got, r') → available r = got ++ available r'.
Proof.
  unfold read_some, available. destruct r as [| [p |] r]; [by intros [= <- <-] | | done].
  destruct (Nat.leb_spec (length p) n); intros [= <- <-]; cbn; [done |].
  by rewrite app_assoc, take_drop.
Qed.

Lemma available_read_full_loop fuel n r filled buf r' :
  read_full_loop fuel n r filled = Ok (buf, r') → filled ++ available r = buf ++ available r'.
Proof.
  revert r filled. induction fuel as [| fuel IH]; intros r filled; simpl; [by intros [= <- <-] |].
  destruct (Nat.leb_spec n (length filled)); [by intros [= <- <-] |].
  destruct (read_some r _) as [[got r1] |] eqn:E; simpl; [| done].
  apply available_read_some in E as ->.
  destruct (Nat.eqb_spec (length got) 0) as [Hg |]; [| intros Hr; by rewrite app_assoc, (IH _ _ Hr)].
  apply nil_length_inv in Hg as ->. by intros [= <- <-].
Qed.

(** What is read is what was available, in order. *)
Lemma available_read_full r n buf r' :
  read_full r n = Ok (buf, r') → available r = buf ++ available r'.
Proof. apply (available_read_full_loop n n r []). Qed.

Lemma delivers_read_some r b n :
  delivers r b → (0 < n)%nat →
  ∃ got r', read_some r n = Ok (got, r') ∧ delivers r' (drop (length got) b) ∧
            got = take (length got) b ∧ (length got <= n)%nat ∧ (b ≠ [] → got ≠ []).
Proof.
  intros (ps & -> & Hps & <-) Hn. destruct Hps as [| p ps Hp Hps]; simpl.
  { exists [], []. split_and!; try done; [by exists [] | simpl; lia]. }
  destruct (Nat.leb_spec (length p) n).
  - exists p, (map Some ps). rewrite drop_app_length, take_app_length.
    split_and!; try done. by exists ps.
  - exists (take n p), (Some (drop n p) :: map Some ps).
    rewrite length_take_le by lia. split_and!; try done.
    + exists (drop n p :: ps). split_and!; [done | | by rewrite drop_app_le by lia].
      constructor; [| done]. intros Hd. apply (f_equal length) in Hd.
      rewrite length_drop in Hd. simpl in Hd. lia.
    + by rewrite take_app_le by lia.
    + intros _ Ht. apply (f_equal length) in Ht. rewrite length_take in Ht. simpl in Ht. lia.
Qed.

Lemma delivers_read_full_loop fuel n r filled b :
  delivers r b → (n - length filled <= fuel)%nat → (length filled <= n)%nat →
  ∃ r', read_full_loop fuel n r filled = Ok (filled ++ take (n - length filled) b, r') ∧
        delivers r' (drop (n - length filled) b).
Proof.
  revert r filled b. induction fuel as [| fuel IH]; intros r filled b Hr Hf Hn; simpl.
  { assert (n - length filled = 0)%nat as -> by lia. rewrite take_0, drop_0, app_nil_r. eauto. }
  destruct (Nat.leb_spec n (length filled)).
  { assert (n - length filled = 0)%nat as -> by lia. rewrite take_0, drop_0, app_nil_r. eauto. }
  destruct (delivers_read_some r b (n - length filled)) as (got & r' & -> & Hd & Hg & Hl & Hne);
    [done | lia |]. simpl.
  destruct (Nat.eqb_spec (length got) 0) as [H0 | H0].
  { apply nil_length_inv in H0. subst got. destruct b as [| x b]; [| by destruct Hne].
    rewrite take_nil, drop_nil, app_nil_r. eauto. }
  destruct (IH r' (filled ++ got) (drop (length got) b)) as (r'' & -> & Hd');
    [done | rewrite length_app; lia | rewrite length_app; lia |].
  rewrite length_app in *. exists r''.
  replace (n - length filled)%nat with (length got + (n - (length filled + length got)))%nat by lia.
  rewrite <- take_take_drop, <- Hg, app_assoc, <- drop_drop. done.
Qed.

Lemma delivers_read_full r n b :
  delivers r b → ∃ r', read_full r n = Ok (take n b, r') ∧ delivers r' (drop n b).
Proof.
  intros Hr. destruct (delivers_read_full_loop n n r [] b Hr) as (r' & E & Hd); simpl; [lia.. |].
  simpl in E, Hd. rewrite Nat.sub_0_r in E, Hd. eauto.
Qed.

Lemma delivers_available r b : delivers r b → available r = b.
Proof.
  intros (ps & -> & _ & <-). unfold available. f_equal.
  induction ps as [| p ps IH]; [done |]. cbn. by f_equal.
Qed.

(** A field of known length at the front of the input. *)
Lemma delivers_read_field r x b :
  delivers r (x ++ b) → ∃ r', read_full r (length x) = Ok (x, r') ∧ delivers r' b.
Proof.
  intros Hr. destruct (delivers_read_full r (length x) _ Hr) as (r' & E & Hd).
  rewrite take_app_length in E. rewrite drop_app_length in Hd. eauto.
Qed.

Lemma delivers_read_exact r x b n :
  n = length x → delivers r (x ++ b) →
  ∃ r', read_record_exact r n = Ok (x, r') ∧ delivers r' b.
Proof.
  intros -> Hr. destruct (delivers_read_field r x b Hr) as (r' & E & Hd). exists r'.
  unfold read_record_exact. rewrite E. simpl. by rewrite Nat.eqb_refl.
Qed.

Lemma length_u32_be n : length (u32_be n) = 4%nat.
Proof. apply length_to_be_bytes. Qed.

Lemma delivers_read_len r n b :
  (n < 2 ^ 32)%N → delivers r (u32_be n ++ b) →
  ∃ r', read_len_prefix r = Ok (Some n, r') ∧ delivers r' b.
Proof.
  intros Hn Hr. destruct (delivers_read_field r (u32_be n) b Hr) as (r' & E & Hd). exists r'.
  unfold read_len_prefix. rewrite length_u32_be in E. rewrite E.
  cbn -[length u32_be]. rewrite length_u32_be. cbn. unfold u32_be. by rewrite from_to_be_bytes.
Qed.

Lemma delivers_read_record r x b m :
  (N.of_nat (length x) <= m)%N → delivers r (x ++ b) →
  ∃ r', read_record r (N.of_nat (length x)) m = Ok (x, r') ∧ delivers r' b.
Proof.
  intros Hm Hr. unfold read_record. destruct (N.ltb_spec m (N.of_nat (length x))); [lia |].
  simpl. rewrite Nat2N.id. by apply delivers_read_exact.
Qed.

Lemma delivers_read_end r :
  delivers r [] → ∃ r', read_len_prefix r = Ok (None, r') ∧ delivers r' [].
Proof.
  intros Hr. destruct (delivers_read_full r 4 [] Hr) as (r' & E & Hd). exists r'.
  unfold read_len_prefix. by rewrite E.
Qed.

(** ** The fixed header *)

Lemma length_u64_be n : length (u64_be n) = 8%nat.
Proof. apply length_to_be_bytes. Qed.

(** A header the writer can be given: a known suite, a chunk size in range
    and the two fixed-length fields. *)
Definition header_ok (h : StreamHeader) : Prop :=
  chunk_aead_for_suite (suite_id h) ≠ None ∧ (1 <= chunk_size h <= MAX_CHUNK_SIZE)%N ∧
  length (stream_id h) = STREAM_ID_LEN ∧ length (stream_salt h) = STREAM_SALT_LEN.

Definition header_bytes (h : StreamHeader) : bytes_ :=
  write_fixed_header (suite_id h) (chunk_size h) (stream_id h) (stream_salt h).

#[local] Arguments header_bytes : simpl never.

Lemma length_header_bytes h : header_ok h → length (header_bytes h) = FIXED_HEADER_LEN.
Proof.
  intros (_ & _ & Hi & Hs). unfold header_bytes, write_fixed_header.
  rewrite !length_app, length_u32_be, Hi, Hs. reflexivity.
Qed.

Definition fixed_prefix (suite : N) : bytes_ := MAGIC ++ [FORMAT_VERSION; suite; 0%N].

Lemma header_bytes_app h :
  header_bytes h =
    fixed_prefix (suite_id h) ++ u32_be (chunk_size h) ++ stream_id h ++ stream_salt h.
Proof. reflexivity. Qed.

Lemma parse_header_bytes h post :
  header_ok h → parse_fixed_header (header_bytes h ++ post) = Ok h.
Proof.
  intros (Hs & Hc & Hi & Hl). unfold parse_fixed_header. rewrite header_bytes_app.
  set (buf := _ ++ post).
  assert (get_range buf 0 6 = Some MAGIC) as -> by reflexivity.
  assert (buf !! 6%nat = Some FORMAT_VERSION) as -> by reflexivity.
  assert (buf !! 7%nat = Some (suite_id h)) as -> by reflexivity.
  assert (buf !! 8%nat = Some 0%N) as -> by reflexivity.
  assert (get_range buf 9 13 = Some (u32_be (chunk_size h))) as ->.
  { apply get_range_Some. exists (fixed_prefix (suite_id h)). eexists.
    split; [unfold buf; by rewrite <- !app_assoc |]. by rewrite length_u32_be. }
  assert (get_range buf 13 29 = Some (stream_id h)) as ->.
  { apply get_range_Some. exists (fixed_prefix (suite_id h) ++ u32_be (chunk_size h)). eexists.
    split; [unfold buf; by rewrite <- !app_assoc |]. by rewrite length_app, length_u32_be, Hi. }
  assert (get_range buf 29 61 = Some (stream_salt h)) as ->.
  { apply get_range_Some.
    exists (fixed_prefix (suite_id h) ++ u32_be (chunk_size h) ++ stream_id h). eexists.
    split; [unfold buf; by rewrite <- !app_assoc |].
    by rewrite !length_app, length_u32_be, Hi, Hl. }
  simpl. destruct (chunk_aead_for_suite (suite_id h)); [| done].
  unfold u32_be. rewrite from_to_be_bytes by (unfold MAX_CHUNK_SIZE in Hc; simpl; lia).
  destruct (N.leb_spec 1 (chunk_size h)); [| lia].
  destruct (N.leb_spec (chunk_size h) MAX_CHUNK_SIZE); [| lia]. by destruct h.
Qed.

Lemma take_get_range (l p x : bytes_) a b :
  take a l = p → get_range l a b = Some x → take b l = p ++ x.
Proof.
  intros <- (pre & post & -> & <- & <-)%get_range_Some.
  by rewrite take_app_length, (app_assoc pre), <- length_app, take_app_length.
Qed.

Lemma take_lookup (l p : bytes_) a x :
  take a l = p → l !! a = Some x → take (S a) l = p ++ [x].
Proof. intros <- H. by apply take_S_r. Qed.

Lemma get_range_length l a b x : get_range l a b = Some x → length x = (b - a)%nat.
Proof. intros (pre & post & -> & <- & <-)%get_range_Some. lia. Qed.

Lemma get_range_bytes l a b x : is_bytes l → get_range l a b = Some x → is_bytes x.
Proof.
  unfold is_bytes. intros Hl (pre & post & -> & _)%get_range_Some.
  rewrite !Forall_app in Hl. tauto.
Qed.

(** A parsed header is the writer's bytes for it. *)
Lemma parse_fixed_header_Ok buf h :
  parse_fixed_header buf = Ok h →
  header_ok h ∧ (is_bytes buf → ∃ post, buf = header_bytes h ++ post).
Proof.
  unfold parse_fixed_header. intros Hp. inv_reads Hp; bool_facts.
  repeat match goal with H : ok_or _ ?o = Ok _ |- _ => destruct o eqn:?; [| done]; simpl in H; injection H as <- end.
  split.
  { split_and!; simpl; [by destruct (chunk_aead_for_suite _) | done | done | ..];
      match goal with H : get_range _ _ _ = Some ?x |- length ?x = _ =>
        apply (get_range_length _ _ _ _ H) end. }
  intros Hb. exists (drop 61 buf). rewrite <- (take_drop 61 buf) at 1. f_equal.
  match goal with H : get_range buf 9 13 = Some ?x |- _ =>
    pose proof (get_range_bytes _ _ _ _ Hb H) as Hcb; pose proof (get_range_length _ _ _ _ H) as Hcl
  end.
  assert (take 0 buf = []) as T by done.
  repeat match type of T with take ?a buf = _ =>
    match goal with
    | H : get_range buf a _ = Some _ |- _ => apply (take_get_range _ _ _ _ _ T) in H; clear T; rename H into T
    | H : buf !! a = Some _ |- _ => apply (take_lookup _ _ _ _ T) in H; clear T; rename H into T
    end
  end.
  rewrite T, header_bytes_app. simpl chunk_size. unfold u32_be.
  rewrite <- Hcl at 1.
  rewrite to_from_be_bytes by done. subst. by rewrite <- !app_assoc.
Qed.

(** The fixed header's parser and writer are inverse: a buffer parses to
    [h] exactly when [h] is well formed (known suite, chunk size in 1..1 MiB,
    16-byte id and 32-byte salt) and the buffer begins with the bytes written
    for [h]. *)
Theorem parse_fixed_header_exact buf h :
  is_bytes buf →
  parse_fixed_header buf = Ok h ↔ header_ok h ∧ ∃ post, buf = header_bytes h ++ post.
Proof.
  intros Hb. split; [intros [? ?]%parse_fixed_header_Ok; auto |].
  intros [Hh [post ->]]. by apply parse_header_bytes.
Qed.

Definition demo_header : StreamHeader :=
  {| suite_id := SUITE_AES256GCM; chunk_size := 4; stream_id := replicate 16 9%N;
     stream_salt := replicate 32 8%N |}.

(** ** Nonces and additional data *)

Lemma u32_be_inj a b : (a < 2 ^ 32)%N → (b < 2 ^ 32)%N → u32_be a = u32_be b → a = b.
Proof. apply (to_be_bytes_inj 4). Qed.

Lemma u64_be_inj a b : (a < 2 ^ 64)%N → (b < 2 ^ 64)%N → u64_be a = u64_be b → a = b.
Proof. apply (to_be_bytes_inj 8). Qed.

Lemma chunk_nonce_inj i j :
  (i < 2 ^ 64)%N → (j < 2 ^ 64)%N → chunk_nonce i = chunk_nonce j → i = j.
Proof. intros Hi Hj H%app_inv_head. by apply u64_be_inj. Qed.

(** The additional data of two chunks agree only where every field does. *)
Lemma build_chunk_aad_inj s id i f p c s' id' i' f' p' c' :
  length id = length id' → (i < 2 ^ 64)%N → (i' < 2 ^ 64)%N →
  (p < 2 ^ 32)%N → (p' < 2 ^ 32)%N → (c < 2 ^ 32)%N → (c' < 2 ^ 32)%N →
  build_chunk_aad s id i f p c = build_chunk_aad s' id' i' f' p' c' →
  s = s' ∧ id = id' ∧ i = i' ∧ f = f' ∧ p = p' ∧ c = c'.
Proof.
  intros Hid Hi Hi' Hp Hp' Hc Hc' H. unfold build_chunk_aad in H.
  apply app_inv_head in H. apply app_inj_1 in H as [Hs H]; [| done].
  apply app_inj_1 in H as [<- H]; [| done].
  apply app_inj_1 in H as [Hii H]; [| by rewrite !length_u64_be].
  apply app_inj_1 in H as [Hf H]; [| done].
  apply app_inj_1 in H as [Hpp Hcc]; [| by rewrite !length_u32_be].
  apply u64_be_inj in Hii; [| done..]. apply u32_be_inj in Hpp; [| done..].
  apply u32_be_inj in Hcc; [| done..]. injection Hs as <-. by destruct f, f'.
Qed.

(** ** The chunks of a plaintext *)

(** Chunk [i], and whether it is the last; an empty plaintext has one. *)
Definition chunk_at (cs : N) (p : bytes_) (i : N) : bytes_ :=
  take (N.to_nat cs) (drop (N.to_nat (i * cs)) p).

Definition last_chunk (cs : N) (p : bytes_) (i : N) : bool :=
  (N.of_nat (length p) <=? (i + 1) * cs)%N.

Lemma take_chunk_at cs p i :
  take (N.to_nat (i * cs)) p ++ chunk_at cs p i = take (N.to_nat ((i + 1) * cs)) p.
Proof.
  unfold chunk_at. rewrite take_take_drop. f_equal. lia.
Qed.

Lemma take_last_chunk cs p i :
  last_chunk cs p i = true → take (N.to_nat ((i + 1) * cs)) p = p.
Proof. intros Hl%N.leb_le. apply take_ge. lia. Qed.

Lemma length_chunk_at cs p i : (length (chunk_at cs p i) <= N.to_nat cs)%nat.
Proof. unfold chunk_at. rewrite length_take. lia. Qed.

(** ** Termination *)

Lemma read_len_prefix_consumes r n r' :
  read_len_prefix r = Ok (Some n, r') → (length (available r') < length (available r))%nat.
Proof.
  unfold read_len_prefix. destruct (read_full r 4) as [[buf r1] |] eqn:E; simpl; [| done].
  apply available_read_full in E as ->. rewrite length_app.
  destruct (Nat.eqb_spec (length buf) 0); [done |].
  destruct (Nat.eqb_spec (length buf) 4); [| done]. intros [= _ <-]. lia.
Qed.

Lemma read_record_available r n m x r' :
  read_record r n m = Ok (x, r') → (length (available r') <= length (available r))%nat.
Proof.
  unfold read_record, read_record_exact. destruct (m <? n)%N; [done |]. simpl.
  destruct (read_full r _) as [[buf r1] |] eqn:E; simpl; [| done].
  apply available_read_full in E as ->. rewrite length_app.
  destruct (_ =? _)%nat; simpl; [| done]. intros [= <- <-]. lia.
Qed.

Section loops.
Context `{RustCrypto}.

(** The decrypting loop uses at most one turn per available byte. *)
Lemma read_loop_total fuel c cs m r i cur out :
  (length (available r) < fuel)%nat → ∃ o, read_loop fuel c cs m r i cur out = Some o.
Proof.
  revert r i cur out. induction fuel as [| fuel IH]; intros r i cur out Hf; [lia |]. simpl.
  destruct (read_len_prefix r) as [[[n |] r1] |] eqn:E; [| destruct (open_chunk _ _ _ _ _) | ]; eauto.
  apply read_len_prefix_consumes in E. destruct (open_chunk _ _ _ _ _); [| eauto].
  destruct (next_index i); [| eauto].
  destruct (read_record r1 n m) as [[x r2] |] eqn:E2; [| eauto].
  apply read_record_available in E2. apply IH. lia.
Qed.

Lemma read_chunks_total r c : ∃ o, read_chunks r c = Some o.
Proof.
  unfold read_chunks. destruct (u32_try_from _); [| eauto].
  destruct (read_len_prefix r) as [[[k |] r1] |]; [| eauto..].
  destruct (read_record _ _ _) as [[x r2] |]; [| eauto]. apply read_loop_total. lia.
Qed.

Lemma write_loop_total fuel c cs r i cur out :
  (length (available r) < fuel)%nat → ∃ o, write_loop fuel c cs r i cur out = Some o.
Proof.
  revert r i cur out. induction fuel as [| fuel IH]; intros r i cur out Hf; [lia |]. simpl.
  destruct (read_full r _) as [[next r1] |] eqn:E; [| eauto].
  apply available_read_full in E. apply (f_equal length) in E. rewrite length_app in E.
  destruct (seal_chunk _ _ _ _ _); [| eauto]. destruct (u32_try_from _); [| eauto].
  destruct (next_index i); [| eauto].
  destruct (Nat.eqb_spec (length next) 0); [eauto |]. apply IH. lia.
Qed.

Lemma write_chunks_total r h c : ∃ o, write_chunks r h c = Some o.
Proof.
  unfold write_chunks. destruct (u32_try_from _); [| eauto].
  destruct (read_full r _) as [[x r1] |]; [| eauto]. apply write_loop_total. lia.
Qed.
End loops.

(** ** Integrity *)

(** A stream that was encrypted: its context and its plaintext. *)
Definition Sealed : Type := ChunkCrypto * bytes_.

Definition sealed_ok (s : Sealed) : Prop :=
  length (cc_stream_id s.1) = STREAM_ID_LEN ∧ (cc_chunk_size s.1 < 2 ^ 32)%N.

(** The record of nonce [nonce], additional data [aad] and message [m] is one
    of the chunks of [s]. *)
Definition sealed_chunk (s : Sealed) (nonce aad m : bytes_) : Prop :=
  ∃ i, (i < 2 ^ 64)%N ∧ nonce = chunk_nonce i ∧ m = chunk_at (cc_chunk_size s.1) s.2 i ∧
       aad = build_chunk_aad (cc_suite_id s.1) (cc_stream_id s.1) i
               (last_chunk (cc_chunk_size s.1) s.2 i) (N.of_nat (length m)) (cc_chunk_size s.1).

(** What a decryption may do: write a proper or complete part of one sealed
    plaintext, and succeed only with the complete one. *)
Definition authentic (streams : list Sealed) (w : Written unit) : Prop :=
  w.1 = [] ∧ w.2 ≠ Ok tt ∨
  ∃ s, s ∈ streams ∧ w.1 `prefix_of` s.2 ∧ (w.2 = Ok tt → w.1 = s.2).

Lemma u32_try_from_Some n m : u32_try_from n = Some m ↔ m = n ∧ (n < 2 ^ 32)%N.
Proof.
  unfold u32_try_from. change (2 ^ 32)%N with 4294967296%N.
  destruct (N.ltb_spec n 4294967296); split; [intros [= <-] | intros [-> _] | ..]; naive_solver lia.
Qed.

Lemma next_index_Some i j : next_index i = Some j → (i < 2 ^ 64)%N → j = (i + 1)%N ∧ (j < 2 ^ 64)%N.
Proof.
  unfold next_index. change (2 ^ 64)%N with 18446744073709551616%N.
  destruct (N.eqb_spec i 18446744073709551615); [done |]. intros [= <-] ?. lia.
Qed.

Section integrity.
Context `{RustCrypto}.
Variable streams : list Sealed.
Variable key : bytes_.
Hypothesis streams_ok : Forall sealed_ok streams.
Hypothesis key_unique : ∀ s s', s ∈ streams → s' ∈ streams →
  cc_message_key s.1 = key → cc_message_key s'.1 = key → s = s'.
(** The AEAD opens under [key] only what was sealed under it. *)
Hypothesis key_sealed : ∀ alg nonce record aad m,
  cipher_decrypt (chunk_cipher alg) key nonce record aad = Some m →
  ∃ s, s ∈ streams ∧ cc_message_key s.1 = key ∧ sealed_chunk s nonce aad m.

Lemma open_chunk_sealed c i fin record m :
  cc_message_key c = key → length (cc_stream_id c) = STREAM_ID_LEN →
  (cc_chunk_size c < 2 ^ 32)%N → (i < 2 ^ 64)%N →
  open_chunk c (cc_chunk_size c) i fin record = Ok m →
  ∃ s, s ∈ streams ∧ cc_message_key s.1 = key ∧ cc_chunk_size s.1 = cc_chunk_size c ∧
       m = chunk_at (cc_chunk_size c) s.2 i ∧ fin = last_chunk (cc_chunk_size c) s.2 i.
Proof.
  intros Hk Hid Hcs Hi. unfold open_chunk, stream_aead_open. rewrite Hk. intros Ho.
  inv_reads Ho. bool_facts.
  destruct (u32_try_from _) as [len |] eqn:El; simplify_eq/=. apply u32_try_from_Some in El as [-> Hl].
  destruct (cipher_decrypt _ _ _ _ _) as [pt |] eqn:Ed; simplify_eq/=.
  apply key_sealed in Ed as (s & Hs & Hsk & j & Hj & Hn & -> & Haad).
  pose proof (proj1 (list.Forall_forall _ _) streams_ok s Hs) as [Hsid Hscs].
  apply chunk_nonce_inj in Hn as ->; [| done..].
  apply build_chunk_aad_inj in Haad as (_ & _ & _ & -> & _ & ->);
    [| by rewrite Hid, Hsid | done | done | done | | done | done].
  - by exists s.
  - pose proof (length_chunk_at (cc_chunk_size s.1) s.2 j). lia.
Qed.

Lemma read_loop_sealed fuel c m r i cur out o s :
  cc_message_key c = key → length (cc_stream_id c) = STREAM_ID_LEN →
  (cc_chunk_size c < 2 ^ 32)%N → (i < 2 ^ 64)%N →
  s ∈ streams → cc_message_key s.1 = key →
  out = take (N.to_nat (i * cc_chunk_size c)) s.2 →
  read_loop fuel c (cc_chunk_size c) m r i cur out = Some o →
  o.1 `prefix_of` s.2 ∧ (o.2 = Ok tt → o.1 = s.2).
Proof.
  intros Hk Hid Hcs Hi Hs Hsk. revert r i cur out Hi.
  induction fuel as [| fuel IH]; intros r i cur out Hi Hout; simpl; [done |].
  assert (out `prefix_of` s.2) as Hpre by (subst; apply prefix_take).
  destruct (read_len_prefix r) as [[n r1] |]; [| by intros [= <-]].
  destruct (open_chunk _ _ _ _ _) as [pt |] eqn:Ho; [| by intros [= <-]].
  apply open_chunk_sealed in Ho as (s' & Hs' & Hsk' & Hcs' & -> & Hfin); [| done..].
  assert (s' = s) as -> by eauto. rewrite Hout, take_chunk_at.
  destruct n as [n |].
  - assert (take (N.to_nat ((i + 1) * cc_chunk_size c)) s.2 `prefix_of` s.2) as Hpre'
      by apply prefix_take.
    destruct (next_index i) as [j |] eqn:Ej; [| by intros [= <-]].
    apply next_index_Some in Ej as [-> Hj]; [| done].
    destruct (read_record r1 n m) as [[x r2] |]; [| by intros [= <-]].
    by apply IH.
  - intros [= <-]. rewrite take_last_chunk by done. by split.
Qed.

Lemma read_loop_authentic fuel c m r cur o :
  cc_message_key c = key → length (cc_stream_id c) = STREAM_ID_LEN →
  (cc_chunk_size c < 2 ^ 32)%N →
  read_loop fuel c (cc_chunk_size c) m r 0 cur [] = Some o → authentic streams o.
Proof.
  intros Hk Hid Hcs Hl.
  destruct (decide (Exists (λ s, cc_message_key s.1 = key) streams)) as [He | Hn].
  { apply list.Exists_exists in He as (s & Hs & Hsk). right. exists s. split; [done |].
    by eapply (read_loop_sealed fuel c m r 0 cur []). }
  left. destruct fuel as [| fuel]; [done |]. simpl in Hl.
  destruct (read_len_prefix r) as [[n r1] |]; [| by injection Hl as <-].
  destruct (open_chunk _ _ _ _ _) as [pt |] eqn:Ho; [| by injection Hl as <-].
  apply open_chunk_sealed in Ho as (s & Hs & Hsk & _); [| done.. | lia].
  destruct Hn. apply list.Exists_exists. eauto.
Qed.

Lemma read_chunks_authentic r c o :
  cc_message_key c = key → length (cc_stream_id c) = STREAM_ID_LEN →
  read_chunks r c = Some o → authentic streams o.
Proof.
  intros Hk Hid. unfold read_chunks.
  destruct (u32_try_from _) as [cs |] eqn:Ecs; [| intros [= <-]; by left].
  apply u32_try_from_Some in Ecs as [-> Hcs].
  destruct (read_len_prefix r) as [[[n |] r1] |]; [| intros [= <-]; by left..].
  destruct (read_record _ _ _) as [[x r2] |]; [| intros [= <-]; by left].
  by apply read_loop_authentic.
Qed.
End integrity.

Section entry_points.
Context `{RustCrypto}.

(** [key_sealed] and [key_unique] for the message keys derived from [cek]. *)
Definition unforgeable (streams : list Sealed) (cek : bytes_) : Prop :=
  ∀ salt suite id key, derive_message_key salt cek suite id = Ok key →
    (∀ s s', s ∈ streams → s' ∈ streams →
       cc_message_key s.1 = key → cc_message_key s'.1 = key → s = s') ∧
    (∀ alg nonce record aad m,
       cipher_decrypt (chunk_cipher alg) key nonce record aad = Some m →
       ∃ s, s ∈ streams ∧ cc_message_key s.1 = key ∧ sealed_chunk s nonce aad m).

Lemma read_fixed_header_id r h r' :
  read_fixed_header r = Ok (h, r') → length (stream_id h) = STREAM_ID_LEN.
Proof.
  unfold read_fixed_header. intros Hr. inv_reads Hr.
  match goal with H : parse_fixed_header _ = Ok _ |- _ =>
    apply parse_fixed_header_Ok in H as [(_ & _ & Hid & _) _] end. done.
Qed.

Lemma read_chunks_authentic_total streams cek h r c salt :
  Forall sealed_ok streams → unforgeable streams cek →
  derive_message_key salt cek (suite_id h) (stream_id h) = Ok (cc_message_key c) →
  cc_stream_id c = stream_id h → length (stream_id h) = STREAM_ID_LEN →
  ∃ w, read_chunks r c = Some w ∧ authentic streams w.
Proof.
  intros Hok Hun Hd Hid Hlen. destruct (Hun _ _ _ _ Hd) as [Hu Hs].
  destruct (read_chunks_total r c) as [w Hw]. exists w. split; [done |].
  eapply (read_chunks_authentic streams (cc_message_key c)); eauto. by rewrite Hid.
Qed.

(** C5: symmetric streams are authenticated as a whole.  If the message keys
    derived from [cek] open only the chunks of the streams sealed under them,
    one stream per message key, then decrypting any input, however the reader
    delivers it, terminates; everything written is a prefix of one sealed
    plaintext, and success means that it is that plaintext in full: a
    truncated, extended, reordered or spliced container is rejected. *)
Theorem decrypt_aead_authentic streams cek r :
  Forall sealed_ok streams → unforgeable streams cek →
  ∃ w, decrypt_aead r cek = Some w ∧ authentic streams w.
Proof.
  intros Hok Hun. unfold decrypt_aead.
  match goal with |- context [match ?x with Ok _ => _ | Err _ => _ end] =>
    destruct x as [[r' c] | e] eqn:E end; [| eexists; split; [done | by left]].
  inv_reads E. eapply read_chunks_authentic_total; eauto using read_fixed_header_id.
Qed.

(** C19: post-quantum streams are authenticated as a whole, for whatever way
    the content key is recovered, if the message keys of the keys it can
    recover open only what was sealed under them. *)
Theorem decrypt_ml_kem_authentic streams recovery r :
  Forall sealed_ok streams →
  (∀ envelope aad cek, recovery envelope aad = Ok cek → unforgeable streams cek) →
  ∃ w, decrypt_ml_kem r recovery = Some w ∧ authentic streams w.
Proof.
  intros Hok Hun. unfold decrypt_ml_kem.
  match goal with |- context [match ?x with Ok _ => _ | Err _ => _ end] =>
    destruct x as [[r' c] | e] eqn:E end; [| eexists; split; [done | by left]].
  inv_reads E. eapply read_chunks_authentic_total; eauto using read_fixed_header_id.
Qed.
End entry_points.

(** ** Round trip *)

Section roundtrip.
Context `{RC : RustCrypto} `{!RustCryptoLaws RC}.
Variables (c : ChunkCrypto) (p : bytes_).
Hypothesis size_ok : (1 <= cc_chunk_size c <= MAX_CHUNK_SIZE)%N.

(** The records of [p] from chunk [i] on. *)
Inductive Records : N → bytes_ → Prop :=
| Records_last i record :
    last_chunk (cc_chunk_size c) p i = true →
    seal_chunk c (cc_chunk_size c) i true (chunk_at (cc_chunk_size c) p i) = Ok record →
    Records i (u32_be (N.of_nat (length record)) ++ record)
| Records_more i record rest :
    last_chunk (cc_chunk_size c) p i = false →
    seal_chunk c (cc_chunk_size c) i false (chunk_at (cc_chunk_size c) p i) = Ok record →
    Records (i + 1)%N rest →
    Records i (u32_be (N.of_nat (length record)) ++ record ++ rest).

Lemma seal_chunk_total i fin m :
  (length m <= N.to_nat (cc_chunk_size c))%nat →
  ∃ record, seal_chunk c (cc_chunk_size c) i fin m = Ok record ∧
            length record = (length m + TAG_LEN)%nat ∧
            open_chunk c (cc_chunk_size c) i fin record =
              if negb fin && negb (N.of_nat (length m) =? cc_chunk_size c)%N then Err AuthFailed
              else Ok m.
Proof.
  intros Hm. unfold MAX_CHUNK_SIZE in size_ok. unfold seal_chunk, open_chunk, stream_aead_seal.
  assert (N.of_nat (length m) < 2 ^ 32)%N as Hl by (simpl; lia).
  assert (u32_try_from (N.of_nat (length m)) = Some (N.of_nat (length m))) as Hu
    by by apply u32_try_from_Some.
  rewrite Hu. simpl.
  set (aad := build_chunk_aad _ _ _ _ _ _).
  destruct (cipher_total (chunk_cipher (cc_chunk_aead c)) (cc_message_key c) (chunk_nonce i) m aad)
    as [record Hr]; [done |].
  pose proof (cipher_length _ _ _ _ _ _ Hr) as Hlen. pose proof (cipher_opens _ _ _ _ _ _ Hr) as Ho.
  rewrite Hr. exists record. split_and!; [done | done |].
  rewrite Hlen. destruct (Nat.ltb_spec (length m + 16) TAG_LEN) as [Hlt | _]; [unfold TAG_LEN in Hlt; lia |].
  replace (length m + 16 - TAG_LEN)%nat with (length m) by (unfold TAG_LEN; lia).
  simpl. rewrite Hu. simpl. unfold stream_aead_open. fold aad. by rewrite Ho.
Qed.

Hypothesis length_ok : (N.of_nat (length p) < 2 ^ 64 - 1)%N.

Lemma next_index_ok i : (i < 2 ^ 64 - 1)%N → next_index i = Some (i + 1)%N.
Proof.
  unfold next_index. change (2 ^ 64 - 1)%N with 18446744073709551615%N. intros Hi.
  destruct (N.eqb_spec i 18446744073709551615); [lia | done].
Qed.

Lemma chunk_at_nil i :
  last_chunk (cc_chunk_size c) p i = (length (chunk_at (cc_chunk_size c) p (i + 1)) =? 0)%nat.
Proof.
  unfold last_chunk, chunk_at. rewrite length_take, length_drop.
  destruct (N.leb_spec (N.of_nat (length p)) ((i + 1) * cc_chunk_size c)) as [Hl | Hl];
    symmetry; [apply Nat.eqb_eq | apply Nat.eqb_neq]; lia.
Qed.

Lemma drop_chunk_at i :
  drop (N.to_nat (cc_chunk_size c)) (drop (N.to_nat (i * cc_chunk_size c)) p) =
  drop (N.to_nat ((i + 1) * cc_chunk_size c)) p.
Proof. rewrite drop_drop. f_equal. lia. Qed.

Lemma record_len_ok (record m : bytes_) :
  (length m <= N.to_nat (cc_chunk_size c))%nat → length record = (length m + TAG_LEN)%nat →
  (N.of_nat (length record) < 2 ^ 32)%N ∧
  (N.of_nat (length record) <= cc_chunk_size c + N.of_nat TAG_LEN)%N.
Proof.
  intros Hm Hr. unfold TAG_LEN, MAX_CHUNK_SIZE in *. change (2 ^ 32)%N with 4294967296%N. lia.
Qed.

(** The encrypting loop writes the records of the plaintext, in order. *)
Lemma write_loop_Records fuel r i out :
  delivers r (drop (N.to_nat ((i + 1) * cc_chunk_size c)) p) →
  (length (available r) < fuel)%nat → (i <= N.of_nat (length p))%N →
  ∃ recs, Records i recs ∧
    write_loop fuel c (cc_chunk_size c) r i (chunk_at (cc_chunk_size c) p i) out =
      Some (out ++ recs, Ok tt).
Proof.
  revert r i out. induction fuel as [| fuel IH]; intros r i out Hr Hf Hi; [lia |].
  cbn [write_loop].
  destruct (delivers_read_full r (N.to_nat (cc_chunk_size c)) _ Hr) as (r' & E & Hr').
  pose proof (available_read_full _ _ _ _ E) as Hav. apply (f_equal length) in Hav.
  rewrite length_app in Hav. rewrite E. rewrite drop_chunk_at in Hr'.
  fold (chunk_at (cc_chunk_size c) p (i + 1)) in *. rewrite <- chunk_at_nil.
  destruct (seal_chunk_total i (last_chunk (cc_chunk_size c) p i) (chunk_at (cc_chunk_size c) p i))
    as (record & Hs & Hlen & _); [apply length_chunk_at |].
  rewrite Hs. destruct (record_len_ok record (chunk_at (cc_chunk_size c) p i)) as [Hl _];
    [apply length_chunk_at | done |].
  rewrite (proj2 (u32_try_from_Some _ _) (conj eq_refl Hl)), next_index_ok by lia.
  destruct (last_chunk (cc_chunk_size c) p i) eqn:El.
  { eexists. split; [by apply Records_last | done]. }
  pose proof El as Hne. rewrite chunk_at_nil in Hne. apply Nat.eqb_neq in Hne.
  unfold last_chunk in El. apply N.leb_gt in El.
  destruct (IH r' (i + 1)%N (out ++ u32_be (N.of_nat (length record)) ++ record))
    as (recs & Hrecs & ->); [done | lia | nia |].
  eexists. split; [apply Records_more; [apply N.leb_gt; done | done | exact Hrecs] |].
  by rewrite <- !app_assoc.
Qed.

(** The decrypting loop on the records from chunk [i] on writes the rest of
    the plaintext and accepts. *)
Lemma read_Records i recs :
  Records i recs → (i <= N.of_nat (length p))%N → ∀ r, delivers r recs →
  ∃ n r1 cur r2, read_len_prefix r = Ok (Some n, r1) ∧
    read_record r1 n (cc_chunk_size c + N.of_nat TAG_LEN) = Ok (cur, r2) ∧
    ∀ fuel out, (length (available r2) < fuel)%nat →
      read_loop fuel c (cc_chunk_size c) (cc_chunk_size c + N.of_nat TAG_LEN) r2 i cur out =
        Some (out ++ drop (N.to_nat (i * cc_chunk_size c)) p, Ok tt).
Proof.
  induction 1 as [i record Hl Hs | i record rest Hl Hs Hrest IH]; intros Hi r Hr.
  all: destruct (seal_chunk_total i (last_chunk (cc_chunk_size c) p i)
    (chunk_at (cc_chunk_size c) p i)) as (record' & Hs' & Hlen & Ho); [apply length_chunk_at |].
  all: rewrite Hl in Hs', Ho; rewrite Hs in Hs'; injection Hs' as <-.
  all: destruct (record_len_ok record _ (length_chunk_at _ _ _) Hlen) as [Hlt Hle].
  all: destruct (delivers_read_len _ _ _ Hlt Hr) as (r1 & E1 & Hr1).
  - destruct (delivers_read_record r1 record [] _ Hle) as (r2 & E2 & Hr2);
      [by rewrite app_nil_r |].
    destruct (delivers_read_end r2 Hr2) as (r3 & E3 & _).
    exists (N.of_nat (length record)), r1, record, r2. split_and!; [done | done |].
    intros [| fuel] out Hf; [lia |]. cbn [read_loop]. rewrite E3, Ho. simpl.
    do 3 f_equal. unfold chunk_at. apply N.leb_le in Hl. apply take_ge. rewrite length_drop. lia.
  - destruct (delivers_read_record r1 record rest _ Hle Hr1) as (r2 & E2 & Hr2).
    pose proof Hl as Hlast. unfold last_chunk in Hlast. apply N.leb_gt in Hlast.
    destruct (IH ltac:(nia) r2 Hr2) as (n & r3 & cur & r4 & E3 & E4 & Hloop).
    exists (N.of_nat (length record)), r1, record, r2. split_and!; [done | done |].
    intros [| fuel] out Hf; [lia |]. cbn [read_loop]. rewrite E3, Ho.
    assert (N.of_nat (length (chunk_at (cc_chunk_size c) p i)) = cc_chunk_size c) as Hfull.
    { unfold chunk_at. rewrite length_take, length_drop. lia. }
    rewrite Hfull, N.eqb_refl. simpl. rewrite next_index_ok by lia. rewrite E4.
    apply read_len_prefix_consumes in E3. apply read_record_available in E4.
    rewrite Hloop by lia. rewrite <- app_assoc. do 3 f_equal.
    unfold chunk_at. rewrite <- drop_chunk_at. apply take_drop.
Qed.

(** Writing the chunks of [p] after [header], however [p] is delivered, and
    reading the records back, however they are delivered. *)
Lemma chunks_roundtrip r header :
  delivers r p →
  ∃ recs, write_chunks r header c = Some (header ++ recs, Ok tt) ∧
    ∀ r', delivers r' recs → read_chunks r' c = Some (p, Ok tt).
Proof.
  intros Hr. unfold write_chunks, read_chunks.
  assert (u32_try_from (cc_chunk_size c) = Some (cc_chunk_size c)) as ->.
  { apply u32_try_from_Some. unfold MAX_CHUNK_SIZE in size_ok.
    change (2 ^ 32)%N with 4294967296%N. lia. }
  destruct (delivers_read_full r (N.to_nat (cc_chunk_size c)) p Hr) as (r1 & -> & Hr1).
  change (take (N.to_nat (cc_chunk_size c)) p) with (chunk_at (cc_chunk_size c) p 0).
  destruct (write_loop_Records (S (length (available r1))) r1 0 header) as (recs & Hrecs & ->);
    [by rewrite <- drop_chunk_at | lia | lia |].
  exists recs. split; [done |]. intros r' Hr'.
  destruct (read_Records 0 recs Hrecs ltac:(lia) r' Hr') as (n & r2 & cur & r3 & -> & -> & Hloop).
  rewrite Hloop by lia. done.
Qed.
End roundtrip.

Section whole.
Context `{RC : RustCrypto} `{!RustCryptoLaws RC}.

Definition random_ok (rnd : StreamRandom) : Prop :=
  length (rnd_cek rnd) = CEK_LEN ∧ length (rnd_stream_id rnd) = STREAM_ID_LEN ∧
  length (rnd_stream_salt rnd) = STREAM_SALT_LEN.

Lemma derive_message_key_total salt cek suite id :
  ∃ key, derive_message_key salt cek suite id = Ok key.
Proof.
  unfold derive_message_key. destruct (hkdf_total (Some salt) cek (STREAM_CEK_LABEL ++ [suite] ++ id))
    as [k ->]. by eexists.
Qed.

Lemma validate_chunk_size_ok n : (1 <= n <= MAX_CHUNK_SIZE)%N → validate_chunk_size n = Ok n.
Proof.
  intros Hn. unfold validate_chunk_size.
  destruct (N.eqb_spec n 0); [lia |]. by destruct (N.ltb_spec MAX_CHUNK_SIZE n); [lia |].
Qed.

Lemma chunk_u32_ok n : (1 <= n <= MAX_CHUNK_SIZE)%N → u32_try_from n = Some n.
Proof.
  intros Hn. apply u32_try_from_Some. unfold MAX_CHUNK_SIZE in Hn.
  change (2 ^ 32)%N with 4294967296%N. lia.
Qed.

Lemma delivers_fixed_header r h b :
  header_ok h → delivers r (header_bytes h ++ b) →
  ∃ r', read_fixed_header r = Ok (h, r') ∧ delivers r' b.
Proof.
  intros Hh Hr. destruct (delivers_read_field r _ _ Hr) as (r' & E & Hr'). exists r'.
  split; [| done]. unfold read_fixed_header.
  rewrite (length_header_bytes h Hh) in E. rewrite E.
  cbn beta iota. rewrite (length_header_bytes h Hh). cbn beta iota.
  by rewrite <- (app_nil_r (header_bytes h)), parse_header_bytes.
Qed.

(** C33: a symmetric stream decrypts to what was encrypted.  For every
    plaintext (below 2{^64}-1 bytes), suite, content key source and chunk
    size in range, and however reader and container are cut into pieces, the
    encryption succeeds and returns a key under which the container decrypts
    to exactly the plaintext. *)
Theorem aead_stream_roundtrip p r suite source chunk rnd :
  (N.of_nat (length p) < 2 ^ 64 - 1)%N → delivers r p → (1 <= chunk <= MAX_CHUNK_SIZE)%N →
  random_ok rnd →
  ∃ container cek, encrypt_aead r suite source chunk rnd = Some (container, Ok cek) ∧
    ∀ r', delivers r' container → decrypt_aead r' cek = Some (p, Ok tt).
Proof.
  intros Hp Hr Hc (_ & Hid & Hsalt). unfold encrypt_aead.
  rewrite validate_chunk_size_ok by done. cbn beta iota. rewrite chunk_u32_ok by done.
  cbn beta iota delta [ok_or].
  set (cek := match source with CekGenerate => _ | CekProvided _ => _ end).
  destruct (derive_message_key_total (rnd_stream_salt rnd) cek (AeadSuite_suite_id suite)
    (rnd_stream_id rnd)) as [key Hk]. rewrite Hk. cbn beta iota.
  set (c := {| cc_suite_id := _ |}).
  set (h := {| suite_id := AeadSuite_suite_id suite; chunk_size := chunk;
               stream_id := rnd_stream_id rnd; stream_salt := rnd_stream_salt rnd |}).
  destruct (chunks_roundtrip c p Hc Hp r (header_bytes h) Hr) as (recs & Hw & Hread).
  change (write_fixed_header _ _ _ _) with (header_bytes h). rewrite Hw. cbn beta iota.
  exists (header_bytes h ++ recs), cek. split; [done |]. intros r' Hr'.
  destruct (delivers_fixed_header r' h recs) as (r1 & E & Hr1); [| done |].
  { split_and!; try done; [by destruct suite | apply Hc..]. }
  unfold decrypt_aead. rewrite E. cbn beta iota.
  assert (AeadSuite_from_suite_id (suite_id h) = Some suite) as -> by by destruct suite.
  cbn beta iota delta [ok_or]. simpl suite_id. simpl stream_id. simpl stream_salt.
  rewrite Hk. cbn beta iota. by apply Hread.
Qed.
End whole.

(** ** Instances *)

Lemma aead_stream_roundtrip_witness :
  ∃ container cek,
    encrypt_aead [Some [1%N; 2%N; 3%N]; Some [4%N; 5%N]] AeadAes256Gcm CekGenerate 4
      {| rnd_cek := replicate 32 7%N; rnd_stream_id := replicate 16 9%N;
         rnd_stream_salt := replicate 32 8%N |} = Some (container, Ok cek) ∧
    ∀ r', delivers r' container → decrypt_aead r' cek = Some ([1%N; 2%N; 3%N; 4%N; 5%N], Ok tt).
Proof.
  destruct (aead_stream_roundtrip [1%N; 2%N; 3%N; 4%N; 5%N] [Some [1%N; 2%N; 3%N]; Some [4%N; 5%N]]
    AeadAes256Gcm CekGenerate 4
    {| rnd_cek := replicate 32 7%N; rnd_stream_id := replicate 16 9%N;
       rnd_stream_salt := replicate 32 8%N |}) as (container & cek & He & Hd).
  - reflexivity.
  - exists [[1%N; 2%N; 3%N]; [4%N; 5%N]]. split_and!; [reflexivity | | reflexivity].
    repeat constructor; discriminate.
  - split; discriminate.
  - split_and!; reflexivity.
  - exists container, cek. split; [exact He | exact Hd].
Defined.

(** One sealed stream, and an AEAD that opens its two chunks and nothing
    else. *)
Definition demo_cek : bytes_ := first_bytes 32 [7%N].

Definition demo_context : ChunkCrypto :=
  {| cc_suite_id := SUITE_AES256GCM; cc_chunk_aead := ChunkAes256Gcm; cc_chunk_size := 4;
     cc_stream_id := replicate 16 9%N; cc_message_key := demo_cek |}.

Definition demo_plaintext : bytes_ := [1%N; 2%N; 3%N; 4%N; 5%N].

Definition demo_chunk (nonce aad : bytes_) (i : N) : bool :=
  let m := chunk_at 4 demo_plaintext i in
  bool_decide (nonce = chunk_nonce i)
  && bool_decide (aad = build_chunk_aad SUITE_AES256GCM (replicate 16 9%N) i
                          (last_chunk 4 demo_plaintext i) (N.of_nat (length m)) 4).

Definition ideal_crypto : RustCrypto := {|
  hkdf_expand _ ikm _ := Some (first_bytes 32 ikm);
  cipher_encrypt := @cipher_encrypt toy_crypto;
  cipher_decrypt _ k n _ a :=
    if bool_decide (k = demo_cek)
    then option_map (chunk_at 4 demo_plaintext) (List.find (demo_chunk n a) [0%N; 1%N])
    else None;
  kem_public := @kem_public toy_crypto; kem_load := @kem_load toy_crypto;
  kem_encapsulate := @kem_encapsulate toy_crypto; kem_decapsulate := @kem_decapsulate toy_crypto;
  dsa_public := @dsa_public toy_crypto; dsa_sign := @dsa_sign toy_crypto;
  dsa_key_ok := @dsa_key_ok toy_crypto; dsa_signature_ok := @dsa_signature_ok toy_crypto;
  dsa_verify := @dsa_verify toy_crypto;
  ed_public := @ed_public toy_crypto; ed_sign := @ed_sign toy_crypto;
  ed_valid := @ed_valid toy_crypto; ed_verify := @ed_verify toy_crypto;
|}.

Lemma ideal_unforgeable : @unforgeable ideal_crypto [(demo_context, demo_plaintext)] demo_cek.
Proof.
  intros salt suite id key Hk. cbn in Hk. apply Ok_inj in Hk as <-. split.
  - intros s s' Hs Hs' _ _. apply list_elem_of_singleton in Hs, Hs'. by subst.
  - intros alg nonce record aad m. cbn [cipher_decrypt ideal_crypto].
    destruct (bool_decide _); [| done].
    destruct (List.find _ _) as [i |] eqn:Hf; [| done]. intros [= <-].
    apply List.find_some in Hf as [Hin [?%bool_decide_eq_true ?%bool_decide_eq_true]%andb_true_iff].
    exists (demo_context, demo_plaintext). split_and!; [by apply list_elem_of_singleton | done |].
    exists i. split_and!; try done. destruct Hin as [<- | [<- | []]]; done.
Qed.

Lemma demo_sealed : Forall sealed_ok [(demo_context, demo_plaintext)].
Proof. by repeat constructor. Qed.

Definition demo_records : bytes_ :=
  u32_be 20 ++ replicate 20 0%N ++ u32_be 17 ++ replicate 17 0%N.

Lemma decrypt_aead_authentic_witness :
  @decrypt_aead ideal_crypto [Some (header_bytes demo_header ++ demo_records)] demo_cek =
    Some (demo_plaintext, Ok tt) ∧
  ∃ w, @decrypt_aead ideal_crypto [Some (header_bytes demo_header ++ u32_be 20 ++ replicate 20 0%N)]
         demo_cek = Some w ∧ authentic [(demo_context, demo_plaintext)] w.
Proof.
  split; [vm_compute; reflexivity |].
  apply (@decrypt_aead_authentic ideal_crypto); [exact demo_sealed | exact ideal_unforgeable].
Defined.

Lemma decrypt_ml_kem_authentic_witness :
  ∃ w, @decrypt_ml_kem ideal_crypto [Some (MAGIC ++ [1%N])] (λ _ _, Ok demo_cek) = Some w ∧
       authentic [(demo_context, demo_plaintext)] w.
Proof.
  apply (@decrypt_ml_kem_authentic ideal_crypto); [exact demo_sealed |].
  intros envelope aad cek [= <-]. exact ideal_unforgeable.
Defined.
