(* ===== verification/Backend.v ===== *)
(** * Backends ([crates/basil-core/src/core/backend/mod.rs])

    The [Backend] trait as an interface: the types its methods exchange, one
    constructor of [BackendCall] per method, and the default bodies of the
    trait.  The code above the trait is written as programs that call named
    backends: a [Prog] is a tree whose nodes are backend calls and draws of
    random bytes, so that what a handler asks of a backend, whatever the
    backend answers, is a property of the program; [run] executes it against
    an implementation of the trait. *)

From S2P Require Import Prelude RustStr Bytes BTreeMap Schema.

(** ** Types *)

Inductive AeadAlgorithm := AeadChacha20Poly1305 | AeadAes256Gcm_.

#[export] Instance AeadAlgorithm_eq_dec : EqDecision AeadAlgorithm.
Proof. solve_decision. Defined.

Record CiphertextEnvelope := {
  ce_alg : AeadAlgorithm;
  ce_key_version : N;
  ce_nonce : bytes_;
  ce_ciphertext : bytes_;
}.

Inductive KeyMaterial := Ed25519Seed (seed : bytes_) | Pkcs8Der (der : bytes_).

Record NewKey := { nk_key_id : string; nk_public_key : bytes_ }.
Record KvValue := { kv_value : bytes_; kv_version : N }.
Record KvSecret := { ks_value : bytes_; ks_version : N }.

Inductive NativeAlgorithm := NativeMlDsa44 | NativeMlDsa65 | NativeMlDsa87.

Record PublicKey := { pk_public_key : bytes_; pk_key_type : KeyType; pk_version : N }.
Record KeyMetadata := { md_key_type : option KeyType; md_latest_version : N }.

#[export] Instance KeyType_eq_dec : EqDecision KeyType.
Proof. solve_decision. Defined.

Record NixCacheKeyPosture := {
  np_public_key : bytes_;
  np_key_type : KeyType;
  np_latest_version : N;
  np_min_decryption_version : N;
  np_derived : bool;
  np_exportable : bool;
  np_allow_plaintext_backup : bool;
  np_deletion_allowed : bool;
  np_auto_rotation_disabled : bool;
}.

#[export] Instance NixCacheKeyPosture_eq_dec : EqDecision NixCacheKeyPosture.
Proof. solve_decision. Defined.

Record NixCacheBackendSignature := { nb_backend_version : N; nb_signature : bytes_ }.

Inductive SignOptions :=
| OptDefault | OptRs256Pkcs1v15Sha256 | OptEs256 | OptEs384 | OptEs512.

Record X509Svid := {
  cert_chain_der : list bytes_;
  leaf_private_key_der : bytes_;
  bundle_der : list bytes_;
}.

Record X509CertRequest := {
  xr_common_name : string;
  xr_dns_sans : list string;
  xr_ip_sans : list string;
  xr_ttl_seconds : N;
}.

Record X509Bundle := { xb_bundle_der : list bytes_; xb_crl_der : bytes_ }.

Inductive BackendError :=
| UnsupportedKeyType (t : KeyType)
| KeyNotFound (key_id : string)
| UnsupportedOp (op : string)
| DecryptFailed
| UnsupportedAlgorithm (a : AeadAlgorithm)
| Transport (message : string)
| BackendFailed (message : string)
| Protocol (message : string).

(** ** The trait *)

(** A method call, indexed by the type of its successful result. *)
Inductive BackendCall : Type → Type :=
| new_key (t : KeyType) : BackendCall NewKey
| create_named_key (key_id : string) (t : KeyType) : BackendCall NewKey
| create_nix_cache_key (key_id : string) : BackendCall unit
| nix_cache_key_posture (key_id : string) : BackendCall NixCacheKeyPosture
| sign_nix_cache (key_id : string) (fingerprint : bytes_) : BackendCall NixCacheBackendSignature
| create_named_aead (key_id : string) (a : AeadAlgorithm) : BackendCall unit
| public_key_of (key_id : string) : BackendCall bytes_
| public_key_with_meta (key_id : string) : BackendCall PublicKey
| key_metadata (key_id : string) : BackendCall KeyMetadata
| public_keys (key_id : string) : BackendCall (list (N * bytes_))
| import (key_id : string) (t : KeyType) (material : KeyMaterial) : BackendCall NewKey
| sign (key_id : string) (message : bytes_) : BackendCall bytes_
| sign_with_options (key_id : string) (message : bytes_) (o : SignOptions) : BackendCall bytes_
| verify (key_id : string) (message signature : bytes_) : BackendCall bool
| verify_with_options (key_id : string) (message signature : bytes_) (o : SignOptions)
    : BackendCall bool
| create_named_pqc_key (key_id : string) (a : NativeAlgorithm) : BackendCall NewKey
| sign_pqc (key_id : string) (message : bytes_) (a : NativeAlgorithm) : BackendCall bytes_
| verify_pqc (key_id : string) (message signature : bytes_) (a : NativeAlgorithm) : BackendCall bool
| encrypt (key_id : string) (a : AeadAlgorithm) (plaintext : bytes_) (aad : option bytes_)
    : BackendCall CiphertextEnvelope
| decrypt (key_id : string) (e : CiphertextEnvelope) (aad : option bytes_) : BackendCall bytes_
| rotate (key_id : string) : BackendCall N
| kv_get (key_id : string) (version : option N) : BackendCall KvValue
| kv_get_secret (key_id : string) (version : option N) : BackendCall KvSecret
| kv_put (key_id : string) (value : bytes_) : BackendCall N
| configure_versions (key_id : string) (min_decryption min_available : option N) : BackendCall unit
| issue_x509_svid (key_id : string) (spiffe_id : string) (ttl : N) : BackendCall X509Svid
| issue_x509_cert (key_id : string) (request : X509CertRequest) : BackendCall X509Svid
| x509_bundle (key_id : string) : BackendCall X509Bundle.

(** The synchronous part of a backend instance. *)
Record BackendInfo := {
  bi_kind : string;
  supports_native_algorithm : NativeAlgorithm → bool;
}.

(** ** Programs *)

Inductive Prog (A : Type) : Type :=
| Ret (a : A)
| Call (R : Type) (b : string) (c : BackendCall R) (k : result BackendError R → Prog A)
| Draw (n : nat) (k : bytes_ → Prog A).
Arguments Ret {A} a.
Arguments Call {A R} b c k.
Arguments Draw {A} n k.

Fixpoint pbind {A B} (m : Prog A) (f : A → Prog B) : Prog B :=
  match m with
  | Ret a => f a
  | Call b c k => Call b c (λ r, pbind (k r) f)
  | Draw n k => Draw n (λ x, pbind (k x) f)
  end.

Definition call {R} (b : string) (c : BackendCall R) : Prog (result BackendError R) :=
  Call b c Ret.

Definition draw (n : nat) : Prog bytes_ := Draw n Ret.

(** [m?]: an error ends the program. *)
Definition ebind {E A B} (m : Prog (result E A)) (f : A → Prog (result E B)) : Prog (result E B) :=
  pbind m (λ r, match r with Ok a => f a | Err e => Ret (Err e) end).

(** [.map_err(f)?]. *)
Definition pmap_err {E E' A} (f : E → E') (m : Prog (result E A)) : Prog (result E' A) :=
  pbind m (λ r, Ret (map_err f r)).

Declare Scope prog_scope.
Delimit Scope prog_scope with prog.
Notation "'do!' x := m 'in' k" := (pbind m (λ x, k))
  (at level 10, x binder, m at level 100, k at level 200) : prog_scope.
Notation "'do?' x := m 'in' k" := (ebind m (λ x, k))
  (at level 10, x binder, m at level 100, k at level 200) : prog_scope.
Notation "'do?' ' p := m 'in' k" := (ebind m (λ x, match x with p => k end))
  (at level 10, p strict pattern, m at level 100, k at level 200) : prog_scope.
Notation "'fail' e 'when' b 'otherwise' k" := (if (b : bool) then Ret (Err e) else k)
  (at level 10, e at level 100, b at level 100, k at level 200) : prog_scope.
Open Scope prog_scope.

(** A pure step. *)
Definition lift {E A} (r : result E A) : Prog (result E A) := Ret r.

(** ** Default bodies

    What a backend that overrides nothing but the four required methods
    answers.  [sign_with_options] and [verify_with_options] delegate their
    default mode, [public_keys] combines two reads. *)

Definition sign_mode_name (o : SignOptions) : string :=
  match o with
  | OptDefault => ""
  | OptRs256Pkcs1v15Sha256 => "rs256_pkcs1v15_sha256"
  | OptEs256 => "es256" | OptEs384 => "es384" | OptEs512 => "es512"
  end.

Definition default_sign_with_options (b key_id : string) (message : bytes_) (o : SignOptions)
    : Prog (result BackendError bytes_) :=
  match o with
  | OptDefault => call b (sign key_id message)
  | _ => Ret (Err (UnsupportedOp ("sign " +:+ sign_mode_name o)))
  end.

Definition default_verify_with_options (b key_id : string) (message signature : bytes_)
    (o : SignOptions) : Prog (result BackendError bool) :=
  match o with
  | OptDefault => call b (verify key_id message signature)
  | _ => Ret (Err (UnsupportedOp ("verify " +:+ sign_mode_name o)))
  end.

Definition default_public_keys (b key_id : string) : Prog (result BackendError (list (N * bytes_))) :=
  do! meta := call b (key_metadata key_id) in
  do? version :=
    match meta with
    | Ok m => Ret (Ok (md_latest_version m))
    | Err (UnsupportedOp _) => Ret (Ok 1%N)
    | Err e => Ret (Err e)
    end in
  do? public := call b (public_key_of key_id) in
  Ret (Ok [(version, public)]).

(** The methods whose default is a refusal, with the name they refuse under. *)
Definition default_refusal {R} (c : BackendCall R) : option string :=
  match c with
  | create_named_key _ _ => Some "create_named_key"
  | create_nix_cache_key _ => Some "create_nix_cache_key"
  | nix_cache_key_posture _ => Some "nix_cache_key_posture"
  | sign_nix_cache _ _ => Some "sign_nix_cache_fingerprint"
  | create_named_aead _ _ => Some "create_named_aead"
  | public_key_with_meta _ => Some "get_public_key"
  | key_metadata _ => Some "list"
  | import _ _ _ => Some "import"
  | create_named_pqc_key _ _ => Some "create_named_pqc_key"
  | sign_pqc _ _ _ => Some "sign_pqc"
  | verify_pqc _ _ _ _ => Some "verify_pqc"
  | encrypt _ _ _ _ => Some "encrypt"
  | decrypt _ _ _ => Some "decrypt"
  | rotate _ => Some "rotate"
  | kv_get _ _ => Some "get"
  | kv_get_secret _ _ => Some "kv_get_secret"
  | kv_put _ _ => Some "rotate"
  | configure_versions _ _ _ => Some "configure_versions"
  | issue_x509_svid _ _ _ => Some "issue_x509_svid"
  | issue_x509_cert _ _ => Some "issue_x509_cert"
  | x509_bundle _ => Some "x509_bundle"
  | new_key _ | public_key_of _ | public_keys _ | sign _ _ | sign_with_options _ _ _
  | verify _ _ _ | verify_with_options _ _ _ _ => None
  end%string.

(** ** Running a program *)

(** Backends by name over a state, and the source of randomness. *)
Record World (S : Type) := {
  answer : ∀ R, string → BackendCall R → S → result BackendError R * S;
  random : nat → S → bytes_ * S;
}.
Arguments answer {S} w {R} b c s.
Arguments random {S} w n s.

Fixpoint run {S A} (w : World S) (m : Prog A) (s : S) : A * S :=
  match m with
  | Ret a => (a, s)
  | Call b c k => let '(r, s) := answer w b c s in run w (k r) s
  | Draw n k => let '(x, s) := random w n s in run w (k x) s
  end.

(** ** Reasoning about calls *)

(** Every call the program can make, whatever it is answered, satisfies [P]. *)
Fixpoint calls {A} (P : ∀ R, string → BackendCall R → Prop) (m : Prog A) : Prop :=
  match m with
  | Ret _ => True
  | Call b c k => P _ b c ∧ ∀ r, calls P (k r)
  | Draw _ k => ∀ x, calls P (k x)
  end.

(** Every result the program can return, whatever its calls are answered,
    satisfies [Q]. *)
Fixpoint returns {A} (Q : A → Prop) (m : Prog A) : Prop :=
  match m with
  | Ret a => Q a
  | Call b c k => ∀ r, returns Q (k r)
  | Draw _ k => ∀ x, returns Q (k x)
  end.

Section prog_lemmas.
Context (P : ∀ R, string → BackendCall R → Prop).

Lemma calls_pbind {A B} (m : Prog A) (f : A → Prog B) :
  calls P m → (∀ a, calls P (f a)) → calls P (pbind m f).
Proof. intros Hm Hf. induction m; simpl in *; naive_solver. Qed.

(** As above, with what the first program can return. *)
Lemma calls_pbind_returns {A B} Q (m : Prog A) (f : A → Prog B) :
  calls P m → returns Q m → (∀ a, Q a → calls P (f a)) → calls P (pbind m f).
Proof. intros Hm Hr Hf. induction m; simpl in *; naive_solver. Qed.

Lemma calls_ebind {E A B} (m : Prog (result E A)) (f : A → Prog (result E B)) :
  calls P m → (∀ a, calls P (f a)) → calls P (ebind m f).
Proof. intros Hm Hf. apply calls_pbind; [done |]. by intros [a | e]; simpl. Qed.

Lemma calls_pmap_err {E E' A} (g : E → E') (m : Prog (result E A)) :
  calls P m → calls P (pmap_err g m).
Proof. intros Hm. by apply calls_pbind. Qed.

Lemma calls_call {R} b (c : BackendCall R) : P R b c → calls P (call b c).
Proof. by split. Qed.
End prog_lemmas.

Lemma calls_impl {A} (P Q : ∀ R, string → BackendCall R → Prop) (m : Prog A) :
  (∀ R b c, P R b c → Q R b c) → calls P m → calls Q m.
Proof. intros H. induction m; simpl; naive_solver. Qed.

Lemma returns_impl {A} (P Q : A → Prop) m : (∀ a, P a → Q a) → returns P m → returns Q m.
Proof. intros H. induction m; simpl; naive_solver. Qed.

Lemma returns_pbind {A B} (Q : B → Prop) (m : Prog A) (f : A → Prog B) :
  returns (λ a, returns Q (f a)) m → returns Q (pbind m f).
Proof. induction m; simpl; naive_solver. Qed.

Lemma returns_always {A} (Q : A → Prop) (m : Prog A) : (∀ a, Q a) → returns Q m.
Proof. intros H. induction m; simpl; eauto. Qed.

Lemma returns_ebind {E A B} (Q : result E B → Prop) (m : Prog (result E A)) f :
  (∀ e, Q (Err e)) → returns (λ r, ∀ a, r = Ok a → returns Q (f a)) m → returns Q (ebind m f).
Proof.
  intros He Hm. apply returns_pbind. eapply returns_impl; [| exact Hm].
  intros [a | e] H; simpl; eauto.
Qed.

Lemma run_pbind {S A B} (w : World S) (m : Prog A) (f : A → Prog B) s :
  run w (pbind m f) s = run w (f (run w m s).1) (run w m s).2.
Proof.
  revert s. induction m as [a | R b c k IH | n k IH]; intros s; simpl; [done | |].
  - destruct (answer w b c s) as [r s']. apply IH.
  - destruct (random w n s) as [x s']. apply IH.
Qed.

Lemma run_ebind_Ok {S E A B} (w : World S) (m : Prog (result E A)) (f : A → Prog (result E B)) s a s' :
  run w m s = (Ok a, s') → run w (ebind m f) s = run w (f a) s'.
Proof. intros H. unfold ebind. by rewrite run_pbind, H. Qed.

Lemma run_draw {S A} (w : World S) n (f : bytes_ → Prog A) s x s' :
  random w n s = (x, s') → run w (pbind (draw n) f) s = run w (f x) s'.
Proof. intros H. simpl. by rewrite H. Qed.

(** A program that calls nothing outside [P] is not affected by how anything
    else answers. *)
Lemma run_agree {S A} (w w' : World S) P (m : Prog A) s :
  calls P m → (∀ R b (c : BackendCall R) s, P R b c → answer w b c s = answer w' b c s) →
  (∀ n s, random w n s = random w' n s) →
  run w m s = run w' m s.
Proof.
  intros Hm Ha Hr. revert s. induction m as [a | R b c k IH | n k IH]; intros s; simpl in *; [done | |].
  - destruct Hm as [Hp Hk]. rewrite (Ha _ _ _ _ Hp). destruct (answer w' b c s). by apply IH.
  - rewrite Hr. destruct (random w' n s). by apply IH.
Qed.
