(* ===== verification/CryptoProvider.v ===== *)
(** * Crypto providers ([crates/basil-core/src/core/crypto_provider.rs])

    Provider selection from catalog labels, the encrypted custody record of a
    software-custodied key, and the two providers: the backend-native adapter
    and the local-software provider.  The [base64] crate and the JSON
    (de)serialisation of the record are third-party or derived code: the
    class [CustodyCodec]. *)

From stdpp Require Import pretty.
From S2P Require Import Prelude RustStr Bytes RustCrypto LocalCrypto Schema Backend.

(** ** Algorithms *)

Inductive SignatureAlgorithm :=
| SaEd25519 | SaEd25519Nkey | SaRs256 | SaEs256 | SaMlDsa44 | SaMlDsa65 | SaMlDsa87.

Definition signature_algorithm_name (a : SignatureAlgorithm) : string :=
  match a with
  | SaEd25519 => "ed25519" | SaEd25519Nkey => "ed25519-nkey" | SaRs256 => "rs256"
  | SaEs256 => "es256" | SaMlDsa44 => "ml-dsa-44" | SaMlDsa65 => "ml-dsa-65"
  | SaMlDsa87 => "ml-dsa-87"
  end.

Definition is_ml_dsa (a : SignatureAlgorithm) : bool :=
  match a with SaMlDsa44 | SaMlDsa65 | SaMlDsa87 => true | _ => false end.

Definition native_algorithm (a : SignatureAlgorithm) : option NativeAlgorithm :=
  match a with
  | SaMlDsa44 => Some NativeMlDsa44
  | SaMlDsa65 => Some NativeMlDsa65
  | SaMlDsa87 => Some NativeMlDsa87
  | SaEd25519 | SaEd25519Nkey | SaRs256 | SaEs256 => None
  end.

Definition ml_dsa_signature_algorithm (t : KeyAlgorithm) : option SignatureAlgorithm :=
  match t with
  | MlDsa44 => Some SaMlDsa44
  | MlDsa65 => Some SaMlDsa65
  | MlDsa87 => Some SaMlDsa87
  | Ed25519 | Ed25519Nkey | Rsa2048 | EcdsaP256 | EcdsaP384 | EcdsaP521 | Aes256Gcm
  | ChaCha20Poly1305 | X25519 | MlKem512 | MlKem768 | MlKem1024 => None
  end.

(** [KemAlgorithm] and [EnvelopeAlgorithm] here are the envelope module's;
    [kem_to_core] and [envelope_to_core] map constructor to constructor. *)
Definition kem_native_algorithm (k : KemAlgorithm) : option NativeAlgorithm :=
  match k with AlgMlKem512 | AlgMlKem768 | AlgMlKem1024 => None end.

Definition ml_dsa_algorithm (a : SignatureAlgorithm) : option MlDsaAlgorithm :=
  match a with
  | SaMlDsa44 => Some AlgMlDsa44
  | SaMlDsa65 => Some AlgMlDsa65
  | SaMlDsa87 => Some AlgMlDsa87
  | SaEd25519 | SaEd25519Nkey | SaRs256 | SaEs256 => None
  end.

Definition key_type_for_signature (a : SignatureAlgorithm) : option KeyType :=
  match a with
  | SaEd25519 => Some KtEd25519
  | SaEd25519Nkey => Some KtEd25519Nkey
  | SaRs256 => Some KtRsa2048
  | SaEs256 => Some KtEcdsaP256
  | SaMlDsa44 | SaMlDsa65 | SaMlDsa87 => None
  end.

Definition sign_options (a : SignatureAlgorithm) : option SignOptions :=
  match a with
  | SaEd25519 | SaEd25519Nkey => Some OptDefault
  | SaRs256 => Some OptRs256Pkcs1v15Sha256
  | SaEs256 => Some OptEs256
  | SaMlDsa44 | SaMlDsa65 | SaMlDsa87 => None
  end.

(** ** Selection *)

Inductive CryptoProviderId := VaultTransit | LocalSoftware.
Inductive ProviderPolicy := BackendRequired | BackendPreferred | PolicyLocalSoftware.
Inductive CustodyMode := BackendNative | SoftwareEncrypted.

#[export] Instance CryptoProviderId_eq_dec : EqDecision CryptoProviderId.
Proof. solve_decision. Defined.
#[export] Instance CustodyMode_eq_dec : EqDecision CustodyMode.
Proof. solve_decision. Defined.

Definition CustodyMode_token (c : CustodyMode) : string :=
  match c with BackendNative => "backend-native" | SoftwareEncrypted => "software-encrypted" end.

Definition CryptoProviderId_token (p : CryptoProviderId) : string :=
  match p with VaultTransit => "vault-transit" | LocalSoftware => "local-software" end.

Definition custody_mode (p : CryptoProviderId) : CustodyMode :=
  match p with VaultTransit => BackendNative | LocalSoftware => SoftwareEncrypted end.

Record ProviderMetadata := {
  pm_provider : option CryptoProviderId;
  pm_policy : ProviderPolicy;
  pm_custody : option CustodyMode;
}.

(** [labels.get(key) == Some(value)]. *)
Definition label_is (entry : KeyEntry) (key value : string) : bool :=
  match label_get (labels entry) key with Some v => String.eqb v value | None => false end.

Definition from_key (entry : KeyEntry) : ProviderMetadata :=
  {| pm_provider :=
       if label_is entry "crypto_provider" "vault-transit" then Some VaultTransit
       else if label_is entry "crypto_provider" "local-software" then Some LocalSoftware else None;
     pm_policy :=
       if label_is entry "crypto_provider_policy" "backend-preferred" then BackendPreferred
       else if label_is entry "crypto_provider_policy" "local-software" then PolicyLocalSoftware
       else BackendRequired;
     pm_custody :=
       if label_is entry "pqc_custody" "backend-native" then Some BackendNative
       else if label_is entry "pqc_custody" "software-encrypted" then Some SoftwareEncrypted
       else None |}.

Inductive ProviderError :=
| ProviderUnsupported (provider : CryptoProviderId) (op algorithm : string)
| PolicyDenied (op reason : string)
| CryptoFailed (provider : CryptoProviderId) (op algorithm reason : string)
| ProviderBackend (e : BackendError).

Definition unsupported (p : CryptoProviderId) (op algorithm : string) : ProviderError :=
  ProviderUnsupported p op algorithm.

Definition crypto_failed (p : CryptoProviderId) (op algorithm reason : string) : ProviderError :=
  CryptoFailed p op algorithm reason.

Definition select_backend_required (native : bool) (op : string)
    : result ProviderError CryptoProviderId :=
  if native then Ok VaultTransit else Err (unsupported VaultTransit op "backend-native").

Definition require_local_software_allowed (allowed : bool) (op : string)
    : result ProviderError unit :=
  if allowed then Ok tt
  else Err (PolicyDenied op "local software custody requires caller policy grant").

Definition require_software_custody (custody : option CustodyMode) (op reason : string)
    : result ProviderError unit :=
  if bool_decide (custody = Some SoftwareEncrypted) then Ok tt else Err (PolicyDenied op reason).

Definition select_backend_preferred (custody : option CustodyMode) (native allowed : bool)
    (op : string) : result ProviderError CryptoProviderId :=
  if bool_decide (custody = Some SoftwareEncrypted) then
    let? _ := require_local_software_allowed allowed op in
    Ok LocalSoftware
  else if native then Ok VaultTransit
  else
    let? _ := require_local_software_allowed allowed op in
    let? _ :=
      require_software_custody custody op
        "local software fallback requires software-encrypted custody" in
    Ok LocalSoftware.

Definition select_local_software (custody : option CustodyMode) (allowed : bool) (op : string)
    : result ProviderError CryptoProviderId :=
  let? _ := require_local_software_allowed allowed op in
  let? _ :=
    require_software_custody custody op
      "local software provider requires software-encrypted custody" in
  Ok LocalSoftware.

Definition select_provider (m : ProviderMetadata) (native allowed : bool) (op : string)
    : result ProviderError CryptoProviderId :=
  match pm_policy m with
  | BackendRequired => select_backend_required native op
  | BackendPreferred => select_backend_preferred (pm_custody m) native allowed op
  | PolicyLocalSoftware => select_local_software (pm_custody m) allowed op
  end.

(** ** Custody records *)

Record SoftwareCustodyCatalog := {
  sc_key_id : string;
  sc_algorithm : string;
  sc_provider : string;
  sc_provider_version : string;
  sc_custody : string;
  sc_storage_key : string;
}.

Definition newline : string := String "010"%char EmptyString.

Definition custody_aad (c : SoftwareCustodyCatalog) (key_version : N) : bytes_ :=
  bytes ("basil:pqc-software-custody:v1" +:+ newline
    +:+ "key_id=" +:+ sc_key_id c +:+ newline
    +:+ "key_version=" +:+ pretty key_version +:+ newline
    +:+ "algorithm=" +:+ sc_algorithm c +:+ newline
    +:+ "provider=" +:+ sc_provider c +:+ newline
    +:+ "provider_version=" +:+ sc_provider_version c +:+ newline
    +:+ "custody=" +:+ sc_custody c +:+ newline
    +:+ "storage_key=" +:+ sc_storage_key c +:+ newline).

Record EncryptedPrivateKey := {
  ep_wrapping_key : string;
  ep_algorithm : string;
  ep_key_version : N;
  ep_nonce : string;
  ep_ciphertext : string;
}.

Record SoftwareCustodyKeyRecord := {
  sr_schema_version : N;
  sr_key_id : string;
  sr_key_version : N;
  sr_public_key : string;
  sr_algorithm : string;
  sr_provider : string;
  sr_provider_version : string;
  sr_custody : string;
  sr_encrypted_private_key : EncryptedPrivateKey;
}.

Definition SCHEMA_VERSION : N := 1.

Inductive SoftwareCustodyRecordError :=
| Malformed
| MetadataMismatch (what : string)
| UnsupportedStorageAead.

Class CustodyCodec := {
  (** [STANDARD.encode] and [STANDARD.decode]. *)
  b64_encode : bytes_ → string;
  b64_decode : string → option bytes_;
  (** [serde_json::to_vec] and [from_slice] at the record type. *)
  record_to_json : SoftwareCustodyKeyRecord → option bytes_;
  record_from_json : bytes_ → option SoftwareCustodyKeyRecord;
}.

(** Both pairs round-trip, and only the empty input encodes to the empty
    text. *)
Class CustodyCodecLaws `(CC : CustodyCodec) := {
  b64_roundtrip b : b64_decode (b64_encode b) = Some b;
  b64_nonempty b : b64_encode b = EmptyString → b = [];
  record_roundtrip r : ∃ j, record_to_json r = Some j ∧ record_from_json j = Some r;
}.

Definition parse_storage_aead (token : string) : result SoftwareCustodyRecordError AeadAlgorithm :=
  if String.eqb token "aes-256-gcm" then Ok AeadAes256Gcm_
  else if String.eqb token "chacha20-poly1305" then Ok AeadChacha20Poly1305
  else Err UnsupportedStorageAead.

Definition aead_token (a : AeadAlgorithm) : string :=
  match a with AeadAes256Gcm_ => "aes-256-gcm" | AeadChacha20Poly1305 => "chacha20-poly1305" end.

Record LocalSoftwareMaterial := {
  lm_ciphertext : CiphertextEnvelope;
  lm_aad : bytes_;
  lm_storage_key : string;
  lm_public_key : bytes_;
  lm_key_version : N;
}.

Section records.
Context `{CustodyCodec}.

Definition decode_b64 (s : string) : result SoftwareCustodyRecordError bytes_ :=
  ok_or Malformed (b64_decode s).

Definition record_aad (r : SoftwareCustodyKeyRecord) (c : SoftwareCustodyCatalog) : bytes_ :=
  custody_aad c (sr_key_version r).

Definition encrypted_private_key (r : SoftwareCustodyKeyRecord)
    : result SoftwareCustodyRecordError CiphertextEnvelope :=
  let e := sr_encrypted_private_key r in
  let? alg := parse_storage_aead (ep_algorithm e) in
  let? nonce := decode_b64 (ep_nonce e) in
  let? ciphertext := decode_b64 (ep_ciphertext e) in
  Ok {| ce_alg := alg; ce_key_version := ep_key_version e; ce_nonce := nonce;
        ce_ciphertext := ciphertext |}.

Definition validate_metadata (r : SoftwareCustodyKeyRecord) (c : SoftwareCustodyCatalog)
    (kv_version : N) : result SoftwareCustodyRecordError unit :=
  return_err (MetadataMismatch "schema_version")
    when negb (sr_schema_version r =? SCHEMA_VERSION)%N otherwise
  return_err (MetadataMismatch "key_id")
    when negb (String.eqb (sr_key_id r) (sc_key_id c)) otherwise
  return_err (MetadataMismatch "key_version")
    when negb (sr_key_version r =? kv_version)%N otherwise
  return_err (MetadataMismatch "algorithm")
    when negb (String.eqb (sr_algorithm r) (sc_algorithm c)) otherwise
  return_err (MetadataMismatch "provider")
    when negb (String.eqb (sr_provider r) (sc_provider c)) otherwise
  return_err (MetadataMismatch "provider_version")
    when negb (String.eqb (sr_provider_version r) (sc_provider_version c)) otherwise
  return_err (MetadataMismatch "custody")
    when negb (String.eqb (sr_custody r) (sc_custody c)) otherwise
  return_err Malformed
    when String.eqb (sr_public_key r) ""
         || match decode_b64 (sr_public_key r) with Ok _ => false | Err _ => true end otherwise
  return_err (MetadataMismatch "wrapping_key")
    when negb (String.eqb (ep_wrapping_key (sr_encrypted_private_key r)) (sc_storage_key c))
    otherwise
  return_err (MetadataMismatch "encrypted_private_key.key_version")
    when (ep_key_version (sr_encrypted_private_key r) =? 0)%N otherwise
  Ok tt.

(** The catalog a record of the local-software provider must agree with. *)
Definition local_catalog (key_id algorithm provider_version storage_key : string)
    : SoftwareCustodyCatalog :=
  {| sc_key_id := key_id; sc_algorithm := algorithm;
     sc_provider := CryptoProviderId_token LocalSoftware;
     sc_provider_version := provider_version;
     sc_custody := CustodyMode_token SoftwareEncrypted; sc_storage_key := storage_key |}.

Definition parse_for_local_software (json : bytes_) (key_id algorithm provider_version : string)
    (kv_version : N) (storage_key : string)
    : result SoftwareCustodyRecordError LocalSoftwareMaterial :=
  let? record := ok_or Malformed (record_from_json json) in
  let catalog := local_catalog key_id algorithm provider_version storage_key in
  let? _ := validate_metadata record catalog kv_version in
  let? ciphertext := encrypted_private_key record in
  let aad := record_aad record catalog in
  let? public_key := decode_b64 (sr_public_key record) in
  Ok {| lm_ciphertext := ciphertext; lm_aad := aad; lm_storage_key := storage_key;
        lm_public_key := public_key; lm_key_version := kv_version |}.
End records.

(** ** Requests *)

Record GenerateKey := {
  gk_key_id : string;
  gk_backend_path : string;
  gk_algorithm : SignatureAlgorithm;
  gk_storage_key : option string;
}.

Record GenerateSealingKey := {
  gs_key_id : string;
  gs_backend_path : string;
  gs_algorithm : KemAlgorithm;
  gs_storage_key : option string;
}.

Record ImportKey := {
  ik_key_id : string;
  ik_backend_path : string;
  ik_algorithm : SignatureAlgorithm;
  ik_material : KeyMaterial;
}.

Record SignRequest := {
  sq_key_id : string;
  sq_backend_path : string;
  sq_algorithm : SignatureAlgorithm;
  sq_message : bytes_;
  sq_storage_key : option string;
}.

Record VerifyRequest := {
  vq_key_id : string;
  vq_backend_path : string;
  vq_algorithm : SignatureAlgorithm;
  vq_message : bytes_;
  vq_signature : bytes_;
  vq_storage_key : option string;
}.

Record EncapsulateRequest := {
  eq_key_id : string;
  eq_backend_path : string;
  eq_algorithm : KemAlgorithm;
  eq_storage_key : option string;
}.

Record DecapsulateRequest := {
  dq_key_id : string;
  dq_backend_path : string;
  dq_algorithm : KemAlgorithm;
  dq_encapsulated_key : bytes_;
  dq_storage_key : option string;
}.

Record Encapsulation := { en_encapsulated_key : bytes_; en_shared_secret : bytes_ }.

Record WrapEnvelopeRequest := {
  wq_key_id : string;
  wq_backend_path : string;
  wq_kem_algorithm : KemAlgorithm;
  wq_envelope_algorithm : EnvelopeAlgorithm;
  wq_plaintext : bytes_;
  wq_aad : option bytes_;
  wq_storage_key : option string;
}.

Record UnwrapEnvelopeRequest := {
  uq_key_id : string;
  uq_backend_path : string;
  uq_kem_algorithm : KemAlgorithm;
  uq_envelope_algorithm : EnvelopeAlgorithm;
  uq_encapsulated_key : bytes_;
  uq_nonce : bytes_;
  uq_ciphertext : bytes_;
  uq_aad : option bytes_;
  uq_storage_key : option string;
}.

Record Envelope := {
  ev_kem_algorithm : KemAlgorithm;
  ev_envelope_algorithm : EnvelopeAlgorithm;
  ev_key_version : N;
  ev_encapsulated_key : bytes_;
  ev_nonce : bytes_;
  ev_ciphertext : bytes_;
}.

Abbreviation PResult A := (Prog (result ProviderError A)).

(** The trait [CryptoProvider]. *)
Class CryptoProvider (P : Type) := {
  provider_id : P → CryptoProviderId;
  generate_key : P → GenerateKey → PResult NewKey;
  generate_sealing_key : P → GenerateSealingKey → PResult NewKey;
  import_key : P → ImportKey → PResult NewKey;
  provider_sign_op : P → SignRequest → PResult bytes_;
  provider_verify_op : P → VerifyRequest → PResult bool;
  encapsulate : P → EncapsulateRequest → PResult Encapsulation;
  decapsulate : P → DecapsulateRequest → PResult bytes_;
  wrap_envelope : P → WrapEnvelopeRequest → PResult Envelope;
  unwrap_envelope : P → UnwrapEnvelopeRequest → PResult bytes_;
}.

(** ** The backend-native provider *)

(** The named backend. *)
Record BackendCryptoProvider := { bp_backend : string }.

(** [.map_err(ProviderError::Backend)]. *)
Definition backend_op {R} (b : string) (c : BackendCall R) : PResult R :=
  pmap_err ProviderBackend (call b c).

Definition backend_generate_key (p : BackendCryptoProvider) (r : GenerateKey) : PResult NewKey :=
  match native_algorithm (gk_algorithm r) with
  | Some native => backend_op (bp_backend p) (create_named_pqc_key (gk_backend_path r) native)
  | None =>
      do? key_type :=
        lift (ok_or (unsupported VaultTransit "generate_key"
                       (signature_algorithm_name (gk_algorithm r)))
                (key_type_for_signature (gk_algorithm r))) in
      backend_op (bp_backend p) (create_named_key (gk_backend_path r) key_type)
  end.

Definition backend_generate_sealing_key (p : BackendCryptoProvider) (r : GenerateSealingKey)
    : PResult NewKey :=
  Ret (Err (unsupported VaultTransit "generate_sealing_key" (KemAlgorithm_token (gs_algorithm r)))).

Definition backend_import_key (p : BackendCryptoProvider) (r : ImportKey) : PResult NewKey :=
  do? key_type :=
    lift (ok_or (unsupported VaultTransit "import_key" (signature_algorithm_name (ik_algorithm r)))
            (key_type_for_signature (ik_algorithm r))) in
  backend_op (bp_backend p) (import (ik_backend_path r) key_type (ik_material r)).

Definition backend_sign (p : BackendCryptoProvider) (r : SignRequest) : PResult bytes_ :=
  match native_algorithm (sq_algorithm r) with
  | Some native => backend_op (bp_backend p) (sign_pqc (sq_backend_path r) (sq_message r) native)
  | None =>
      do? options :=
        lift (ok_or (unsupported VaultTransit "sign" (signature_algorithm_name (sq_algorithm r)))
                (sign_options (sq_algorithm r))) in
      backend_op (bp_backend p) (sign_with_options (sq_backend_path r) (sq_message r) options)
  end.

Definition backend_verify (p : BackendCryptoProvider) (r : VerifyRequest) : PResult bool :=
  match native_algorithm (vq_algorithm r) with
  | Some native =>
      backend_op (bp_backend p)
        (verify_pqc (vq_backend_path r) (vq_message r) (vq_signature r) native)
  | None =>
      do? options :=
        lift (ok_or (unsupported VaultTransit "verify" (signature_algorithm_name (vq_algorithm r)))
                (sign_options (vq_algorithm r))) in
      backend_op (bp_backend p)
        (verify_with_options (vq_backend_path r) (vq_message r) (vq_signature r) options)
  end.

Definition backend_encapsulate (p : BackendCryptoProvider) (r : EncapsulateRequest)
    : PResult Encapsulation :=
  Ret (Err (unsupported VaultTransit "encapsulate" (KemAlgorithm_token (eq_algorithm r)))).

Definition backend_decapsulate (p : BackendCryptoProvider) (r : DecapsulateRequest)
    : PResult bytes_ :=
  Ret (Err (unsupported VaultTransit "decapsulate" (KemAlgorithm_token (dq_algorithm r)))).

Definition backend_wrap_envelope (p : BackendCryptoProvider) (r : WrapEnvelopeRequest)
    : PResult Envelope :=
  Ret (Err (unsupported VaultTransit "wrap_envelope" (KemAlgorithm_token (wq_kem_algorithm r)))).

Definition backend_unwrap_envelope (p : BackendCryptoProvider) (r : UnwrapEnvelopeRequest)
    : PResult bytes_ :=
  Ret (Err (unsupported VaultTransit "unwrap_envelope" (KemAlgorithm_token (uq_kem_algorithm r)))).

#[export] Instance BackendCryptoProvider_CryptoProvider : CryptoProvider BackendCryptoProvider := {|
  provider_id _ := VaultTransit;
  generate_key := backend_generate_key;
  generate_sealing_key := backend_generate_sealing_key;
  import_key := backend_import_key;
  provider_sign_op := backend_sign;
  provider_verify_op := backend_verify;
  encapsulate := backend_encapsulate;
  decapsulate := backend_decapsulate;
  wrap_envelope := backend_wrap_envelope;
  unwrap_envelope := backend_unwrap_envelope;
|}.

(** ** The local-software provider *)

Record LocalSoftwareProvider := { lp_backend : string; lp_provider_version : string }.

Definition PROVIDER_VERSION : string := "1".

Definition LocalSoftwareProvider_new (b : string) : LocalSoftwareProvider :=
  {| lp_backend := b; lp_provider_version := PROVIDER_VERSION |}.

Definition MISSING_STORAGE : string := "software-custody key is missing its storage AEAD key".

Record SealParams := {
  spm_op : string;
  spm_key_id : string;
  spm_backend_path : string;
  spm_algorithm_token : string;
  spm_storage_key : string;
}.

Section local_software.
Context `{RC : RustCrypto} `{CC : CustodyCodec}.

Definition failed (op algorithm reason : string) : ProviderError :=
  crypto_failed LocalSoftware op algorithm reason.

Definition material (p : LocalSoftwareProvider) (key_id backend_path : string)
    (storage_key : option string) (op algorithm : string) : PResult LocalSoftwareMaterial :=
  do? storage_key := lift (ok_or (failed op algorithm MISSING_STORAGE) storage_key) in
  do? kv := backend_op (lp_backend p) (kv_get backend_path None) in
  lift (map_err (λ _, failed op algorithm "malformed software-custody record")
          (parse_for_local_software (kv_value kv) key_id algorithm (lp_provider_version p)
             (kv_version kv) storage_key)).

Definition materialize_seed (p : LocalSoftwareProvider) (m : LocalSoftwareMaterial)
    : PResult bytes_ :=
  backend_op (lp_backend p) (decrypt (lm_storage_key m) (lm_ciphertext m) (Some (lm_aad m))).

Definition local_public_key (p : LocalSoftwareProvider) (key_id backend_path : string)
    (storage_key : option string) (algorithm : string) : PResult bytes_ :=
  do? m := material p key_id backend_path storage_key "get_public_key" algorithm in
  lift (Ok (lm_public_key m)).

Definition RECORD_VERSION : N := 1.

Definition seal_and_store (p : LocalSoftwareProvider) (q : SealParams) (seed public_key : bytes_)
    : PResult NewKey :=
  let custody :=
    local_catalog (spm_key_id q) (spm_algorithm_token q) (lp_provider_version p)
      (spm_storage_key q) in
  let aad := custody_aad custody RECORD_VERSION in
  do? envelope :=
    backend_op (lp_backend p) (encrypt (spm_storage_key q) AeadAes256Gcm_ seed (Some aad)) in
  let record :=
    {| sr_schema_version := SCHEMA_VERSION; sr_key_id := spm_key_id q;
       sr_key_version := RECORD_VERSION; sr_public_key := b64_encode public_key;
       sr_algorithm := spm_algorithm_token q;
       sr_provider := CryptoProviderId_token LocalSoftware;
       sr_provider_version := lp_provider_version p;
       sr_custody := CustodyMode_token SoftwareEncrypted;
       sr_encrypted_private_key :=
         {| ep_wrapping_key := spm_storage_key q; ep_algorithm := aead_token (ce_alg envelope);
            ep_key_version := ce_key_version envelope;
            ep_nonce := b64_encode (ce_nonce envelope);
            ep_ciphertext := b64_encode (ce_ciphertext envelope) |} |} in
  do? json :=
    lift (ok_or (failed (spm_op q) (spm_algorithm_token q)
                   "software-custody record serialization failed")
            (record_to_json record)) in
  do? _ := backend_op (lp_backend p) (kv_put (spm_backend_path q) json) in
  lift (Ok {| nk_key_id := spm_key_id q; nk_public_key := public_key |}).

Definition local_generate_key (p : LocalSoftwareProvider) (r : GenerateKey) : PResult NewKey :=
  do? algorithm :=
    lift (ok_or (unsupported LocalSoftware "generate_key"
                   (signature_algorithm_name (gk_algorithm r)))
            (ml_dsa_algorithm (gk_algorithm r))) in
  let token := MlDsaAlgorithm_token algorithm in
  do? storage_key := lift (ok_or (failed "generate_key" token MISSING_STORAGE) (gk_storage_key r)) in
  do! seed := draw DSA_SEED_LEN in
  do? public_key :=
    lift (map_err (λ _, failed "generate_key" token "ml-dsa key generation failed")
            (ml_dsa_public_from_seed algorithm seed)) in
  seal_and_store p
    {| spm_op := "generate_key"; spm_key_id := gk_key_id r; spm_backend_path := gk_backend_path r;
       spm_algorithm_token := token; spm_storage_key := storage_key |} seed public_key.

Definition local_generate_sealing_key (p : LocalSoftwareProvider) (r : GenerateSealingKey)
    : PResult NewKey :=
  let token := KemAlgorithm_token (gs_algorithm r) in
  do? storage_key :=
    lift (ok_or (failed "generate_sealing_key" token MISSING_STORAGE) (gs_storage_key r)) in
  do! seed := draw KEM_SEED_LEN in
  do? public_key :=
    lift (map_err (λ _, failed "generate_sealing_key" token "ml-kem key generation failed")
            (ml_kem_public_from_seed seed (gs_algorithm r))) in
  seal_and_store p
    {| spm_op := "generate_sealing_key"; spm_key_id := gs_key_id r;
       spm_backend_path := gs_backend_path r; spm_algorithm_token := token;
       spm_storage_key := storage_key |} seed public_key.

Definition local_import_key (p : LocalSoftwareProvider) (r : ImportKey) : PResult NewKey :=
  Ret (Err (unsupported LocalSoftware "import_key" (signature_algorithm_name (ik_algorithm r)))).

Definition local_sign (p : LocalSoftwareProvider) (r : SignRequest) : PResult bytes_ :=
  do? algorithm :=
    lift (ok_or (unsupported LocalSoftware "sign" (signature_algorithm_name (sq_algorithm r)))
            (ml_dsa_algorithm (sq_algorithm r))) in
  let token := MlDsaAlgorithm_token algorithm in
  do? m := material p (sq_key_id r) (sq_backend_path r) (sq_storage_key r) "sign" token in
  do? seed := materialize_seed p m in
  lift (map_err (λ _, failed "sign" token "ml-dsa signing failed")
          (ml_dsa_sign algorithm seed (sq_message r))).

Definition local_verify (p : LocalSoftwareProvider) (r : VerifyRequest) : PResult bool :=
  do? algorithm :=
    lift (ok_or (unsupported LocalSoftware "verify" (signature_algorithm_name (vq_algorithm r)))
            (ml_dsa_algorithm (vq_algorithm r))) in
  let token := MlDsaAlgorithm_token algorithm in
  do? m := material p (vq_key_id r) (vq_backend_path r) (vq_storage_key r) "verify" token in
  lift (map_err (λ _, failed "verify" token "malformed verification input")
          (ml_dsa_verify algorithm (lm_public_key m) (vq_message r) (vq_signature r))).

(** The draw is [encapsulate]'s 32 bytes. *)
Definition local_encapsulate (p : LocalSoftwareProvider) (r : EncapsulateRequest)
    : PResult Encapsulation :=
  let token := KemAlgorithm_token (eq_algorithm r) in
  do? m := material p (eq_key_id r) (eq_backend_path r) (eq_storage_key r) "encapsulate" token in
  do? seed := materialize_seed p m in
  do! rnd := draw 32 in
  do? out :=
    lift (map_err (λ _, failed "encapsulate" token "ml-kem encapsulation failed")
            (ml_kem_encapsulate seed (eq_algorithm r) rnd)) in
  lift (Ok {| en_encapsulated_key := out.1; en_shared_secret := out.2 |}).

Definition local_decapsulate (p : LocalSoftwareProvider) (r : DecapsulateRequest)
    : PResult bytes_ :=
  let token := KemAlgorithm_token (dq_algorithm r) in
  do? m := material p (dq_key_id r) (dq_backend_path r) (dq_storage_key r) "decapsulate" token in
  do? seed := materialize_seed p m in
  lift (map_err (λ _, failed "decapsulate" token "ml-kem decapsulation failed")
          (ml_kem_decapsulate seed (dq_algorithm r) (dq_encapsulated_key r))).

Definition local_wrap_envelope (p : LocalSoftwareProvider) (r : WrapEnvelopeRequest)
    : PResult Envelope :=
  let token := KemAlgorithm_token (wq_kem_algorithm r) in
  do? m := material p (wq_key_id r) (wq_backend_path r) (wq_storage_key r) "wrap_envelope" token in
  do? seed := materialize_seed p m in
  do! rnd := draw 32 in
  do! nonce := draw KEM_NONCE_LEN in
  do? sealed :=
    lift (map_err (λ _, failed "wrap_envelope" token "ml-kem envelope seal failed")
            (ml_kem_seal seed (wq_kem_algorithm r) (wq_envelope_algorithm r) (wq_plaintext r)
               (default [] (wq_aad r)) rnd nonce)) in
  lift (Ok {| ev_kem_algorithm := wq_kem_algorithm r;
              ev_envelope_algorithm := wq_envelope_algorithm r;
              ev_key_version := lm_key_version m;
              ev_encapsulated_key := mk_encapsulated_key sealed;
              ev_nonce := mk_nonce sealed; ev_ciphertext := mk_ciphertext sealed |}).

Definition local_unwrap_envelope (p : LocalSoftwareProvider) (r : UnwrapEnvelopeRequest)
    : PResult bytes_ :=
  let token := KemAlgorithm_token (uq_kem_algorithm r) in
  do? m :=
    material p (uq_key_id r) (uq_backend_path r) (uq_storage_key r) "unwrap_envelope" token in
  do? seed := materialize_seed p m in
  do? envelope :=
    lift (map_err (λ _, failed "unwrap_envelope" token "malformed ml-kem envelope")
            (ml_kem_envelope_from_parts (uq_kem_algorithm r) (uq_envelope_algorithm r)
               (uq_encapsulated_key r) (uq_nonce r) (uq_ciphertext r))) in
  lift (map_err (λ _, failed "unwrap_envelope" token "ml-kem envelope open failed")
          (ml_kem_open seed envelope (default [] (uq_aad r)))).

#[export] Instance LocalSoftwareProvider_CryptoProvider : CryptoProvider LocalSoftwareProvider := {|
  provider_id _ := LocalSoftware;
  generate_key := local_generate_key;
  generate_sealing_key := local_generate_sealing_key;
  import_key := local_import_key;
  provider_sign_op := local_sign;
  provider_verify_op := local_verify;
  encapsulate := local_encapsulate;
  decapsulate := local_decapsulate;
  wrap_envelope := local_wrap_envelope;
  unwrap_envelope := local_unwrap_envelope;
|}.
End local_software.
