(* ===== verification/CiFederation.v ===== *)
(** * The CI federation catalog
      ([crates/basil-core/src/core/ci_federation.rs])

    The trusted provider rules: their validation, the refusal of overlapping
    rules and the selection of the one rule verified evidence matches.  The
    crates the module calls ([url], [base64], [serde_json], [jsonwebtoken],
    [hmac]) are the class [FederationCrates], SHA-256 is that of [Primitives]; the custom trust roots
    are read through the class [CaFiles], the file system and the certificate
    parser. *)

From S2P Require Import Prelude RustStr Bytes BTreeMap Policy Schema Json CoseTypes CryptoProvider.

Definition MAX_TOKEN_BYTES : nat := 32 * 1024.
Definition MAX_AUDIT_SHORT_BYTES : nat := 128.
Definition MAX_AUDIT_TEXT_BYTES : nat := 256.
Definition MAX_AUDIT_WORKFLOW_BYTES : nat := 512.
Definition MAX_PROVIDER_URL_BYTES : nat := 512.
Definition GITHUB_ISSUER : string := "https://token.actions.githubusercontent.com".
Definition FORGEJO_ISSUER_PATH : string := "/api/actions".
Definition FORGEJO_EVENT : string := "push".
Definition MAX_FORGEJO_GRANT_SECS : N := 15 * 60.
Definition MAX_RULE_ID_BYTES : nat := 128.
Definition MAX_SUBJECT_BYTES : nat := 256.
Definition MAX_AUDIENCE_BYTES : nat := 256.
Definition MAX_OPERATION_PROFILES : nat := 32.
Definition MAX_ARTIFACT_SIGN_KEY_IDS : nat := 64.
Definition MAX_PROVIDER_RULES : nat := 64.
Definition MAX_CA_BUNDLE_BYTES : N := 256 * 1024.
Definition MAX_CA_CERTIFICATES : nat := 64.
Definition AUDIENCE_PREFIX : string := "urn:basil:ci:jkt:".

(** ** Crates *)

(** [url::Url], by the accessors the module uses. *)
Record Url := {
  url_scheme : string;
  url_username : string;
  url_password : option string;
  url_query : option string;
  url_fragment : option string;
  url_path : string;
  url_origin : string;
  url_as_str : string;
}.

Inductive JwtAlgorithm := RS256 | OtherJwtAlgorithm.

#[export] Instance JwtAlgorithm_eq_dec : EqDecision JwtAlgorithm.
Proof. solve_decision. Defined.

Class FederationCrates := {
  Url_parse : string → option Url;
  (** [URL_SAFE_NO_PAD] of [base64]. *)
  b64url_encode : bytes_ → string;
  b64url_decode : string → option bytes_;
  (** The message authentication code of a key, [None] when the key is
      refused. *)
  hmac_sha256 : bytes_ → bytes_ → option bytes_;
  (** [serde_json::from_slice], as the visitor calls it makes. *)
  json_from_slice : bytes_ → option JsonInput;
  (** [jsonwebtoken::decode_header]: the algorithm and the key id. *)
  decode_header : string → option (JwtAlgorithm * option string);
  (** [jsonwebtoken::decode] with the RSA components [n] and [e], the audience
      and the issuer: the claims of a token whose RS256 signature verifies. *)
  jwt_decode : string → string → string → string → string → option Value_;
}.

(** ** Errors *)

Inductive FederationError :=
| Oversized (what : string)
| FedMalformed
| ProviderRejected
| UnsupportedArtifactSignTarget
| DuplicateKid
| InvalidKey
| TokenRejected
| InvalidUrl
| InvalidCaBundle
| InvalidCachePolicy
| RedirectRejected
| FetchRejected
| ExperimentalProviderDisabled (name : string)
| DuplicateRuleId
| OverlappingRules
| NoMatchingRule
| AmbiguousRule
| CorrelationUnavailable
| MissingRunQuota (rule : string)
| InvalidRunQuota (rule : string).

(** ** Rules *)

Record GithubActionsRule := {
  gr_issuer : string;
  gr_discovery_url : string;
  gr_jwks_url : string;
  gr_ca_bundle_path : option string;
  gr_audience_prefix : string;
  gr_repository_id : N;
  gr_repository_owner_id : N;
  gr_job_workflow_ref : string;
  gr_job_workflow_sha : string;
  gr_protected_refs : list string;
  gr_events : list string;
  gr_runner_environments : list string;
  gr_environment : option string;
  gr_max_token_age_secs : N;
  gr_clock_skew_secs : N;
}.

Record ForgejoActionsRule := {
  fr_issuer : string;
  fr_discovery_url : string;
  fr_jwks_url : string;
  fr_ca_bundle_path : option string;
  fr_audience_prefix : string;
  fr_repository_id : N;
  fr_repository_owner_id : N;
  fr_workflow_ref : string;
  fr_ref_name : string;
  fr_ref_type : string;
  fr_sha : string;
  fr_run_id : N;
  fr_run_attempt : N;
  fr_not_before_unix : N;
  fr_expires_at_unix : N;
  fr_max_token_age_secs : N;
  fr_clock_skew_secs : N;
}.

Inductive ProviderKind := KindGithubActions | KindForgejoActions.
#[export] Instance ProviderKind_eq_dec : EqDecision ProviderKind.
Proof. solve_decision. Defined.

Inductive ProviderOperationProfile := ArtifactSign.
#[export] Instance ProviderOperationProfile_eq_dec : EqDecision ProviderOperationProfile.
Proof. solve_decision. Defined.

Definition config_name (k : ProviderKind) : string :=
  match k with KindGithubActions => "githubActions" | KindForgejoActions => "forgejoActions" end.

Definition is_experimental (k : ProviderKind) : bool :=
  match k with KindGithubActions => false | KindForgejoActions => true end.

Inductive ProviderConfig :=
| GithubActions (rule : GithubActionsRule)
| ForgejoActions (rule : ForgejoActionsRule).

Record ProviderRule := {
  pr_id : string;
  pr_subject : string;
  pr_audience : string;
  pr_operation_profiles : list ProviderOperationProfile;
  pr_artifact_sign_key_ids : list string;
  pr_max_token_age_secs : N;
  pr_clock_skew_secs : N;
  pr_max_operations_per_run : option N;
  pr_provider : ProviderConfig;
}.

Definition provider_kind (p : ProviderConfig) : ProviderKind :=
  match p with GithubActions _ => KindGithubActions | ForgejoActions _ => KindForgejoActions end.
Definition provider_issuer (p : ProviderConfig) : string :=
  match p with GithubActions r => gr_issuer r | ForgejoActions r => fr_issuer r end.
Definition provider_discovery_url (p : ProviderConfig) : string :=
  match p with GithubActions r => gr_discovery_url r | ForgejoActions r => fr_discovery_url r end.
Definition provider_jwks_url (p : ProviderConfig) : string :=
  match p with GithubActions r => gr_jwks_url r | ForgejoActions r => fr_jwks_url r end.
Definition provider_ca_bundle_path (p : ProviderConfig) : option string :=
  match p with GithubActions r => gr_ca_bundle_path r | ForgejoActions r => fr_ca_bundle_path r end.
Definition rule_time_bounds (p : ProviderConfig) : N * N :=
  match p with
  | GithubActions r => (gr_max_token_age_secs r, gr_clock_skew_secs r)
  | ForgejoActions r => (fr_max_token_age_secs r, fr_clock_skew_secs r)
  end.

(** [s.len()] in bytes. *)
Definition len (s : string) : nat := length (bytes s).
Definition has_control (s : string) : bool := existsb is_control (chars s).

(** ** Rule validation *)

Section validation.
Context `{FederationCrates}.

Definition validate_github_rule (r : GithubActionsRule) : result FederationError unit :=
  if negb (String.eqb (gr_issuer r) GITHUB_ISSUER)
     || negb (String.eqb (gr_audience_prefix r) AUDIENCE_PREFIX)
     || (gr_repository_id r =? 0)%N
     || (gr_repository_owner_id r =? 0)%N
     || is_empty (gr_job_workflow_ref r)
     || is_empty (gr_job_workflow_sha r)
     || (length (gr_protected_refs r) =? 0)%nat
     || (length (gr_events r) =? 0)%nat
     || (length (gr_runner_environments r) =? 0)%nat
     || (gr_max_token_age_secs r =? 0)%N
     || (15 * 60 <? gr_max_token_age_secs r)%N
     || (5 * 60 <? gr_clock_skew_secs r)%N
  then Err ProviderRejected else Ok tt.

Definition ends_with (p s : string) : bool := is_some (strip_suffix p s).

Definition lower_hex_byte (b : N) : bool := is_ascii_digit b || in_range 97 102 b.

Definition validate_forgejo_rule (r : ForgejoActionsRule) : result FederationError unit :=
  let issuer_path_ok :=
    match Url_parse (fr_issuer r) with
    | Some url => ends_with FORGEJO_ISSUER_PATH (url_path url)
    | None => false
    end in
  let ref_consistent :=
    if String.eqb (fr_ref_type r) "branch" then starts_with "refs/heads/" (fr_ref_name r)
    else if String.eqb (fr_ref_type r) "tag" then starts_with "refs/tags/" (fr_ref_name r)
    else false in
  let sha_ok :=
    ((len (fr_sha r) =? 40)%nat || (len (fr_sha r) =? 64)%nat)
    && forallb lower_hex_byte (bytes (fr_sha r)) in
  if negb issuer_path_ok
     || negb (String.eqb (fr_audience_prefix r) AUDIENCE_PREFIX)
     || (fr_repository_id r =? 0)%N
     || (fr_repository_owner_id r =? 0)%N
     || is_empty (fr_workflow_ref r)
     || negb ref_consistent
     || negb sha_ok
     || (fr_run_id r =? 0)%N
     || (fr_run_attempt r =? 0)%N
     || (fr_expires_at_unix r <=? fr_not_before_unix r)%N
     || (MAX_FORGEJO_GRANT_SECS <? fr_expires_at_unix r - fr_not_before_unix r)%N
     || (fr_max_token_age_secs r =? 0)%N
     || (15 * 60 <? fr_max_token_age_secs r)%N
     || (5 * 60 <? fr_clock_skew_secs r)%N
  then Err ProviderRejected else Ok tt.

(** [s.trim_end_matches('/')]. *)
Definition trim_end_slashes (s : string) : string :=
  of_bytes (rev (drop_while (λ b, (b =? 47)%N) (rev (bytes s)))).

Definition parse_url (s : string) : result FederationError Url := ok_or InvalidUrl (Url_parse s).

Definition url_unacceptable (url : Url) : bool :=
  negb (String.eqb (url_scheme url) "https")
  || negb (is_empty (url_username url))
  || is_some (url_password url)
  || is_some (url_query url)
  || is_some (url_fragment url).

Definition validate_urls (issuer discovery jwks : string) : result FederationError unit :=
  return_err InvalidUrl
    when existsb (λ value, (MAX_PROVIDER_URL_BYTES <? len value)%nat) [issuer; discovery; jwks]
    otherwise
  let? issuer_url := parse_url issuer in
  let? discovery_url := parse_url discovery in
  let? jwks_url := parse_url jwks in
  if existsb url_unacceptable [issuer_url; discovery_url; jwks_url]
     || negb (String.eqb (url_origin issuer_url) (url_origin discovery_url))
     || negb (String.eqb (url_origin discovery_url) (url_origin jwks_url))
     || negb (String.eqb (trim_end_slashes issuer) (trim_end_slashes (url_as_str issuer_url)))
  then Err InvalidUrl else Ok tt.

Definition ProviderConfig_validate (p : ProviderConfig) : result FederationError unit :=
  let? _ :=
    match p with
    | GithubActions r => validate_github_rule r
    | ForgejoActions r => validate_forgejo_rule r
    end in
  validate_urls (provider_issuer p) (provider_discovery_url p) (provider_jwks_url p).
End validation.

(** [!set.insert(x)] of a loop over [l] fires: an element repeats. *)
Definition repeats {A} `{EqDecision A} (l : list A) : bool := negb (bool_decide (NoDup l)).

(** The loop over the target key ids. *)
Fixpoint validate_target_ids (seen : list string) (ids : list string)
    : result FederationError unit :=
  match ids with
  | [] => Ok tt
  | key_id :: ids =>
      return_err ProviderRejected
        when negb (is_ok (KeyId_from_text key_id)) || has_control key_id
             || bool_decide (key_id ∈ seen) otherwise
      validate_target_ids (key_id :: seen) ids
  end.

Definition validate_common_rule (r : ProviderRule) : result FederationError unit :=
  return_err ProviderRejected
    when is_empty (pr_id r) || (MAX_RULE_ID_BYTES <? len (pr_id r))%nat
         || is_empty (pr_subject r) || (MAX_SUBJECT_BYTES <? len (pr_subject r))%nat
         || is_empty (pr_audience r) || (MAX_AUDIENCE_BYTES <? len (pr_audience r))%nat
         || (length (pr_operation_profiles r) =? 0)%nat
         || (MAX_OPERATION_PROFILES <? length (pr_operation_profiles r))%nat
         || (length (pr_artifact_sign_key_ids r) =? 0)%nat
         || (MAX_ARTIFACT_SIGN_KEY_IDS <? length (pr_artifact_sign_key_ids r))%nat
         || (pr_max_token_age_secs r =? 0)%N
         || (15 * 60 <? pr_max_token_age_secs r)%N
         || (5 * 60 <? pr_clock_skew_secs r)%N otherwise
  return_err ProviderRejected
    when existsb has_control [pr_id r; pr_subject r; pr_audience r] otherwise
  return_err ProviderRejected when repeats (pr_operation_profiles r) otherwise
  return_err ProviderRejected
    when negb (bool_decide (ArtifactSign ∈ pr_operation_profiles r)) otherwise
  let? _ := validate_target_ids [] (pr_artifact_sign_key_ids r) in
  match pr_max_operations_per_run r with
  | None => Err (MissingRunQuota (pr_id r))
  | Some 0%N => Err (InvalidRunQuota (pr_id r))
  | Some _ => Ok tt
  end.

(** ** Overlap *)

Definition string_in (l : list string) (s : string) : bool := existsb (String.eqb s) l.

Definition forgejo_rules_overlap (l r : ForgejoActionsRule) : bool :=
  (fr_repository_id l =? fr_repository_id r)%N
  && (fr_repository_owner_id l =? fr_repository_owner_id r)%N
  && String.eqb (fr_workflow_ref l) (fr_workflow_ref r)
  && String.eqb (fr_ref_name l) (fr_ref_name r)
  && String.eqb (fr_ref_type l) (fr_ref_type r)
  && String.eqb (fr_sha l) (fr_sha r)
  && (fr_run_id l =? fr_run_id r)%N
  && (fr_run_attempt l =? fr_run_attempt r)%N.

Definition github_rules_overlap (l r : GithubActionsRule) : bool :=
  (gr_repository_id l =? gr_repository_id r)%N
  && (gr_repository_owner_id l =? gr_repository_owner_id r)%N
  && String.eqb (gr_job_workflow_ref l) (gr_job_workflow_ref r)
  && String.eqb (gr_job_workflow_sha l) (gr_job_workflow_sha r)
  && existsb (string_in (gr_protected_refs r)) (gr_protected_refs l)
  && existsb (string_in (gr_events r)) (gr_events l)
  && existsb (string_in (gr_runner_environments r)) (gr_runner_environments l).

Definition rules_overlap (l r : ProviderRule) : bool :=
  match pr_provider l, pr_provider r with
  | GithubActions l, GithubActions r => github_rules_overlap l r
  | ForgejoActions l, ForgejoActions r => forgejo_rules_overlap l r
  | _, _ => false
  end.

(** The nested loop: some rule overlaps a later one. *)
Fixpoint any_overlap (rules : list ProviderRule) : bool :=
  match rules with
  | [] => false
  | rule :: rest => existsb (rules_overlap rule) rest || any_overlap rest
  end.

(** ** Custom trust roots *)

Record Metadata := {
  md_dev : N;
  md_ino : N;
  md_len : N;
  md_mtime : Z;
  md_mtime_nsec : Z;
  md_ctime : Z;
  md_ctime_nsec : Z;
  md_uid : N;
  md_mode : N;
  md_nlink : N;
  md_is_dir : bool;
  md_is_file : bool;
}.

Record CaFileIdentity := {
  ca_device : N;
  ca_inode : N;
  ca_length : N;
  ca_modified_seconds : Z;
  ca_modified_nanoseconds : Z;
  ca_changed_seconds : Z;
  ca_changed_nanoseconds : Z;
}.

#[export] Instance CaFileIdentity_eq_dec : EqDecision CaFileIdentity.
Proof. solve_decision. Defined.

Definition from_metadata (m : Metadata) : CaFileIdentity :=
  {| ca_device := md_dev m; ca_inode := md_ino m; ca_length := md_len m;
     ca_modified_seconds := md_mtime m; ca_modified_nanoseconds := md_mtime_nsec m;
     ca_changed_seconds := md_ctime m; ca_changed_nanoseconds := md_ctime_nsec m |}.

(** The file system at the time of a resolution, and the certificate parser.
    A handle is what [open] returned. *)
Class CaFiles := {
  geteuid : N;
  open_root : option N;
  (** [openat] with [NOFOLLOW], and with [DIRECTORY] for an inner component. *)
  openat : N → string → bool → option N;
  metadata : N → option Metadata;
  (** The metadata of the file once it has been read. *)
  metadata_after : N → option Metadata;
  (** [take(limit).read_to_end]. *)
  read_up_to : N → N → option bytes_;
  (** The rest of the input, the label and the contents. *)
  parse_x509_pem : bytes_ → option (bytes_ * string * bytes_);
  (** What follows the certificate. *)
  parse_x509_certificate : bytes_ → option bytes_;
  certificate_from_der : bytes_ → option bytes_;
}.

Record ResolvedProviderTrust := {
  custom_roots : option (list bytes_);
  pinned_file : option (string * CaFileIdentity);
}.

(** The normal and parent components of a path below the root: empty and [.]
    components are skipped. *)
Definition components (relative : string) : list string :=
  List.filter (λ c, negb (is_empty c || String.eqb c ".")) (split "/" relative).

Section trust.
Context `{CaFiles}.

Definition writable_by_others (m : Metadata) : bool := negb (N.land (md_mode m) 18 =? 0)%N.

Definition validate_ca_directory (m : Metadata) : result FederationError unit :=
  let owner_is_safe := (md_uid m =? 0)%N || (md_uid m =? geteuid)%N in
  if negb (md_is_dir m) || negb owner_is_safe || writable_by_others m
  then Err InvalidCaBundle else Ok tt.

Definition validate_ca_leaf (m : Metadata) : result FederationError unit :=
  if negb (md_is_file m)
     || negb (md_nlink m =? 1)%N
     || (negb (md_uid m =? 0)%N && negb (md_uid m =? geteuid)%N)
     || writable_by_others m
  then Err InvalidCaBundle else Ok tt.

(** The loop over the components, from an open directory. *)
Fixpoint open_components (directory : N) (names : list string)
    : result FederationError (N * CaFileIdentity) :=
  match names with
  | [] => Err InvalidCaBundle
  | ".." :: _ => Err InvalidCaBundle
  | [name] =>
      let? file := ok_or InvalidCaBundle (openat directory name false) in
      let? m := ok_or InvalidCaBundle (metadata file) in
      let? _ := validate_ca_leaf m in
      Ok (file, from_metadata m)
  | name :: names =>
      let? next := ok_or InvalidCaBundle (openat directory name true) in
      let? m := ok_or InvalidCaBundle (metadata next) in
      let? _ := validate_ca_directory m in
      open_components next names
  end.

Definition open_validated_ca_file (path : string) : result FederationError (N * CaFileIdentity) :=
  let? relative := ok_or InvalidCaBundle (strip_prefix "/" path) in
  return_err InvalidCaBundle when (length (components relative) =? 0)%nat otherwise
  let? directory := ok_or InvalidCaBundle open_root in
  open_components directory (components relative).

(** [bytes.trim_ascii()]. *)
Definition is_ascii_whitespace (b : N) : bool :=
  ((b =? 32) || (b =? 9) || (b =? 10) || (b =? 12) || (b =? 13))%N.
Definition trim_ascii (l : bytes_) : bytes_ :=
  rev (drop_while is_ascii_whitespace (rev (drop_while is_ascii_whitespace l))).

(** [room] is the number of certificates the bundle may still hold. *)
Fixpoint parse_pem_loop (room : nat) (remaining : bytes_) (certificates : list bytes_)
    : result FederationError (list bytes_) :=
  let remaining := trim_ascii remaining in
  if bool_decide (remaining = []) then Ok certificates
  else
    return_err InvalidCaBundle
      when negb (is_some (strip_bytes (bytes "-----BEGIN CERTIFICATE-----") remaining)) otherwise
    let? (rest, label, contents) := ok_or InvalidCaBundle (parse_x509_pem remaining) in
    return_err InvalidCaBundle when negb (String.eqb label "CERTIFICATE") otherwise
    let? der_rest := ok_or InvalidCaBundle (parse_x509_certificate contents) in
    match room with
    | O => Err InvalidCaBundle
    | S room =>
        return_err InvalidCaBundle when negb (bool_decide (der_rest = [])) otherwise
        let? certificate := ok_or InvalidCaBundle (certificate_from_der contents) in
        parse_pem_loop room rest (certificates ++ [certificate])
    end.

Definition parse_certificate_only_pem (b : bytes_) : result FederationError (list bytes_) :=
  let? certificates := parse_pem_loop MAX_CA_CERTIFICATES b [] in
  return_err InvalidCaBundle when (length certificates =? 0)%nat otherwise
  Ok certificates.

Definition resolve_provider_trust (p : ProviderConfig)
    : result FederationError ResolvedProviderTrust :=
  match provider_ca_bundle_path p with
  | None => Ok {| custom_roots := None; pinned_file := None |}
  | Some path =>
      let? (file, before) := open_validated_ca_file path in
      return_err InvalidCaBundle
        when (ca_length before =? 0)%N || (MAX_CA_BUNDLE_BYTES <? ca_length before)%N otherwise
      let? content := ok_or InvalidCaBundle (read_up_to file (MAX_CA_BUNDLE_BYTES + 1)) in
      let length_ := N.of_nat (length content) in
      return_err InvalidCaBundle
        when (length_ =? 0)%N || (MAX_CA_BUNDLE_BYTES <? length_)%N otherwise
      let? after := ok_or InvalidCaBundle (metadata_after file) in
      return_err InvalidCaBundle
        when negb (bool_decide (before = from_metadata after))
             || negb (ca_length before =? length_)%N otherwise
      let? certificates := parse_certificate_only_pem content in
      Ok {| custom_roots := Some certificates; pinned_file := Some (path, before) |}
  end.

Definition revalidate (t : ResolvedProviderTrust) : result FederationError unit :=
  match pinned_file t with
  | None => Ok tt
  | Some (path, pinned) =>
      let? (_, current) := open_validated_ca_file path in
      return_err InvalidCaBundle when negb (bool_decide (current = pinned)) otherwise
      Ok tt
  end.
End trust.

(** ** The catalog *)

Record ProviderCatalog := {
  catalog_rules : list ProviderRule;
  resolved_trust : list (string * ResolvedProviderTrust);
}.

Section catalog.
Context `{FederationCrates} `{CaFiles}.

(** The loop over the rules; [ids] are the ids seen so far. *)
Fixpoint validate_rules (experimental : list ProviderKind) (ids : list string)
    (rules : list ProviderRule) : result FederationError unit :=
  match rules with
  | [] => Ok tt
  | rule :: rules =>
      let? _ := validate_common_rule rule in
      return_err DuplicateRuleId when bool_decide (pr_id rule ∈ ids) otherwise
      let kind := provider_kind (pr_provider rule) in
      return_err (ExperimentalProviderDisabled (config_name kind))
        when is_experimental kind && negb (bool_decide (kind ∈ experimental)) otherwise
      let? _ := ProviderConfig_validate (pr_provider rule) in
      let '(max_token_age_secs, clock_skew_secs) := rule_time_bounds (pr_provider rule) in
      return_err ProviderRejected
        when negb (pr_max_token_age_secs rule =? max_token_age_secs)%N
             || negb (pr_clock_skew_secs rule =? clock_skew_secs)%N otherwise
      validate_rules experimental (pr_id rule :: ids) rules
  end.

Fixpoint resolve_trusts (rules : list ProviderRule)
    : result FederationError (list (string * ResolvedProviderTrust)) :=
  match rules with
  | [] => Ok []
  | rule :: rules =>
      let? trust := resolve_provider_trust (pr_provider rule) in
      let? trusts := resolve_trusts rules in
      Ok ((pr_id rule, trust) :: trusts)
  end.

Definition with_experimental_providers (rules : list ProviderRule)
    (experimental : list ProviderKind) : result FederationError ProviderCatalog :=
  return_err (Oversized "provider catalog")
    when (MAX_PROVIDER_RULES <? length rules)%nat otherwise
  let? _ := validate_rules experimental [] rules in
  return_err OverlappingRules when any_overlap rules otherwise
  let? trusts := resolve_trusts rules in
  Ok {| catalog_rules := rules; resolved_trust := of_entries trusts |}.

Definition ProviderCatalog_new (rules : list ProviderRule)
    : result FederationError ProviderCatalog := with_experimental_providers rules [].

Definition revalidate_trust (c : ProviderCatalog) : result FederationError unit :=
  check_each (λ e, revalidate e.2) (resolved_trust c).

(** A target that needs the provider dispatch. *)
Definition needs_provider_dispatch (key : KeyEntry) : bool :=
  let m := from_key key in
  match key_type key with
  | Some (MlDsa44 | MlDsa65 | MlDsa87) => true
  | _ => false
  end
  || bool_decide (pm_provider m = Some LocalSoftware)
  || bool_decide (pm_custody m = Some SoftwareEncrypted)
  || match pm_policy m with PolicyLocalSoftware => true | _ => false end.

Definition validate_artifact_targets (c : ProviderCatalog) (catalog : Catalog)
    : result FederationError unit :=
  check_each
    (λ target,
       match get (keys_ catalog) target with
       | None => Ok tt
       | Some key =>
           if needs_provider_dispatch key then Err UnsupportedArtifactSignTarget else Ok tt
       end)
    (flat_map pr_artifact_sign_key_ids (catalog_rules c)).
End catalog.

(** ** Selection *)

Record GithubSelection := {
  gs_repository_id : N;
  gs_repository_owner_id : N;
  gs_workflow_ref : string;
  gs_workflow_sha : string;
  gs_ref_name : string;
  gs_event_name : string;
  gs_runner_environment : string;
  gs_environment : option string;
}.

Record ForgejoSelection := {
  fs_repository_id : N;
  fs_repository_owner_id : N;
  fs_workflow_ref : string;
  fs_ref_name : string;
  fs_ref_type : string;
  fs_sha : string;
  fs_run_id : N;
  fs_run_attempt : N;
}.

Definition github_matches (s : GithubSelection) (rule : ProviderRule) : bool :=
  match pr_provider rule with
  | GithubActions r =>
      (gr_repository_id r =? gs_repository_id s)%N
      && (gr_repository_owner_id r =? gs_repository_owner_id s)%N
      && (String.eqb (gr_job_workflow_ref r) (gs_workflow_ref s)
          && String.eqb (gr_job_workflow_sha r) (gs_workflow_sha s))
      && string_in (gr_protected_refs r) (gs_ref_name s)
      && string_in (gr_events r) (gs_event_name s)
      && string_in (gr_runner_environments r) (gs_runner_environment s)
      && bool_decide (gr_environment r = gs_environment s)
  | ForgejoActions _ => false
  end.

Definition forgejo_matches (s : ForgejoSelection) (rule : ProviderRule) : bool :=
  match pr_provider rule with
  | ForgejoActions r =>
      (fr_repository_id r =? fs_repository_id s)%N
      && (fr_repository_owner_id r =? fs_repository_owner_id s)%N
      && String.eqb (fr_workflow_ref r) (fs_workflow_ref s)
      && String.eqb (fr_ref_name r) (fs_ref_name s)
      && String.eqb (fr_ref_type r) (fs_ref_type s)
      && String.eqb (fr_sha r) (fs_sha s)
      && (fr_run_id r =? fs_run_id s)%N
      && (fr_run_attempt r =? fs_run_attempt s)%N
  | GithubActions _ => false
  end.

Definition exactly_one (matches_ : list ProviderRule) : result FederationError ProviderRule :=
  match matches_ with
  | [] => Err NoMatchingRule
  | [rule] => Ok rule
  | _ => Err AmbiguousRule
  end.

Definition select_github (c : ProviderCatalog) (s : GithubSelection)
    : result FederationError ProviderRule :=
  exactly_one (List.filter (github_matches s) (catalog_rules c)).

Definition select_forgejo (c : ProviderCatalog) (s : ForgejoSelection)
    : result FederationError ProviderRule :=
  exactly_one (List.filter (forgejo_matches s) (catalog_rules c)).

(** ** Loaded catalogs *)

Lemma string_in_spec l s : string_in l s = true ↔ s ∈ l.
Proof.
  unfold string_in. rewrite existsb_exists. setoid_rewrite String.eqb_eq.
  setoid_rewrite <- list_elem_of_In. naive_solver.
Qed.

Lemma shared_overlap l r s :
  string_in l s = true → string_in r s = true → existsb (string_in r) l = true.
Proof.
  rewrite string_in_spec. intros Hl Hr. apply existsb_exists. exists s.
  by rewrite <- list_elem_of_In.
Qed.

(** Two rules one selection matches overlap. *)
Lemma github_matches_overlap s l r :
  github_matches s l = true → github_matches s r = true → rules_overlap l r = true.
Proof.
  unfold github_matches, rules_overlap. destruct (pr_provider l), (pr_provider r); try done.
  intros Hl Hr. bool_facts. unfold github_rules_overlap.
  rewrite !andb_true_iff. split_and!; try (apply N.eqb_eq; congruence);
    try (apply String.eqb_eq; congruence); by eapply shared_overlap.
Qed.

Lemma forgejo_matches_overlap s l r :
  forgejo_matches s l = true → forgejo_matches s r = true → rules_overlap l r = true.
Proof.
  unfold forgejo_matches, rules_overlap. destruct (pr_provider l), (pr_provider r); try done.
  intros Hl Hr. bool_facts. unfold forgejo_rules_overlap.
  rewrite !andb_true_iff. split_and!; try (apply N.eqb_eq; congruence);
    apply String.eqb_eq; congruence.
Qed.

Lemma disjoint_selection rules (p : ProviderRule → bool) :
  any_overlap rules = false →
  (∀ l r, p l = true → p r = true → rules_overlap l r = true) →
  List.filter p rules = [] ∨ ∃ r, List.filter p rules = [r].
Proof.
  intros Ho Hp. induction rules as [| a rules IH]; [by left |]. simpl in *.
  apply orb_false_iff in Ho as [Ha Ho]. destruct (p a) eqn:Epa; [| by apply IH].
  right. exists a. f_equal. destruct (IH Ho) as [E | [r E]]; [done |].
  assert (r ∈ List.filter p rules) as Hr by (rewrite E; left).
  apply list_elem_of_In, filter_In in Hr as [Hin Hpr].
  rewrite (proj2 (existsb_exists _ _)) in Ha; [done |]. exists r. split; [done | by apply Hp].
Qed.

Lemma exactly_one_filter rules p r :
  any_overlap rules = false →
  (∀ l r, p l = true → p r = true → rules_overlap l r = true) →
  exactly_one (List.filter p rules) = Ok r ↔ r ∈ rules ∧ p r = true.
Proof.
  intros Ho Hp. rewrite (list_elem_of_In rules r), <- filter_In, <- list_elem_of_In.
  destruct (disjoint_selection rules p Ho Hp) as [-> | [r' ->]]; simpl.
  - split; [done | intros Hr; by apply elem_of_nil in Hr].
  - rewrite list_elem_of_singleton. split; [by intros [= ->] | by intros ->].
Qed.

Lemma selected_unique rules p :
  any_overlap rules = false →
  (∀ l r, p l = true → p r = true → rules_overlap l r = true) →
  ∀ r r', r ∈ rules → r' ∈ rules → p r = true → p r' = true → r = r'.
Proof.
  intros Ho Hp r r' Hr Hr' H H'.
  pose proof (proj2 (exactly_one_filter rules p r Ho Hp) (conj Hr H)) as E.
  pose proof (proj2 (exactly_one_filter rules p r' Ho Hp) (conj Hr' H')) as E'. congruence.
Qed.

Section loaded.
Context `{FederationCrates} `{CaFiles}.

Lemma loaded_no_overlap rules experimental c :
  with_experimental_providers rules experimental = Ok c →
  catalog_rules c = rules ∧ any_overlap rules = false.
Proof. unfold with_experimental_providers. intros H1. by inv_ok H1. Qed.

(** In a catalog the broker has loaded, selecting a rule for verified GitHub or Forgejo
    evidence is exact: it yields a rule precisely when that rule is in the catalog and its
    selectors match, so at most one rule can ever authorize a workload and the ambiguous outcome
    does not occur. *)
Theorem selection_exact rules experimental c :
  with_experimental_providers rules experimental = Ok c →
  (∀ s r, select_github c s = Ok r ↔ r ∈ rules ∧ github_matches s r = true) ∧
  (∀ s r, select_forgejo c s = Ok r ↔ r ∈ rules ∧ forgejo_matches s r = true) ∧
  (∀ s, select_github c s ≠ Err AmbiguousRule) ∧
  (∀ s, select_forgejo c s ≠ Err AmbiguousRule).
Proof.
  intros [E Ho]%loaded_no_overlap. unfold select_github, select_forgejo. rewrite E. split_and!.
  - intros s r. apply exactly_one_filter; [done | apply github_matches_overlap].
  - intros s r. apply exactly_one_filter; [done | apply forgejo_matches_overlap].
  - intros s. destruct (disjoint_selection rules (github_matches s) Ho) as [-> | [r ->]]; [| done ..].
    apply github_matches_overlap.
  - intros s. destruct (disjoint_selection rules (forgejo_matches s) Ho) as [-> | [r ->]];
      [| done ..]. apply forgejo_matches_overlap.
Qed.

(** What loading establishes of every rule. *)
Record rule_loaded (experimental : list ProviderKind) (r : ProviderRule) : Prop := {
  rl_quota : ∃ n, pr_max_operations_per_run r = Some n ∧ (0 < n)%N;
  rl_age : (0 < pr_max_token_age_secs r <= 900)%N;
  rl_skew : (pr_clock_skew_secs r <= 300)%N;
  rl_bounds : rule_time_bounds (pr_provider r) = (pr_max_token_age_secs r, pr_clock_skew_secs r);
  rl_tier : is_experimental (provider_kind (pr_provider r)) = true →
            provider_kind (pr_provider r) ∈ experimental;
  rl_profile : ArtifactSign ∈ pr_operation_profiles r;
  rl_provider : ProviderConfig_validate (pr_provider r) = Ok tt;
}.

Lemma validate_rules_Ok experimental rules : ∀ ids,
  validate_rules experimental ids rules = Ok tt →
  Forall (rule_loaded experimental) rules ∧ NoDup (map pr_id rules) ∧
  (∀ r, r ∈ rules → pr_id r ∉ ids).
Proof.
  induction rules as [| r rules IH]; intros ids Hv.
  - split_and!; [constructor | constructor |]. intros r Hr. by apply elem_of_nil in Hr.
  - simpl in Hv. inv_ok Hv. destruct (rule_time_bounds (pr_provider r)) as [age skew] eqn:Eb.
    inv_ok Hv. bool_facts. destruct value, value0.
    destruct (IH _ Hv) as (Hrules & Hnd & Hids). split_and!.
    + constructor; [| done]. unfold validate_common_rule in E. inv_ok E. bool_facts.
      destruct (pr_max_operations_per_run r) as [[| n] |] eqn:Eq; try done.
      split; [eexists; split; [done | lia] | lia | lia | congruence | | done | done].
      intros Ht. rewrite Ht in E1. simpl in E1. apply negb_false_iff, bool_decide_eq_true in E1. done.
    + simpl. constructor; [| done]. intros Hin. apply list_elem_of_fmap in Hin as (r' & Er & Hr').
      apply (Hids r' Hr'). rewrite <- Er. left.
    + intros r' Hr'. apply elem_of_cons in Hr' as [-> | Hr']; [done |].
      intros Hin. apply (Hids r' Hr'). by right.
Qed.
End loaded.
