(* ===== verification/CiVerify.v ===== *)
(** * CI provider tokens
      ([crates/basil-core/src/core/ci_federation.rs])

    The strict JWKS parser, the proof-key encodings, and the verification of
    a GitHub or Forgejo Actions token against one trusted rule. *)

From S2P Require Import Prelude RustStr Bytes BTreeMap Schema Json CoseTypes Cbor CoseCodec.
From S2P Require Import CoseCbor CryptoProvider CiFederation RunQuota.

Definition MIN_RSA_MODULUS_BYTES : nat := 256.
Definition MAX_RSA_MODULUS_BYTES : nat := 512.
Definition MAX_JWKS_BODY_BYTES : N := 64 * 1024.

Definition as_array (v : Value_) : option (list Value_) :=
  match v with Array l => Some l | _ => None end.

(** ** The key set *)

Record RsaJwk := { jwk_kid : string; jwk_n : string; jwk_e : string }.

Record GenerationJwks := {
  jwks_generation : N;
  jwks_keys : list (string * RsaJwk);
}.

Definition JWK_FIELDS : list string :=
  ["kty"; "kid"; "alg"; "use"; "key_ops"; "n"; "e"; "x5c"; "x5t"; "x5t#S256"].

Definition field_is (o : list (string * Value_)) (name value : string) : bool :=
  match get o name with Some (Str s) => String.eqb s value | _ => false end.

Definition string_field (o : list (string * Value_)) (name : string)
    : result FederationError string :=
  match get o name with
  | Some (Str v) => if is_empty v then Err FedMalformed else Ok v
  | _ => Err FedMalformed
  end.

Section tokens.
Context `{FC : FederationCrates} `{HP : Primitives}.

Definition validate_rsa_jwk (jwk : RsaJwk) : result FederationError unit :=
  let? modulus := ok_or InvalidKey (b64url_decode (jwk_n jwk)) in
  let? exponent := ok_or InvalidKey (b64url_decode (jwk_e jwk)) in
  if negb ((MIN_RSA_MODULUS_BYTES <=? length modulus)%nat
           && (length modulus <=? MAX_RSA_MODULUS_BYTES)%nat)
     || match modulus with [] => true | byte :: _ => (N.land byte 128 =? 0)%N end
     || negb (bool_decide (exponent = [1; 0; 1]%N))
  then Err InvalidKey else Ok tt.

(** The body of the loop over the keys. *)
Definition parse_jwk (out : list (string * RsaJwk)) (key : Value_)
    : result FederationError (list (string * RsaJwk)) :=
  let? object := ok_or FedMalformed (as_object key) in
  return_err InvalidKey
    when existsb (λ name, negb (string_in JWK_FIELDS name)) (keys object)
         || negb (field_is object "kty" "RSA")
         || negb (field_is object "alg" "RS256")
         || negb (field_is object "use" "sig") otherwise
  return_err InvalidKey
    when match get object "key_ops" with
         | None => false
         | Some (Array [Str s]) => negb (String.eqb s "verify")
         | Some _ => true
         end otherwise
  let? kid := string_field object "kid" in
  let? n := string_field object "n" in
  let? e := string_field object "e" in
  let jwk := {| jwk_kid := kid; jwk_n := n; jwk_e := e |} in
  let? _ := validate_rsa_jwk jwk in
  return_err DuplicateKid when contains_key out kid otherwise
  Ok (insert out kid jwk).

Definition GenerationJwks_parse (generation : N) (body : bytes_)
    : result FederationError GenerationJwks :=
  return_err (Oversized "JWKS") when (MAX_JWKS_BODY_BYTES <? N.of_nat (length body))%N otherwise
  let? root := ok_or FedMalformed (json_from_slice body) in
  let? values :=
    ok_or FedMalformed
      match as_object (erase root) with
      | Some o => match get o "keys" with Some v => as_array v | None => None end
      | None => None
      end in
  let? out := for_each parse_jwk values [] in
  Ok {| jwks_generation := generation; jwks_keys := out |}.

Definition jwks_key (j : GenerationJwks) (kid : string) : option RsaJwk := get (jwks_keys j) kid.

(** [DiscoveryDocument] as [serde] derives it: each field once, other fields
    ignored, or the two values in order. *)
Definition document_field (entries : list (string * JsonInput)) (name : string) : option string :=
  match List.filter (λ e, String.eqb e.1 name) entries with
  | [(_, InStr s)] => Some s
  | _ => None
  end.

Definition discovery_document (i : JsonInput) : option (string * string) :=
  match i with
  | InMap entries =>
      match document_field entries "issuer", document_field entries "jwks_uri" with
      | Some issuer, Some jwks_uri => Some (issuer, jwks_uri)
      | _, _ => None
      end
  | InSeq [InStr issuer; InStr jwks_uri] => Some (issuer, jwks_uri)
  | _ => None
  end.

Definition validate_discovery_document (body : bytes_) (expected_issuer expected_jwks_uri : string)
    : result FederationError unit :=
  let? i := ok_or FedMalformed (json_from_slice body) in
  let? (issuer, jwks_uri) := ok_or FedMalformed (discovery_document i) in
  return_err ProviderRejected
    when negb (String.eqb issuer expected_issuer) || negb (String.eqb jwks_uri expected_jwks_uri)
    otherwise
  Ok tt.

(** ** Proof keys *)

Definition proof_key_thumbprint (public_key : bytes_) : bytes_ :=
  sha256
    (bytes "{" ++ quote ++ bytes "crv" ++ quote ++ bytes ":" ++ quote ++ bytes "Ed25519" ++ quote
     ++ bytes "," ++ quote ++ bytes "kty" ++ quote ++ bytes ":" ++ quote ++ bytes "OKP" ++ quote
     ++ bytes "," ++ quote ++ bytes "x" ++ quote ++ bytes ":" ++ quote
     ++ bytes (b64url_encode public_key) ++ quote ++ bytes "}").

Definition ci_thumbprint (public_key : bytes_) : string :=
  b64url_encode (proof_key_thumbprint public_key).
Definition proof_audience (public_key : bytes_) : string :=
  "urn:basil:ci:jkt:" +:+ ci_thumbprint public_key.
Definition proof_key_kid (public_key : bytes_) : string := ci_thumbprint public_key.

(** The order of map keys: non-negative labels first. *)
Definition label_order (value : Z) : N * N :=
  if (0 <=? value)%Z then (0%N, Z.to_N value) else (1%N, Z.to_N (-1 - value)).
Definition order_le (a b : N * N) : bool :=
  (a.1 <? b.1)%N || ((a.1 =? b.1)%N && (a.2 <=? b.2)%N).

Record ProofKeyParts := {
  pk_key_type : option Z;
  pk_curve : option Z;
  pk_public : option bytes_;
  pk_previous : option Z;
}.

Section proof_key.
Context `{HM : Minicbor}.

(** The body of the loop over the entries: the parts so far and the input
    that is left. *)
Definition proof_key_entry (st : ProofKeyParts * bytes_) (_ : nat)
    : result FederationError (ProofKeyParts * bytes_) :=
  let '(p, d) := st in
  let? (label, d) := ok_or FedMalformed (dec_i64 d) in
  return_err FedMalformed
    when match pk_previous p with
         | Some prior => order_le (label_order label) (label_order prior)
         | None => false
         end otherwise
  match label with
  | 1%Z =>
      let? (v, d) := ok_or FedMalformed (dec_i64 d) in
      Ok ({| pk_key_type := Some v; pk_curve := pk_curve p; pk_public := pk_public p;
             pk_previous := Some label |}, d)
  | (-1)%Z =>
      let? (v, d) := ok_or FedMalformed (dec_i64 d) in
      Ok ({| pk_key_type := pk_key_type p; pk_curve := Some v; pk_public := pk_public p;
             pk_previous := Some label |}, d)
  | (-2)%Z =>
      let? (v, d) := ok_or FedMalformed (dec_bytes d) in
      Ok ({| pk_key_type := pk_key_type p; pk_curve := pk_curve p; pk_public := Some v;
             pk_previous := Some label |}, d)
  | _ => Err InvalidKey
  end.

Definition decode_proof_key_cose (b : bytes_) : result FederationError bytes_ :=
  let? (length_, d) := ok_or FedMalformed (dec_map b) in
  let? length_ := ok_or FedMalformed length_ in
  return_err InvalidKey when negb (length_ =? 3)%N otherwise
  let? (p, d) :=
    for_each proof_key_entry (seq 0 3)
      ({| pk_key_type := None; pk_curve := None; pk_public := None; pk_previous := None |}, d) in
  return_err FedMalformed when negb (bool_decide (d = [])) otherwise
  return_err InvalidKey
    when negb (bool_decide (pk_key_type p = Some 1%Z)) || negb (bool_decide (pk_curve p = Some 6%Z))
    otherwise
  let? public := ok_or InvalidKey (pk_public p) in
  return_err InvalidKey when negb (length public =? 32)%nat otherwise
  Ok public.

(** The one shape of a proof key. *)
Definition proof_key_cose (public : bytes_) : bytes_ :=
  enc_map 3 ++ enc_i64 1 ++ enc_i64 1 ++ enc_i64 (-1) ++ enc_i64 6 ++ enc_i64 (-2) ++ enc_bytes public.
End proof_key.

(** ** Correlation digests *)

Definition correlation_digest (key : bytes_) (domain : string) (data : bytes_)
    : result FederationError bytes_ :=
  let domain_length := N.min (N.of_nat (len domain)) 255 in
  ok_or CorrelationUnavailable (hmac_sha256 key ([domain_length] ++ bytes domain ++ data)).

Definition token_digest (key : bytes_) (token : string) : result FederationError bytes_ :=
  correlation_digest key "basil-ci-token" (bytes token).

(** ** Claims *)

(** [str::parse::<u64>] of a non-empty run of digits. *)
Definition decimal (value : string) : result FederationError N :=
  if negb (is_empty value) && forallb is_ascii_digit (bytes value) then
    match parse_digits 0 (bytes value) with
    | Some n => if (n <? 2 ^ 64)%N then Ok n else Err FedMalformed
    | None => Err FedMalformed
    end
  else Err FedMalformed.

Definition exactly_one_bounded_token (tokens : list string) : result FederationError string :=
  match tokens with
  | [token] =>
      return_err TokenRejected when is_empty token otherwise
      return_err (Oversized "token") when (MAX_TOKEN_BYTES <? len token)%nat otherwise
      Ok token
  | _ => Err FedMalformed
  end.

Definition validate_audit_claim (value : string) (max_bytes : nat) : result FederationError unit :=
  if is_empty value || (max_bytes <? len value)%nat || has_control value
  then Err ProviderRejected else Ok tt.

Definition validate_audit_claims (claims : list (string * nat)) : result FederationError unit :=
  check_each (λ '(value, bound), validate_audit_claim value bound) claims.

(** A struct read from a [Value]: by name from an object, where a missing
    field is [None], or in order from an array of exactly its fields. *)
Definition struct_fields (names : list string) (v : Value_) : option (list (option Value_)) :=
  match v with
  | Object o => Some (map (get o) names)
  | Array l => if (length l =? length names)%nat then Some (map Some l) else None
  | _ => None
  end.

Definition de_string (f : option Value_) : option string :=
  match f with Some (Str s) => Some s | _ => None end.
Definition de_u64 (f : option Value_) : option N :=
  match f with Some (Num (PosInt n)) => Some n | _ => None end.
(** [Option<T>]: a missing field and [null] are [None]. *)
Definition de_option {T} (de : option Value_ → option T) (f : option Value_) : option (option T) :=
  match f with
  | None | Some Null => Some None
  | Some v => option_map Some (de (Some v))
  end.
Definition de_value (f : option Value_) : option Value_ := f.

Record GithubClaims := {
  gc_iss : string; gc_aud : string; gc_sub : string; gc_repository : string;
  gc_repository_id : string; gc_repository_owner_id : string; gc_actor_id : option string;
  gc_event_name : string; gc_ref : string; gc_job_workflow_ref : string;
  gc_job_workflow_sha : string; gc_runner_environment : string; gc_environment : option string;
  gc_run_id : string; gc_run_attempt : string; gc_jti : string;
  gc_iat : N; gc_nbf : option N; gc_exp : N;
}.

Definition GITHUB_CLAIM_NAMES : list string :=
  ["iss"; "aud"; "sub"; "repository"; "repository_id"; "repository_owner_id"; "actor_id";
   "event_name"; "ref"; "job_workflow_ref"; "job_workflow_sha"; "runner_environment";
   "environment"; "run_id"; "run_attempt"; "jti"; "iat"; "nbf"; "exp"].

Definition github_claims (v : Value_) : option GithubClaims :=
  match struct_fields GITHUB_CLAIM_NAMES v with
  | Some [iss; aud; sub; repository; repository_id; repository_owner_id; actor_id; event_name; ref_;
          job_workflow_ref; job_workflow_sha; runner_environment; environment; run_id; run_attempt;
          jti; iat; nbf; exp] =>
      iss ← de_string iss; aud ← de_string aud; sub ← de_string sub;
      repository ← de_string repository; repository_id ← de_string repository_id;
      repository_owner_id ← de_string repository_owner_id;
      actor_id ← de_option de_string actor_id; event_name ← de_string event_name;
      ref_ ← de_string ref_; job_workflow_ref ← de_string job_workflow_ref;
      job_workflow_sha ← de_string job_workflow_sha;
      runner_environment ← de_string runner_environment;
      environment ← de_option de_string environment;
      run_id ← de_string run_id; run_attempt ← de_string run_attempt; jti ← de_string jti;
      iat ← de_u64 iat; nbf ← de_option de_u64 nbf; exp ← de_u64 exp;
      Some {| gc_iss := iss; gc_aud := aud; gc_sub := sub; gc_repository := repository;
              gc_repository_id := repository_id; gc_repository_owner_id := repository_owner_id;
              gc_actor_id := actor_id; gc_event_name := event_name; gc_ref := ref_;
              gc_job_workflow_ref := job_workflow_ref; gc_job_workflow_sha := job_workflow_sha;
              gc_runner_environment := runner_environment; gc_environment := environment;
              gc_run_id := run_id; gc_run_attempt := run_attempt; gc_jti := jti;
              gc_iat := iat; gc_nbf := nbf; gc_exp := exp |}
  | _ => None
  end.

Record ForgejoClaims := {
  fc_iss : string; fc_aud : string; fc_sub : string; fc_repository : string;
  fc_repository_id : string; fc_repository_owner_id : string; fc_actor_id : option string;
  fc_event_name : string; fc_ref : string; fc_ref_type : string; fc_sha : string;
  fc_workflow_ref : string; fc_run_id : string; fc_run_attempt : string;
  fc_environment : option Value_; fc_job_workflow_ref : option Value_;
  fc_job_workflow_sha : option Value_; fc_jti : string;
  fc_iat : N; fc_nbf : option N; fc_exp : N;
}.

Definition FORGEJO_CLAIM_NAMES : list string :=
  ["iss"; "aud"; "sub"; "repository"; "repository_id"; "repository_owner_id"; "actor_id";
   "event_name"; "ref"; "ref_type"; "sha"; "workflow_ref"; "run_id"; "run_attempt"; "environment";
   "job_workflow_ref"; "job_workflow_sha"; "jti"; "iat"; "nbf"; "exp"].

Definition forgejo_claims (v : Value_) : option ForgejoClaims :=
  match struct_fields FORGEJO_CLAIM_NAMES v with
  | Some [iss; aud; sub; repository; repository_id; repository_owner_id; actor_id; event_name; ref_;
          ref_type; sha; workflow_ref; run_id; run_attempt; environment; job_workflow_ref;
          job_workflow_sha; jti; iat; nbf; exp] =>
      iss ← de_string iss; aud ← de_string aud; sub ← de_string sub;
      repository ← de_string repository; repository_id ← de_string repository_id;
      repository_owner_id ← de_string repository_owner_id;
      actor_id ← de_option de_string actor_id; event_name ← de_string event_name;
      ref_ ← de_string ref_; ref_type ← de_string ref_type; sha ← de_string sha;
      workflow_ref ← de_string workflow_ref; run_id ← de_string run_id;
      run_attempt ← de_string run_attempt; environment ← de_option de_value environment;
      job_workflow_ref ← de_option de_value job_workflow_ref;
      job_workflow_sha ← de_option de_value job_workflow_sha; jti ← de_string jti;
      iat ← de_u64 iat; nbf ← de_option de_u64 nbf; exp ← de_u64 exp;
      Some {| fc_iss := iss; fc_aud := aud; fc_sub := sub; fc_repository := repository;
              fc_repository_id := repository_id; fc_repository_owner_id := repository_owner_id;
              fc_actor_id := actor_id; fc_event_name := event_name; fc_ref := ref_;
              fc_ref_type := ref_type; fc_sha := sha; fc_workflow_ref := workflow_ref;
              fc_run_id := run_id; fc_run_attempt := run_attempt; fc_environment := environment;
              fc_job_workflow_ref := job_workflow_ref; fc_job_workflow_sha := job_workflow_sha;
              fc_jti := jti; fc_iat := iat; fc_nbf := nbf; fc_exp := exp |}
  | _ => None
  end.

(** ** Evidence *)

Record GithubEvidence := {
  ge_repository_id : N;
  ge_repository_owner_id : N;
  ge_repository : string;
  ge_actor_id : option N;
  ge_workflow_ref : string;
  ge_workflow_sha : string;
  ge_ref_name : string;
  ge_event_name : string;
  ge_runner_environment : string;
  ge_environment : option string;
  ge_run_id : N;
  ge_run_attempt : N;
  ge_jti_digest : bytes_;
  ge_token_digest : bytes_;
}.

Record ForgejoEvidence := {
  fe_repository_id : N;
  fe_repository_owner_id : N;
  fe_repository : string;
  fe_actor_id : option N;
  fe_workflow_ref : string;
  fe_ref_name : string;
  fe_ref_type : string;
  fe_sha : string;
  fe_run_id : N;
  fe_run_attempt : N;
  fe_event_name : string;
  fe_jti_digest : bytes_;
  fe_token_digest : bytes_;
}.

Definition validate_github_audit_claims (c : GithubClaims) : result FederationError unit :=
  let? _ :=
    validate_audit_claims
      [(gc_iss c, MAX_PROVIDER_URL_BYTES); (gc_aud c, MAX_AUDIT_WORKFLOW_BYTES);
       (gc_sub c, MAX_AUDIT_WORKFLOW_BYTES); (gc_repository c, MAX_AUDIT_TEXT_BYTES);
       (gc_event_name c, MAX_AUDIT_SHORT_BYTES); (gc_ref c, MAX_AUDIT_TEXT_BYTES);
       (gc_job_workflow_ref c, MAX_AUDIT_WORKFLOW_BYTES);
       (gc_job_workflow_sha c, MAX_AUDIT_SHORT_BYTES);
       (gc_runner_environment c, MAX_AUDIT_SHORT_BYTES); (gc_jti c, MAX_AUDIT_WORKFLOW_BYTES)] in
  match gc_environment c with
  | Some environment => validate_audit_claim environment MAX_AUDIT_TEXT_BYTES
  | None => Ok tt
  end.

Definition validate_forgejo_audit_claims (c : ForgejoClaims) : result FederationError unit :=
  validate_audit_claims
    [(fc_iss c, MAX_PROVIDER_URL_BYTES); (fc_aud c, MAX_AUDIT_WORKFLOW_BYTES);
     (fc_sub c, MAX_AUDIT_WORKFLOW_BYTES); (fc_repository c, MAX_AUDIT_TEXT_BYTES);
     (fc_event_name c, MAX_AUDIT_SHORT_BYTES); (fc_ref c, MAX_AUDIT_TEXT_BYTES);
     (fc_ref_type c, MAX_AUDIT_SHORT_BYTES); (fc_sha c, MAX_AUDIT_SHORT_BYTES);
     (fc_workflow_ref c, MAX_AUDIT_WORKFLOW_BYTES); (fc_jti c, MAX_AUDIT_WORKFLOW_BYTES)].

(** The temporal tests the two providers share. *)
Definition outside_token_window (now_secs iat : N) (nbf : option N) (exp max_token_age skew : N)
    : bool :=
  (exp <? iat)%N
  || (u64_saturating_add now_secs skew <? iat)%N
  || match nbf with Some nbf => (u64_saturating_add now_secs skew <? nbf)%N | None => false end
  || (u64_saturating_add exp skew <? now_secs)%N
  || (max_token_age <? now_secs - iat)%N.

(** The tests of the decoded claims, in order: a malformed decimal ends them
    with its own error. *)
Definition check_github_claims (rule : GithubActionsRule) (c : GithubClaims)
    (proof_public_key : bytes_) (now_secs : N) : result FederationError unit :=
  return_err ProviderRejected
    when negb (String.eqb (gc_iss c) (gr_issuer rule))
         || negb (String.eqb (gc_aud c) (proof_audience proof_public_key))
         || is_empty (gc_sub c) || is_empty (gc_repository c) otherwise
  let? repository_id := decimal (gc_repository_id c) in
  return_err ProviderRejected when negb (repository_id =? gr_repository_id rule)%N otherwise
  let? repository_owner_id := decimal (gc_repository_owner_id c) in
  return_err ProviderRejected
    when negb (repository_owner_id =? gr_repository_owner_id rule)%N
         || outside_token_window now_secs (gc_iat c) (gc_nbf c) (gc_exp c)
              (gr_max_token_age_secs rule) (gr_clock_skew_secs rule)
         || negb (string_in (gr_protected_refs rule) (gc_ref c))
         || negb (string_in (gr_events rule) (gc_event_name c))
         || negb (string_in (gr_runner_environments rule) (gc_runner_environment c))
         || negb (bool_decide (gr_environment rule = gc_environment c))
         || negb (String.eqb (gc_job_workflow_ref c) (gr_job_workflow_ref rule))
         || negb (String.eqb (gc_job_workflow_sha c) (gr_job_workflow_sha rule)) otherwise
  return_err ProviderRejected when is_empty (gc_jti c) otherwise
  Ok tt.

Definition check_forgejo_claims (rule : ForgejoActionsRule) (c : ForgejoClaims)
    (proof_public_key : bytes_) (now_secs : N) : result FederationError unit :=
  return_err ProviderRejected
    when negb (String.eqb (fc_iss c) (fr_issuer rule))
         || negb (String.eqb (fc_aud c) (proof_audience proof_public_key))
         || is_empty (fc_sub c) || is_empty (fc_repository c) otherwise
  let? repository_id := decimal (fc_repository_id c) in
  return_err ProviderRejected when negb (repository_id =? fr_repository_id rule)%N otherwise
  let? repository_owner_id := decimal (fc_repository_owner_id c) in
  return_err ProviderRejected
    when negb (repository_owner_id =? fr_repository_owner_id rule)%N
         || negb (String.eqb (fc_event_name c) FORGEJO_EVENT)
         || negb (String.eqb (fc_ref c) (fr_ref_name rule))
         || negb (String.eqb (fc_ref_type c) (fr_ref_type rule))
         || negb (String.eqb (fc_sha c) (fr_sha rule))
         || negb (String.eqb (fc_workflow_ref c) (fr_workflow_ref rule))
         || negb match strip_prefix (fc_repository c) (fc_workflow_ref c) with
                 | Some rest => starts_with "/" rest
                 | None => false
                 end otherwise
  let? run_id := decimal (fc_run_id c) in
  return_err ProviderRejected when negb (run_id =? fr_run_id rule)%N otherwise
  let? run_attempt := decimal (fc_run_attempt c) in
  return_err ProviderRejected
    when negb (run_attempt =? fr_run_attempt rule)%N
         || is_some (fc_environment c) || is_some (fc_job_workflow_ref c)
         || is_some (fc_job_workflow_sha c)
         || outside_token_window now_secs (fc_iat c) (fc_nbf c) (fc_exp c)
              (fr_max_token_age_secs rule) (fr_clock_skew_secs rule)
         || (now_secs <? fr_not_before_unix rule)%N
         || (fr_expires_at_unix rule <? now_secs)%N
         || is_empty (fc_jti c) otherwise
  Ok tt.

(** The steps before the claims are read: [now_secs] is [None] before the
    epoch. *)
Definition token_claims (issuer discovery_url jwks_url : string) (validated : result FederationError unit)
    (jwks : GenerationJwks) (token : string) (proof_public_key : bytes_)
    : result FederationError Value_ :=
  return_err (Oversized "token") when (MAX_TOKEN_BYTES <? len token)%nat otherwise
  let? _ := validated in
  let? _ := validate_urls issuer discovery_url jwks_url in
  let? (alg, kid) := ok_or TokenRejected (decode_header token) in
  return_err TokenRejected when negb (bool_decide (alg = RS256)) otherwise
  let? kid := ok_or TokenRejected kid in
  let? key := ok_or TokenRejected (jwks_key jwks kid) in
  ok_or TokenRejected
    (jwt_decode token (jwk_n key) (jwk_e key) (proof_audience proof_public_key) issuer).

Definition decimal_opt (o : option string) : result FederationError (option N) :=
  match o with
  | Some s => let? n := decimal s in Ok (Some n)
  | None => Ok None
  end.

Definition verify_github (rule : GithubActionsRule) (jwks : GenerationJwks) (token : string)
    (proof_public_key correlation : bytes_) (now_secs : option N)
    : result FederationError GithubEvidence :=
  let? v :=
    token_claims (gr_issuer rule) (gr_discovery_url rule) (gr_jwks_url rule)
      (validate_github_rule rule) jwks token proof_public_key in
  let? c := ok_or TokenRejected (github_claims v) in
  let? _ := validate_github_audit_claims c in
  let? now_secs := ok_or TokenRejected now_secs in
  let? _ := check_github_claims rule c proof_public_key now_secs in
  let? jti := correlation_digest correlation "basil-ci-jti" (bytes (gc_jti c)) in
  let? token_digest := token_digest correlation token in
  let? repository_id := decimal (gc_repository_id c) in
  let? repository_owner_id := decimal (gc_repository_owner_id c) in
  let? actor_id := decimal_opt (gc_actor_id c) in
  let? run_id := decimal (gc_run_id c) in
  let? run_attempt := decimal (gc_run_attempt c) in
  Ok {| ge_repository_id := repository_id; ge_repository_owner_id := repository_owner_id;
        ge_repository := gc_repository c; ge_actor_id := actor_id;
        ge_workflow_ref := gc_job_workflow_ref c; ge_workflow_sha := gc_job_workflow_sha c;
        ge_ref_name := gc_ref c; ge_event_name := gc_event_name c;
        ge_runner_environment := gc_runner_environment c; ge_environment := gc_environment c;
        ge_run_id := run_id; ge_run_attempt := run_attempt; ge_jti_digest := jti;
        ge_token_digest := token_digest |}.

Definition verify_forgejo (rule : ForgejoActionsRule) (jwks : GenerationJwks) (token : string)
    (proof_public_key correlation : bytes_) (now_secs : option N)
    : result FederationError ForgejoEvidence :=
  let? v :=
    token_claims (fr_issuer rule) (fr_discovery_url rule) (fr_jwks_url rule)
      (validate_forgejo_rule rule) jwks token proof_public_key in
  let? c := ok_or TokenRejected (forgejo_claims v) in
  let? _ := validate_forgejo_audit_claims c in
  let? now_secs := ok_or TokenRejected now_secs in
  let? _ := check_forgejo_claims rule c proof_public_key now_secs in
  let? jti := correlation_digest correlation "basil-ci-jti" (bytes (fc_jti c)) in
  let? token_digest := token_digest correlation token in
  let? repository_id := decimal (fc_repository_id c) in
  let? repository_owner_id := decimal (fc_repository_owner_id c) in
  let? actor_id := decimal_opt (fc_actor_id c) in
  let? run_id := decimal (fc_run_id c) in
  let? run_attempt := decimal (fc_run_attempt c) in
  Ok {| fe_repository_id := repository_id; fe_repository_owner_id := repository_owner_id;
        fe_repository := fc_repository c; fe_actor_id := actor_id;
        fe_workflow_ref := fc_workflow_ref c; fe_ref_name := fc_ref c;
        fe_ref_type := fc_ref_type c; fe_sha := fc_sha c; fe_run_id := run_id;
        fe_run_attempt := run_attempt; fe_event_name := fc_event_name c; fe_jti_digest := jti;
        fe_token_digest := token_digest |}.

Inductive ProviderClaimEvidence :=
| GithubActionsEvidence (e : GithubEvidence)
| ForgejoActionsEvidence (e : ForgejoEvidence).

Definition evidence_token_digest (e : ProviderClaimEvidence) : bytes_ :=
  match e with
  | GithubActionsEvidence e => ge_token_digest e
  | ForgejoActionsEvidence e => fe_token_digest e
  end.
Definition evidence_jti_digest (e : ProviderClaimEvidence) : bytes_ :=
  match e with
  | GithubActionsEvidence e => ge_jti_digest e
  | ForgejoActionsEvidence e => fe_jti_digest e
  end.
Definition evidence_run_id (e : ProviderClaimEvidence) : N :=
  match e with
  | GithubActionsEvidence e => ge_run_id e
  | ForgejoActionsEvidence e => fe_run_id e
  end.
Definition evidence_run_attempt (e : ProviderClaimEvidence) : N :=
  match e with
  | GithubActionsEvidence e => ge_run_attempt e
  | ForgejoActionsEvidence e => fe_run_attempt e
  end.

Record VerifiedProviderEvidence := {
  vpe_provider : ProviderKind;
  vpe_issuer : string;
  vpe_rule_id : string;
  vpe_subject : string;
  vpe_broker_audience : string;
  vpe_operation_profiles : list ProviderOperationProfile;
  vpe_artifact_sign_key_ids : list string;
  vpe_max_operations_per_run : option N;
  vpe_run_bucket_retention_secs : N;
  vpe_claims : ProviderClaimEvidence;
}.

(** The dispatch on the provider of [verify_provider_evidence]
    ([service/invocation.rs]). *)
Definition verify_claims (provider : ProviderConfig) (jwks : GenerationJwks) (token : string)
    (public correlation : bytes_) (now_secs : option N)
    : result FederationError ProviderClaimEvidence :=
  match provider with
  | GithubActions github =>
      let? e := verify_github github jwks token public correlation now_secs in
      Ok (GithubActionsEvidence e)
  | ForgejoActions forgejo =>
      let? e := verify_forgejo forgejo jwks token public correlation now_secs in
      Ok (ForgejoActionsEvidence e)
  end.

(** The evidence a rule grants for verified claims. *)
Definition rule_evidence (rule : ProviderRule) (claims : ProviderClaimEvidence)
    : VerifiedProviderEvidence :=
  {| vpe_provider := provider_kind (pr_provider rule);
     vpe_issuer := provider_issuer (pr_provider rule);
     vpe_rule_id := pr_id rule; vpe_subject := pr_subject rule;
     vpe_broker_audience := pr_audience rule;
     vpe_operation_profiles := pr_operation_profiles rule;
     vpe_artifact_sign_key_ids := pr_artifact_sign_key_ids rule;
     vpe_max_operations_per_run := pr_max_operations_per_run rule;
     vpe_run_bucket_retention_secs :=
       u64_saturating_add (pr_max_token_age_secs rule) (pr_clock_skew_secs rule);
     vpe_claims := claims |}.
End tokens.

(** ** Correctness *)

(** [jsonwebtoken]: the claims are the token's payload, whichever key verified
    it. *)
Class FederationLaws `(FC : FederationCrates) : Prop := {
  jwt_payload token n e a i v n' e' a' i' v' :
    jwt_decode token n e a i = Some v → jwt_decode token n' e' a' i' = Some v' → v = v';
}.

(** The window of a token around the broker's time, as inequalities. *)
Definition in_token_window (now iat : N) (nbf : option N) (exp age skew : N) : Prop :=
  (iat <= exp)%N ∧ (iat <= now + skew)%N ∧ (now <= exp + skew)%N ∧ (now <= iat + age)%N ∧
  match nbf with Some nbf => (nbf <= now + skew)%N | None => True end.

Lemma outside_token_window_false now iat nbf exp age skew :
  outside_token_window now iat nbf exp age skew = false → in_token_window now iat nbf exp age skew.
Proof.
  unfold outside_token_window, in_token_window, u64_saturating_add. intros H. bool_facts.
  split_and!; try lia. destruct nbf; [bool_facts |]; lia.
Qed.

Section soundness.
Context `{FC : FederationCrates} `{HP : Primitives}.

(** What selection reads of the verified evidence. *)
Definition github_selection (e : GithubEvidence) : GithubSelection :=
  {| gs_repository_id := ge_repository_id e; gs_repository_owner_id := ge_repository_owner_id e;
     gs_workflow_ref := ge_workflow_ref e; gs_workflow_sha := ge_workflow_sha e;
     gs_ref_name := ge_ref_name e; gs_event_name := ge_event_name e;
     gs_runner_environment := ge_runner_environment e; gs_environment := ge_environment e |}.
Definition forgejo_selection (e : ForgejoEvidence) : ForgejoSelection :=
  {| fs_repository_id := fe_repository_id e; fs_repository_owner_id := fe_repository_owner_id e;
     fs_workflow_ref := fe_workflow_ref e; fs_ref_name := fe_ref_name e;
     fs_ref_type := fe_ref_type e; fs_sha := fe_sha e; fs_run_id := fe_run_id e;
     fs_run_attempt := fe_run_attempt e |}.

Definition evidence_matches (e : ProviderClaimEvidence) (rule : ProviderRule) : bool :=
  match e with
  | GithubActionsEvidence e => github_matches (github_selection e) rule
  | ForgejoActionsEvidence e => forgejo_matches (forgejo_selection e) rule
  end.

(** The token is RS256-signed, for the proof key's audience and the issuer, by
    a key of the set; [v] are its claims. *)
Definition signed_by (jwks : GenerationJwks) (token : string) (public : bytes_) (issuer : string)
    (v : Value_) : Prop :=
  ∃ kid key,
    decode_header token = Some (RS256, Some kid) ∧ jwks_key jwks kid = Some key ∧
    jwt_decode token (jwk_n key) (jwk_e key) (proof_audience public) issuer = Some v.

(** The evidence has the claims' selectors and run. *)
Definition github_evidence_of (c : GithubClaims) (e : GithubEvidence) : Prop :=
  decimal (gc_repository_id c) = Ok (ge_repository_id e) ∧
  decimal (gc_repository_owner_id c) = Ok (ge_repository_owner_id e) ∧
  ge_workflow_ref e = gc_job_workflow_ref c ∧ ge_workflow_sha e = gc_job_workflow_sha c ∧
  ge_ref_name e = gc_ref c ∧ ge_event_name e = gc_event_name c ∧
  ge_runner_environment e = gc_runner_environment c ∧ ge_environment e = gc_environment c ∧
  decimal (gc_run_id c) = Ok (ge_run_id e) ∧ decimal (gc_run_attempt c) = Ok (ge_run_attempt e).

Definition forgejo_evidence_of (c : ForgejoClaims) (e : ForgejoEvidence) : Prop :=
  decimal (fc_repository_id c) = Ok (fe_repository_id e) ∧
  decimal (fc_repository_owner_id c) = Ok (fe_repository_owner_id e) ∧
  fe_workflow_ref e = fc_workflow_ref c ∧ fe_ref_name e = fc_ref c ∧
  fe_ref_type e = fc_ref_type c ∧ fe_sha e = fc_sha c ∧
  decimal (fc_run_id c) = Ok (fe_run_id e) ∧ decimal (fc_run_attempt c) = Ok (fe_run_attempt e).

(** The claims carry the issuer and the proof key's audience, and the broker's time lies in the token's window and, for Forgejo, the grant's. *)
Definition claims_accepted (provider : ProviderConfig) (public : bytes_) (now : N) (v : Value_)
    (e : ProviderClaimEvidence) : Prop :=
  match provider, e with
  | GithubActions r, GithubActionsEvidence e =>
      ∃ c, github_claims v = Some c ∧ gc_iss c = gr_issuer r ∧ gc_aud c = proof_audience public ∧
        in_token_window now (gc_iat c) (gc_nbf c) (gc_exp c) (gr_max_token_age_secs r)
          (gr_clock_skew_secs r) ∧
        github_evidence_of c e
  | ForgejoActions r, ForgejoActionsEvidence e =>
      ∃ c, forgejo_claims v = Some c ∧ fc_iss c = fr_issuer r ∧ fc_aud c = proof_audience public ∧
        in_token_window now (fc_iat c) (fc_nbf c) (fc_exp c) (fr_max_token_age_secs r)
          (fr_clock_skew_secs r) ∧
        forgejo_evidence_of c e ∧ fc_job_workflow_ref c = None ∧
        (fr_not_before_unix r <= now <= fr_expires_at_unix r)%N
  | _, _ => False
  end.

Lemma token_claims_Ok issuer discovery jwks_url validated jwks token public v :
  token_claims issuer discovery jwks_url validated jwks token public = Ok v →
  validated = Ok tt ∧ signed_by jwks token public issuer v.
Proof.
  unfold token_claims. intros H. inv_reads H. bool_facts. rewrite !ok_or_Ok in *. simplify_eq.
  split; [by destruct value | by do 2 eexists].
Qed.

Lemma verify_github_sound rule pr jwks token public correlation now e :
  pr_provider pr = GithubActions rule →
  verify_github rule jwks token public correlation (Some now) = Ok e →
  ∃ v, signed_by jwks token public (gr_issuer rule) v ∧
    claims_accepted (GithubActions rule) public now v (GithubActionsEvidence e) ∧
    github_matches (github_selection e) pr = true.
Proof.
  intros Hp H. unfold verify_github in H. inv_ok_step H.
  apply token_claims_Ok in E as [_ Hs]. exists value. split; [done |].
  inv_ok H. apply ok_or_Ok in E. apply ok_or_Ok in E1. simplify_eq. unfold check_github_claims in E2. inv_ok E2.
  rewrite E5, E6 in *. simplify_eq. bool_facts. split.
  - exists value0. do 3 (split; [done |]). split; [by apply outside_token_window_false | done].
  - unfold github_matches. rewrite Hp. simpl.
    rewrite !andb_true_iff, !N.eqb_eq, !String.eqb_eq, bool_decide_eq_true. by split_and!.
Qed.

Lemma verify_forgejo_sound rule pr jwks token public correlation now e :
  pr_provider pr = ForgejoActions rule →
  verify_forgejo rule jwks token public correlation (Some now) = Ok e →
  ∃ v, signed_by jwks token public (fr_issuer rule) v ∧
    claims_accepted (ForgejoActions rule) public now v (ForgejoActionsEvidence e) ∧
    forgejo_matches (forgejo_selection e) pr = true.
Proof.
  intros Hp H. unfold verify_forgejo in H. inv_ok_step H.
  apply token_claims_Ok in E as [_ Hs]. exists value. split; [done |].
  inv_ok H. apply ok_or_Ok in E. apply ok_or_Ok in E1. simplify_eq. unfold check_forgejo_claims in E2. inv_ok E2.
  rewrite E5, E6, E8, E9 in *. simplify_eq. bool_facts. split.
  - exists value0. do 3 (split; [done |]). split; [by apply outside_token_window_false |].
    split; [done |]. split; [by destruct (fc_job_workflow_ref value0) | done].
  - unfold forgejo_matches. rewrite Hp. simpl.
    rewrite !andb_true_iff, !N.eqb_eq, !String.eqb_eq. by split_and!.
Qed.

Lemma verify_claims_sound rule jwks token public correlation now e :
  verify_claims (pr_provider rule) jwks token public correlation (Some now) = Ok e →
  (∃ v, signed_by jwks token public (provider_issuer (pr_provider rule)) v ∧
        claims_accepted (pr_provider rule) public now v e) ∧
  evidence_matches e rule = true.
Proof.
  unfold verify_claims. destruct (pr_provider rule) as [r | r] eqn:Hp; intros H; inv_ok H.
  - destruct (verify_github_sound _ rule _ _ _ _ _ _ Hp E) as (v & ? & ? & ?). eauto.
  - destruct (verify_forgejo_sound _ rule _ _ _ _ _ _ Hp E) as (v & ? & ? & ?). eauto.
Qed.

(** C11: a provider token is accepted for a rule only when an RS256 key of the rule's own key set
    signed it, for the rule's issuer and for the audience derived from the proof key it is
    presented with; the broker's clock lies inside the token's window widened by exactly the
    rule's skew, the token is no older than the rule allows, a Forgejo grant is inside its own
    window, and the evidence handed on is the one the rule's selectors match. *)
Theorem provider_evidence_sound rule jwks token public correlation now e :
  verify_claims (pr_provider rule) jwks token public correlation (Some now) = Ok e →
  (∃ v, signed_by jwks token public (provider_issuer (pr_provider rule)) v ∧
        claims_accepted (pr_provider rule) public now v e) ∧
  evidence_matches e rule = true.
Proof. apply verify_claims_sound. Qed.

(** A token is not both a GitHub and a Forgejo one: the first carries a called workflow, which the
    second must not. *)
Lemma github_forgejo_disjoint v c c' :
  github_claims v = Some c → forgejo_claims v = Some c' → fc_job_workflow_ref c' ≠ None.
Proof.
  intros Hg Hf. destruct v as [| | | | l | o]; try done.
  - assert (length l = 19%nat ∧ length l = 21%nat) as [Ha Hb]; [| lia].
    split.
    + unfold github_claims, struct_fields in Hg. change (length GITHUB_CLAIM_NAMES) with 19%nat in Hg.
      by destruct (Nat.eqb_spec (length l) 19).
    + unfold forgejo_claims, struct_fields in Hf. change (length FORGEJO_CLAIM_NAMES) with 21%nat in Hf.
      by destruct (Nat.eqb_spec (length l) 21).
  - unfold github_claims, forgejo_claims in *. cbn [struct_fields GITHUB_CLAIM_NAMES
      FORGEJO_CLAIM_NAMES map] in *.
    destruct (get o "job_workflow_ref") as [[] |] eqn:E; 
      repeat (apply bind_Some in Hg as (? & ? & Hg)); try done;
      repeat (apply bind_Some in Hf as (? & ? & Hf)); simplify_eq; simpl in *; by simplify_eq.
Qed.

Lemma github_same_selection c e e' :
  github_evidence_of c e → github_evidence_of c e' → github_selection e = github_selection e'.
Proof. unfold github_evidence_of, github_selection. intros. destruct_and!. f_equal; congruence. Qed.

Lemma forgejo_same_selection c e e' :
  forgejo_evidence_of c e → forgejo_evidence_of c e' → forgejo_selection e = forgejo_selection e'.
Proof. unfold forgejo_evidence_of, forgejo_selection. intros. destruct_and!. f_equal; congruence. Qed.

(** C25: in a loaded catalog a provider token authenticates one rule and one proof audience only:
    whatever key sets and times it is presented with, two rules that accept the same token are the
    same rule, and the proof keys it is accepted with have the same audience.  So the rule
    it is accepted for does not depend on the order of the catalog. *)
Theorem token_authenticates_one_rule `{FL : !FederationLaws FC} `{CF : CaFiles} rules experimental
    catalog r r' jwks jwks' token public public' correlation correlation' now now' e e' :
  with_experimental_providers rules experimental = Ok catalog → r ∈ rules → r' ∈ rules →
  verify_claims (pr_provider r) jwks token public correlation (Some now) = Ok e →
  verify_claims (pr_provider r') jwks' token public' correlation' (Some now') = Ok e' →
  r = r' ∧ proof_audience public = proof_audience public'.
Proof.
  intros [_ Ho]%loaded_no_overlap Hr Hr' H H'.
  apply verify_claims_sound in H as ((v & (k & key & _ & _ & Hs) & Ha) & Hm).
  apply verify_claims_sound in H' as ((v' & (k' & key' & _ & _ & Hs') & Ha') & Hm').
  rewrite <- (jwt_payload _ _ _ _ _ _ _ _ _ _ _ Hs Hs') in Ha'. clear v' Hs Hs'.
  unfold claims_accepted, evidence_matches in *.
  destruct (pr_provider r), e; try done; destruct (pr_provider r'), e'; try done.
  - destruct Ha as (c & Hc & _ & Haud & _ & He), Ha' as (c' & Hc' & _ & Haud' & _ & He').
    simplify_eq. split; [| congruence]. rewrite (github_same_selection _ _ _ He He') in Hm.
    by eapply (selected_unique rules _ Ho (github_matches_overlap _)).
  - destruct Ha as (c & Hc & _), Ha' as (c' & Hc' & _ & _ & _ & _ & Hn & _).
    by destruct (github_forgejo_disjoint _ _ _ Hc Hc').
  - destruct Ha as (c & Hc & _ & _ & _ & _ & Hn & _), Ha' as (c' & Hc' & _).
    by destruct (github_forgejo_disjoint _ _ _ Hc' Hc).
  - destruct Ha as (c & Hc & _ & Haud & _ & He & _), Ha' as (c' & Hc' & _ & Haud' & _ & He' & _).
    simplify_eq. split; [| congruence]. rewrite (forgejo_same_selection _ _ _ He He') in Hm.
    by eapply (selected_unique rules _ Ho (forgejo_matches_overlap _)).
Qed.
End soundness.
