(* ===== verification/JwksCache.v ===== *)
(** * The per-generation JWKS cache
      ([GenerationJwksCache] of [crates/basil-core/src/core/ci_federation.rs])

    Which key set may verify a provider token, and when it must be fetched
    again.  A [SystemTime] is an integer of nanoseconds, a [Duration] a natural
    number of them; [duration_since] fails when time went backwards. *)

From Stdlib Require Sorted.
From S2P Require Import Prelude RustStr Bytes BTreeMap Json CoseTypes CryptoProvider CiFederation.
From S2P Require Import CiVerify.

Definition SystemTime : Type := Z.
Definition Duration : Type := N.

Definition from_secs (s : N) : Duration := (s * 1000000000)%N.
(** [u64::MAX] seconds and 999999999 nanoseconds. *)
Definition DURATION_MAX : Duration := (18446744073709551615 * 1000000000 + 999999999)%N.
Definition duration_saturating_add (a b : Duration) : Duration := N.min (a + b) DURATION_MAX.

Definition duration_since (now earlier : SystemTime) : option Duration :=
  if (earlier <=? now)%Z then Some (Z.to_N (now - earlier)) else None.

(** Redirects are always rejected: [RedirectPolicy] has one value. *)
Record JwksCachePolicy := {
  max_body_bytes : N;
  refresh_cooldown : Duration;
  max_age : Duration;
  stale_if_error : Duration;
}.

Definition JwksCachePolicy_default : JwksCachePolicy :=
  {| max_body_bytes := MAX_JWKS_BODY_BYTES; refresh_cooldown := from_secs 1;
     max_age := from_secs 300; stale_if_error := from_secs 30 |}.

Record FetchedDocument := {
  fd_url : Url;
  fd_status : N;
  fd_redirected : bool;
  fd_body : bytes_;
}.

#[export] Instance Url_eq_dec : EqDecision Url.
Proof. solve_decision. Defined.

(** [ProviderDocumentFetcher], with its mutable state. *)
Class ProviderDocumentFetcher (F : Type) := {
  fetch : F → Url → N → F * result FederationError FetchedDocument;
}.

Inductive RefreshOutcome := RefreshFresh | RefreshStale.

Inductive ServeDecision :=
| ServeFresh (keys : GenerationJwks)
| ServeRevalidate (refresh_allowed : bool) (stale : option GenerationJwks)
| ServeUnknownKid (refresh_allowed : bool).

Record GenerationJwksCache := {
  cache_generation : N;
  cache_issuer : string;
  cache_discovery_url : Url;
  cache_jwks_url : Url;
  cache_policy : JwksCachePolicy;
  cache_keys : option GenerationJwks;
  fetched_at : option SystemTime;
  last_refresh_attempt : option SystemTime;
}.

Definition with_attempt (c : GenerationJwksCache) (now : SystemTime) : GenerationJwksCache :=
  {| cache_generation := cache_generation c; cache_issuer := cache_issuer c;
     cache_discovery_url := cache_discovery_url c; cache_jwks_url := cache_jwks_url c;
     cache_policy := cache_policy c; cache_keys := cache_keys c; fetched_at := fetched_at c;
     last_refresh_attempt := Some now |}.

Definition with_keys (c : GenerationJwksCache) (keys : GenerationJwks) (now : SystemTime)
    : GenerationJwksCache :=
  {| cache_generation := cache_generation c; cache_issuer := cache_issuer c;
     cache_discovery_url := cache_discovery_url c; cache_jwks_url := cache_jwks_url c;
     cache_policy := cache_policy c; cache_keys := Some keys; fetched_at := Some now;
     last_refresh_attempt := last_refresh_attempt c |}.

Section cache.
Context `{FC : FederationCrates}.

Definition FetchedDocument_new (url : string) (status : N) (redirected : bool) (body : bytes_)
    : result FederationError FetchedDocument :=
  let? url := parse_url url in
  return_err InvalidUrl
    when negb (String.eqb (url_scheme url) "https") || negb (is_empty (url_username url))
         || is_some (url_query url) || is_some (url_fragment url) otherwise
  Ok {| fd_url := url; fd_status := status; fd_redirected := redirected; fd_body := body |}.

Definition GenerationJwksCache_new (generation : N) (provider : ProviderConfig)
    (policy : JwksCachePolicy) : result FederationError GenerationJwksCache :=
  let? _ := ProviderConfig_validate provider in
  return_err InvalidCachePolicy
    when (max_body_bytes policy =? 0)%N || (MAX_JWKS_BODY_BYTES <? max_body_bytes policy)%N otherwise
  let? discovery_url := parse_url (provider_discovery_url provider) in
  let? jwks_url := parse_url (provider_jwks_url provider) in
  Ok {| cache_generation := generation; cache_issuer := provider_issuer provider;
        cache_discovery_url := discovery_url; cache_jwks_url := jwks_url; cache_policy := policy;
        cache_keys := None; fetched_at := None; last_refresh_attempt := None |}.

Definition should_refresh_on_unknown_kid (c : GenerationJwksCache) (now : SystemTime) : bool :=
  match last_refresh_attempt c with
  | None => true
  | Some attempt =>
      match duration_since now attempt with
      | Some elapsed => (refresh_cooldown (cache_policy c) <=? elapsed)%N
      | None => false
      end
  end.

Definition try_begin_refresh (c : GenerationJwksCache) (now : SystemTime)
    : GenerationJwksCache * bool :=
  if should_refresh_on_unknown_kid c now then (with_attempt c now, true) else (c, false).

(** The age of the fetched set, when time has not gone backwards. *)
Definition keys_aged_within (c : GenerationJwksCache) (now : SystemTime) (bound : Duration) : bool :=
  is_some (cache_keys c)
  && match fetched_at c with
     | Some fetched =>
         match duration_since now fetched with
         | Some age => (age <=? bound)%N
         | None => false
         end
     | None => false
     end.

Definition keys_are_fresh (c : GenerationJwksCache) (now : SystemTime) : bool :=
  keys_aged_within c now (max_age (cache_policy c)).

Definition keys_within_stale_window (c : GenerationJwksCache) (now : SystemTime) : bool :=
  keys_aged_within c now
    (duration_saturating_add (max_age (cache_policy c)) (stale_if_error (cache_policy c))).

Definition cached_key (c : GenerationJwksCache) (kid : string) : option RsaJwk :=
  keys ← cache_keys c; jwks_key keys kid.

Definition install (c : GenerationJwksCache) (keys : GenerationJwks) (now : SystemTime)
    : GenerationJwksCache :=
  if match fetched_at c with Some installed => (now <? installed)%Z | None => false end then c
  else with_keys c keys now.

Definition serve_or_revalidate (c : GenerationJwksCache) (kid : string) (now : SystemTime)
    : GenerationJwksCache * ServeDecision :=
  match cache_keys c with
  | Some keys =>
      if is_some (jwks_key keys kid) then
        if keys_are_fresh c now then (c, ServeFresh keys)
        else
          let '(c', refresh_allowed) := try_begin_refresh c now in
          (c', ServeRevalidate refresh_allowed
                 (if keys_within_stale_window c' now then Some keys else None))
      else
        let '(c', refresh_allowed) := try_begin_refresh c now in
        (c', ServeUnknownKid refresh_allowed)
  | None =>
      let '(c', refresh_allowed) := try_begin_refresh c now in
      (c', ServeUnknownKid refresh_allowed)
  end.

(** *** Fetching through the cache *)

Section fetcher.
Context {F} `{ProviderDocumentFetcher F}.

Definition fetch_document (c : GenerationJwksCache) (fetcher : F) (expected : Url)
    : F * result FederationError FetchedDocument :=
  let '(fetcher, response) := fetch fetcher expected (max_body_bytes (cache_policy c)) in
  (fetcher,
   let? response := response in
   return_err InvalidUrl when negb (bool_decide (fd_url response = expected)) otherwise
   return_err RedirectRejected when fd_redirected response otherwise
   return_err (Oversized "provider document")
     when (max_body_bytes (cache_policy c) <? N.of_nat (length (fd_body response)))%N otherwise
   return_err FetchRejected
     when negb ((200 <=? fd_status response)%N && (fd_status response <? 300)%N) otherwise
   Ok response).

Definition fetch_and_parse (c : GenerationJwksCache) (fetcher : F)
    : F * result FederationError GenerationJwks :=
  let '(fetcher, discovery) := fetch_document c fetcher (cache_discovery_url c) in
  match (let? discovery := discovery in
         validate_discovery_document (fd_body discovery) (cache_issuer c)
           (url_as_str (cache_jwks_url c))) with
  | Err e => (fetcher, Err e)
  | Ok _ =>
      let '(fetcher, jwks) := fetch_document c fetcher (cache_jwks_url c) in
      (fetcher,
       let? jwks := jwks in
       GenerationJwks_parse (cache_generation c) (fd_body jwks))
  end.

Definition refresh (c : GenerationJwksCache) (fetcher : F) (now : SystemTime)
    : GenerationJwksCache * F * result FederationError RefreshOutcome :=
  let c := with_attempt c now in
  let '(fetcher, result) := fetch_and_parse c fetcher in
  match result with
  | Ok keys => (with_keys c keys now, fetcher, Ok RefreshFresh)
  | Err e =>
      if keys_within_stale_window c now then (c, fetcher, Ok RefreshStale) else (c, fetcher, Err e)
  end.

Definition key_or_refresh (c : GenerationJwksCache) (kid : string) (fetcher : F) (now : SystemTime)
    : GenerationJwksCache * F * result FederationError (option RsaJwk) :=
  match cached_key c kid with
  | Some key => (c, fetcher, Ok (Some key))
  | None =>
      if should_refresh_on_unknown_kid c now then
        let '(c, fetcher, r) := refresh c fetcher now in
        (c, fetcher, let? _ := r in Ok (cached_key c kid))
      else (c, fetcher, Ok (cached_key c kid))
  end.
End fetcher.
End cache.

(** ** Histories of one cache *)

(** The serving path serves a key id or installs a set it has fetched. *)
Inductive CacheEvent :=
| EvServe (kid : string) (now : SystemTime)
| EvInstall (keys : GenerationJwks) (now : SystemTime).

Definition cache_step (c : GenerationJwksCache) (ev : CacheEvent)
    : GenerationJwksCache * option ServeDecision :=
  match ev with
  | EvServe kid now => let '(c, d) := serve_or_revalidate c kid now in (c, Some d)
  | EvInstall keys now => (install c keys now, None)
  end.

Fixpoint cache_run (c : GenerationJwksCache) (evs : list CacheEvent) : GenerationJwksCache :=
  match evs with
  | [] => c
  | ev :: evs => cache_run (cache_step c ev).1 evs
  end.

(** The set a decision lets the caller verify with. *)
Definition served (d : ServeDecision) : option GenerationJwks :=
  match d with
  | ServeFresh keys => Some keys
  | ServeRevalidate _ stale => stale
  | ServeUnknownKid _ => None
  end.

Definition refresh_allowed (d : ServeDecision) : bool :=
  match d with
  | ServeFresh _ => false
  | ServeRevalidate b _ | ServeUnknownKid b => b
  end.

Section proofs.
Context `{FC : FederationCrates}.

(** Before any event. *)
Definition empty_cache (c : GenerationJwksCache) : Prop :=
  cache_keys c = None ∧ fetched_at c = None ∧ last_refresh_attempt c = None.

Lemma new_empty generation provider policy c :
  GenerationJwksCache_new generation provider policy = Ok c →
  empty_cache c ∧ cache_policy c = policy ∧ cache_generation c = generation.
Proof. unfold GenerationJwksCache_new, empty_cache. intros H. by inv_ok H. Qed.

Definition attempt_ok (c : GenerationJwksCache) (now : SystemTime) : Prop :=
  match last_refresh_attempt c with
  | Some t => (t + Z.of_N (refresh_cooldown (cache_policy c)) <= now)%Z
  | None => True
  end.

Lemma should_refresh_spec c now : should_refresh_on_unknown_kid c now = true ↔ attempt_ok c now.
Proof.
  unfold should_refresh_on_unknown_kid, attempt_ok, duration_since.
  destruct (last_refresh_attempt c) as [t |]; [| done].
  destruct (Z.leb_spec t now); [rewrite N.leb_le; lia | split; [done | lia]].
Qed.

Lemma keys_aged_within_spec c now bound :
  keys_aged_within c now bound = true ↔
  ∃ keys t, cache_keys c = Some keys ∧ fetched_at c = Some t ∧ (t <= now <= t + Z.of_N bound)%Z.
Proof.
  unfold keys_aged_within, duration_since.
  destruct (cache_keys c) as [keys |]; simpl; [| naive_solver].
  destruct (fetched_at c) as [t |]; [| naive_solver].
  destruct (Z.leb_spec t now); [rewrite N.leb_le |]; split;
    [intros; exists keys, t; split_and!; (done || lia)
    | intros (? & ? & ? & ? & ?); simplify_eq; lia | done
    | intros (? & ? & ? & ? & ?); simplify_eq; lia].
Qed.

(** What serving does: it never touches the keys, and records an attempt
    exactly when it allows one. *)
Lemma serve_spec c kid now :
  let '(c', d) := serve_or_revalidate c kid now in
  cache_keys c' = cache_keys c ∧ fetched_at c' = fetched_at c ∧
  cache_policy c' = cache_policy c ∧ cache_generation c' = cache_generation c ∧
  (if refresh_allowed d then attempt_ok c now ∧ last_refresh_attempt c' = Some now
   else last_refresh_attempt c' = last_refresh_attempt c) ∧
  ∀ keys, served d = Some keys →
    cache_keys c = Some keys ∧ is_Some (jwks_key keys kid) ∧
    ∃ t, fetched_at c = Some t ∧
      (t <= now <= t + Z.of_N (max_age (cache_policy c) + stale_if_error (cache_policy c)))%Z.
Proof.
  unfold serve_or_revalidate, try_begin_refresh.
  pose proof (should_refresh_spec c now) as Hs.
  destruct (should_refresh_on_unknown_kid c now).
  all: destruct (cache_keys c) as [keys |] eqn:Ek; [| simpl; naive_solver].
  all: destruct (jwks_key keys kid) as [key |] eqn:Ekid; simpl; [| naive_solver].
  all: destruct (keys_are_fresh c now) eqn:Ef;
    [| destruct (keys_within_stale_window _ now) eqn:Ew]; simpl; split_and!; try done; try tauto.
  all: intros ? [= <-]; split; [done |]; split; [by rewrite Ekid |].
  1, 3: apply keys_aged_within_spec in Ef as (? & t & ? & ? & ?); exists t; split; [done | lia].
  all: apply keys_aged_within_spec in Ew as (? & t & ? & ? & ?); exists t; split; [done |];
    unfold duration_saturating_add in *; simpl in *; lia.
Qed.

(** The cached set is the last one installed, by its time. *)
Definition cache_inv (c : GenerationJwksCache) (evs : list CacheEvent) : Prop :=
  match cache_keys c, fetched_at c with
  | Some keys, Some t =>
      EvInstall keys t ∈ evs ∧ ∀ keys' t', EvInstall keys' t' ∈ evs → (t' <= t)%Z
  | None, None => ∀ keys' t', EvInstall keys' t' ∉ evs
  | _, _ => False
  end.

Lemma cache_inv_step c past ev :
  cache_inv c past → cache_inv (cache_step c ev).1 (past ++ [ev]).
Proof.
  intros Hi. destruct ev as [kid now | keys now]; simpl.
  - pose proof (serve_spec c kid now) as Hs. destruct (serve_or_revalidate c kid now) as [c' d].
    destruct Hs as (Hk & Hf & _). unfold cache_inv in *. simpl. rewrite Hk, Hf.
    destruct (cache_keys c), (fetched_at c); try done.
    + destruct Hi as [Hin Hmax]. split; [by apply elem_of_app; left |].
      intros ? ? [? | Hl]%elem_of_app; [eauto |]. by apply list_elem_of_singleton in Hl.
    + intros ? ? [? | Hl]%elem_of_app; [by eapply Hi |]. by apply list_elem_of_singleton in Hl.
  - unfold install. destruct (match fetched_at c with Some i => (now <? i)%Z | None => false end) eqn:E;
      unfold cache_inv in *; simpl.
    + destruct (fetched_at c) as [t |]; [| done]. bool_facts.
      destruct (cache_keys c); [| done]. destruct Hi as [Hin Hmax].
      split; [by apply elem_of_app; left |].
      intros ? ? [? | Hl]%elem_of_app; [eauto |]. apply list_elem_of_singleton in Hl as [= -> ->]. lia.
    + split; [apply elem_of_app; right; by apply list_elem_of_singleton |].
      intros ? ? [Hin | Hl]%elem_of_app.
      * destruct (cache_keys c), (fetched_at c); try done; [| by apply Hi in Hin].
        destruct Hi as [_ Hmax]. bool_facts. apply Hmax in Hin. lia.
      * apply list_elem_of_singleton in Hl as [= -> ->]. done.
Qed.

Lemma cache_step_policy c ev : cache_policy (cache_step c ev).1 = cache_policy c.
Proof.
  destruct ev as [kid now | keys now]; simpl; [| unfold install; by case_match].
  pose proof (serve_spec c kid now) as Hs. destruct (serve_or_revalidate c kid now). naive_solver.
Qed.

Lemma cache_run_inv evs : ∀ c past,
  cache_inv c past →
  cache_inv (cache_run c evs) (past ++ evs) ∧ cache_policy (cache_run c evs) = cache_policy c.
Proof.
  induction evs as [| ev evs IH]; intros c past Hi; [by rewrite app_nil_r |]. simpl.
  destruct (IH _ _ (cache_inv_step c past ev Hi)) as [Hi' Hp].
  rewrite <- app_assoc in Hi'. rewrite cache_step_policy in Hp. done.
Qed.

(** C27: the cache bounds how long a key the provider has revoked still verifies.  Whatever is
    served and installed before, a key set handed out for a token was installed, contains the
    token's key id, is as recent as any set installed so far, and was fetched no longer ago than
    the freshness window plus the outage grace. *)
Theorem cache_serves_newest generation provider policy c evs kid now keys :
  GenerationJwksCache_new generation provider policy = Ok c →
  served (serve_or_revalidate (cache_run c evs) kid now).2 = Some keys →
  is_Some (jwks_key keys kid) ∧
  ∃ t, EvInstall keys t ∈ evs ∧
    (∀ keys' t', EvInstall keys' t' ∈ evs → (t' <= t)%Z) ∧
    (t <= now <= t + Z.of_N (max_age policy + stale_if_error policy))%Z.
Proof.
  intros ((Hk & Hf & _) & Hp & _)%new_empty Hs.
  destruct (cache_run_inv evs c []) as [Hi Hp'].
  { unfold cache_inv. rewrite Hk, Hf. intros ? ? Hin. by apply elem_of_nil in Hin. }
  pose proof (serve_spec (cache_run c evs) kid now) as Hspec.
  destruct (serve_or_revalidate (cache_run c evs) kid now) as [c' d]. simpl in Hs.
  destruct Hspec as (_ & _ & _ & _ & _ & Hserved).
  destruct (Hserved keys Hs) as (Ek & Hkid & t & Et & Hwin). split; [done |]. exists t.
  unfold cache_inv in Hi. rewrite Ek, Et in Hi. destruct Hi as [Hin Hmax].
  rewrite Hp', Hp in Hwin. done.
Qed.

(** The times of the refresh attempts a history allows. *)
Fixpoint attempts (c : GenerationJwksCache) (evs : list CacheEvent) : list SystemTime :=
  match evs with
  | [] => []
  | ev :: evs =>
      let '(c', d) := cache_step c ev in
      match ev, d with
      | EvServe _ now, Some d => if refresh_allowed d then now :: attempts c' evs else attempts c' evs
      | _, _ => attempts c' evs
      end
  end.

Lemma attempts_after c evs t :
  last_refresh_attempt c = Some t →
  Forall (λ t', (t + Z.of_N (refresh_cooldown (cache_policy c)) <= t')%Z) (attempts c evs).
Proof.
  revert c t. induction evs as [| ev evs IH]; intros c t Ht; [constructor |]. simpl.
  pose proof (cache_step_policy c ev) as Hp. destruct ev as [kid now | keys now]; simpl in *.
  - pose proof (serve_spec c kid now) as Hs. destruct (serve_or_revalidate c kid now) as [c' d].
    simpl in *. destruct Hs as (_ & _ & _ & _ & Ha & _). destruct (refresh_allowed d).
    + destruct Ha as [Hok Hl]. unfold attempt_ok in Hok. rewrite Ht in Hok.
      constructor; [done |]. eapply list.Forall_impl; [by apply IH |]. intros x Hx. simpl in Hx.
      rewrite Hp in Hx. lia.
    + rewrite <- Hp. apply IH. congruence.
  - rewrite <- Hp. apply IH. unfold install. by case_match.
Qed.

(** However many tokens with unknown or expired key ids arrive, the broker asks a provider for
    its keys at most once per cooldown: the refreshes a history of the cache allows are each at
    least the cooldown after every earlier one, whether or not the fetches succeed. *)
Theorem refreshes_spaced c evs :
  Sorted.StronglySorted (λ a b, (a + Z.of_N (refresh_cooldown (cache_policy c)) <= b)%Z)
    (attempts c evs).
Proof.
  revert c. induction evs as [| ev evs IH]; intros c; [constructor |]. simpl.
  pose proof (cache_step_policy c ev) as Hp. destruct ev as [kid now | keys now]; simpl in *.
  - pose proof (serve_spec c kid now) as Hs. destruct (serve_or_revalidate c kid now) as [c' d].
    simpl in *. destruct Hs as (_ & _ & _ & _ & Ha & _). rewrite <- Hp.
    destruct (refresh_allowed d); [| apply IH].
    constructor; [apply IH |]. apply attempts_after, Ha.
  - rewrite <- Hp. apply IH.
Qed.
End proofs.
