(* ===== verification/CiSample.v ===== *)
(** * A concrete CI provider

    Crates that read one token, a rule that trusts its workflow, and the key
    set of its provider: instances at which the theorems about provider
    tokens and their keys hold. *)

From S2P Require Import Prelude RustStr Bytes BTreeMap Schema Json CoseTypes Cbor CoseCodec.
From S2P Require Import CoseCbor CryptoProvider CiFederation RunQuota CiVerify JwksCache.

Definition proof_public : bytes_ := repeat 65%N 32.

(** The audience of a token for [proof_public], when base 64 is text. *)
Definition sample_audience : string :=
  "urn:basil:ci:jkt:" +:+
  of_bytes (@sha256 toy_primitives
    (bytes "{" ++ quote ++ bytes "crv" ++ quote ++ bytes ":" ++ quote ++ bytes "Ed25519" ++ quote
     ++ bytes "," ++ quote ++ bytes "kty" ++ quote ++ bytes ":" ++ quote ++ bytes "OKP" ++ quote
     ++ bytes "," ++ quote ++ bytes "x" ++ quote ++ bytes ":" ++ quote
     ++ proof_public ++ quote ++ bytes "}")).

Definition sample_payload : Value_ :=
  Object [("aud", Str sample_audience); ("event_name", Str "push"); ("exp", Num (PosInt 1100));
          ("iat", Num (PosInt 1000)); ("iss", Str GITHUB_ISSUER); ("job_workflow_ref", Str "w@main");
          ("job_workflow_sha", Str "abc"); ("jti", Str "token-1"); ("ref", Str "refs/heads/main");
          ("repository", Str "o/r"); ("repository_id", Str "11"); ("repository_owner_id", Str "12");
          ("run_attempt", Str "1"); ("run_id", Str "77"); ("runner_environment", Str "hosted");
          ("sub", Str "repo:o/r")].

#[export] Instance sample_crates : FederationCrates := {|
  Url_parse s := Some {| url_scheme := "https"; url_username := ""; url_password := None;
                         url_query := None; url_fragment := None; url_path := "/";
                         url_origin := GITHUB_ISSUER; url_as_str := s |};
  b64url_encode := of_bytes;
  b64url_decode s := Some (bytes s);
  hmac_sha256 key data := Some (pad_to 32 (key ++ data));
  json_from_slice _ := None;
  decode_header token := if String.eqb token "jwt" then Some (RS256, Some "k1") else None;
  jwt_decode token n e aud iss :=
    if String.eqb token "jwt" && String.eqb n "n1" && String.eqb aud sample_audience
       && String.eqb iss GITHUB_ISSUER
    then Some sample_payload else None;
|}.

#[export] Instance sample_crates_laws : FederationLaws sample_crates.
Proof. split. cbn. intros. repeat case_match; congruence. Qed.

#[local] Existing Instance toy_primitives.

(** No custom trust roots. *)
#[export] Instance no_files : CaFiles := {|
  geteuid := 0; open_root := None; openat _ _ _ := None; metadata _ := None;
  metadata_after _ := None; read_up_to _ _ := None; parse_x509_pem _ := None;
  parse_x509_certificate _ := None; certificate_from_der _ := None;
|}.

Definition github_rule (repository : N) : ProviderRule :=
  {| pr_id := if (repository =? 11)%N then "release" else "docs"; pr_subject := "ci.release"; pr_audience := "broker-1";
     pr_operation_profiles := [ArtifactSign]; pr_artifact_sign_key_ids := ["app.sign"];
     pr_max_token_age_secs := 600; pr_clock_skew_secs := 30;
     pr_max_operations_per_run := Some 2%N;
     pr_provider := GithubActions
       {| gr_issuer := GITHUB_ISSUER; gr_discovery_url := GITHUB_ISSUER +:+ "/d";
          gr_jwks_url := GITHUB_ISSUER +:+ "/jwks"; gr_ca_bundle_path := None;
          gr_audience_prefix := AUDIENCE_PREFIX; gr_repository_id := repository;
          gr_repository_owner_id := 12; gr_job_workflow_ref := "w@main";
          gr_job_workflow_sha := "abc"; gr_protected_refs := ["refs/heads/main"];
          gr_events := ["push"]; gr_runner_environments := ["hosted"]; gr_environment := None;
          gr_max_token_age_secs := 600; gr_clock_skew_secs := 30 |} |}.

Definition sample_rules : list ProviderRule := [github_rule 11; github_rule 13].

Definition sample_jwks : GenerationJwks :=
  {| jwks_generation := 4; jwks_keys := [("k1", {| jwk_kid := "k1"; jwk_n := "n1"; jwk_e := "AQAB" |})] |}.

Definition sample_selection : GithubSelection :=
  {| gs_repository_id := 11; gs_repository_owner_id := 12; gs_workflow_ref := "w@main";
     gs_workflow_sha := "abc"; gs_ref_name := "refs/heads/main"; gs_event_name := "push";
     gs_runner_environment := "hosted"; gs_environment := None |}.

Definition sample_provider_catalog : ProviderCatalog :=
  {| catalog_rules := sample_rules;
     resolved_trust := of_entries
       [("release", {| custom_roots := None; pinned_file := None |});
        ("docs", {| custom_roots := None; pinned_file := None |})] |}.

Definition sample_evidence : ProviderClaimEvidence :=
  match verify_claims (pr_provider (github_rule 11)) sample_jwks "jwt" proof_public [] (Some 1010%N) with
  | Ok e => e
  | Err _ => ForgejoActionsEvidence
      {| fe_repository_id := 0; fe_repository_owner_id := 0; fe_repository := ""; fe_actor_id := None;
         fe_workflow_ref := ""; fe_ref_name := ""; fe_ref_type := ""; fe_sha := ""; fe_run_id := 0;
         fe_run_attempt := 0; fe_event_name := ""; fe_jti_digest := []; fe_token_digest := [] |}
  end.

Lemma sample_token_accepted :
  verify_claims (pr_provider (github_rule 11)) sample_jwks "jwt" proof_public [] (Some 1010%N) =
  Ok sample_evidence.
Proof. vm_compute. reflexivity. Qed.

Lemma provider_evidence_sound_witness : evidence_matches sample_evidence (github_rule 11) = true.
Proof.
  apply (provider_evidence_sound (github_rule 11) sample_jwks "jwt" proof_public [] 1010
           sample_evidence sample_token_accepted).
Defined.

Lemma token_authenticates_one_rule_witness :
  github_rule 11 ∈ sample_rules ∧ proof_audience proof_public = proof_audience proof_public.
Proof.
  assert (github_rule 11 ∈ sample_rules) as Hr by left. split; [exact Hr |].
  apply (token_authenticates_one_rule sample_rules [] sample_provider_catalog (github_rule 11)
           (github_rule 11) sample_jwks sample_jwks "jwt" proof_public proof_public [] [] 1010 1010
           sample_evidence sample_evidence).
  - vm_compute. reflexivity.
  - exact Hr.
  - exact Hr.
  - exact sample_token_accepted.
  - exact sample_token_accepted.
Defined.

Definition sample_cache : result FederationError GenerationJwksCache :=
  GenerationJwksCache_new 4 (pr_provider (github_rule 11)) JwksCachePolicy_default.

Lemma cache_serves_newest_witness :
  is_Some (jwks_key sample_jwks "k1").
Proof.
  destruct sample_cache as [c |] eqn:Hc; [| vm_compute in Hc; discriminate Hc].
  apply (cache_serves_newest 4 (pr_provider (github_rule 11)) JwksCachePolicy_default c
           [EvInstall sample_jwks 1000%Z] "k1" 2000%Z sample_jwks Hc).
  vm_compute in Hc. injection Hc as <-. vm_compute. reflexivity.
Defined.
