(* ===== verification/CiAudit.v ===== *)
(** * The terminal audit of a federated invocation
      ([crates/basil-core/src/core/ci_federation_audit.rs])

    [CiInvocationAudit] collects what happens to one request that presents
    provider proof and emits a single event when it is finished or dropped.
    The lifecycle is the cell [option CiInvocationAuditEvent]: [None] once the
    event has been emitted.  [timestamp] is the wall clock of the audit log. *)

From S2P Require Import Prelude RustStr Bytes RunQuota Json CoseTypes CryptoProvider CiFederation.
From S2P Require Import CiVerify.

Inductive CiIdentityState := PresentedUnverified | IdentityVerified.
Inductive CiFreshnessState :=
| FreshnessNotReached | FreshnessAccepted | FreshnessRefused | FreshnessStateUnavailable.
Inductive CiQuotaState :=
| QuotaNotReached | QuotaCharged | QuotaStateExhausted | QuotaStateUntracked
| QuotaStateUnavailable.
Inductive CiAuthorizationState :=
| AuthorizationNotReached | AuthorizationAllowed | AuthorizationDenied.
Inductive CiExecutionState :=
| ExecutionNotReached | ExecutionStarted | ExecutionSucceeded | ExecutionFailed
| ExecutionIndeterminate.
Inductive CiResponseState :=
| ResponseNotReached | ResponseStarted | ResponseSucceeded | ResponseStateFailed
| ResponseIndeterminate.

#[export] Instance CiExecutionState_eq_dec : EqDecision CiExecutionState.
Proof. solve_decision. Defined.
#[export] Instance CiResponseState_eq_dec : EqDecision CiResponseState.
Proof. solve_decision. Defined.

Inductive CiTerminalStage :=
| StageIdentityVerification | StageEnvelopeAuthority | StageFreshness | StageSubjectResolution
| StageQuota | StageRecipientValidation | StageDecryptAuthorization | StageRequestDecryption
| StageOperationValidation | StageSignAuthorization | StageBackendExecution | StageResponseDelivery
| StageComplete.
Inductive CiTerminalOutcome := OutcomeSuccess | OutcomeDenied | OutcomeFailure | OutcomeAborted.
Inductive CiTerminalReason :=
| ReasonCompleted | ReasonIdentityRejected | ReasonEnvelopeRejected | ReasonSubjectRejected
| ReasonFreshnessDenied | ReasonFreshnessUnavailable | ReasonQuotaExhausted | ReasonQuotaUntracked
| ReasonQuotaUnavailable | ReasonDecryptDenied | ReasonRecipientRejected | ReasonDecryptFailed
| ReasonOperationRejected | ReasonSignDenied | ReasonBackendFailed | ReasonResponseFailed
| ReasonAborted.

Record CiVerifiedIdentity := {
  vi_provider : ProviderKind;
  vi_issuer : string;
  vi_rule_id : string;
  vi_subject : string;
  vi_repository_id : N;
  vi_repository_owner_id : N;
  vi_repository : string;
  vi_actor_id : option N;
  vi_workflow_ref : string;
  vi_workflow_sha : option string;
  vi_ref_name : string;
  vi_ref_type : option string;
  vi_sha : option string;
  vi_event_name : string;
  vi_runner_environment : option string;
  vi_environment : option string;
  vi_run_id : N;
  vi_run_attempt : N;
}.

Definition CiVerifiedIdentity_from (e : VerifiedProviderEvidence) : CiVerifiedIdentity :=
  match vpe_claims e with
  | GithubActionsEvidence c =>
      {| vi_provider := vpe_provider e; vi_issuer := vpe_issuer e; vi_rule_id := vpe_rule_id e;
         vi_subject := vpe_subject e; vi_repository_id := ge_repository_id c;
         vi_repository_owner_id := ge_repository_owner_id c; vi_repository := ge_repository c;
         vi_actor_id := ge_actor_id c; vi_workflow_ref := ge_workflow_ref c;
         vi_workflow_sha := Some (ge_workflow_sha c); vi_ref_name := ge_ref_name c;
         vi_ref_type := None; vi_sha := None; vi_event_name := ge_event_name c;
         vi_runner_environment := Some (ge_runner_environment c);
         vi_environment := ge_environment c; vi_run_id := ge_run_id c;
         vi_run_attempt := ge_run_attempt c |}
  | ForgejoActionsEvidence c =>
      {| vi_provider := vpe_provider e; vi_issuer := vpe_issuer e; vi_rule_id := vpe_rule_id e;
         vi_subject := vpe_subject e; vi_repository_id := fe_repository_id c;
         vi_repository_owner_id := fe_repository_owner_id c; vi_repository := fe_repository c;
         vi_actor_id := fe_actor_id c; vi_workflow_ref := fe_workflow_ref c;
         vi_workflow_sha := None; vi_ref_name := fe_ref_name c;
         vi_ref_type := Some (fe_ref_type c); vi_sha := Some (fe_sha c);
         vi_event_name := fe_event_name c; vi_runner_environment := None;
         vi_environment := None; vi_run_id := fe_run_id c; vi_run_attempt := fe_run_attempt c |}
  end.

Record CiInvocationCorrelation := {
  cor_invocation_id : string;
  cor_message_id : option string;
  cor_token_digest : option string;
  cor_jti_digest : option string;
  cor_proof_jkt : option string;
}.

Record CiAcceptedOperation := { ao_profile : ProviderOperationProfile; ao_target : string }.

Record CiQuotaAudit := {
  qa_state : CiQuotaState;
  qa_limit : option N;
  qa_charged_count : option N;
  qa_remaining : option N;
}.

Record CiInvocationAuditEvent := {
  ev_started_at : string;
  ev_occurred_at : string;
  ev_generation : N;
  ev_identity_state : CiIdentityState;
  ev_identity : option CiVerifiedIdentity;
  ev_correlation : CiInvocationCorrelation;
  ev_accepted_operation : option CiAcceptedOperation;
  ev_freshness : CiFreshnessState;
  ev_quota : CiQuotaAudit;
  ev_decrypt_authorization : CiAuthorizationState;
  ev_sign_authorization : CiAuthorizationState;
  ev_backend_execution : CiExecutionState;
  ev_response_delivery : CiResponseState;
  ev_stage : CiTerminalStage;
  ev_outcome : CiTerminalOutcome;
  ev_reason : CiTerminalReason;
}.

(** *** Field updates *)

Definition set_correlation (c : CiInvocationCorrelation) (e : CiInvocationAuditEvent) :=
  {| ev_started_at := ev_started_at e; ev_occurred_at := ev_occurred_at e;
     ev_generation := ev_generation e; ev_identity_state := ev_identity_state e;
     ev_identity := ev_identity e; ev_correlation := c;
     ev_accepted_operation := ev_accepted_operation e; ev_freshness := ev_freshness e;
     ev_quota := ev_quota e; ev_decrypt_authorization := ev_decrypt_authorization e;
     ev_sign_authorization := ev_sign_authorization e;
     ev_backend_execution := ev_backend_execution e;
     ev_response_delivery := ev_response_delivery e; ev_stage := ev_stage e;
     ev_outcome := ev_outcome e; ev_reason := ev_reason e |}.

(** The phases and the stage; the rest of the event is kept. *)
Definition set_phases (freshness : CiFreshnessState) (quota : CiQuotaAudit)
    (decrypt sign : CiAuthorizationState) (execution : CiExecutionState)
    (response : CiResponseState) (stage : CiTerminalStage) (e : CiInvocationAuditEvent) :=
  {| ev_started_at := ev_started_at e; ev_occurred_at := ev_occurred_at e;
     ev_generation := ev_generation e; ev_identity_state := ev_identity_state e;
     ev_identity := ev_identity e; ev_correlation := ev_correlation e;
     ev_accepted_operation := ev_accepted_operation e; ev_freshness := freshness;
     ev_quota := quota; ev_decrypt_authorization := decrypt; ev_sign_authorization := sign;
     ev_backend_execution := execution; ev_response_delivery := response; ev_stage := stage;
     ev_outcome := ev_outcome e; ev_reason := ev_reason e |}.

Definition set_terminal (occurred_at : string) (stage : CiTerminalStage)
    (outcome : CiTerminalOutcome) (reason : CiTerminalReason) (e : CiInvocationAuditEvent) :=
  {| ev_started_at := ev_started_at e; ev_occurred_at := occurred_at;
     ev_generation := ev_generation e; ev_identity_state := ev_identity_state e;
     ev_identity := ev_identity e; ev_correlation := ev_correlation e;
     ev_accepted_operation := ev_accepted_operation e; ev_freshness := ev_freshness e;
     ev_quota := ev_quota e; ev_decrypt_authorization := ev_decrypt_authorization e;
     ev_sign_authorization := ev_sign_authorization e;
     ev_backend_execution := ev_backend_execution e;
     ev_response_delivery := ev_response_delivery e; ev_stage := stage; ev_outcome := outcome;
     ev_reason := reason |}.

(** ** The lifecycle *)

Section lifecycle.
Context `{FC : FederationCrates}.

Definition encode_digest (digest : bytes_) : string := b64url_encode digest.

Definition audit_presented (timestamp : string) (generation : N) (request_digest : bytes_)
    (message_id : option bytes_) : CiInvocationAuditEvent :=
  {| ev_started_at := timestamp; ev_occurred_at := ""; ev_generation := generation;
     ev_identity_state := PresentedUnverified; ev_identity := None;
     ev_correlation :=
       {| cor_invocation_id := encode_digest request_digest;
          cor_message_id := option_map b64url_encode message_id; cor_token_digest := None;
          cor_jti_digest := None; cor_proof_jkt := None |};
     ev_accepted_operation := None; ev_freshness := FreshnessNotReached;
     ev_quota :=
       {| qa_state := QuotaNotReached; qa_limit := None; qa_charged_count := None;
          qa_remaining := None |};
     ev_decrypt_authorization := AuthorizationNotReached;
     ev_sign_authorization := AuthorizationNotReached; ev_backend_execution := ExecutionNotReached;
     ev_response_delivery := ResponseNotReached; ev_stage := StageIdentityVerification;
     ev_outcome := OutcomeAborted; ev_reason := ReasonAborted |}.

Definition audit_proof_key (thumbprint : bytes_) (e : CiInvocationAuditEvent) :=
  let c := ev_correlation e in
  set_correlation
    {| cor_invocation_id := cor_invocation_id c; cor_message_id := cor_message_id c;
       cor_token_digest := cor_token_digest c; cor_jti_digest := cor_jti_digest c;
       cor_proof_jkt := Some (encode_digest thumbprint) |} e.

Definition audit_presented_token (digest : bytes_) (e : CiInvocationAuditEvent) :=
  let c := ev_correlation e in
  set_correlation
    {| cor_invocation_id := cor_invocation_id c; cor_message_id := cor_message_id c;
       cor_token_digest := Some (encode_digest digest); cor_jti_digest := cor_jti_digest c;
       cor_proof_jkt := cor_proof_jkt c |} e.

Definition audit_verified (v : VerifiedProviderEvidence) (e : CiInvocationAuditEvent) :=
  let c := ev_correlation e in
  {| ev_started_at := ev_started_at e; ev_occurred_at := ev_occurred_at e;
     ev_generation := ev_generation e; ev_identity_state := IdentityVerified;
     ev_identity := Some (CiVerifiedIdentity_from v);
     ev_correlation :=
       {| cor_invocation_id := cor_invocation_id c; cor_message_id := cor_message_id c;
          cor_token_digest := Some (encode_digest (evidence_token_digest (vpe_claims v)));
          cor_jti_digest := Some (encode_digest (evidence_jti_digest (vpe_claims v)));
          cor_proof_jkt := cor_proof_jkt c |};
     ev_accepted_operation := ev_accepted_operation e; ev_freshness := ev_freshness e;
     ev_quota :=
       {| qa_state := qa_state (ev_quota e); qa_limit := vpe_max_operations_per_run v;
          qa_charged_count := qa_charged_count (ev_quota e);
          qa_remaining := qa_remaining (ev_quota e) |};
     ev_decrypt_authorization := ev_decrypt_authorization e;
     ev_sign_authorization := ev_sign_authorization e;
     ev_backend_execution := ev_backend_execution e;
     ev_response_delivery := ev_response_delivery e; ev_stage := StageEnvelopeAuthority;
     ev_outcome := ev_outcome e; ev_reason := ev_reason e |}.
End lifecycle.

Definition audit_accepted_operation (target : string) (e : CiInvocationAuditEvent) :=
  {| ev_started_at := ev_started_at e; ev_occurred_at := ev_occurred_at e;
     ev_generation := ev_generation e; ev_identity_state := ev_identity_state e;
     ev_identity := ev_identity e; ev_correlation := ev_correlation e;
     ev_accepted_operation := Some {| ao_profile := ArtifactSign; ao_target := target |};
     ev_freshness := ev_freshness e; ev_quota := ev_quota e;
     ev_decrypt_authorization := ev_decrypt_authorization e;
     ev_sign_authorization := ev_sign_authorization e;
     ev_backend_execution := ev_backend_execution e;
     ev_response_delivery := ev_response_delivery e; ev_stage := StageFreshness;
     ev_outcome := ev_outcome e; ev_reason := ev_reason e |}.

Definition set_freshness (f : CiFreshnessState) (stage : CiTerminalStage)
    (e : CiInvocationAuditEvent) :=
  set_phases f (ev_quota e) (ev_decrypt_authorization e) (ev_sign_authorization e)
    (ev_backend_execution e) (ev_response_delivery e) stage e.
Definition set_stage (stage : CiTerminalStage) (e : CiInvocationAuditEvent) :=
  set_freshness (ev_freshness e) stage e.
Definition set_quota (q : CiQuotaAudit) (stage : CiTerminalStage) (e : CiInvocationAuditEvent) :=
  set_phases (ev_freshness e) q (ev_decrypt_authorization e) (ev_sign_authorization e)
    (ev_backend_execution e) (ev_response_delivery e) stage e.
Definition set_execution (x : CiExecutionState) (stage : CiTerminalStage)
    (e : CiInvocationAuditEvent) :=
  set_phases (ev_freshness e) (ev_quota e) (ev_decrypt_authorization e) (ev_sign_authorization e) x
    (ev_response_delivery e) stage e.
Definition set_response (r : CiResponseState) (stage : CiTerminalStage)
    (e : CiInvocationAuditEvent) :=
  set_phases (ev_freshness e) (ev_quota e) (ev_decrypt_authorization e) (ev_sign_authorization e)
    (ev_backend_execution e) r stage e.

Definition audit_freshness_accepted := set_freshness FreshnessAccepted StageSubjectResolution.
Definition audit_freshness_denied := set_freshness FreshnessRefused StageFreshness.
Definition audit_freshness_unavailable := set_freshness FreshnessStateUnavailable StageFreshness.
Definition audit_subject_resolved := set_stage StageQuota.

Definition audit_quota_charged (r : RunQuotaReceipt) (e : CiInvocationAuditEvent) :=
  set_quota {| qa_state := QuotaCharged; qa_limit := qa_limit (ev_quota e);
               qa_charged_count := Some (charged_count r); qa_remaining := Some (remaining r) |}
    StageDecryptAuthorization e.
Definition audit_quota_denied (s : CiQuotaState) (e : CiInvocationAuditEvent) :=
  set_quota {| qa_state := s; qa_limit := qa_limit (ev_quota e);
               qa_charged_count := qa_charged_count (ev_quota e);
               qa_remaining := qa_remaining (ev_quota e) |} StageQuota e.

Definition authorization_state (allowed : bool) : CiAuthorizationState :=
  if allowed then AuthorizationAllowed else AuthorizationDenied.
Definition audit_decrypt_authorized (allowed : bool) (e : CiInvocationAuditEvent) :=
  set_phases (ev_freshness e) (ev_quota e) (authorization_state allowed) (ev_sign_authorization e)
    (ev_backend_execution e) (ev_response_delivery e)
    (if allowed then StageRequestDecryption else StageDecryptAuthorization) e.
Definition audit_request_decrypted := set_stage StageOperationValidation.
Definition audit_sign_authorized (allowed : bool) (e : CiInvocationAuditEvent) :=
  set_phases (ev_freshness e) (ev_quota e) (ev_decrypt_authorization e) (authorization_state allowed)
    (ev_backend_execution e) (ev_response_delivery e)
    (if allowed then StageBackendExecution else StageSignAuthorization) e.
Definition audit_backend_started := set_execution ExecutionStarted StageBackendExecution.
Definition audit_backend_executed (succeeded : bool) :=
  set_execution (if succeeded then ExecutionSucceeded else ExecutionFailed) StageResponseDelivery.
Definition audit_response_started := set_response ResponseStarted StageResponseDelivery.
Definition audit_response_delivered (succeeded : bool) :=
  set_response (if succeeded then ResponseSucceeded else ResponseStateFailed)
    (if succeeded then StageComplete else StageResponseDelivery).

(** The cell: [None] once the event has been emitted. *)
Definition CiInvocationAudit : Type := option CiInvocationAuditEvent.

(** [finish]: the event it emits and the cell it leaves. *)
Definition audit_finish (timestamp : string) (stage : CiTerminalStage)
    (outcome : CiTerminalOutcome) (reason : CiTerminalReason) (a : CiInvocationAudit)
    : option CiInvocationAuditEvent * CiInvocationAudit :=
  (option_map (set_terminal timestamp stage outcome reason) a, None).

(** [Drop]: an operation still in flight becomes indeterminate. *)
Definition audit_drop (timestamp : string) (a : CiInvocationAudit)
    : option CiInvocationAuditEvent :=
  option_map
    (λ e,
       let execution :=
         if bool_decide (ev_backend_execution e = ExecutionStarted) then ExecutionIndeterminate
         else ev_backend_execution e in
       let response :=
         if bool_decide (ev_response_delivery e = ResponseStarted) then ResponseIndeterminate
         else ev_response_delivery e in
       set_terminal timestamp (ev_stage e) OutcomeAborted ReasonAborted
         (set_phases (ev_freshness e) (ev_quota e) (ev_decrypt_authorization e)
            (ev_sign_authorization e) execution response (ev_stage e) e))
    a.
