(* ===== verification/CustodyProofs.v ===== *)
(** * Software custody: correctness

    Provider selection, what a custody record must agree with, and the life of
    a software-custodied key against a backend with a versioned KV store and
    an AEAD: provision, then sign and verify, or unwrap. *)

From stdpp Require Import pretty.
From S2P Require Import Prelude RustStr Bytes RustCrypto LocalCrypto Schema Backend CryptoProvider.

(** ** Selection *)

(** Provider selection is exact.  The local-software provider is chosen
    only for a caller with the software-custody grant and a key recorded under
    software custody, and only when the key's policy allows it; the backend is
    chosen only when it natively supports the algorithm, and never for a
    backend-preferred key that is already under software custody. *)
Theorem select_provider_exact m native allowed op p :
  select_provider m native allowed op = Ok p ↔
  match p with
  | LocalSoftware =>
      allowed = true ∧ pm_custody m = Some SoftwareEncrypted ∧ pm_policy m ≠ BackendRequired
  | VaultTransit =>
      native = true ∧ (pm_policy m = BackendRequired ∨
        pm_policy m = BackendPreferred ∧ pm_custody m ≠ Some SoftwareEncrypted)
  end.
Proof.
  unfold select_provider, select_backend_required, select_backend_preferred,
    select_local_software, require_local_software_allowed, require_software_custody.
  destruct m as [pr [] [[] |]], native, allowed, p; simpl; naive_solver.
Qed.

(** ** Records *)

Section records.
Context `{CC : CustodyCodec}.

(** A custody record is used only if every field agrees with the catalog
    and the KV version it was read at: the key id, algorithm, provider, its
    version, custody mode and, above all, the wrapping key, so that a swapped
    record cannot redirect the unwrap to another AEAD key; the additional
    data handed to the unwrap binds the same fields. *)
Theorem parse_for_local_software_binds json key_id algorithm version kv storage m :
  parse_for_local_software json key_id algorithm version kv storage = Ok m →
  ∃ r, record_from_json json = Some r ∧
    sr_schema_version r = SCHEMA_VERSION ∧ sr_key_id r = key_id ∧ sr_key_version r = kv ∧
    sr_algorithm r = algorithm ∧ sr_provider r = CryptoProviderId_token LocalSoftware ∧
    sr_provider_version r = version ∧ sr_custody r = CustodyMode_token SoftwareEncrypted ∧
    ep_wrapping_key (sr_encrypted_private_key r) = storage ∧
    ep_key_version (sr_encrypted_private_key r) ≠ 0%N ∧
    encrypted_private_key r = Ok (lm_ciphertext m) ∧ lm_storage_key m = storage ∧
    b64_decode (sr_public_key r) = Some (lm_public_key m) ∧ lm_key_version m = kv ∧
    lm_aad m = custody_aad (local_catalog key_id algorithm version storage) kv.
Proof.
  unfold parse_for_local_software, decode_b64. intros Hp.
  destruct (record_from_json json) as [r |] eqn:Er; [| done]. simpl in Hp. inv_ok Hp.
  match goal with H : validate_metadata _ _ _ = Ok _ |- _ =>
    unfold validate_metadata in H; inv_ok H end.
  bool_facts. simpl in *. subst. exists r. split_and!; try done.
  by destruct (b64_decode (sr_public_key r)); simplify_eq/=.
Qed.
End records.

(** ** The life of a key *)

(** What the custody paths rely on of a backend: a KV store that returns the
    last version written, numbered from one, and an AEAD under a named key
    whose ciphertexts open under the additional data they were sealed with;
    sealing, reading and drawing randomness do not disturb either. *)
Class CustodyBackend {S} (w : World S) := {
  kv_at : S → string → string → option KvValue;
  opens : S → string → string → CiphertextEnvelope → option bytes_ → bytes_ → Prop;
  kv_get_law b p s :
    answer w b (kv_get p None) s =
      (match kv_at s b p with Some v => Ok v | None => Err (KeyNotFound p) end, s);
  kv_put_law b p v s : ∃ s',
    let n := match kv_at s b p with Some old => (kv_version old + 1)%N | None => 1%N end in
    answer w b (kv_put p v) s = (Ok n, s') ∧
    kv_at s' b p = Some {| kv_value := v; kv_version := n |} ∧
    ∀ b' k e aad m, opens s b' k e aad m → opens s' b' k e aad m;
  encrypt_law b k alg m aad s : ∃ e s',
    answer w b (encrypt k alg m aad) s = (Ok e, s') ∧ ce_alg e = alg ∧ ce_key_version e ≠ 0%N ∧
    opens s' b k e aad m ∧ ∀ b' p, kv_at s' b' p = kv_at s b' p;
  decrypt_law b k e aad m s : opens s b k e aad m → answer w b (decrypt k e aad) s = (Ok m, s);
  random_law n s : ∃ x s', random w n s = (x, s') ∧ length x = n ∧
    (∀ b p, kv_at s' b p = kv_at s b p) ∧
    (∀ b k e aad m, opens s b k e aad m → opens s' b k e aad m);
}.

Section life.
Context `{RC : RustCrypto} `{!RustCryptoLaws RC} `{CC : CustodyCodec} `{!CustodyCodecLaws CC}.
Context {S : Type} (w : World S) `{CB : !CustodyBackend w}.

(** The record at [path] is a usable custody record of [seed]. *)
Definition custodied (s : S) (p : LocalSoftwareProvider) (key_id path algorithm storage : string)
    (seed public : bytes_) : Prop :=
  ∃ kv m, kv_at s (lp_backend p) path = Some kv ∧
    parse_for_local_software (kv_value kv) key_id algorithm (lp_provider_version p)
      (kv_version kv) storage = Ok m ∧
    lm_public_key m = public ∧ lm_storage_key m = storage ∧
    opens s (lp_backend p) storage (lm_ciphertext m) (Some (lm_aad m)) seed.

Lemma run_backend_op {R} b (c : BackendCall R) s r s' :
  answer w b c s = (r, s') → run w (backend_op b c) s = (map_err ProviderBackend r, s').
Proof. intros H. unfold backend_op, pmap_err. cbn. by rewrite H. Qed.

(** Reading the material of a custodied key and unwrapping its seed. *)
Lemma run_material s p key_id path algorithm storage seed public op :
  custodied s p key_id path algorithm storage seed public →
  ∃ m, run w (material p key_id path (Some storage) op algorithm) s = (Ok m, s) ∧
       lm_public_key m = public ∧ run w (materialize_seed p m) s = (Ok seed, s).
Proof.
  intros (kv & m & Hkv & Hp & Hpub & Hst & Ho). exists m. split_and!; [| done |].
  - unfold material. rewrite (run_ebind_Ok _ _ _ _ storage s) by done.
    rewrite (run_ebind_Ok _ _ _ _ kv s).
    + simpl. by rewrite Hp.
    + rewrite (run_backend_op _ _ _ (Ok kv) s); [done |]. by rewrite kv_get_law, Hkv.
  - unfold materialize_seed. rewrite Hst.
    rewrite (run_backend_op _ _ _ (Ok seed) s); [done |]. by apply decrypt_law.
Qed.

(** A first write stores a usable record. *)
Lemma run_seal_and_store s p q seed public :
  kv_at s (lp_backend p) (spm_backend_path q) = None → public ≠ [] →
  ∃ s', run w (seal_and_store p q seed public) s =
          (Ok {| nk_key_id := spm_key_id q; nk_public_key := public |}, s') ∧
    custodied s' p (spm_key_id q) (spm_backend_path q) (spm_algorithm_token q)
      (spm_storage_key q) seed public.
Proof.
  intros Hnone Hpub. unfold seal_and_store.
  set (cat := local_catalog _ _ _ _).
  destruct (encrypt_law (lp_backend p) (spm_storage_key q) AeadAes256Gcm_ seed
    (Some (custody_aad cat RECORD_VERSION)) s) as (e & s1 & He & Halg & Hver & Hop & Hkv).
  rewrite (run_ebind_Ok _ _ _ _ e s1) by by apply run_backend_op with (r := Ok e).
  set (record := {| sr_schema_version := _ |}).
  destruct (record_roundtrip record) as (json & Hj & Hr). rewrite Hj.
  rewrite (run_ebind_Ok _ _ _ _ json s1) by done.
  destruct (kv_put_law (lp_backend p) (spm_backend_path q) json s1) as (s2 & Hput & Hat & Hpres).
  rewrite Hkv, Hnone in Hput, Hat.
  rewrite (run_ebind_Ok _ _ _ _ 1%N s2) by by apply run_backend_op with (r := Ok 1%N).
  exists s2. split; [done |].
  eexists _, {| lm_ciphertext := e; lm_aad := custody_aad cat 1; lm_storage_key := spm_storage_key q;
                lm_public_key := public; lm_key_version := 1 |}.
  split_and!; [exact Hat | | done | done | by apply Hpres].
  unfold parse_for_local_software. simpl. rewrite Hr. simpl.
  unfold validate_metadata, encrypted_private_key, decode_b64. simpl.
  rewrite !String.eqb_refl, !b64_roundtrip. simpl.
  destruct (String.eqb_spec (b64_encode public) "") as [Hb |]; [by apply b64_nonempty in Hb |].
  destruct (N.eqb_spec (ce_key_version e) 0); [done |]. simpl. rewrite Halg. simpl.
  destruct e; simpl in *. by subst.
Qed.

Lemma custodied_draw s n p key_id path algorithm storage seed public :
  custodied s p key_id path algorithm storage seed public →
  ∃ x s', random w n s = (x, s') ∧ length x = n ∧
    custodied s' p key_id path algorithm storage seed public.
Proof.
  intros (kv & m & Hkv & Hp & Hpub & Hst & Ho).
  destruct (random_law n s) as (x & s' & Hr & Hx & Hk & Hop). exists x, s'. split_and!; try done.
  exists kv, m. rewrite Hk. split_and!; auto.
Qed.

(** Provisioning an ML-KEM or ML-DSA key at a path never written before. *)
Lemma run_generate_sealing s p r storage :
  kv_at s (lp_backend p) (gs_backend_path r) = None → gs_storage_key r = Some storage →
  ∃ seed s1, length seed = KEM_SEED_LEN ∧
    run w (local_generate_sealing_key p r) s =
      (Ok {| nk_key_id := gs_key_id r;
             nk_public_key := kem_public (kem_params (gs_algorithm r)) seed |}, s1) ∧
    custodied s1 p (gs_key_id r) (gs_backend_path r) (KemAlgorithm_token (gs_algorithm r)) storage
      seed (kem_public (kem_params (gs_algorithm r)) seed).
Proof.
  intros Hnone Hst. unfold local_generate_sealing_key. rewrite Hst.
  rewrite (run_ebind_Ok _ _ _ _ storage s) by done.
  destruct (random_law KEM_SEED_LEN s) as (seed & s0 & Hr & Hl & Hkv & _).
  rewrite (run_draw _ _ _ _ _ _ Hr).
  rewrite (run_ebind_Ok _ _ _ _ (kem_public (kem_params (gs_algorithm r)) seed) s0).
  2: { simpl. unfold ml_kem_public_from_seed. by rewrite (seed_len_ok _ Hl). }
  match goal with |- context [seal_and_store p ?q] =>
    destruct (run_seal_and_store s0 p q seed (kem_public (kem_params (gs_algorithm r)) seed))
      as (s1 & Hs & Hc) end; [by rewrite Hkv | apply kem_public_nonempty |].
  exists seed, s1. split_and!; done.
Qed.

Lemma run_generate_signing s p r alg storage :
  kv_at s (lp_backend p) (gk_backend_path r) = None → gk_storage_key r = Some storage →
  ml_dsa_algorithm (gk_algorithm r) = Some alg →
  ∃ seed s1, length seed = DSA_SEED_LEN ∧
    run w (local_generate_key p r) s =
      (Ok {| nk_key_id := gk_key_id r; nk_public_key := dsa_public (dsa_params alg) seed |}, s1) ∧
    custodied s1 p (gk_key_id r) (gk_backend_path r) (MlDsaAlgorithm_token alg) storage seed
      (dsa_public (dsa_params alg) seed).
Proof.
  intros Hnone Hst Halg. unfold local_generate_key. rewrite Hst, Halg.
  rewrite (run_ebind_Ok _ _ _ _ alg s) by done. rewrite (run_ebind_Ok _ _ _ _ storage s) by done.
  destruct (random_law DSA_SEED_LEN s) as (seed & s0 & Hr & Hl & Hkv & _).
  rewrite (run_draw _ _ _ _ _ _ Hr).
  rewrite (run_ebind_Ok _ _ _ _ (dsa_public (dsa_params alg) seed) s0).
  2: { simpl. unfold ml_dsa_public_from_seed, signing_key_from_seed. by rewrite Hl. }
  match goal with |- context [seal_and_store p ?q] =>
    destruct (run_seal_and_store s0 p q seed (dsa_public (dsa_params alg) seed))
      as (s1 & Hs & Hc) end; [by rewrite Hkv | apply dsa_public_nonempty |].
  exists seed, s1. split_and!; done.
Qed.

(** Signing with a custodied key, and verifying against the recorded half. *)
Lemma run_local_sign s p r alg storage seed public sig :
  ml_dsa_algorithm (sq_algorithm r) = Some alg → sq_storage_key r = Some storage →
  custodied s p (sq_key_id r) (sq_backend_path r) (MlDsaAlgorithm_token alg) storage seed public →
  ml_dsa_sign alg seed (sq_message r) = Ok sig →
  run w (local_sign p r) s = (Ok sig, s).
Proof.
  intros Halg Hst Hc Hsig. unfold local_sign. rewrite Halg, Hst.
  rewrite (run_ebind_Ok _ _ _ _ alg s) by done.
  destruct (run_material s p _ _ _ _ _ _ "sign" Hc) as (m & Hm & _ & Hseed).
  rewrite (run_ebind_Ok _ _ _ _ m s) by done. rewrite (run_ebind_Ok _ _ _ _ seed s) by done.
  simpl. by rewrite Hsig.
Qed.

Lemma run_local_verify s p r alg storage seed public ok :
  ml_dsa_algorithm (vq_algorithm r) = Some alg → vq_storage_key r = Some storage →
  custodied s p (vq_key_id r) (vq_backend_path r) (MlDsaAlgorithm_token alg) storage seed public →
  ml_dsa_verify alg public (vq_message r) (vq_signature r) = Ok ok →
  run w (local_verify p r) s = (Ok ok, s).
Proof.
  intros Halg Hst Hc Hv. unfold local_verify. rewrite Halg, Hst.
  rewrite (run_ebind_Ok _ _ _ _ alg s) by done.
  destruct (run_material s p _ _ _ _ _ _ "verify" Hc) as (m & Hm & Hp & _).
  rewrite (run_ebind_Ok _ _ _ _ m s) by done. simpl. by rewrite Hp, Hv.
Qed.

(** Opening an envelope addressed to a custodied key. *)
Lemma run_local_unwrap s p r storage seed public plaintext :
  uq_storage_key r = Some storage → length (uq_nonce r) = KEM_NONCE_LEN →
  custodied s p (uq_key_id r) (uq_backend_path r) (KemAlgorithm_token (uq_kem_algorithm r)) storage
    seed public →
  ml_kem_open seed
    {| mk_kem_algorithm := uq_kem_algorithm r; mk_envelope_algorithm := uq_envelope_algorithm r;
       mk_encapsulated_key := uq_encapsulated_key r; mk_nonce := uq_nonce r;
       mk_ciphertext := uq_ciphertext r |} (default [] (uq_aad r)) = Ok plaintext →
  run w (local_unwrap_envelope p r) s = (Ok plaintext, s).
Proof.
  intros Hst Hn Hc Ho. unfold local_unwrap_envelope. rewrite Hst.
  destruct (run_material s p _ _ _ _ _ _ "unwrap_envelope" Hc) as (m & Hm & _ & Hseed).
  rewrite (run_ebind_Ok _ _ _ _ m s) by done. rewrite (run_ebind_Ok _ _ _ _ seed s) by done.
  unfold ml_kem_envelope_from_parts. rewrite Hn.
  erewrite run_ebind_Ok by done. simpl. by rewrite Ho.
Qed.

Lemma ml_dsa_signs_verifies alg seed m :
  length seed = DSA_SEED_LEN →
  ∃ sig, ml_dsa_sign alg seed m = Ok sig ∧
         ml_dsa_verify alg (dsa_public (dsa_params alg) seed) m sig = Ok true.
Proof.
  intros Hl. unfold ml_dsa_sign, ml_dsa_verify, signing_key_from_seed. rewrite Hl. simpl.
  destruct (dsa_signs (dsa_params alg) seed m) as [sig Hs]. rewrite Hs. exists sig.
  split; [done |]. destruct (dsa_correct _ _ _ _ Hs) as (-> & -> & ->). done.
Qed.

(** Provisioning again over an existing record: the new record claims
    version one but is stored at a later version, which no use accepts. *)
Lemma run_seal_and_store_again s p q seed public old :
  kv_at s (lp_backend p) (spm_backend_path q) = Some old → (1 <= kv_version old)%N →
  ∃ s', run w (seal_and_store p q seed public) s =
          (Ok {| nk_key_id := spm_key_id q; nk_public_key := public |}, s') ∧
    ∀ key_id storage op algorithm,
      run w (material p key_id (spm_backend_path q) (Some storage) op algorithm) s' =
        (Err (failed op algorithm "malformed software-custody record"), s').
Proof.
  intros Hold Hv. unfold seal_and_store. set (cat := local_catalog _ _ _ _).
  destruct (encrypt_law (lp_backend p) (spm_storage_key q) AeadAes256Gcm_ seed
    (Some (custody_aad cat RECORD_VERSION)) s) as (e & s1 & He & _ & _ & _ & Hkv).
  rewrite (run_ebind_Ok _ _ _ _ e s1) by by apply run_backend_op with (r := Ok e).
  set (record := {| sr_schema_version := _ |}).
  destruct (record_roundtrip record) as (json & Hj & Hr). rewrite Hj.
  rewrite (run_ebind_Ok _ _ _ _ json s1) by done.
  destruct (kv_put_law (lp_backend p) (spm_backend_path q) json s1) as (s2 & Hput & Hat & _).
  rewrite Hkv, Hold in Hput, Hat. set (n := (kv_version old + 1)%N) in *.
  rewrite (run_ebind_Ok _ _ _ _ n s2) by by apply run_backend_op with (r := Ok n).
  exists s2. split; [done |]. intros key_id storage op algorithm. unfold material.
  rewrite (run_ebind_Ok _ _ _ _ storage s2) by done.
  rewrite (run_ebind_Ok _ _ _ _ {| kv_value := json; kv_version := n |} s2).
  2: { rewrite (run_backend_op _ _ _ (Ok {| kv_value := json; kv_version := n |}) s2); [done |].
    by rewrite kv_get_law, Hat. }
  assert ((sr_key_version record =? n)%N = false) as Hne.
  { apply N.eqb_neq. simpl. unfold RECORD_VERSION, n. lia. }
  cbn [run lift kv_value kv_version]. unfold parse_for_local_software. rewrite Hr.
  cbn [ok_or]. unfold validate_metadata. rewrite Hne.
  destruct (negb (sr_schema_version record =? SCHEMA_VERSION)%N); [done |].
  by destruct (negb (String.eqb (sr_key_id record) _)).
Qed.
End life.
