(* ===== verification/Xkey.v ===== *)
(** * NATS curve keys ([crates/basil-nats/src/lib.rs])

    The xkey authenticated box: [xkv1], a 24-byte nonce and an
    XSalsa20-Poly1305 ciphertext under the HSalsa20 of the X25519 shared
    secret.  [salsa20], [crypto_secretbox] and [data_encoding] are
    third-party: the class [NatsBox]. *)

From S2P Require Import Prelude RustStr Bytes Nkey CoseTypes.

Definition XKEY_VERSION_V1 : bytes_ := bytes "xkv1".
Definition XKEY_NONCE_LEN : nat := 24.
Definition XKEY_TAG_LEN : nat := 16.

Inductive XKeyError :=
| XNkey (e : NkeyError)
| UnexpectedXKeyPrefix (actual : NkeyType)
| BadXKeyVersion
| BadXKeyCiphertextLen (n : nat)
| XKeyRandomnessFailed
| XKeySealFailed
| XKeyOpenFailed.

Class NatsBox := {
  base32_nopad_decode : string → option bytes_;
  (** [hsalsa::<U10>(key, [0; 16])]. *)
  hsalsa : bytes_ → bytes_;
  (** [XSalsa20Poly1305]: key, nonce, input. *)
  secretbox_encrypt : bytes_ → bytes_ → bytes_ → option bytes_;
  secretbox_decrypt : bytes_ → bytes_ → bytes_ → option bytes_;
}.

Class NatsBoxLaws `(NB : NatsBox) := {
  secretbox_opens k n m c : secretbox_encrypt k n m = Some c → secretbox_decrypt k n c = Some m;
  secretbox_length k n m c :
    secretbox_encrypt k n m = Some c → length c = (length m + XKEY_TAG_LEN)%nat;
}.

Section xkey.
Context `{HP : Primitives} `{NB : NatsBox}.

Definition decode_xkey_public (nkey : string) : result XKeyError bytes_ :=
  let? (actual, key) := map_err XNkey (decode_public base32_nopad_decode nkey) in
  return_err (UnexpectedXKeyPrefix actual) when negb (bool_decide (actual = Curve)) otherwise
  Ok key.

Inductive BoxMode := BoxSeal | BoxOpen.

Definition nats_box_key (shared : bytes_) : bytes_ := hsalsa shared.

Definition box_crypt (private peer_public nonce input : bytes_) (mode : BoxMode)
    : result XKeyError bytes_ :=
  let shared := diffie_hellman private peer_public in
  if negb (was_contributory shared) then
    match mode with BoxSeal => Err XKeySealFailed | BoxOpen => Err XKeyOpenFailed end
  else
    let key := nats_box_key shared in
    match mode with
    | BoxSeal => ok_or XKeySealFailed (secretbox_encrypt key nonce input)
    | BoxOpen => ok_or XKeyOpenFailed (secretbox_decrypt key nonce input)
    end.

(** [rng] is the nonce drawn, [None] when drawing fails. *)
Definition seal_nats_curve (sender_private : bytes_) (recipient_public_xkey : string)
    (plaintext : bytes_) (rng : option bytes_) : result XKeyError bytes_ :=
  let? recipient_public := decode_xkey_public recipient_public_xkey in
  let? nonce := ok_or XKeyRandomnessFailed rng in
  let? ciphertext := box_crypt sender_private recipient_public nonce plaintext BoxSeal in
  Ok (XKEY_VERSION_V1 ++ nonce ++ ciphertext).

Definition open_nats_curve (recipient_private : bytes_) (sender_public_xkey : string)
    (ciphertext : bytes_) : result XKeyError bytes_ :=
  let? sender_public := decode_xkey_public sender_public_xkey in
  let? rest := ok_or BadXKeyVersion (strip_bytes XKEY_VERSION_V1 ciphertext) in
  return_err (BadXKeyCiphertextLen (length ciphertext))
    when (length rest <? XKEY_NONCE_LEN + XKEY_TAG_LEN)%nat otherwise
  box_crypt recipient_private sender_public (take XKEY_NONCE_LEN rest) (drop XKEY_NONCE_LEN rest)
    BoxOpen.

(** A box sealed to a recipient opens under the recipient's key and the
    sender's public key, of any length the box itself allows, the empty
    plaintext included. *)
Lemma nats_curve_roundtrip `{!NatsBoxLaws NB} sender recipient sender_x recipient_x m nonce c :
  (∀ a b, diffie_hellman a (x25519_public b) = diffie_hellman b (x25519_public a)) →
  decode_xkey_public sender_x = Ok (x25519_public sender) →
  decode_xkey_public recipient_x = Ok (x25519_public recipient) →
  length nonce = XKEY_NONCE_LEN →
  seal_nats_curve sender recipient_x m (Some nonce) = Ok c →
  open_nats_curve recipient sender_x c = Ok m.
Proof.
  intros Hdh Hs Hr Hn. unfold seal_nats_curve, open_nats_curve, box_crypt. rewrite Hs, Hr.
  cbn [ok_or]. rewrite (Hdh sender recipient). intros Hseal. inv_ok Hseal.
  destruct (negb _) eqn:Hc; [done |].
  destruct (secretbox_encrypt _ _ _) as [body |] eqn:Ee; [| done]. injection E as ->.
  rewrite (proj2 (strip_bytes_Some XKEY_VERSION_V1 _ (nonce ++ value))) by reflexivity.
  cbn [ok_or]. rewrite length_app, Hn, (secretbox_length _ _ _ _ Ee).
  destruct (Nat.ltb_spec (XKEY_NONCE_LEN + (length m + XKEY_TAG_LEN))
    (XKEY_NONCE_LEN + XKEY_TAG_LEN)); [lia |].
  rewrite <- Hn, take_app_length, drop_app_length. by rewrite (secretbox_opens _ _ _ _ Ee).
Qed.
End xkey.
