(* ===== verification/Manager.v ===== *)
(** * The backend manager ([crates/basil-core/src/core/manager.rs])

    Per-key routing: a dotted catalog name resolves to its entry, its backend
    declaration and the backend instance; every operation checks that it is
    defined on the key's class and then calls that backend at the key's path.
    The operations are programs over [BackendCall]; the private key of a
    materialize-to-use key is read inside the operation that uses it.

    The [step] and [age] tools are parameters; a failing system random source
    is not modelled.  The version limits of [state.rs] are here too. *)

From S2P Require Import Prelude RustStr Bytes BTreeMap Nkey RustCrypto CoseTypes Cbor CoseCodec.
From S2P Require Import CoseProfile LocalCrypto Xkey Schema Backend CryptoProvider.

(** ** Errors *)

Inductive SealingFailure := SealingMalformed | SealingOpenFailed.
Inductive SigningFailure := SigningMalformed.

Inductive ManagerError :=
| UnknownKey (key : string)
| UnknownBackend (key backend : string)
| OpNotValidForClass (op key : string) (class : Class_)
| KeyTypeUnsupported (backend op : string) (t : KeyType)
| ManagerUnsupported (op : string)
| AeadMismatch (key : string) (requested : AeadAlgorithm) (actual : string)
| KemAlgorithmMismatch (key requested actual : string)
| ValueRotateNeedsSet (key : string)
| NixCacheEnrollmentError (key reason : string)
| NixCacheRotationForbidden (key : string)
| Sealing_ (f : SealingFailure)
| UnsealContextNotPermitted (key : string)
| Signing (f : SigningFailure)
| MissingPublicPath (key : string)
| Provider (e : ProviderError)
| MBackend (e : BackendError).

Definition from_seal (e : SealError) : SealingFailure :=
  match e with
  | BoxOpenFailed => SealingOpenFailed
  | BadKeyLength _ _ | BadNonceLength _ _ | SealKdfFailed | BoxSealFailed => SealingMalformed
  end.

Definition from_cose_open (e : OpenError) : SealingFailure :=
  match e with
  | OpenFailed => SealingOpenFailed
  | OpenDecode _ | RecipientKeyMismatch | PartyMismatch | OpenProvider _ => SealingMalformed
  end.

Definition nats_curve_error (e : XKeyError) : ManagerError :=
  Sealing_ (match e with
            | XKeyOpenFailed => SealingOpenFailed
            | XNkey _ | UnexpectedXKeyPrefix _ | BadXKeyVersion | BadXKeyCiphertextLen _
            | XKeyRandomnessFailed | XKeySealFailed => SealingMalformed
            end).

Definition from_sign (e : EdSignError) : SigningFailure :=
  match e with EdBadSeedLength _ _ | BadFieldLength _ _ _ => SigningMalformed end.

(** ** Types *)

Record ProviderGate := { local_software_allowed : bool }.

Record ProviderDispatch := {
  pd_provider : CryptoProviderId;
  pd_algorithm : string;
  pd_custody : CustodyMode;
}.

Record KeyProviderDescriptor := {
  kd_policy : ProviderPolicy;
  kd_provider : option CryptoProviderId;
  kd_custody : option CustodyMode;
  kd_version : option string;
  kd_backend_native_available : bool;
}.

Record MlKemEnvelopeParts := {
  mp_encapsulated_key : bytes_;
  mp_nonce : bytes_;
  mp_ciphertext : bytes_;
}.

Record BrokerLimits := {
  max_encrypt_size : N;
  max_payload_size : N;
  grace_versions : N;
  svid_ttl_secs : N;
  retain_versions : option N;
}.

(** [saturating_sub] is [N]'s subtraction. *)
Definition grace_floor (l : BrokerLimits) (latest : N) : N :=
  let floor := (latest - grace_versions l)%N in
  if (floor <? 1)%N then 1%N else floor.

Definition retention_floor (l : BrokerLimits) (latest : N) : option N :=
  match retain_versions l with
  | Some retain =>
      let floor := (latest - retain)%N in
      Some (if (floor <? 1)%N then 1%N else floor)
  | None => None
  end.

Inductive CatalogKind := KindSigning | KindValue | KindEncryption.

Record WireCatalogEntry := {
  wc_name : string;
  wc_kind : CatalogKind;
  wc_key_type : option KeyType;
  wc_latest_version : N;
}.

Inductive NixCacheEnrollmentDisposition := Created | Existing.

Record NixCacheEnrollment := {
  ne_key_name : string;
  ne_public_key : bytes_;
  ne_backend_version : N;
  ne_disposition : NixCacheEnrollmentDisposition;
}.

Record NixCacheDescription := {
  nd_key_name : string;
  nd_public_key : bytes_;
  nd_backend_version : N;
}.

Record NixCacheSignature := { ns_identity : NixCacheDescription; ns_signature : bytes_ }.

Record GeneratedWrite := { gw_key_id : string; gw_value : bytes_ }.

(** ** Routing *)

Record BackendManager := {
  catalog : Catalog;
  instances : list (string * BackendInfo);
}.

Definition BackendManager_new (c : Catalog) (b : list (string * BackendInfo))
    : result ManagerError BackendManager :=
  let? _ :=
    check_each (λ '(name, entry),
      return_err (UnknownBackend name (backend entry)) when
        match get b (backend entry) with None => true | Some _ => false end otherwise Ok tt)
      (keys_ c) in
  Ok {| catalog := c; instances := b |}.

Record Routed := {
  r_name : string;
  r_backend : BackendInfo;
  r_entry : KeyEntry;
  r_backend_ref : BackendRef;
  r_engine : Engine;
}.

Definition r_path (r : Routed) : string := path (r_entry r).
Definition r_public_path (r : Routed) : option string := public_path (r_entry r).
Definition r_class (r : Routed) : Class_ := class (r_entry r).
Definition r_key_type (r : Routed) : option KeyAlgorithm := key_type (r_entry r).

Definition backend_declares_provides (r : Routed) : bool :=
  negb ((match engines (r_backend_ref r) with [] => true | _ => false end)
        && (match capabilities (r_backend_ref r) with [] => true | _ => false end)
        && (match mint_key_types (r_backend_ref r) with [] => true | _ => false end)).

Definition require_mint_key_type (r : Routed) (op : string) (t : KeyType)
    : result ManagerError unit :=
  let algorithm := from_wire_key_type t in
  if negb (backend_declares_provides r)
     || bool_decide (algorithm ∈ mint_key_types (r_backend_ref r))
  then Ok tt
  else Err (KeyTypeUnsupported (backend (r_entry r)) op t).

Definition resolve (m : BackendManager) (key_id : string) : result ManagerError Routed :=
  let? entry := ok_or (UnknownKey key_id) (get (keys_ (catalog m)) key_id) in
  let? backend_ref :=
    ok_or (UnknownBackend key_id (backend entry)) (get (backends (catalog m)) (backend entry)) in
  let? info :=
    ok_or (UnknownBackend key_id (backend entry)) (get (instances m) (backend entry)) in
  Ok {| r_name := backend entry; r_backend := info; r_entry := entry;
        r_backend_ref := backend_ref; r_engine := effective_engine entry |}.

(** ** Guards *)

Definition require_class (op key_id : string) (c : Class_) (allowed : list Class_)
    : result ManagerError unit :=
  if bool_decide (c ∈ allowed) then Ok tt else Err (OpNotValidForClass op key_id c).

Definition require_x25519_sealing_key (key_id : string) (actual : option KeyAlgorithm)
    : result ManagerError unit :=
  match actual with
  | Some X25519 => Ok tt
  | Some other => Err (KemAlgorithmMismatch key_id "x25519" (KeyAlgorithm_token other))
  | None => Err (KemAlgorithmMismatch key_id "x25519" "none")
  end.

Definition ml_kem_provider_algorithm (a : KeyAlgorithm) : option KemAlgorithm :=
  match a with
  | MlKem512 => Some AlgMlKem512
  | MlKem768 => Some AlgMlKem768
  | MlKem1024 => Some AlgMlKem1024
  | Ed25519 | Ed25519Nkey | Rsa2048 | EcdsaP256 | EcdsaP384 | EcdsaP521 | Aes256Gcm
  | ChaCha20Poly1305 | X25519 | MlDsa44 | MlDsa65 | MlDsa87 => None
  end.

Definition require_ml_kem_sealing_key (key_id : string) (actual : option KeyAlgorithm)
    (requested : KemAlgorithm) : result ManagerError unit :=
  let expected :=
    match requested with
    | AlgMlKem512 => MlKem512 | AlgMlKem768 => MlKem768 | AlgMlKem1024 => MlKem1024
    end in
  match actual with
  | Some found =>
      if bool_decide (found = expected) then Ok tt
      else Err (KemAlgorithmMismatch key_id (KemAlgorithm_token requested)
                  (KeyAlgorithm_token found))
  | None => Err (KemAlgorithmMismatch key_id (KemAlgorithm_token requested) "none")
  end.

Definition require_aead_match (key_id : string) (t : option KeyAlgorithm) (a : AeadAlgorithm)
    : result ManagerError unit :=
  let? actual :=
    match t with
    | Some Aes256Gcm => Ok AeadAes256Gcm_
    | Some ChaCha20Poly1305 => Ok AeadChacha20Poly1305
    | _ => Err (AeadMismatch key_id a "non-aead")
    end in
  if bool_decide (actual = a) then Ok tt
  else Err (AeadMismatch key_id a (aead_token actual)).

Definition sign_options_for_key (t : option KeyAlgorithm) : SignOptions :=
  match t with
  | Some Rsa2048 => OptRs256Pkcs1v15Sha256
  | Some EcdsaP256 => OptEs256
  | Some EcdsaP384 => OptEs384
  | Some EcdsaP521 => OptEs512
  | _ => OptDefault
  end.

Definition require_ml_dsa (key_id : string) (r : Routed) : result ManagerError SignatureAlgorithm :=
  ok_or (OpNotValidForClass "provider_dispatch" key_id (r_class r))
    (match r_key_type r with Some t => ml_dsa_signature_algorithm t | None => None end).

Definition select_provider_for (r : Routed) (native : option NativeAlgorithm) (gate : ProviderGate)
    (op : string) : result ManagerError CryptoProviderId :=
  let metadata := from_key (r_entry r) in
  let supported :=
    match native with Some a => supports_native_algorithm (r_backend r) a | None => false end in
  map_err Provider (select_provider metadata supported (local_software_allowed gate) op).

Definition provider_dispatch (p : CryptoProviderId) (a : SignatureAlgorithm) : ProviderDispatch :=
  {| pd_provider := p; pd_algorithm := signature_algorithm_name a; pd_custody := custody_mode p |}.

Definition kem_provider_dispatch (p : CryptoProviderId) (k : KemAlgorithm) : ProviderDispatch :=
  {| pd_provider := p; pd_algorithm := KemAlgorithm_token k; pd_custody := custody_mode p |}.

Definition ml_dsa_wire_key_type (a : SignatureAlgorithm) : KeyType :=
  match a with
  | SaMlDsa44 => KtMlDsa44
  | SaMlDsa65 => KtMlDsa65
  | SaMlDsa87 => KtMlDsa87
  | SaEd25519 | SaEd25519Nkey | SaRs256 | SaEs256 => KtEd25519
  end.

Definition ml_kem_wire_key_type (k : KemAlgorithm) : KeyType :=
  match k with
  | AlgMlKem512 => KtMlKem512 | AlgMlKem768 => KtMlKem768 | AlgMlKem1024 => KtMlKem1024
  end.

Definition key_kind (e : KeyEntry) : CatalogKind :=
  match class e with
  | Asymmetric | Public => KindSigning
  | Symmetric | Sealing => KindEncryption
  | Value => KindValue
  end.

Definition wire_key_type (e : KeyEntry) : option KeyType :=
  match key_type e with
  | Some Ed25519 => Some KtEd25519
  | Some Ed25519Nkey => Some KtEd25519Nkey
  | Some Rsa2048 => Some KtRsa2048
  | Some EcdsaP256 => Some KtEcdsaP256
  | Some EcdsaP384 => Some KtEcdsaP384
  | Some EcdsaP521 => Some KtEcdsaP521
  | Some MlDsa44 => Some KtMlDsa44
  | Some MlDsa65 => Some KtMlDsa65
  | Some MlDsa87 => Some KtMlDsa87
  | Some Aes256Gcm | Some ChaCha20Poly1305 | Some X25519 | Some MlKem512 | Some MlKem768
  | Some MlKem1024 | None => None
  end.

(** ** Nix cache checks *)

Definition nix_error (key reason : string) : ManagerError := NixCacheEnrollmentError key reason.

Definition validate_nix_cache_route (key_id : string) (r : Routed) (version : N)
    : result ManagerError unit :=
  return_err (nix_error key_id
      "v1 supports only Vault-compatible custody, not KMS or local key stores")
    when negb (bool_decide (kind (r_backend_ref r) = Vault)) otherwise
  return_err (nix_error key_id "catalog key is not asymmetric")
    when negb (bool_decide (r_class r = Asymmetric)) otherwise
  return_err (nix_error key_id "catalog key does not use the transit engine")
    when negb (bool_decide (r_engine r = Transit)) otherwise
  return_err (nix_error key_id "catalog key type is not Ed25519")
    when negb (bool_decide (r_key_type r = Some Ed25519)) otherwise
  return_err (nix_error key_id "catalog backend version is not one")
    when negb (version =? 1)%N otherwise
  return_err (nix_error key_id "catalog transit path is empty")
    when String.eqb (r_path r) "" otherwise
  Ok tt.

Definition validate_nix_cache_posture (key_id : string) (p : NixCacheKeyPosture)
    : result ManagerError unit :=
  let reason :=
    if negb (bool_decide (np_key_type p = KtEd25519)) then Some "backend key type is not Ed25519"
    else if negb (np_latest_version p =? 1)%N then
      Some "backend latest version is not one; in-place rotation is forbidden"
    else if negb (np_min_decryption_version p =? 1)%N then
      Some "backend minimum version is not one"
    else if np_derived p then Some "backend key derivation is enabled"
    else if np_exportable p then Some "backend private-key export is enabled"
    else if np_allow_plaintext_backup p then Some "backend plaintext backup is enabled"
    else if np_deletion_allowed p then Some "backend key deletion is enabled"
    else if negb (np_auto_rotation_disabled p) then Some "backend automatic rotation is enabled"
    else None in
  match reason with
  | None => Ok tt
  | Some reason => Err (nix_error key_id reason)
  end%string.

Definition validate_nix_cache_pin (key_id : string) (i : NixCacheIdentity) (p : NixCacheKeyPosture)
    : result ManagerError unit :=
  return_err (nix_error key_id "backend version does not match the enrolled catalog pin")
    when negb (np_latest_version p =? backend_version i)%N otherwise
  return_err (nix_error key_id "backend public key does not match the enrolled catalog pin")
    when negb (bool_decide (public_key i = Some (np_public_key p))) otherwise
  Ok tt.

Definition check_routed_identity (key_id : string) (r : Routed) (active : NixCacheIdentity)
    : result ManagerError unit :=
  let? routed_identity :=
    ok_or (nix_error key_id "catalog key has no nixCache identity") (nix_cache (r_entry r)) in
  return_err (nix_error key_id
      "active-generation identity does not match the immutable routed identity")
    when negb (String.eqb (key_name active) (key_name routed_identity))
         || negb (backend_version active =? backend_version routed_identity)%N otherwise
  Ok tt.

Definition resolve_enrolled_nix_cache_key (m : BackendManager) (key_id : string)
    (active : NixCacheIdentity) : result ManagerError Routed :=
  return_err (nix_error key_id "operation requires an enrolled identity with a public-key pin")
    when negb (bool_decide (state active = Enrolled))
         || match public_key active with None => true | Some _ => false end otherwise
  let? routed := resolve m key_id in
  let? _ := check_routed_identity key_id routed active in
  let? _ := validate_nix_cache_route key_id routed (backend_version active) in
  Ok routed.

(** ** Operations *)

Abbreviation MResult A := (Prog (result ManagerError A)).

(** [routed.backend.op(…).await?]. *)
Definition mcall {R} (r : Routed) (c : BackendCall R) : MResult R :=
  pmap_err MBackend (call (r_name r) c).

Definition provider_op {A} (p : PResult A) : MResult A := pmap_err Provider p.

Section operations.
Context `{RC : RustCrypto} `{HP : Primitives} `{HM : Minicbor} `{NB : NatsBox} `{CC : CustodyCodec}.
(** [age::x25519::Identity::generate().to_string()], from its random bytes,
    and the certificate and key the [step] program makes. *)
Variable age_identity : bytes_ → bytes_.
Variable generate_self_signed_tls :
  string → string → option bytes_ → result string (bytes_ * bytes_).

Variable m : BackendManager.

(** *** Reading key halves *)

Definition materialize_sealing_private (key_id op : string) : MResult bytes_ :=
  do? routed := lift (resolve m key_id) in
  do? _ := lift (require_class op key_id (r_class routed) [Sealing]) in
  do? _ := lift (require_x25519_sealing_key key_id (r_key_type routed)) in
  do? secret := mcall routed (kv_get_secret (r_path routed) None) in
  lift (map_err (λ e, Sealing_ (from_seal e)) (private_from_slice (ks_value secret))).

Definition read_public_half (key_id op : string) (allowed : list Class_) : MResult bytes_ :=
  do? routed := lift (resolve m key_id) in
  do? _ := lift (require_class op key_id (r_class routed) allowed) in
  do? p := lift (ok_or (MissingPublicPath key_id) (r_public_path routed)) in
  do? kv := mcall routed (kv_get p None) in
  lift (Ok (kv_value kv)).

Definition materialize_signing_seed (key_id op : string) : MResult bytes_ :=
  do? routed := lift (resolve m key_id) in
  do? _ := lift (require_class op key_id (r_class routed) [Asymmetric]) in
  do? secret := mcall routed (kv_get_secret (r_path routed) None) in
  lift (map_err (λ e, Signing (from_sign e)) (ed_seed_from_slice (ks_value secret))).

(** *** Signing *)

Definition manager_new_key (key_id : string) (t : KeyType) : MResult NewKey :=
  do? routed := lift (resolve m key_id) in
  do? _ := lift (require_class "new_key" key_id (r_class routed) [Asymmetric; Symmetric]) in
  do? _ :=
    lift (if bool_decide (r_class routed = Asymmetric)
          then require_mint_key_type routed "new_key" t else Ok tt) in
  mcall routed (new_key t).

Definition manager_sign (key_id : string) (message : bytes_) : MResult bytes_ :=
  do? routed := lift (resolve m key_id) in
  do? _ := lift (require_class "sign" key_id (r_class routed) [Asymmetric]) in
  if bool_decide (r_engine routed = Kv2) then
    do? seed := materialize_signing_seed key_id "sign" in
    lift (Ok (ed25519_sign_seed seed message))
  else
    mcall routed
      (sign_with_options (r_path routed) message (sign_options_for_key (r_key_type routed))).

Definition manager_verify (key_id : string) (message signature : bytes_) : MResult bool :=
  do? routed := lift (resolve m key_id) in
  do? _ := lift (require_class "verify" key_id (r_class routed) [Asymmetric; Public]) in
  if bool_decide (r_class routed = Asymmetric) && bool_decide (r_engine routed = Kv2) then
    do? public_bytes := read_public_half key_id "verify" [Asymmetric] in
    do? public :=
      lift (map_err (λ e, Signing (from_sign e)) (ed_public_from_slice public_bytes)) in
    lift (map_err (λ e, Signing (from_sign e)) (ed25519_verify_sig public message signature))
  else
    mcall routed
      (verify_with_options (r_path routed) message signature
         (sign_options_for_key (r_key_type routed))).

(** The local-software read of a recorded public half. *)
Definition recorded_public_key (routed : Routed) (key_id token : string) (t : KeyType)
    : MResult PublicKey :=
  do? public :=
    provider_op (local_public_key (LocalSoftwareProvider_new (r_name routed)) key_id
                   (r_path routed) (label_get (labels (r_entry routed)) "pqc_storage_key") token) in
  lift (Ok {| pk_public_key := public; pk_key_type := t; pk_version := 1 |}).

Definition software_custodied (routed : Routed) : bool :=
  bool_decide (pm_custody (from_key (r_entry routed)) = Some SoftwareEncrypted).

Definition manager_get_public_key (key_id : string) : MResult PublicKey :=
  do? routed := lift (resolve m key_id) in
  let kem :=
    if bool_decide (r_class routed = Sealing) && software_custodied routed
    then match r_key_type routed with Some t => ml_kem_provider_algorithm t | None => None end
    else None in
  match kem with
  | Some kem =>
      recorded_public_key routed key_id (KemAlgorithm_token kem) (ml_kem_wire_key_type kem)
  | None =>
      do? _ := lift (require_class "get_public_key" key_id (r_class routed) [Asymmetric; Public]) in
      let dsa :=
        if software_custodied routed
        then match r_key_type routed with Some t => ml_dsa_signature_algorithm t | None => None end
        else None in
      match dsa with
      | Some algorithm =>
          recorded_public_key routed key_id (signature_algorithm_name algorithm)
            (ml_dsa_wire_key_type algorithm)
      | None =>
          if bool_decide (r_class routed = Asymmetric) && bool_decide (r_engine routed = Kv2) then
            do? public_bytes := read_public_half key_id "get_public_key" [Asymmetric] in
            do? public :=
              lift (map_err (λ e, Signing (from_sign e)) (ed_public_from_slice public_bytes)) in
            lift (Ok {| pk_public_key := public; pk_key_type := KtEd25519; pk_version := 1 |})
          else mcall routed (public_key_with_meta (r_path routed))
      end
  end.

Definition ml_dsa_algorithm_for (key_id : string) : option SignatureAlgorithm :=
  match resolve m key_id with
  | Ok routed =>
      match r_key_type routed with Some t => ml_dsa_signature_algorithm t | None => None end
  | Err _ => None
  end.

Definition ml_kem_algorithm_for (key_id : string) : option KemAlgorithm :=
  match resolve m key_id with
  | Ok routed =>
      match r_key_type routed with Some t => ml_kem_provider_algorithm t | None => None end
  | Err _ => None
  end.

Definition describe_provider (key_id : string) : result ManagerError KeyProviderDescriptor :=
  let? routed := resolve m key_id in
  let metadata := from_key (r_entry routed) in
  let native :=
    match r_key_type routed with
    | Some t =>
        match ml_dsa_signature_algorithm t with Some a => native_algorithm a | None => None end
    | None => None
    end in
  let available :=
    match native with Some a => supports_native_algorithm (r_backend routed) a | None => false end in
  Ok {| kd_policy := pm_policy metadata; kd_provider := pm_provider metadata;
        kd_custody := pm_custody metadata;
        kd_version := label_get (labels (r_entry routed)) "crypto_provider_version";
        kd_backend_native_available := available |}.

(** *** Provider dispatch *)

(** The call on the selected provider. *)
Definition dispatch {Q A} (routed : Routed) (provider : CryptoProviderId)
    (native : BackendCryptoProvider → Q → PResult A)
    (local : LocalSoftwareProvider → Q → PResult A) (request : Q) : MResult A :=
  provider_op
    (match provider with
     | VaultTransit => native {| bp_backend := r_name routed |} request
     | LocalSoftware => local (LocalSoftwareProvider_new (r_name routed)) request
     end).

Definition storage_label (routed : Routed) : option string :=
  label_get (labels (r_entry routed)) "pqc_storage_key".

Definition provider_sign (key_id : string) (message : bytes_) (gate : ProviderGate)
    : MResult (bytes_ * ProviderDispatch) :=
  do? routed := lift (resolve m key_id) in
  do? _ := lift (require_class "sign" key_id (r_class routed) [Asymmetric]) in
  do? algorithm := lift (require_ml_dsa key_id routed) in
  do? provider := lift (select_provider_for routed (native_algorithm algorithm) gate "sign") in
  do? signature :=
    dispatch routed provider provider_sign_op provider_sign_op
      {| sq_key_id := key_id; sq_backend_path := r_path routed; sq_algorithm := algorithm;
         sq_message := message; sq_storage_key := storage_label routed |} in
  lift (Ok (signature, provider_dispatch provider algorithm)).

Definition provider_verify (key_id : string) (message signature : bytes_) (gate : ProviderGate)
    : MResult (bool * ProviderDispatch) :=
  do? routed := lift (resolve m key_id) in
  do? _ := lift (require_class "verify" key_id (r_class routed) [Asymmetric; Public]) in
  do? algorithm := lift (require_ml_dsa key_id routed) in
  do? provider := lift (select_provider_for routed (native_algorithm algorithm) gate "verify") in
  do? valid :=
    dispatch routed provider provider_verify_op provider_verify_op
      {| vq_key_id := key_id; vq_backend_path := r_path routed; vq_algorithm := algorithm;
         vq_message := message; vq_signature := signature;
         vq_storage_key := storage_label routed |} in
  lift (Ok (valid, provider_dispatch provider algorithm)).

Definition provider_generate (key_id : string) (gate : ProviderGate)
    : MResult (NewKey * ProviderDispatch) :=
  do? routed := lift (resolve m key_id) in
  do? _ := lift (require_class "new_key" key_id (r_class routed) [Asymmetric]) in
  do? algorithm := lift (require_ml_dsa key_id routed) in
  do? provider := lift (select_provider_for routed (native_algorithm algorithm) gate "generate") in
  do? created :=
    dispatch routed provider generate_key generate_key
      {| gk_key_id := key_id; gk_backend_path := r_path routed; gk_algorithm := algorithm;
         gk_storage_key := storage_label routed |} in
  lift (Ok (created, provider_dispatch provider algorithm)).

Definition provider_generate_sealing (key_id : string) (kem : KemAlgorithm) (gate : ProviderGate)
    : MResult (NewKey * ProviderDispatch) :=
  do? routed := lift (resolve m key_id) in
  do? _ := lift (require_class "new_key" key_id (r_class routed) [Sealing]) in
  do? _ := lift (require_ml_kem_sealing_key key_id (r_key_type routed) kem) in
  do? provider := lift (select_provider_for routed (kem_native_algorithm kem) gate "generate") in
  do? created :=
    dispatch routed provider generate_sealing_key generate_sealing_key
      {| gs_key_id := key_id; gs_backend_path := r_path routed; gs_algorithm := kem;
         gs_storage_key := storage_label routed |} in
  lift (Ok (created, kem_provider_dispatch provider kem)).

Definition provider_wrap_envelope (key_id : string) (kem : KemAlgorithm) (env : EnvelopeAlgorithm)
    (plaintext aad : bytes_) (gate : ProviderGate) : MResult (Envelope * ProviderDispatch) :=
  do? routed := lift (resolve m key_id) in
  do? _ := lift (require_class "wrap_envelope" key_id (r_class routed) [Sealing]) in
  do? _ := lift (require_ml_kem_sealing_key key_id (r_key_type routed) kem) in
  do? provider :=
    lift (select_provider_for routed (kem_native_algorithm kem) gate "wrap_envelope") in
  do? envelope :=
    dispatch routed provider wrap_envelope wrap_envelope
      {| wq_key_id := key_id; wq_backend_path := r_path routed; wq_kem_algorithm := kem;
         wq_envelope_algorithm := env; wq_plaintext := plaintext; wq_aad := Some aad;
         wq_storage_key := storage_label routed |} in
  lift (Ok (envelope, kem_provider_dispatch provider kem)).

Definition provider_unwrap_envelope (key_id : string) (kem : KemAlgorithm) (env : EnvelopeAlgorithm)
    (parts : MlKemEnvelopeParts) (aad : bytes_) (gate : ProviderGate)
    : MResult (bytes_ * ProviderDispatch) :=
  do? routed := lift (resolve m key_id) in
  do? _ := lift (require_class "unwrap_envelope" key_id (r_class routed) [Sealing]) in
  do? _ := lift (require_ml_kem_sealing_key key_id (r_key_type routed) kem) in
  do? provider :=
    lift (select_provider_for routed (kem_native_algorithm kem) gate "unwrap_envelope") in
  do? plaintext :=
    dispatch routed provider unwrap_envelope unwrap_envelope
      {| uq_key_id := key_id; uq_backend_path := r_path routed; uq_kem_algorithm := kem;
         uq_envelope_algorithm := env; uq_encapsulated_key := mp_encapsulated_key parts;
         uq_nonce := mp_nonce parts; uq_ciphertext := mp_ciphertext parts; uq_aad := Some aad;
         uq_storage_key := storage_label routed |} in
  lift (Ok (plaintext, kem_provider_dispatch provider kem)).

(** *** Import and listing *)

Definition manager_import (key_id : string) (t : KeyType) (material : KeyMaterial)
    : MResult NewKey :=
  do? routed := lift (resolve m key_id) in
  do? _ := lift (require_class "import" key_id (r_class routed) [Asymmetric; Symmetric]) in
  fail (ManagerUnsupported
          "import: a value-store (kv2) crypto key is provisioned out-of-band, not imported via the broker")
    when bool_decide (r_engine routed = Kv2) otherwise
  do? _ :=
    lift (if bool_decide (r_class routed = Asymmetric)
          then require_mint_key_type routed "import" t else Ok tt) in
  mcall routed (import (r_path routed) t material).

(** [starts_with]. *)
Definition list_shows (prefix : option string) (visible : string → bool) (name : string) : bool :=
  match prefix with Some p => String.prefix p name | None => true end && visible name.

Fixpoint list_keys (prefix : option string) (visible : string → bool)
    (ks : list (string * KeyEntry)) : MResult (list WireCatalogEntry) :=
  match ks with
  | [] => Ret (Ok [])
  | (name, entry) :: ks' =>
      if list_shows prefix visible name then
        do! meta :=
          match resolve m name with
          | Ok routed =>
              do! r := call (r_name routed) (key_metadata (r_path routed)) in
              Ret (match r with Ok md => Some md | Err _ => None end)
          | Err _ => Ret None
          end in
        let '(t, version) :=
          match meta with
          | Some md => (md_key_type md, md_latest_version md)
          | None => (wire_key_type entry, 0%N)
          end in
        do? rest := list_keys prefix visible ks' in
        lift (Ok ({| wc_name := name; wc_kind := key_kind entry; wc_key_type := t;
                     wc_latest_version := version |} :: rest))
      else list_keys prefix visible ks'
  end.

Definition manager_list (prefix : option string) (visible : string → bool)
    : MResult (list WireCatalogEntry) := list_keys prefix visible (keys_ (catalog m)).

(** *** Symmetric encryption *)

Definition manager_encrypt (key_id : string) (a : AeadAlgorithm) (plaintext : bytes_)
    (aad : option bytes_) : MResult CiphertextEnvelope :=
  do? routed := lift (resolve m key_id) in
  do? _ := lift (require_class "encrypt" key_id (r_class routed) [Symmetric]) in
  do? _ := lift (require_aead_match key_id (r_key_type routed) a) in
  mcall routed (encrypt (r_path routed) a plaintext aad).

Definition manager_decrypt (key_id : string) (e : CiphertextEnvelope) (aad : option bytes_)
    : MResult bytes_ :=
  do? routed := lift (resolve m key_id) in
  do? _ := lift (require_class "decrypt" key_id (r_class routed) [Symmetric]) in
  do? _ := lift (require_aead_match key_id (r_key_type routed) (ce_alg e)) in
  mcall routed (decrypt (r_path routed) e aad).

(** *** Sealing *)

Definition seal_err (e : SealError) : ManagerError := Sealing_ (from_seal e).

Definition manager_wrap_envelope (key_id : string) (plaintext aad : bytes_)
    : MResult SealedEnvelope :=
  do? routed := lift (resolve m key_id) in
  do? _ := lift (require_class "wrap_envelope" key_id (r_class routed) [Sealing]) in
  do? _ := lift (require_x25519_sealing_key key_id (r_key_type routed)) in
  do? public_bytes := read_public_half key_id "wrap_envelope" [Sealing] in
  do? recipient_pub := lift (map_err seal_err (public_from_slice public_bytes)) in
  do! ephemeral := draw PRIVATE_KEY_LEN in
  do! nonce := draw SEAL_NONCE_LEN in
  lift (map_err seal_err (box_seal recipient_pub plaintext aad ephemeral nonce)).

Definition manager_unwrap_envelope (key_id : string) (e : SealedEnvelope) (aad : bytes_)
    : MResult bytes_ :=
  do? private := materialize_sealing_private key_id "unwrap_envelope" in
  lift (map_err seal_err (box_open private e aad)).

Definition party_slot (identity : option string) : result ProfileError PartyIdentity :=
  match identity with
  | None => Ok PartyIdentity_nil
  | Some id => PartyIdentity_from_bytes (bytes id)
  end.

Definition to_kdf_parties (p : PinnedParties) : result ProfileError KdfParties :=
  let? u := party_slot (party_u p) in
  let? v := party_slot (party_v p) in
  Ok {| kdf_party_u := u; kdf_party_v := v |}.

Definition expected_unseal_parties (key_id : string) (aad : bytes_)
    : result ManagerError (option KdfParties) :=
  let? routed := resolve m key_id in
  match sealing_pin (r_entry routed) with
  | None => Ok None
  | Some pin =>
      return_err (UnsealContextNotPermitted key_id)
        when negb (external_aad_allowed pin (of_bytes aad)) otherwise
      match parties pin with
      | None => Ok None
      | Some parties =>
          let? p := map_err (λ _, Sealing_ SealingMalformed) (to_kdf_parties parties) in
          Ok (Some p)
      end
  end.

Definition unseal_cose (key_id : string) (cose aad : bytes_) : MResult bytes_ :=
  do? expected := lift (expected_unseal_parties key_id aad) in
  do? private := materialize_sealing_private key_id "unseal_cose" in
  do? cose_key_id := lift (map_err (λ _, Sealing_ SealingMalformed) (KeyId_from_text key_id)) in
  let recipient := X25519Recipient_new cose_key_id private in
  lift (map_err
          (λ e, match e with
                | PartyMismatch => UnsealContextNotPermitted key_id
                | other => Sealing_ (from_cose_open other)
                end)
          (recipient_open recipient
             {| cose_encrypt := cose; CoseProfile.external_aad := aad;
                expected_parties := expected |})).

Definition encrypt_nats_curve (key_id recipient_public_xkey : string) (plaintext : bytes_)
    : MResult bytes_ :=
  do? private := materialize_sealing_private key_id "encrypt_nats_curve" in
  do! nonce := draw XKEY_NONCE_LEN in
  lift (map_err nats_curve_error
          (seal_nats_curve private recipient_public_xkey plaintext (Some nonce))).

Definition decrypt_nats_curve (key_id sender_public_xkey : string) (ciphertext : bytes_)
    : MResult bytes_ :=
  do? private := materialize_sealing_private key_id "decrypt_nats_curve" in
  lift (map_err nats_curve_error (open_nats_curve private sender_public_xkey ciphertext)).

Definition sealing_public_key (key_id : string) : MResult bytes_ :=
  do? routed := lift (resolve m key_id) in
  do? _ := lift (require_class "get_public_key" key_id (r_class routed) [Sealing]) in
  do? _ := lift (require_x25519_sealing_key key_id (r_key_type routed)) in
  do? public_bytes := read_public_half key_id "get_public_key" [Sealing] in
  lift (map_err seal_err (public_from_slice public_bytes)).

(** *** Values *)

Definition manager_get (key_id : string) (version : option N) : MResult KvSecret :=
  do? routed := lift (resolve m key_id) in
  do? _ := lift (require_class "get" key_id (r_class routed) [Value; Public]) in
  if bool_decide (r_class routed = Value) then
    mcall routed (kv_get_secret (r_path routed) version)
  else
    do? kv := mcall routed (kv_get (r_path routed) version) in
    lift (Ok {| ks_value := kv_value kv; ks_version := kv_version kv |}).

Definition manager_set (key_id : string) (value : bytes_) : MResult N :=
  do? routed := lift (resolve m key_id) in
  do? _ := lift (require_class "set" key_id (r_class routed) [Value]) in
  mcall routed (kv_put (r_path routed) value).

(** *** Generated values *)

Definition ASCII_PRINTABLE_LEN : N := 94.

(** The [idx]-th of the printable characters, [!] to [~]. *)
Definition ascii_printable (idx : N) : N := (33 + idx)%N.

Fixpoint ascii_value (n : nat) : Prog bytes_ :=
  match n with
  | O => Ret []
  | S n' =>
      do! word := draw 4 in
      do! rest := ascii_value n' in
      Ret (ascii_printable (from_be_bytes word mod ASCII_PRINTABLE_LEN)%N :: rest)
  end.

(** [{b:02x}]. *)
Definition hex_byte (b : N) : bytes_ := [hex_digit (b / 16)%N; hex_digit (b mod 16)%N].

Definition tls_failed (e : string) : ManagerError := MBackend (BackendFailed e).

Definition generate_value (spec : GenerateSpec) : MResult bytes_ :=
  match spec with
  | AsciiPrintable n => do! v := ascii_value (N.to_nat n) in Ret (Ok v)
  | Base64 n => do! raw := draw (N.to_nat n) in Ret (Ok (bytes (b64_encode raw)))
  | Hex n => do! raw := draw (N.to_nat n) in Ret (Ok (flat_map hex_byte raw))
  | AgeX25519 => do! raw := draw 32 in Ret (Ok (age_identity raw))
  | SelfSignedTls cn validity =>
      lift (let? pem := map_err tls_failed (generate_self_signed_tls cn validity None) in Ok pem.1)
  | SelfSignedTlsPairOf _ =>
      Ret (Err (tls_failed "self-signed-tls-pair-of needs catalog pair context"))
  end.

Definition is_pair_of (cert_key : string) (e : KeyEntry) : bool :=
  match generate e with
  | Some (SelfSignedTlsPairOf pair_of) => String.eqb pair_of cert_key
  | _ => false
  end.

Definition tls_pair_key_for_cert (cert_key : string) : option string :=
  option_map fst (List.find (λ '(_, e), is_pair_of cert_key e) (keys_ (catalog m))).

Definition tls_cert_recipe (cert_key : string) : result ManagerError (string * string) :=
  let? entry := ok_or (UnknownKey cert_key) (get (keys_ (catalog m)) cert_key) in
  match generate entry with
  | Some (SelfSignedTls cn validity) => Ok (cn, validity)
  | _ => Err (tls_failed ("self-signed-tls-pair-of references non-certificate key `"
                          +:+ cert_key +:+ "`"))
  end.

Definition try_existing_value (key_id : string) : MResult (option bytes_) :=
  do? routed := lift (resolve m key_id) in
  do? _ := lift (require_class "generate" key_id (r_class routed) [Value; Public]) in
  do! r := call (r_name routed) (kv_get (r_path routed) None) in
  Ret (match r with
       | Ok v => Ok (Some (kv_value v))
       | Err (KeyNotFound _) => Ok None
       | Err e => Err (MBackend e)
       end).

Definition generated_writes_for_key (key_id : string) (spec : GenerateSpec)
    : MResult (list GeneratedWrite) :=
  match spec with
  | SelfSignedTls cn validity =>
      match tls_pair_key_for_cert key_id with
      | Some pair_key =>
          do? existing := try_existing_value pair_key in
          do? pem := lift (map_err tls_failed (generate_self_signed_tls cn validity existing)) in
          let cert := {| gw_key_id := key_id; gw_value := pem.1 |} in
          lift (Ok (match existing with
                    | None => [{| gw_key_id := pair_key; gw_value := pem.2 |}; cert]
                    | Some _ => [cert]
                    end))
      | None =>
          do? pem := lift (map_err tls_failed (generate_self_signed_tls cn validity None)) in
          lift (Ok [{| gw_key_id := key_id; gw_value := pem.1 |}])
      end
  | SelfSignedTlsPairOf pair_of =>
      do? recipe := lift (tls_cert_recipe pair_of) in
      do? pem := lift (map_err tls_failed (generate_self_signed_tls recipe.1 recipe.2 None)) in
      lift (Ok [{| gw_key_id := key_id; gw_value := pem.2 |};
                {| gw_key_id := pair_of; gw_value := pem.1 |}])
  | AsciiPrintable _ | Base64 _ | Hex _ | AgeX25519 =>
      do? v := generate_value spec in
      lift (Ok [{| gw_key_id := key_id; gw_value := v |}])
  end.

(** *** Rotation and retention *)

Fixpoint write_generated (key_id : string) (ws : list GeneratedWrite) (rotated : option N)
    : MResult (option N) :=
  match ws with
  | [] => lift (Ok rotated)
  | w :: ws' =>
      do? route := lift (resolve m (gw_key_id w)) in
      do? _ := lift (require_class "rotate" (gw_key_id w) (r_class route) [Value; Public]) in
      do? version := mcall route (kv_put (r_path route) (gw_value w)) in
      write_generated key_id ws'
        (if String.eqb (gw_key_id w) key_id then Some version else rotated)
  end.

Definition manager_rotate (key_id : string) (limits : BrokerLimits) : MResult N :=
  do? routed := lift (resolve m key_id) in
  do? _ := lift (require_class "rotate" key_id (r_class routed) [Asymmetric; Symmetric; Value]) in
  fail (NixCacheRotationForbidden key_id)
    when match nix_cache (r_entry routed) with Some _ => true | None => false end otherwise
  fail (ManagerUnsupported
          "rotate: a value-store (kv2) crypto key is re-provisioned out-of-band, not rotated via the broker")
    when bool_decide (r_engine routed = Kv2) && negb (bool_decide (r_class routed = Value)) otherwise
  if bool_decide (r_class routed = Value) then
    do? spec := lift (ok_or (ValueRotateNeedsSet key_id) (generate (r_entry routed))) in
    do? writes := generated_writes_for_key key_id spec in
    do? rotated := write_generated key_id writes None in
    lift (ok_or (tls_failed "generate recipe produced no primary value") rotated)
  else
    do? new_version := mcall routed (rotate (r_path routed)) in
    let floor := grace_floor limits new_version in
    do! applied := call (r_name routed) (configure_versions (r_path routed) (Some floor) None) in
    match applied with
    | Ok _ | Err (UnsupportedOp _) => Ret (Ok new_version)
    | Err e => Ret (Err (MBackend e))
    end.

Definition sweep_retention (key_id : string) (limits : BrokerLimits) : MResult unit :=
  do? routed := lift (resolve m key_id) in
  do? _ := lift (require_class "rotate" key_id (r_class routed) [Asymmetric; Symmetric]) in
  do? meta := mcall routed (key_metadata (r_path routed)) in
  match retention_floor limits (md_latest_version meta) with
  | None => Ret (Ok tt)
  | Some floor =>
      do? _ := mcall routed (configure_versions (r_path routed) None (Some floor)) in
      Ret (Ok tt)
  end.

Fixpoint sweep_each (limits : BrokerLimits) (ks : list (string * KeyEntry)) : MResult unit :=
  match ks with
  | [] => Ret (Ok tt)
  | (name, _) :: ks' => do? _ := sweep_retention name limits in sweep_each limits ks'
  end.

Definition is_crypto_class (c : Class_) : bool :=
  match c with Asymmetric | Symmetric => true | _ => false end.

Definition sweep_all_retention (limits : BrokerLimits) : MResult unit :=
  match retain_versions limits with
  | None => Ret (Ok tt)
  | Some _ =>
      sweep_each limits (List.filter (λ '(_, e), is_crypto_class (class e)) (keys_ (catalog m)))
  end.

(** *** Certificates *)

Definition manager_issue_x509_svid (key_id spiffe_id : string) (ttl : N) : MResult X509Svid :=
  do? routed := lift (resolve m key_id) in
  do? _ := lift (require_class "issue_x509_svid" key_id (r_class routed) [Asymmetric]) in
  fail (ManagerUnsupported "issue_x509_svid")
    when negb (bool_decide (r_engine routed = Pki)) otherwise
  mcall routed (issue_x509_svid (r_path routed) spiffe_id ttl).

Definition manager_issue_x509_cert (key_id : string) (request : X509CertRequest)
    : MResult X509Svid :=
  do? routed := lift (resolve m key_id) in
  do? _ := lift (require_class "issue_x509_cert" key_id (r_class routed) [Asymmetric]) in
  fail (ManagerUnsupported "issue_x509_cert")
    when negb (bool_decide (r_engine routed = Pki)) otherwise
  mcall routed (issue_x509_cert (r_path routed) request).

(** *** Nix cache keys *)

Definition enroll_state_ok (key_id : string) (i : NixCacheIdentity) : result ManagerError unit :=
  match state i, public_key i with
  | Pending, None | Enrolled, Some _ => Ok tt
  | Pending, Some _ =>
      Err (nix_error key_id "pending identity unexpectedly carries a public-key pin")
  | Enrolled, None => Err (nix_error key_id "enrolled identity has no public-key pin")
  end.

(** The body under the enrollment lock. *)
Definition enroll_nix_cache_key (key_id : string) (active : NixCacheIdentity)
    : MResult NixCacheEnrollment :=
  do? routed := lift (resolve m key_id) in
  do? _ := lift (check_routed_identity key_id routed active) in
  do? _ := lift (enroll_state_ok key_id active) in
  do? _ := lift (validate_nix_cache_route key_id routed (backend_version active)) in
  do! first := call (r_name routed) (nix_cache_key_posture (r_path routed)) in
  do? found :=
    match first with
    | Ok posture => Ret (Ok (posture, Existing))
    | Err (KeyNotFound _) =>
        if bool_decide (state active = Pending) then
          do? _ := mcall routed (create_nix_cache_key (r_path routed)) in
          do? posture := mcall routed (nix_cache_key_posture (r_path routed)) in
          Ret (Ok (posture, Created))
        else
          Ret (Err (nix_error key_id
                      "enrolled backend material is missing and must not be recreated"))
    | Err e => Ret (Err (MBackend e))
    end in
  let '(posture, disposition) := found in
  do? _ := lift (validate_nix_cache_posture key_id posture) in
  fail (nix_error key_id "backend public key does not match the enrolled catalog pin")
    when bool_decide (state active = Enrolled)
         && negb (bool_decide (public_key active = Some (np_public_key posture))) otherwise
  lift (Ok {| ne_key_name := key_name active; ne_public_key := np_public_key posture;
              ne_backend_version := np_latest_version posture; ne_disposition := disposition |}).

Definition describe_nix_cache_key (key_id : string) (active : NixCacheIdentity)
    : MResult NixCacheDescription :=
  do? routed := lift (resolve_enrolled_nix_cache_key m key_id active) in
  do? posture := mcall routed (nix_cache_key_posture (r_path routed)) in
  do? _ := lift (validate_nix_cache_posture key_id posture) in
  do? _ := lift (validate_nix_cache_pin key_id active posture) in
  lift (Ok {| nd_key_name := key_name active; nd_public_key := np_public_key posture;
              nd_backend_version := np_latest_version posture |}).

Definition sign_nix_cache_fingerprint (key_id : string) (active : NixCacheIdentity)
    (fingerprint : bytes_) : MResult NixCacheSignature :=
  do? routed := lift (resolve_enrolled_nix_cache_key m key_id active) in
  do? before := mcall routed (nix_cache_key_posture (r_path routed)) in
  do? _ := lift (validate_nix_cache_posture key_id before) in
  do? _ := lift (validate_nix_cache_pin key_id active before) in
  do? signed := mcall routed (sign_nix_cache (r_path routed) fingerprint) in
  fail (nix_error key_id "signature backend version does not match the enrolled catalog pin")
    when negb (nb_backend_version signed =? backend_version active)%N otherwise
  do? after := mcall routed (nix_cache_key_posture (r_path routed)) in
  do? _ := lift (validate_nix_cache_posture key_id after) in
  do? _ := lift (validate_nix_cache_pin key_id active after) in
  fail (nix_error key_id "backend posture changed while signing")
    when negb (bool_decide (before = after)) otherwise
  do? public :=
    lift (ok_or (nix_error key_id "enrolled identity has no public-key pin") (public_key active)) in
  do? verified :=
    lift (map_err (λ _, nix_error key_id "returned signature is malformed")
            (ed25519_verify_sig public fingerprint (nb_signature signed))) in
  fail (nix_error key_id "returned signature does not verify against the enrolled public key")
    when negb verified otherwise
  lift (Ok {| ns_identity :=
                {| nd_key_name := key_name active; nd_public_key := public;
                   nd_backend_version := np_latest_version after |};
              ns_signature := nb_signature signed |}).
End operations.
