(* ===== verification/ManagerProofs.v ===== *)
(** * The backend manager: correctness

    What every operation asks of which backend, whatever the backends answer:
    confinement to the key's own backend, class gates before any call,
    private halves read only by the operations that use them, the software
    custody gate, the Nix cache contract, version windows, and the life of a
    key through the manager. *)

From stdpp Require Import sets.
From S2P Require Import Prelude RustStr Bytes BTreeMap Nkey RustCrypto CoseTypes Cbor CoseCodec.
From S2P Require Import CoseProfile LocalCrypto Xkey Schema Backend CryptoProvider CustodyProofs.
From S2P Require Import Manager.

(** ** The operations on one key *)

Inductive KeyOp :=
| KNewKey (t : KeyType)
| KImport (t : KeyType) (material : KeyMaterial)
| KSign (message : bytes_)
| KVerify (message signature : bytes_)
| KGetPublicKey
| KProviderSign (message : bytes_) (gate : ProviderGate)
| KProviderVerify (message signature : bytes_) (gate : ProviderGate)
| KProviderGenerate (gate : ProviderGate)
| KProviderGenerateSealing (kem : KemAlgorithm) (gate : ProviderGate)
| KProviderWrap (kem : KemAlgorithm) (env : EnvelopeAlgorithm) (plaintext aad : bytes_)
    (gate : ProviderGate)
| KProviderUnwrap (kem : KemAlgorithm) (env : EnvelopeAlgorithm) (parts : MlKemEnvelopeParts)
    (aad : bytes_) (gate : ProviderGate)
| KEncrypt (a : AeadAlgorithm) (plaintext : bytes_) (aad : option bytes_)
| KDecrypt (e : CiphertextEnvelope) (aad : option bytes_)
| KWrap (plaintext aad : bytes_)
| KUnwrap (e : SealedEnvelope) (aad : bytes_)
| KUnsealCose (cose aad : bytes_)
| KEncryptNats (recipient : string) (plaintext : bytes_)
| KDecryptNats (sender : string) (ciphertext : bytes_)
| KSealingPublicKey
| KGet (version : option N)
| KSet (value : bytes_)
| KRotate (limits : BrokerLimits)
| KSweep (limits : BrokerLimits)
| KIssueSvid (spiffe_id : string) (ttl : N)
| KIssueCert (request : X509CertRequest)
| KEnrollNix (active : NixCacheIdentity)
| KDescribeNix (active : NixCacheIdentity)
| KSignNix (active : NixCacheIdentity) (fingerprint : bytes_).

(** The outcome of an operation without its result. *)
Definition forget {A} (p : MResult A) : MResult unit := ebind p (λ _, Ret (Ok tt)).

Section perform.
Context `{RC : RustCrypto} `{HP : Primitives} `{HM : Minicbor} `{NB : NatsBox} `{CC : CustodyCodec}.
Variable age_identity : bytes_ → bytes_.
Variable tls : string → string → option bytes_ → result string (bytes_ * bytes_).
Variable m : BackendManager.

Definition perform (key_id : string) (op : KeyOp) : MResult unit :=
  match op with
  | KNewKey t => forget (manager_new_key m key_id t)
  | KImport t material => forget (manager_import m key_id t material)
  | KSign message => forget (manager_sign m key_id message)
  | KVerify message signature => forget (manager_verify m key_id message signature)
  | KGetPublicKey => forget (manager_get_public_key m key_id)
  | KProviderSign message gate => forget (provider_sign m key_id message gate)
  | KProviderVerify message signature gate =>
      forget (provider_verify m key_id message signature gate)
  | KProviderGenerate gate => forget (provider_generate m key_id gate)
  | KProviderGenerateSealing kem gate => forget (provider_generate_sealing m key_id kem gate)
  | KProviderWrap kem env plaintext aad gate =>
      forget (provider_wrap_envelope m key_id kem env plaintext aad gate)
  | KProviderUnwrap kem env parts aad gate =>
      forget (provider_unwrap_envelope m key_id kem env parts aad gate)
  | KEncrypt a plaintext aad => forget (manager_encrypt m key_id a plaintext aad)
  | KDecrypt e aad => forget (manager_decrypt m key_id e aad)
  | KWrap plaintext aad => forget (manager_wrap_envelope m key_id plaintext aad)
  | KUnwrap e aad => forget (manager_unwrap_envelope m key_id e aad)
  | KUnsealCose cose aad => forget (unseal_cose m key_id cose aad)
  | KEncryptNats recipient plaintext => forget (encrypt_nats_curve m key_id recipient plaintext)
  | KDecryptNats sender ciphertext => forget (decrypt_nats_curve m key_id sender ciphertext)
  | KSealingPublicKey => forget (sealing_public_key m key_id)
  | KGet version => forget (manager_get m key_id version)
  | KSet value => forget (manager_set m key_id value)
  | KRotate limits => forget (manager_rotate age_identity tls m key_id limits)
  | KSweep limits => sweep_retention m key_id limits
  | KIssueSvid spiffe_id ttl => forget (manager_issue_x509_svid m key_id spiffe_id ttl)
  | KIssueCert request => forget (manager_issue_x509_cert m key_id request)
  | KEnrollNix active => forget (enroll_nix_cache_key m key_id active)
  | KDescribeNix active => forget (describe_nix_cache_key m key_id active)
  | KSignNix active fingerprint => forget (sign_nix_cache_fingerprint m key_id active fingerprint)
  end.
End perform.

(** ** Automation

    [calls] of a program follows its structure: a pure step contributes the
    fact that it succeeded, a call its obligation. *)

Lemma calls_lift {E A B} P (r : result E A) (f : A → Prog (result E B)) :
  (∀ a, r = Ok a → calls P (f a)) → calls P (ebind (lift r) f).
Proof. unfold ebind, lift. destruct r; simpl; eauto. Qed.

Lemma calls_mcall {R B} P r (c : BackendCall R) (f : R → MResult B) :
  P R (r_name r) c → (∀ a, calls P (f a)) → calls P (ebind (mcall r c) f).
Proof. intros Hc Hf. apply calls_ebind; [| done]. by apply calls_pmap_err, calls_call. Qed.

Lemma calls_mcall_last {R} P r (c : BackendCall R) : P R (r_name r) c → calls P (mcall r c).
Proof. intros Hc. by apply calls_pmap_err, calls_call. Qed.

Lemma calls_backend_op {R} P b (c : BackendCall R) : P R b c → calls P (backend_op b c).
Proof. intros Hc. by apply calls_pmap_err, calls_call. Qed.

Lemma calls_forget {A} P (p : MResult A) : calls P p → calls P (forget p).
Proof. intros H. by apply calls_ebind. Qed.

Lemma calls_draw {B} P n (f : bytes_ → Prog B) :
  (∀ x, calls P (f x)) → calls P (pbind (draw n) f).
Proof. done. Qed.

(** One step of the structure of a program. *)
Ltac calls_step :=
  match goal with
  | |- calls _ (forget _) => apply calls_forget
  | |- calls _ (ebind (lift _) _) => apply calls_lift; intros ? ?
  | |- calls _ (ebind (mcall _ _) _) => apply calls_mcall; [| intros ?]
  | |- calls _ (mcall _ _) => apply calls_mcall_last
  | |- calls _ (backend_op _ _) => apply calls_backend_op
  | |- calls _ (ebind (if ?b then _ else _) _) => destruct b eqn:?
  | |- calls _ (if ?b then _ else _) => destruct b eqn:?
  | |- calls _ (ebind _ _) => apply calls_ebind; [| intros ?]
  | |- calls _ (provider_op _) => apply calls_pmap_err
  | |- calls _ (pmap_err _ _) => apply calls_pmap_err
  | |- calls _ (pbind (draw _) _) => apply calls_draw; intros ?
  | |- calls _ (pbind (call _ _) _) => split; [| intros ?]
  | |- calls _ (pbind (Ret _) _) => cbn [pbind]
  | |- calls _ (ebind (Ret _) _) => apply calls_lift; intros ? ?
  | |- calls _ (Ret _) => exact I
  | |- calls _ (lift _) => exact I
  | |- calls _ (match ?x with _ => _ end) => destruct x eqn:?
  | |- calls _ (ebind (match ?x with _ => _ end) _) => destruct x eqn:?
  | |- calls _ (pbind (match ?x with _ => _ end) _) => destruct x eqn:?
  end.

Lemma resolve_Ok m key_id r :
  resolve m key_id = Ok r →
  get (keys_ (catalog m)) key_id = Some (r_entry r) ∧ r_name r = backend (r_entry r) ∧
  r_engine r = effective_engine (r_entry r) ∧
  get (backends (catalog m)) (r_name r) = Some (r_backend_ref r) ∧
  get (instances m) (r_name r) = Some (r_backend r).
Proof.
  unfold resolve. intros H. inv_ok H. simpl.
  repeat match goal with H : ok_or _ ?o = Ok _ |- _ => destruct o eqn:?; [| done]; simplify_eq/= end.
  done.
Qed.

(** ** Footprints

    The specification of what each operation may ask of its backend: the
    classes it is defined on, and the calls, with their arguments. *)

Definition allowed_classes (op : KeyOp) : list Class_ :=
  match op with
  | KNewKey _ | KImport _ _ => [Asymmetric; Symmetric]
  | KSign _ | KProviderSign _ _ | KProviderGenerate _ => [Asymmetric]
  | KVerify _ _ | KProviderVerify _ _ _ => [Asymmetric; Public]
  | KGetPublicKey => [Asymmetric; Public; Sealing]
  | KProviderGenerateSealing _ _ | KProviderWrap _ _ _ _ _ | KProviderUnwrap _ _ _ _ _ => [Sealing]
  | KEncrypt _ _ _ | KDecrypt _ _ => [Symmetric]
  | KWrap _ _ | KUnwrap _ _ | KUnsealCose _ _ | KEncryptNats _ _ | KDecryptNats _ _
  | KSealingPublicKey => [Sealing]
  | KGet _ => [Value; Public]
  | KSet _ => [Value]
  | KRotate _ => [Asymmetric; Symmetric; Value]
  | KSweep _ => [Asymmetric; Symmetric]
  | KIssueSvid _ _ | KIssueCert _ | KEnrollNix _ | KDescribeNix _ | KSignNix _ _ => [Asymmetric]
  end.

(** A read of the private half: the key's own path, as a secret. *)
Definition private_read (r : Routed) {R} (c : BackendCall R) : Prop :=
  match c with kv_get_secret p v => p = r_path r ∧ v = None | _ => False end.

(** A read of the public half, provisioned at its own path. *)
Definition public_read (r : Routed) {R} (c : BackendCall R) : Prop :=
  match c with kv_get p v => r_public_path r = Some p ∧ v = None | _ => False end.

(** A read of the custody record at the key's path. *)
Definition record_read (r : Routed) {R} (c : BackendCall R) : Prop :=
  match c with kv_get p v => p = r_path r ∧ v = None | _ => False end.

(** Reading the record and unwrapping the seed, under the catalog's AEAD key. *)
Definition seed_use (r : Routed) {R} (c : BackendCall R) : Prop :=
  record_read r c ∨
  match c with decrypt k _ aad => storage_label r = Some k ∧ aad ≠ None | _ => False end.

(** Sealing a fresh seed under the catalog's AEAD key and storing the record. *)
Definition seed_store (r : Routed) {R} (c : BackendCall R) : Prop :=
  match c with
  | encrypt k a _ aad => storage_label r = Some k ∧ a = AeadAes256Gcm_ ∧ aad ≠ None
  | kv_put p _ => p = r_path r
  | _ => False
  end.

(** The local-software provider may act: the caller holds the grant and the
    key is recorded under software custody. *)
Definition software_ok (r : Routed) (gate : ProviderGate) : Prop :=
  local_software_allowed gate = true ∧ software_custodied r = true.

Definition footprint (r : Routed) (op : KeyOp) {R} (c : BackendCall R) : Prop :=
  r_class r ∈ allowed_classes op ∧
  match op with
  | KNewKey t => match c with new_key t' => t' = t | _ => False end
  | KImport t mat =>
      match c with
      | import p t' mat' => p = r_path r ∧ t' = t ∧ mat' = mat ∧ r_engine r ≠ Kv2
      | _ => False
      end
  | KSign msg =>
      r_engine r = Kv2 ∧ private_read r c ∨
      match c with
      | sign_with_options p msg' _ => p = r_path r ∧ msg' = msg ∧ r_engine r ≠ Kv2
      | _ => False
      end
  | KVerify msg sig =>
      r_engine r = Kv2 ∧ public_read r c ∨
      match c with
      | verify_with_options p msg' sig' _ => p = r_path r ∧ msg' = msg ∧ sig' = sig
      | _ => False
      end
  | KGetPublicKey =>
      software_custodied r = true ∧ record_read r c ∨ public_read r c ∨
      match c with public_key_with_meta p => p = r_path r | _ => False end
  | KProviderSign msg gate =>
      software_ok r gate ∧ seed_use r c ∨
      match c with sign_pqc p msg' _ => p = r_path r ∧ msg' = msg | _ => False end
  | KProviderVerify msg sig gate =>
      software_ok r gate ∧ record_read r c ∨
      match c with
      | verify_pqc p msg' sig' _ => p = r_path r ∧ msg' = msg ∧ sig' = sig
      | _ => False
      end
  | KProviderGenerate gate =>
      software_ok r gate ∧ seed_store r c ∨
      match c with create_named_pqc_key p _ => p = r_path r | _ => False end
  | KProviderGenerateSealing _ gate => software_ok r gate ∧ seed_store r c
  | KProviderWrap _ _ _ _ gate | KProviderUnwrap _ _ _ _ gate => software_ok r gate ∧ seed_use r c
  | KEncrypt a pt aad =>
      match c with
      | encrypt p a' pt' aad' => p = r_path r ∧ a' = a ∧ pt' = pt ∧ aad' = aad
      | _ => False
      end
  | KDecrypt e aad =>
      match c with decrypt p e' aad' => p = r_path r ∧ e' = e ∧ aad' = aad | _ => False end
  | KWrap _ _ | KSealingPublicKey => public_read r c
  | KUnwrap _ _ | KUnsealCose _ _ | KEncryptNats _ _ | KDecryptNats _ _ => private_read r c
  | KGet v =>
      match c with
      | kv_get_secret p v' => p = r_path r ∧ v' = v ∧ r_class r = Value
      | kv_get p v' => p = r_path r ∧ v' = v ∧ r_class r = Public
      | _ => False
      end
  | KSet v => match c with kv_put p v' => p = r_path r ∧ v' = v | _ => False end
  | KRotate limits =>
      nix_cache (r_entry r) = None ∧ r_engine r ≠ Kv2 ∧
      match c with
      | rotate p => p = r_path r
      | configure_versions p (Some _) None => p = r_path r
      | _ => False
      end
  | KSweep _ =>
      match c with
      | key_metadata p => p = r_path r
      | configure_versions p None (Some _) => p = r_path r
      | _ => False
      end
  | KIssueSvid id ttl =>
      match c with
      | issue_x509_svid p id' ttl' => p = r_path r ∧ id' = id ∧ ttl' = ttl ∧ r_engine r = Pki
      | _ => False
      end
  | KIssueCert req =>
      match c with
      | issue_x509_cert p req' => p = r_path r ∧ req' = req ∧ r_engine r = Pki
      | _ => False
      end
  | KEnrollNix active =>
      match c with
      | nix_cache_key_posture p => p = r_path r
      | create_nix_cache_key p => p = r_path r ∧ state active = Pending
      | _ => False
      end
  | KDescribeNix _ => match c with nix_cache_key_posture p => p = r_path r | _ => False end
  | KSignNix _ fp =>
      match c with
      | nix_cache_key_posture p => p = r_path r
      | sign_nix_cache p fp' => p = r_path r ∧ fp' = fp
      | _ => False
      end
  end.

(** The call goes to the key's own backend and is in the footprint. *)
Definition own_footprint (m : BackendManager) (key_id : string) (op : KeyOp) (R : Type) (b : string)
    (c : BackendCall R) : Prop :=
  ∃ r, resolve m key_id = Ok r ∧ b = r_name r ∧ footprint r op c.

(** The keys a generated value is written with: itself, or the other half of
    its self-signed TLS pair. *)
Definition paired (m : BackendManager) (key_id other : string) : Prop :=
  other = key_id ∨
  (∃ e, In (other, e) (keys_ (catalog m)) ∧ is_pair_of key_id e = true) ∨
  (∃ e, get (keys_ (catalog m)) key_id = Some e ∧
        generate e = Some (SelfSignedTlsPairOf other)).

(** Rotating a generated value reads and writes values of its pair only. *)
Definition value_rotation (m : BackendManager) (key_id : string) {R} (b : string)
    (c : BackendCall R) : Prop :=
  ∃ r other r', resolve m key_id = Ok r ∧ r_class r = Value ∧ nix_cache (r_entry r) = None ∧
    paired m key_id other ∧ resolve m other = Ok r' ∧ r_class r' ∈ [Value; Public] ∧
    b = r_name r' ∧
    match c with
    | kv_get p v => p = r_path r' ∧ v = None
    | kv_put p _ => p = r_path r'
    | _ => False
    end.

(** Everything an operation may ask of any backend. *)
Definition within_footprint (m : BackendManager) (key_id : string) (op : KeyOp) (R : Type)
    (b : string) (c : BackendCall R) : Prop :=
  own_footprint m key_id op R b c ∨
  match op with KRotate _ => value_rotation m key_id b c | _ => False end.

Lemma require_class_Ok op key_id c allowed a :
  require_class op key_id c allowed = Ok a → c ∈ allowed.
Proof. unfold require_class. case_bool_decide; [done |]. intros [=]. Qed.

Create HintDb manager.
#[export] Hint Resolve require_class_Ok : manager.

(** *** Footprints of the local provider *)

Section local.
Context `{RC : RustCrypto} `{CC : CustodyCodec}.

Lemma calls_material (P : ∀ R, string → BackendCall R → Prop) b key_id p st op alg :
  (∀ st', st = Some st' → P _ b (kv_get p None)) →
  calls P (material (LocalSoftwareProvider_new b) key_id p st op alg).
Proof.
  intros H. unfold material. repeat calls_step.
  match goal with E : ok_or _ st = Ok _ |- _ => destruct st; [| done] end. eauto.
Qed.

(** The material names the catalog's AEAD key. *)
Lemma material_storage b key_id p st op alg :
  returns (λ r, ∀ mat, r = Ok mat → st = Some (lm_storage_key mat))
    (material (LocalSoftwareProvider_new b) key_id p st op alg).
Proof.
  unfold material. destruct st as [st |]; simpl; [| naive_solver].
  intros [kv | e]; simpl; [| naive_solver]. intros mat Hm.
  destruct (parse_for_local_software _ _ _ _ _ _) as [mat' |] eqn:Hp; simplify_eq/=.
  unfold parse_for_local_software in Hp. inv_ok Hp. done.
Qed.

Lemma calls_seed_use {A} (P : ∀ R, string → BackendCall R → Prop) b key_id p st op alg
    (f : LocalSoftwareMaterial → bytes_ → PResult A) :
  P _ b (kv_get p None) → (∀ k e aad, st = Some k → P _ b (decrypt k e (Some aad))) →
  (∀ mat seed, calls P (f mat seed)) →
  calls P (do? mat := material (LocalSoftwareProvider_new b) key_id p st op alg in
           do? seed := materialize_seed (LocalSoftwareProvider_new b) mat in f mat seed).
Proof.
  intros Hg Hd Hf. unfold ebind at 1. eapply calls_pbind_returns; [| apply material_storage |].
  { apply calls_material. auto. }
  intros [mat | e] Hm; [| exact I]. apply calls_ebind; [| auto]. apply calls_backend_op. eauto.
Qed.

Lemma calls_seal_and_store (P : ∀ R, string → BackendCall R → Prop) b q seed public :
  (∀ aad, P _ b (encrypt (spm_storage_key q) AeadAes256Gcm_ seed (Some aad))) →
  (∀ json, P _ b (kv_put (spm_backend_path q) json)) →
  calls P (seal_and_store (LocalSoftwareProvider_new b) q seed public).
Proof. intros He Hp. unfold seal_and_store. repeat calls_step; eauto. Qed.
End local.

(** A first step whose answer does not matter. *)
Ltac returns_step := apply returns_ebind; [done | apply returns_always; intros ? ? ?].

(** Two routes of one key are the same. *)
Ltac same_route :=
  repeat match goal with
  | H1 : resolve ?m ?k = Ok ?a, H2 : resolve ?m ?k = Ok ?b |- _ =>
      let E := fresh in assert (a = b) as E by congruence; subst; clear H2
  end.

Ltac bool_decides :=
  repeat match goal with
  | H : bool_decide _ = true |- _ => apply bool_decide_eq_true in H
  | H : bool_decide _ = false |- _ => apply bool_decide_eq_false in H
  | H : _ && _ = true |- _ => apply andb_true_iff in H; destruct H
  | H : negb _ = true |- _ => apply negb_true_iff in H
  | H : negb _ = false |- _ => apply negb_false_iff in H
  end.

(** Discharge [own_footprint] at a call: the route, then the footprint. *)
Ltac in_footprint :=
  same_route; bool_decides; eexists; split; [eassumption |]; split; [reflexivity |];
  split; [eauto with manager | try solve [unfold seed_use, seed_store, record_read; simpl; naive_solver]].

Section footprints.
Context `{RC : RustCrypto} `{HP : Primitives} `{HM : Minicbor} `{NB : NatsBox} `{CC : CustodyCodec}.
Variable age_identity : bytes_ → bytes_.
Variable tls : string → string → option bytes_ → result string (bytes_ * bytes_).
Variable m : BackendManager.

Lemma materialize_sealing_footprint key_id name op :
  (∀ r R (c : BackendCall R), r_class r ∈ [Sealing] → private_read r c → footprint r op c) →
  calls (own_footprint m key_id op) (materialize_sealing_private m key_id name).
Proof.
  intros Hf. unfold materialize_sealing_private. repeat calls_step.
  eexists; split; [eassumption |]; split; [reflexivity |]. apply Hf; [| done].
  by eapply require_class_Ok.
Qed.

Lemma read_public_half_footprint key_id name classes op :
  (∀ r R (c : BackendCall R), resolve m key_id = Ok r → r_class r ∈ classes →
     public_read r c → footprint r op c) →
  calls (own_footprint m key_id op) (read_public_half m key_id name classes).
Proof.
  intros Hf. unfold read_public_half. repeat calls_step.
  match goal with H : ok_or _ ?o = Ok _ |- _ => destruct o eqn:Hp; [| done]; simplify_eq/= end.
  eexists; split; [eassumption |]; split; [reflexivity |]. apply Hf; [done | | done].
  by eapply require_class_Ok.
Qed.

(** Operations that call their backend directly. *)
Lemma direct_footprint key_id op :
  match op with
  | KNewKey _ | KImport _ _ | KEncrypt _ _ _ | KDecrypt _ _ | KGet _ | KSet _ | KSweep _
  | KIssueSvid _ _ | KIssueCert _ => True
  | _ => False
  end →
  calls (own_footprint m key_id op) (perform age_identity tls m key_id op).
Proof.
  destruct op; try done; intros _; unfold perform.
  - unfold manager_new_key. repeat calls_step. in_footprint.
  - unfold manager_import. repeat calls_step. in_footprint.
  - unfold manager_encrypt. repeat calls_step. in_footprint.
  - unfold manager_decrypt. repeat calls_step. in_footprint.
  - unfold manager_get. repeat calls_step; in_footprint.
    split_and!; [done | done |].
    match goal with H : require_class _ _ _ _ = Ok _ |- _ => apply require_class_Ok in H end.
    set_solver.
  - unfold manager_set. repeat calls_step. in_footprint.
  - unfold sweep_retention. repeat calls_step; in_footprint.
  - unfold manager_issue_x509_svid. repeat calls_step. in_footprint.
  - unfold manager_issue_x509_cert. repeat calls_step. in_footprint.
Qed.

(** Nix cache keys: the route check is the class check. *)
Lemma validate_nix_cache_route_Ok key_id r version a :
  validate_nix_cache_route key_id r version = Ok a →
  kind (r_backend_ref r) = Vault ∧ r_class r = Asymmetric ∧ r_engine r = Transit ∧
  r_key_type r = Some Ed25519 ∧ version = 1%N ∧ r_path r ≠ "".
Proof. unfold validate_nix_cache_route. intros H. inv_ok H. bool_facts. by split_and!. Qed.

Lemma resolve_enrolled_Ok key_id active r :
  resolve_enrolled_nix_cache_key m key_id active = Ok r →
  resolve m key_id = Ok r ∧ r_class r = Asymmetric ∧ state active = Enrolled ∧
  kind (r_backend_ref r) = Vault ∧ r_engine r = Transit ∧ r_key_type r = Some Ed25519.
Proof.
  unfold resolve_enrolled_nix_cache_key. intros H. inv_ok H.
  match goal with H : validate_nix_cache_route _ _ _ = Ok _ |- _ =>
    apply validate_nix_cache_route_Ok in H as (? & ? & ? & ? & _) end.
  bool_facts. by split_and!.
Qed.

Lemma nix_footprint key_id op :
  match op with KEnrollNix _ | KDescribeNix _ | KSignNix _ _ => True | _ => False end →
  calls (own_footprint m key_id op) (perform age_identity tls m key_id op).
Proof.
  destruct op; try done; intros _; unfold perform.
  - unfold enroll_nix_cache_key. repeat calls_step.
    all:
    match goal with H : validate_nix_cache_route _ _ _ = Ok _ |- _ =>
      apply validate_nix_cache_route_Ok in H as (_ & Hc & _) end;
    in_footprint; rewrite Hc; set_solver.
  - unfold describe_nix_cache_key. repeat calls_step;
    match goal with H : resolve_enrolled_nix_cache_key _ _ _ = Ok _ |- _ =>
      apply resolve_enrolled_Ok in H as (? & Hc & _) end;
    in_footprint; rewrite Hc; set_solver.
  - unfold sign_nix_cache_fingerprint. repeat calls_step;
    match goal with H : resolve_enrolled_nix_cache_key _ _ _ = Ok _ |- _ =>
      apply resolve_enrolled_Ok in H as (? & Hc & _) end;
    in_footprint; rewrite Hc; set_solver.
Qed.
(** Operations on the halves of a materialize-to-use key. *)
Lemma sealing_footprint key_id op :
  match op with
  | KWrap _ _ | KUnwrap _ _ | KUnsealCose _ _ | KEncryptNats _ _ | KDecryptNats _ _
  | KSealingPublicKey => True
  | _ => False
  end →
  calls (own_footprint m key_id op) (perform age_identity tls m key_id op).
Proof.
  destruct op; try done; intros _; unfold perform.
  - unfold manager_wrap_envelope. repeat calls_step.
    apply read_public_half_footprint. done.
  - unfold manager_unwrap_envelope. repeat calls_step.
    by apply materialize_sealing_footprint.
  - unfold unseal_cose. repeat calls_step.
    by apply materialize_sealing_footprint.
  - unfold encrypt_nats_curve. repeat calls_step.
    by apply materialize_sealing_footprint.
  - unfold decrypt_nats_curve. repeat calls_step.
    by apply materialize_sealing_footprint.
  - unfold sealing_public_key. repeat calls_step.
    apply read_public_half_footprint. done.
Qed.

Lemma recorded_footprint key_id r token t :
  resolve m key_id = Ok r → r_class r ∈ allowed_classes KGetPublicKey →
  software_custodied r = true →
  calls (own_footprint m key_id KGetPublicKey) (recorded_public_key r key_id token t).
Proof.
  intros Hr Hc Hs. unfold recorded_public_key, local_public_key. repeat calls_step.
  apply calls_material. intros st _. exists r.
  split; [done |]; split; [done |]; split; [done |]. by left.
Qed.

Lemma signing_footprint key_id op :
  match op with KSign _ | KVerify _ _ | KGetPublicKey => True | _ => False end →
  calls (own_footprint m key_id op) (perform age_identity tls m key_id op).
Proof.
  destruct op; try done; intros _; unfold perform.
  - unfold manager_sign, materialize_signing_seed. repeat calls_step; in_footprint.
  - unfold manager_verify. repeat calls_step; [| in_footprint].
    apply read_public_half_footprint. intros r ??? Hc ?. same_route; bool_decides.
    split; [simpl; set_solver | by left].
  - unfold manager_get_public_key. repeat calls_step.
    + destruct (bool_decide _ && _) eqn:Hb; [| done]. bool_decides.
      apply recorded_footprint; [done | simpl; set_solver | done].
    + destruct (software_custodied _) eqn:Hb; [| done].
      match goal with H : require_class _ _ _ _ = Ok _ |- _ => apply require_class_Ok in H end.
      apply recorded_footprint; [done | simpl; set_solver | done].
    + apply read_public_half_footprint. intros r ??? Hc ?.
      split; [simpl; set_solver | by right; left].
    + match goal with H : require_class _ _ _ _ = Ok _ |- _ => apply require_class_Ok in H end.
      eexists; split; [eassumption |]; split; [done |]. split; [simpl; set_solver | by right; right].
Qed.

(** The local-software provider is selected only for a caller with the grant
    and a key under software custody. *)
Lemma select_local_only r native gate op :
  select_provider_for r native gate op = Ok LocalSoftware → software_ok r gate.
Proof.
  unfold select_provider_for, software_ok, software_custodied, select_provider,
    select_backend_required, select_backend_preferred, select_local_software,
    require_local_software_allowed, require_software_custody.
  destruct (from_key (r_entry r)) as [pr [] [[] |]]; simpl;
    destruct (local_software_allowed gate), native as [a |]; simpl;
    try destruct (supports_native_algorithm _ a); done.
Qed.

Lemma require_ml_dsa_native key_id r a :
  require_ml_dsa key_id r = Ok a → ∃ n, native_algorithm a = Some n.
Proof.
  unfold require_ml_dsa. destruct (r_key_type r) as [[] |]; simpl; intros; simplify_eq/=; eauto.
Qed.

Ltac local_footprint :=
  intros;
  match goal with H : select_provider_for _ _ _ _ = Ok LocalSoftware |- _ =>
    apply select_local_only in H end;
  repeat match goal with H : ok_or _ ?o = Ok _ |- _ => destruct o eqn:?; [| done]; simplify_eq/= end;
  in_footprint.

Lemma provider_footprint key_id op :
  match op with
  | KProviderSign _ _ | KProviderVerify _ _ _ | KProviderGenerate _ | KProviderGenerateSealing _ _
  | KProviderWrap _ _ _ _ _ | KProviderUnwrap _ _ _ _ _ => True
  | _ => False
  end →
  calls (own_footprint m key_id op) (perform age_identity tls m key_id op).
Proof.
  destruct op; try done; intros _; unfold perform.
  - unfold provider_sign, dispatch, provider_sign_op; simpl. repeat calls_step.
    + unfold backend_sign; cbn [sq_algorithm].
      edestruct require_ml_dsa_native as [n ->]; [eassumption |]. calls_step. in_footprint.
    + unfold local_sign. calls_step. apply calls_seed_use; [local_footprint.. | intros; exact I].
  - unfold provider_verify, dispatch, provider_verify_op; simpl. repeat calls_step.
    + unfold backend_verify; cbn [vq_algorithm].
      edestruct require_ml_dsa_native as [n ->]; [eassumption |]. calls_step. in_footprint.
    + unfold local_verify. repeat calls_step. apply calls_material. intros. local_footprint.
  - unfold provider_generate, dispatch, generate_key; simpl. repeat calls_step.
    + unfold backend_generate_key; cbn [gk_algorithm].
      edestruct require_ml_dsa_native as [n ->]; [eassumption |]. calls_step. in_footprint.
    + unfold local_generate_key. repeat calls_step. apply calls_seal_and_store; local_footprint.
  - unfold provider_generate_sealing, dispatch, generate_sealing_key; simpl. repeat calls_step.
    + done.
    + unfold local_generate_sealing_key. repeat calls_step.
      apply calls_seal_and_store; local_footprint.
  - unfold provider_wrap_envelope, dispatch, wrap_envelope; simpl. repeat calls_step.
    + done.
    + unfold local_wrap_envelope.
      apply calls_seed_use; [local_footprint.. | intros; repeat calls_step].
  - unfold provider_unwrap_envelope, dispatch, unwrap_envelope; simpl. repeat calls_step.
    + done.
    + unfold local_unwrap_envelope.
      apply calls_seed_use; [local_footprint.. | intros; repeat calls_step].
Qed.
(** Rotation: of a cryptographic key in place, of a value with its pair. *)
Lemma calls_write_generated key_id limits ws rotated r :
  resolve m key_id = Ok r → r_class r = Value → nix_cache (r_entry r) = None →
  Forall (λ w, paired m key_id (gw_key_id w)) ws →
  calls (within_footprint m key_id (KRotate limits)) (write_generated m key_id ws rotated).
Proof.
  intros Hr Hv Hn Hws. revert rotated.
  induction Hws as [| w ws Hw Hws IH]; intros rotated; cbn [write_generated]; [done |].
  calls_step. calls_step. calls_step; [| apply IH].
  right. eexists r, _, _. split_and!; try done. by eapply require_class_Ok.
Qed.

Lemma tls_pair_paired key_id pair :
  tls_pair_key_for_cert m key_id = Some pair → paired m key_id pair.
Proof.
  unfold tls_pair_key_for_cert. intros H. right; left.
  destruct (List.find _ _) as [[k e] |] eqn:Hf; simplify_eq/=.
  apply List.find_some in Hf as [Hin Hp]. eauto.
Qed.

Lemma calls_generate_value P spec : calls P (generate_value age_identity tls spec).
Proof.
  destruct spec; cbn [generate_value]; try done.
  apply calls_pbind; [| done]. induction (N.to_nat _) as [| n IH]; [done |]. cbn [ascii_value].
  apply calls_draw. intros x. by apply calls_pbind.
Qed.

Lemma calls_generated_writes key_id limits spec r :
  resolve m key_id = Ok r → r_class r = Value → nix_cache (r_entry r) = None →
  calls (within_footprint m key_id (KRotate limits))
    (generated_writes_for_key age_identity tls m key_id spec).
Proof.
  intros Hr Hv Hn. destruct spec; cbn [generated_writes_for_key];
    try (calls_step; [apply calls_generate_value | done]).
  - destruct (tls_pair_key_for_cert m key_id) as [pair |] eqn:Hp; [| by calls_step].
    calls_step; [| by calls_step]. unfold try_existing_value. repeat calls_step.
    right. eexists r, _, _. split_and!; try done; [by apply tls_pair_paired |].
    by eapply require_class_Ok.
  - repeat calls_step.
Qed.

Ltac all_paired := by repeat first [assumption | apply List.Forall_cons | apply List.Forall_nil].

Lemma generated_writes_paired key_id spec r :
  resolve m key_id = Ok r → generate (r_entry r) = Some spec →
  returns (λ res, ∀ ws, res = Ok ws → Forall (λ w, paired m key_id (gw_key_id w)) ws)
    (generated_writes_for_key age_identity tls m key_id spec).
Proof.
  intros Hr Hg. apply resolve_Ok in Hr as (He & _).
  assert (paired m key_id key_id) by by left.
  destruct spec; cbn [generated_writes_for_key];
    try (returns_step; intros ws [= <-]; all_paired).
  - destruct (tls_pair_key_for_cert m key_id) as [pair |] eqn:Hp.
    + assert (paired m key_id pair) by by apply tls_pair_paired.
      returns_step. returns_step.
      match goal with |- context [match ?e with None => _ | Some _ => _ end] => destruct e end;
        intros ws [= <-]; all_paired.
    + returns_step. intros ws [= <-]. all_paired.
  - assert (paired m key_id pair_of) by (right; right; eauto).
    returns_step. returns_step. intros ws [= <-]. all_paired.
Qed.

Lemma rotate_footprint key_id limits :
  calls (within_footprint m key_id (KRotate limits))
    (perform age_identity tls m key_id (KRotate limits)).
Proof.
  unfold perform, manager_rotate. calls_step. calls_step. calls_step.
  calls_step; [done |]. destruct (nix_cache (r_entry a)) eqn:Hn; [done |].
  calls_step; [done |]. calls_step; bool_decides.
  - calls_step. destruct (generate (r_entry a)) as [spec |] eqn:Hg; [| done]. simplify_eq/=.
    unfold ebind at 1. eapply calls_pbind_returns; [| by eapply generated_writes_paired |].
    + by eapply calls_generated_writes.
    + intros [ws |] Hws; [| done]. calls_step; [| done].
      eapply calls_write_generated; eauto.
  - assert (r_engine a ≠ Kv2).
    { intros Hk. match goal with H : context [bool_decide (r_engine a = Kv2)] |- _ =>
        by rewrite bool_decide_eq_true_2 in H end. }
    calls_step; [left; in_footprint | cbv zeta]. repeat calls_step. left; in_footprint.
Qed.
Lemma perform_footprint key_id op :
  calls (within_footprint m key_id op) (perform age_identity tls m key_id op).
Proof.
  assert (∀ p : MResult unit, calls (own_footprint m key_id op) p → calls (within_footprint m key_id op) p)
    as Hown by (intros p; apply calls_impl; by left).
  destruct op;
    first [by apply rotate_footprint | by apply Hown, direct_footprint | by apply Hown, nix_footprint
          | by apply Hown, sealing_footprint | by apply Hown, signing_footprint
          | by apply Hown, provider_footprint].
Qed.

(** C12: whatever the backends answer, an operation asks only what its
    footprint allows, of the key's own backend: nothing before the key's class
    is one the operation is defined on; a private half stored as a value is
    read only to sign, to open what was sealed to it and for NATS boxes, never
    to verify, to seal or to answer a public key, which read public paths and
    custody records only (comments on [verify] and on sealing keys say the
    public half is derived from the private one; the code does not do that);
    the software-custody seed is unwrapped only to sign, seal or open, for a
    caller with the grant and a key under software custody, under the catalog's
    AEAD key; [get] reaches only values and public material; a Nix cache key is
    created by enrolment only while it is pending, and never rotated; only
    rotating a generated value touches another key, the other half of its TLS
    pair. *)
Theorem operations_stay_in_footprint key_id op :
  calls (within_footprint m key_id op) (perform age_identity tls m key_id op).
Proof. apply perform_footprint. Qed.

(** Keys are isolated by backend: the outcome of an operation on a key,
    and the state it leaves, do not depend on how any backend other than the
    key's own answers (rotation of a generated value aside). *)
Theorem other_backends_do_not_matter {S} (w w' : World S) key_id op s :
  match op with KRotate _ => False | _ => True end →
  (∀ r R (c : BackendCall R) s, resolve m key_id = Ok r →
     answer w (r_name r) c s = answer w' (r_name r) c s) →
  (∀ n s, random w n s = random w' n s) →
  run w (perform age_identity tls m key_id op) s = run w' (perform age_identity tls m key_id op) s.
Proof.
  intros Hop Ha Hr. eapply run_agree; [apply perform_footprint | | done].
  intros R b c s' [(r & Hk & -> & _) | Hv]; [by apply Ha |]. by destruct op.
Qed.

(** No operation asks anything of any backend for a key the catalog does not
    have. *)
Lemma unknown_key_no_call key_id op :
  get (keys_ (catalog m)) key_id = None →
  calls (λ _ _ _, False) (perform age_identity tls m key_id op).
Proof.
  intros Hn. eapply calls_impl; [| apply perform_footprint].
  assert (∀ r, resolve m key_id ≠ Ok r) as Hno.
  { intros r Hr. apply resolve_Ok in Hr as [? _]. congruence. }
  intros R b c [(r & Hr & _) | Hv]; [by eapply Hno |].
  destruct op; try done. destruct Hv as (r & _ & _ & Hr & _). by eapply Hno.
Qed.

(** The public operations (verify, read a public key, seal to a key) never
    read a secret, unwrap a seed or decrypt. *)
Theorem public_operations_read_no_secret key_id op :
  match op with
  | KVerify _ _ | KProviderVerify _ _ _ | KGetPublicKey | KWrap _ _ | KSealingPublicKey => True
  | _ => False
  end →
  calls (λ _ _ c, match c with kv_get_secret _ _ | decrypt _ _ _ => False | _ => True end)
    (perform age_identity tls m key_id op).
Proof.
  intros Hop. eapply calls_impl; [| apply perform_footprint].
  intros R b c [(r & _ & _ & _ & Hc) | Hv]; destruct op; try done; destruct c; try done;
    naive_solver.
Qed.
End footprints.

(** ** Results *)

Lemma returns_lift {E A B} (Q : result E B → Prop) (r : result E A) f :
  (∀ e, Q (Err e)) → (∀ a, r = Ok a → returns Q (f a)) → returns Q (ebind (lift r) f).
Proof. intros He Hf. apply returns_ebind; [done |]. simpl. intros a ->. eauto. Qed.

Ltac returns_lift := apply returns_lift; [done | intros ? ?].

Section nix.
Context `{RC : RustCrypto}.
Variable m : BackendManager.

Lemma nix_posture_pinned key_id active posture a b :
  validate_nix_cache_posture key_id posture = Ok a →
  validate_nix_cache_pin key_id active posture = Ok b →
  np_latest_version posture = 1%N ∧ backend_version active = 1%N ∧
  public_key active = Some (np_public_key posture) ∧ np_exportable posture = false ∧
  np_deletion_allowed posture = false ∧ np_auto_rotation_disabled posture = true.
Proof.
  unfold validate_nix_cache_posture, validate_nix_cache_pin. intros Hp Hb.
  repeat match type of Hp with context [if ?c then _ else _] => destruct c eqn:?; [done |] end.
  inv_ok Hb. bool_facts. split_and!; try done; congruence.
Qed.

(** A Nix cache signature is released only if it verifies, over exactly the
    fingerprint asked for, under the public key pinned in the catalog, for an
    enrolled Ed25519 key of a Vault transit backend. *)
Lemma sign_nix_returns key_id active fingerprint :
  returns (λ r, ∀ out, r = Ok out →
      ∃ routed public, resolve m key_id = Ok routed ∧
        state active = Enrolled ∧ public_key active = Some public ∧
        kind (r_backend_ref routed) = Vault ∧ r_key_type routed = Some Ed25519 ∧
        r_engine routed = Transit ∧
        ns_identity out = {| nd_key_name := key_name active; nd_public_key := public;
                             nd_backend_version := 1 |} ∧
        ed25519_verify_sig public fingerprint (ns_signature out) = Ok true)
    (sign_nix_cache_fingerprint m key_id active fingerprint).
Proof.
  unfold sign_nix_cache_fingerprint. returns_lift. returns_step. do 2 returns_lift.
  returns_step. case_match; [done |]. returns_step. do 2 returns_lift. case_match; [done |].
  do 2 returns_lift. case_match; [done |]. intros out [= <-]. simpl.
  match goal with H : resolve_enrolled_nix_cache_key _ _ _ = Ok _ |- _ =>
    apply resolve_enrolled_Ok in H as (? & _ & ? & ? & ? & ?) end.
  match goal with
  | Hp : validate_nix_cache_posture _ ?p = Ok _, Hv : validate_nix_cache_pin _ _ ?p = Ok _
    |- context [np_latest_version ?p] =>
      destruct (nix_posture_pinned _ _ _ _ _ Hp Hv) as (-> & _ & Hpub & _)
  end.
  repeat match goal with H : map_err _ ?r = Ok ?v |- _ => destruct r eqn:?; [| done]; simplify_eq/= end.
  rewrite Hpub in *. simplify_eq/=. eexists _, _. split_and!; try done.
  match goal with H : negb ?v = false |- _ => by destruct v end.
Qed.
End nix.

(** ** Versions *)

Section versions.
Context `{RC : RustCrypto} `{HP : Primitives} `{HM : Minicbor} `{NB : NatsBox} `{CC : CustodyCodec}.
Variable age_identity : bytes_ → bytes_.
Variable tls : string → string → option bytes_ → result string (bytes_ * bytes_).
Variable m : BackendManager.

(** The versions the grace floor keeps are the latest and [grace_versions]
    before it. *)
Lemma grace_floor_spec l latest v :
  (1 <= latest)%N →
  (grace_floor l latest <= v)%N ↔ (1 <= v)%N ∧ (latest <= v + grace_versions l)%N.
Proof. intros. unfold grace_floor. destruct (N.ltb_spec (latest - grace_versions l) 1); lia. Qed.

Lemma retention_floor_spec l retain latest v :
  retain_versions l = Some retain → (1 <= latest)%N →
  ∃ floor, retention_floor l latest = Some floor ∧ (1 <= floor <= latest)%N ∧
    ((floor <= v)%N ↔ (1 <= v)%N ∧ (latest <= v + retain)%N).
Proof.
  intros Hr Hl. unfold retention_floor. rewrite Hr. eexists. split; [done |].
  destruct (N.ltb_spec (latest - retain) 1); lia.
Qed.

(** The sweep leaves every version inside the grace window available exactly
    when the configuration retains at least as many versions as the window. *)
Lemma retention_spares_grace l retain :
  retain_versions l = Some retain →
  (∀ latest floor, (1 <= latest)%N → retention_floor l latest = Some floor →
     (floor <= grace_floor l latest)%N) ↔ (grace_versions l <= retain)%N.
Proof.
  intros Hr. unfold retention_floor, grace_floor. rewrite Hr. split.
  - intros H. specialize (H (grace_versions l + retain + 1)%N _ ltac:(lia) eq_refl).
    destruct (N.ltb_spec (grace_versions l + retain + 1 - retain) 1); [lia |].
    destruct (N.ltb_spec (grace_versions l + retain + 1 - grace_versions l) 1); lia.
  - intros Hg latest floor Hl [= <-].
    destruct (N.ltb_spec (latest - retain) 1), (N.ltb_spec (latest - grace_versions l) 1); lia.
Qed.

(** C37: rotating a key that is not a value key.  A key that is neither
    asymmetric nor symmetric, a Nix cache key and a key kept in a value store
    are refused, each with its own error, and no backend is asked.  For any other key the
    backend is asked for a new version; its refusal is reported.  The new
    version, when the backend numbers it from 1, is the answer, once the
    backend was told to stop using exactly the versions outside the grace
    window: a backend that has no version window is left alone, any other
    refusal of that step is reported. *)
Theorem rotate_applies_grace {S} (w : World S) limits key_id r s :
  resolve m key_id = Ok r → r_class r ≠ Value →
  let rotated := run w (manager_rotate age_identity tls m key_id limits) s in
  (r_class r ∉ [Asymmetric; Symmetric] →
   rotated = (Err (OpNotValidForClass "rotate" key_id (r_class r)), s)) ∧
  (r_class r ∈ [Asymmetric; Symmetric] →
   (is_Some (nix_cache (r_entry r)) → rotated = (Err (NixCacheRotationForbidden key_id), s)) ∧
   (nix_cache (r_entry r) = None → r_engine r = Kv2 →
    ∃ reason, rotated = (Err (ManagerUnsupported reason), s)) ∧
   (nix_cache (r_entry r) = None → r_engine r ≠ Kv2 → ∀ s1,
    (∀ e, answer w (r_name r) (rotate (r_path r)) s = (Err e, s1) →
       rotated = (Err (MBackend e), s1)) ∧
    ∀ v, (1 <= v)%N → answer w (r_name r) (rotate (r_path r)) s = (Ok v, s1) →
      ∃ floor, (∀ x, (floor <= x)%N ↔ (1 <= x)%N ∧ (v <= x + grace_versions limits)%N) ∧
        ∀ applied s2,
          answer w (r_name r) (configure_versions (r_path r) (Some floor) None) s1 = (applied, s2) →
          rotated = (match applied with
                     | Ok _ | Err (UnsupportedOp _) => Ok v
                     | Err e => Err (MBackend e)
                     end, s2))).
Proof.
  intros Hr Hnv rotated. subst rotated. unfold manager_rotate. rewrite Hr.
  rewrite (run_ebind_Ok _ _ _ _ r s) by done. unfold require_class. split.
  { intros Hc. by rewrite bool_decide_eq_false_2 by set_solver. }
  intros Hc. rewrite bool_decide_eq_true_2 by set_solver.
  rewrite (run_ebind_Ok _ _ _ _ tt s), (bool_decide_eq_false_2 _ Hnv) by done. cbn [negb].
  split_and!; [by intros [? ->] | intros -> ->; by eexists |]. intros -> He s1.
  rewrite (bool_decide_eq_false_2 _ He). cbn [andb]. split.
  - intros e Hrot. cbn. by rewrite Hrot.
  - intros v Hv Hrot. exists (grace_floor limits v).
    split; [intros; by apply grace_floor_spec |]. intros applied s2 Hcfg.
    rewrite (run_ebind_Ok _ _ _ _ v s1) by (cbn; by rewrite Hrot).
    cbn. rewrite Hcfg. by destruct applied as [| []].
Qed.
End versions.

(** ** Listing *)

Section listing.
Variable m : BackendManager.

(** A listing asks only for the metadata of keys it may show. *)
Lemma calls_manager_list prefix visible :
  calls (λ R b c, ∃ key r, list_shows prefix visible key = true ∧ resolve m key = Ok r ∧
           b = r_name r ∧ match c with key_metadata p => p = r_path r | _ => False end)
    (manager_list m prefix visible).
Proof.
  unfold manager_list. induction (keys_ (catalog m)) as [| [name entry] ks IH]; [done |].
  cbn [list_keys]. destruct (list_shows prefix visible name) eqn:Hl; [| done].
  apply calls_pbind.
  - destruct (resolve m name) as [r |] eqn:Hr; [| done]. split; [eauto 10 | done].
  - intros meta. destruct (match meta with Some md => _ | None => _ end) as [t v].
    by apply calls_ebind.
Qed.

(** A listing always succeeds, and shows exactly the catalog keys that
    have the prefix and are visible, once each, in catalog order, whatever
    the backends answer. *)
Theorem manager_list_exact prefix visible :
  returns (λ r, ∃ l, r = Ok l ∧
      map wc_name l = List.filter (list_shows prefix visible) (map fst (keys_ (catalog m))))
    (manager_list m prefix visible).
Proof.
  unfold manager_list. induction (keys_ (catalog m)) as [| [name entry] ks IH]; [by exists [] |].
  cbn [list_keys map fst List.filter]. destruct (list_shows prefix visible name) eqn:Hl; [| done].
  apply returns_pbind, returns_always. intros meta.
  destruct (match meta with Some md => _ | None => _ end) as [t v].
  apply returns_pbind. eapply returns_impl; [| exact IH].
  intros r (l & -> & Hl'). eexists. split; [done |]. simpl. by rewrite Hl'.
Qed.
End listing.
