(* ===== verification/Transport.v ===== *)
(** * Request authorization
      ([crates/basil-core/src/transport/mod.rs], [service/broker.rs],
       [core/state.rs])

    A handler is a program with four effects: it reads the serving policy
    generation, which a reload may have replaced since the last read; it asks
    the backend manager; it emits audit records, connection identities and
    broker events.  [authorize] is the gate every key-scoped handler calls
    first. *)

From S2P Require Import Prelude RustStr BTreeMap Glob Policy Evidence Nkey Schema Actor Pdp.
From S2P Require Import Decision Backend CryptoProvider Manager.

(** ** State *)

(** The catalog, policy and tables of a [Generation]; its listeners and
    federation catalog are not read here. *)
Record Generation := {
  gen_id : N;
  gen_catalog : Catalog;
  gen_policy : ResolvedPolicy;
  gen_config : Config;
}.

Definition gen_pdp (g : Generation) : Pdp :=
  {| pdp_catalog := gen_catalog g; pdp_policy := gen_policy g; pdp_config := gen_config g |}.

Inductive BrokerEventKind :=
| KeyRotated (key_id : string) (new_version : N)
| BundleChanged (trust_domain : string)
| Revoked (trust_domain id : string).

Inductive ProviderAuditOutcome := AuditAllow | AuditDeny | AuditSuccess | AuditFailure.

Record ProviderAuditEvent := {
  pa_op : string;
  pa_key_id : string;
  pa_key_version : option N;
  pa_algorithm : string;
  pa_provider : CryptoProviderId;
  pa_custody : CustodyMode;
  pa_caller_uid : N;
  pa_outcome : ProviderAuditOutcome;
  pa_reason : string;
}.

(** [core/nix_cache_audit.rs]: the record of one Nix cache operation. *)
Inductive NixCacheAuditOp := NixDescribe | NixEnroll | NixSign.
Inductive NixCacheAuditOutcome := NixDeny | NixSuccess | NixFailure.

Record NixCacheAuditEvent := {
  nx_op : NixCacheAuditOp;
  nx_policy_subject : option string;
  nx_presenter_pid : option N;
  nx_presenter_uid : option N;
  nx_generation : N;
  nx_key_id : string;
  nx_key_name : option string;
  nx_backend_version : option N;
  nx_batch_id : list N;
  nx_request_id : list N;
  nx_fingerprint_sha256 : option string;
  nx_outcome : NixCacheAuditOutcome;
  nx_reason : string;
}.

(** ** Programs *)

(** [record_decision], [record_provider_event], [record_nix_cache_event],
    [record_actor] and [key_rotated]. *)
Inductive Effect :=
| Decided (r : DecisionRecord)
| ProviderEvent (e : ProviderAuditEvent)
| NixCacheEvent (e : NixCacheAuditEvent)
| ConnectionActor (connection : N) (actor : AuthenticatedActor)
| Published (e : BrokerEventKind).

(** [SLoad] is one [load_generation]; [SLoads] the one per key that a
    visibility test makes while a listing runs. *)
Inductive Svc (A : Type) : Type :=
| SRet (a : A)
| SLoad (k : Generation → Svc A)
| SLoads (k : (string → Generation) → Svc A)
| SEmit (e : Effect) (k : Svc A)
| SManager (B : Type) (p : MResult B) (k : result ManagerError B → Svc A).
Arguments SRet {A} a.
Arguments SLoad {A} k.
Arguments SLoads {A} k.
Arguments SEmit {A} e k.
Arguments SManager {A B} p k.

Fixpoint sbind {A B} (m : Svc A) (f : A → Svc B) : Svc B :=
  match m with
  | SRet a => f a
  | SLoad k => SLoad (λ g, sbind (k g) f)
  | SLoads k => SLoads (λ g, sbind (k g) f)
  | SEmit e k => SEmit e (sbind k f)
  | SManager p k => SManager p (λ r, sbind (k r) f)
  end.

Definition sebind {E A B} (m : Svc (result E A)) (f : A → Svc (result E B)) : Svc (result E B) :=
  sbind m (λ r, match r with Ok a => f a | Err e => SRet (Err e) end).

Declare Scope svc_scope.
Delimit Scope svc_scope with svc.
Notation "'run!' x := m 'in' k" := (sbind m (λ x, k))
  (at level 10, x binder, m at level 100, k at level 200) : svc_scope.
Notation "'run?' x := m 'in' k" := (sebind m (λ x, k))
  (at level 10, x binder, m at level 100, k at level 200) : svc_scope.
Notation "'reject' e 'when' b 'otherwise' k" := (if (b : bool) then SRet (Err e) else k)
  (at level 10, e at level 100, b at level 100, k at level 200) : svc_scope.
Open Scope svc_scope.

Definition slift {E A} (r : result E A) : Svc (result E A) := SRet r.
Definition emit (e : Effect) : Svc unit := SEmit e (SRet tt).
Definition load_generation : Svc Generation := SLoad SRet.
Definition manager {B} (p : MResult B) : Svc (result ManagerError B) := SManager p SRet.

(** ** Statuses *)

Inductive Code :=
| InvalidArgument | ResourceExhausted | Unimplemented | PermissionDenied | UnavailableCode
| Internal | Unauthenticated | FailedPrecondition.

(** The gRPC status with its [BrokerErrorInfo] detail. *)
Record Status := { st_code : Code; st_reason : string; st_op : string; st_message : string }.

Definition broker_status (code : Code) (reason op message : string) : Status :=
  {| st_code := code; st_reason := reason; st_op := op; st_message := message |}.

Definition resolution_status (op : Op) (e : SubjectResolutionError) : Status :=
  match e with
  | MissingPeerCredentials =>
      broker_status Unauthenticated "UNAUTHENTICATED" (Op_token op) "missing peer credentials"
  | ActorNoSubject _ _ | ActorAmbiguousSubject _ _ _ _ _ _ | ActorDomainUnavailable
  | ActorEvidenceUnavailable _ _ _ _ _ _ =>
      broker_status PermissionDenied "UNAUTHORIZED" (Op_token op) "not authorized"
  end.

(** ** Requests *)

Inductive ListenerType := Host | Courier.

#[export] Instance ListenerType_eq_dec : EqDecision ListenerType.
Proof. solve_decision. Defined.

Record ListenerConnectInfo := {
  connection_id : N;
  listener_name : string;
  listener_type : ListenerType;
  listener_peer : PeerInfo;
}.

(** The request extensions the code reads: the peer and listener the server
    attached, and the socket's credentials (pid, uid, gid). *)
Record Extensions := {
  ext_peer : option PeerInfo;
  ext_listener : option ListenerConnectInfo;
  ext_uds : option (option N * N * N);
}.

Section transport.
(** [/proc/<pid>/exe], and the encodings of [resolve_local_actor]. *)
Variable proc_exe : N → option string.
Variable sha256 : list N → list N.
Variable url_safe_no_pad_encode : list N → string.

Definition from_unix_cred (pid : option N) (uid gid : N) : PeerInfo :=
  let exe := match pid with Some pid => proc_exe pid | None => None end in
  {| peer_pid := pid; peer_uid := Some uid; peer_gid := Some gid; peer_executable := exe;
     peer_attestation_class := match exe with Some _ => "PeerCred" | None => "Unknown" end;
     peer_subject_id := None; peer_signature_valid := false; peer_display_label := exe |}.

Definition peer_from_extensions (x : Extensions) : PeerInfo :=
  match ext_peer x with
  | Some peer => peer
  | None =>
      match ext_listener x with
      | Some info => listener_peer info
      | None =>
          match ext_uds x with
          | Some (pid, uid, gid) => from_unix_cred pid uid gid
          | None => PeerInfo_default
          end
      end
  end.

Definition gen_resolve_local_actor (g : Generation) (peer : PeerInfo)
    : result SubjectResolutionError AuthenticatedActor :=
  resolve_local_actor sha256 url_safe_no_pad_encode (gen_policy g) (gen_config g) peer.

Definition not_permitted (generation : N) (actor : AuthenticatedActor) (op : Op) (key : string)
    : Effect :=
  Decided (from_actor_decision generation actor op key (Deny NotPermitted)).

Definition enforce_listener_domain_info (generation : N) (listener : ListenerConnectInfo)
    (actor : AuthenticatedActor) (op : Op) (key : string) : Svc (result Status unit) :=
  run! _ := emit (ConnectionActor (connection_id listener) actor) in
  match listener_type listener with
  | Host => SRet (Ok tt)
  | Courier =>
      run! _ := emit (not_permitted generation actor op key) in
      SRet (Err (broker_status PermissionDenied "LISTENER_DOMAIN_MISMATCH" (Op_token op)
                   "listener does not admit resolved workload domain"))
  end.

Definition enforce_listener_domain_extensions (generation : N) (x : Extensions)
    (actor : AuthenticatedActor) (op : Op) (key : string) : Svc (result Status unit) :=
  match ext_listener x with
  | None =>
      run! _ := emit (not_permitted generation actor op key) in
      SRet (Err (broker_status UnavailableCode "LISTENER_CONTEXT_UNAVAILABLE" (Op_token op)
                   "listener context unavailable"))
  | Some listener => enforce_listener_domain_info generation listener actor op key
  end.

Definition resolution_reason (e : SubjectResolutionError) : string :=
  match e with
  | MissingPeerCredentials | ActorNoSubject _ _ => "no_actor_subject"
  | ActorDomainUnavailable => "actor_domain_unavailable"
  | ActorAmbiguousSubject _ _ _ _ _ _ => "ambiguous_actor_subject"
  | ActorEvidenceUnavailable _ _ _ _ _ _ => "actor_evidence_unavailable"
  end.

Definition record_resolution_error (generation : N) (peer : PeerInfo) (op : Op) (key : string)
    (e : SubjectResolutionError) : Svc unit :=
  emit (Decided (from_subject_resolution_error generation peer op key e (resolution_reason e))).

(** The failure keeps the resolved actor for denial auditing. *)
Definition authorize_extensions_in_generation_detailed (g : Generation) (x : Extensions) (op : Op)
    (key : string) : Svc (result (option AuthenticatedActor * Status) AuthenticatedActor) :=
  let peer := peer_from_extensions x in
  match gen_resolve_local_actor g peer with
  | Err e =>
      run! _ := record_resolution_error (gen_id g) peer op key e in
      SRet (Err (None, resolution_status op e))
  | Ok actor =>
      run! admitted := enforce_listener_domain_extensions (gen_id g) x actor op key in
      match admitted with
      | Err status => SRet (Err (Some actor, status))
      | Ok _ =>
          let d := decide_key (gen_pdp g) actor op key in
          run! _ := emit (Decided (from_actor_decision (gen_id g) actor op key d)) in
          if is_deny d then
            SRet (Err (Some actor,
                       broker_status PermissionDenied "UNAUTHORIZED" (Op_token op)
                         "not authorized"))
          else SRet (Ok actor)
      end
  end.

Definition authorize_in_generation (g : Generation) (x : Extensions) (op : Op) (key : string)
    : Svc (result Status AuthenticatedActor) :=
  run! r := authorize_extensions_in_generation_detailed g x op key in
  SRet (map_err snd r).

Definition authorize (x : Extensions) (op : Op) (key : string)
    : Svc (result Status AuthenticatedActor) :=
  run! g := load_generation in authorize_in_generation g x op key.

(** The same decisions, each against the generation it loads. *)
Definition visible_in (g : Generation) (actor : AuthenticatedActor) (key : string) : bool :=
  is_allow (decide_key (gen_pdp g) actor List_ key)
  || is_allow (decide_key (gen_pdp g) actor GetPublicKey key)
  || is_allow (decide_key (gen_pdp g) actor Get key).

Definition require_unix_uid (actor : AuthenticatedActor) (op : string) : result Status N :=
  ok_or (broker_status Unauthenticated "UNAUTHENTICATED" op
           "operation requires local peer credentials") (unix_uid actor).

Definition provider_gate (actor : AuthenticatedActor) (key : string) : Svc ProviderGate :=
  run! g := load_generation in
  SRet {| local_software_allowed :=
            is_allow (decide_key (gen_pdp g) actor UseSoftwareCustody key) |}.

(** The presenter of a record is the caller's executable path as the kernel
    reports it: unlike the key and the subject, it is not escaped. *)
Lemma presenter_is_executable generation pid uid gid exe op key e reason :
  proc_exe pid = Some exe →
  dr_presenter_id
    (from_subject_resolution_error generation (from_unix_cred (Some pid) uid gid) op key e reason) =
  exe.
Proof.
  intros H. unfold from_subject_resolution_error, resolution_record, presenter_from_peer,
    from_unix_cred. rewrite H. by destruct (error_subject_counts e) as [[]].
Qed.
End transport.
