(* ===== verification/Service.v ===== *)
(** * The broker services
      ([crates/basil-core/src/service/shared.rs], [secret.rs], [signing.rs],
       [aead.rs])

    The handlers of the secret, signing and AEAD services: authorize, check
    the wire fields and the payload caps, ask the manager, map its errors to
    statuses.  The protocol enumerations are numbers on the wire; [try_from]
    of the generated code accepts the numbers of [broker.proto]. *)

From S2P Require Import Prelude RustStr Bytes BTreeMap Glob Policy Evidence Nkey Schema Actor Pdp.
From S2P Require Import Decision RustCrypto CoseTypes Cbor CoseCodec CoseProfile LocalCrypto Xkey.
From S2P Require Import Backend CryptoProvider Manager Transport.

(** ** Wire enumerations *)

Inductive PbKeyType := PbKeyUnspecified | PbKey (t : KeyType).

Definition PbKeyType_try_from (v : Z) : option PbKeyType :=
  match v with
  | 0 => Some PbKeyUnspecified
  | 1 => Some (PbKey KtEd25519)
  | 2 => Some (PbKey KtEd25519Nkey)
  | 3 => Some (PbKey KtRsa2048)
  | 4 => Some (PbKey KtMlDsa44)
  | 5 => Some (PbKey KtMlDsa65)
  | 6 => Some (PbKey KtMlDsa87)
  | 7 => Some (PbKey KtMlKem512)
  | 8 => Some (PbKey KtMlKem768)
  | 9 => Some (PbKey KtMlKem1024)
  | 10 => Some (PbKey KtEcdsaP256)
  | 11 => Some (PbKey KtEcdsaP384)
  | 12 => Some (PbKey KtEcdsaP521)
  | _ => None
  end%Z.

Definition proto_key_type (t : KeyType) : Z :=
  match t with
  | KtEd25519 => 1 | KtEd25519Nkey => 2 | KtRsa2048 => 3
  | KtMlDsa44 => 4 | KtMlDsa65 => 5 | KtMlDsa87 => 6
  | KtMlKem512 => 7 | KtMlKem768 => 8 | KtMlKem1024 => 9
  | KtEcdsaP256 => 10 | KtEcdsaP384 => 11 | KtEcdsaP521 => 12
  end%Z.

(** ** Statuses of errors *)

Definition KeyType_token (t : KeyType) : string :=
  match t with
  | KtEd25519 => "ed25519" | KtEd25519Nkey => "ed25519-nkey" | KtRsa2048 => "rsa-2048"
  | KtEcdsaP256 => "ecdsa-p256" | KtEcdsaP384 => "ecdsa-p384" | KtEcdsaP521 => "ecdsa-p521"
  | KtMlDsa44 => "ml-dsa-44" | KtMlDsa65 => "ml-dsa-65" | KtMlDsa87 => "ml-dsa-87"
  | KtMlKem512 => "ml-kem-512" | KtMlKem768 => "ml-kem-768" | KtMlKem1024 => "ml-kem-1024"
  end.

Definition invalid_request (op message : string) : Status :=
  broker_status InvalidArgument "INVALID_REQUEST" op message.
Definition payload_too_large (op message : string) : Status :=
  broker_status ResourceExhausted "PAYLOAD_TOO_LARGE" op message.
Definition unsupported_status (op message : string) : Status :=
  broker_status Unimplemented "UNSUPPORTED" op message.
Definition unsupported_algorithm (op message : string) : Status :=
  broker_status Unimplemented "UNSUPPORTED_ALGORITHM" op message.
Definition unauthorized (op : string) : Status :=
  broker_status PermissionDenied "UNAUTHORIZED" op "not authorized".
Definition decrypt_failed (op : string) : Status :=
  broker_status InvalidArgument "DECRYPT_FAILED" op "decrypt failed".
Definition backend_unavailable (op message : string) : Status :=
  broker_status UnavailableCode "BACKEND_UNAVAILABLE" op message.
Definition backend_error (op message : string) : Status :=
  broker_status Internal "BACKEND_ERROR" op message.
Definition internal (op message : string) : Status :=
  broker_status Internal "INTERNAL" op message.

Definition BackendError_display (e : BackendError) : string :=
  match e with
  | UnsupportedKeyType t => "unsupported key type: " +:+ KeyType_token t
  | KeyNotFound k => "key not found: " +:+ k
  | UnsupportedOp op => "operation not supported by this backend: " +:+ op
  | DecryptFailed => "decrypt failed"
  | UnsupportedAlgorithm a => "unsupported AEAD algorithm: " +:+ aead_token a
  | Transport m => "backend transport error: " +:+ m
  | BackendFailed m => "backend error: " +:+ m
  | Protocol m => "malformed backend response: " +:+ m
  end.

(** [{:?}]. *)
Definition CryptoProviderId_debug (p : CryptoProviderId) : string :=
  match p with VaultTransit => "VaultTransit" | LocalSoftware => "LocalSoftware" end.

Definition Class_debug (c : Class_) : string :=
  match c with
  | Asymmetric => "Asymmetric" | Symmetric => "Symmetric" | Value => "Value"
  | Public => "Public" | Sealing => "Sealing"
  end.

Definition ProviderError_display (e : ProviderError) : string :=
  match e with
  | ProviderUnsupported p op a =>
      "provider " +:+ CryptoProviderId_debug p +:+ " does not support " +:+ op +:+ " for " +:+ a
  | PolicyDenied op reason => "provider policy denied " +:+ op +:+ ": " +:+ reason
  | CryptoFailed p op a reason =>
      "provider " +:+ CryptoProviderId_debug p +:+ " " +:+ op +:+ " failed for " +:+ a +:+ ": "
      +:+ reason
  | ProviderBackend e => BackendError_display e
  end.

Definition ManagerError_display (e : ManagerError) : string :=
  match e with
  | Manager.UnknownKey k => "unknown key: " +:+ k
  | UnknownBackend k b => "key `" +:+ k +:+ "` references unknown backend `" +:+ b +:+ "`"
  | OpNotValidForClass op k c =>
      "op `" +:+ op +:+ "` is not valid for key `" +:+ k +:+ "` (class " +:+ Class_debug c +:+ ")"
  | KeyTypeUnsupported b op t =>
      "backend `" +:+ b +:+ "` does not declare support for " +:+ op +:+ " key type `"
      +:+ KeyType_token t +:+ "`"
  | ManagerUnsupported op =>
      "op `" +:+ op +:+ "` is recognized but not yet backed by a Backend method"
  | AeadMismatch k requested actual =>
      "algorithm `" +:+ aead_token requested +:+ "` does not match key `" +:+ k
      +:+ "` (catalog type " +:+ actual +:+ ")"
  | KemAlgorithmMismatch k requested actual =>
      "KEM algorithm `" +:+ requested +:+ "` does not match key `" +:+ k +:+ "` (catalog type "
      +:+ actual +:+ ")"
  | ValueRotateNeedsSet k =>
      "value key `" +:+ k +:+ "` has no generate recipe; rotate via `set` instead"
  | NixCacheEnrollmentError k reason =>
      "Nix cache key `" +:+ k +:+ "` cannot be enrolled: " +:+ reason
  | NixCacheRotationForbidden k =>
      "Nix cache key `" +:+ k
      +:+ "` is immutable; provision a new catalog key and Nix key name"
  | Sealing_ SealingMalformed => "sealing op failed: malformed sealing material or envelope"
  | Sealing_ SealingOpenFailed => "sealing op failed: unseal authentication failed"
  | UnsealContextNotPermitted k => "key `" +:+ k +:+ "` does not authorize this unseal context"
  | Signing SigningMalformed =>
      "materialize-to-sign op failed: malformed signing seed or verify input"
  | MissingPublicPath k =>
      "key `" +:+ k +:+ "` has no public_path; its public half cannot be resolved"
  | Provider e => "provider error: " +:+ ProviderError_display e
  | MBackend e => "backend error: " +:+ BackendError_display e
  end.

Definition backend_status (op : string) (e : BackendError) : Status :=
  match e with
  | UnsupportedKeyType _ | UnsupportedAlgorithm _ =>
      unsupported_algorithm op (BackendError_display e)
  | UnsupportedOp _ => unsupported_status op (BackendError_display e)
  | KeyNotFound _ => internal op (BackendError_display e)
  | DecryptFailed => decrypt_failed op
  | Transport _ => backend_unavailable op "backend unavailable"
  | BackendFailed _ | Protocol _ => backend_error op "backend operation failed"
  end.

Definition provider_status (op : string) (e : ProviderError) : Status :=
  match e with
  | ProviderUnsupported _ _ _ => unsupported_algorithm op (ProviderError_display e)
  | PolicyDenied _ _ => unauthorized op
  | CryptoFailed _ _ _ _ => invalid_request op "provider operation failed"
  | ProviderBackend e => backend_status op e
  end.

Definition manager_status (op : string) (e : ManagerError) : Status :=
  match e with
  | Manager.UnknownKey _ | UnsealContextNotPermitted _ => unauthorized op
  | UnknownBackend _ _ | MissingPublicPath _ => internal op (ManagerError_display e)
  | OpNotValidForClass _ _ _ | AeadMismatch _ _ _ | KemAlgorithmMismatch _ _ _
  | ValueRotateNeedsSet _ | NixCacheEnrollmentError _ _ | NixCacheRotationForbidden _
  | Sealing_ SealingMalformed | Signing SigningMalformed =>
      invalid_request op (ManagerError_display e)
  | KeyTypeUnsupported _ _ _ => unsupported_algorithm op (ManagerError_display e)
  | ManagerUnsupported _ => unsupported_status op (ManagerError_display e)
  | Sealing_ SealingOpenFailed => decrypt_failed op
  | Provider e => provider_status op e
  | MBackend e => backend_status op e
  end.

(** ** Wire checks *)

Definition NOT_THIS_PATH : string := " keys are provisioned from a software-custody catalog entry, not this path".

Definition pb_key_type (value : Z) (op : string) : result Status KeyType :=
  let? t := ok_or (invalid_request op "unknown key type") (PbKeyType_try_from value) in
  match t with
  | PbKeyUnspecified => Err (invalid_request op "missing key type")
  | PbKey ((KtMlDsa44 | KtMlDsa65 | KtMlDsa87)) =>
      Err (unsupported_algorithm op ("ML-DSA" +:+ NOT_THIS_PATH))
  | PbKey ((KtMlKem512 | KtMlKem768 | KtMlKem1024)) =>
      Err (unsupported_algorithm op ("ML-KEM" +:+ NOT_THIS_PATH))
  | PbKey t => Ok t
  end.

Definition ensure_ml_dsa_key_type_matches (value : Z) (a : SignatureAlgorithm) (op : string)
    : result Status unit :=
  let? wire := ok_or (invalid_request op "unknown key type") (PbKeyType_try_from value) in
  match wire, a with
  | PbKey KtMlDsa44, SaMlDsa44 | PbKey KtMlDsa65, SaMlDsa65 | PbKey KtMlDsa87, SaMlDsa87 => Ok tt
  | _, _ => Err (invalid_request op "key type does not match the catalog ML-DSA key")
  end.

Definition ensure_ml_kem_key_type_matches (value : Z) (k : KemAlgorithm) (op : string)
    : result Status unit :=
  let? wire := ok_or (invalid_request op "unknown key type") (PbKeyType_try_from value) in
  match wire, k with
  | PbKey KtMlKem512, AlgMlKem512 | PbKey KtMlKem768, AlgMlKem768
  | PbKey KtMlKem1024, AlgMlKem1024 => Ok tt
  | _, _ => Err (invalid_request op "key type does not match the catalog ML-KEM key")
  end.

(** Every number of [SigningAlgorithm] is accepted: 0 to 7. *)
Definition ensure_supported_signing_algorithm (value : Z) (op : string) : result Status unit :=
  if ((0 <=? value) && (value <=? 7))%Z then Ok tt
  else Err (invalid_request op "unknown signing algorithm").

Inductive SupportedKem := SupportedX25519 | SupportedMlKem (k : KemAlgorithm).

Definition ensure_supported_kem_algorithm (value : Z) (op : string) : result Status SupportedKem :=
  match value with
  | 0 => Err (invalid_request op "missing KEM algorithm")
  | 1 => Ok (SupportedMlKem AlgMlKem512)
  | 2 => Ok (SupportedMlKem AlgMlKem768)
  | 3 => Ok (SupportedMlKem AlgMlKem1024)
  | 4 => Ok SupportedX25519
  | _ => Err (invalid_request op "unknown KEM algorithm")
  end%Z.

Definition provider_envelope_algorithm (value : Z) (op : string) : result Status EnvelopeAlgorithm :=
  match value with
  | 0 => Err (invalid_request op "missing envelope algorithm")
  | 1 => Ok EnvAes256Gcm
  | 2 => Ok EnvChaCha20Poly1305
  | _ => Err (invalid_request op "unknown envelope algorithm")
  end%Z.

Definition ensure_supported_envelope_algorithm (value : Z) (op : string) : result Status unit :=
  match value with
  | 0 => Err (invalid_request op "missing envelope algorithm")
  | 1 | 2 => Ok tt
  | _ => Err (invalid_request op "unknown envelope algorithm")
  end%Z.

Definition pb_aead_algorithm (value : Z) (op : string) : result Status AeadAlgorithm :=
  match value with
  | 0 => Err (invalid_request op "missing AEAD algorithm")
  | 1 => Ok AeadChacha20Poly1305
  | 2 => Ok AeadAes256Gcm_
  | _ => Err (invalid_request op "unknown AEAD algorithm")
  end%Z.

Definition proto_aead_algorithm (a : AeadAlgorithm) : Z :=
  match a with AeadChacha20Poly1305 => 1 | AeadAes256Gcm_ => 2 end%Z.

(** [ml_kem_provider_algorithm] of [aead.rs]. *)
Definition wire_ml_kem_algorithm (k : SupportedKem) : option KemAlgorithm :=
  match k with SupportedMlKem k => Some k | SupportedX25519 => None end.

(** ** Messages *)

(** [pb::KeyMaterial]: its optional [material]. *)
Definition PbKeyMaterial : Type := option KeyMaterial.

Definition pb_key_material (value : PbKeyMaterial) (op : string) : result Status KeyMaterial :=
  ok_or (invalid_request op "missing key material") value.

Definition material_len (m : KeyMaterial) : N :=
  match m with Ed25519Seed seed => N.of_nat (length seed) | Pkcs8Der der => N.of_nat (length der) end.

Record PbCiphertextEnvelope := {
  wce_alg : Z; wce_key_version : N; wce_nonce : bytes_; wce_ciphertext : bytes_ }.

Definition ciphertext_envelope (e : CiphertextEnvelope) : PbCiphertextEnvelope :=
  {| wce_alg := proto_aead_algorithm (ce_alg e); wce_key_version := ce_key_version e;
     wce_nonce := ce_nonce e; wce_ciphertext := ce_ciphertext e |}.

Definition basil_ciphertext_envelope (e : PbCiphertextEnvelope) (op : string)
    : result Status CiphertextEnvelope :=
  let? alg := pb_aead_algorithm (wce_alg e) op in
  Ok {| ce_alg := alg; ce_key_version := wce_key_version e; ce_nonce := wce_nonce e;
        ce_ciphertext := wce_ciphertext e |}.

Record PbCatalogEntry := {
  we_name : string; we_kind : Z; we_key_type : option Z; we_latest_version : N }.

Definition catalog_entry (e : WireCatalogEntry) : PbCatalogEntry :=
  {| we_name := wc_name e;
     we_kind := match wc_kind e with KindSigning => 1 | KindValue => 2 | KindEncryption => 3 end%Z;
     we_key_type := option_map proto_key_type (wc_key_type e);
     we_latest_version := wc_latest_version e |}.

Record WireKemEnvelope := {
  wk_kem_algorithm : Z;
  wk_envelope_algorithm : Z;
  wk_key_version : N;
  wk_encapsulated_key : bytes_;
  wk_nonce : bytes_;
  wk_ciphertext : bytes_;
}.

Definition kem_envelope (kem env : Z) (sealed : SealedEnvelope) : WireKemEnvelope :=
  {| wk_kem_algorithm := kem; wk_envelope_algorithm := env; wk_key_version := 0;
     wk_encapsulated_key := se_encapsulated_key sealed; wk_nonce := se_nonce sealed;
     wk_ciphertext := se_ciphertext sealed |}.

Definition seal_envelope_from_wire (e : WireKemEnvelope) : result Status SealedEnvelope :=
  map_err (λ _, invalid_request "unwrap_envelope"
                  "malformed KEM envelope (bad encapsulated_key or nonce length)")
    (envelope_from_parts (wk_encapsulated_key e) (wk_nonce e) (wk_ciphertext e)).

Definition ml_kem_wire_envelope (kem env : Z) (e : Envelope) : WireKemEnvelope :=
  {| wk_kem_algorithm := kem; wk_envelope_algorithm := env; wk_key_version := ev_key_version e;
     wk_encapsulated_key := ev_encapsulated_key e; wk_nonce := ev_nonce e;
     wk_ciphertext := ev_ciphertext e |}.

(** ** Audit of provider operations *)

Definition provider_failure_audit (e : ManagerError)
    : CryptoProviderId * ProviderAuditOutcome * string :=
  match e with
  | Provider (PolicyDenied _ reason) => (LocalSoftware, AuditDeny, reason)
  | Provider (ProviderUnsupported p _ _) => (p, AuditFailure, "unsupported")
  | Provider (CryptoFailed p _ _ reason) => (p, AuditFailure, reason)
  | Provider (ProviderBackend _) => (LocalSoftware, AuditFailure, "backend_error")
  | _ => (LocalSoftware, AuditFailure, "error")
  end.

Definition audit_provider_success (uid : N) (op key : string) (d : ProviderDispatch) : Svc unit :=
  emit (ProviderEvent
    {| pa_op := op; pa_key_id := key; pa_key_version := None; pa_algorithm := pd_algorithm d;
       pa_provider := pd_provider d; pa_custody := pd_custody d; pa_caller_uid := uid;
       pa_outcome := AuditSuccess; pa_reason := "ok" |}).

Definition audit_provider_failure (uid : N) (op key algorithm : string) (e : ManagerError)
    : Svc unit :=
  let '(provider, outcome, reason) := provider_failure_audit e in
  emit (ProviderEvent
    {| pa_op := op; pa_key_id := key; pa_key_version := None; pa_algorithm := algorithm;
       pa_provider := provider; pa_custody := custody_mode provider; pa_caller_uid := uid;
       pa_outcome := outcome; pa_reason := reason |}).

(** [.await.map_err(manager_status)?]. *)
Definition asked {A} (op : string) (p : MResult A) : Svc (result Status A) :=
  run! r := manager p in SRet (map_err (manager_status op) r).

(** [.await.inspect_err(audit_provider_failure).map_err(manager_status)?],
    then [audit_provider_success]. *)
Definition asked_provider {A} (uid : N) (op key algorithm : string)
    (p : MResult (A * ProviderDispatch)) : Svc (result Status A) :=
  run! r := manager p in
  match r with
  | Err e =>
      run! _ := audit_provider_failure uid op key algorithm e in
      SRet (Err (manager_status op e))
  | Ok (a, d) =>
      run! _ := audit_provider_success uid op key d in
      SRet (Ok a)
  end.

(** ** Handlers *)

Section handlers.
Context `{RC : RustCrypto} `{HP : Primitives} `{HM : Minicbor} `{NB : NatsBox} `{CC : CustodyCodec}.
Variable age_identity : bytes_ → bytes_.
Variable tls : string → string → option bytes_ → result string (bytes_ * bytes_).
Variable proc_exe : N → option string.
Variable sha256_ : list N → list N.
Variable encode : list N → string.

(** The manager and limits of the shared [BrokerState]. *)
Variable m : BackendManager.
Variable limits : BrokerLimits.
Variable x : Extensions.

Local Abbreviation auth := (authorize proc_exe sha256_ encode x).

Definition exceeds (l : bytes_) (cap : N) : bool := (cap <? N.of_nat (length l))%N.

(** *** [secret.rs] *)

Definition get_secret (secret_id : string) (version : option N)
    : Svc (result Status (bytes_ * N)) :=
  run? _ := auth Get secret_id in
  run? secret := asked "get_secret" (manager_get m secret_id version) in
  SRet (Ok (ks_value secret, ks_version secret)).

Definition set_secret (secret_id : string) (value : bytes_) : Svc (result Status N) :=
  run? _ := auth Set_ secret_id in
  reject payload_too_large "set_secret" "set payload exceeds configured cap"
    when exceeds value (max_payload_size limits) otherwise
  asked "set_secret" (manager_set m secret_id value).

Definition rotate_secret (secret_id : string) : Svc (result Status N) :=
  run? _ := auth Rotate secret_id in
  run? version := asked "rotate_secret" (manager_rotate age_identity tls m secret_id limits) in
  run! _ := emit (Published (KeyRotated secret_id version)) in
  SRet (Ok version).

(** The response stream, collected. *)
Definition list_catalog (prefix : option string) : Svc (result Status (list PbCatalogEntry)) :=
  let peer := peer_from_extensions proc_exe x in
  run! g := load_generation in
  match gen_resolve_local_actor sha256_ encode g peer with
  | Err _ => SRet (Ok [])
  | Ok actor =>
      SLoads (λ gs,
        run? entries :=
          asked "list_catalog" (manager_list m prefix (λ key, visible_in (gs key) actor key)) in
        SRet (Ok (map catalog_entry entries)))
  end.

(** *** [signing.rs] *)

Definition grpc_new_key (key_id : string) (key_type_ : Z) : Svc (result Status NewKey) :=
  run? actor := auth Policy.NewKey key_id in
  run? uid := slift (require_unix_uid actor "new_key") in
  match ml_dsa_algorithm_for m key_id with
  | Some algorithm =>
      run? _ := slift (ensure_ml_dsa_key_type_matches key_type_ algorithm "new_key") in
      run! gate := provider_gate actor key_id in
      asked_provider uid "new_key" key_id (signature_algorithm_name algorithm)
        (provider_generate m key_id gate)
  | None =>
      match ml_kem_algorithm_for m key_id with
      | Some kem =>
          run? _ := slift (ensure_ml_kem_key_type_matches key_type_ kem "new_key") in
          run! gate := provider_gate actor key_id in
          asked_provider uid "new_key" key_id (KemAlgorithm_token kem)
            (provider_generate_sealing m key_id kem gate)
      | None =>
          run? t := slift (pb_key_type key_type_ "new_key") in
          asked "new_key" (manager_new_key m key_id t)
      end
  end.

Definition wire_material (material : option PbKeyMaterial) (op : string)
    : result Status KeyMaterial :=
  let? material := ok_or (invalid_request op "missing key material") material in
  pb_key_material material op.

Definition grpc_import (key_id : string) (key_type_ : Z) (material : option PbKeyMaterial)
    : Svc (result Status NewKey) :=
  run? _ := auth Import_ key_id in
  run? material := slift (wire_material material "import") in
  reject payload_too_large "import" "import payload exceeds configured cap"
    when (max_payload_size limits <? material_len material)%N otherwise
  run? t := slift (pb_key_type key_type_ "import") in
  asked "import" (manager_import m key_id t material).

Record ImportEntry := {
  ie_key_id : string; ie_key_type : Z; ie_material : option PbKeyMaterial }.

(** Every entry is authorized and parsed, against one generation, before any
    is imported.  The running total saturates at the largest [usize]. *)
Definition USIZE_MAX : N := 18446744073709551615.

Fixpoint parse_entries (g : Generation) (entries : list ImportEntry)
    (parsed : list (string * KeyType * KeyMaterial)) (total : N)
    : Svc (result Status (list (string * KeyType * KeyMaterial) * N)) :=
  match entries with
  | [] => SRet (Ok (parsed, total))
  | entry :: entries' =>
      run? _ := authorize_in_generation proc_exe sha256_ encode g x Import_ (ie_key_id entry) in
      run? material := slift (wire_material (ie_material entry) "import_set") in
      let total := N.min (total + material_len material) USIZE_MAX in
      run? t := slift (pb_key_type (ie_key_type entry) "import_set") in
      parse_entries g entries' (parsed ++ [(ie_key_id entry, t, material)]) total
  end.

Fixpoint import_parsed (parsed : list (string * KeyType * KeyMaterial)) (keys : list NewKey)
    : Svc (result Status (list NewKey)) :=
  match parsed with
  | [] => SRet (Ok keys)
  | (key_id, t, material) :: parsed' =>
      run? imported := asked "import_set" (manager_import m key_id t material) in
      import_parsed parsed' (keys ++ [imported])
  end.

Definition import_set (entries : list ImportEntry) : Svc (result Status (list NewKey)) :=
  reject invalid_request "import_set" "import set has no entries"
    when match entries with [] => true | _ => false end otherwise
  run! g := load_generation in
  run? checked := parse_entries g entries [] 0 in
  reject payload_too_large "import_set" "import set payload exceeds configured cap"
    when (max_payload_size limits <? checked.2)%N otherwise
  import_parsed checked.1 [].

Definition grpc_sign (key_id : string) (algorithm : Z) (message : bytes_)
    : Svc (result Status bytes_) :=
  run? actor := auth Policy.Sign key_id in
  run? uid := slift (require_unix_uid actor "sign") in
  run? _ := slift (ensure_supported_signing_algorithm algorithm "sign") in
  reject payload_too_large "sign" "sign message exceeds configured cap"
    when exceeds message (max_payload_size limits) otherwise
  match ml_dsa_algorithm_for m key_id with
  | Some algorithm =>
      run! gate := provider_gate actor key_id in
      asked_provider uid "sign" key_id (signature_algorithm_name algorithm)
        (provider_sign m key_id message gate)
  | None => asked "sign" (manager_sign m key_id message)
  end.

Definition grpc_verify (key_id : string) (algorithm : Z) (message signature : bytes_)
    : Svc (result Status bool) :=
  run? actor := auth Policy.Verify key_id in
  run? uid := slift (require_unix_uid actor "verify") in
  run? _ := slift (ensure_supported_signing_algorithm algorithm "verify") in
  reject payload_too_large "verify" "verify payload exceeds configured cap"
    when exceeds message (max_payload_size limits) || exceeds signature (max_payload_size limits)
    otherwise
  match ml_dsa_algorithm_for m key_id with
  | Some algorithm =>
      run! gate := provider_gate actor key_id in
      asked_provider uid "verify" key_id (signature_algorithm_name algorithm)
        (provider_verify m key_id message signature gate)
  | None => asked "verify" (manager_verify m key_id message signature)
  end.

(** Key id, key type, public key and version. *)
Definition grpc_get_public_key (key_id : string)
    : Svc (result Status (string * Z * bytes_ * N)) :=
  run? _ := auth GetPublicKey key_id in
  run? p := asked "get_public_key" (manager_get_public_key m key_id) in
  SRet (Ok (key_id, proto_key_type (pk_key_type p), pk_public_key p, pk_version p)).

(** *** [aead.rs] *)

Definition grpc_encrypt (key_id : string) (algorithm : Z) (plaintext : bytes_)
    (aad : option bytes_) : Svc (result Status PbCiphertextEnvelope) :=
  run? _ := auth Policy.Encrypt key_id in
  reject payload_too_large "encrypt" "encrypt payload exceeds configured cap"
    when exceeds plaintext (max_encrypt_size limits) otherwise
  run? algorithm := slift (pb_aead_algorithm algorithm "encrypt") in
  run? envelope := asked "encrypt" (manager_encrypt m key_id algorithm plaintext aad) in
  SRet (Ok (ciphertext_envelope envelope)).

Definition grpc_decrypt (key_id : string) (envelope : option PbCiphertextEnvelope)
    (aad : option bytes_) : Svc (result Status bytes_) :=
  run? _ := auth Policy.Decrypt key_id in
  run? envelope :=
    slift (let? e := ok_or (invalid_request "decrypt" "missing ciphertext envelope") envelope in
           basil_ciphertext_envelope e "decrypt") in
  reject payload_too_large "decrypt" "decrypt payload exceeds configured cap"
    when exceeds (ce_ciphertext envelope) (max_encrypt_size limits) otherwise
  asked "decrypt" (manager_decrypt m key_id envelope aad).

Definition grpc_wrap_envelope (key_id : string) (kem_algorithm envelope_algorithm : Z)
    (plaintext : bytes_) (aad : option bytes_) : Svc (result Status WireKemEnvelope) :=
  run? actor := auth Policy.Encrypt key_id in
  run? uid := slift (require_unix_uid actor "encrypt") in
  reject payload_too_large "wrap_envelope" "envelope payload exceeds configured cap"
    when exceeds plaintext (max_encrypt_size limits) otherwise
  run? kem := slift (ensure_supported_kem_algorithm kem_algorithm "wrap_envelope") in
  run? _ := slift (ensure_supported_envelope_algorithm envelope_algorithm "wrap_envelope") in
  match wire_ml_kem_algorithm kem with
  | None =>
      run? sealed :=
        asked "wrap_envelope" (manager_wrap_envelope m key_id plaintext (default [] aad)) in
      SRet (Ok (kem_envelope kem_algorithm envelope_algorithm sealed))
  | Some kem =>
      run? env := slift (provider_envelope_algorithm envelope_algorithm "wrap_envelope") in
      run! gate := provider_gate actor key_id in
      run? envelope :=
        asked_provider uid "wrap_envelope" key_id (KemAlgorithm_token kem)
          (provider_wrap_envelope m key_id kem env plaintext (default [] aad) gate) in
      SRet (Ok (ml_kem_wire_envelope kem_algorithm envelope_algorithm envelope))
  end.

Definition grpc_unwrap_envelope (key_id : string) (envelope : option WireKemEnvelope)
    (aad : option bytes_) : Svc (result Status bytes_) :=
  run? actor := auth Policy.Decrypt key_id in
  run? uid := slift (require_unix_uid actor "decrypt") in
  run? envelope :=
    slift (ok_or (invalid_request "unwrap_envelope" "missing KEM envelope") envelope) in
  run? kem := slift (ensure_supported_kem_algorithm (wk_kem_algorithm envelope) "unwrap_envelope") in
  run? _ :=
    slift (ensure_supported_envelope_algorithm (wk_envelope_algorithm envelope)
             "unwrap_envelope") in
  reject payload_too_large "unwrap_envelope" "envelope payload exceeds configured cap"
    when exceeds (wk_ciphertext envelope) (max_encrypt_size limits) otherwise
  match wire_ml_kem_algorithm kem with
  | None =>
      run? sealed := slift (seal_envelope_from_wire envelope) in
      asked "unwrap_envelope" (manager_unwrap_envelope m key_id sealed (default [] aad))
  | Some kem =>
      run? env :=
        slift (provider_envelope_algorithm (wk_envelope_algorithm envelope) "unwrap_envelope") in
      run! gate := provider_gate actor key_id in
      asked_provider uid "unwrap_envelope" key_id (KemAlgorithm_token kem)
        (provider_unwrap_envelope m key_id kem env
           {| mp_encapsulated_key := wk_encapsulated_key envelope; mp_nonce := wk_nonce envelope;
              mp_ciphertext := wk_ciphertext envelope |} (default [] aad) gate)
  end.

Definition grpc_unseal_cose (key_id : string) (cose_encrypt_ : bytes_)
    (external_aad_ : option bytes_) : Svc (result Status bytes_) :=
  run? _ := auth Policy.Decrypt key_id in
  reject payload_too_large "unseal_cose" "COSE payload exceeds configured cap"
    when exceeds cose_encrypt_ (max_encrypt_size limits) otherwise
  asked "unseal_cose" (unseal_cose m key_id cose_encrypt_ (default [] external_aad_)).
End handlers.
