(* ===== verification/InvocationService.v ===== *)
(** * The invocation service
      ([crates/basil-core/src/service/invocation.rs])

    Sealed invocations: a client signs and seals a request, the broker
    verifies it, consumes its freshness challenge, resolves who signed it,
    charges the quota of a CI run, authorizes and performs the operation, and
    seals the answer to the client.

    A handler is a program over the effects of [InvEff]: reading the serving
    generation and the clock, the shared challenge, quota and key-set tables
    (one step each, as the code holds their locks), the backend manager, audit
    records.  Handlers of different requests interleave at those steps. *)

From stdpp Require Import gmap.
From S2P Require Import Prelude RustStr Bytes BTreeMap Glob Policy Evidence Nkey Schema Actor Pdp.
From S2P Require Import Decision Challenge RunQuota Json RustCrypto CoseTypes Cbor CoseCodec.
From S2P Require Import InvocationBody CoseProfile CoseDisplay LocalCrypto Xkey Backend.
From S2P Require Import CryptoProvider CiFederation CiVerify JwksCache CiAudit Manager Transport.
From S2P Require Import Service.

Definition BROKER_KEY_USE_LABEL : string := "broker_key_use".
Definition BROKER_RESPONSE_ENCRYPTION_USE : string := "response-encryption".
Definition INVOKE_OP : string := "invoke".
Definition CHALLENGE_OP : string := "get_invocation_challenge".
Definition COURIER_PROTOCOL_VERSION : N := 1.
Definition MAX_COURIER_SOURCE_BYTES : nat := 128.

(** ** State *)

(** A generation with its federation catalog and the rules it has a client
    for. *)
Record InvGeneration := {
  ig_generation : Generation;
  ig_federation : option ProviderCatalog;
  ig_provider_clients : list string;
}.
Definition ig_id (g : InvGeneration) : N := gen_id (ig_generation g).

Record BrokerIdentityRuntimeConfig := {
  identity_id : string;
  response_signing_key_id : string;
}.

(** [InvocationRuntimeConfig] and the listener, as the handlers read them; the
    shapes of the tables are in the tables. *)
Record InvocationConfig := {
  ic_enabled : bool;
  ic_broker_identity : option BrokerIdentityRuntimeConfig;
  ic_audiences : list string;
  ic_request_encryption_key_id : option string;
  ic_max_ttl_secs : N;
  ic_clock_skew_secs : N;
  ic_require_challenge : bool;
  ic_listener_type : ListenerType;
  ic_listener_name : string;
}.

(** An HTTP response: its final URL, status, declared length and the chunks
    of its body, [None] a chunk that fails. *)
Record HttpResponse := {
  hr_url : Url;
  hr_status : N;
  hr_content_length : option N;
  hr_chunks : list (option bytes_);
}.

(** ** Effects *)

(** [try_lock] of the issuance gate. *)
Inductive GateLock := GateHeld | GateWouldBlock | GatePoisoned.

Inductive InvEff : Type → Type :=
| ELoad : InvEff InvGeneration
(** [invocation_now_unix]: a [u32]. *)
| ENow : InvEff N
| ERecord (r : DecisionRecord) : InvEff unit
(** The tables; [None] is a poisoned or, for [EIssue], a busy lock. *)
| EGate : InvEff GateLock
| EIssue (jkt source : bytes_) (generation : N) (now : Z)
    : InvEff (option (result IssueDecline IssuedChallenge))
| EConsume (challenge jkt : bytes_) (generation : N) (now : Z) : InvEff (result ConsumeDenied unit)
(** The clock is read under the lock. *)
| ECharge (generation : N) (key : RunQuotaKey) (limit : option N) (retention_secs : N)
    : InvEff (option (result RunQuotaDenied RunQuotaReceipt))
| EServe (generation : N) (rule kid : string) (now : SystemTime)
    : InvEff (option (option ServeDecision))
| EInstall (generation : N) (rule : string) (keys : GenerationJwks) (now : SystemTime)
    : InvEff (option unit)
(** A request by the client of a rule; [None] when sending fails. *)
| EGet (rule : string) (url : Url) : InvEff (option HttpResponse)
(** [token_correlation_key]; [None] without entropy. *)
| ECorrelation : InvEff (option bytes_)
| EUuid : InvEff bytes_
(** [n] random bytes. *)
| EFill (n : nat) : InvEff (option bytes_)
(** The manager: [sealing_public_key], [unseal_cose] and [sign]. *)
| ESealingKey (key_id : string) : InvEff (result ManagerError bytes_)
| EUnseal (key_id : string) (cose aad : bytes_) : InvEff (result ManagerError bytes_)
| ESign (key_id : string) (message : bytes_) : InvEff (result ManagerError bytes_)
(** The audit cell of the request. *)
| EAuditStart (e : CiInvocationAuditEvent) : InvEff unit
| EAudit (f : CiInvocationAuditEvent → CiInvocationAuditEvent) : InvEff unit
| EAuditFinish (stage : CiTerminalStage) (outcome : CiTerminalOutcome) (reason : CiTerminalReason)
    : InvEff unit
| EAuditDrop : InvEff unit
| ETimestamp : InvEff string.

(** The backend program behind an effect. *)
Definition manager_program `{RC : RustCrypto} `{HP : Primitives} `{HM : Minicbor}
    (m : BackendManager) {R} (e : InvEff R) : option (MResult bytes_) :=
  match e with
  | ESealingKey key_id => Some (sealing_public_key m key_id)
  | EUnseal key_id cose aad => Some (unseal_cose m key_id cose aad)
  | ESign key_id message => Some (manager_sign m key_id message)
  | _ => None
  end.

Inductive Inv (A : Type) : Type :=
| IRet (a : A)
| IDo {R} (e : InvEff R) (k : R → Inv A).
Arguments IRet {A} _.
Arguments IDo {A R} _ _.

Fixpoint ibind {A B} (m : Inv A) (f : A → Inv B) : Inv B :=
  match m with
  | IRet a => f a
  | IDo e k => IDo e (λ r, ibind (k r) f)
  end.

Definition iebind {E A B} (m : Inv (result E A)) (f : A → Inv (result E B)) : Inv (result E B) :=
  ibind m (λ r, match r with Ok a => f a | Err e => IRet (Err e) end).

Definition perform {R} (e : InvEff R) : Inv R := IDo e IRet.
Definition ilift {E A} (r : result E A) : Inv (result E A) := IRet r.

Notation "'await!' x ':=' m 'in' k" := (ibind m (λ x, k))
  (at level 10, x pattern, m at level 200, k at level 200,
   format "'[v' 'await!'  x  ':='  m  'in' '/' k ']'") : basil_scope.
Notation "'await?' x ':=' m 'in' k" := (iebind m (λ x, k))
  (at level 10, x pattern, m at level 200, k at level 200,
   format "'[v' 'await?'  x  ':='  m  'in' '/' k ']'") : basil_scope.
Notation "'deny' e 'when' b 'otherwise' k" := (if b then IRet (Err e) else k)
  (at level 10, e at level 9, b at level 200, k at level 200) : basil_scope.

(** [result.inspect_err(act)]. *)
Definition inspect_err {E A} (m : Inv (result E A)) (act : Inv unit) : Inv (result E A) :=
  ibind m (λ r,
    match r with
    | Ok a => IRet (Ok a)
    | Err e => ibind act (λ _, IRet (Err e))
    end).

(** ** Statuses *)

Definition unauthorized_invocation : Status :=
  broker_status PermissionDenied "UNAUTHORIZED" INVOKE_OP "not authorized".
Definition challenge_issuance_declined : Status :=
  broker_status ResourceExhausted "CHALLENGE_ISSUANCE_DECLINED" CHALLENGE_OP
    "challenge issuance declined; retry after backoff".
Definition challenge_table_unavailable (op : string) : Status :=
  broker_status Internal "CHALLENGE_TABLE_UNAVAILABLE" op "challenge table unavailable".
Definition run_quota_table_unavailable : Status :=
  broker_status Internal "RUN_QUOTA_TABLE_UNAVAILABLE" INVOKE_OP "run quota table unavailable".
Definition challenge_source_context_unavailable : Status :=
  broker_status UnavailableCode "CHALLENGE_SOURCE_CONTEXT_UNAVAILABLE" CHALLENGE_OP
    "challenge source context unavailable".
Definition response_protection_failed : Status :=
  broker_status Internal "INVOCATION_RESPONSE_PROTECTION_FAILED" INVOKE_OP
    "invocation response protection failed".
Definition invocation_disabled (op message : string) : Status :=
  broker_status FailedPrecondition "INVOCATION_DISABLED" op message.

Definition verify_status (e : VerifyError) : Status :=
  match e with
  | SignatureInvalid | UnknownKeyId | AlgorithmMismatch => unauthorized_invocation
  | _ => invalid_request INVOKE_OP (VerifyError_display e)
  end.
Definition open_status (e : OpenError) : Status := invalid_request INVOKE_OP (OpenError_display e).

(** [Display] of the errors that reach a status or a record. *)
Definition FederationError_token_display (e : FederationError) : string :=
  match e with
  | Oversized what => "oversized " +:+ what
  | FedMalformed => "malformed federation input"
  | _ => "token verification failed"
  end.
Definition ConsumeDenied_display (e : ConsumeDenied) : string :=
  match e with
  | Unknown => "challenge unknown"
  | ForeignInstance => "challenge issued by another instance"
  | JktMismatch => "challenge bound to a different proof key"
  | GenerationMismatch => "challenge bound to a different serving generation"
  | Expired => "challenge expired"
  end.
Definition RunQuotaDenied_display (e : RunQuotaDenied) : string :=
  match e with
  | QuotaExhausted => "per-run operation quota exhausted"
  | QuotaUnavailable => "per-run operation quota unavailable for the selected rule"
  | QuotaUntracked => "per-run quota bucket allowance for the rule is full"
  end.

Inductive ChallengeDenial := ChallengeMissing | ChallengeDenied (e : ConsumeDenied).
Definition ChallengeDenial_display (e : ChallengeDenial) : string :=
  match e with
  | ChallengeMissing => "missing required freshness challenge"
  | ChallengeDenied e => ConsumeDenied_display e
  end.

Inductive ResponseProtectionError :=
| MissingBrokerIdentity
| RpCoseProfile (e : ProfileError)
| RpCoseBuild (e : BuildError)
| RpManager (e : ManagerError).

(** ** Requests *)

Inductive ResponseRecipient :=
| RecipientCatalog (key_id : string)
| RecipientEphemeral (key_id : string) (public : bytes_).

Definition recipient_kid (r : ResponseRecipient) : string :=
  match r with RecipientCatalog key_id | RecipientEphemeral key_id _ => key_id end.
Definition recipient_is_catalog (r : ResponseRecipient) : bool :=
  match r with RecipientCatalog _ => true | RecipientEphemeral _ _ => false end.

Inductive SealedDenial :=
| DenialChallengeUnknown | DenialPerRunQuotaExceeded | DenialRunQuotaUnavailable
| DenialRunQuotaUntracked.

Definition denial_status (d : SealedDenial) : InvocationStatus :=
  match d with
  | DenialChallengeUnknown => status_challenge_unknown
  | DenialPerRunQuotaExceeded | DenialRunQuotaUnavailable => status_per_run_quota_exceeded
  | DenialRunQuotaUntracked => status_run_quota_untracked
  end.

(** [ResponseEnvelope]: what response protection takes from the request. *)
Record ResponseEnvelope := {
  env_response_recipient : ResponseRecipient;
  env_response_subject : option string;
  env_request_message : bytes_;
  env_request_message_id : MessageId;
}.

Record PreparedInvocation := {
  pi_generation : InvGeneration;
  pi_actor : AuthenticatedActor;
  pi_provider_operation_target : option string;
  pi_recipient_key_id : string;
  pi_content_type : string;
  pi_envelope : ResponseEnvelope;
  pi_body : bytes_;
}.

Record DeniedInvocation := {
  di_generation : InvGeneration;
  di_denial : SealedDenial;
  di_envelope : ResponseEnvelope;
}.

Inductive PreparedRequest := Proceed (p : PreparedInvocation) | DeniedRequest (d : DeniedInvocation).

Record SealedResponse := { sr_message : bytes_; sr_response_subject : option string }.

(** [challenge_request] and its answer. *)
Record ChallengeRequest := {
  cr_jkt : bytes_;
  cr_courier_observed_source : option string;
}.
Record ChallengeResponse := {
  crs_challenge : bytes_;
  crs_generation : N;
  crs_expires_at_unix : Z;
}.

(** ** Verification against the policy *)

Section handlers.
Context `{RC : RustCrypto} `{HP : Primitives} `{SP : SignaturePrimitives} `{HM : Minicbor}.
Context `{FC : FederationCrates}.
Variable proc_exe : N → option string.
(** The [base32] codec and the signature check under [basil-nats]. *)
Variable base32_decode : string → option bytes_.
Variable nkey_verify_ed25519 : bytes_ → bytes_ → bytes_ → bool.
Variable blake3 : bytes_ → bytes_.
Variable cfg : InvocationConfig.
Variable x : Extensions.

Definition decode_ed25519_public (public : string) : option bytes_ :=
  b ← b64url_decode public;
  if (length b =? 32)%nat then Some b else None.

(** [ed25519_sign::verify(..).unwrap_or(false)]. *)
Definition ed25519_verifies (public sig_structure signature : bytes_) : bool :=
  match ed25519_verify_sig public sig_structure signature with Ok b => b | Err _ => false end.

Definition predicate_signature_verifies (predicate : EvidencePredicate) (key_id : KeyId)
    (sig_structure : bytes_) (signature : CoseSignature) : option SignatureKeyEvidence :=
  match predicate with
  | InvocationSignatureKey algorithm public =>
      let valid :=
        match algorithm with
        | SigEd25519 =>
            match decode_ed25519_public public with
            | Some public =>
                ed25519_verifies public sig_structure (signature_bytes signature)
            | None => false
            end
        | SigNatsNkey =>
            bool_decide (as_catalog_name key_id = Some public)
            && match verify_public_signature base32_decode nkey_verify_ed25519 public sig_structure
                       (signature_bytes signature) with
               | Ok b => b
               | Err _ => false
               end
        end in
      if valid then Some {| signature_algorithm := algorithm; signature_public := public |} else None
  | _ => None
  end.

(** The first leaf, in visiting order, whose key verifies. *)
Definition expression_signature_verifies (e : EvidenceExpression) (key_id : KeyId)
    (sig_structure : bytes_) (signature : CoseSignature) : option SignatureKeyEvidence :=
  foldl
    (λ verified predicate,
       match verified with
       | Some _ => verified
       | None => predicate_signature_verifies predicate key_id sig_structure signature
       end)
    None (leaves_of e).

Fixpoint subject_signature_verifies (subjects : list (SubjectName * SubjectDefinition))
    (key_id : KeyId) (sig_structure : bytes_) (signature : CoseSignature)
    : option SignatureKeyEvidence :=
  match subjects with
  | [] => None
  | (_, definition) :: subjects =>
      match expression_signature_verifies (match_ definition) key_id sig_structure signature with
      | Some key => Some key
      | None => subject_signature_verifies subjects key_id sig_structure signature
      end
  end.

(** [PolicyVerifier::verify]; [Ok] is the key it stores in [verified_key]. *)
Definition PolicyVerifier_verify (policy : ResolvedPolicy) (key_id : KeyId)
    (algorithm : CoseTypes.SignatureAlgorithm) (headers : ProtectedHeaders) (sig_structure : bytes_)
    (signature : CoseSignature) : result VerifyError SignatureKeyEvidence :=
  match signer_public_key_cose headers with
  | Some proof_key =>
      let? public := map_err (λ _, SignatureInvalid) (decode_proof_key_cose proof_key) in
      return_err SignatureInvalid
        when negb (bool_decide (key_id_bytes key_id = bytes (proof_key_kid public)))
             || negb (bool_decide (algorithm = EdDsa))
             || negb (ed25519_verifies public sig_structure (signature_bytes signature)) otherwise
      Ok {| signature_algorithm := SigEd25519; signature_public := b64url_encode public |}
  | None =>
      return_err AlgorithmMismatch when negb (bool_decide (algorithm = EdDsa)) otherwise
      ok_or SignatureInvalid
        (subject_signature_verifies (subjects policy) key_id sig_structure signature)
  end.

Record PolicyVerifier := { pv_policy : ResolvedPolicy }.

#[local] Instance PolicyVerifier_Verifier : Verifier PolicyVerifier := {|
  CoseProfile.verify v key_id algorithm headers sig_structure signature :=
    let? _ :=
      PolicyVerifier_verify (pv_policy v) key_id algorithm headers sig_structure signature in
    Ok tt;
|}.

(** The content of [verified_key] once [verify_sealed] has verified the
    message: its one call of [verify]. *)
Definition stored_verified_key (policy : ResolvedPolicy) (message : bytes_)
    : option SignatureKeyEvidence :=
  match decode_sign1_strict message SealedOuter with
  | Ok outer =>
      match sig_structure (s_protected outer) [] (s_payload outer),
            Signature_from_bytes (s_signature outer) with
      | Ok to_verify, Ok signature =>
          match PolicyVerifier_verify policy (s_kid outer) (s_algorithm outer)
                  (s_protected_headers outer) to_verify signature with
          | Ok key => Some key
          | Err _ => None
          end
      | _, _ => None
      end
  | Err _ => None
  end.

Definition verified_key (stored : option SignatureKeyEvidence)
    : result Status SignatureKeyEvidence :=
  ok_or (invalid_request INVOKE_OP "signature was not verified") stored.

(** ** Challenges *)

Definition challenge_source_partition (r : ChallengeRequest) : result Status bytes_ :=
  let? context := ok_or challenge_source_context_unavailable (ext_listener x) in
  return_err challenge_source_context_unavailable
    when negb (bool_decide (listener_type context = ic_listener_type cfg))
         || negb (String.eqb (listener_name context) (ic_listener_name cfg)) otherwise
  let? uid := ok_or challenge_source_context_unavailable (peer_uid (listener_peer context)) in
  return_err challenge_source_context_unavailable
    when negb (bool_decide (peer_uid (peer_from_extensions proc_exe x) = Some uid)) otherwise
  match ic_listener_type cfg with
  | Host =>
      return_err (invalid_request CHALLENGE_OP
                    "courier_observed_source is forbidden on host listeners")
        when is_some (cr_courier_observed_source r) otherwise
      Ok (host blake3 (listener_name context) uid)
  | Courier =>
      let? source :=
        ok_or (invalid_request CHALLENGE_OP
                 "courier_observed_source is required on courier listeners")
          (cr_courier_observed_source r) in
      return_err (invalid_request CHALLENGE_OP
                    "courier_observed_source must be 1..=128 control-free bytes")
        when bool_decide (source = "")
             || (MAX_COURIER_SOURCE_BYTES <? length (bytes source))%nat
             || has_control source otherwise
      Ok (courier blake3 (listener_name context) uid source)
  end.

Definition get_invocation_challenge (r : ChallengeRequest)
    : Inv (result Status ChallengeResponse) :=
  deny (invocation_disabled CHALLENGE_OP
          "InvocationService is disabled; set invocation.enable=true to issue challenges")
    when negb (ic_enabled cfg) otherwise
  deny (invalid_request CHALLENGE_OP "jkt must be exactly 32 bytes")
    when negb (length (cr_jkt r) =? 32)%nat otherwise
  await? source := ilift (challenge_source_partition r) in
  await! g := perform ELoad in
  await! now := perform ENow in
  await! gate := perform EGate in
  match gate with
  | GateWouldBlock => IRet (Err challenge_issuance_declined)
  | GatePoisoned => IRet (Err (challenge_table_unavailable CHALLENGE_OP))
  | GateHeld =>
      await! issued := perform (EIssue (cr_jkt r) source (ig_id g) (Z.of_N now)) in
      match issued with
      | Some (Ok issued) =>
          IRet (Ok {| crs_challenge := issued_challenge issued; crs_generation := ig_id g;
                      crs_expires_at_unix := issued_expires_at_unix issued |})
      | Some (Err _) | None => IRet (Err challenge_issuance_declined)
      end
  end.

Record InvocationCapabilities := {
  cap_listener_profile : ListenerType;
  cap_require_challenge : bool;
  cap_courier_protocol_version : N;
}.

Definition get_invocation_capabilities : InvocationCapabilities :=
  {| cap_listener_profile := ic_listener_type cfg;
     cap_require_challenge := ic_require_challenge cfg;
     cap_courier_protocol_version := COURIER_PROTOCOL_VERSION |}.

(** ** Provider evidence *)

(** The [while let] over the chunks. *)
Fixpoint read_body_chunks (chunks : list (option bytes_)) (body : bytes_)
    : result FederationError bytes_ :=
  match chunks with
  | [] => Ok body
  | None :: _ => Err FetchRejected
  | Some chunk :: chunks =>
      return_err (Oversized "provider document")
        when (MAX_JWKS_BODY_BYTES - N.of_nat (length body) <? N.of_nat (length chunk))%N otherwise
      read_body_chunks chunks (body ++ chunk)
  end.

Definition bounded_response_body (r : HttpResponse) : result FederationError bytes_ :=
  return_err (Oversized "provider document")
    when match hr_content_length r with
         | Some n => (MAX_JWKS_BODY_BYTES <? n)%N
         | None => false
         end otherwise
  read_body_chunks (hr_chunks r) [].

Definition is_success (status : N) : bool := ((200 <=? status) && (status <? 300))%N.

(** One document: the request, the checks of its answer, its body. *)
Definition fetch_body (rule : string) (url : Url) : Inv (result FederationError bytes_) :=
  await! response := perform (EGet rule url) in
  match response with
  | None => IRet (Err FetchRejected)
  | Some response =>
      deny FetchRejected
        when negb (String.eqb (url_as_str (hr_url response)) (url_as_str url))
             || negb (is_success (hr_status response)) otherwise
      ilift (bounded_response_body response)
  end.

Definition fetch_generation_jwks (rule : string) (generation : N) (provider : ProviderConfig)
    : Inv (result FederationError GenerationJwks) :=
  await? _ := ilift (ProviderConfig_validate provider) in
  await? discovery_url := ilift (ok_or InvalidUrl (Url_parse (provider_discovery_url provider))) in
  await? jwks_url := ilift (ok_or InvalidUrl (Url_parse (provider_jwks_url provider))) in
  await? discovery := fetch_body rule discovery_url in
  await? _ :=
    ilift (validate_discovery_document discovery (provider_issuer provider)
             (provider_jwks_url provider)) in
  await? body := fetch_body rule jwks_url in
  ilift (GenerationJwks_parse generation body).

Definition install_generation_jwks (generation : N) (rule : string) (keys : GenerationJwks)
    (now : SystemTime) : Inv (result Status unit) :=
  await! r := perform (EInstall generation rule keys now) in
  ilift (ok_or unauthorized_invocation r).

(** An admitted fetch: its keys, installed, or what was served without it. *)
Definition fetch_or (generation : N) (rule : string) (now : SystemTime)
    (fetch : Inv (result FederationError GenerationJwks)) (stale : option GenerationJwks)
    : Inv (result Status (option GenerationJwks)) :=
  await! fetched := fetch in
  match fetched with
  | Ok keys =>
      await? _ := install_generation_jwks generation rule keys now in
      IRet (Ok (Some keys))
  | Err _ => IRet (Ok stale)
  end.

Definition resolve_rule_jwks_via (generation : N) (rule kid : string) (now : SystemTime)
    (fetch : Inv (result FederationError GenerationJwks))
    : Inv (result Status (option GenerationJwks)) :=
  await! locked := perform (EServe generation rule kid now) in
  await? decision := ilift (ok_or unauthorized_invocation locked) in
  match decision with
  | None => IRet (Ok None)
  | Some (ServeFresh keys) => IRet (Ok (Some keys))
  | Some (ServeRevalidate refresh_allowed stale) =>
      if refresh_allowed then fetch_or generation rule now fetch stale else IRet (Ok stale)
  | Some (ServeUnknownKid refresh_allowed) =>
      if refresh_allowed then fetch_or generation rule now fetch None else IRet (Ok None)
  end.

Definition resolve_rule_jwks (g : InvGeneration) (rule : ProviderRule) (kid : string)
    (now : SystemTime) : Inv (result Status (option GenerationJwks)) :=
  if decide (pr_id rule ∈ ig_provider_clients g) then
    resolve_rule_jwks_via (ig_id g) (pr_id rule) kid now
      (fetch_generation_jwks (pr_id rule) (ig_id g) (pr_provider rule))
  else IRet (Ok None).

(** The [for] over the rules. *)
Fixpoint try_rules (g : InvGeneration) (rules : list ProviderRule) (token kid : string)
    (public correlation : bytes_) (now_secs : N) : Inv (result Status VerifiedProviderEvidence) :=
  match rules with
  | [] => IRet (Err unauthorized_invocation)
  | rule :: rules =>
      await? keys := resolve_rule_jwks g rule kid (Z.of_N now_secs * 1000000000)%Z in
      match keys with
      | None => try_rules g rules token kid public correlation now_secs
      | Some keys =>
          match verify_claims (pr_provider rule) keys token public correlation (Some now_secs) with
          | Ok claims => IRet (Ok (rule_evidence rule claims))
          | Err _ => try_rules g rules token kid public correlation now_secs
          end
      end
  end.

Definition verify_provider_evidence (g : InvGeneration) (token : string) (public : bytes_)
    : Inv (result Status VerifiedProviderEvidence) :=
  await? catalog := ilift (ok_or unauthorized_invocation (ig_federation g)) in
  await! now := perform ENow in
  await? kid :=
    ilift (ok_or unauthorized_invocation (header ← decode_header token; snd header)) in
  await! key := perform ECorrelation in
  await? correlation := ilift (ok_or unauthorized_invocation key) in
  try_rules g (catalog_rules catalog) token kid public correlation now.

Definition validate_provider_envelope_authority (evidence : VerifiedProviderEvidence)
    (claims_audience : option Subject) (content_type : string)
    (operation_target_key_id : option KeyId) (invocation_audiences : list string)
    : result Status string :=
  return_err (invalid_request INVOKE_OP "provider broker audience rejected")
    when negb (bool_decide (option_map subject_str claims_audience =
                            Some (vpe_broker_audience evidence)))
         || negb (existsb (String.eqb (vpe_broker_audience evidence)) invocation_audiences)
    otherwise
  return_err (invalid_request INVOKE_OP "provider operation profile rejected")
    when negb (String.eqb content_type CONTENT_TYPE_SIGN_REQUEST)
         || negb (bool_decide (ArtifactSign ∈ vpe_operation_profiles evidence)) otherwise
  let? operation_target :=
    ok_or (invalid_request INVOKE_OP "provider operation target missing or invalid")
      (operation_target_key_id ≫= as_catalog_name) in
  return_err (invalid_request INVOKE_OP "provider operation target rejected")
    when negb (existsb (String.eqb operation_target) (vpe_artifact_sign_key_ids evidence)) otherwise
  Ok operation_target.

(** ** The response recipient *)

Definition catalog_key_id (key_id : KeyId) (field : string) : result Status string :=
  ok_or (invalid_request INVOKE_OP (field +:+ " must be UTF-8")) (as_catalog_name key_id).

Definition key_id_for_audit (key_id : KeyId) : string :=
  default "non-utf8-key-id" (as_catalog_name key_id).

Definition required_response_key_id (claims : Claims) : result Status string :=
  let? key_id :=
    ok_or (invalid_request INVOKE_OP "missing response encryption key")
      (response_key_id claims) in
  catalog_key_id key_id "response encryption key".

Definition validate_catalog_response_encryption_key (g : InvGeneration) (key_id : string)
    : result Status unit :=
  let? key :=
    ok_or (invalid_request INVOKE_OP ("unknown response encryption key `" +:+ key_id +:+ "`"))
      (get (keys_ (gen_catalog (ig_generation g))) key_id) in
  return_err (invalid_request INVOKE_OP "response encryption key must be class `sealing`")
    when negb (bool_decide (class key = Sealing)) otherwise
  return_err (invalid_request INVOKE_OP
                "response encryption key missing expected `broker_key_use`")
    when negb (bool_decide (label_get (Schema.labels key) BROKER_KEY_USE_LABEL =
                            Some BROKER_RESPONSE_ENCRYPTION_USE)) otherwise
  Ok tt.

Definition resolve_response_recipient (g : InvGeneration) (claims : Claims)
    (provider_verified : bool) : result Status ResponseRecipient :=
  let? key_id := required_response_key_id claims in
  match provider_verified, response_public_key_cose claims with
  | true, Some public =>
      return_err (invalid_request INVOKE_OP
                    "response key id does not match ephemeral response public key")
        when negb (bool_decide (bytes key_id = thumbprint public)) otherwise
      Ok (RecipientEphemeral key_id (response_public public))
  | true, None =>
      Err (invalid_request INVOKE_OP
             "provider-proof request is missing an ephemeral response public key")
  | false, Some _ =>
      Err (invalid_request INVOKE_OP
             "ephemeral response public key requires verified provider proof")
  | false, None =>
      let? _ := validate_catalog_response_encryption_key g key_id in
      Ok (RecipientCatalog key_id)
  end.

(** ** The steps of [prepare_invocation] *)

Definition record (r : DecisionRecord) : Inv unit := perform (ERecord r).
Definition audit (f : CiInvocationAuditEvent → CiInvocationAuditEvent) : Inv unit :=
  perform (EAudit f).
Definition finish_ci_audit (stage : CiTerminalStage) (outcome : CiTerminalOutcome)
    (reason : CiTerminalReason) : Inv unit := perform (EAuditFinish stage outcome reason).

Definition identity_rejected : Inv unit :=
  finish_ci_audit StageIdentityVerification OutcomeDenied ReasonIdentityRejected.
Definition envelope_rejected : Inv unit :=
  finish_ci_audit StageEnvelopeAuthority OutcomeDenied ReasonEnvelopeRejected.
Definition subject_rejected : Inv unit :=
  finish_ci_audit StageSubjectResolution OutcomeDenied ReasonSubjectRejected.
Definition recipient_rejected : Inv unit :=
  finish_ci_audit StageRecipientValidation OutcomeDenied ReasonRecipientRejected.
Definition decrypt_failed_audit : Inv unit :=
  finish_ci_audit StageRequestDecryption OutcomeFailure ReasonDecryptFailed.

(** The subjects of the [BTreeSet] of allowed audiences. *)
Definition request_validation_params (allow_provider_audience : bool)
    : Inv (result Status ValidationParams) :=
  await? allowed :=
    ilift (map_err (λ e, invalid_request INVOKE_OP (ProfileError_display e))
             (collect_map Subject_new (ic_audiences cfg))) in
  await! now := perform ENow in
  IRet (Ok {| now := Z.of_N now; max_clock_skew := Z.of_N (ic_clock_skew_secs cfg);
              max_ttl := Z.of_N (ic_max_ttl_secs cfg);
              default_ttl := Z.of_N DEFAULT_EXPIRES_AFTER_SECS;
              allowed_audiences := if allow_provider_audience then [] else allowed;
              role := Request |}).

Definition verify_message (g : InvGeneration) (peer : PeerInfo) (message : bytes_)
    : Inv (result Status VerifiedSealed) :=
  await? validation := request_validation_params (is_some (ig_federation g)) in
  match verify_sealed message {| pv_policy := gen_policy (ig_generation g) |}
          {| vsp_signature_aad := []; vsp_validation := validation |} with
  | Ok sealed => IRet (Ok sealed)
  | Err error =>
      await! _ := record (from_resolution_error (ig_id g) peer Policy.Decrypt "unknown" None NoMatch
                            ("invalid_actor_proof: " +:+ VerifyError_display error)) in
      IRet (Err (verify_status error))
  end.

Definition provider_proof_presented (sealed : VerifiedSealed) : bool :=
  let headers := sealed_protected_headers sealed in
  negb (bool_decide (signer_certificates_jwt headers = []))
  || is_some (signer_public_key_cose headers).

Definition present_audit (g : InvGeneration) (message : bytes_) (sealed : VerifiedSealed)
    : Inv unit :=
  if provider_proof_presented sealed then
    await! started_at := perform ETimestamp in
    perform (EAuditStart
      (audit_presented started_at (ig_id g) (request_hash_bytes (request_hash_of message))
         (Some (message_id_bytes (message_id (sealed_claims sealed))))))
  else IRet tt.

Definition present_token (sealed : VerifiedSealed) : Inv (result Status (option string)) :=
  match signer_certificates_jwt (sealed_protected_headers sealed) with
  | [] => IRet (Ok None)
  | tokens =>
      match exactly_one_bounded_token tokens with
      | Err error =>
          await! _ := identity_rejected in
          IRet (Err (invalid_request INVOKE_OP (FederationError_token_display error)))
      | Ok token =>
          await! key := perform ECorrelation in
          match key with
          | None => IRet (Ok (Some token))
          | Some correlation =>
              match token_digest correlation token with
              | Ok digest =>
                  await! _ := audit (audit_presented_token digest) in IRet (Ok (Some token))
              | Err _ => IRet (Ok (Some token))
              end
          end
      end
  end.

Definition present_proof_key (sealed : VerifiedSealed) (token : option string)
    : Inv (result Status (option bytes_)) :=
  match signer_public_key_cose (sealed_protected_headers sealed) with
  | None => IRet (Ok None)
  | Some proof_key =>
      match decode_proof_key_cose proof_key with
      | Err _ =>
          await! _ := identity_rejected in
          IRet (Err (invalid_request INVOKE_OP "malformed proof key"))
      | Ok public =>
          await! _ := audit (audit_proof_key (proof_key_thumbprint public)) in
          match token with
          | None =>
              await! _ := identity_rejected in
              IRet (Err (invalid_request INVOKE_OP "missing signer certificate"))
          | Some _ => IRet (Ok (Some public))
          end
      end
  end.

Definition present_evidence (g : InvGeneration) (token : option string) (public : option bytes_)
    : Inv (result Status (option VerifiedProviderEvidence)) :=
  match token, public with
  | None, _ => IRet (Ok None)
  | Some _, None =>
      await! _ := identity_rejected in
      IRet (Err (invalid_request INVOKE_OP "missing proof key"))
  | Some token, Some public =>
      await? evidence :=
        inspect_err (verify_provider_evidence g token public) identity_rejected in
      await! _ := audit (audit_verified evidence) in
      IRet (Ok (Some evidence))
  end.

Definition provider_target (sealed : VerifiedSealed) (evidence : option VerifiedProviderEvidence)
    : Inv (result Status (option string)) :=
  let headers := sealed_protected_headers sealed in
  match evidence with
  | Some provider =>
      await? target :=
        inspect_err
          (ilift (validate_provider_envelope_authority provider (audience (sealed_claims sealed))
                    (content_type_str (sealed_content_type sealed))
                    (operation_target_key_id headers) (ic_audiences cfg)))
          envelope_rejected in
      await! _ := audit (audit_accepted_operation target) in
      IRet (Ok (Some target))
  | None =>
      deny (invalid_request INVOKE_OP "operation target requires provider proof")
        when is_some (operation_target_key_id headers) otherwise
      IRet (Ok None)
  end.

(** The audience check of a request without provider evidence. *)
Definition audience_rejected (sealed : VerifiedSealed)
    (evidence : option VerifiedProviderEvidence) : bool :=
  negb (is_some evidence)
  && negb (bool_decide (ic_audiences cfg = []))
  && negb match audience (sealed_claims sealed) with
          | Some audience => existsb (String.eqb (subject_str audience)) (ic_audiences cfg)
          | None => false
          end.

(** The thumbprint the challenge must be bound to. *)
Definition challenge_jkt (proof_public : option bytes_) (stored : option SignatureKeyEvidence)
    : result Status bytes_ :=
  match proof_public with
  | Some public => Ok (proof_key_thumbprint public)
  | None =>
      let? evidence := verified_key stored in
      return_err (invalid_request INVOKE_OP
                    "freshness challenge requires an Ed25519 invocation signature key")
        when negb (bool_decide (signature_algorithm evidence = SigEd25519)) otherwise
      let? public :=
        ok_or (invalid_request INVOKE_OP "verified signature key is malformed")
          (decode_ed25519_public (signature_public evidence)) in
      Ok (proof_key_thumbprint public)
  end.

(** The outer result is the envelope's, the inner the freshness denial. *)
Definition consume_freshness_challenge (generation : N) (claims : Claims)
    (proof_public : option bytes_) (stored : option SignatureKeyEvidence)
    : Inv (result Status (result ChallengeDenial unit)) :=
  match freshness_challenge claims with
  | None =>
      if is_some proof_public || ic_require_challenge cfg then IRet (Ok (Err ChallengeMissing))
      else IRet (Ok (Ok tt))
  | Some challenge =>
      await? jkt := ilift (challenge_jkt proof_public stored) in
      await! now := perform ENow in
      await! outcome := perform (EConsume (challenge_bytes challenge) jkt generation (Z.of_N now)) in
      IRet (Ok (map_err ChallengeDenied outcome))
  end.

(** The evidence of a request signed by a subject's key. *)
Definition signed_snapshot (g : InvGeneration) (peer : PeerInfo) (uid : N)
    (key : SignatureKeyEvidence) : EvidenceSnapshot :=
  let e := host_process_snapshot (gen_config (ig_generation g)) peer uid in
  {| domain := domain e; process := process e; systemd := systemd e;
     invocation_signature_key := Available key |}.

(** The actor a provider's token stands for. *)
Definition provider_actor (g : InvGeneration) (peer : PeerInfo)
    (provider : VerifiedProviderEvidence) : option AuthenticatedActor :=
  actor ← resolve_subject_actor (gen_pdp (ig_generation g)) (vpe_subject provider);
  Some {| actor_domain := actor_domain actor; actor_subject := actor_subject actor;
          actor_workload := actor_workload actor;
          actor_proofs :=
            actor_proofs actor ++
            [{| proof_kind := ProviderJwt; proof_subject := vpe_subject provider;
                proof_fingerprint :=
                  Some (b64url_encode (evidence_token_digest (vpe_claims provider))) |}];
          actor_presenter := PresenterInfo_from peer; actor_transport := UnixSocket |}.

Definition resolve_actor (g : InvGeneration) (peer : PeerInfo) (uid : N) (sealed : VerifiedSealed)
    (evidence : option VerifiedProviderEvidence) (stored : option SignatureKeyEvidence)
    : Inv (result Status AuthenticatedActor) :=
  match evidence with
  | Some provider =>
      match provider_actor g peer provider with
      | None => await! _ := subject_rejected in IRet (Err unauthorized_invocation)
      | Some actor => IRet (Ok actor)
      end
  | None =>
      await? key := ilift (verified_key stored) in
      match resolve_evidence_actor sha256 b64url_encode (gen_policy (ig_generation g))
              (signed_snapshot g peer uid key) peer with
      | Ok actor => IRet (Ok actor)
      | Err error =>
          await! _ :=
            record (from_subject_resolution_error (ig_id g) peer Policy.Decrypt
                      (key_id_for_audit (sealed_recipient_key_id sealed)) error
                      "invalid_actor_proof") in
          IRet (Err unauthorized_invocation)
      end
  end.

Definition issuer_mismatch (sealed : VerifiedSealed) (actor : AuthenticatedActor) : bool :=
  match issuer (sealed_claims sealed) with
  | Some issuer => negb (String.eqb (subject_str issuer) (actor_subject actor))
  | None => false
  end.

Definition check_issuer (g : InvGeneration) (sealed : VerifiedSealed) (actor : AuthenticatedActor)
    : Inv (result Status unit) :=
  if issuer_mismatch sealed actor then
    await! _ :=
      record (from_actor_evidence_denial (ig_id g) actor Policy.Decrypt
                (key_id_for_audit (sealed_recipient_key_id sealed)) NoMatch
                "actor_claim_mismatch") in
    await! _ := subject_rejected in
    IRet (Err unauthorized_invocation)
  else
    await! _ := audit audit_subject_resolved in IRet (Ok tt).

Definition run_quota_key (provider : VerifiedProviderEvidence) : RunQuotaKey :=
  {| qk_rule_id := vpe_rule_id provider; qk_run_id := evidence_run_id (vpe_claims provider);
     qk_run_attempt := evidence_run_attempt (vpe_claims provider) |}.

Definition quota_denial (denied : RunQuotaDenied) : CiQuotaState * SealedDenial :=
  match denied with
  | QuotaUntracked => (QuotaStateUntracked, DenialRunQuotaUntracked)
  | QuotaExhausted => (QuotaStateExhausted, DenialPerRunQuotaExceeded)
  | QuotaUnavailable => (QuotaStateUnavailable, DenialRunQuotaUnavailable)
  end.

(** The quota step: [Some] is the sealed denial to answer with. *)
Definition charge_run_quota (g : InvGeneration) (sealed : VerifiedSealed)
    (actor : AuthenticatedActor) (evidence : option VerifiedProviderEvidence)
    : Inv (result Status (option SealedDenial)) :=
  match evidence with
  | None => IRet (Ok None)
  | Some provider =>
      await! outcome :=
        perform (ECharge (ig_id g) (run_quota_key provider) (vpe_max_operations_per_run provider)
                   (vpe_run_bucket_retention_secs provider)) in
      match outcome with
      | None =>
          await! _ := audit (audit_quota_denied QuotaStateUnavailable) in
          await! _ := finish_ci_audit StageQuota OutcomeFailure ReasonQuotaUnavailable in
          IRet (Err run_quota_table_unavailable)
      | Some (Ok receipt) => await! _ := audit (audit_quota_charged receipt) in IRet (Ok None)
      | Some (Err denied) =>
          await! _ :=
            record (from_actor_evidence_denial (ig_id g) actor Policy.Decrypt
                      (key_id_for_audit (sealed_recipient_key_id sealed)) Match
                      ("per_run_quota_denied: " +:+ RunQuotaDenied_display denied)) in
          await! _ := audit (audit_quota_denied (quota_denial denied).1) in
          IRet (Ok (Some (quota_denial denied).2))
      end
  end.

Definition validate_request_recipient_key (recipient_key_id : string) : result Status unit :=
  let? expected :=
    ok_or (invalid_request INVOKE_OP "no invocation request encryption key configured")
      (ic_request_encryption_key_id cfg) in
  return_err (invalid_request INVOKE_OP "sealed request recipient key mismatch")
    when negb (String.eqb recipient_key_id expected) otherwise
  Ok tt.

Definition decide_and_record (g : InvGeneration) (actor : AuthenticatedActor) (op : Op)
    (key : string) : Inv Decision :=
  let decision := decide_key (gen_pdp (ig_generation g)) actor op key in
  await! _ := record (from_actor_decision (ig_id g) actor op key decision) in
  IRet decision.

(** From the recipient key to the decision to decrypt. *)
Definition authorize_decrypt (g : InvGeneration) (sealed : VerifiedSealed)
    (actor : AuthenticatedActor) : Inv (result Status string) :=
  await? recipient :=
    inspect_err (ilift (catalog_key_id (sealed_recipient_key_id sealed) "recipient key id"))
      recipient_rejected in
  await? _ := inspect_err (ilift (validate_request_recipient_key recipient)) recipient_rejected in
  await! decision := decide_and_record g actor Policy.Decrypt recipient in
  if is_deny decision then
    await! _ := audit (audit_decrypt_authorized false) in
    await! _ := finish_ci_audit StageDecryptAuthorization OutcomeDenied ReasonDecryptDenied in
    IRet (Err unauthorized_invocation)
  else
    await! _ := audit (audit_decrypt_authorized true) in
    IRet (Ok recipient).

Definition validate_catalog_response_encryption_key_material (key_id : string)
    : Inv (result Status unit) :=
  await! r := perform (ESealingKey key_id) in
  IRet (map_err (manager_status INVOKE_OP) (let? _ := r in Ok tt)).

Definition check_response_material (recipient : ResponseRecipient) : Inv (result Status unit) :=
  if recipient_is_catalog recipient then
    inspect_err (validate_catalog_response_encryption_key_material (recipient_kid recipient))
      (finish_ci_audit StageResponseDelivery OutcomeFailure ReasonResponseFailed)
  else IRet (Ok tt).

(** [VerifiedSealed::open] with the [ManagerRecipient] of its own key. *)
Definition ManagerRecipient_open (key_id : KeyId) (request : OpenRequest)
    : Inv (result OpenError bytes_) :=
  match as_catalog_name key_id with
  | None => IRet (Err RecipientKeyMismatch)
  | Some name =>
      await! r := perform (EUnseal name (cose_encrypt request) (external_aad request)) in
      IRet (map_err (λ _, OpenFailed) r)
  end.

Definition open_request (sealed : VerifiedSealed) : Inv (result Status Opened) :=
  inspect_err
    (await? request :=
       ilift (map_err open_status
         (VerifiedSealed_open_request sealed (sealed_recipient_key_id sealed) []
            (Some KdfParties_anonymous))) in
     await! r := ManagerRecipient_open (sealed_recipient_key_id sealed) request in
     IRet (let? plaintext := map_err open_status r in
           Ok {| opened_plaintext := plaintext;
                 opened_content_type := sealed_content_type sealed |}))
    decrypt_failed_audit.

Definition decrypt_request (sealed : VerifiedSealed) : Inv (result Status bytes_) :=
  await? opened := open_request sealed in
  if negb (String.eqb (content_type_str (opened_content_type opened))
             (content_type_str (sealed_content_type sealed))) then
    await! _ := decrypt_failed_audit in
    IRet (Err (invalid_request INVOKE_OP "opened content type mismatch"))
  else
    await! _ := audit audit_request_decrypted in
    IRet (Ok (opened_plaintext opened)).

(** ** [prepare_invocation] *)

Definition request_envelope (message : bytes_) (sealed : VerifiedSealed)
    (recipient : ResponseRecipient) : ResponseEnvelope :=
  {| env_response_recipient := recipient;
     env_response_subject :=
       option_map response_subject_str (response_subject (sealed_claims sealed));
     env_request_message := message;
     env_request_message_id := message_id (sealed_claims sealed) |}.

(** The last steps, for a request that is fresh and whose actor is known. *)
Definition admit_request (g : InvGeneration) (message : bytes_) (sealed : VerifiedSealed)
    (actor : AuthenticatedActor) (target : option string) (recipient : ResponseRecipient)
    : Inv (result Status PreparedRequest) :=
  await? recipient_key_id := authorize_decrypt g sealed actor in
  await? _ := check_response_material recipient in
  await? body := decrypt_request sealed in
  IRet (Ok (Proceed
    {| pi_generation := g; pi_actor := actor; pi_provider_operation_target := target;
       pi_recipient_key_id := recipient_key_id;
       pi_content_type := content_type_str (sealed_content_type sealed);
       pi_envelope := request_envelope message sealed recipient; pi_body := body |})).

(** The steps after the freshness challenge is consumed. *)
Definition resolve_request (g : InvGeneration) (peer : PeerInfo) (uid : N) (message : bytes_)
    (sealed : VerifiedSealed) (evidence : option VerifiedProviderEvidence)
    (stored : option SignatureKeyEvidence) (target : option string)
    (recipient : ResponseRecipient) : Inv (result Status PreparedRequest) :=
  await? actor := resolve_actor g peer uid sealed evidence stored in
  await? _ := check_issuer g sealed actor in
  await? denied := charge_run_quota g sealed actor evidence in
  match denied with
  | Some denial =>
      IRet (Ok (DeniedRequest
        {| di_generation := g; di_denial := denial;
           di_envelope := request_envelope message sealed recipient |}))
  | None => admit_request g message sealed actor target recipient
  end.

(** The freshness step. *)
Definition check_freshness (g : InvGeneration) (peer : PeerInfo) (message : bytes_)
    (sealed : VerifiedSealed) (public : option bytes_) (stored : option SignatureKeyEvidence)
    : Inv (result Status bool) :=
  await? freshness :=
    inspect_err (consume_freshness_challenge (ig_id g) (sealed_claims sealed) public stored)
      (await! _ := audit audit_freshness_unavailable in
       finish_ci_audit StageFreshness OutcomeFailure ReasonFreshnessUnavailable) in
  match freshness with
  | Err denial =>
      await! _ := audit audit_freshness_denied in
      await! _ :=
        record (from_resolution_error (ig_id g) peer Policy.Decrypt
                  (key_id_for_audit (sealed_recipient_key_id sealed)) None NoMatch
                  ("freshness_challenge_denied: " +:+ ChallengeDenial_display denial)) in
      IRet (Ok false)
  | Ok _ => await! _ := audit audit_freshness_accepted in IRet (Ok true)
  end.

Definition peer_uid_or_deny (g : InvGeneration) (peer : PeerInfo) (sealed : VerifiedSealed)
    : Inv (result Status N) :=
  match peer_uid peer with
  | Some uid => IRet (Ok uid)
  | None =>
      await! _ :=
        record (from_resolution_error (ig_id g) peer Policy.Decrypt
                  (key_id_for_audit (sealed_recipient_key_id sealed)) None Unavailable
                  "invalid_actor_proof") in
      await! _ := subject_rejected in
      IRet (Err unauthorized_invocation)
  end.

(** From the verified message on. *)
Definition preflight (g : InvGeneration) (message : bytes_) (sealed : VerifiedSealed)
    : Inv (result Status PreparedRequest) :=
  let peer := peer_from_extensions proc_exe x in
  let stored := stored_verified_key (gen_policy (ig_generation g)) message in
  await? token := present_token sealed in
  await? public := present_proof_key sealed token in
  await? evidence := present_evidence g token public in
  await? target := provider_target sealed evidence in
  deny (invalid_request INVOKE_OP "invocation audience rejected")
    when audience_rejected sealed evidence otherwise
  await? recipient :=
    inspect_err (ilift (resolve_response_recipient g (sealed_claims sealed) (is_some evidence)))
      envelope_rejected in
  await? uid := peer_uid_or_deny g peer sealed in
  await? fresh := check_freshness g peer message sealed public stored in
  if fresh then resolve_request g peer uid message sealed evidence stored target recipient
  else
    IRet (Ok (DeniedRequest
      {| di_generation := g; di_denial := DenialChallengeUnknown;
         di_envelope := request_envelope message sealed recipient |})).

Definition prepare_invocation (message : bytes_) : Inv (result Status PreparedRequest) :=
  deny (invalid_request INVOKE_OP "missing sealed COSE message")
    when bool_decide (message = []) otherwise
  await! g := perform ELoad in
  await? sealed := verify_message g (peer_from_extensions proc_exe x) message in
  await! _ := present_audit g message sealed in
  preflight g message sealed.

(** ** Responses *)

Definition build_sealed_with_manager (params : CoseProfile.SealParams) (key_id : KeyId)
    : Inv (result BuildError bytes_) :=
  await! fill_ephemeral := perform (EFill 32) in
  await? ephemeral := ilift (random_array fill_ephemeral) in
  await! fill_nonce := perform (EFill NONCE_LEN) in
  await? nonce := ilift (random_array fill_nonce) in
  await? parts := ilift (seal_to_sign params key_id EdDsa ephemeral nonce None) in
  let '(protected, encrypt_bytes, to_sign) := parts in
  await? name :=
    ilift (ok_or (Sign (SignProvider "signing key id is not UTF-8")) (as_catalog_name key_id)) in
  await! r := perform (ESign name to_sign) in
  await? signed := ilift (map_err (λ e, Sign (SignProvider (ManagerError_display e))) r) in
  await? signature :=
    ilift (map_err (λ e, Sign (SignProvider (ProfileError_display e)))
             (Signature_from_bytes signed)) in
  ilift (build_codec (assemble_sign1 protected encrypt_bytes (signature_bytes signature))).

Definition recipient_public_key (recipient : ResponseRecipient)
    : Inv (result ResponseProtectionError bytes_) :=
  match recipient with
  | RecipientCatalog key_id =>
      await! r := perform (ESealingKey key_id) in
      IRet (map_err RpManager r)
  | RecipientEphemeral _ public => IRet (Ok public)
  end.

Definition response_claims (now : N) (issuer_ : Subject) (signer : KeyId) (id : MessageId)
    (envelope : ResponseEnvelope) : Claims :=
  {| issuer := Some issuer_; audience := None;
     expires_at := Some (u32_saturating_add (Z.of_N now) (Z.of_N DEFAULT_EXPIRES_AFTER_SECS));
     issued_at := Z.of_N now; message_id := id; sender_key_id := Some signer;
     response_key_id := None; response_subject := None;
     in_reply_to := Some (env_request_message_id envelope);
     request_hash := Some (request_hash_of (env_request_message envelope));
     freshness_challenge := None; response_public_key_cose := None |}.

(** What [protect_response] seals, and the signer's key id. *)
Definition response_params (identity : BrokerIdentityRuntimeConfig) (envelope : ResponseEnvelope)
    (content_type : string) (plaintext public uuid : bytes_) (now : N)
    : result ProfileError (CoseProfile.SealParams * KeyId) :=
  let? id := MessageId_from_bytes uuid in
  let? signer := KeyId_from_text (response_signing_key_id identity) in
  let? issuer := Subject_new (identity_id identity) in
  let? content_type := ContentType_new content_type in
  let? recipient := KeyId_from_text (recipient_kid (env_response_recipient envelope)) in
  Ok ({| seal_content_type := content_type; seal_plaintext := plaintext;
         seal_claims := response_claims now issuer signer id envelope; seal_role := Response;
         seal_recipient := {| target_key_id := recipient; target_public := public |};
         seal_content_algorithm := A256Gcm;
         seal_aad := {| aad_signature := []; aad_encryption := [] |};
         seal_kdf_parties := KdfParties_anonymous |}, signer).

Definition protect_response (envelope : ResponseEnvelope) (content_type : string)
    (plaintext_body : bytes_) : Inv (result ResponseProtectionError SealedResponse) :=
  await? identity := ilift (ok_or MissingBrokerIdentity (ic_broker_identity cfg)) in
  await? public := recipient_public_key (env_response_recipient envelope) in
  await! now := perform ENow in
  await! uuid := perform EUuid in
  await? sealing :=
    ilift (map_err RpCoseProfile
             (response_params identity envelope content_type plaintext_body public uuid now)) in
  await! built := build_sealed_with_manager sealing.1 sealing.2 in
  await? message := ilift (map_err RpCoseBuild built) in
  IRet (Ok {| sr_message := message; sr_response_subject := env_response_subject envelope |}).

Definition finalize_response_audit (succeeded : bool) (stage : CiTerminalStage)
    (outcome : CiTerminalOutcome) (reason : CiTerminalReason) : Inv unit :=
  let '(stage, outcome, reason) :=
    if succeeded then (stage, outcome, reason)
    else (StageResponseDelivery, OutcomeFailure, ReasonResponseFailed) in
  await! _ := audit (audit_response_delivered succeeded) in
  finish_ci_audit stage outcome reason.

(** [protect_prepared_response], and the same steps of
    [protect_denied_invocation]. *)
Definition protect_audited (envelope : ResponseEnvelope) (body : SignInvocationResponse)
    (stage : CiTerminalStage) (outcome : CiTerminalOutcome) (reason : CiTerminalReason)
    : Inv (result ResponseProtectionError SealedResponse) :=
  await! _ := audit audit_response_started in
  await! result :=
    protect_response envelope CONTENT_TYPE_SIGN_RESPONSE
      (SignInvocationResponse_to_cbor_bytes body) in
  await! _ := finalize_response_audit (is_ok result) stage outcome reason in
  IRet result.

Definition status_response (g : InvGeneration) (status : InvocationStatus)
    : SignInvocationResponse :=
  {| sp_status := status; sp_policy_generation := ig_id g; sp_signature := None |}.

Definition denial_terminal (d : SealedDenial) : CiTerminalStage * CiTerminalReason :=
  match d with
  | DenialChallengeUnknown => (StageFreshness, ReasonFreshnessDenied)
  | DenialPerRunQuotaExceeded => (StageQuota, ReasonQuotaExhausted)
  | DenialRunQuotaUnavailable => (StageQuota, ReasonQuotaUnavailable)
  | DenialRunQuotaUntracked => (StageQuota, ReasonQuotaUntracked)
  end.

Definition protect_denied_invocation (denied : DeniedInvocation)
    : Inv (result ResponseProtectionError SealedResponse) :=
  protect_audited (di_envelope denied)
    (status_response (di_generation denied) (denial_status (di_denial denied)))
    (denial_terminal (di_denial denied)).1 OutcomeDenied (denial_terminal (di_denial denied)).2.

(** ** Execution *)

Definition protect_sign_status_response (p : PreparedInvocation) (status : InvocationStatus)
    : CiTerminalStage → CiTerminalOutcome → CiTerminalReason →
      Inv (result ResponseProtectionError SealedResponse) :=
  protect_audited (pi_envelope p) (status_response (pi_generation p) status).

(** The key to sign with: the provider's authorized target, or the body's. *)
Definition operation_target (p : PreparedInvocation) (body : SignInvocationRequest) : string :=
  default (InvocationBody.sq_key_id body) (pi_provider_operation_target p).

(** The operation and its answer, once it is allowed. *)
Definition sign_and_respond (p : PreparedInvocation) (body : SignInvocationRequest)
    : Inv (result ResponseProtectionError SealedResponse) :=
  await! _ := audit (audit_sign_authorized true) in
  await! _ := audit audit_backend_started in
  await! signature :=
    perform (ESign (operation_target p body) (InvocationBody.sq_message body)) in
  await! _ := audit (audit_backend_executed (is_ok signature)) in
  match signature with
  | Ok signature =>
      protect_audited (pi_envelope p)
        {| sp_status := status_ok; sp_policy_generation := ig_id (pi_generation p);
           sp_signature := Some signature |}
        StageComplete OutcomeSuccess ReasonCompleted
  | Err _ =>
      protect_sign_status_response p status_internal_error
        StageBackendExecution OutcomeFailure ReasonBackendFailed
  end.

Definition execute_sign_invocation (p : PreparedInvocation)
    : Inv (result ResponseProtectionError SealedResponse) :=
  match SignInvocationRequest_from_cbor_bytes (pi_body p) with
  | Err _ =>
      protect_sign_status_response p (status_invalid_request "INVALID_REQUEST_BODY")
        StageOperationValidation OutcomeDenied ReasonOperationRejected
  | Ok body =>
      match ensure_supported_signing_algorithm (InvocationBody.sq_algorithm body) INVOKE_OP with
      | Err _ =>
          protect_sign_status_response p (status_invalid_request "UNSUPPORTED_SIGNING_ALGORITHM")
            StageOperationValidation OutcomeDenied ReasonOperationRejected
      | Ok _ =>
          await! decision :=
            decide_and_record (pi_generation p) (pi_actor p) Policy.Sign (operation_target p body) in
          if is_deny decision then
            await! _ := audit (audit_sign_authorized false) in
            protect_sign_status_response p status_denied
              StageSignAuthorization OutcomeDenied ReasonSignDenied
          else sign_and_respond p body
      end
  end.

Definition execute_invocation (p : PreparedInvocation)
    : Inv (result ResponseProtectionError SealedResponse) :=
  if String.eqb (pi_content_type p) CONTENT_TYPE_SIGN_REQUEST then execute_sign_invocation p
  else
    protect_sign_status_response p (status_invalid_request "UNSUPPORTED_CONTENT_TYPE")
      StageOperationValidation OutcomeDenied ReasonOperationRejected.

(** ** [invoke]

    The audit is dropped on every way out. *)

Definition answer (request : PreparedRequest)
    : Inv (result ResponseProtectionError SealedResponse) :=
  match request with
  | Proceed prepared => execute_invocation prepared
  | DeniedRequest denied => protect_denied_invocation denied
  end.

Definition invoke (message : bytes_) : Inv (result Status SealedResponse) :=
  deny (invocation_disabled INVOKE_OP
          "InvocationService is disabled; set invocation.enable=true to accept sealed invocations")
    when negb (ic_enabled cfg) otherwise
  await! response :=
    await? request := prepare_invocation message in
    await! response := answer request in
    IRet (map_err (λ _, response_protection_failed) response) in
  await! _ := perform EAuditDrop in
  IRet response.
End handlers.
