(* ===== verification/InvocationProofs.v ===== *)
(** * The invocation service: correctness

    What stands behind every use of a key by a sealed invocation, whatever the
    environment answers: the message verified under the policy of the one
    generation the request pinned, its challenge consumed, its signer resolved
    to an actor, its run charged, the operation allowed and on record.  Across
    concurrent requests, one challenge admits one request.  Every provider
    request is audited once. *)

From stdpp Require Import gmap.
From S2P Require Import Prelude RustStr Bytes BTreeMap Glob Policy Evidence Nkey Schema Actor Pdp.
From S2P Require Import Decision Challenge RunQuota Json RustCrypto CoseTypes Cbor CoseCodec.
From S2P Require Import InvocationBody CoseProfile CoseDisplay LocalCrypto Xkey Backend.
From S2P Require Import CryptoProvider CiFederation CiVerify JwksCache CiAudit Manager Transport.
From S2P Require Import Service InvocationService.

(** ** Weakest preconditions

    The history of a request: each effect with its answer, newest first. *)

Inductive Done :=
| Did {R} (e : InvEff R) (r : R).

(** Every effect the program can have satisfies [P] of the history before it,
    and what it returns satisfies [Q]. *)
Fixpoint iwp {A} (P : list Done → ∀ R, InvEff R → Prop) (h : list Done) (p : Inv A)
    (Q : list Done → A → Prop) : Prop :=
  match p with
  | IRet a => Q h a
  | IDo e k => P h _ e ∧ ∀ r, iwp P (Did e r :: h) (k r) Q
  end.

Section iwp.
Variable P : list Done → ∀ R, InvEff R → Prop.

Lemma iwp_mono {A} h (p : Inv A) (Q Q' : list Done → A → Prop) :
  (∀ h' a, h ⊆ h' → Q h' a → Q' h' a) → iwp P h p Q → iwp P h p Q'.
Proof.
  revert h. induction p as [a | R e k IH]; intros h HQ; simpl; [by apply HQ |].
  intros [HP Hk]. split; [done |]. intros r. apply (IH r (Did e r :: h)); [| done].
  intros h' a Hh. apply HQ. intros d Hd. by apply Hh, list_elem_of_further.
Qed.

Lemma iwp_bind {A B} h (p : Inv A) (f : A → Inv B) Q :
  iwp P h p (λ h' a, iwp P h' (f a) Q) → iwp P h (ibind p f) Q.
Proof. revert h. induction p; simpl; naive_solver. Qed.

Lemma iwp_ebind {E A B} h (p : Inv (result E A)) (f : A → Inv (result E B)) Q :
  iwp P h p (λ h' r, match r with Ok a => iwp P h' (f a) Q | Err e => Q h' (Err e) end) →
  iwp P h (iebind p f) Q.
Proof. intros Hp. apply iwp_bind. eapply iwp_mono; [| exact Hp]. by intros h' [a | e] _. Qed.

Lemma iwp_ilift {E A B} h (r : result E A) (f : A → Inv (result E B)) Q :
  (∀ a, r = Ok a → iwp P h (f a) Q) → (∀ e, Q h (Err e)) → iwp P h (iebind (ilift r) f) Q.
Proof. intros Hf He. destruct r as [a | e]; [by apply Hf | apply He]. Qed.

Lemma iwp_inspect_err {E A} h (p : Inv (result E A)) act Q :
  iwp P h p (λ h' r,
    match r with
    | Ok a => Q h' (Ok a)
    | Err e => iwp P h' act (λ h'' _, Q h'' (Err e))
    end) →
  iwp P h (inspect_err p act) Q.
Proof.
  intros Hp. apply iwp_bind. eapply iwp_mono; [| exact Hp]. intros h' [a | e] _; [done |].
  intros Ha. by apply iwp_bind.
Qed.
End iwp.

(** Effects that use no key. *)
Definition quiet {R} (e : InvEff R) : bool := 
  match e with ESealingKey _ | EUnseal _ _ _ | ESign _ _ => false | _ => true end.

(** A program of quiet effects only. *)
Fixpoint all_quiet {A} (p : Inv A) : Prop :=
  match p with IRet _ => True | IDo e k => quiet e = true ∧ ∀ r, all_quiet (k r) end.

Lemma iwp_quiet {A} P h (p : Inv A) (Q : list Done → A → Prop) :
  (∀ h R (e : InvEff R), quiet e = true → P h R e) → all_quiet p →
  (∀ h' a, h ⊆ h' → Q h' a) → iwp P h p Q.
Proof.
  intros HP. revert h. induction p as [a | R e k IH]; intros h Hq HQ; simpl; [by apply HQ |].
  destruct Hq as [He Hk]. split; [by apply HP |]. intros r. apply IH; [done |].
  intros h' a Hh. apply HQ. intros d Hd. by apply Hh, list_elem_of_further.
Qed.

(** One step of a program: a bind, an answer, a branch of its control flow. *)
Ltac istep :=
  lazymatch goal with
  | |- iwp _ _ (iebind _ _) _ => apply iwp_ebind
  | |- iwp _ _ (ibind _ _) _ => apply iwp_bind
  | |- iwp _ _ (inspect_err _ _) _ => apply iwp_inspect_err
  | |- iwp _ _ (perform _) _ => split;
      [| let r := fresh "r" in intros r; lazymatch type of r with unit => destruct r | _ => idtac end]
  | |- iwp _ _ (IRet _) _ => cbn [iwp]
  | |- iwp _ _ (ilift _) _ => cbn [iwp ilift]
  | |- iwp _ _ (if ?b then _ else _) _ => destruct b eqn:?
  | |- iwp _ _ (match ?o with _ => _ end) _ => destruct o eqn:?
  | |- match ?o with _ => _ end => destruct o eqn:?
  end; cbv beta.

(** Runs the quiet effects of a step, which a hypothesis admits, and leaves
    its answers. *)
Ltac isteps :=
  repeat first
    [ istep
    | match goal with H : ∀ h R (e : InvEff R), quiet e = true → _ |- _ => by apply H end
    | match goal with |- iwp _ _ _ _ =>
        progress unfold record, audit, finish_ci_audit, identity_rejected, envelope_rejected,
          subject_rejected, recipient_rejected, decrypt_failed_audit end ].

(** A history grew by the effects of one step. *)
Ltac grown := intros ? ?; by repeat apply list_elem_of_further.

(** Membership in a grown history. *)
Ltac in_history :=
  first
    [ eassumption
    | apply list_elem_of_here
    | apply list_elem_of_further; in_history
    | match goal with Hs : ?h ⊆ ?h' |- _ ∈ ?h' => apply Hs; in_history end ].

Section sound.
Context `{RC : RustCrypto} `{HP : Primitives} `{SP : SignaturePrimitives} `{HM : Minicbor}.
Context `{FC : FederationCrates}.
Variable proc_exe : N → option string.
Variable base32_decode : string → option bytes_.
Variable nkey_verify_ed25519 : bytes_ → bytes_ → bytes_ → bool.
Variable cfg : InvocationConfig.
Variable x : Extensions.

#[local] Existing Instance PolicyVerifier_Verifier.

(** ** What a request has established *)

Definition validation_at (g : InvGeneration) (now : N) (allowed : list Subject)
    : ValidationParams :=
  {| now := Z.of_N now; max_clock_skew := Z.of_N (ic_clock_skew_secs cfg);
     max_ttl := Z.of_N (ic_max_ttl_secs cfg); default_ttl := Z.of_N DEFAULT_EXPIRES_AFTER_SECS;
     allowed_audiences := if is_some (ig_federation g) then [] else allowed; role := Request |}.

(** The message verifies under the policy of [g] at a time the request read. *)
Definition verified_message (h : list Done) (g : InvGeneration) (message : bytes_)
    (sealed : VerifiedSealed) : Prop :=
  ∃ now allowed, Did ENow now ∈ h ∧ collect_map Subject_new (ic_audiences cfg) = Ok allowed ∧
    verify_sealed (H2 := PolicyVerifier_Verifier base32_decode nkey_verify_ed25519) message
      {| pv_policy := gen_policy (ig_generation g) |}
      {| vsp_signature_aad := []; vsp_validation := validation_at g now allowed |} = Ok sealed.

(** The key set came out of the rule's cache in [g], or was fetched from the
    rule's own endpoint. *)
Definition keys_served (h : list Done) (g : InvGeneration) (rule : ProviderRule)
    (keys : GenerationJwks) : Prop :=
  (∃ kid now,
     Did (EServe (ig_id g) (pr_id rule) kid now) (Some (Some (ServeFresh keys))) ∈ h ∨
     ∃ refresh, Did (EServe (ig_id g) (pr_id rule) kid now)
                  (Some (Some (ServeRevalidate refresh (Some keys)))) ∈ h) ∨
  (∃ url response body,
     Url_parse (provider_jwks_url (pr_provider rule)) = Some url ∧
     Did (EGet (pr_id rule) url) (Some response) ∈ h ∧
     url_as_str (hr_url response) = url_as_str url ∧ is_success (hr_status response) = true ∧
     bounded_response_body response = Ok body ∧ GenerationJwks_parse (ig_id g) body = Ok keys).

Definition provider_verified (h : list Done) (g : InvGeneration) (sealed : VerifiedSealed)
    (evidence : VerifiedProviderEvidence) (public : bytes_) : Prop :=
  let headers := sealed_protected_headers sealed in
  ∃ token proof_key catalog rule keys correlation now claims,
    exactly_one_bounded_token (signer_certificates_jwt headers) = Ok token ∧
    signer_public_key_cose headers = Some proof_key ∧ decode_proof_key_cose proof_key = Ok public ∧
    ig_federation g = Some catalog ∧ rule ∈ catalog_rules catalog ∧ keys_served h g rule keys ∧
    Did ENow now ∈ h ∧
    verify_claims (pr_provider rule) keys token public correlation (Some now) = Ok claims ∧
    evidence = rule_evidence rule claims.

(** A request either presents a provider's proof, which verified and
    authorizes its target, or none at all. *)
Definition identified (h : list Done) (g : InvGeneration) (sealed : VerifiedSealed)
    (evidence : option VerifiedProviderEvidence) (public : option bytes_)
    (target : option string) : Prop :=
  match evidence with
  | Some provider =>
      ∃ key t, public = Some key ∧ target = Some t ∧ provider_verified h g sealed provider key ∧
        validate_provider_envelope_authority provider (audience (sealed_claims sealed))
          (content_type_str (sealed_content_type sealed))
          (operation_target_key_id (sealed_protected_headers sealed)) (ic_audiences cfg) = Ok t
  | None =>
      public = None ∧ target = None ∧ provider_proof_presented sealed = false ∧
      operation_target_key_id (sealed_protected_headers sealed) = None
  end.

Definition fresh (h : list Done) (g : InvGeneration) (message : bytes_) (sealed : VerifiedSealed)
    (public : option bytes_) : Prop :=
  match freshness_challenge (sealed_claims sealed) with
  | Some challenge =>
      ∃ jkt now,
        challenge_jkt public (stored_verified_key base32_decode nkey_verify_ed25519
                                (gen_policy (ig_generation g)) message) = Ok jkt ∧
        Did (EConsume (challenge_bytes challenge) jkt (ig_id g) now) (Ok tt) ∈ h
  | None => public = None ∧ ic_require_challenge cfg = false
  end.

(** The actor of the provider's rule, or of the key that signed. *)
Definition acts_as (g : InvGeneration) (message : bytes_)
    (evidence : option VerifiedProviderEvidence) (actor : AuthenticatedActor) : Prop :=
  let peer := peer_from_extensions proc_exe x in
  match evidence with
  | Some provider => provider_actor g peer provider = Some actor
  | None =>
      ∃ uid key, peer_uid peer = Some uid ∧
        stored_verified_key base32_decode nkey_verify_ed25519
          (gen_policy (ig_generation g)) message = Some key ∧
        resolve_evidence_actor sha256 b64url_encode (gen_policy (ig_generation g))
          (signed_snapshot g peer uid key) peer = Ok actor
  end.

Definition charged (h : list Done) (g : InvGeneration)
    (evidence : option VerifiedProviderEvidence) : Prop :=
  ∀ provider, evidence = Some provider →
    ∃ receipt, Did (ECharge (ig_id g) (run_quota_key provider)
                      (vpe_max_operations_per_run provider)
                      (vpe_run_bucket_retention_secs provider)) (Some (Ok receipt)) ∈ h.

(** The request's message and who presents it are known; a response can be
    addressed. *)
Record addressed (h : list Done) (message : bytes_) (g : InvGeneration) (sealed : VerifiedSealed)
    (evidence : option VerifiedProviderEvidence) (public : option bytes_)
    (target : option string) (recipient : ResponseRecipient) : Prop := {
  ad_enabled : ic_enabled cfg = true;
  ad_loaded : Did ELoad g ∈ h;
  ad_verified : verified_message h g message sealed;
  ad_identified : identified h g sealed evidence public target;
  ad_audience : audience_rejected cfg sealed evidence = false;
  ad_recipient :
    resolve_response_recipient g (sealed_claims sealed) (is_some evidence) = Ok recipient;
}.

(** It is fresh, acts as [actor] and its run is charged. *)
Record admitted (h : list Done) (message : bytes_) (g : InvGeneration) (sealed : VerifiedSealed)
    (evidence : option VerifiedProviderEvidence) (target : option string)
    (recipient : ResponseRecipient) (actor : AuthenticatedActor) : Prop := {
  am_addressed : ∃ public, addressed h message g sealed evidence public target recipient ∧
    fresh h g message sealed public;
  am_actor : acts_as g message evidence actor;
  am_issuer : issuer_mismatch sealed actor = false;
  am_charged : charged h g evidence;
}.

(** The generation allows the actor the operation, and the decision is on
    record. *)
Definition allows (h : list Done) (g : InvGeneration) (actor : AuthenticatedActor) (op : Op)
    (key : string) : Prop :=
  ∃ via, decide_key (gen_pdp (ig_generation g)) actor op key = Allow via ∧
    Did (ERecord (from_actor_decision (ig_id g) actor op key (Allow via))) tt ∈ h.

(** The request may be decrypted with the key [name]. *)
Definition decryptable (h : list Done) (g : InvGeneration) (sealed : VerifiedSealed)
    (actor : AuthenticatedActor) (name : string) : Prop :=
  as_catalog_name (sealed_recipient_key_id sealed) = Some name ∧
  ic_request_encryption_key_id cfg = Some name ∧ allows h g actor Policy.Decrypt name.

(** The body was decrypted from the message. *)
Definition opened (h : list Done) (sealed : VerifiedSealed) (name : string) (body : bytes_) : Prop :=
  Did (EUnseal name (sealed_encrypt_bytes sealed) []) (Ok body) ∈ h.

(** The signature of [message'] with the key [key] is what the request asks
    for and may ask for. *)
Definition may_sign (h : list Done) (message : bytes_) (g : InvGeneration) (key : string)
    (message' : bytes_) : Prop :=
  ∃ sealed evidence target recipient actor name plaintext body,
    admitted h message g sealed evidence target recipient actor ∧
    decryptable h g sealed actor name ∧ opened h sealed name plaintext ∧
    content_type_str (sealed_content_type sealed) = CONTENT_TYPE_SIGN_REQUEST ∧
    SignInvocationRequest_from_cbor_bytes plaintext = Ok body ∧
    ensure_supported_signing_algorithm (InvocationBody.sq_algorithm body) INVOKE_OP = Ok tt ∧
    key = default (InvocationBody.sq_key_id body) target ∧
    message' = InvocationBody.sq_message body ∧ allows h g actor Policy.Sign key.

(** A status that reports a failure, in text of the response format. *)
Definition short_text (s : string) : bool := is_utf8 (bytes s) && (length (bytes s) <? 256)%nat.
Definition refuses (s : InvocationStatus) : bool :=
  negb (bool_decide (is_code s = CodeOk)) && negb (String.eqb (is_reason s) "")
  && short_text (is_reason s) && from_option short_text true (is_message s).

(** A response reports success exactly when it carries the signature the
    backend returned for the request. *)
Definition truthful (h : list Done) (message : bytes_) (g : InvGeneration)
    (response : SignInvocationResponse) : Prop :=
  sp_policy_generation response = ig_id g ∧
  match sp_signature response with
  | None => refuses (sp_status response) = true
  | Some signature =>
      sp_status response = status_ok ∧
      ∃ key message', may_sign h message g key message' ∧
        Did (ESign key message') (Ok signature) ∈ h
  end.

(** The public key a response is sealed to. *)
Definition recipient_key_of (h : list Done) (recipient : ResponseRecipient) (public : bytes_)
    : Prop :=
  match recipient with
  | RecipientCatalog key_id => Did (ESealingKey key_id) (Ok public) ∈ h
  | RecipientEphemeral _ key => public = key
  end.

(** The layers of an answer to the request, ready to be signed with [key]. *)
Definition sealed_answer (h : list Done) (message : bytes_) (sealed : VerifiedSealed)
    (recipient : ResponseRecipient) (response : SignInvocationResponse) (key : string)
    (protected encrypted to_sign : bytes_) : Prop :=
  ∃ identity recipient_key uuid now params signer ephemeral nonce,
    ic_broker_identity cfg = Some identity ∧ key = response_signing_key_id identity ∧
    recipient_key_of h recipient recipient_key ∧ Did ENow now ∈ h ∧ Did EUuid uuid ∈ h ∧
    Did (EFill 32) (Some ephemeral) ∈ h ∧ Did (EFill NONCE_LEN) (Some nonce) ∈ h ∧
    response_params identity (request_envelope message sealed recipient) CONTENT_TYPE_SIGN_RESPONSE
      (SignInvocationResponse_to_cbor_bytes response) recipient_key uuid now = Ok (params, signer) ∧
    seal_to_sign params signer EdDsa ephemeral nonce None = Ok (protected, encrypted, to_sign).

(** A signature of the broker's own: an answer to this request. *)
Definition answers (h : list Done) (message : bytes_) (key : string) (to_sign : bytes_) : Prop :=
  ∃ g sealed evidence public target recipient response protected encrypted,
    addressed h message g sealed evidence public target recipient ∧ truthful h message g response ∧
    sealed_answer h message sealed recipient response key protected encrypted to_sign.

(** Why a request may have an effect. *)
Definition justified (message : bytes_) (h : list Done) (R : Type) (e : InvEff R) : Prop :=
  match e with
  | ESealingKey key_id => ∃ g sealed evidence public target,
      addressed h message g sealed evidence public target (RecipientCatalog key_id)
  | EUnseal name cose aad => ∃ g sealed evidence target recipient actor,
      admitted h message g sealed evidence target recipient actor ∧
      decryptable h g sealed actor name ∧ cose = sealed_encrypt_bytes sealed ∧ aad = []
  | ESign key message' =>
      (∃ g, may_sign h message g key message') ∨ answers h message key message'
  | _ => True
  end.

(** ** Histories grow *)

Section growth.
Variables h h' : list Done.
Hypothesis Hh : h ⊆ h'.

Lemma verified_message_mono g message sealed :
  verified_message h g message sealed → verified_message h' g message sealed.
Proof. intros (now & allowed & ? & ?). exists now, allowed. split; [in_history | done]. Qed.

Lemma keys_served_mono g rule keys : keys_served h g rule keys → keys_served h' g rule keys.
Proof.
  intros [(kid & now & Hk) | (url & r & b & ? & ? & Hr)].
  - left. exists kid, now. destruct Hk as [? | [f ?]]; [left | right; exists f]; in_history.
  - right. exists url, r, b. split; [done |]. split; [in_history | done].
Qed.

Lemma identified_mono g sealed evidence public target :
  identified h g sealed evidence public target → identified h' g sealed evidence public target.
Proof.
  destruct evidence as [provider |]; [| done].
  intros (key & t & ? & ? & Hp & ?). exists key, t. do 2 (split; [done |]). split; [| done].
  destruct Hp as (token & pk & catalog & rule & keys & c & now & claims & ? & ? & ? & ? & ? & ? & ? & ?).
  exists token, pk, catalog, rule, keys, c, now, claims. do 5 (split; [done |]).
  split; [by apply keys_served_mono |]. split; [in_history | done].
Qed.

Lemma fresh_mono g message sealed public :
  fresh h g message sealed public → fresh h' g message sealed public.
Proof.
  unfold fresh. destruct (freshness_challenge _); [| done].
  intros (jkt & now & ? & ?). exists jkt, now. split; [done | in_history].
Qed.

Lemma charged_mono g evidence : charged h g evidence → charged h' g evidence.
Proof. intros Hc provider Hp. destruct (Hc provider Hp) as [r ?]. exists r. in_history. Qed.

Lemma addressed_mono message g sealed evidence public target recipient :
  addressed h message g sealed evidence public target recipient →
  addressed h' message g sealed evidence public target recipient.
Proof.
  intros []. split; try done; [in_history | by apply verified_message_mono | by apply identified_mono].
Qed.

Lemma admitted_mono message g sealed evidence target recipient actor :
  admitted h message g sealed evidence target recipient actor →
  admitted h' message g sealed evidence target recipient actor.
Proof.
  intros [(public & Ha & Hf)]. split; try done; [| by apply charged_mono].
  exists public. split; [by apply addressed_mono | by apply fresh_mono].
Qed.

Lemma allows_mono g actor op key : allows h g actor op key → allows h' g actor op key.
Proof. intros (via & ? & ?). exists via. split; [done | in_history]. Qed.

Lemma decryptable_mono g sealed actor name :
  decryptable h g sealed actor name → decryptable h' g sealed actor name.
Proof. intros (? & ? & ?). split; [done |]. split; [done | by apply allows_mono]. Qed.

Lemma may_sign_mono message g key message' :
  may_sign h message g key message' → may_sign h' message g key message'.
Proof.
  intros (sealed & ev & t & r & a & n & p & b & ? & ? & ? & ? & ? & ? & ? & ? & ?).
  exists sealed, ev, t, r, a, n, p, b. split; [by apply admitted_mono |].
  split; [by apply decryptable_mono |]. split; [unfold opened in *; in_history |].
  do 5 (split; [done |]). by apply allows_mono.
Qed.

Lemma truthful_mono message g response : truthful h message g response → truthful h' message g response.
Proof.
  intros [? Hs]. split; [done |]. destruct (sp_signature response); [| done].
  destruct Hs as (? & key & message' & ? & ?). split; [done |]. exists key, message'.
  split; [by apply may_sign_mono | in_history].
Qed.
End growth.

(** ** The steps of the preflight *)

Section steps.
Variable P : list Done → ∀ R, InvEff R → Prop.
Hypothesis Hquiet : ∀ h R (e : InvEff R), quiet e = true → P h R e.

Lemma wp_verify_message h g peer message Q :
  (∀ h' sealed, h ⊆ h' → verified_message h' g message sealed → Q h' (Ok sealed)) →
  (∀ h' e, Q h' (Err e)) →
  iwp P h (verify_message base32_decode nkey_verify_ed25519 cfg g peer message) Q.
Proof.
  intros HQ He. unfold verify_message, request_validation_params. isteps; try apply He.
  apply HQ; [grown |]. eexists _, _. split; [in_history |].
  split; [| eassumption].
  match goal with H : map_err _ ?r = Ok _ |- _ => by destruct r; simplify_eq/= end.
Qed.

Lemma wp_present_audit h g message sealed Q :
  (∀ h', h ⊆ h' → Q h' tt) → iwp P h (present_audit g message sealed) Q.
Proof.
  intros HQ. unfold present_audit. isteps; apply HQ; grown || done.
Qed.

(** What the steps that read a provider's proof find. *)
Definition token_read (sealed : VerifiedSealed) (token : option string) : Prop :=
  let tokens := signer_certificates_jwt (sealed_protected_headers sealed) in
  match token with
  | Some token => exactly_one_bounded_token tokens = Ok token
  | None => tokens = []
  end.
Definition key_read (sealed : VerifiedSealed) (token : option string) (public : option bytes_)
    : Prop :=
  let key := signer_public_key_cose (sealed_protected_headers sealed) in
  match public with
  | Some public => ∃ proof_key,
      key = Some proof_key ∧ decode_proof_key_cose proof_key = Ok public ∧ is_Some token
  | None => key = None
  end.
Definition evidence_read (h : list Done) (g : InvGeneration) (sealed : VerifiedSealed)
    (public : option bytes_) (evidence : option VerifiedProviderEvidence) : Prop :=
  match evidence with
  | Some provider => ∃ key, public = Some key ∧ provider_verified h g sealed provider key
  | None => public = None ∧ provider_proof_presented sealed = false
  end.

Lemma wp_present_token h sealed Q :
  (∀ h' token, h ⊆ h' →
     token_read sealed token → Q h' (Ok token)) →
  (∀ h' e, Q h' (Err e)) → iwp P h (present_token sealed) Q.
Proof.
  intros HQ He. unfold present_token, token_read in *. isteps; try apply He; apply HQ; (grown || done).
Qed.

Lemma wp_present_proof_key h sealed token Q :
  (∀ h' public, h ⊆ h' →
     key_read sealed token public → Q h' (Ok public)) →
  (∀ h' e, Q h' (Err e)) → iwp P h (present_proof_key sealed token) Q.
Proof.
  intros HQ He. unfold present_proof_key, key_read in *. isteps; try apply He; apply HQ; try (grown || done).
  by eauto.
Qed.

Lemma wp_fetch_body h rule url Q :
  (∀ h' response body, h ⊆ h' → Did (EGet rule url) (Some response) ∈ h' →
     url_as_str (hr_url response) = url_as_str url → is_success (hr_status response) = true →
     bounded_response_body response = Ok body → Q h' (Ok body)) →
  (∀ h' e, h ⊆ h' → Q h' (Err e)) → iwp P h (fetch_body rule url) Q.
Proof.
  intros HQ He. unfold fetch_body. isteps; try (apply He; grown). bool_facts.
  destruct (bounded_response_body _) eqn:Hb; [| apply He; grown].
  eapply HQ; try done; [grown | in_history].
Qed.

Lemma wp_fetch_generation_jwks h g rule Q :
  (∀ h' keys, h ⊆ h' → keys_served h' g rule keys → Q h' (Ok keys)) →
  (∀ h' e, h ⊆ h' → Q h' (Err e)) →
  iwp P h (fetch_generation_jwks (pr_id rule) (ig_id g) (pr_provider rule)) Q.
Proof.
  intros HQ He. unfold fetch_generation_jwks.
  do 3 (apply iwp_ilift; [intros ? ? | by intros; apply He]).
  apply iwp_ebind, wp_fetch_body; [| done]. intros h1 r1 b1 Hh1 _ _ _ _.
  apply iwp_ilift; [intros _ _ | by intros; apply He].
  apply iwp_ebind, wp_fetch_body; [| by intros; apply He; transitivity h1].
  intros h2 r2 b2 Hh2 ? ? ? ?. istep. destruct (GenerationJwks_parse _ b2) eqn:?.
  - apply HQ; [by transitivity h1 |]. right. eexists _, r2, b2.
    split_and!; try done. by eapply ok_or_Ok.
  - apply He. by transitivity h1.
Qed.

Lemma wp_fetch_or h g rule now stale Q :
  (∀ k, stale = Some k → keys_served h g rule k) →
  (∀ h' keys, h ⊆ h' → (∀ k, keys = Some k → keys_served h' g rule k) → Q h' (Ok keys)) →
  (∀ h' e, Q h' (Err e)) →
  iwp P h (fetch_or (ig_id g) (pr_id rule) now
             (fetch_generation_jwks (pr_id rule) (ig_id g) (pr_provider rule)) stale) Q.
Proof.
  intros Hs HQ He. apply iwp_bind, wp_fetch_generation_jwks.
  - intros h1 keys Hh1 Hk. unfold install_generation_jwks. isteps; [| apply He].
    apply HQ; [set_solver |]. intros ? [= <-]. eapply keys_served_mono; [| done]. grown.
  - intros h1 e Hh1. apply HQ; [done |]. intros k Hk. eapply keys_served_mono; [done | by apply Hs].
Qed.

Lemma wp_resolve_rule_jwks h g rule kid now Q :
  (∀ h' keys, h ⊆ h' → (∀ k, keys = Some k → keys_served h' g rule k) → Q h' (Ok keys)) →
  (∀ h' e, Q h' (Err e)) → iwp P h (resolve_rule_jwks g rule kid now) Q.
Proof.
  intros HQ He. unfold resolve_rule_jwks, resolve_rule_jwks_via.
  destruct (decide _) as [_ |]; [| by apply HQ].
  istep. istep; [by apply Hquiet |]. apply iwp_ilift; [intros decision Hd | apply He].
  apply ok_or_Ok in Hd as ->.
  assert (HQ' : ∀ h' keys, Did (EServe (ig_id g) (pr_id rule) kid now) (Some decision) :: h ⊆ h' →
    (∀ k, keys = Some k → keys_served h' g rule k) → Q h' (Ok keys)) by (intros; apply HQ; set_solver).
  destruct decision as [[keys | [] stale | []] |]; try apply wp_fetch_or; try done; apply HQ' || idtac;
    try done; intros ? [= ->]; left; exists kid, now; [left | right; eexists | right; eexists]; in_history.
Qed.

Lemma wp_try_rules h g rules token kid public correlation now Q :
  (∀ h' rule keys claims, h ⊆ h' → rule ∈ rules → keys_served h' g rule keys →
     verify_claims (pr_provider rule) keys token public correlation (Some now) = Ok claims →
     Q h' (Ok (rule_evidence rule claims))) →
  (∀ h' e, Q h' (Err e)) → iwp P h (try_rules g rules token kid public correlation now) Q.
Proof.
  revert h. induction rules as [| rule rules IH]; intros h HQ He; cbn [try_rules]; [apply He |].
  apply iwp_ebind, wp_resolve_rule_jwks; [| done]. intros h1 keys Hh1 Hk.
  assert (Hnext : iwp P h1 (try_rules g rules token kid public correlation now) Q).
  { apply IH; [| done]. intros h2 r k c ? ? ? ?. eapply HQ; try done; [by transitivity h1 |].
    by apply list_elem_of_further. }
  destruct keys as [keys |]; [| done]. destruct (verify_claims _ _ _ _ _ _) eqn:Hv; [| done].
  eapply HQ; try done; [apply list_elem_of_here | by apply Hk].
Qed.

Lemma wp_verify_provider_evidence h g token public Q :
  (∀ h' catalog rule keys correlation now claims, h ⊆ h' → ig_federation g = Some catalog →
     rule ∈ catalog_rules catalog → keys_served h' g rule keys → Did ENow now ∈ h' →
     verify_claims (pr_provider rule) keys token public correlation (Some now) = Ok claims →
     Q h' (Ok (rule_evidence rule claims))) →
  (∀ h' e, Q h' (Err e)) → iwp P h (verify_provider_evidence g token public) Q.
Proof.
  intros HQ He. unfold verify_provider_evidence.
  apply iwp_ilift; [intros catalog Hc%ok_or_Ok | apply He].
  istep. istep; [by apply Hquiet |]. apply iwp_ilift; [intros kid _ | apply He].
  istep. istep; [by apply Hquiet |]. apply iwp_ilift; [intros correlation _ | apply He].
  apply wp_try_rules; [| done]. intros h' rule keys claims Hh ? ? ?.
  eapply HQ; try done; [set_solver |]. apply Hh. in_history.
Qed.

Lemma wp_provider_target h g sealed public evidence Q :
  evidence_read h g sealed public evidence →
  (∀ h' target, h ⊆ h' → identified h' g sealed evidence public target → Q h' (Ok target)) →
  (∀ h' e, Q h' (Err e)) → iwp P h (provider_target cfg sealed evidence) Q.
Proof.
  intros Hev HQ He. unfold provider_target, evidence_read in *. destruct evidence as [provider |].
  - destruct Hev as (key & -> & Hp). isteps; try apply He. apply HQ; [grown |].
    apply (identified_mono h); [grown |]. by exists key, value.
  - destruct Hev as [-> Hp]. isteps; [apply He |]. apply HQ; [done |].
    split_and!; try done. by destruct (operation_target_key_id _).
Qed.

Lemma wp_present_evidence h g sealed token public Q :
  token_read sealed token →
  key_read sealed token public →
  (∀ h' evidence, h ⊆ h' →
     evidence_read h' g sealed public evidence → Q h' (Ok evidence)) →
  (∀ h' e, Q h' (Err e)) → iwp P h (present_evidence g token public) Q.
Proof.
  intros Ht Hp HQ He. unfold present_evidence, token_read, key_read, evidence_read in *. destruct token as [token |].
  - destruct public as [public |]; [| isteps; apply He].
    destruct Hp as (pk & Hpk & Hdec & _).
    istep. istep. apply wp_verify_provider_evidence.
    + intros h1 catalog rule keys correlation now claims Hh1 ? ? ? ? ?.
      isteps. apply HQ; [set_solver |]. exists public. split; [done |].
      exists token, pk, catalog, rule, keys, correlation, now, claims.
      do 5 (split; [done |]). split; [eapply keys_served_mono; [grown | done] |].
      split; [in_history | done].
    + intros h1 e. isteps; apply He.
  - assert (public = None) as ->.
    { destruct public; [| done]. by destruct Hp as (? & ? & ? & [? ?]). }
    apply HQ; [done |]. split; [done |]. unfold provider_proof_presented. by rewrite Ht, Hp.
Qed.

Lemma wp_peer_uid_or_deny h g peer sealed Q :
  (∀ uid, peer_uid peer = Some uid → Q h (Ok uid)) → (∀ h' e, Q h' (Err e)) →
  iwp P h (peer_uid_or_deny g peer sealed) Q.
Proof. intros HQ He. unfold peer_uid_or_deny. isteps; [by apply HQ | apply He]. Qed.

Lemma wp_check_freshness h g peer message sealed public Q :
  (∀ h' b, h ⊆ h' → (b = true → fresh h' g message sealed public) → Q h' (Ok b)) →
  (∀ h' e, Q h' (Err e)) →
  iwp P h (check_freshness cfg g peer message sealed public
             (stored_verified_key base32_decode nkey_verify_ed25519
                (gen_policy (ig_generation g)) message)) Q.
Proof.
  intros HQ He. unfold check_freshness, consume_freshness_challenge, fresh in *.
  destruct (freshness_challenge (sealed_claims sealed)) as [challenge |].
  - isteps; try apply He; apply HQ; try done; try grown. intros _. eexists _, _. split; [done |].
    match goal with H : map_err _ ?r = Ok _ |- _ => destruct r as [[] |]; [| done] end. in_history.
  - isteps; apply HQ; try done; try grown. intros _. bool_facts. by destruct public.
Qed.

Lemma wp_resolve_actor h g uid message sealed evidence Q :
  peer_uid (peer_from_extensions proc_exe x) = Some uid →
  (∀ actor, acts_as g message evidence actor → Q h (Ok actor)) → (∀ h' e, Q h' (Err e)) →
  iwp P h (resolve_actor g (peer_from_extensions proc_exe x) uid sealed evidence
             (stored_verified_key base32_decode nkey_verify_ed25519
                (gen_policy (ig_generation g)) message)) Q.
Proof.
  intros Hu HQ He. unfold resolve_actor, acts_as in *. destruct evidence as [provider |].
  { isteps; [by apply HQ | apply He]. }
  apply iwp_ilift; [intros key Hk%ok_or_Ok | apply He]. isteps; [| apply He].
  apply HQ. by exists uid, key.
Qed.

Lemma wp_check_issuer h g sealed actor Q :
  (∀ h', h ⊆ h' → issuer_mismatch sealed actor = false → Q h' (Ok tt)) → (∀ h' e, Q h' (Err e)) →
  iwp P h (check_issuer g sealed actor) Q.
Proof. intros HQ He. unfold check_issuer. isteps; [apply He | apply HQ; [grown | done]]. Qed.

Lemma wp_charge_run_quota h g sealed actor evidence Q :
  (∀ h' denied, h ⊆ h' → (denied = None → charged h' g evidence) → Q h' (Ok denied)) →
  (∀ h' e, Q h' (Err e)) → iwp P h (charge_run_quota g sealed actor evidence) Q.
Proof.
  intros HQ He. unfold charge_run_quota. isteps; try apply He; apply HQ; try grown; try done.
  intros _ ? [= <-]. eexists. in_history.
Qed.

Lemma wp_authorize_decrypt h g sealed actor Q :
  (∀ h' name, h ⊆ h' → decryptable h' g sealed actor name → Q h' (Ok name)) →
  (∀ h' e, Q h' (Err e)) → iwp P h (authorize_decrypt cfg g sealed actor) Q.
Proof.
  intros HQ He. unfold authorize_decrypt, catalog_key_id, validate_request_recipient_key,
    decide_and_record. isteps; try apply He.
  repeat match goal with H : _ = Ok _ |- _ => inv_ok H end.
  repeat match goal with H : ok_or _ _ = Ok _ |- _ => apply ok_or_Ok in H end. bool_facts. subst.
  apply HQ; [grown |]. split; [done |]. split; [done |].
  destruct (decide_key _ _ _ _) as [via |] eqn:Hd; [| done].
  exists via. split; [done |]. in_history.
Qed.
End steps.

(** ** From the preflight to the answer *)

Section justify.
Variable message : bytes_.

#[local] Abbreviation P := (justified message).

Lemma justified_quiet h R (e : InvEff R) : quiet e = true → P h R e.
Proof. by destruct e. Qed.

Definition prepared (h : list Done) (p : PreparedInvocation) : Prop :=
  let g := pi_generation p in
  ∃ sealed evidence recipient name,
    admitted h message g sealed evidence (pi_provider_operation_target p) recipient (pi_actor p) ∧
    decryptable h g sealed (pi_actor p) name ∧ opened h sealed name (pi_body p) ∧
    pi_content_type p = content_type_str (sealed_content_type sealed) ∧
    pi_envelope p = request_envelope message sealed recipient.

Definition denied (h : list Done) (d : DeniedInvocation) : Prop :=
  ∃ sealed evidence public target recipient,
    addressed h message (di_generation d) sealed evidence public target recipient ∧
    di_envelope d = request_envelope message sealed recipient.

Definition prepared_post (h : list Done) (r : result Status PreparedRequest) : Prop :=
  match r with
  | Ok (Proceed p) => prepared h p
  | Ok (DeniedRequest d) => denied h d
  | Err _ => True
  end.

Lemma wp_check_response_material h g sealed evidence public target recipient Q :
  addressed h message g sealed evidence public target recipient →
  (∀ h', h ⊆ h' → Q h' (Ok tt)) → (∀ h' e, Q h' (Err e)) →
  iwp P h (check_response_material recipient) Q.
Proof.
  intros Ha HQ He. unfold check_response_material, validate_catalog_response_encryption_key_material.
  destruct recipient as [key_id | key_id public']; [| by apply HQ].
  cbn [recipient_is_catalog recipient_kid]. pose proof justified_quiet as Hquiet.
  isteps; [by eexists _, _, _, _, _ | | apply He].
  match goal with u : unit |- _ => destruct u end. apply HQ; grown.
Qed.

Lemma open_request_Ok sealed key_id aad expected request :
  map_err open_status (VerifiedSealed_open_request sealed key_id aad expected) = Ok request →
  cose_encrypt request = sealed_encrypt_bytes sealed ∧ external_aad request = aad.
Proof. unfold VerifiedSealed_open_request. intros Hr. by repeat case_match; simplify_eq/=. Qed.

Lemma wp_decrypt_request h g sealed evidence target recipient actor name Q :
  admitted h message g sealed evidence target recipient actor →
  decryptable h g sealed actor name →
  (∀ h' body, h ⊆ h' → opened h' sealed name body → Q h' (Ok body)) → (∀ h' e, Q h' (Err e)) →
  iwp P h (decrypt_request sealed) Q.
Proof.
  intros Ha Hd HQ He. unfold decrypt_request, open_request, ManagerRecipient_open.
  destruct Hd as (Hname & Hcfg & Hal). rewrite Hname.
  pose proof justified_quiet as Hquiet. isteps; try apply He;
    match goal with H : map_err _ _ = Ok _ |- _ => apply open_request_Ok in H as [-> ->] end.
  - by exists g, sealed, evidence, target, recipient, actor.
  - match goal with H : (let? _ := _ in _) = Ok _ |- _ => inv_ok H end. apply HQ; [grown |].
    match goal with H : map_err _ (map_err _ ?r) = Ok _ |- _ => destruct r; simplify_eq/= end.
    unfold opened. in_history.
Qed.

Lemma wp_admit_request h g sealed evidence target recipient actor :
  admitted h message g sealed evidence target recipient actor →
  iwp P h (admit_request cfg g message sealed actor target recipient) prepared_post.
Proof.
  intros Ha. unfold admit_request.
  apply iwp_ebind, wp_authorize_decrypt; [by apply justified_quiet | | done]. intros h1 name Hh1 Hd.
  pose proof (admitted_mono _ _ Hh1 _ _ _ _ _ _ _ Ha) as Ha1.
  destruct (am_addressed _ _ _ _ _ _ _ _ Ha1) as (public & Had & _).
  apply iwp_ebind. eapply wp_check_response_material; [done | | done]. intros h2 Hh2.
  apply iwp_ebind. eapply (wp_decrypt_request _ g); [by eapply admitted_mono | by eapply decryptable_mono | | done].
  intros h3 body Hh3 Ho. exists sealed, evidence, recipient, name. cbn.
  split; [by eapply (admitted_mono h1); [etransitivity |] |].
  split; [by eapply (decryptable_mono h1); [etransitivity |] | done].
Qed.

#[local] Abbreviation peer := (peer_from_extensions proc_exe x).
#[local] Abbreviation stored g :=
  (stored_verified_key base32_decode nkey_verify_ed25519 (gen_policy (ig_generation g)) message).

Lemma wp_resolve_request h g uid sealed evidence public target recipient :
  addressed h message g sealed evidence public target recipient →
  fresh h g message sealed public → peer_uid peer = Some uid →
  iwp P h (resolve_request cfg g peer uid message sealed evidence (stored g) target recipient)
    prepared_post.
Proof.
  intros Ha Hf Hu. pose proof justified_quiet as Hquiet. unfold resolve_request.
  apply iwp_ebind, wp_resolve_actor; [done.. | | done]. intros actor Hact.
  apply iwp_ebind, wp_check_issuer; [done | | done]. intros h1 Hh1 Hiss.
  apply iwp_ebind, wp_charge_run_quota; [done | | done]. intros h2 denial Hh2 Hc.
  assert (Hh : h ⊆ h2) by (by etransitivity).
  pose proof (addressed_mono _ _ Hh _ _ _ _ _ _ _ Ha) as Ha2.
  destruct denial as [denial |]; [by exists sealed, evidence, public, target, recipient |].
  apply (wp_admit_request _ _ _ evidence). split; [| done | done | by apply Hc].
  exists public. split; [done | by eapply fresh_mono].
Qed.

Lemma wp_prepare_invocation h :
  ic_enabled cfg = true →
  iwp P h (prepare_invocation proc_exe base32_decode nkey_verify_ed25519 cfg x message)
    prepared_post.
Proof.
  intros Hen. pose proof justified_quiet as Hquiet. unfold prepare_invocation, preflight.
  istep; [done |]. istep. istep; [by apply Hquiet |]. rename r into g.
  apply iwp_ebind, wp_verify_message; [done | | done]. intros h1 sealed Hh1 Hv.
  apply iwp_bind, wp_present_audit; [done |]. intros h2 Hh2.
  apply iwp_ebind, wp_present_token; [done | | done]. intros h3 token Hh3 Ht.
  apply iwp_ebind, wp_present_proof_key; [done | | done]. intros h4 public Hh4 Hp.
  apply iwp_ebind. eapply wp_present_evidence; [done.. | | done]. intros h5 evidence Hh5 Hev.
  apply iwp_ebind. eapply wp_provider_target; [done.. | | done]. intros h6 target Hh6 Hid.
  istep; [done |].
  istep. istep. istep. destruct (resolve_response_recipient _ _ _) as [recipient | e] eqn:Hr; [| isteps; done].
  apply iwp_ebind, wp_peer_uid_or_deny; [done | intros uid Hu | done].
  assert (Hh : h1 ⊆ h6) by (do 4 (etransitivity; [done |]); done).
  assert (Ha : addressed h6 message g sealed evidence public target recipient).
  { split; try done; [apply Hh, Hh1; in_history | by eapply verified_message_mono]. }
  apply iwp_ebind, wp_check_freshness; [done | | done]. intros h7 b Hh7 Hf.
  pose proof (addressed_mono _ _ Hh7 _ _ _ _ _ _ _ Ha) as Ha7. destruct b.
  - eapply wp_resolve_request; try done. by apply Hf.
  - by exists sealed, evidence, public, target, recipient.
Qed.

(** The answer to a request: sealed to its recipient, bound to it, signed. *)
Definition answered (h : list Done) (sealed : VerifiedSealed) (recipient : ResponseRecipient)
    (response : SignInvocationResponse) (answer : SealedResponse) : Prop :=
  ∃ key protected encrypted to_sign signature,
    sealed_answer h message sealed recipient response key protected encrypted to_sign ∧
    Did (ESign key to_sign) (Ok signature) ∈ h ∧ signature ≠ [] ∧
    assemble_sign1 protected encrypted signature = Ok (sr_message answer).

Lemma sealed_answer_mono h h' sealed recipient response key protected encrypted to_sign :
  h ⊆ h' → sealed_answer h message sealed recipient response key protected encrypted to_sign →
  sealed_answer h' message sealed recipient response key protected encrypted to_sign.
Proof.
  intros Hh (id & rk & u & n & p & s & e & no & ? & ? & Hk & ? & ? & ? & ? & ?).
  exists id, rk, u, n, p, s, e, no. do 2 (split; [done |]).
  split; [destruct recipient; [unfold recipient_key_of in *; in_history | done] |].
  do 4 (split; [in_history |]). done.
Qed.

Lemma answered_mono h h' sealed recipient response answer :
  h ⊆ h' → answered h sealed recipient response answer →
  answered h' sealed recipient response answer.
Proof.
  intros Hh (key & pr & en & ts & sg & Hs & ? & ? & ?). exists key, pr, en, ts, sg.
  split; [by eapply sealed_answer_mono |]. split; [in_history | done].
Qed.

Lemma wp_recipient_public_key h g sealed evidence public target recipient Q :
  addressed h message g sealed evidence public target recipient →
  (∀ h' key, h ⊆ h' → recipient_key_of h' recipient key → Q h' (Ok key)) →
  (∀ h' e, Q h' (Err e)) → iwp P h (recipient_public_key recipient) Q.
Proof.
  intros Ha HQ He. unfold recipient_public_key, recipient_key_of in *.
  destruct recipient as [key_id | key_id key]; [| by apply HQ].
  pose proof justified_quiet as Hquiet. isteps; [by eexists _, _, _, _, _ |].
  match goal with |- Q _ (map_err _ ?r) => destruct r; [apply HQ; [grown | in_history] | apply He] end.
Qed.

Lemma wp_build_sealed h params signer Q :
  (∀ h' name ephemeral nonce protected encrypted to_sign, h ⊆ h' →
     as_catalog_name signer = Some name → Did (EFill 32) (Some ephemeral) ∈ h' →
     Did (EFill NONCE_LEN) (Some nonce) ∈ h' →
     seal_to_sign params signer EdDsa ephemeral nonce None = Ok (protected, encrypted, to_sign) →
     P h' _ (ESign name to_sign) ∧
     ∀ signature sealed, signature ≠ [] →
       assemble_sign1 protected encrypted signature = Ok sealed →
       Q (Did (ESign name to_sign) (Ok signature) :: h') (Ok sealed)) →
  (∀ h' e, Q h' (Err e)) → iwp P h (build_sealed_with_manager params signer) Q.
Proof.
  intros HQ He. pose proof justified_quiet as Hquiet. unfold build_sealed_with_manager.
  istep. istep; [by apply Hquiet |]. istep. apply iwp_ilift; [intros ephemeral ->%ok_or_Ok | apply He].
  istep. istep; [by apply Hquiet |]. istep. apply iwp_ilift; [intros nonce ->%ok_or_Ok | apply He].
  apply iwp_ilift; [intros [[protected encrypted] to_sign] Hs | apply He].
  apply iwp_ilift; [intros name Hn%ok_or_Ok | apply He].
  match goal with |- iwp _ ?h' _ _ =>
    destruct (HQ h' name ephemeral nonce protected encrypted to_sign) as [HJ HQ'] end;
    [grown | done | in_history | in_history | done |].
  isteps; try apply He; [exact HJ |].
  destruct r as [signed |]; cbn [map_err] in *; [simplify_eq | done].
  match goal with H : map_err _ (Signature_from_bytes _) = _ |- _ =>
    unfold Signature_from_bytes in H; case_match; cbn [map_err] in H; simplify_eq end.
  cbn [signature_bytes]. unfold build_codec.
  destruct (assemble_sign1 _ _ _) eqn:?; [| apply He].
  apply HQ'; [by intros -> | done].
Qed.

Lemma signer_named id signer name :
  KeyId_from_text id = Ok signer → as_catalog_name signer = Some name → name = id.
Proof.
  unfold KeyId_from_text, KeyId_from_bytes, as_catalog_name, from_utf8. intros Hk.
  inv_ok Hk. cbn. case_match; [| done]. intros [= <-]. apply of_bytes_bytes.
Qed.

Lemma response_params_signer identity envelope ct body key uuid now params signer :
  response_params identity envelope ct body key uuid now = Ok (params, signer) →
  KeyId_from_text (response_signing_key_id identity) = Ok signer.
Proof. unfold response_params. intros Hp. inv_ok Hp. congruence. Qed.

Lemma wp_protect_response h g sealed evidence public target recipient response Q :
  addressed h message g sealed evidence public target recipient → truthful h message g response →
  (∀ h' answer, h ⊆ h' → answered h' sealed recipient response answer → Q h' (Ok answer)) →
  (∀ h' e, Q h' (Err e)) →
  iwp P h (protect_response cfg (request_envelope message sealed recipient)
             CONTENT_TYPE_SIGN_RESPONSE (SignInvocationResponse_to_cbor_bytes response)) Q.
Proof.
  intros Ha Ht HQ He. pose proof justified_quiet as Hquiet. unfold protect_response.
  apply iwp_ilift; [intros identity Hi%ok_or_Ok | apply He].
  apply iwp_ebind. eapply wp_recipient_public_key; [done | | done]. intros h1 key Hh1 Hk.
  istep. istep; [by apply Hquiet |]. do 2 istep. istep; [by apply Hquiet |]. istep.
  apply iwp_ilift; [intros [params signer] Hp | apply He].
  destruct (response_params _ _ _ _ _ _ _) as [[] |] eqn:Hrp; cbn [map_err] in Hp; [| done].
  simplify_eq. cbn [fst snd]. apply iwp_bind, wp_build_sealed; [| intros; apply He].
  intros h2 name ephemeral nonce protected encrypted to_sign Hh2 Hn He1 He2 Hs.
  pose proof (signer_named _ _ _ (response_params_signer _ _ _ _ _ _ _ _ _ Hrp) Hn) as ->.
  assert (Hh : h ⊆ h2) by set_solver.
  assert (Hsa : sealed_answer h2 message sealed recipient response
                  (response_signing_key_id identity) protected encrypted to_sign).
  { exists identity, key. do 6 eexists. do 2 (split; [done |]).
    split; [destruct recipient; [apply Hh2; in_history | done] |].
    do 2 (split; [apply Hh2; in_history |]). done. }
  split.
  - right. exists g, sealed, evidence, public, target, recipient, response, protected, encrypted.
    split; [by eapply addressed_mono |]. split; [by eapply truthful_mono | done].
  - intros signature msg Hne Hm. apply HQ; [set_solver |].
    exists (response_signing_key_id identity), protected, encrypted, to_sign, signature.
    split; [eapply sealed_answer_mono; [| done]; grown |]. split; [in_history | done].
Qed.

(** ** The answer *)

Definition answer_post (h : list Done) (r : result ResponseProtectionError SealedResponse) : Prop :=
  ∀ answer, r = Ok answer →
    ∃ g sealed evidence public target recipient response,
      addressed h message g sealed evidence public target recipient ∧
      truthful h message g response ∧ answered h sealed recipient response answer.

Lemma wp_protect_audited h g sealed evidence public target recipient response stage outcome reason :
  addressed h message g sealed evidence public target recipient → truthful h message g response →
  iwp P h (protect_audited cfg (request_envelope message sealed recipient) response stage outcome
             reason) answer_post.
Proof.
  intros Ha Ht. pose proof justified_quiet as Hquiet. unfold protect_audited.
  istep. isteps. eapply wp_protect_response;
    [eapply addressed_mono; [| done]; grown | eapply truthful_mono; [| done]; grown | |].
  - intros h1 answer Hh1 Han. unfold finalize_response_audit. isteps. intros ? [= <-].
    exists g, sealed, evidence, public, target, recipient, response.
    split; [eapply addressed_mono; [| done]; set_solver |].
    split; [eapply truthful_mono; [| done]; set_solver |].
    eapply answered_mono; [| done]. grown.
  - intros h1 e. unfold finalize_response_audit. by isteps.
Qed.

Lemma truthful_status h g status :
  refuses status = true → truthful h message g (status_response g status).
Proof. intros Hs. by split. Qed.

Lemma prepared_mono h h' p : h ⊆ h' → prepared h p → prepared h' p.
Proof.
  intros Hh (sealed & evidence & recipient & name & ? & ? & ? & ? & ?).
  exists sealed, evidence, recipient, name. split; [by eapply admitted_mono |].
  split; [by eapply decryptable_mono |]. split; [unfold opened in *; in_history | done].
Qed.

Lemma wp_status_response h p status stage outcome reason :
  prepared h p → refuses status = true →
  iwp P h (protect_sign_status_response cfg p status stage outcome reason) answer_post.
Proof.
  intros (sealed & evidence & recipient & name & Ha & _ & _ & _ & Henv) Hs.
  destruct (am_addressed _ _ _ _ _ _ _ _ Ha) as (public & Had & _).
  unfold protect_sign_status_response. rewrite Henv.
  eapply wp_protect_audited; [done | by apply truthful_status].
Qed.

Lemma wp_sign_and_respond h p body :
  prepared h p → pi_content_type p = CONTENT_TYPE_SIGN_REQUEST →
  SignInvocationRequest_from_cbor_bytes (pi_body p) = Ok body →
  ensure_supported_signing_algorithm (InvocationBody.sq_algorithm body) INVOKE_OP = Ok tt →
  allows h (pi_generation p) (pi_actor p) Policy.Sign (operation_target p body) →
  iwp P h (sign_and_respond cfg p body) answer_post.
Proof.
  intros Hp Hc Hb Halg Hal. pose proof justified_quiet as Hquiet.
  pose proof Hp as (sealed & evidence & recipient & name & Ha & Hd & Ho & Hct & Henv).
  assert (Hms : may_sign h message (pi_generation p) (operation_target p body)
                  (InvocationBody.sq_message body)).
  { exists sealed, evidence. do 4 eexists. exists (pi_body p), body. split_and!; try done. congruence. }
  destruct (am_addressed _ _ _ _ _ _ _ _ Ha) as (public & Had & _).
  unfold sign_and_respond, audit. do 2 (istep; istep; [by apply Hquiet |]; istep).
  istep. istep. { left. eexists. eapply may_sign_mono; [| done]. grown. }
  istep. istep. istep; [by apply Hquiet |]. istep. destruct r as [signature | e].
  - rewrite Henv. eapply wp_protect_audited; [eapply addressed_mono; [| done]; grown |].
    split; [done |]. split; [done |]. do 2 eexists.
    split; [eapply may_sign_mono; [| exact Hms]; grown | in_history].
  - apply wp_status_response; [eapply prepared_mono; [| done]; grown | done].
Qed.

Lemma wp_execute_invocation h p :
  prepared h p → iwp P h (execute_invocation cfg p) answer_post.
Proof.
  intros Hp. pose proof justified_quiet as Hquiet.
  unfold execute_invocation, execute_sign_invocation, decide_and_record, record, audit.
  destruct (String.eqb _ _) eqn:Hc; [apply String.eqb_eq in Hc | by apply wp_status_response].
  destruct (SignInvocationRequest_from_cbor_bytes _) as [body |] eqn:Hb; [| by apply wp_status_response].
  destruct (ensure_supported_signing_algorithm _ _) as [[] |] eqn:Halg; [| by apply wp_status_response].
  istep. istep. istep; [by apply Hquiet |]. istep. cbn [iwp].
  destruct (decide_key _ _ _ _) as [via | ?] eqn:Hd; cbn [is_deny].
  - eapply wp_sign_and_respond; [eapply prepared_mono; [| done]; grown | done.. |].
    exists via. split; [done | in_history].
  - istep. istep; [by apply Hquiet |]. istep.
    apply wp_status_response; [eapply prepared_mono; [| done]; grown | done].
Qed.

Lemma wp_answer h request :
  prepared_post h (Ok request) → iwp P h (answer cfg request) answer_post.
Proof.
  destruct request as [p | d]; [apply wp_execute_invocation |].
  intros (sealed & evidence & public & target & recipient & Ha & Henv).
  unfold answer, protect_denied_invocation. rewrite Henv.
  eapply wp_protect_audited; [done |]. apply truthful_status. by destruct (di_denial d).
Qed.

Lemma wp_invoke :
  iwp P [] (invoke proc_exe base32_decode nkey_verify_ed25519 cfg x message) (λ h r,
    ∀ answer, r = Ok answer → answer_post h (Ok answer)).
Proof.
  unfold invoke. istep; [done |]. pose proof justified_quiet as Hquiet. bool_facts.
  istep. apply iwp_ebind. eapply iwp_mono; [| by apply wp_prepare_invocation].
  intros h1 r _ Hr. destruct r as [request | e]; [| by isteps].
  istep. eapply iwp_mono; [| by apply wp_answer]. intros h2 [answer |] _ Ha; isteps; [| done].
  intros ? [= <-] ? [= <-]. destruct (Ha answer eq_refl) as
    (g & sealed & evidence & public & target & recipient & response & ? & ? & ?).
  exists g, sealed, evidence, public, target, recipient, response.
  split; [eapply addressed_mono; [| done]; grown |].
  split; [eapply truthful_mono; [| done]; grown |]. eapply answered_mono; [| done]. grown.
Qed.

(** C1: no key is used without the request's standing.  For every message,
    whatever the environment answers and however requests interleave, each
    manager call that [invoke] makes is one of: the public half of a response
    key that the pinned generation's catalog marks for responses; the
    decryption of this message, once it verified under the policy of the
    generation the request pinned, its challenge was consumed for the key
    that signed it, its signer was resolved to an actor of that generation
    whose name it claims, the CI run behind it was charged, and the same
    generation allowed that actor to decrypt with the broker's request key,
    on record; the signature the decrypted body asks for, with the key the
    provider's rule allows where a provider vouches, once that generation
    allowed it, on record; the broker's signature over an answer that is bound
    to this message, sealed to the recipient it names, and reports success
    only with a signature the backend returned.  What [invoke] returns is such
    an answer. *)
Theorem invoke_justified :
  iwp P [] (invoke proc_exe base32_decode nkey_verify_ed25519 cfg x message) (λ h r,
    ∀ answer, r = Ok answer →
      ∃ g sealed evidence public target recipient response,
        addressed h message g sealed evidence public target recipient ∧
        truthful h message g response ∧ answered h sealed recipient response answer).
Proof. eapply iwp_mono; [| apply wp_invoke]. intros h r _ Hr answer ->. exact (Hr _ eq_refl _ eq_refl). Qed.
End justify.
End sound.
