(* ===== verification/InvocationReplay.v ===== *)
(** * Concurrent invocations

    Requests arrive and run interleaved over the one challenge table of the
    broker, each step an effect of some request.  One challenge the broker
    issued lets at most one of the messages that carry it be decrypted, and so
    executed: a captured message cannot be replayed, nor raced against
    itself. *)

From stdpp Require Import gmap.
From S2P Require Import Prelude RustStr Bytes BTreeMap Glob Policy Evidence Nkey Schema Actor Pdp.
From S2P Require Import Decision Challenge RunQuota Json RustCrypto CoseTypes Cbor CoseCodec.
From S2P Require Import InvocationBody CoseProfile CoseDisplay LocalCrypto Xkey Backend.
From S2P Require Import CoseProfileProofs CryptoProvider CiFederation CiVerify JwksCache CiAudit.
From S2P Require Import Manager Transport Service InvocationService InvocationProofs.

(** ** The broker's invocation threads *)

(** The requests that touch the challenge table, with their connection. *)
Inductive Call :=
| CallInvoke (x : Extensions) (message : bytes_)
| CallChallenge (x : Extensions) (request : ChallengeRequest).

Record Thread := {
  th_call : Call;
  th_past : list Done;
  th_rest : Inv unit;
}.

Definition iforget {A} (p : Inv A) : Inv unit := ibind p (λ _, IRet tt).

(** How often a step issued, and how often consumed, [challenge]. *)
Definition issues (challenge : bytes_) (d : Done) : nat :=
  match d with
  | Did e r =>
      match e in InvEff R return R → nat with
      | EIssue _ _ _ _ => λ r,
          match r with
          | Some (Ok c) => if decide (issued_challenge c = challenge) then 1 else 0
          | _ => 0
          end
      | _ => λ _, 0
      end r
  end.

Definition consumes (challenge : bytes_) (d : Done) : nat :=
  match d with
  | Did e r =>
      match e in InvEff R return R → nat with
      | EConsume c _ _ _ => λ r,
          match r with Ok _ => if decide (c = challenge) then 1 else 0 | Err _ => 0 end
      | _ => λ _, 0
      end r
  end.

Definition unseals (d : Done) : bool :=
  match d with Did e _ => match e with EUnseal _ _ _ => true | _ => false end end.

Definition times (f : Done → nat) (h : list Done) : nat := sum_list_with f h.
Definition times_all (f : Done → nat) (ths : list Thread) : nat :=
  sum_list_with (λ th, times f (th_past th)) ths.

Section threads.
Context `{RC : RustCrypto} `{HP : Primitives} `{SP : SignaturePrimitives} `{HM : Minicbor}.
Context `{FC : FederationCrates} `{HI : HashIteration}.
Variable proc_exe : N → option string.
Variable base32_decode : string → option bytes_.
Variable nkey_verify_ed25519 : bytes_ → bytes_ → bytes_ → bool.
Variable blake3 : bytes_ → bytes_.
Variable cfg : InvocationConfig.

Definition start (call : Call) : Thread :=
  {| th_call := call; th_past := [];
     th_rest :=
       match call with
       | CallInvoke x message =>
           iforget (invoke proc_exe base32_decode nkey_verify_ed25519 cfg x message)
       | CallChallenge x request => iforget (get_invocation_challenge proc_exe blake3 cfg x request)
       end |}.

(** What the table answers; every other effect may be answered anyhow. *)
Definition table_answer (t : ChallengeTable) {R} (e : InvEff R)
    : R → ChallengeTable → Prop :=
  match e with
  | EIssue jkt source generation now => λ r t',
      (r = None ∧ t' = t) ∨
      ∃ entropy alloc v, entropy_ok entropy ∧ r = Some v ∧
        issue t jkt source generation now entropy alloc = (t', v)
  | EConsume challenge jkt generation now => λ r t',
      consume t challenge jkt generation now = (t', r)
  | _ => λ _ t', t' = t
  end.

(** A request arrives, or one of them makes its next step. *)
Inductive sys_step : ChallengeTable * list Thread → ChallengeTable * list Thread → Prop :=
| sys_arrive t ths call : sys_step (t, ths) (t, ths ++ [start call])
| sys_effect t t' ths i th R (e : InvEff R) k r :
    ths !! i = Some th → th_rest th = IDo e k → table_answer t e r t' →
    sys_step (t, ths)
      (t', <[i := {| th_call := th_call th; th_past := Did e r :: th_past th; th_rest := k r |}]> ths).

(** The challenge a message carries. *)
Definition bears (message challenge : bytes_) : Prop :=
  ∃ outer embedded claims c,
    decode_sign1_strict message SealedOuter = Ok outer ∧
    decode_encrypt_strict (s_payload outer) ClaimsRequired = Ok embedded ∧
    e_claims embedded = Some claims ∧ freshness_challenge claims = Some c ∧
    challenge_bytes c = challenge.

(** The request decrypted its message, which carries [challenge]. *)
Definition decrypted (challenge : bytes_) (th : Thread) : Prop :=
  ∃ x message d, th_call th = CallInvoke x message ∧ bears message challenge ∧
    d ∈ th_past th ∧ unseals d = true.

(** ** What one request needs *)

Lemma verified_bears h g message sealed challenge :
  verified_message base32_decode nkey_verify_ed25519 cfg h g message sealed →
  bears message challenge →
  ∃ c, freshness_challenge (sealed_claims sealed) = Some c ∧ challenge_bytes c = challenge.
Proof.
  intros (now & allowed & _ & _ & Hv) (outer & embedded & claims & c & Ho & He & Hc & Hf & Hb).
  destruct (verify_sealed_steps _ _ _ _ Hv) as (outer' & embedded' & u & Ho' & He' & _ & Hc' & _).
  rewrite Ho in Ho'. simplify_eq. rewrite He in He'. simplify_eq. by exists c.
Qed.

Lemma times_in f d h : d ∈ h → f d ≤ times f h.
Proof. induction 1; unfold times in *; simpl in *; lia. Qed.

(** A request that may decrypt has consumed its challenge. *)
Lemma unseal_consumed x message h name cose aad challenge :
  justified proc_exe base32_decode nkey_verify_ed25519 cfg x message h _ (EUnseal name cose aad) →
  bears message challenge → 1 ≤ times (consumes challenge) h.
Proof.
  intros (g & sealed & evidence & target & recipient & actor & Ha & _) Hb.
  destruct (am_addressed _ _ _ _ _ _ _ _ _ _ _ _ _ Ha) as (public & Had & Hf).
  destruct (verified_bears _ _ _ _ _ (ad_verified _ _ _ _ _ _ _ _ _ _ _ Had) Hb) as (c & Hc & <-).
  unfold fresh in Hf. rewrite Hc in Hf. destruct Hf as (jkt & now & _ & Hd).
  apply (times_in (consumes (challenge_bytes c))) in Hd. simpl in Hd.
  by rewrite decide_True in Hd.
Qed.

(** ** Reachable states *)

Definition thread_ok (th : Thread) : Prop :=
  match th_call th with
  | CallInvoke x message =>
      iwp (justified proc_exe base32_decode nkey_verify_ed25519 cfg x message) (th_past th)
        (th_rest th) (λ _ _, True) ∧
      ∀ d challenge, d ∈ th_past th → unseals d = true → bears message challenge →
        1 ≤ times (consumes challenge) (th_past th)
  | CallChallenge _ _ => True
  end.

Lemma start_ok call : thread_ok (start call).
Proof.
  destruct call as [x message |]; [| done]. split; cbn; [| by intros ? ? ?%not_elem_of_nil].
  apply iwp_bind. eapply iwp_mono; [| apply wp_invoke]. done.
Qed.

Lemma thread_step_ok th R (e : InvEff R) k r :
  thread_ok th → th_rest th = IDo e k →
  thread_ok {| th_call := th_call th; th_past := Did e r :: th_past th; th_rest := k r |}.
Proof.
  intros Hok Hrest. unfold thread_ok in *. cbn. destruct (th_call th) as [x message |]; [| done].
  rewrite Hrest in Hok. destruct Hok as [[Hj Hk] Hpast]. split; [apply Hk |].
  intros d challenge Hd Hu Hb. unfold times. cbn [sum_list_with].
  enough (1 ≤ times (consumes challenge) (th_past th)) by (unfold times in *; lia).
  apply elem_of_cons in Hd as [-> | Hd]; [| by eapply Hpast].
  destruct e; try done. by eapply unseal_consumed.
Qed.

(** The table and the threads agree on the challenge. *)
Record sys_ok (challenge : bytes_) (s : ChallengeTable * list Thread) : Prop := {
  so_wf : table_wf s.1;
  so_threads : Forall thread_ok s.2;
  so_count : live s.1 challenge + times_all (consumes challenge) s.2
             ≤ times_all (issues challenge) s.2;
}.

Lemma times_all_insert f ths i th th' :
  ths !! i = Some th →
  times_all f (<[i := th']> ths) + times f (th_past th) = times_all f ths + times f (th_past th').
Proof.
  revert i. induction ths as [| t ths IH]; intros [| i] Hi; simplify_eq/=; [lia |].
  apply IH in Hi. unfold times_all in *. simpl. lia.
Qed.

Lemma table_answer_ok t R (e : InvEff R) r t' challenge :
  table_wf t → table_answer t e r t' →
  table_wf t' ∧
  live t' challenge + consumes challenge (Did e r) ≤ live t challenge + issues challenge (Did e r).
Proof.
  intros Hwf. destruct e; cbn [table_answer consumes issues]; try (intros ->; split; [done | lia]).
  - intros [[-> ->] | (en & al & v & Hen & -> & Hi)]; [split; [done | lia] |].
    split; [by eapply issue_wf |]. pose proof (issue_live _ _ _ _ _ _ _ _ _ challenge Hwf Hi) as Hl.
    simpl in Hl. destruct v; lia.
  - intros Hc. split; [by eapply consume_wf |].
    pose proof (consume_live _ _ _ _ _ _ _ challenge Hc) as Hl. simpl in Hl. destruct r; lia.
Qed.

Lemma sys_step_ok challenge s s' : sys_ok challenge s → sys_step s s' → sys_ok challenge s'.
Proof.
  intros [Hwf Hths Hc] Hstep. destruct Hstep as [t ths call | t t' ths i th R e k r Hi Hr Ha]; cbn in *.
  - split; cbn; [done | apply Forall_app; split; [done |]; constructor; [apply start_ok | done] |].
    unfold times_all. rewrite !sum_list_with_app. simpl. unfold times_all in Hc. lia.
  - destruct (table_answer_ok _ _ _ _ _ challenge Hwf Ha) as [Hwf' Hl]. split; cbn; [done | |].
    + apply Forall_insert; [done |]. apply (thread_step_ok _ _ e); [| done].
      by eapply Forall_lookup_1.
    + pose proof (times_all_insert (consumes challenge) _ _ _
        {| th_call := th_call th; th_past := Did e r :: th_past th; th_rest := k r |} Hi) as H1.
      pose proof (times_all_insert (issues challenge) _ _ _
        {| th_call := th_call th; th_past := Did e r :: th_past th; th_rest := k r |} Hi) as H2.
      unfold times in H1, H2. cbn [th_past sum_list_with] in H1, H2. unfold times_all in *. lia.
Qed.

Lemma sys_run_ok challenge s s' : rtc sys_step s s' → sys_ok challenge s → sys_ok challenge s'.
Proof. induction 1; eauto using sys_step_ok. Qed.

Lemma initial_ok challenge c id :
  (∀ i, id = Some i → length i = INSTANCE_ID_LEN) → sys_ok challenge (with_config c id, []).
Proof.
  intros Hid. split; cbn; [by apply with_config_wf | done |].
  unfold live. case_decide as Hd; [| unfold times_all; simpl; lia].
  destruct Hd as [_ [? Hr]]. simpl in Hr. by rewrite lookup_empty in Hr.
Qed.

(** Distinct threads that each count once sum up. *)
Lemma times_all_distinct f ths ids :
  NoDup ids → Forall (λ i, ∃ th, ths !! i = Some th ∧ 1 ≤ times f (th_past th)) ids →
  length ids ≤ times_all f ths.
Proof.
  revert ths. induction ids as [| i ids IH]; intros ths Hnd Hall; simpl; [lia |].
  apply list.NoDup_cons in Hnd as [Hi Hnd]. apply list.Forall_cons in Hall as [(th & Hth & Hf) Hall].
  pose (th0 := {| th_call := th_call th; th_past := []; th_rest := th_rest th |}).
  pose proof (times_all_insert f ths i th th0 Hth) as Hsum. unfold times at 2 in Hsum. simpl in Hsum.
  enough (length ids ≤ times_all f (<[i := th0]> ths)) by lia. apply IH; [done |].
  rewrite list.Forall_forall in *. intros j Hj. destruct (Hall j Hj) as (thj & Hthj & ?).
  exists thj. split; [| done]. rewrite list_lookup_insert_ne; [done |]. by intros ->.
Qed.

(** C3: a challenge admits one request.  However requests arrive and
    interleave, whatever their other effects are answered, and although any
    number of messages (a captured one among them, sent again or raced
    against itself) may carry the challenge: the requests that decrypt a
    message carrying it are no more than the times the broker issued it. *)
Theorem challenge_admits_once c id t ths challenge ids :
  (∀ i, id = Some i → length i = INSTANCE_ID_LEN) →
  rtc sys_step (with_config c id, []) (t, ths) →
  NoDup ids → Forall (λ i, ∃ th, ths !! i = Some th ∧ decrypted challenge th) ids →
  length ids ≤ times_all (issues challenge) ths.
Proof.
  intros Hid Hrun Hnd Hall.
  destruct (sys_run_ok challenge _ _ Hrun (initial_ok _ c id Hid)) as [_ Hths Hc]. cbn [fst snd] in *.
  enough (length ids ≤ times_all (consumes challenge) ths) by lia.
  apply times_all_distinct; [done |]. eapply list.Forall_impl; [exact Hall |].
  intros i (th & Hi & x & message & d & Hcall & Hb & Hd & Hu). exists th. split; [done |].
  pose proof (Forall_lookup_1 _ _ _ _ Hths Hi) as Hok. unfold thread_ok in Hok.
  rewrite Hcall in Hok. destruct Hok as [_ Hok]. by eapply Hok.
Qed.
End threads.
