(* ===== verification/InvocationSigning.v ===== *)
(** * The signatures of a run of [invoke]

    Where in a run the backend is asked to sign, and what becomes of the
    signature: the operation's signature is one the request may ask for; the
    broker's own signature covers the layers of an answer, and with a
    signature in hand the run does nothing but return the message assembled
    from those layers and that signature. *)

From stdpp Require Import gmap.
From S2P Require Import Prelude RustStr Bytes BTreeMap Glob Policy Evidence Nkey Schema Actor Pdp.
From S2P Require Import Decision Challenge RunQuota Json RustCrypto CoseTypes Cbor CoseCodec.
From S2P Require Import InvocationBody CoseProfile CoseDisplay LocalCrypto Xkey Backend.
From S2P Require Import CryptoProvider CiFederation CiVerify JwksCache CiAudit Manager Transport.
From S2P Require Import Service InvocationService InvocationProofs.

(** ** Runs *)

(** [p] has had the effects [h], latest first, and goes on as [q]. *)
Inductive ran {A} (p : Inv A) : list Done → Inv A → Prop :=
| ran_start : ran p [] p
| ran_effect {R} h (e : InvEff R) k r : ran p h (IDo e k) → ran p (Did e r :: h) (k r).

Lemma iwp_ran {A} P (p : Inv A) Q h q : iwp P [] p Q → ran p h q → iwp P h q Q.
Proof. intros Hp. induction 1 as [| R h e k r _ IH]; [done |]. apply IH. Qed.

Lemma iwp_any {A} P h (p : Inv A) Q : iwp P h p Q → iwp (λ _ _ _, True) h p Q.
Proof.
  revert h. induction p as [a | R e k IH]; intros h; [done |]. intros [_ Hk]. split; [done |].
  intros r. by apply IH.
Qed.

Lemma iwp_trivial {A} h (p : Inv A) : iwp (λ _ _ _, True) h p (λ _ _, True).
Proof. revert h. induction p as [| R e k IH]; intros h; [done |]. split; [done | auto]. Qed.

(** [p] returns what satisfies [Q], whatever its effects are answered. *)
Definition ends {A} (p : Inv A) (Q : A → Prop) : Prop :=
  ∀ h, iwp (λ _ _ _, True) h p (λ _, Q).

Lemma ends_bind {A B} (p : Inv A) (f : A → Inv B) Q Q' :
  ends p Q → (∀ a, Q a → ends (f a) Q') → ends (ibind p f) Q'.
Proof.
  intros Hp Hf h. apply iwp_bind. eapply iwp_mono; [| apply Hp]. intros h' a _ Ha. by apply Hf.
Qed.

(** ** Signatures and the rest of their run *)

(** [F] holds wherever the program asks for a signature: of the history, the
    key, the message and the rest of the run. *)
Fixpoint at_signs {A}
    (F : list Done → string → bytes_ → (result ManagerError bytes_ → Inv A) → Prop)
    (h : list Done) (p : Inv A) : Prop :=
  match p with
  | IRet _ => True
  | IDo e k =>
      match e in InvEff R return (R → Inv A) → Prop with
      | ESign key m => λ k, F h key m k
      | _ => λ _, True
      end k ∧ ∀ r, at_signs F (Did e r :: h) (k r)
  end.

(** Programs that sign nothing. *)
Fixpoint signless {A} (p : Inv A) : Prop :=
  match p with
  | IRet _ => True
  | IDo e k => (match e with ESign _ _ => False | _ => True end) ∧ ∀ r, signless (k r)
  end.

Lemma at_signs_signless {A} F h (p : Inv A) : signless p → at_signs F h p.
Proof.
  revert h. induction p as [| R e k IH]; intros h; [done |]. intros [He Hk].
  split; [by destruct e | auto].
Qed.

Lemma at_signs_bind {A B} F h (p : Inv A) (f : A → Inv B) :
  at_signs (λ h key m k, F h key m (λ r, ibind (k r) f)) h p →
  iwp (λ _ _ _, True) h p (λ h' a, at_signs F h' (f a)) → at_signs F h (ibind p f).
Proof.
  revert h. induction p as [| R e k IH]; intros h; [done |]. intros [He Hk] [_ Hf].
  split; [by destruct e |]. intros r. by apply IH.
Qed.

Lemma at_signs_ran {A} F (p : Inv A) h q : at_signs F [] p → ran p h q → at_signs F h q.
Proof. intros Hp. induction 1 as [| R h e k r _ IH]; [done |]. apply IH. Qed.

Lemma signless_bind {A B} (p : Inv A) (f : A → Inv B) :
  signless p → (∀ a, signless (f a)) → signless (ibind p f).
Proof. induction p; simpl; naive_solver. Qed.
Lemma signless_ebind {E A B} (p : Inv (result E A)) (f : A → Inv (result E B)) :
  signless p → (∀ a, signless (f a)) → signless (iebind p f).
Proof. intros Hp Hf. apply signless_bind; [done |]. by intros []. Qed.
Lemma signless_inspect_err {E A} (p : Inv (result E A)) act :
  signless p → signless act → signless (inspect_err p act).
Proof. intros Hp Ha. apply signless_bind; [done |]. intros []; [done |]. by apply signless_bind. Qed.

(** Walks the control flow of a program that signs nothing. *)
Ltac unsigned :=
  repeat first
    [ done | intros ?
    | match goal with
      | |- signless (iebind _ _) => apply signless_ebind
      | |- signless (ibind _ _) => apply signless_bind
      | |- signless (inspect_err _ _) => apply signless_inspect_err
      | |- signless (perform _) => by split
      | |- signless (match ?o with _ => _ end) => destruct o
      end
    | progress unfold record, audit, finish_ci_audit, identity_rejected, envelope_rejected,
        subject_rejected, recipient_rejected, decrypt_failed_audit ].

Section signing.
Context `{RC : RustCrypto} `{HP : Primitives} `{SP : SignaturePrimitives} `{HM : Minicbor}.
Context `{FC : FederationCrates}.
Variable proc_exe : N → option string.
Variable base32_decode : string → option bytes_.
Variable nkey_verify_ed25519 : bytes_ → bytes_ → bytes_ → bool.
Variable cfg : InvocationConfig.
Variable x : Extensions.

(** ** The preflight signs nothing *)

Lemma signless_fetch rule generation provider :
  signless (fetch_generation_jwks rule generation provider).
Proof. unfold fetch_generation_jwks, fetch_body. unsigned. Qed.

Lemma signless_try_rules g rules token kid public correlation now :
  signless (try_rules g rules token kid public correlation now).
Proof.
  induction rules as [| rule rules IH]; cbn [try_rules]; [done |].
  unfold resolve_rule_jwks, resolve_rule_jwks_via, fetch_or, install_generation_jwks.
  unsigned; apply signless_fetch.
Qed.

Lemma signless_prepare message :
  signless (prepare_invocation proc_exe base32_decode nkey_verify_ed25519 cfg x message).
Proof.
  unfold prepare_invocation, verify_message, request_validation_params, present_audit, preflight,
    present_token, present_proof_key, present_evidence, verify_provider_evidence, provider_target,
    peer_uid_or_deny, check_freshness, consume_freshness_challenge, resolve_request, resolve_actor,
    check_issuer, charge_run_quota, admit_request, authorize_decrypt, decide_and_record,
    check_response_material, validate_catalog_response_encryption_key_material, decrypt_request,
    open_request, ManagerRecipient_open.
  unsigned; apply signless_try_rules.
Qed.

(** ** Every signature has its place *)

Section place.
Variable message : bytes_.

#[local] Abbreviation addressed := (addressed base32_decode nkey_verify_ed25519 cfg).
#[local] Abbreviation truthful := (truthful proc_exe base32_decode nkey_verify_ed25519 cfg x).
#[local] Abbreviation may_sign := (may_sign proc_exe base32_decode nkey_verify_ed25519 cfg x).
#[local] Abbreviation prepared := (prepared proc_exe base32_decode nkey_verify_ed25519 cfg x).

(** The signature is one the request may ask for, or it is the broker's own
    over an answer and, once it is there, the run returns what [good] says of
    the message assembled with it. *)
Definition placed {A} (good : bytes_ → A → Prop) (h : list Done) (key : string) (m : bytes_)
    (k : result ManagerError bytes_ → Inv A) : Prop :=
  (∃ g, may_sign h message g key m) ∨
  ∃ g sealed evidence public target recipient response protected encrypted,
    addressed h message g sealed evidence public target recipient ∧ truthful h message g response ∧
    sealed_answer cfg h message sealed recipient response key protected encrypted m ∧
    ∀ signature b, signature ≠ [] → assemble_sign1 protected encrypted signature = Ok b →
      ends (k (Ok signature)) (good b).

Lemma placed_bind {A B} (good : bytes_ → A → Prop) (good' : bytes_ → B → Prop) f h key m k :
  (∀ b a, good b a → ends (f a) (good' b)) → placed good h key m k →
  placed good' h key m (λ r, ibind (k r) f).
Proof.
  intros Hf [Hm | (g & sealed & evidence & public & target & recipient & response & pr & en & ? & ? & ? & Hk)];
    [by left | right].
  exists g, sealed, evidence, public, target, recipient, response, pr, en. split_and!; [done.. |].
  intros signature b Hne Hb. eapply ends_bind; [by apply Hk |]. apply Hf.
Qed.

Lemma at_signs_mono {A} (F F' : list Done → string → bytes_ → (_ → Inv A) → Prop) h p :
  (∀ h key m k, F h key m k → F' h key m k) → at_signs F h p → at_signs F' h p.
Proof.
  intros HF. revert h. induction p as [| R e k IH]; intros h; [done |]. intros [He Hk].
  split; [destruct e; auto | auto].
Qed.

(** A step that signs, and what follows it. *)
Lemma placed_step {A B} (good : bytes_ → A → Prop) (good' : bytes_ → B → Prop) h p f :
  at_signs (placed good) h p → (∀ b a, good b a → ends (f a) (good' b)) →
  (∀ h' a, h ⊆ h' → at_signs (placed good') h' (f a)) → at_signs (placed good') h (ibind p f).
Proof.
  intros Hp Hg Hf. apply at_signs_bind.
  - eapply at_signs_mono; [| exact Hp]. intros h' key m k. by apply placed_bind.
  - eapply iwp_mono; [intros h' a Hh _; by apply Hf |].
    by apply (iwp_trivial h p).
Qed.

(** A step that does not sign, and what follows it. *)
Lemma placed_skip {A B} (good : bytes_ → B → Prop) P Q h (p : Inv A) f :
  signless p → iwp P h p Q → (∀ h' a, h ⊆ h' → Q h' a → at_signs (placed good) h' (f a)) →
  at_signs (placed good) h (ibind p f).
Proof.
  intros Hs Hp Hf. apply at_signs_bind; [by apply at_signs_signless |].
  eapply iwp_any, iwp_mono; [| exact Hp]. exact Hf.
Qed.

(** What a step that builds a message returns. *)
Definition built {E} (b : bytes_) (r : result E bytes_) : Prop := r = Ok b.
Definition delivered {E} (b : bytes_) (r : result E SealedResponse) : Prop :=
  ∃ answer, r = Ok answer ∧ sr_message answer = b.

Lemma placed_build_sealed h params signer :
  (∀ h' name ephemeral nonce protected encrypted to_sign, h ⊆ h' →
     as_catalog_name signer = Some name → Did (EFill 32) (Some ephemeral) ∈ h' →
     Did (EFill NONCE_LEN) (Some nonce) ∈ h' →
     seal_to_sign params signer EdDsa ephemeral nonce None = Ok (protected, encrypted, to_sign) →
     ∃ g sealed evidence public target recipient response,
       addressed h' message g sealed evidence public target recipient ∧
       truthful h' message g response ∧
       sealed_answer cfg h' message sealed recipient response name protected encrypted to_sign) →
  at_signs (placed built) h (build_sealed_with_manager params signer).
Proof.
  intros Hs. unfold build_sealed_with_manager.
  split; [done |]. intros [ephemeral |]; [| done]. split; [done |]. intros [nonce |]; [| done].
  cbn [ibind iebind ilift random_array ok_or].
  destruct (seal_to_sign _ _ _ _ _ _) as [[[protected encrypted] to_sign] |] eqn:Hseal; [| done].
  destruct (as_catalog_name signer) as [name |] eqn:Hn; [| done].
  destruct (Hs (Did (EFill NONCE_LEN) (Some nonce) :: Did (EFill 32) (Some ephemeral) :: h) name ephemeral
    nonce protected encrypted to_sign) as (g & sealed & evidence & public & target & recipient & response & ?);
    [grown | done | in_history | in_history | done |].
  split.
  - right. exists g, sealed, evidence, public, target, recipient, response, protected, encrypted.
    split_and!; [naive_solver.. |]. intros signature b Hne Hb h'.
    unfold iebind. cbn [ibind ilift map_err]. unfold Signature_from_bytes.
    destruct signature as [| c signature]; [done |]. cbn [length Nat.eqb map_err signature_bytes].
    unfold build_codec. by rewrite Hb.
  - intros [signed |]; [| done]. unfold iebind. cbn [ibind ilift map_err].
    by destruct (Signature_from_bytes signed).
Qed.

Lemma signless_recipient_public_key recipient : signless (recipient_public_key recipient).
Proof. unfold recipient_public_key. unsigned. Qed.

(** The message is returned as it was assembled. *)
Lemma placed_protect_response h g sealed evidence public target recipient response :
  addressed h message g sealed evidence public target recipient → truthful h message g response →
  at_signs (placed delivered) h
    (protect_response cfg (request_envelope message sealed recipient)
       CONTENT_TYPE_SIGN_RESPONSE (SignInvocationResponse_to_cbor_bytes response)).
Proof.
  intros Ha Ht. unfold protect_response.
  destruct (ic_broker_identity cfg) as [identity |] eqn:Hi; [| done].
  unfold iebind. cbn [ibind ilift ok_or]. eapply placed_skip; [apply signless_recipient_public_key | |].
  { eapply (wp_recipient_public_key proc_exe base32_decode nkey_verify_ed25519 cfg x message _ _ _ _ _ _ _
      (λ h' r, ∀ key, r = Ok key → recipient_key_of h' recipient key)); [done | | done].
    by intros h' key Hh Hk ? [= <-]. }
  intros h1 [key |] Hh1 Hk; [| done]. specialize (Hk key eq_refl).
  split; [done |]. intros now. split; [done |]. intros uuid. cbn [ibind ilift].
  destruct (response_params _ _ _ _ _ _ _) as [[params signer] |] eqn:Hp; [| done].
  cbn [map_err fst snd]. apply (placed_step built).
  - apply placed_build_sealed. intros h2 name eph nonce pr en to_sign Hh2 Hn He1 He2 Hs.
    pose proof (signer_named _ _ _ (response_params_signer _ _ _ _ _ _ _ _ _ Hp) Hn) as ->.
    assert (Hh : h ⊆ h2) by set_solver.
    exists g, sealed, evidence, public, target, recipient, response.
    split; [by eapply addressed_mono |]. split; [by eapply truthful_mono |].
    exists identity, key. do 6 eexists. do 2 (split; [done |]).
    split; [destruct recipient; [apply Hh2; in_history | done] |].
    do 2 (split; [apply Hh2; in_history |]). done.
  - intros b a -> h'. by eexists.
  - intros h' [] _; done.
Qed.

Lemma placed_protect_audited h g sealed evidence public target recipient response stage outcome reason :
  addressed h message g sealed evidence public target recipient → truthful h message g response →
  at_signs (placed delivered) h
    (protect_audited cfg (request_envelope message sealed recipient) response stage outcome reason).
Proof.
  intros Ha Ht. unfold protect_audited. split; [done |]. intros u. cbn [ibind].
  apply (placed_step delivered).
  - eapply placed_protect_response; [eapply addressed_mono | eapply truthful_mono]; [grown | done | grown | done].
  - intros b a Hb h'. unfold finalize_response_audit, audit, finish_ci_audit.
    destruct (is_ok a); by repeat (split; [done | intros []]).
  - intros h' a _. apply at_signs_signless. unfold finalize_response_audit. unsigned.
Qed.

Lemma placed_status_response h p status stage outcome reason :
  prepared message h p → refuses status = true →
  at_signs (placed delivered) h (protect_sign_status_response cfg p status stage outcome reason).
Proof.
  intros (sealed & evidence & recipient & name & Ha & _ & _ & _ & Henv) Hs.
  destruct (am_addressed _ _ _ _ _ _ _ _ _ _ _ _ _ Ha) as (public & Had & _).
  unfold protect_sign_status_response. rewrite Henv.
  eapply placed_protect_audited; [done | by apply truthful_status].
Qed.

Lemma placed_sign_and_respond h p body :
  prepared message h p → pi_content_type p = CONTENT_TYPE_SIGN_REQUEST →
  SignInvocationRequest_from_cbor_bytes (pi_body p) = Ok body →
  ensure_supported_signing_algorithm (InvocationBody.sq_algorithm body) INVOKE_OP = Ok tt →
  allows h (pi_generation p) (pi_actor p) Policy.Sign (operation_target p body) →
  at_signs (placed delivered) h (sign_and_respond cfg p body).
Proof.
  intros Hp Hc Hb Halg Hal.
  pose proof Hp as (sealed & evidence & recipient & name & Ha & Hd & Ho & Hct & Henv).
  assert (Hms : may_sign h message (pi_generation p) (operation_target p body)
                  (InvocationBody.sq_message body)).
  { exists sealed, evidence. do 4 eexists. exists (pi_body p), body. split_and!; try done. congruence. }
  destruct (am_addressed _ _ _ _ _ _ _ _ _ _ _ _ _ Ha) as (public & Had & _).
  unfold sign_and_respond, audit. do 2 (split; [done |]; intros []). split.
  { left. eexists. eapply may_sign_mono; [| done]. grown. }
  intros r. split; [done |]. intros []. cbn [ibind]. destruct r as [signature | e].
  - rewrite Henv. eapply placed_protect_audited; [eapply addressed_mono; [| done]; grown |].
    split; [done |]. split; [done |]. do 2 eexists.
    split; [eapply may_sign_mono; [| exact Hms]; grown | in_history].
  - apply placed_status_response; [eapply prepared_mono; [| done]; grown | done].
Qed.

Lemma placed_answer h request :
  prepared_post proc_exe base32_decode nkey_verify_ed25519 cfg x message h (Ok request) →
  at_signs (placed delivered) h (answer cfg request).
Proof.
  destruct request as [p | d]; unfold answer.
  - intros Hp. unfold execute_invocation, execute_sign_invocation.
    destruct (String.eqb _ _) eqn:Hc; [apply String.eqb_eq in Hc | by apply placed_status_response].
    destruct (SignInvocationRequest_from_cbor_bytes _) as [body |] eqn:Hb; [| by apply placed_status_response].
    destruct (ensure_supported_signing_algorithm _ _) as [[] |] eqn:Halg; [| by apply placed_status_response].
    split; [done |]. intros []. cbn [ibind]. destruct (decide_key _ _ _ _) as [via | ?] eqn:Hd; cbn [is_deny].
    + apply placed_sign_and_respond; [eapply prepared_mono; [| done]; grown | done.. |].
      exists via. split; [done | in_history].
    + split; [done |]. intros u. apply placed_status_response; [eapply prepared_mono; [| done]; grown | done].
  - intros (sealed & evidence & public & target & recipient & Ha & Henv).
    unfold protect_denied_invocation. rewrite Henv.
    eapply placed_protect_audited; [done |]. apply truthful_status. by destruct (di_denial d).
Qed.

(** Every signature a run asks for is the operation's, or seals its answer. *)
Lemma placed_invoke :
  at_signs (placed delivered) []
    (invoke proc_exe base32_decode nkey_verify_ed25519 cfg x message).
Proof.
  unfold invoke. destruct (ic_enabled cfg) eqn:Hen; [| done]. cbn [negb].
  apply (placed_step delivered); [| by intros b a Hb h'; split | by intros].
  unfold iebind. eapply placed_skip; [apply signless_prepare | by apply wp_prepare_invocation |].
  intros h1 [request |] _ Hr; [| done]. apply (placed_step delivered); [by apply placed_answer | | by intros].
  intros b a (answer & -> & Hb) h'. by exists answer.
Qed.

Lemma ran_placed h key m k :
  ran (invoke proc_exe base32_decode nkey_verify_ed25519 cfg x message) h (IDo (ESign key m) k) →
  placed delivered h key m k.
Proof. intros Hr. exact (proj1 (at_signs_ran _ _ _ _ placed_invoke Hr)). Qed.
End place.
End signing.
