(* ===== verification/InvocationClient.v ===== *)
(** * Client and broker

    The two ends of a sealed invocation fit: the client that prepared a request
    reads the answer [invoke] seals to it, and what a client accepts under the
    broker's pinned key is what a run of the broker on exactly the message the
    client sent returns, and truthful about that run. *)

From stdpp Require Import gmap.
From S2P Require Import Prelude RustStr Bytes BTreeMap Glob Policy Evidence Nkey Schema Actor Pdp.
From S2P Require Import Decision Challenge RunQuota Json RustCrypto CoseTypes Cbor CoseCodec.
From S2P Require Import InvocationBody CoseCbor CoseCodecProofs CoseStrict CoseExact CoseProfile.
From S2P Require Import CoseDisplay SealedClient CoseProfileProofs LocalCrypto Xkey Backend.
From S2P Require Import CryptoProvider CiFederation CiVerify JwksCache CiAudit Manager Transport.
From S2P Require Import Service InvocationService InvocationProofs InvocationSigning.

Section client.
Context `{RC : RustCrypto} `{HP : Primitives} {HPL : PrimitivesLaws}.
Context `{SP : SignaturePrimitives} `{HM : Minicbor} {HML : MinicborLaws}.
Context `{FC : FederationCrates} {V} `{HV : Verifier V} {G} `{HG : Signer G}.
Variable proc_exe : N → option string.
Variable base32_decode : string → option bytes_.
Variable nkey_verify_ed25519 : bytes_ → bytes_ → bytes_ → bool.
Variable cfg : InvocationConfig.
Variable x : Extensions.









(** ** The body of an answer obeys the response format *)













(** ** What a client may conclude *)




#[local] Abbreviation invoke := (invoke proc_exe base32_decode nkey_verify_ed25519 cfg x).
#[local] Abbreviation may_sign := (may_sign proc_exe base32_decode nkey_verify_ed25519 cfg x).
#[local] Abbreviation addressed := (addressed base32_decode nkey_verify_ed25519 cfg).
#[local] Abbreviation truthful := (truthful proc_exe base32_decode nkey_verify_ed25519 cfg x).
#[local] Abbreviation verified_message :=
  (verified_message base32_decode nkey_verify_ed25519 cfg).

(** ** What the client sent *)










Section pinned.
Variable real : list Done → Prop.
Variable received : bytes_ → Prop.
Variable verifier : V.
Variable p : PreparedSealedInvocation.
Variable r : X25519Recipient.




End pinned.
End client.
