(* ===== verification/InvocationAudit.v ===== *)
(** * The audit of provider invocations

    A request that presents a provider's proof is audited by exactly one
    event, however it ends: if it runs to its end, by the terminal event of
    the way it took; if it is dropped in flight, by the event of its drop.  An
    event of success means that every phase succeeded. *)

From stdpp Require Import gmap.
From S2P Require Import Prelude RustStr Bytes BTreeMap Glob Policy Evidence Nkey Schema Actor Pdp.
From S2P Require Import Decision Challenge RunQuota Json RustCrypto CoseTypes Cbor CoseCodec.
From S2P Require Import InvocationBody CoseProfile CoseDisplay LocalCrypto Xkey Backend.
From S2P Require Import CryptoProvider CiFederation CiVerify JwksCache CiAudit Manager Transport.
From S2P Require Import CoseProfileProofs Service InvocationService InvocationProofs.

(** ** The audit log of a history *)

(** Audits begun, the one in flight, the events emitted. *)
Record AuditLog := {
  al_started : nat;
  al_cell : CiInvocationAudit;
  al_events : list CiInvocationAuditEvent;
}.

(** The events carry the time [at_]. *)
Definition audit_step (at_ : string) (d : Done) (l : AuditLog) : AuditLog :=
  match d with
  | Did e _ =>
      match e with
      | EAuditStart ev =>
          {| al_started := S (al_started l); al_cell := Some ev; al_events := al_events l |}
      | EAudit f =>
          {| al_started := al_started l; al_cell := option_map f (al_cell l);
             al_events := al_events l |}
      | EAuditFinish stage outcome reason =>
          let r := audit_finish at_ stage outcome reason (al_cell l) in
          {| al_started := al_started l; al_cell := r.2;
             al_events := al_events l ++ option_list r.1 |}
      | EAuditDrop =>
          {| al_started := al_started l; al_cell := None;
             al_events := al_events l ++ option_list (audit_drop at_ (al_cell l)) |}
      | _ => l
      end
  end.

Definition audit_log (at_ : string) (h : list Done) : AuditLog :=
  foldr (audit_step at_) {| al_started := 0; al_cell := None; al_events := [] |} h.

(** At most one audit, which is either in flight or has emitted its event. *)
Definition audited_once (l : AuditLog) : Prop :=
  al_started l ≤ 1 ∧ length (al_events l) + length (option_list (al_cell l)) = al_started l.

(** ** The three states *)

Definition idle : AuditLog := {| al_started := 0; al_cell := None; al_events := [] |}.
Definition in_flight (ev : CiInvocationAuditEvent) : AuditLog :=
  {| al_started := 1; al_cell := Some ev; al_events := [] |}.
Definition closed (ev : CiInvocationAuditEvent) : AuditLog :=
  {| al_started := 1; al_cell := None; al_events := [ev] |}.

(** Effects that do not touch the audit. *)
Definition silent_effect {R} (e : InvEff R) : bool :=
  match e with
  | EAuditStart _ | EAudit _ | EAuditFinish _ _ _ | EAuditDrop => false
  | _ => true
  end.

Fixpoint silent {A} (p : Inv A) : Prop :=
  match p with IRet _ => True | IDo e k => silent_effect e = true ∧ ∀ r, silent (k r) end.

(** Programs that begin no audit. *)
Fixpoint unstarted {A} (p : Inv A) : Prop :=
  match p with
  | IRet _ => True
  | IDo e k => (match e with EAuditStart _ => False | _ => True end) ∧ ∀ r, unstarted (k r)
  end.

(** ** Weakest preconditions over the log *)

Lemma iwp_and {A} P P' h (p : Inv A) (Q Q' : list Done → A → Prop) :
  iwp P h p Q → iwp P' h p Q' →
  iwp (λ h R e, P h R e ∧ P' h R e) h p (λ h a, Q h a ∧ Q' h a).
Proof. revert h. induction p; simpl; naive_solver. Qed.

Lemma iwp_weaken {A} (P P' : list Done → ∀ R, InvEff R → Prop) h (p : Inv A) Q :
  (∀ h R e, P h R e → P' h R e) → iwp P h p Q → iwp P' h p Q.
Proof. intros HP. revert h. induction p; simpl; naive_solver. Qed.

Section log.
Variable at_ : string.

#[local] Abbreviation log := (audit_log at_).
#[local] Abbreviation P := (λ (h : list Done) (R : Type) (_ : InvEff R), audited_once (log h)).

Lemma audit_log_cons d h : log (d :: h) = audit_step at_ d (log h).
Proof. reflexivity. Qed.

Lemma idle_once : audited_once idle.
Proof. split; simpl; lia. Qed.
Lemma in_flight_once ev : audited_once (in_flight ev).
Proof. split; simpl; lia. Qed.
Lemma closed_once ev : audited_once (closed ev).
Proof. split; simpl; lia. Qed.

Lemma iwp_silent {A} h (p : Inv A) (Q : list Done → A → Prop) :
  silent p → audited_once (log h) → (∀ h' a, log h' = log h → Q h' a) → iwp P h p Q.
Proof.
  revert h. induction p as [a | R e k IH]; intros h Hs Hl HQ; simpl; [by apply HQ |].
  destruct Hs as [He Hk]. split; [done |]. intros r.
  assert (Hlog : log (Did e r :: h) = log h) by (by destruct e).
  apply IH; [done | by rewrite Hlog |]. intros h' a Hh. apply HQ. by rewrite Hh, Hlog.
Qed.

(** Nothing is logged before an audit begins. *)
Lemma iwp_idle {A} h (p : Inv A) (Q : list Done → A → Prop) :
  unstarted p → log h = idle → (∀ h' a, log h' = idle → Q h' a) → iwp P h p Q.
Proof.
  revert h. induction p as [a | R e k IH]; intros h Hs Hl HQ; simpl; [by apply HQ |].
  destruct Hs as [He Hk]. split; [rewrite Hl; apply idle_once |]. intros r.
  apply IH; [done | | done]. rewrite audit_log_cons, Hl. by destruct e.
Qed.
End log.

Lemma silent_bind {A B} (p : Inv A) (f : A → Inv B) :
  silent p → (∀ a, silent (f a)) → silent (ibind p f).
Proof. induction p; simpl; naive_solver. Qed.
Lemma silent_ebind {E A B} (p : Inv (result E A)) (f : A → Inv (result E B)) :
  silent p → (∀ a, silent (f a)) → silent (iebind p f).
Proof. intros Hp Hf. apply silent_bind; [done |]. by intros []. Qed.
Lemma unstarted_bind {A B} (p : Inv A) (f : A → Inv B) :
  unstarted p → (∀ a, unstarted (f a)) → unstarted (ibind p f).
Proof. induction p; simpl; naive_solver. Qed.
Lemma unstarted_ebind {E A B} (p : Inv (result E A)) (f : A → Inv (result E B)) :
  unstarted p → (∀ a, unstarted (f a)) → unstarted (iebind p f).
Proof. intros Hp Hf. apply unstarted_bind; [done |]. by intros []. Qed.
Lemma unstarted_inspect_err {E A} (p : Inv (result E A)) act :
  unstarted p → unstarted act → unstarted (inspect_err p act).
Proof. intros Hp Ha. apply unstarted_bind; [done |]. intros []; [done |]. by apply unstarted_bind. Qed.
Lemma silent_unstarted {A} (p : Inv A) : silent p → unstarted p.
Proof. induction p as [| R e k IH]; simpl; [done |]. intros [He Hk]. split; [by destruct e | auto]. Qed.

(** Walks the control flow of a program. *)
Ltac walk :=
  repeat first
    [ done | intros ?
    | match goal with
      | |- silent (iebind _ _) => apply silent_ebind
      | |- silent (ibind _ _) => apply silent_bind
      | |- unstarted (iebind _ _) => apply unstarted_ebind
      | |- unstarted (ibind _ _) => apply unstarted_bind
      | |- unstarted (inspect_err _ _) => apply unstarted_inspect_err
      | |- silent (perform _) => by split
      | |- unstarted (perform _) => by split
      | |- silent (match ?o with _ => _ end) => destruct o
      | |- unstarted (match ?o with _ => _ end) => destruct o
      end
    | progress unfold record, audit, finish_ci_audit, identity_rejected, envelope_rejected,
        subject_rejected, recipient_rejected, decrypt_failed_audit ].

Section effects.
Context `{RC : RustCrypto} `{HP : Primitives} `{SP : SignaturePrimitives} `{HM : Minicbor}.
Context `{FC : FederationCrates}.
Variable proc_exe : N → option string.
Variable base32_decode : string → option bytes_.
Variable nkey_verify_ed25519 : bytes_ → bytes_ → bytes_ → bool.
Variable cfg : InvocationConfig.
Variable x : Extensions.

Lemma silent_fetch_body rule url : silent (fetch_body rule url).
Proof. unfold fetch_body. walk. Qed.

Lemma silent_fetch rule generation provider : silent (fetch_generation_jwks rule generation provider).
Proof.
  unfold fetch_generation_jwks. repeat (apply silent_ebind; [walk; apply silent_fetch_body | intros ?]). walk.
Qed.

Lemma silent_try_rules g rules token kid public correlation now :
  silent (try_rules g rules token kid public correlation now).
Proof.
  induction rules as [| rule rules IH]; cbn [try_rules]; [done |].
  unfold resolve_rule_jwks, resolve_rule_jwks_via, fetch_or, install_generation_jwks.
  walk; apply silent_fetch.
Qed.

Lemma silent_verify_provider_evidence g token public :
  silent (verify_provider_evidence g token public).
Proof. unfold verify_provider_evidence. walk. apply silent_try_rules. Qed.

Lemma silent_verify_message g peer message :
  silent (verify_message base32_decode nkey_verify_ed25519 cfg g peer message).
Proof. unfold verify_message, request_validation_params. walk. Qed.

Lemma silent_protect_response envelope content_type body :
  silent (protect_response cfg envelope content_type body).
Proof. unfold protect_response, recipient_public_key, build_sealed_with_manager. walk. Qed.

Lemma unstarted_answer request : unstarted (answer cfg request).
Proof.
  unfold answer, execute_invocation, execute_sign_invocation, sign_and_respond,
    protect_denied_invocation, protect_sign_status_response, protect_audited,
    finalize_response_audit, decide_and_record.
  walk; apply silent_unstarted, silent_protect_response.
Qed.

Lemma unstarted_preflight g message sealed :
  unstarted (preflight proc_exe base32_decode nkey_verify_ed25519 cfg x g message sealed).
Proof.
  unfold preflight, present_token, present_proof_key, present_evidence, provider_target,
    peer_uid_or_deny, check_freshness, consume_freshness_challenge, resolve_request, resolve_actor,
    check_issuer, charge_run_quota, admit_request, authorize_decrypt, decide_and_record,
    check_response_material, validate_catalog_response_encryption_key_material, decrypt_request,
    open_request, ManagerRecipient_open.
  walk; apply silent_unstarted, silent_verify_provider_evidence.
Qed.

(** ** Audits in flight *)

Variable at_ : string.
#[local] Abbreviation log := (audit_log at_).
#[local] Abbreviation P := (λ (h : list Done) (R : Type) (_ : InvEff R), audited_once (log h)).

(** The phases an event has passed. *)
Definition identity_verified (ev : CiInvocationAuditEvent) : Prop :=
  ev_identity_state ev = IdentityVerified.
Definition passed_freshness (ev : CiInvocationAuditEvent) : Prop :=
  identity_verified ev ∧ ev_freshness ev = FreshnessAccepted.
Definition passed_quota (ev : CiInvocationAuditEvent) : Prop :=
  passed_freshness ev ∧ qa_state (ev_quota ev) = QuotaCharged.
Definition passed_decrypt (ev : CiInvocationAuditEvent) : Prop :=
  passed_quota ev ∧ ev_decrypt_authorization ev = AuthorizationAllowed.
Definition passed_all (ev : CiInvocationAuditEvent) : Prop :=
  passed_decrypt ev ∧ ev_sign_authorization ev = AuthorizationAllowed ∧
  ev_backend_execution ev = ExecutionSucceeded ∧ ev_response_delivery ev = ResponseSucceeded.

(** Closed by a terminal event that is no success. *)
Definition rejected (h : list Done) : Prop :=
  ∃ ev, log h = closed ev ∧ ev_outcome ev ≠ OutcomeAborted ∧ ev_outcome ev ≠ OutcomeSuccess.

(** A step keeps the audit in flight, or closes it. *)
Definition flight {E A} (F : CiInvocationAuditEvent → Prop) (h : list Done) (r : result E A) : Prop :=
  match r with Ok _ => ∃ ev, log h = in_flight ev ∧ F ev | Err _ => rejected h end.

Ltac fly Hst :=
  repeat first
    [ istep
    | match goal with
      | |- audited_once _ =>
          rewrite ?audit_log_cons, Hst; first [apply in_flight_once | apply closed_once]
      | |- flight _ _ (Ok _) => unfold flight; rewrite ?audit_log_cons, Hst; eexists; split; [reflexivity |]
      | |- flight _ _ (Err _) => unfold flight, rejected; rewrite ?audit_log_cons, Hst; eexists; split; [reflexivity | done]
      end
    | match goal with |- iwp _ _ _ _ =>
        progress unfold record, audit, finish_ci_audit, identity_rejected, envelope_rejected,
          subject_rejected, recipient_rejected, decrypt_failed_audit end ].

(** The log after a few more effects. *)
Ltac logged Hst :=
  rewrite ?audit_log_cons, Hst; first [apply in_flight_once | apply closed_once | reflexivity].

Lemma flight_present_token h sealed ev :
  log h = in_flight ev → iwp P h (present_token sealed) (flight (λ _, True)).
Proof. intros Hst. unfold present_token. fly Hst; done. Qed.

Lemma flight_present_proof_key h sealed token ev :
  log h = in_flight ev → iwp P h (present_proof_key sealed token) (flight (λ _, True)).
Proof. intros Hst. unfold present_proof_key. fly Hst; done. Qed.

Lemma flight_present_evidence h g token public ev :
  log h = in_flight ev →
  iwp P h (present_evidence g token public) (flight (λ ev, is_Some token → identity_verified ev)).
Proof.
  intros Hst. unfold present_evidence. fly Hst; try done.
  apply iwp_silent; [apply silent_verify_provider_evidence | rewrite Hst; apply in_flight_once |].
  intros h' [evidence | e] Hlog; rewrite Hst in Hlog; fly Hlog; done.
Qed.

Lemma flight_provider_target h sealed provider ev :
  log h = in_flight ev → identity_verified ev →
  iwp P h (provider_target cfg sealed (Some provider)) (flight identity_verified).
Proof. intros Hst Hev. unfold provider_target. fly Hst; done. Qed.

Lemma flight_peer_uid h g peer sealed ev :
  log h = in_flight ev → identity_verified ev →
  iwp P h (peer_uid_or_deny g peer sealed) (flight identity_verified).
Proof. intros Hst Hev. unfold peer_uid_or_deny. fly Hst; done. Qed.

Lemma flight_check_freshness h g peer message sealed public stored ev :
  log h = in_flight ev → identity_verified ev →
  iwp P h (check_freshness cfg g peer message sealed public stored) (λ h' r,
    match r with
    | Ok true => flight passed_freshness h' r
    | _ => flight (λ _, True) h' r
    end).
Proof.
  intros Hst Hev. unfold check_freshness, consume_freshness_challenge. fly Hst; done.
Qed.

Lemma flight_resolve_actor h g peer uid sealed provider stored ev :
  log h = in_flight ev → passed_freshness ev →
  iwp P h (resolve_actor g peer uid sealed (Some provider) stored) (flight passed_freshness).
Proof. intros Hst Hev. unfold resolve_actor. fly Hst; done. Qed.

Lemma flight_check_issuer h g sealed actor ev :
  log h = in_flight ev → passed_freshness ev →
  iwp P h (check_issuer g sealed actor) (flight passed_freshness).
Proof. intros Hst Hev. unfold check_issuer. fly Hst; done. Qed.

Lemma flight_charge h g sealed actor provider ev :
  log h = in_flight ev → passed_freshness ev →
  iwp P h (charge_run_quota g sealed actor (Some provider)) (λ h' r,
    match r with
    | Ok None => flight passed_quota h' r
    | _ => flight (λ _, True) h' r
    end).
Proof. intros Hst Hev. unfold charge_run_quota. fly Hst; done. Qed.

Lemma flight_authorize_decrypt h g sealed actor ev :
  log h = in_flight ev → passed_quota ev →
  iwp P h (authorize_decrypt cfg g sealed actor) (flight passed_decrypt).
Proof. intros Hst Hev. unfold authorize_decrypt, decide_and_record. fly Hst; done. Qed.

Lemma flight_check_response_material h recipient ev :
  log h = in_flight ev → passed_decrypt ev →
  iwp P h (check_response_material recipient) (flight passed_decrypt).
Proof.
  intros Hst Hev. unfold check_response_material, validate_catalog_response_encryption_key_material.
  fly Hst; done.
Qed.

Lemma flight_decrypt_request h sealed ev :
  log h = in_flight ev → passed_decrypt ev →
  iwp P h (decrypt_request sealed) (flight passed_decrypt).
Proof.
  intros Hst Hev. unfold decrypt_request, open_request, ManagerRecipient_open. fly Hst; done.
Qed.

(** ** To the end of the request *)

(** How a request in flight ends: with one event, of success only when every
    phase passed and the client gets its answer. *)
Definition concluded {E A} (h : list Done) (r : result E A) : Prop :=
  ∃ ev, log h = closed ev ∧ ev_outcome ev ≠ OutcomeAborted ∧
    (ev_outcome ev = OutcomeSuccess → passed_all ev ∧ is_ok r = true).

Lemma rejected_concluded {E A} h (e : E) : rejected h → concluded h (Err (T := A) e).
Proof. intros (ev & ? & ? & ?). by exists ev. Qed.

Lemma conclude_protect h envelope response stage outcome reason ev :
  log h = in_flight ev → outcome ≠ OutcomeAborted →
  (outcome = OutcomeSuccess →
     passed_decrypt ev ∧ ev_sign_authorization ev = AuthorizationAllowed ∧
     ev_backend_execution ev = ExecutionSucceeded) →
  iwp P h (protect_audited cfg envelope response stage outcome reason) concluded.
Proof.
  intros Hst Hab Hsucc. unfold protect_audited, audit.
  istep. istep; [rewrite Hst; apply in_flight_once |]. istep. istep.
  assert (Hst' : log (Did (EAudit audit_response_started) tt :: h) =
                 in_flight (audit_response_started ev)) by (by rewrite audit_log_cons, Hst).
  apply iwp_silent; [apply silent_protect_response | rewrite Hst'; apply in_flight_once |].
  intros h' r Hlog. rewrite Hst' in Hlog. unfold finalize_response_audit, audit, finish_ci_audit.
  destruct r as [answer | e]; cbn [is_ok]; fly Hlog; unfold concluded;
    rewrite !audit_log_cons, Hlog; eexists; (split; [reflexivity |]); (split; [done |]); [| done].
  intros Ho. by destruct (Hsucc Ho) as (? & ? & ?).
Qed.

Lemma conclude_status h p status stage outcome reason ev :
  log h = in_flight ev → outcome = OutcomeDenied ∨ outcome = OutcomeFailure →
  iwp P h (protect_sign_status_response cfg p status stage outcome reason) concluded.
Proof. intros Hst Ho. eapply conclude_protect; [done | |]; by destruct Ho as [-> | ->]. Qed.

Lemma conclude_execute h p ev :
  log h = in_flight ev → passed_decrypt ev → iwp P h (execute_invocation cfg p) concluded.
Proof.
  intros Hst Hev.
  unfold execute_invocation, execute_sign_invocation, sign_and_respond, decide_and_record, record, audit.
  destruct (String.eqb _ _); [| eapply conclude_status; eauto].
  destruct (SignInvocationRequest_from_cbor_bytes _) as [body |]; [| eapply conclude_status; eauto].
  destruct (ensure_supported_signing_algorithm _ _); [| eapply conclude_status; eauto].
  istep. istep. istep; [rewrite Hst; apply in_flight_once |]. istep. cbn [iwp].
  destruct (is_deny _).
  - istep. istep; [logged Hst |]. istep. eapply conclude_status; [logged Hst | eauto].
  - istep. istep; [logged Hst |]. do 2 istep. istep; [logged Hst |]. do 2 istep. istep; [logged Hst |].
    do 2 istep. istep; [logged Hst |]. istep. destruct r as [signature | e]; cbn [is_ok].
    + eapply conclude_protect; [logged Hst | done |]. intros _. by split_and!.
    + eapply conclude_status; [logged Hst | eauto].
Qed.

Lemma conclude_answer h request ev :
  log h = in_flight ev → match request with Proceed _ => passed_decrypt ev | _ => True end →
  iwp P h (answer cfg request) concluded.
Proof.
  intros Hst Hev. destruct request as [p | d]; [by eapply conclude_execute |].
  unfold answer, protect_denied_invocation. by eapply conclude_protect.
Qed.

(** The preflight of a presented proof. *)
Definition preflight_post (h : list Done) (r : result Status PreparedRequest) : Prop :=
  match r with
  | Ok (Proceed _) => flight passed_decrypt h r
  | _ => flight (λ _, True) h r
  end.

Lemma preflight_rejected h e : rejected h → preflight_post h (Err e).
Proof. done. Qed.

Lemma flight_bind {E A B} (F : CiInvocationAuditEvent → Prop) h (p : Inv (result E A))
    (f : A → Inv (result E B)) Q :
  iwp P h p (flight F) →
  (∀ h' a ev, log h' = in_flight ev → F ev → iwp P h' (f a) Q) →
  (∀ h' e, rejected h' → Q h' (Err e)) → iwp P h (iebind p f) Q.
Proof.
  intros Hp Hf He. apply iwp_ebind. eapply iwp_mono; [| exact Hp].
  intros h' [a | e] _ Hr; [| by apply He]. destruct Hr as (ev & ? & ?). by eapply Hf.
Qed.

Lemma flight_admit h g message sealed actor target recipient ev :
  log h = in_flight ev → passed_quota ev →
  iwp P h (admit_request cfg g message sealed actor target recipient) preflight_post.
Proof.
  intros Hst Hev. unfold admit_request.
  eapply flight_bind; [by eapply flight_authorize_decrypt | | done]. intros h1 name ev1 ? ?.
  eapply flight_bind; [by eapply flight_check_response_material | | done]. intros h2 [] ev2 ? ?.
  eapply flight_bind; [by eapply flight_decrypt_request | | done]. intros h3 body ev3 ? ?.
  by exists ev3.
Qed.

Lemma flight_resolve h g peer uid message sealed provider stored target recipient ev :
  log h = in_flight ev → passed_freshness ev →
  iwp P h (resolve_request cfg g peer uid message sealed (Some provider) stored target recipient)
    preflight_post.
Proof.
  intros Hst Hev. unfold resolve_request.
  eapply flight_bind; [by eapply flight_resolve_actor | | done]. intros h1 actor ev1 ? ?.
  eapply flight_bind; [by eapply flight_check_issuer | | done]. intros h2 [] ev2 ? ?.
  apply iwp_ebind. eapply iwp_mono; [| by eapply flight_charge].
  intros h3 [[denial |] | e] _ Hf; [| | done]; destruct Hf as (ev3 & ? & ?).
  - by exists ev3.
  - by eapply flight_admit.
Qed.

(** A step that also finds the fact [R]. *)
Lemma flight_bind_fact {E A B} (F : CiInvocationAuditEvent → Prop) (R : A → Prop) h
    (p : Inv (result E A)) (f : A → Inv (result E B)) Q :
  iwp P h p (flight F) → iwp (λ _ _ _, True) h p (λ _ r, ∀ a, r = Ok a → R a) →
  (∀ h' a ev, log h' = in_flight ev → F ev → R a → iwp P h' (f a) Q) →
  (∀ h' e, rejected h' → Q h' (Err e)) → iwp P h (iebind p f) Q.
Proof.
  intros Hp HR Hf He. apply iwp_ebind.
  eapply iwp_mono, iwp_weaken; [| | apply (iwp_and _ _ _ _ _ _ Hp HR)]; [| by intros ? ? ? [? _]].
  intros h' [a | e] _ [Hr Hr']; [| by apply He]. destruct Hr as (ev & ? & ?). eapply Hf; eauto.
Qed.

Lemma presented_token sealed token public :
  provider_proof_presented sealed = true → token_read sealed token →
  key_read sealed token public → is_Some token.
Proof.
  intros Hpres Ht Hk. destruct token as [token |]; [done |]. destruct public as [public |].
  - by destruct Hk as (? & ? & ? & ?).
  - unfold provider_proof_presented in Hpres. unfold token_read, key_read in *.
    rewrite Ht, Hk in Hpres. done.
Qed.

Lemma flight_preflight h g message sealed ev :
  log h = in_flight ev → provider_proof_presented sealed = true →
  iwp P h (preflight proc_exe base32_decode nkey_verify_ed25519 cfg x g message sealed)
    preflight_post.
Proof.
  intros Hst Hpres. unfold preflight.
  eapply (flight_bind_fact _ (token_read sealed)); [by eapply flight_present_token | | | done].
  { apply wp_present_token; [done | | done]. by intros ? ? _ ? ? [= <-]. }
  intros h1 token ev1 Hst1 _ Ht.
  eapply (flight_bind_fact _ (key_read sealed token)); [by eapply flight_present_proof_key | | | done].
  { apply wp_present_proof_key; [done | | done]. by intros ? ? _ ? ? [= <-]. }
  intros h2 public ev2 Hst2 _ Hk.
  eapply (flight_bind_fact _ is_Some); [by eapply flight_present_evidence | | | done].
  { eapply wp_present_evidence with (sealed := sealed); [done.. | | done]. intros h' [evidence |] _ Hev ? [= <-]; [done |].
    destruct Hev. congruence. }
  intros h3 evidence ev3 Hst3 Hev3 [provider ->].
  specialize (Hev3 (presented_token _ _ _ Hpres Ht Hk)).
  eapply flight_bind; [by eapply flight_provider_target | | done]. intros h4 target ev4 Hst4 Hev4.
  cbn [audience_rejected is_some negb andb].
  apply iwp_ebind, iwp_inspect_err. istep.
  destruct (resolve_response_recipient _ _ _) as [recipient | e]; [| unfold preflight_post; fly Hst4].
  eapply flight_bind; [by eapply flight_peer_uid | | done]. intros h5 uid ev5 Hst5 Hev5.
  apply iwp_ebind. eapply iwp_mono; [| by eapply flight_check_freshness].
  intros h6 [[] | e] _ Hf; [| | done]; destruct Hf as (ev6 & ? & ?).
  - by eapply flight_resolve.
  - by exists ev6.
Qed.

(** The message presents a provider's proof. *)
Definition presents_proof (message : bytes_) : bool :=
  match decode_sign1_strict message SealedOuter with
  | Ok outer =>
      negb (bool_decide (signer_certificates_jwt (s_protected_headers outer) = []))
      || is_some (signer_public_key_cose (s_protected_headers outer))
  | Err _ => false
  end.

Lemma verified_presents h g message sealed :
  verified_message base32_decode nkey_verify_ed25519 cfg h g message sealed →
  provider_proof_presented sealed = presents_proof message.
Proof.
  intros (now & allowed & _ & _ & Hv). unfold presents_proof.
  destruct (verify_sealed_steps _ _ _ _ Hv) as (outer & embedded & u & Ho & _ & _ & _ & _ & _ & Hs).
  rewrite Ho. unfold provider_proof_presented. by rewrite Hs.
Qed.

(** The last word on a request: its one event, or none when no proof was
    presented or nothing was answered. *)
Definition final (message : bytes_) (h : list Done) (r : result Status SealedResponse) : Prop :=
  (log h = idle ∧ (presents_proof message = true → is_ok r = false)) ∨ concluded h r.

Lemma drop_final message h r :
  final message h r →
  iwp P h (ibind (perform EAuditDrop) (λ _, IRet r)) (final message).
Proof.
  intros Hf. istep. istep.
  - destruct Hf as [[-> _] | (ev & -> & _)]; [apply idle_once | apply closed_once].
  - istep. destruct Hf as [[Hl ?] | (ev & Hl & Hev)]; [left | right; exists ev];
      (split; [by rewrite audit_log_cons, Hl | done]).
Qed.

Lemma concluded_response h (r : result ResponseProtectionError SealedResponse) :
  concluded h r → concluded h (map_err (λ _, response_protection_failed) r).
Proof. intros (ev & ? & ? & Hs). exists ev. split_and!; [done.. |]. intros ?. by destruct r; apply Hs. Qed.

(** What is left after the preflight. *)
Definition rest_post (message : bytes_) (h : list Done) (r : result Status PreparedRequest) : Prop :=
  match r with
  | Ok request =>
      iwp P h (ibind (answer cfg request)
                 (λ response, IRet (map_err (λ _, response_protection_failed) response)))
        (final message)
  | Err e => final message h (Err e)
  end.

Lemma present_idle message g sealed h :
  log h = idle → presents_proof message = false →
  iwp P h (preflight proc_exe base32_decode nkey_verify_ed25519 cfg x g message sealed)
    (rest_post message).
Proof.
  intros Hl Hp.
  assert (Hfinal : ∀ h' r, log h' = idle → final message h' r)
    by (intros; left; split; [done | by rewrite Hp]).
  apply iwp_idle; [apply unstarted_preflight | done |]. intros h' [request | e] Hl'; [| by apply Hfinal].
  apply iwp_idle; [| done | auto]. apply unstarted_bind; [apply unstarted_answer | done].
Qed.

Lemma present_flight message g sealed h ev :
  log h = in_flight ev → provider_proof_presented sealed = true →
  iwp P h (preflight proc_exe base32_decode nkey_verify_ed25519 cfg x g message sealed)
    (rest_post message).
Proof.
  intros Hl Hp. eapply iwp_mono; [| by eapply flight_preflight].
  intros h' [request | e] _ Hf; [| right; by apply rejected_concluded].
  assert (∃ ev, log h' = in_flight ev ∧
    match request with Proceed _ => passed_decrypt ev | _ => True end) as (ev' & ? & ?).
  { destruct request; destruct Hf as (ev' & ? & ?); by exists ev'. }
  apply iwp_bind. eapply iwp_mono; [| by eapply conclude_answer].
  intros h'' r _ Hc. right. by apply concluded_response.
Qed.

Lemma verify_logged h g peer message :
  audited_once (log h) →
  iwp P h (verify_message base32_decode nkey_verify_ed25519 cfg g peer message) (λ h' r,
    log h' = log h ∧
    ∀ sealed, r = Ok sealed → provider_proof_presented sealed = presents_proof message).
Proof.
  intros Hl. apply (iwp_weaken (λ h R _, audited_once (log h) ∧ True)); [by intros ? ? ? [? _] |].
  apply (iwp_and P (λ _ _ _, True)).
  - apply iwp_silent; [apply silent_verify_message | done | done].
  - apply (wp_verify_message _ _ _ (λ _ _ _, True)); [done | | done].
    intros h' sealed _ Hv ? [= <-]. by eapply verified_presents.
Qed.

Lemma prepare_audited message :
  iwp P [] (prepare_invocation proc_exe base32_decode nkey_verify_ed25519 cfg x message)
    (rest_post message).
Proof.
  unfold prepare_invocation. istep; [by left |]. istep. istep; [apply idle_once |]. rename r into g.
  istep. istep. eapply iwp_mono; [| apply verify_logged, idle_once].
  intros h1 [sealed | e] _ [Hl Hp]; [| by left]. specialize (Hp _ eq_refl).
  istep. unfold present_audit. rewrite Hp. destruct (presents_proof message) eqn:Hpres.
  - istep. istep; [rewrite Hl; apply idle_once |]. do 2 istep; [rewrite audit_log_cons, Hl; apply idle_once |].
    istep. eapply present_flight; [rewrite !audit_log_cons, Hl; reflexivity | done].
  - by apply present_idle.
Qed.

(** C15: no request is answered on a provider's proof without exactly one
    audit event.  At every step of [invoke] at most one audit was begun, and it
    is either in flight, so that dropping the request there emits its event, or
    has emitted it.  A request ends either with no audit begun, and then
    without an answer if it presents a provider's proof, or having emitted one
    event, which does not say aborted, and which says success only if the
    identity was verified, the challenge accepted, the run charged, decryption
    and signature allowed, the signature made and the answer delivered. *)
Theorem invoke_audited_once message :
  iwp (λ h _ _, audited_once (audit_log at_ h)) []
    (invoke proc_exe base32_decode nkey_verify_ed25519 cfg x message) (λ h r,
    (audit_log at_ h = idle ∧ (presents_proof message = true → is_ok r = false)) ∨
    ∃ ev, audit_log at_ h = closed ev ∧ ev_outcome ev ≠ OutcomeAborted ∧
      (ev_outcome ev = OutcomeSuccess → passed_all ev ∧ is_ok r = true)).
Proof.
  unfold invoke. istep; [by left |]. apply iwp_bind.
  eapply iwp_mono; [intros h r _; apply (drop_final message) |].
  apply iwp_ebind. eapply iwp_mono; [| apply prepare_audited]. by intros h [request | e] _ Hr.
Qed.
End effects.
