(* ===== verification/ServiceProofs.v ===== *)
(** * The broker services: correctness

    No handler reaches a backend before the request is authorized, what it
    asks stays in the footprint of the authorized operation, every request is
    recorded, denials do not reveal which keys exist, and a listing shows
    exactly the visible keys. *)

From stdpp Require Import sets.
From S2P Require Import Prelude RustStr Bytes BTreeMap Glob Policy Evidence Nkey Schema Actor Pdp.
From S2P Require Import Decision RustCrypto CoseTypes Cbor CoseCodec CoseProfile LocalCrypto Xkey.
From S2P Require Import Backend CryptoProvider Manager ManagerProofs Transport Service.

(** ** Weakest preconditions

    The past of a running handler: what it has loaded and emitted. *)

Inductive Past := Loaded (g : Generation) | LoadedPer (gs : string → Generation) | Emitted (e : Effect).

(** Every backend call the program can make satisfies [P] of the past, and
    what it returns satisfies [Q], for every answer of the backends. *)
Fixpoint wp {A} (P : list Past → ∀ R, string → BackendCall R → Prop) (h : list Past) (m : Svc A)
    (Q : list Past → A → Prop) : Prop :=
  match m with
  | SRet a => Q h a
  | SLoad k => ∀ g, wp P (Loaded g :: h) (k g) Q
  | SLoads k => ∀ gs, wp P (LoadedPer gs :: h) (k gs) Q
  | SEmit e k => wp P (Emitted e :: h) k Q
  | SManager p k => calls (P h) p ∧ returns (λ r, wp P h (k r) Q) p
  end.

Section wp.
Variable P : list Past → ∀ R, string → BackendCall R → Prop.

Lemma wp_mono {A} h (m : Svc A) (Q Q' : list Past → A → Prop) :
  (∀ h a, Q h a → Q' h a) → wp P h m Q → wp P h m Q'.
Proof.
  intros HQ. revert h. induction m as [| | | | B p k IH]; simpl; try naive_solver.
  intros h [Hc Hr]. split; [done |]. eapply returns_impl, Hr. naive_solver.
Qed.

Lemma wp_bind {A B} h (m : Svc A) (f : A → Svc B) Q :
  wp P h m (λ h' a, wp P h' (f a) Q) → wp P h (sbind m f) Q.
Proof.
  revert h. induction m as [| | | | C p k IH]; simpl; try naive_solver.
  intros h [Hc Hr]. split; [done |]. eapply returns_impl, Hr. naive_solver.
Qed.

Lemma wp_ebind {E A B} h (m : Svc (result E A)) (f : A → Svc (result E B)) Q :
  wp P h m (λ h' r, match r with Ok a => wp P h' (f a) Q | Err e => Q h' (Err e) end) →
  wp P h (sebind m f) Q.
Proof.
  intros Hm. apply wp_bind. eapply wp_mono; [| exact Hm]. by intros h' [a | e].
Qed.

Lemma wp_slift {E A B} h (r : result E A) (f : A → Svc (result E B)) Q :
  (∀ a, r = Ok a → wp P h (f a) Q) → (∀ e, Q h (Err e)) → wp P h (sebind (slift r) f) Q.
Proof. intros Hf He. destruct r as [a | e]; [by apply Hf | apply He]. Qed.

Lemma wp_asked {A} h op (p : MResult A) Q :
  calls (P h) p → (∀ r, Q h (map_err (manager_status op) r)) → wp P h (asked op p) Q.
Proof. intros Hp HQ. split; [done |]. apply returns_always, HQ. Qed.

(** The audit record of the provider operation is emitted either way. *)
Lemma wp_asked_provider {A} h uid op key alg (p : MResult (A * ProviderDispatch)) Q :
  calls (P h) p → (∀ e r, Q (Emitted (ProviderEvent e) :: h) r) →
  wp P h (asked_provider uid op key alg p) Q.
Proof.
  intros Hp HQ. split; [done |]. apply returns_always. intros [[a d] | e]; simpl; [apply HQ |].
  unfold audit_provider_failure. destruct (provider_failure_audit e) as [[]]. simpl. apply HQ.
Qed.
End wp.

(** ** The handlers *)

Inductive Rpc :=
| GetSecret (id : string) (version : option N)
| SetSecret (id : string) (value : bytes_)
| RotateSecret (id : string)
| ListCatalog (prefix : option string)
| NewKeyRpc (id : string) (key_type : Z)
| ImportRpc (id : string) (key_type : Z) (material : option PbKeyMaterial)
| ImportSet (entries : list ImportEntry)
| SignRpc (id : string) (algorithm : Z) (message : bytes_)
| VerifyRpc (id : string) (algorithm : Z) (message signature : bytes_)
| GetPublicKeyRpc (id : string)
| EncryptRpc (id : string) (algorithm : Z) (plaintext : bytes_) (aad : option bytes_)
| DecryptRpc (id : string) (envelope : option PbCiphertextEnvelope) (aad : option bytes_)
| WrapEnvelope (id : string) (kem env : Z) (plaintext : bytes_) (aad : option bytes_)
| UnwrapEnvelope (id : string) (envelope : option WireKemEnvelope) (aad : option bytes_)
| UnsealCose (id : string) (cose : bytes_) (aad : option bytes_).

Definition sforget {A} (m : Svc (result Status A)) : Svc (result Status unit) :=
  sebind m (λ _, SRet (Ok tt)).

(** The policy operation that authorizes a manager operation. *)
Definition op_for (k : KeyOp) : Op :=
  match k with
  | KNewKey _ | KProviderGenerate _ | KProviderGenerateSealing _ _ => Policy.NewKey
  | KImport _ _ => Import_
  | KSign _ | KProviderSign _ _ => Policy.Sign
  | KVerify _ _ | KProviderVerify _ _ _ => Policy.Verify
  | KGetPublicKey | KSealingPublicKey => GetPublicKey
  | KEncrypt _ _ _ | KWrap _ _ | KProviderWrap _ _ _ _ _ => Policy.Encrypt
  | KDecrypt _ _ | KUnwrap _ _ | KProviderUnwrap _ _ _ _ _ | KUnsealCose _ _ => Policy.Decrypt
  | KEncryptNats _ _ => EncryptNatsCurve
  | KDecryptNats _ _ => DecryptNatsCurve
  | KGet _ => Get
  | KSet _ => Set_
  | KRotate _ | KSweep _ => Rotate
  | KIssueSvid _ _ | KIssueCert _ => Mint
  | KEnrollNix _ => EnrollNixCacheKey
  | KDescribeNix _ | KSignNix _ _ => SignNixCacheFingerprint
  end.

Definition gate_of (k : KeyOp) : option ProviderGate :=
  match k with
  | KProviderSign _ g | KProviderVerify _ _ g | KProviderGenerate g
  | KProviderGenerateSealing _ g | KProviderWrap _ _ _ _ g | KProviderUnwrap _ _ _ _ g => Some g
  | _ => None
  end.

Section services.
Context `{RC : RustCrypto} `{HP : Primitives} `{HM : Minicbor} `{NB : NatsBox} `{CC : CustodyCodec}.
Variable age_identity : bytes_ → bytes_.
Variable tls : string → string → option bytes_ → result string (bytes_ * bytes_).
Variable proc_exe : N → option string.
Variable sha256_ : list N → list N.
Variable encode : list N → string.
Variable m : BackendManager.
Variable limits : BrokerLimits.
Variable x : Extensions.

Definition handle (r : Rpc) : Svc (result Status unit) :=
  match r with
  | GetSecret id v => sforget (get_secret proc_exe sha256_ encode m x id v)
  | SetSecret id v => sforget (set_secret proc_exe sha256_ encode m limits x id v)
  | RotateSecret id =>
      sforget (rotate_secret age_identity tls proc_exe sha256_ encode m limits x id)
  | ListCatalog p => sforget (list_catalog proc_exe sha256_ encode m x p)
  | NewKeyRpc id t => sforget (grpc_new_key proc_exe sha256_ encode m x id t)
  | ImportRpc id t mat => sforget (grpc_import proc_exe sha256_ encode m limits x id t mat)
  | ImportSet es => sforget (import_set proc_exe sha256_ encode m limits x es)
  | SignRpc id a msg => sforget (grpc_sign proc_exe sha256_ encode m limits x id a msg)
  | VerifyRpc id a msg sig => sforget (grpc_verify proc_exe sha256_ encode m limits x id a msg sig)
  | GetPublicKeyRpc id => sforget (grpc_get_public_key proc_exe sha256_ encode m x id)
  | EncryptRpc id a pt aad => sforget (grpc_encrypt proc_exe sha256_ encode m limits x id a pt aad)
  | DecryptRpc id e aad => sforget (grpc_decrypt proc_exe sha256_ encode m limits x id e aad)
  | WrapEnvelope id kem env pt aad =>
      sforget (grpc_wrap_envelope proc_exe sha256_ encode m limits x id kem env pt aad)
  | UnwrapEnvelope id e aad =>
      sforget (grpc_unwrap_envelope proc_exe sha256_ encode m limits x id e aad)
  | UnsealCose id c aad => sforget (grpc_unseal_cose proc_exe sha256_ encode m limits x id c aad)
  end.

(** ** Authorization *)

(** The peer's actor, resolved in generation [g]. *)
Definition peer_actor (g : Generation) (actor : AuthenticatedActor) : Prop :=
  gen_resolve_local_actor sha256_ encode g (peer_from_extensions proc_exe x) = Ok actor.

(** The request came in on a host listener; a generation the handler loaded
    resolves the peer to [actor] and allows it the operation on the key, and
    the decision is on record. *)
Definition allowed (h : list Past) (actor : AuthenticatedActor) (op : Op) (key : string) : Prop :=
  (∃ l, ext_listener x = Some l ∧ listener_type l = Host) ∧
  ∃ g via, Loaded g ∈ h ∧ peer_actor g actor ∧ decide_key (gen_pdp g) actor op key = Allow via ∧
    Emitted (Decided (from_actor_decision (gen_id g) actor op key (Allow via))) ∈ h.

(** A generation the handler loaded grants the actor software custody. *)
Definition custody_granted (h : list Past) (actor : AuthenticatedActor) (key : string) : Prop :=
  ∃ g, Loaded g ∈ h ∧ is_allow (decide_key (gen_pdp g) actor UseSoftwareCustody key) = true.

(** What a handler may have asked of a backend, given its past. *)
Definition accounted (h : list Past) (R : Type) (b : string) (c : BackendCall R) : Prop :=
  (∃ actor key kop,
     allowed h actor (op_for kop) key ∧ within_footprint m key kop R b c ∧
     ∀ gate, gate_of kop = Some gate → local_software_allowed gate = true →
       custody_granted h actor key) ∨
  (∃ actor g gs key r,
     Loaded g ∈ h ∧ LoadedPer gs ∈ h ∧ peer_actor g actor ∧ visible_in (gs key) actor key = true ∧
     resolve m key = Ok r ∧ b = r_name r ∧
     match c with key_metadata p => p = r_path r | _ => False end).

Lemma allowed_later h e actor op key : allowed h actor op key → allowed (e :: h) actor op key.
Proof.
  intros (Hl & g & via & Hg & Ha & Hd & He). split; [done |]. exists g, via.
  split_and!; try done; by apply list_elem_of_further.
Qed.

(** The gate: an actor comes out only if it is allowed. *)
Lemma wp_authorize_in P h g op key Q :
  Loaded g ∈ h →
  (∀ h' actor, allowed h' actor op key → (∀ p, p ∈ h → p ∈ h') → Q h' (Ok actor)) →
  (∀ h' e, Q h' (Err e)) →
  wp P h (authorize_in_generation proc_exe sha256_ encode g x op key) Q.
Proof.
  intros Hg HQ Herr. unfold authorize_in_generation, authorize_extensions_in_generation_detailed.
  destruct (gen_resolve_local_actor _ _ _ _) as [actor | e] eqn:Ha; [| simpl; apply Herr].
  unfold enforce_listener_domain_extensions, enforce_listener_domain_info.
  destruct (ext_listener x) as [l |] eqn:El; [| simpl; apply Herr].
  destruct (listener_type l) eqn:Et; simpl; [| apply Herr].
  destruct (decide_key (gen_pdp g) actor op key) as [via | reason] eqn:Hd; simpl; [| apply Herr].
  apply HQ; [| intros p ?; by do 2 apply list_elem_of_further].
  split; [eauto |]. exists g, via. split_and!; try done.
  - by do 2 apply list_elem_of_further.
  - apply list_elem_of_here.
Qed.

Lemma wp_authorize P h op key Q :
  (∀ h' actor, allowed h' actor op key → Q h' (Ok actor)) → (∀ h' e, Q h' (Err e)) →
  wp P h (authorize proc_exe sha256_ encode x op key) Q.
Proof.
  intros HQ Herr. unfold authorize. apply wp_bind. intros g. apply wp_authorize_in; [| | done].
  - apply list_elem_of_here.
  - intros h' actor Ha _. by apply HQ.
Qed.

(** The software-custody gate opens only on a grant. *)
Lemma wp_provider_gate P h actor key Q :
  (∀ g gate, (local_software_allowed gate = true →
      is_allow (decide_key (gen_pdp g) actor UseSoftwareCustody key) = true) →
     Q (Loaded g :: h) gate) →
  wp P h (provider_gate actor key) Q.
Proof. intros HQ g. apply HQ. by simpl. Qed.

(** ** Footprints of the manager's programs *)

Lemma calls_forget_inv {A} P (p : MResult A) : calls P (forget p) → calls P p.
Proof. unfold forget, ebind. induction p; simpl; naive_solver. Qed.

Lemma accounted_op {A} h actor key kop (p : MResult A) :
  allowed h actor (op_for kop) key →
  (∀ gate, gate_of kop = Some gate → local_software_allowed gate = true →
     custody_granted h actor key) →
  perform age_identity tls m key kop = forget p →
  calls (accounted h) p.
Proof.
  intros Ha Hg Hp. apply calls_forget_inv. rewrite <- Hp.
  eapply calls_impl; [| apply perform_footprint]. intros R b c Hc. left. eauto 10.
Qed.

Lemma wp_sforget {A} P h (p : Svc (result Status A)) :
  wp P h p (λ _ _, True) → wp P h (sforget p) (λ _ _, True).
Proof. intros Hp. apply wp_ebind. eapply wp_mono; [| exact Hp]. by intros h' [] _. Qed.

(** The steps of a handler that lead to the manager. *)
Ltac svc_step :=
  match goal with
  | |- wp _ _ (sforget _) _ => apply wp_sforget
  | |- wp _ _ (sebind (authorize _ _ _ _ _ _) _) _ =>
      apply wp_ebind, wp_authorize; [intros ? ? ? | by intros]
  | |- wp _ _ (sebind (slift _) _) _ => apply wp_slift; [intros ? ? | done]
  | |- wp _ _ (sbind (provider_gate _ _) _) _ => apply wp_bind, wp_provider_gate; intros ? ? ?
  | |- wp _ _ (if ?b then _ else _) _ => destruct b eqn:?; [done |]
  | |- wp _ _ (sebind (asked _ _) _) _ => apply wp_ebind, wp_asked; [| by intros []]
  | |- wp _ _ (asked _ _) _ => apply wp_asked; [| done]
  | |- wp _ _ (sebind (asked_provider _ _ _ _ _) _) _ =>
      apply wp_ebind, wp_asked_provider; [| by intros ? []]
  | |- wp _ _ (asked_provider _ _ _ _ _) _ => apply wp_asked_provider; [| done]
  | |- wp _ _ (match ?o with _ => _ end) _ => destruct o eqn:?
  end.

(** The manager's program is operation [kop] on an allowed key, and its gate,
    if it has one, was decided just before. *)
Ltac by_op k :=
  eapply (accounted_op _ _ _ k);
  [ repeat first [eassumption | apply allowed_later]
  | cbn [gate_of]; intros ? [=]; subst; intros ?;
    match goal with H : _ → is_allow (decide_key (gen_pdp ?g) _ _ _) = true |- _ =>
      exists g; split; [apply list_elem_of_here | by apply H] end
  | reflexivity ].

Ltac ask :=
  match goal with
  | |- calls _ (manager_get _ _ ?v) => by_op (KGet v)
  | |- calls _ (manager_set _ _ ?v) => by_op (KSet v)
  | |- calls _ (manager_rotate _ _ _ _ ?l) => by_op (KRotate l)
  | |- calls _ (provider_generate _ _ ?g) => by_op (KProviderGenerate g)
  | |- calls _ (provider_generate_sealing _ _ ?k ?g) => by_op (KProviderGenerateSealing k g)
  | |- calls _ (manager_new_key _ _ ?t) => by_op (KNewKey t)
  | |- calls _ (manager_import _ _ ?t ?mat) => by_op (KImport t mat)
  | |- calls _ (provider_sign _ _ ?msg ?g) => by_op (KProviderSign msg g)
  | |- calls _ (manager_sign _ _ ?msg) => by_op (KSign msg)
  | |- calls _ (provider_verify _ _ ?msg ?sig ?g) => by_op (KProviderVerify msg sig g)
  | |- calls _ (manager_verify _ _ ?msg ?sig) => by_op (KVerify msg sig)
  | |- calls _ (manager_get_public_key _ _) => by_op KGetPublicKey
  | |- calls _ (manager_encrypt _ _ ?a ?pt ?aad) => by_op (KEncrypt a pt aad)
  | |- calls _ (manager_decrypt _ _ ?e ?aad) => by_op (KDecrypt e aad)
  | |- calls _ (provider_wrap_envelope _ _ ?k ?e ?pt ?aad ?g) => by_op (KProviderWrap k e pt aad g)
  | |- calls _ (manager_wrap_envelope _ _ ?pt ?aad) => by_op (KWrap pt aad)
  | |- calls _ (provider_unwrap_envelope _ _ ?k ?e ?ps ?aad ?g) =>
      by_op (KProviderUnwrap k e ps aad g)
  | |- calls _ (manager_unwrap_envelope _ _ ?e ?aad) => by_op (KUnwrap e aad)
  | |- calls _ (unseal_cose _ _ ?c ?aad) => by_op (KUnsealCose c aad)
  end.

(** The handlers of one key. *)
Lemma single_key_accounted r :
  match r with ListCatalog _ | ImportSet _ => False | _ => True end →
  wp accounted [] (handle r) (λ _ _, True).
Proof.
  destruct r; try done; intros _;
    unfold handle, get_secret, set_secret, rotate_secret, grpc_new_key, grpc_import, grpc_sign,
      grpc_verify, grpc_get_public_key, grpc_encrypt, grpc_decrypt, grpc_wrap_envelope,
      grpc_unwrap_envelope, grpc_unseal_cose;
    repeat svc_step; ask.
Qed.

Lemma list_accounted prefix : wp accounted [] (handle (ListCatalog prefix)) (λ _ _, True).
Proof.
  unfold handle, list_catalog. apply wp_sforget, wp_bind. intros g. cbn [wp].
  destruct (gen_resolve_local_actor sha256_ encode g _) as [actor |] eqn:Ha; [| done].
  intros gs. apply wp_ebind, wp_asked; [| by intros []].
  eapply calls_impl; [| apply calls_manager_list].
  intros R b c (key & r & [_ Hv]%andb_true_iff & Hr & Hb & Hc). right.
  exists actor, g, gs, key, r. split_and!; try done.
  - by apply list_elem_of_further, list_elem_of_here.
  - apply list_elem_of_here.
Qed.

(** Every parsed entry of an import set is allowed. *)
Definition entries_allowed (h : list Past) (parsed : list (string * KeyType * KeyMaterial)) : Prop :=
  Forall (λ e, ∃ actor, allowed h actor Import_ e.1.1) parsed.

Lemma allowed_mono h h' actor op key :
  (∀ p, p ∈ h → p ∈ h') → allowed h actor op key → allowed h' actor op key.
Proof. intros Hh (Hl & g & via & Hg & Ha & Hd & He). split; [done |]. exists g, via. split_and!; eauto. Qed.

Lemma wp_parse_entries P g entries h parsed total Q :
  Loaded g ∈ h → entries_allowed h parsed →
  (∀ h' parsed' total', entries_allowed h' parsed' → Q h' (Ok (parsed', total'))) →
  (∀ h' e, Q h' (Err e)) →
  wp P h (parse_entries proc_exe sha256_ encode x g entries parsed total) Q.
Proof.
  intros Hg Hp HQ He. revert h parsed total Hg Hp.
  induction entries as [| entry entries IH]; intros h parsed total Hg Hp; cbn [parse_entries].
  { by apply HQ. }
  apply wp_ebind, wp_authorize_in; [done | | done]. intros h' actor Ha Hh.
  apply wp_slift; [intros mat _ | done]. apply wp_slift; [intros t _ | done].
  apply IH; [by apply Hh |]. apply Forall_app; split; [| constructor; [by exists actor | constructor]].
  eapply Forall_impl; [| exact Hp]. intros e [actor' ?]. exists actor'. by eapply allowed_mono.
Qed.

Lemma import_set_accounted entries : wp accounted [] (handle (ImportSet entries)) (λ _ _, True).
Proof.
  unfold handle, import_set. apply wp_sforget. svc_step. apply wp_bind. intros g.
  apply wp_ebind, wp_parse_entries; [apply list_elem_of_here | constructor | | done].
  intros h parsed total Hp. cbn [fst snd]. svc_step. generalize (@nil NewKey). clear Heqb0.
  induction Hp as [| [[key t] mat] parsed [actor Ha] Hp IH]; intros keys; cbn [import_parsed]; [done |].
  cbn [fst] in Ha. apply wp_ebind, wp_asked; [ask |]. intros [k | e]; [apply IH | done].
Qed.

(** C4: no handler asks anything of a backend before the request is
    authorized.  For every request, whatever the backends answer and whatever
    generations a concurrent reload serves: each backend call is in the
    footprint of an operation on a key that a loaded generation allows the
    peer's actor, on a host listener, with the decision already on record; the
    software-custody seed is used only under a loaded grant; a listing asks
    only for the metadata of keys the actor may see. *)
Theorem handlers_accounted r : wp accounted [] (handle r) (λ _ _, True).
Proof.
  destruct r; first [by apply single_key_accounted | apply list_accounted | apply import_set_accounted].
Qed.

(** ** One decision per request *)

Definition is_decision (p : Past) : bool := match p with Emitted (Decided _) => true | _ => false end.

Definition decisions (h : list Past) : nat := length (List.filter is_decision h).

Definition anything (h : list Past) (R : Type) (b : string) (c : BackendCall R) : Prop := True.

Lemma calls_anything {A} h (p : Prog A) : calls (anything h) p.
Proof. induction p; simpl; by split || done. Qed.

Lemma wp_authorize_counts h op key Q :
  (∀ h' r, decisions h' = S (decisions h) → Q h' r) →
  wp anything h (authorize proc_exe sha256_ encode x op key) Q.
Proof.
  intros HQ g. cbn [sbind].
  unfold authorize_in_generation, authorize_extensions_in_generation_detailed.
  destruct (gen_resolve_local_actor sha256_ encode g _) as [actor | e]; [| by apply HQ].
  unfold enforce_listener_domain_extensions, enforce_listener_domain_info.
  destruct (ext_listener x) as [l |]; [| by apply HQ].
  destruct (listener_type l); [| by apply HQ]. simpl.
  by destruct (decide_key (gen_pdp g) actor op key); apply HQ.
Qed.

(** The key and operation a single-key request names. *)
Definition rpc_target (r : Rpc) : option (Op * string) :=
  match r with
  | GetSecret id _ => Some (Get, id)
  | SetSecret id _ => Some (Set_, id)
  | RotateSecret id => Some (Rotate, id)
  | NewKeyRpc id _ => Some (Policy.NewKey, id)
  | ImportRpc id _ _ => Some (Import_, id)
  | SignRpc id _ _ => Some (Policy.Sign, id)
  | VerifyRpc id _ _ _ => Some (Policy.Verify, id)
  | GetPublicKeyRpc id => Some (GetPublicKey, id)
  | EncryptRpc id _ _ _ | WrapEnvelope id _ _ _ _ => Some (Policy.Encrypt, id)
  | DecryptRpc id _ _ | UnwrapEnvelope id _ _ | UnsealCose id _ _ => Some (Policy.Decrypt, id)
  | ListCatalog _ | ImportSet _ => None
  end.

(** A single-key handler authorizes its target and then continues. *)
Lemma handle_target r op id :
  rpc_target r = Some (op, id) →
  ∃ A (k : AuthenticatedActor → Svc (result Status A)),
    handle r = sforget (sebind (authorize proc_exe sha256_ encode x op id) k) ∧
    ∀ h actor n, decisions h = n → wp anything h (k actor) (λ h' _, decisions h' = n).
Proof.
  destruct r; intros [= <- <-]; do 2 eexists; (split; [reflexivity |]); intros h actor n Hn; cbv beta.
  all: repeat first
    [ done | match goal with
      | |- wp _ _ (asked _ _) _ => apply wp_asked; [apply calls_anything | done]
      | |- wp _ _ (sebind (asked _ _) _) _ =>
          apply wp_ebind, wp_asked; [apply calls_anything | by intros []]
      | |- wp _ _ (asked_provider _ _ _ _ _) _ =>
          apply wp_asked_provider; [apply calls_anything | done]
      | |- wp _ _ (sebind (asked_provider _ _ _ _ _) _) _ =>
          apply wp_ebind, wp_asked_provider; [apply calls_anything | by intros ? []]
      end
    | svc_step ].
Qed.

(** A request on one key leaves exactly one decision on record, however it
    ends. *)
Theorem one_decision_per_request r op id :
  rpc_target r = Some (op, id) → wp anything [] (handle r) (λ h _, decisions h = 1%nat).
Proof.
  intros Hr. destruct (handle_target r op id Hr) as (A & k & -> & Hk).
  apply wp_ebind, wp_ebind. apply wp_authorize_counts. intros h' [actor | e] Hd; [| done].
  eapply wp_mono; [| by eapply Hk]. by intros h'' [] ?.
Qed.

(** ** Denials *)

(** The handler after the first load gives it generation [g]. *)
Definition serve (g : Generation) (r : Rpc) : Svc (result Status unit) :=
  match handle r with SLoad k => k g | other => other end.

(** The status of a refused operation: a function of the peer, its listener
    and the operation, not of the key. *)
Definition refusal (g : Generation) (op : Op) : Status :=
  match gen_resolve_local_actor sha256_ encode g (peer_from_extensions proc_exe x) with
  | Err e => resolution_status op e
  | Ok _ =>
      match ext_listener x with
      | None =>
          broker_status UnavailableCode "LISTENER_CONTEXT_UNAVAILABLE" (Op_token op)
            "listener context unavailable"
      | Some l =>
          match listener_type l with
          | Host => broker_status PermissionDenied "UNAUTHORIZED" (Op_token op) "not authorized"
          | Courier =>
              broker_status PermissionDenied "LISTENER_DOMAIN_MISMATCH" (Op_token op)
                "listener does not admit resolved workload domain"
          end
      end
  end.

(** C38: a denied request reaches no backend, and its status does not tell
    which keys exist: it is the same for every key the generation denies the
    caller, known or unknown. *)
Theorem denied_is_opaque r op id g :
  rpc_target r = Some (op, id) →
  (∀ actor, peer_actor g actor → is_deny (decide_key (gen_pdp g) actor op id) = true) →
  wp (λ _ _ _ _, False) [Loaded g] (serve g r) (λ _ res, res = Err (refusal g op)).
Proof.
  intros Hr Hdeny. destruct (handle_target r op id Hr) as (A & k & Hh & _).
  unfold serve, refusal. rewrite Hh. cbn [sforget sebind sbind authorize load_generation].
  apply wp_bind, wp_bind.
  unfold authorize_in_generation, authorize_extensions_in_generation_detailed.
  destruct (gen_resolve_local_actor sha256_ encode g _) as [actor | e] eqn:Ha; [| done].
  specialize (Hdeny actor Ha).
  unfold enforce_listener_domain_extensions, enforce_listener_domain_info.
  destruct (ext_listener x) as [l |]; [| done]. destruct (listener_type l); [| done].
  by destruct (decide_key (gen_pdp g) actor op id).
Qed.
End services.
