(* ===== verification/NixCache.v ===== *)
(** * The Nix cache service
      ([crates/basil-core/src/service/nix_cache.rs],
       [core/nix_cache_audit.rs])

    Describing, enrolling and signing with a Nix binary-cache key.  A handler
    pins one generation, checks the correlation ids, authorizes, and then
    records exactly one event, whatever the manager answers. *)

From S2P Require Import Prelude RustStr Bytes BTreeMap Glob Policy Evidence Nkey Schema Actor Pdp.
From S2P Require Import Decision RustCrypto CoseTypes Cbor CoseCodec CoseProfile LocalCrypto Xkey.
From S2P Require Import NixFingerprint Backend CryptoProvider Manager ManagerProofs Transport Service.
From S2P Require Import ServiceProofs.

Definition PROFILE : string := "PATH_INFO_V1".

Definition NixCacheAuditOp_token (o : NixCacheAuditOp) : string :=
  match o with
  | NixDescribe => "describe_nix_cache_key"
  | NixEnroll => "enroll_nix_cache_key"
  | NixSign => "sign_nix_cache_fingerprint"
  end.

Record DescribeNixCacheKeyReply := {
  dr_key_name : string; dr_public_key : bytes_; dr_backend_version : N;
  dr_batch_id : bytes_; dr_request_id : bytes_;
}.

Record EnrollNixCacheKeyReply := {
  er_key_name : string; er_public_key : bytes_; er_backend_version : N;
  er_disposition : NixCacheEnrollmentDisposition; er_batch_id : bytes_; er_request_id : bytes_;
}.

Record SignNixCacheFingerprintReply := {
  sg_key_name : string; sg_public_key : bytes_; sg_backend_version : N; sg_signature : bytes_;
  sg_batch_id : bytes_; sg_request_id : bytes_;
}.

Definition manager_audit_reason (e : ManagerError) : string :=
  match e with
  | NixCacheEnrollmentError _ _ => "identity_or_posture_mismatch"
  | MBackend _ => "backend_failure"
  | Manager.UnknownKey _ => "key_not_routable"
  | _ => "manager_failure"
  end.

Definition correlation_id (b : bytes_) (op field : string) : result Status bytes_ :=
  return_err (invalid_request op (field +:+ " must be exactly 16 bytes"))
    when negb (length b =? 16)%nat otherwise
  return_err (invalid_request op (field +:+ " must be nonzero"))
    when bool_decide (b = replicate 16 0%N) otherwise
  Ok b.

Definition nix_identity (g : Generation) (key_id : string) : option NixCacheIdentity :=
  match get (keys_ (gen_catalog g)) key_id with
  | Some entry => nix_cache entry
  | None => None
  end.

Section nix.
Context `{RC : RustCrypto}.
Variable proc_exe : N → option string.
Variable sha256_ : list N → list N.
Variable encode : list N → string.
Variable m : BackendManager.
Variable x : Extensions.

Definition sha256_hex (p : PathInfoV1) : string :=
  of_bytes (flat_map hex_byte (sha256_ (pi_bytes p))).

Definition audit_nix_fields (g : Generation) (op : NixCacheAuditOp) (subject : option string)
    (pid uid : option N) (key_id : string) (identity : option NixCacheIdentity)
    (batch request : bytes_) (digest : option string) (outcome : NixCacheAuditOutcome)
    (reason : string) : Svc unit :=
  emit (NixCacheEvent
    {| nx_op := op; nx_policy_subject := subject; nx_presenter_pid := pid; nx_presenter_uid := uid;
       nx_generation := gen_id g; nx_key_id := key_id; nx_key_name := key_name <$> identity;
       nx_backend_version := backend_version <$> identity; nx_batch_id := batch;
       nx_request_id := request; nx_fingerprint_sha256 := digest; nx_outcome := outcome;
       nx_reason := reason |}).

Definition audit_nix (g : Generation) (op : NixCacheAuditOp) (actor : AuthenticatedActor)
    (key_id : string) (identity : option NixCacheIdentity) (batch request : bytes_)
    (digest : option string) (outcome : NixCacheAuditOutcome) (reason : string) : Svc unit :=
  audit_nix_fields g op (Some (actor_subject actor)) (presenter_pid (actor_presenter actor))
    (presenter_uid (actor_presenter actor)) key_id identity batch request digest outcome reason.

Definition authorize_nix (g : Generation) (policy_op : Op) (audit_op : NixCacheAuditOp)
    (key_id : string) (identity : option NixCacheIdentity) (batch request : bytes_)
    : Svc (result Status AuthenticatedActor) :=
  run! r := authorize_extensions_in_generation_detailed proc_exe sha256_ encode g x policy_op key_id in
  match r with
  | Ok actor => SRet (Ok actor)
  | Err (Some actor, status) =>
      run! _ := audit_nix g audit_op actor key_id identity batch request None NixDeny
                  "authorization_denied" in
      SRet (Err status)
  | Err (None, status) =>
      let peer := peer_from_extensions proc_exe x in
      run! _ := audit_nix_fields g audit_op None (peer_pid peer) (peer_uid peer) key_id identity
                  batch request None NixDeny "subject_unresolved" in
      SRet (Err status)
  end.

(** The manager's answer, recorded either way. *)
Definition nix_asked {A} (g : Generation) (op : NixCacheAuditOp) (actor : AuthenticatedActor)
    (key_id : string) (identity : NixCacheIdentity) (batch request : bytes_)
    (digest : option string) (p : MResult A) : Svc (result Status A) :=
  run! r := manager p in
  match r with
  | Ok a =>
      run! _ := audit_nix g op actor key_id (Some identity) batch request digest NixSuccess "ok" in
      SRet (Ok a)
  | Err e =>
      run! _ := audit_nix g op actor key_id (Some identity) batch request digest NixFailure
                  (manager_audit_reason e) in
      SRet (Err (manager_status (NixCacheAuditOp_token op) e))
  end.

(** A refusal after authorization. *)
Definition nix_refused {A} (g : Generation) (op : NixCacheAuditOp) (actor : AuthenticatedActor)
    (key_id : string) (identity : option NixCacheIdentity) (batch request : bytes_)
    (outcome : NixCacheAuditOutcome) (reason : string) (status : Status) : Svc (result Status A) :=
  run! _ := audit_nix g op actor key_id identity batch request None outcome reason in
  SRet (Err status).

Definition describe_policy_op (identity : option NixCacheIdentity) : Op :=
  match identity with
  | Some i => match state i with
              | Pending => EnrollNixCacheKey
              | Enrolled => SignNixCacheFingerprint
              end
  | None => SignNixCacheFingerprint
  end.

Definition grpc_describe_nix_cache_key (key_id : string) (batch_id request_id : bytes_)
    : Svc (result Status DescribeNixCacheKeyReply) :=
  let op := NixCacheAuditOp_token NixDescribe in
  run! g := load_generation in
  run? batch := slift (correlation_id batch_id op "batch_id") in
  run? request := slift (correlation_id request_id op "request_id") in
  let identity := nix_identity g key_id in
  run? actor :=
    authorize_nix g (describe_policy_op identity) NixDescribe key_id identity batch request in
  match identity with
  | None =>
      nix_refused g NixDescribe actor key_id None batch request NixDeny "identity_not_configured"
        (invalid_request op "key has no Nix cache identity")
  | Some identity =>
      if negb (bool_decide (state identity = Enrolled)) then
        nix_refused g NixDescribe actor key_id (Some identity) batch request NixDeny
          "identity_not_enrolled"
          (broker_status FailedPrecondition "NIX_CACHE_KEY_PENDING" op
             "Nix cache key is pending enrollment")
      else
        run? d := nix_asked g NixDescribe actor key_id identity batch request None
                    (describe_nix_cache_key m key_id identity) in
        SRet (Ok {| dr_key_name := nd_key_name d; dr_public_key := nd_public_key d;
                    dr_backend_version := nd_backend_version d; dr_batch_id := batch_id;
                    dr_request_id := request_id |})
  end.

Definition grpc_enroll_nix_cache_key (key_id : string) (batch_id request_id : bytes_)
    : Svc (result Status EnrollNixCacheKeyReply) :=
  let op := NixCacheAuditOp_token NixEnroll in
  run! g := load_generation in
  run? batch := slift (correlation_id batch_id op "batch_id") in
  run? request := slift (correlation_id request_id op "request_id") in
  let identity := nix_identity g key_id in
  run? actor := authorize_nix g EnrollNixCacheKey NixEnroll key_id identity batch request in
  match identity with
  | None =>
      nix_refused g NixEnroll actor key_id None batch request NixDeny "identity_not_configured"
        (invalid_request op "key has no Nix cache identity")
  | Some identity =>
      run? e := nix_asked g NixEnroll actor key_id identity batch request None
                  (enroll_nix_cache_key m key_id identity) in
      SRet (Ok {| er_key_name := ne_key_name e; er_public_key := ne_public_key e;
                  er_backend_version := ne_backend_version e; er_disposition := ne_disposition e;
                  er_batch_id := batch_id; er_request_id := request_id |})
  end.

Definition grpc_sign_nix_cache_fingerprint (key_id profile : string)
    (fingerprint batch_id request_id : bytes_) : Svc (result Status SignNixCacheFingerprintReply) :=
  let op := NixCacheAuditOp_token NixSign in
  run! g := load_generation in
  run? batch := slift (correlation_id batch_id op "batch_id") in
  run? request := slift (correlation_id request_id op "request_id") in
  let identity := nix_identity g key_id in
  run? actor := authorize_nix g SignNixCacheFingerprint NixSign key_id identity batch request in
  match identity with
  | None =>
      nix_refused g NixSign actor key_id None batch request NixDeny "identity_not_configured"
        (invalid_request op "key has no Nix cache identity")
  | Some identity =>
      if negb (bool_decide (state identity = Enrolled)) then
        nix_refused g NixSign actor key_id (Some identity) batch request NixDeny
          "identity_not_enrolled" (invalid_request op "Nix cache identity is not enrolled")
      else if negb (String.eqb profile PROFILE) then
        nix_refused g NixSign actor key_id (Some identity) batch request NixFailure
          "profile_invalid" (invalid_request op "profile must be exactly PATH_INFO_V1")
      else
        match PathInfoV1_parse fingerprint with
        | Err _ =>
            nix_refused g NixSign actor key_id (Some identity) batch request NixFailure
              "fingerprint_invalid"
              (invalid_request op "fingerprint is not canonical PATH_INFO_V1")
        | Ok parsed =>
            run? s := nix_asked g NixSign actor key_id identity batch request
                        (Some (sha256_hex parsed))
                        (sign_nix_cache_fingerprint m key_id identity (pi_bytes parsed)) in
            SRet (Ok {| sg_key_name := nd_key_name (ns_identity s);
                        sg_public_key := nd_public_key (ns_identity s);
                        sg_backend_version := nd_backend_version (ns_identity s);
                        sg_signature := ns_signature s; sg_batch_id := batch_id;
                        sg_request_id := request_id |})
        end
  end.
End nix.

(** ** Correctness *)

(** What a past holds of loads and of Nix cache events. *)
Definition loads (h : list Past) : list Generation :=
  omap (λ p, match p with Loaded g => Some g | _ => None end) h.
Definition nix_events (h : list Past) : list NixCacheAuditEvent :=
  omap (λ p, match p with Emitted (NixCacheEvent e) => Some e | _ => None end) h.

Definition succeeded (o : NixCacheAuditOutcome) : bool :=
  match o with NixSuccess => true | NixDeny | NixFailure => false end.

Inductive NixRpc :=
| DescribeRpc | EnrollRpc | SignRpc (profile : string) (fingerprint : bytes_).

Definition rpc_op (r : NixRpc) : NixCacheAuditOp :=
  match r with DescribeRpc => NixDescribe | EnrollRpc => NixEnroll | SignRpc _ _ => NixSign end.

(** Both ids are sixteen bytes, not all zero. *)
Definition ids_ok (batch request : bytes_) : bool :=
  is_ok (correlation_id batch "" "") && is_ok (correlation_id request "" "").

Lemma correlation_id_Ok b op field c : correlation_id b op field = Ok c → c = b ∧ is_ok (correlation_id b "" "") = true.
Proof. unfold correlation_id. intros H. inv_ok H. done. Qed.

Lemma correlation_id_Err b op field e :
  correlation_id b op field = Err e → is_ok (correlation_id b "" "") = false.
Proof. unfold correlation_id. by repeat case_match. Qed.

Section proofs.
Context `{RC : RustCrypto} `{HP : Primitives} `{HM : Minicbor} `{NB : NatsBox} `{CC : CustodyCodec}.
Variable age_identity : bytes_ → bytes_.
Variable tls : string → string → option bytes_ → result string (bytes_ * bytes_).
Variable proc_exe : N → option string.
Variable sha256_ : list N → list N.
Variable encode : list N → string.
Variable m : BackendManager.
Variable x : Extensions.
Variable key_id : string.
Variable batch_id request_id : bytes_.

#[local] Abbreviation allowed := (allowed proc_exe sha256_ encode x).
#[local] Abbreviation accounted := (accounted proc_exe sha256_ encode m x).

Definition nix_handle (r : NixRpc) : Svc (result Status unit) :=
  match r with
  | DescribeRpc =>
      sforget (grpc_describe_nix_cache_key proc_exe sha256_ encode m x key_id batch_id request_id)
  | EnrollRpc =>
      sforget (grpc_enroll_nix_cache_key proc_exe sha256_ encode m x key_id batch_id request_id)
  | SignRpc profile fingerprint =>
      sforget (grpc_sign_nix_cache_fingerprint proc_exe sha256_ encode m x key_id profile fingerprint
                 batch_id request_id)
  end.

(** The one event of an operation in generation [g]. *)
Definition recorded (h : list Past) (g : Generation) (op : NixCacheAuditOp) (success : bool) : Prop :=
  loads h = [g] ∧ ∃ e, nix_events h = [e] ∧ nx_op e = op ∧ nx_generation e = gen_id g ∧
    nx_key_id e = key_id ∧ nx_batch_id e = batch_id ∧ nx_request_id e = request_id ∧
    succeeded (nx_outcome e) = success.

(** Authorized in [g], and nothing recorded yet. *)
Definition admitted (h : list Past) (g : Generation) (actor : AuthenticatedActor) (op : Op) : Prop :=
  loads h = [g] ∧ nix_events h = [] ∧ allowed h actor op key_id.

Lemma recorded_emit h g ev :
  loads h = [g] → nix_events h = [] → nx_generation ev = gen_id g → nx_key_id ev = key_id →
  nx_batch_id ev = batch_id → nx_request_id ev = request_id →
  recorded (Emitted (NixCacheEvent ev) :: h) g (nx_op ev) (succeeded (nx_outcome ev)).
Proof.
  intros Hl He ????. split; [done |]. exists ev. split_and!; try done.
  change (ev :: nix_events h = [ev]). by rewrite He.
Qed.

Lemma wp_authorize_nix P h g op audit_op identity Q :
  loads h = [g] → nix_events h = [] → Loaded g ∈ h →
  (∀ h' actor, admitted h' g actor op → Q h' (Ok actor)) →
  (∀ h' e, recorded h' g audit_op false → Q h' (Err e)) →
  wp P h (authorize_nix proc_exe sha256_ encode x g op audit_op key_id identity batch_id request_id) Q.
Proof.
  intros Hl He Hin HQ Herr. unfold authorize_nix, authorize_extensions_in_generation_detailed.
  destruct (gen_resolve_local_actor _ _ _ _) as [actor | e] eqn:Ha; [| by apply Herr, recorded_emit].
  unfold enforce_listener_domain_extensions, enforce_listener_domain_info.
  destruct (ext_listener x) as [l |] eqn:El; [| by apply Herr, recorded_emit].
  destruct (listener_type l) eqn:Et; [| by apply Herr, recorded_emit].
  simpl. destruct (decide_key (gen_pdp g) actor op key_id) as [via | reason] eqn:Hd;
    [| by apply Herr, recorded_emit].
  apply HQ. split_and!; [done | done |]. split; [eauto |]. exists g, via. split_and!; try done.
  - by do 2 apply list_elem_of_further.
  - apply list_elem_of_here.
Qed.

Lemma wp_nix_refused {A} P h g actor op audit_op identity outcome reason status
    (Q : list Past → result Status A → Prop) :
  admitted h g actor op → succeeded outcome = false →
  (∀ h' e, recorded h' g audit_op false → Q h' (Err e)) →
  wp P h (nix_refused g audit_op actor key_id identity batch_id request_id outcome reason status) Q.
Proof.
  intros (Hl & He & _) Ho HQ. simpl. apply HQ. rewrite <- Ho. by apply recorded_emit.
Qed.

(** The answer of the manager, where [R] holds of whatever it can return. *)
Lemma wp_nix_asked {A} (R : A → Prop) h g actor op audit_op identity digest (p : MResult A) kop
    (Q : list Past → result Status A → Prop) :
  admitted h g actor op → op = op_for kop → gate_of kop = None →
  perform age_identity tls m key_id kop = forget p →
  returns (λ r, ∀ a, r = Ok a → R a) p →
  (∀ h' a ev, h' = Emitted (NixCacheEvent ev) :: h → nx_fingerprint_sha256 ev = digest →
     nx_policy_subject ev = Some (actor_subject actor) →
     recorded h' g audit_op true → R a → Q h' (Ok a)) →
  (∀ h' e, recorded h' g audit_op false → Q h' (Err e)) →
  wp accounted h
    (nix_asked g audit_op actor key_id identity batch_id request_id digest p) Q.
Proof.
  intros (Hl & He & Ha) -> Hg Hp HR HQ Herr. split.
  - eapply accounted_op; [exact Ha | | exact Hp]. intros gate. by rewrite Hg.
  - eapply returns_impl; [| exact HR]. intros [a | e] Hr; simpl.
    + eapply HQ; [done | done | done | by apply recorded_emit | by apply Hr].
    + apply Herr. by apply recorded_emit.
Qed.

(** The first steps of every handler. *)
Lemma wp_nix_start {A} P op (f : Generation → bytes_ → bytes_ → Svc (result Status A)) Q :
  (∀ g, ids_ok batch_id request_id = true → wp P [Loaded g] (f g batch_id request_id) Q) →
  (∀ h e, ids_ok batch_id request_id = false → nix_events h = [] → Q h (Err e)) →
  wp P [] (run! g := load_generation in
           run? batch := slift (correlation_id batch_id op "batch_id") in
           run? request := slift (correlation_id request_id op "request_id") in
           f g batch request) Q.
Proof.
  intros Hf He g. simpl.
  destruct (correlation_id batch_id op "batch_id") as [b | e] eqn:Eb; simpl.
  2: { apply He; [| done]. unfold ids_ok. by rewrite (correlation_id_Err _ _ _ _ Eb). }
  apply correlation_id_Ok in Eb as [-> Eb].
  destruct (correlation_id request_id op "request_id") as [r | e] eqn:Er; simpl.
  2: { apply He; [| done]. unfold ids_ok. by rewrite (correlation_id_Err _ _ _ _ Er), andb_false_r. }
  apply correlation_id_Ok in Er as [-> Er]. apply Hf. unfold ids_ok. by rewrite Eb, Er.
Qed.

(** One event for the whole operation, a success exactly with an answer; a
    request without proper ids leaves none. *)
Definition audited (op : NixCacheAuditOp) (h : list Past) (ok : bool) : Prop :=
  if ids_ok batch_id request_id then ∃ g, recorded h g op ok
  else nix_events h = [] ∧ ok = false.

Lemma audited_by h g op ok :
  ids_ok batch_id request_id = true → recorded h g op ok → audited op h ok.
Proof. intros Hi Hr. unfold audited. rewrite Hi. by exists g. Qed.

Lemma wp_sforget_ok {A} P h (p : Svc (result Status A)) (Q : list Past → bool → Prop) :
  wp P h p (λ h' r, Q h' (is_ok r)) → wp P h (sforget p) (λ h' r, Q h' (is_ok r)).
Proof. intros Hp. apply wp_ebind. eapply wp_mono; [| exact Hp]. by intros h' []. Qed.

Ltac nix_start :=
  apply wp_nix_start; [intros g Hids | by intros h e Hi He; unfold audited; rewrite Hi];
  apply wp_ebind, wp_authorize_nix;
  [done | done | apply list_elem_of_here | intros h actor Had | by intros h e; apply audited_by].

Ltac nix_refuse Had :=
  eapply wp_nix_refused; [exact Had | done | by intros h' e; apply audited_by].

Ltac nix_ask kop Had :=
  apply wp_ebind; eapply (wp_nix_asked (λ _, True) _ _ _ _ _ _ _ _ kop);
  [exact Had | done | done | done | by apply returns_always
  | intros; by eapply audited_by | by intros h' e; apply audited_by].

(** C28: every Nix cache operation is recorded exactly once, in the one
    generation it loaded, under the caller's ids and key; the record says
    success exactly when the caller gets an answer, and only a request whose
    ids are malformed is refused without one.  What it asks of a backend is
    accounted for by the decision on record. *)
Theorem nix_audited_once r :
  wp accounted [] (nix_handle r) (λ h res, audited (rpc_op r) h (is_ok res)).
Proof.
  destruct r as [| | profile fingerprint]; apply wp_sforget_ok.
  - nix_start. destruct (nix_identity g key_id) as [identity |]; [| nix_refuse Had].
    cbn [describe_policy_op] in Had. case_bool_decide as Est; cbn [negb]; [| nix_refuse Had].
    rewrite Est in Had. nix_ask (KDescribeNix identity) Had.
  - nix_start. destruct (nix_identity g key_id) as [identity |]; [| nix_refuse Had].
    nix_ask (KEnrollNix identity) Had.
  - nix_start. destruct (nix_identity g key_id) as [identity |]; [| nix_refuse Had].
    case_bool_decide; cbn [negb]; [| nix_refuse Had].
    destruct (String.eqb profile PROFILE); cbn [negb]; [| nix_refuse Had].
    destruct (PathInfoV1_parse fingerprint) as [parsed |]; [| nix_refuse Had].
    nix_ask (KSignNix identity (pi_bytes parsed)) Had.
Qed.

(** The answer to a signing request. *)
Definition signed_answer (fingerprint : bytes_) (h : list Past)
    (reply : SignNixCacheFingerprintReply) : Prop :=
  ∃ g actor identity public i ev,
    loads h = [g] ∧ allowed h actor SignNixCacheFingerprint key_id ∧
    nix_identity g key_id = Some identity ∧ state identity = Enrolled ∧
    public_key identity = Some public ∧
    path_info_ok i ∧ fingerprint = bytes (render_info i) ∧
    ed25519_verify_sig public fingerprint (sg_signature reply) = Ok true ∧
    reply = {| sg_key_name := key_name identity; sg_public_key := public; sg_backend_version := 1;
               sg_signature := sg_signature reply; sg_batch_id := batch_id;
               sg_request_id := request_id |} ∧
    nix_events h = [ev] ∧ nx_policy_subject ev = Some (actor_subject actor) ∧
    nx_fingerprint_sha256 ev = Some (sha256_hex sha256_ {| pi_bytes := fingerprint |}).

(** C14: a signature leaves the Nix cache service only over the canonical text
    of a well-formed path record, for a caller the pinned generation allows to
    sign with this key; it verifies under the public key enrolled for the key
    in that generation, comes with that identity and the caller's ids, and its
    record names the subject and the digest of exactly the signed bytes. *)
Theorem nix_signature_justified profile fingerprint :
  wp accounted []
    (grpc_sign_nix_cache_fingerprint proc_exe sha256_ encode m x key_id profile fingerprint batch_id
       request_id)
    (λ h r, ∀ reply, r = Ok reply → signed_answer fingerprint h reply).
Proof.
  apply wp_nix_start; [intros g _ | done]. apply wp_ebind, wp_authorize_nix;
    [done | done | apply list_elem_of_here | intros h actor Had | done].
  destruct (nix_identity g key_id) as [identity |] eqn:Ei; [| by eapply wp_nix_refused].
  case_bool_decide as Est; cbn [negb]; [| by eapply wp_nix_refused].
  destruct (String.eqb profile PROFILE); cbn [negb]; [| by eapply wp_nix_refused].
  destruct (PathInfoV1_parse fingerprint) as [parsed |] eqn:Ep; [| by eapply wp_nix_refused].
  apply PathInfoV1_parse_sound in Ep as [-> (i & Hi & Hf)]. cbn [pi_bytes].
  apply wp_ebind.
  eapply (wp_nix_asked _ _ _ _ _ _ _ _ _ (KSignNix identity fingerprint));
    [exact Had | done | done | done | apply sign_nix_returns | | done].
  intros h' s ev -> Hdig Hsub [Hl _] (routed & public & _ & _ & Hpub & _ & _ & _ & Hns & Hver) reply [= <-].
  destruct Had as (_ & He & Ha). exists g, actor, identity, public, i, ev. rewrite Hns.
  split_and!; try done; [by apply allowed_later |].
  change (ev :: nix_events h = [ev]). by rewrite He.
Qed.
End proofs.
