(* ===== verification/Sample.v ===== *)
(** * A concrete backend

    Instances of what the custody and service layers take as parameters: the
    record codec, the NATS box and a backend with a versioned KV store and an
    AEAD.  They show that the laws those layers rely on can hold together, and
    let their definitions be evaluated. *)

From stdpp Require Import countable.
From S2P Require Import Prelude RustStr Bytes RustCrypto LocalCrypto Xkey Backend CryptoProvider.
From S2P Require Import CustodyProofs.

(** ** Codecs *)

(** Any countable value as text over three characters. *)
Fixpoint pos_text (p : positive) : string :=
  match p with
  | xH => "."
  | xO p => String "0" (pos_text p)
  | xI p => String "1" (pos_text p)
  end.

Fixpoint text_pos (s : string) : option positive :=
  match s with
  | String "." "" => Some xH
  | String "0" s' => option_map xO (text_pos s')
  | String "1" s' => option_map xI (text_pos s')
  | _ => None
  end.

Lemma text_pos_text p : text_pos (pos_text p) = Some p.
Proof. induction p; simpl; rewrite ?IHp; done. Qed.

Definition record_fields (r : SoftwareCustodyKeyRecord) : list positive :=
  let e := sr_encrypted_private_key r in
  [encode (sr_schema_version r); encode (sr_key_id r); encode (sr_key_version r);
   encode (sr_public_key r); encode (sr_algorithm r); encode (sr_provider r);
   encode (sr_provider_version r); encode (sr_custody r); encode (ep_wrapping_key e);
   encode (ep_algorithm e); encode (ep_key_version e); encode (ep_nonce e);
   encode (ep_ciphertext e)].

Definition fields_record (l : list positive) : option SoftwareCustodyKeyRecord :=
  match l with
  | [a; b; c; d; e; f; g; h; i; j; k; l; m] =>
      a ← decode a; b ← decode b; c ← decode c; d ← decode d; e ← decode e; f ← decode f;
      g ← decode g; h ← decode h; i ← decode i; j ← decode j; k ← decode k; l ← decode l;
      m ← decode m;
      Some {| sr_schema_version := a; sr_key_id := b; sr_key_version := c; sr_public_key := d;
              sr_algorithm := e; sr_provider := f; sr_provider_version := g; sr_custody := h;
              sr_encrypted_private_key :=
                {| ep_wrapping_key := i; ep_algorithm := j; ep_key_version := k; ep_nonce := l;
                   ep_ciphertext := m |} |}
  | _ => None
  end.

#[export] Instance sample_codec : CustodyCodec := {|
  b64_encode b := pos_text (encode b);
  b64_decode s := p ← text_pos s; decode p;
  record_to_json r := Some [N.pos (positives_flatten (record_fields r))];
  record_from_json j :=
    match j with [N.pos p] => l ← positives_unflatten p; fields_record l | _ => None end;
|}.

#[export] Instance sample_codec_laws : CustodyCodecLaws sample_codec.
Proof.
  split.
  - intros b. simpl. rewrite text_pos_text. simpl. by rewrite decode_encode.
  - intros b. simpl. by destruct (encode b).
  - intros [a b c d e f g h [i j k l m]]. eexists. split; [reflexivity |].
    cbn [record_from_json sample_codec]. rewrite positives_unflatten_flatten.
    lazy beta iota zeta delta [mbind option_bind fields_record record_fields].
    by rewrite !decode_encode.
Qed.

#[export] Instance sample_box : NatsBox := {|
  base32_nopad_decode s := Some (bytes s);
  hsalsa k := k;
  secretbox_encrypt k n m := Some (m ++ first_bytes XKEY_TAG_LEN k);
  secretbox_decrypt k n c :=
    let m := take (length c - XKEY_TAG_LEN) c in
    if bool_decide (c = m ++ first_bytes XKEY_TAG_LEN k) then Some m else None;
|}.

#[export] Instance sample_box_laws : NatsBoxLaws sample_box.
Proof.
  split; simpl; intros k n m c [= <-].
  - rewrite length_app, length_first_bytes, Nat.add_sub, take_app_length.
    by rewrite bool_decide_eq_true_2.
  - by rewrite length_app, length_first_bytes.
Qed.

(** ** The backend *)

(** Values by backend and path, and a counter that the randomness repeats. *)
Record Store := { kv : list (string * string * KvValue); counter : N }.

Definition kv_find (s : Store) (b p : string) : option KvValue :=
  option_map snd
    (List.find (λ e, String.eqb e.1.1 b && String.eqb e.1.2 p) (kv s)).

Definition with_kv (s : Store) (b p : string) (v : KvValue) : Store :=
  {| kv := (b, p, v) :: kv s; counter := counter s |}.

(** The ciphertext is the plaintext, the nonce the key and the additional
    data, which must be given again. *)
Definition sample_nonce (k : string) (aad : option bytes_) : bytes_ :=
  bytes k ++ [300%N] ++ match aad with None => [] | Some a => 301%N :: a end.

Definition sample_answer (R : Type) (b : string) (c : BackendCall R) (s : Store)
    : result BackendError R * Store :=
  match c with
  | kv_get p None =>
      (match kv_find s b p with Some v => Ok v | None => Err (KeyNotFound p) end, s)
  | kv_put p v =>
      let n := match kv_find s b p with Some old => (kv_version old + 1)%N | None => 1%N end in
      (Ok n, with_kv s b p {| kv_value := v; kv_version := n |})
  | encrypt k alg m aad =>
      (Ok {| ce_alg := alg; ce_key_version := 1; ce_nonce := sample_nonce k aad;
             ce_ciphertext := m |}, s)
  | decrypt k e aad =>
      (if bool_decide (ce_nonce e = sample_nonce k aad) then Ok (ce_ciphertext e)
       else Err DecryptFailed, s)
  | rotate p => (Ok 7%N, s)
  | configure_versions p _ _ => (Ok tt, s)
  | _ => (Err (UnsupportedOp "sample"), s)
  end.

Definition sample_world : World Store := {|
  answer := sample_answer;
  random n s :=
    (replicate n (counter s mod 256)%N, {| kv := kv s; counter := (counter s + 1)%N |});
|}.

Lemma kv_find_with s b p v : kv_find (with_kv s b p v) b p = Some v.
Proof. unfold kv_find. simpl. by rewrite !String.eqb_refl. Qed.

#[export] Instance sample_backend : CustodyBackend sample_world.
Proof.
  refine {| kv_at := kv_find;
            opens s b k e aad m := ce_nonce e = sample_nonce k aad ∧ ce_ciphertext e = m |}.
  - done.
  - intros b p v s. eexists. split_and!; [reflexivity | apply kv_find_with | done].
  - intros b k alg m aad s. by do 2 eexists.
  - intros b k e aad m s [Hn Hc]. simpl. rewrite bool_decide_eq_true_2 by done. by rewrite Hc.
  - intros n s. do 2 eexists. split_and!; [reflexivity | apply length_replicate | done | done].
Defined.
