(* ===== verification/EndToEnd.v ===== *)
(** * From client to backend

    The life of a software-custodied key through the manager, and a
    post-quantum stream end to end: the client encrypts to the public key the
    broker provisioned, and decrypts through the broker's [UnwrapEnvelope],
    whose handler authorizes, dispatches to the local provider, reads the
    custody record, unwraps the seed in the backend and opens the envelope. *)

From stdpp Require Import sets.
From S2P Require Import Prelude RustStr Bytes BTreeMap Glob Policy Evidence Nkey Schema Actor Pdp.
From S2P Require Import Decision RustCrypto CoseTypes Cbor CoseCodec CoseProfile LocalCrypto Xkey.
From S2P Require Import Stream StreamProofs Backend CryptoProvider CustodyProofs Manager.
From S2P Require Import ManagerProofs Transport Service.

(** ** Post-quantum streams *)

Section kem_stream.
Context `{RC : RustCrypto} `{!RustCryptoLaws RC}.

Lemma delivers_kem_envelope r env suite header b :
  length (sk_encapsulated_key env) = ciphertext_len suite →
  length (sk_nonce env) = STREAM_NONCE_LEN → length (sk_ciphertext env) = (CEK_LEN + TAG_LEN)%nat →
  serialize_kem_header env = Ok header → delivers r (header ++ b) →
  ∃ r', read_kem_envelope r suite = Ok (env, r') ∧ delivers r' b.
Proof.
  intros Hk Hn Hc Hs Hr.
  assert (N.of_nat (ciphertext_len suite) < 2 ^ 32)%N as Hlk by by destruct suite.
  assert (N.of_nat (CEK_LEN + TAG_LEN) < 2 ^ 32)%N as Hlc by done.
  unfold serialize_kem_header in Hs. rewrite Hk, Hc in Hs.
  rewrite (proj2 (u32_try_from_Some _ _) (conj eq_refl Hlk)) in Hs.
  rewrite (proj2 (u32_try_from_Some _ _) (conj eq_refl Hlc)) in Hs.
  cbn beta iota delta [ok_or] in Hs. apply Ok_inj in Hs as <-. rewrite <- !app_assoc in Hr.
  unfold read_kem_envelope.
  destruct (delivers_read_len _ _ _ Hlk Hr) as (r1 & -> & Hr1). cbn beta iota delta [ok_or].
  rewrite N.eqb_refl. cbn beta iota delta [negb].
  destruct (delivers_read_exact _ _ _ _ (eq_sym Hk) Hr1) as (r2 & -> & Hr2). cbn beta iota.
  destruct (delivers_read_exact _ _ _ _ (eq_sym Hn) Hr2) as (r3 & -> & Hr3). cbn beta iota.
  destruct (delivers_read_len _ _ _ Hlc Hr3) as (r4 & -> & Hr4). cbn beta iota delta [ok_or].
  rewrite N.eqb_refl. cbn beta iota delta [negb].
  destruct (delivers_read_exact _ _ _ _ (eq_sym Hc) Hr4) as (r5 & -> & Hr5).
  exists r5. split; [by destruct env | done].
Qed.

(** The content key is wrapped to a published key. *)
Lemma wrap_cek_total seed suite cek aad kem_rnd nonce :
  length cek = CEK_LEN →
  ∃ env, wrap_cek (kem_public (MlKemSuite_params suite) seed) suite cek aad kem_rnd nonce = Ok env ∧
    length (sk_encapsulated_key env) = ciphertext_len suite ∧ sk_nonce env = nonce ∧
    length (sk_ciphertext env) = (CEK_LEN + TAG_LEN)%nat ∧
    (length seed = 64%nat → open_cek_local seed suite env aad = Ok cek).
Proof.
  intros Hc. unfold wrap_cek, encapsulate_to. rewrite kem_loads. cbn beta iota delta [ok_or].
  destruct (kem_encapsulate _ _ _) as [ct ss] eqn:Ek. cbn beta iota.
  unfold derive_kem_aead_key. set (info := KEM_ENVELOPE_LABEL ++ _).
  destruct (hkdf_total None ss info) as [key Hkey]. rewrite Hkey. cbn beta iota delta [ok_or].
  unfold stream_aead_seal. cbn [chunk_cipher].
  destruct (cipher_total CipherAes256Gcm key nonce cek aad) as [c Hct]; [by rewrite Hc |].
  rewrite Hct. cbn beta iota delta [ok_or]. eexists. split; [done |]. cbn [sk_encapsulated_key sk_nonce sk_ciphertext].
  split_and!; [| done | |].
  - rewrite (kem_length _ _ _ _ _ Ek). by destruct suite.
  - by rewrite (cipher_length _ _ _ _ _ _ Hct), Hc.
  - intros Hs. unfold open_cek_local, seed_from_slice. rewrite Hs. cbn beta iota delta [negb Nat.eqb].
    unfold decapsulate_with_seed. cbn [sk_encapsulated_key sk_nonce sk_ciphertext].
    rewrite (kem_correct _ _ _ _ _ Ek). cbn beta iota delta [ok_or].
    unfold derive_kem_aead_key. fold info. rewrite Hkey. cbn beta iota delta [ok_or].
    unfold stream_aead_open. cbn [chunk_cipher]. by rewrite (cipher_opens _ _ _ _ _ _ Hct).
Qed.

(** The container of a stream decrypts for any recovery that gets the content
    key back from its envelope. *)
Lemma ml_kem_container p r suite seed chunk rnd kem_rnd nonce :
  (N.of_nat (length p) < 2 ^ 64 - 1)%N → delivers r p → (1 <= chunk <= MAX_CHUNK_SIZE)%N →
  random_ok rnd → length nonce = STREAM_NONCE_LEN →
  let aad := build_cekwrap_aad (MlKemSuite_suite_id suite) (rnd_stream_id rnd) in
  ∃ env container,
    wrap_cek (kem_public (MlKemSuite_params suite) seed) suite (rnd_cek rnd) aad kem_rnd nonce
      = Ok env ∧ sk_nonce env = nonce ∧
    length (sk_ciphertext env) = (CEK_LEN + TAG_LEN)%nat ∧
    (length seed = 64%nat → open_cek_local seed suite env aad = Ok (rnd_cek rnd)) ∧
    encrypt_ml_kem r suite (kem_public (MlKemSuite_params suite) seed) chunk rnd kem_rnd nonce
      = Some (container, Ok tt) ∧
    ∀ recovery r', recovery env aad = Ok (rnd_cek rnd) → delivers r' container →
      decrypt_ml_kem r' recovery = Some (p, Ok tt).
Proof.
  intros Hp Hr Hc (Hcek & Hid & Hsalt) Hn aad.
  destruct (wrap_cek_total seed suite (rnd_cek rnd) aad kem_rnd nonce Hcek)
    as (env & Hw & Hke & Hne & Hct & Hopen).
  destruct (derive_message_key_total (rnd_stream_salt rnd) (rnd_cek rnd)
    (MlKemSuite_suite_id suite) (rnd_stream_id rnd)) as [key Hk].
  assert (∃ kh, serialize_kem_header env = Ok kh) as [kh Hkh].
  { unfold serialize_kem_header. rewrite Hke, Hct.
    assert (N.of_nat (ciphertext_len suite) < 2 ^ 32)%N as Hlk by by destruct suite.
    rewrite (proj2 (u32_try_from_Some _ _) (conj eq_refl Hlk)). by eexists. }
  set (c := {| cc_suite_id := MlKemSuite_suite_id suite; cc_chunk_aead := ChunkAes256Gcm;
               cc_chunk_size := chunk; cc_stream_id := rnd_stream_id rnd; cc_message_key := key |}).
  set (h := {| suite_id := MlKemSuite_suite_id suite; chunk_size := chunk;
               stream_id := rnd_stream_id rnd; stream_salt := rnd_stream_salt rnd |}).
  destruct (chunks_roundtrip c p Hc Hp r (header_bytes h ++ kh) Hr) as (recs & Hwr & Hread).
  exists env, ((header_bytes h ++ kh) ++ recs). split_and!; try done.
  - unfold encrypt_ml_kem. rewrite validate_chunk_size_ok by done. cbn beta iota.
    fold aad. rewrite Hw. cbn beta iota. rewrite chunk_u32_ok by done.
    cbn beta iota delta [ok_or]. rewrite Hkh. cbn beta iota. rewrite Hk. cbn beta iota.
    by change (write_fixed_header _ _ _ _) with (header_bytes h).
  - intros recovery r' Hrec Hr'. rewrite <- app_assoc in Hr'.
    destruct (delivers_fixed_header r' h (kh ++ recs)) as (r1 & E & Hr1); [| done |].
    { split_and!; try done; [by destruct suite | apply Hc..]. }
    unfold decrypt_ml_kem. rewrite E. cbn beta iota.
    assert (MlKemSuite_from_suite_id (suite_id h) = Some suite) as -> by by destruct suite.
    cbn beta iota delta [ok_or].
    destruct (delivers_kem_envelope r1 env suite kh recs) as (r2 & -> & Hr2); try done.
    { by rewrite Hne. }
    cbn beta iota. cbn [suite_id stream_id stream_salt h]. fold aad. rewrite Hrec. cbn beta iota.
    rewrite Hcek. cbn beta iota delta [negb Nat.eqb CEK_LEN]. rewrite Hk. cbn beta iota.
    by apply Hread.
Qed.
End kem_stream.

(** ** Keys through the manager *)

Section manager_life.
Context `{RC : RustCrypto} `{!RustCryptoLaws RC} `{CC : CustodyCodec} `{!CustodyCodecLaws CC}.
Context {S : Type} (w : World S) `{CB : !CustodyBackend w}.
Variable m : BackendManager.

(** A catalog key the local-software provider serves. *)
Definition software_key (key_id : string) (r : Routed) (storage : string) : Prop :=
  resolve m key_id = Ok r ∧ storage_label r = Some storage ∧
  pm_custody (from_key (r_entry r)) = Some SoftwareEncrypted ∧
  pm_policy (from_key (r_entry r)) ≠ BackendRequired.

Lemma select_software key_id r storage native gate op :
  software_key key_id r storage → local_software_allowed gate = true →
  select_provider_for r native gate op = Ok LocalSoftware.
Proof.
  intros (_ & _ & Hc & Hp) Hg. unfold select_provider_for, select_provider.
  destruct (pm_policy (from_key (r_entry r))); [done | |]; rewrite Hc, Hg; done.
Qed.

Lemma run_provider_op {A} (p : PResult A) s a s' :
  run w p s = (Ok a, s') → run w (provider_op p) s = (Ok a, s').
Proof. intros H. unfold provider_op, pmap_err. by rewrite run_pbind, H. Qed.

Lemma run_lift {E A B} (a : A) (f : A → Prog (result E B)) s :
  run w (ebind (lift (Ok a)) f) s = run w (f a) s.
Proof. done. Qed.

Lemma require_class_in op key_id c l : c ∈ l → require_class op key_id c l = Ok tt.
Proof. intros H. unfold require_class. by rewrite bool_decide_eq_true_2. Qed.

(** The custody record that the manager reads for the key. *)
Definition key_custodied (s : S) (key_id : string) (r : Routed) (token storage : string)
    (seed public : bytes_) : Prop :=
  custodied w s (LocalSoftwareProvider_new (r_name r)) key_id (r_path r) token storage seed public.

Section signing.
Variables (key_id : string) (r : Routed) (storage : string) (a : SignatureAlgorithm)
  (alg : MlDsaAlgorithm) (gate : ProviderGate).
Hypothesis key : software_key key_id r storage.
Hypothesis granted : local_software_allowed gate = true.
Hypothesis class : r_class r = Asymmetric.
Hypothesis dsa : require_ml_dsa key_id r = Ok a.
Hypothesis level : ml_dsa_algorithm a = Some alg.

Lemma run_provider_generate s :
  kv_at s (r_name r) (r_path r) = None →
  ∃ seed s1, length seed = DSA_SEED_LEN ∧
    run w (provider_generate m key_id gate) s =
      (Ok ({| nk_key_id := key_id; nk_public_key := dsa_public (dsa_params alg) seed |},
           provider_dispatch LocalSoftware a), s1) ∧
    key_custodied s1 key_id r (MlDsaAlgorithm_token alg) storage seed
      (dsa_public (dsa_params alg) seed).
Proof.
  intros Hnone. destruct key as (Hr & Hst & _). unfold provider_generate, dispatch.
  rewrite Hr, run_lift, require_class_in, run_lift by (rewrite class; set_solver).
  rewrite dsa, run_lift, (select_software key_id r storage) by done. rewrite run_lift.
  destruct (run_generate_signing w s (LocalSoftwareProvider_new (r_name r))
    {| gk_key_id := key_id; gk_backend_path := r_path r; gk_algorithm := a;
       gk_storage_key := storage_label r |} alg storage) as (seed & s1 & Hl & Hrun & Hc); try done.
  exists seed, s1. split_and!; try done.
  erewrite run_ebind_Ok by (apply run_provider_op, Hrun). done.
Qed.

(** Signing with the custodied key, and verifying what it signed. *)
Lemma run_provider_sign_verify s seed msg :
  length seed = DSA_SEED_LEN →
  key_custodied s key_id r (MlDsaAlgorithm_token alg) storage seed
    (dsa_public (dsa_params alg) seed) →
  ∃ sig, run w (provider_sign m key_id msg gate) s =
           (Ok (sig, provider_dispatch LocalSoftware a), s) ∧
         run w (provider_verify m key_id msg sig gate) s =
           (Ok (true, provider_dispatch LocalSoftware a), s).
Proof.
  intros Hl Hc. destruct (ml_dsa_signs_verifies alg seed msg Hl) as (sig & Hs & Hv).
  destruct key as (Hr & Hst & _). exists sig. split.
  - unfold provider_sign, dispatch.
    rewrite Hr, run_lift, require_class_in, run_lift by (rewrite class; set_solver).
    rewrite dsa, run_lift, (select_software key_id r storage) by done. rewrite run_lift.
    erewrite run_ebind_Ok; [done |]. apply run_provider_op. by eapply run_local_sign.
  - unfold provider_verify, dispatch.
    rewrite Hr, run_lift, require_class_in, run_lift by (rewrite class; set_solver).
    rewrite dsa, run_lift, (select_software key_id r storage) by done. rewrite run_lift.
    erewrite run_ebind_Ok; [done |]. apply run_provider_op. by eapply run_local_verify.
Qed.
End signing.

Section sealing.
Variables (key_id : string) (r : Routed) (storage : string) (kem : KemAlgorithm)
  (gate : ProviderGate).
Hypothesis key : software_key key_id r storage.
Hypothesis granted : local_software_allowed gate = true.
Hypothesis class : r_class r = Sealing.
Hypothesis level : require_ml_kem_sealing_key key_id (r_key_type r) kem = Ok tt.

Lemma run_provider_generate_sealing s :
  kv_at s (r_name r) (r_path r) = None →
  ∃ seed s1, length seed = KEM_SEED_LEN ∧
    run w (provider_generate_sealing m key_id kem gate) s =
      (Ok ({| nk_key_id := key_id; nk_public_key := kem_public (kem_params kem) seed |},
           kem_provider_dispatch LocalSoftware kem), s1) ∧
    key_custodied s1 key_id r (KemAlgorithm_token kem) storage seed
      (kem_public (kem_params kem) seed).
Proof.
  intros Hnone. destruct key as (Hr & Hst & _). unfold provider_generate_sealing, dispatch.
  rewrite Hr, run_lift, require_class_in, run_lift by (rewrite class; set_solver).
  rewrite level, run_lift, (select_software key_id r storage) by done. rewrite run_lift.
  destruct (run_generate_sealing w s (LocalSoftwareProvider_new (r_name r))
    {| gs_key_id := key_id; gs_backend_path := r_path r; gs_algorithm := kem;
       gs_storage_key := storage_label r |} storage) as (seed & s1 & Hl & Hrun & Hc); try done.
  exists seed, s1. split_and!; try done.
  erewrite run_ebind_Ok by (apply run_provider_op, Hrun). done.
Qed.

Lemma run_provider_unwrap s env seed public parts aad plaintext :
  length (mp_nonce parts) = KEM_NONCE_LEN →
  key_custodied s key_id r (KemAlgorithm_token kem) storage seed public →
  ml_kem_open seed
    {| mk_kem_algorithm := kem; mk_envelope_algorithm := env;
       mk_encapsulated_key := mp_encapsulated_key parts; mk_nonce := mp_nonce parts;
       mk_ciphertext := mp_ciphertext parts |} aad = Ok plaintext →
  run w (provider_unwrap_envelope m key_id kem env parts aad gate) s =
    (Ok (plaintext, kem_provider_dispatch LocalSoftware kem), s).
Proof.
  intros Hn Hc Ho. destruct key as (Hr & Hst & _). unfold provider_unwrap_envelope, dispatch.
  rewrite Hr, run_lift, require_class_in, run_lift by (rewrite class; set_solver).
  rewrite level, run_lift, (select_software key_id r storage) by done. rewrite run_lift.
  erewrite run_ebind_Ok; [done |]. apply run_provider_op. by eapply run_local_unwrap.
Qed.
End sealing.

(** C21: a software-custodied signing key works.  Provisioning an ML-DSA key at
    a path never written before succeeds, and from then on the manager signs
    any message with it, and verifies what it signed, for a caller with the
    software-custody grant. *)
Theorem signing_key_life key_id r storage a gate s :
  software_key key_id r storage → local_software_allowed gate = true →
  r_class r = Asymmetric → require_ml_dsa key_id r = Ok a →
  kv_at s (r_name r) (r_path r) = None →
  ∃ created s1,
    run w (provider_generate m key_id gate) s =
      (Ok (created, provider_dispatch LocalSoftware a), s1) ∧
    ∀ msg, ∃ sig,
      run w (provider_sign m key_id msg gate) s1 =
        (Ok (sig, provider_dispatch LocalSoftware a), s1) ∧
      run w (provider_verify m key_id msg sig gate) s1 =
        (Ok (true, provider_dispatch LocalSoftware a), s1).
Proof.
  intros Hk Hg Hc Ha Hnone.
  assert (∃ alg, ml_dsa_algorithm a = Some alg) as [alg Halg].
  { destruct (require_ml_dsa_native _ _ _ Ha) as [n Hn]. destruct a; first [discriminate Hn | eexists; reflexivity]. }
  destruct (run_provider_generate key_id r storage a alg gate Hk Hg Hc Ha Halg s Hnone)
    as (seed & s1 & Hl & Hrun & Hcust).
  eexists _, s1. split; [exact Hrun |]. intros msg.
  by apply (run_provider_sign_verify key_id r storage a alg gate Hk Hg Hc Ha Halg s1 seed).
Qed.
End manager_life.

(** ** Running a handler *)

Definition suite_kem (s : MlKemSuite) : KemAlgorithm :=
  match s with
  | SuiteMlKem512 => AlgMlKem512 | SuiteMlKem768 => AlgMlKem768 | SuiteMlKem1024 => AlgMlKem1024
  end.

Lemma open_cek_local_open `{RC : RustCrypto} seed suite env aad cek :
  open_cek_local seed suite env aad = Ok cek ↔
  ml_kem_open seed
    {| mk_kem_algorithm := suite_kem suite; mk_envelope_algorithm := EnvAes256Gcm;
       mk_encapsulated_key := sk_encapsulated_key env; mk_nonce := sk_nonce env;
       mk_ciphertext := sk_ciphertext env |} aad = Ok cek.
Proof.
  unfold open_cek_local, ml_kem_open, seed_from_slice, kem_seed_from_slice, KEM_SEED_LEN.
  destruct (negb (length seed =? 64)%nat); [done |]. cbn beta iota.
  unfold decapsulate_with_seed. cbn [mk_kem_algorithm mk_envelope_algorithm mk_encapsulated_key].
  assert (kem_params (suite_kem suite) = MlKemSuite_params suite) as -> by by destruct suite.
  destruct (kem_decapsulate _ _ _) as [ss |]; [| done]. cbn beta iota delta [ok_or].
  unfold derive_kem_aead_key, derive_envelope_key.
  assert (KemAlgorithm_token (suite_kem suite) = kem_token suite) as -> by by destruct suite.
  change (KEM_HKDF_LABEL ++ bytes (kem_token suite) ++ bytes (EnvelopeAlgorithm_token EnvAes256Gcm)
    ++ sk_encapsulated_key env ++ kem_public (MlKemSuite_params suite) seed)
    with (KEM_ENVELOPE_LABEL ++ bytes (kem_token suite) ++ ENV_TOKEN_AES256GCM
    ++ sk_encapsulated_key env ++ kem_public (MlKemSuite_params suite) seed).
  destruct (hkdf_expand _ _ _) as [key |]; [| done]. cbn beta iota delta [ok_or].
  unfold stream_aead_open, envelope_decrypt. cbn [chunk_cipher envelope_cipher mk_nonce mk_ciphertext].
  destruct (cipher_decrypt _ _ _ _ _); cbn [ok_or]; split; congruence.
Qed.

(** [served n] is the generation the [n]-th load sees. *)
Fixpoint srun {S A} (w : World S) (served : nat → Generation) (n : nat) (p : Svc A) (s : S) : A * S :=
  match p with
  | SRet a => (a, s)
  | SLoad k => srun w served (Datatypes.S n) (k (served n)) s
  | SLoads k => srun w served (Datatypes.S n) (k (λ _, served n)) s
  | SEmit _ k => srun w served n k s
  | SManager p k => let '(r, s) := run w p s in srun w served n (k r) s
  end.

(** [MlKemSuite::proto_kem_algorithm]. *)
Definition proto_kem_algorithm (s : MlKemSuite) : Z :=
  match s with SuiteMlKem512 => 1 | SuiteMlKem768 => 2 | SuiteMlKem1024 => 3 end%Z.

(** The message [BrokerCekRecovery] sends. *)
Definition wire_envelope (e : PbKemEnvelope) : WireKemEnvelope :=
  {| wk_kem_algorithm := proto_kem_algorithm (pe_kem_algorithm e); wk_envelope_algorithm := 1;
     wk_key_version := pe_key_version e; wk_encapsulated_key := pe_encapsulated_key e;
     wk_nonce := pe_nonce e; wk_ciphertext := pe_ciphertext e |}.

(** The catalog key type of a suite. *)
Definition suite_key_type (s : MlKemSuite) : KeyAlgorithm :=
  match s with
  | SuiteMlKem512 => MlKem512 | SuiteMlKem768 => MlKem768 | SuiteMlKem1024 => MlKem1024
  end.

(** The client's and the broker's envelopes are the same format: what the
    client's own recovery does with a seed, the broker's [open] does, on every
    envelope, seed and additional data. *)
Theorem client_envelope_is_broker_envelope `{RC : RustCrypto} seed suite env aad cek :
  open_cek_local seed suite env aad = Ok cek ↔
  ml_kem_open seed
    {| mk_kem_algorithm := suite_kem suite; mk_envelope_algorithm := EnvAes256Gcm;
       mk_encapsulated_key := sk_encapsulated_key env; mk_nonce := sk_nonce env;
       mk_ciphertext := sk_ciphertext env |} aad = Ok cek.
Proof. apply open_cek_local_open. Qed.

Section broker.
Context `{RC : RustCrypto} `{!RustCryptoLaws RC} `{HP : Primitives} `{HM : Minicbor} `{NB : NatsBox}.
Context `{CC : CustodyCodec} `{!CustodyCodecLaws CC}.
Context {S : Type} (w : World S) `{CB : !CustodyBackend w}.
Variable proc_exe : N → option string.
Variable sha256_ : list N → list N.
Variable encode : list N → string.
Variable m : BackendManager.
Variable limits : BrokerLimits.
Variable x : Extensions.
Variable served : nat → Generation.

(** Whatever generation is loaded, it resolves the peer to [actor], on a host
    listener, and allows it [op] on the key and software custody. *)
Definition serves (actor : AuthenticatedActor) (op : Op) (key_id : string) : Prop :=
  (∃ l, ext_listener x = Some l ∧ listener_type l = Host) ∧
  ∀ n, gen_resolve_local_actor sha256_ encode (served n) (peer_from_extensions proc_exe x)
         = Ok actor ∧
       is_allow (decide_key (gen_pdp (served n)) actor op key_id) = true ∧
       is_allow (decide_key (gen_pdp (served n)) actor UseSoftwareCustody key_id) = true.

(** The client's call: the handler, run in state [s]. *)
Definition unwrap_rpc (s : S) (key_id : string) (e : PbKemEnvelope) (aad : option bytes_)
    : option bytes_ :=
  match (srun w served 0
           (grpc_unwrap_envelope proc_exe sha256_ encode m limits x key_id
              (Some (wire_envelope e)) aad) s).1 with
  | Ok plaintext => Some plaintext
  | Err _ => None
  end.

Lemma resolved_uid g peer actor :
  gen_resolve_local_actor sha256_ encode g peer = Ok actor → ∃ uid, unix_uid actor = Some uid.
Proof.
  unfold gen_resolve_local_actor, resolve_local_actor. destruct (peer_uid peer) as [uid |] eqn:Hu; [| done].
  unfold resolve_unix_actor, resolve_evidence_actor. intros H. inv_ok H.
  match goal with H : _ = Ok ?a |- context [actor_presenter ?a] => inv_ok H end.
  destruct (res_subject _); [| done]. simplify_eq/=. unfold unix_uid. simpl. eauto.
Qed.

(** The steps of a served handler. *)
Lemma srun_authorize {A} actor op key_id (f : AuthenticatedActor → Svc (result Status A)) n s :
  serves actor op key_id →
  srun w served n (sebind (authorize proc_exe sha256_ encode x op key_id) f) s =
  srun w served (Datatypes.S n) (f actor) s.
Proof.
  intros ((l & Hl & Ht) & Hs). destruct (Hs n) as (Ha & Hd & _).
  unfold authorize, authorize_in_generation, authorize_extensions_in_generation_detailed.
  simpl. rewrite Ha. unfold enforce_listener_domain_extensions, enforce_listener_domain_info.
  rewrite Hl, Ht. simpl. by destruct (decide_key _ _ _ _).
Qed.

Lemma srun_gate {A} actor op key_id (f : ProviderGate → Svc A) n s :
  serves actor op key_id →
  srun w served n (sbind (provider_gate actor key_id) f) s =
  srun w served (Datatypes.S n) (f {| local_software_allowed := true |}) s.
Proof. intros (_ & Hs). destruct (Hs n) as (_ & _ & Hg). simpl. by rewrite Hg. Qed.

Lemma srun_slift {E A B} (a : A) (f : A → Svc (result E B)) n s :
  srun w served n (sebind (slift (Ok a)) f) s = srun w served n (f a) s.
Proof. done. Qed.

(** The handler opens an envelope addressed to a custodied key. *)
Lemma unwrap_rpc_opens s actor key_id r storage suite seed public encapsulated nonce ct aad
    plaintext :
  serves actor Policy.Decrypt key_id → software_key m key_id r storage → r_class r = Sealing →
  require_ml_kem_sealing_key key_id (r_key_type r) (suite_kem suite) = Ok tt →
  key_custodied w s key_id r (KemAlgorithm_token (suite_kem suite)) storage seed public →
  length nonce = KEM_NONCE_LEN → (N.of_nat (length ct) <= max_encrypt_size limits)%N →
  ml_kem_open seed
    {| mk_kem_algorithm := suite_kem suite; mk_envelope_algorithm := EnvAes256Gcm;
       mk_encapsulated_key := encapsulated; mk_nonce := nonce; mk_ciphertext := ct |} aad
    = Ok plaintext →
  unwrap_rpc s key_id
    {| pe_kem_algorithm := suite; pe_envelope_algorithm := ChunkAes256Gcm; pe_key_version := 0;
       pe_encapsulated_key := encapsulated; pe_nonce := nonce; pe_ciphertext := ct |} (Some aad)
    = Some plaintext.
Proof.
  intros Hserve Hkey Hc Hl Hcust Hn Hlen Ho. unfold unwrap_rpc, grpc_unwrap_envelope.
  rewrite (srun_authorize actor) by done. pose proof Hserve as [_ Hs].
  destruct (resolved_uid _ _ _ (proj1 (Hs 0%nat))) as [uid Hu].
  unfold require_unix_uid. rewrite Hu. cbn [ok_or]. rewrite !srun_slift.
  cbn [wire_envelope wk_kem_algorithm wk_envelope_algorithm wk_ciphertext wk_encapsulated_key
       wk_nonce pe_kem_algorithm].
  assert (ensure_supported_kem_algorithm (proto_kem_algorithm suite) "unwrap_envelope" =
          Ok (SupportedMlKem (suite_kem suite))) as -> by by destruct suite.
  rewrite srun_slift. cbn [ensure_supported_envelope_algorithm]. rewrite srun_slift.
  cbn [pe_ciphertext pe_nonce pe_encapsulated_key].
  unfold exceeds. destruct (N.ltb_spec (max_encrypt_size limits) (N.of_nat (length ct))); [lia |].
  cbn [wire_ml_kem_algorithm provider_envelope_algorithm]. rewrite srun_slift.
  rewrite (srun_gate actor Policy.Decrypt key_id) by done. unfold asked_provider. cbn [sbind manager srun].
  rewrite (run_provider_unwrap w m key_id r storage (suite_kem suite)
    {| local_software_allowed := true |} Hkey eq_refl Hc Hl s EnvAes256Gcm seed public _ _ plaintext);
    done.
Qed.

(** Provisioning an ML-KEM key through its handler. *)
Lemma new_key_rpc s actor key_id r storage suite :
  serves actor Policy.NewKey key_id → software_key m key_id r storage → r_class r = Sealing →
  r_key_type r = Some (suite_key_type suite) → kv_at s (r_name r) (r_path r) = None →
  ∃ seed s1, length seed = KEM_SEED_LEN ∧
    srun w served 0 (grpc_new_key proc_exe sha256_ encode m x key_id
                       (proto_key_type (ml_kem_wire_key_type (suite_kem suite)))) s =
      (Ok {| nk_key_id := key_id; nk_public_key := kem_public (MlKemSuite_params suite) seed |}, s1) ∧
    key_custodied w s1 key_id r (KemAlgorithm_token (suite_kem suite)) storage seed
      (kem_public (MlKemSuite_params suite) seed).
Proof.
  intros Hserve Hkey Hc Ht Hnone. pose proof Hkey as (Hr & _). pose proof Hserve as [_ Hs].
  destruct (run_provider_generate_sealing w m key_id r storage (suite_kem suite)
    {| local_software_allowed := true |} Hkey eq_refl Hc ltac:(rewrite Ht; by destruct suite) s Hnone)
    as (seed & s1 & Hl & Hrun & Hcust).
  assert (kem_params (suite_kem suite) = MlKemSuite_params suite) as Hp by by destruct suite.
  rewrite Hp in *. exists seed, s1. split_and!; try done. unfold grpc_new_key.
  rewrite (srun_authorize actor) by done.
  destruct (resolved_uid _ _ _ (proj1 (Hs 0%nat))) as [uid Hu].
  unfold require_unix_uid. rewrite Hu. cbn [ok_or]. rewrite srun_slift.
  unfold ml_dsa_algorithm_for, ml_kem_algorithm_for. rewrite Hr, Ht.
  assert (ml_dsa_signature_algorithm (suite_key_type suite) = None) as -> by by destruct suite.
  assert (ml_kem_provider_algorithm (suite_key_type suite) = Some (suite_kem suite)) as ->
    by by destruct suite.
  assert (ensure_ml_kem_key_type_matches
    (proto_key_type (ml_kem_wire_key_type (suite_kem suite))) (suite_kem suite) "new_key" = Ok tt)
    as -> by by destruct suite.
  rewrite srun_slift, (srun_gate actor Policy.NewKey key_id) by done.
  unfold asked_provider. cbn [sbind manager srun]. by rewrite Hrun.
Qed.

(** C13: post-quantum streams work end to end.  Provision an ML-KEM sealing key
    through [NewKey]; encrypt any plaintext to the public key it returned;
    decrypt the container through the broker's [UnwrapEnvelope]: the result is
    the plaintext, however reader and container are cut into pieces.  This
    holds on a host listener, as long as every generation served resolves the
    caller to the same actor and allows it both operations and software
    custody on the key; for a key of class [Sealing] whose catalog entry has
    the suite's algorithm, software custody and a storage key, and does not
    require a backend provider; when nothing was ever stored at the key's path
    (a second provisioning leaves a record no use accepts) and
    [max_encrypt_size] admits the 48 bytes of a sealed content key; for
    plaintexts of less than [2^64 - 1] bytes, chunks of 1 to [MAX_CHUNK_SIZE]
    bytes and random values of their sizes. *)
Theorem stream_through_broker s actor key_id r storage suite :
  serves actor Policy.NewKey key_id → serves actor Policy.Decrypt key_id →
  software_key m key_id r storage → r_class r = Sealing →
  r_key_type r = Some (suite_key_type suite) → kv_at s (r_name r) (r_path r) = None →
  (N.of_nat (CEK_LEN + TAG_LEN) <= max_encrypt_size limits)%N →
  ∃ created s1,
    srun w served 0 (grpc_new_key proc_exe sha256_ encode m x key_id
                       (proto_key_type (ml_kem_wire_key_type (suite_kem suite)))) s =
      (Ok created, s1) ∧
    ∀ p rd chunk rnd kem_rnd nonce,
      (N.of_nat (length p) < 2 ^ 64 - 1)%N → delivers rd p → (1 <= chunk <= MAX_CHUNK_SIZE)%N →
      random_ok rnd → length nonce = STREAM_NONCE_LEN →
      ∃ container,
        encrypt_ml_kem rd suite (nk_public_key created) chunk rnd kem_rnd nonce =
          Some (container, Ok tt) ∧
        ∀ rd', delivers rd' container →
          decrypt_ml_kem rd' (BrokerCekRecovery (unwrap_rpc s1) key_id suite) = Some (p, Ok tt).
Proof.
  intros Hnew Hdec Hkey Hc Ht Hnone Hcap.
  destruct (new_key_rpc s actor key_id r storage suite) as (seed & s1 & Hl & Hrun & Hcust); try done.
  eexists _, s1. split; [exact Hrun |]. intros p rd chunk rnd kem_rnd nonce Hp Hrd Hch Hrnd Hn.
  destruct (ml_kem_container p rd suite seed chunk rnd kem_rnd nonce Hp Hrd Hch Hrnd Hn)
    as (env & container & _ & Hne & Hct & Hopen & Henc & Hdecr).
  exists container. split; [done |]. intros rd' Hrd'. apply Hdecr; [| done].
  unfold BrokerCekRecovery.
  rewrite (unwrap_rpc_opens s1 actor key_id r storage suite seed
    (kem_public (MlKemSuite_params suite) seed) _ _ _ _ (rnd_cek rnd)); try done.
  - cbn [ok_or]. destruct Hrnd as (-> & _). done.
  - rewrite Ht. by destruct suite.
  - by rewrite Hne, Hn.
  - by rewrite Hct.
  - by apply open_cek_local_open, Hopen.
Qed.
End broker.
