(* ===== verification/Scenario.v ===== *)
(** * A concrete broker, run

    A catalog with two software-custodied keys, an operator with a policy, the
    concrete backend, and the services run on them: instances at which the
    end-to-end theorems hold. *)

From S2P Require Import Prelude RustStr Bytes BTreeMap Glob Policy Evidence Nkey Schema CatalogLoader.
From S2P Require Import Json Accounts SubjectLoader PolicyLoader Actor Pdp Authorization Decision.
From S2P Require Import RustCrypto CoseTypes Cbor CoseCodec CoseCbor CoseProfile LocalCrypto Xkey.
From S2P Require Import Stream StreamProofs Backend CryptoProvider CustodyProofs Manager.
From S2P Require Import ManagerProofs Transport Service ServiceProofs Sample EndToEnd.

Definition pq_labels : Labels :=
  ["crypto_provider_policy=local-software"; "pqc_custody=software-encrypted";
   "pqc_storage_key=wrap"].

Definition pq_key (c : Class_) (t : KeyAlgorithm) (p : string) : KeyEntry :=
  {| class := c; key_type := Some t; backend := "bao"; engine := None; path := p;
     public_path := None; writable := true; missing := MissingError; nix_cache := None;
     generate := None; sealing_pin := None; Schema.labels := pq_labels; description := "" |}.

Definition pq_catalog : Catalog :=
  {| backends := [("bao", {| kind := Vault; addr := "https://bao"; engines := [];
                             capabilities := []; mint_key_types := []; requires := [] |})];
     keys_ := [("pq.seal", pq_key Sealing MlKem768 "pq/seal");
               ("pq.sign", pq_key Asymmetric MlDsa65 "pq/sign")] |}.

Definition pq_manager : BackendManager :=
  {| catalog := pq_catalog;
     instances := [("bao", {| bi_kind := "vault"; supports_native_algorithm := λ _, false |})] |}.

(** The operator, uid 7, may do [actions] on the post-quantum keys. *)
Definition pq_policy (actions : list string) : PolicyInput :=
  {| in_subjects := in_subjects sample_policy; in_roles := [];
     in_rules :=
       [{| raw_id := "pq"; raw_rule_subjects := ["operator"]; raw_action := actions;
           raw_target := ["pq.**"]; raw_comment := None |}];
     in_config := in_config sample_policy |}.

Definition pq_generation (id : N) (actions : list string) : Generation :=
  match load sample_env
          {| catalog_from_str := λ _, Ok sample_catalog;
             policy_from_str := λ _, Ok (pq_policy actions); value_from_str := λ _, None |}
          "c" "p" with
  | Ok l => {| gen_id := id; gen_catalog := pq_catalog; gen_policy := loaded_policy l;
               gen_config := loaded_config l |}
  | Err _ => {| gen_id := id; gen_catalog := pq_catalog;
                gen_policy := {| subjects := []; rules := [] |};
                gen_config := in_config sample_policy |}
  end.

Definition operator_peer : PeerInfo :=
  {| peer_pid := None; peer_uid := Some 7%N; peer_gid := None; peer_executable := None;
     peer_attestation_class := "PeerCred"; peer_subject_id := None;
     peer_signature_valid := false; peer_display_label := None |}.

Definition operator_request : Extensions :=
  {| ext_peer := Some operator_peer;
     ext_listener := Some {| connection_id := 1; listener_name := "host"; listener_type := Host;
                             listener_peer := operator_peer |};
     ext_uds := None |}.

Definition pq_limits : BrokerLimits :=
  {| max_encrypt_size := 1048576; max_payload_size := 1048576; grace_versions := 1;
     svid_ttl_secs := 300; retain_versions := None |}.

Definition empty_store : Store := {| kv := []; counter := 0 |}.

Definition custody_only : Generation := pq_generation 2 ["op:use_software_custody"].

(** ** Instances of the end-to-end theorems *)

Definition pq_full : Generation :=
  pq_generation 1 ["op:new_key"; "op:decrypt"; "op:use_software_custody"].

Definition pq_actor : result SubjectResolutionError AuthenticatedActor :=
  gen_resolve_local_actor (λ bs, bs) of_bytes pq_full operator_peer.

Definition pq_route (key_id : string) (e : KeyEntry) : Routed :=
  {| r_name := "bao";
     r_backend := {| bi_kind := "vault"; supports_native_algorithm := λ _, false |};
     r_entry := e;
     r_backend_ref := {| kind := Vault; addr := "https://bao"; engines := [];
                         capabilities := []; mint_key_types := []; requires := [] |};
     r_engine := effective_engine e |}.

Lemma signing_key_life_witness :
  ∃ created s1,
    run sample_world
      (provider_generate pq_manager "pq.sign" {| local_software_allowed := true |}) empty_store =
      (Ok (created, provider_dispatch LocalSoftware SaMlDsa65), s1).
Proof.
  destruct (signing_key_life sample_world pq_manager "pq.sign"
    (pq_route "pq.sign" (pq_key Asymmetric MlDsa65 "pq/sign")) "wrap" SaMlDsa65
    {| local_software_allowed := true |} empty_store) as (created & s1 & H & _);
    [split_and!; [reflexivity .. | discriminate] | reflexivity .. |].
  exists created, s1. exact H.
Defined.

Lemma stream_through_broker_witness :
  ∃ created s1,
    srun sample_world (λ _, pq_full) 0
      (grpc_new_key (λ _, None) (λ bs, bs) of_bytes pq_manager operator_request "pq.seal" 8)
      empty_store = (Ok created, s1).
Proof.
  destruct pq_actor as [actor |] eqn:E; [| vm_compute in E; discriminate E].
  destruct (stream_through_broker (HP := toy_primitives) sample_world (λ _, None) (λ bs, bs) of_bytes pq_manager pq_limits
    operator_request (λ _, pq_full) empty_store actor "pq.seal"
    (pq_route "pq.seal" (pq_key Sealing MlKem768 "pq/seal")) "wrap" SuiteMlKem768)
    as (created & s1 & H & _).
  - split; [eexists; split; reflexivity |]. intros n. split; [exact E |].
    vm_compute in E. injection E as <-. vm_compute. split; reflexivity.
  - split; [eexists; split; reflexivity |]. intros n. split; [exact E |].
    vm_compute in E. injection E as <-. vm_compute. split; reflexivity.
  - split_and!; [reflexivity .. | discriminate].
  - reflexivity.
  - reflexivity.
  - reflexivity.
  - discriminate.
  - exists created, s1. exact H.
Defined.

(** A plain transit key, rotated to version 7 with a window of one. *)
Definition transit_manager : BackendManager :=
  {| catalog := sample_catalog;
     instances := [("bao", {| bi_kind := "vault"; supports_native_algorithm := λ _, false |})] |}.

Definition transit_route : Routed :=
  {| r_name := "bao";
     r_backend := {| bi_kind := "vault"; supports_native_algorithm := λ _, false |};
     r_entry := sample_key;
     r_backend_ref := {| kind := Vault; addr := "https://bao"; engines := [Transit];
                         capabilities := []; mint_key_types := []; requires := [] |};
     r_engine := effective_engine sample_key |}.

Lemma rotate_applies_grace_witness :
  run sample_world (manager_rotate (λ b, b) (λ _ _ _, Err "") transit_manager "web.tls" pq_limits)
    empty_store = (Ok 7%N, empty_store).
Proof.
  destruct (rotate_applies_grace (λ b, b) (λ _ _ _, Err "") transit_manager sample_world pq_limits
    "web.tls" transit_route empty_store) as [_ H]; [reflexivity | discriminate |].
  destruct (H (list_elem_of_here _ _)) as (_ & _ & Hn).
  destruct (Hn eq_refl ltac:(discriminate) empty_store) as [_ Hv].
  destruct (Hv 7%N ltac:(discriminate) eq_refl) as (floor & _ & Ha).
  exact (Ha (Ok tt) empty_store eq_refl).
Defined.

Lemma denied_is_opaque_witness :
  wp (λ _ _ _ _, False) [Loaded custody_only]
    (serve (HP := toy_primitives) (HM := rfc8949) (λ b, b) (λ _ _ _, Err "") (λ _, None) (λ bs, bs)
       of_bytes pq_manager pq_limits operator_request custody_only (SignRpc "no.such.key" 0 [1%N]))
    (λ _ res, res = Err (refusal (λ _, None) (λ bs, bs) of_bytes operator_request custody_only
                           Policy.Sign)).
Proof.
  apply (denied_is_opaque (HP := toy_primitives) (HM := rfc8949)) with (id := "no.such.key");
    [reflexivity |].
  intros actor Ha. vm_compute in Ha. injection Ha as <-. vm_compute. reflexivity.
Defined.
