(* ===== verification/InvocationScenario.v ===== *)
(** * A sealed invocation, run

    A broker with one subject, a client of it and an environment that answers
    their effects: the client fetches a challenge, seals a sign request, the
    broker answers it, and the message sent again is refused.  Instances at
    which the theorems about invocations hold. *)

From stdpp Require Import gmap.
From S2P Require Import Prelude RustStr Bytes BTreeMap Glob Policy Evidence Nkey Schema Actor Pdp.
From S2P Require Import Authorization Decision Challenge RunQuota Json RustCrypto CoseTypes Cbor.
From S2P Require Import CoseCodec InvocationBody CoseCbor CoseProfile CoseDisplay SealedClient.
From S2P Require Import CoseProfileProofs LocalCrypto Xkey Backend CryptoProvider CiFederation.
From S2P Require Import CiVerify JwksCache CiAudit Manager Transport Service InvocationService.
From S2P Require Import InvocationProofs InvocationReplay InvocationSigning InvocationClient.
From S2P Require Import Scenario.

#[local] Existing Instance toy_primitives.
#[local] Existing Instance toy_signatures.
#[local] Existing Instance rfc8949.

(** Text for base 64, and no provider's token verifies. *)
#[local] Instance plain_crates : FederationCrates := {|
  Url_parse _ := None;
  b64url_encode := of_bytes;
  b64url_decode s := Some (bytes s);
  hmac_sha256 _ _ := None;
  json_from_slice _ := None;
  decode_header _ := None;
  jwt_decode _ _ _ _ _ := None;
|}.

(** ** The broker *)

Definition ci_key : string := "ci-signing-key-of-thirty-2-bytes".
Definition reply_secret : bytes_ := repeat 5%N 32.
Definition request_secret : bytes_ := repeat 6%N 32.

Definition inv_key (c : Class_) (t : KeyAlgorithm) (labels : Labels) : KeyEntry :=
  {| class := c; key_type := Some t; backend := "bao"; engine := None; path := "p";
     public_path := None; writable := false; missing := MissingError; nix_cache := None;
     generate := None; sealing_pin := None; Schema.labels := labels; description := "" |}.

Definition inv_catalog : Catalog :=
  {| backends := backends pq_catalog;
     keys_ := [("app.sign", inv_key Asymmetric Schema.Ed25519 []);
               ("broker.request", inv_key Sealing X25519 []);
               ("broker.response", inv_key Asymmetric Schema.Ed25519 []);
               ("ci.reply", inv_key Sealing X25519 ["broker_key_use=response-encryption"])] |}.

Definition inv_grant (op : Op) (segs : list GlobSeg) : Grant :=
  {| grant_op := op; grant_target := Pattern segs; grant_rule_id := "ci"; grant_action := "" |}.

(** The subject [ci] signs with its key; it may ask for decryption with the
    broker's request key and for signatures of [app.sign]. *)
Definition inv_generation : InvGeneration :=
  {| ig_generation :=
       {| gen_id := 4; gen_catalog := inv_catalog;
          gen_policy :=
            {| subjects :=
                 [("ci", {| subject_domain_of := HostProcess; break_glass := false;
                            match_ := Leaf (InvocationSignatureKey SigEd25519 ci_key) |})];
               rules :=
                 [{| resolved_subjects := ["ci"];
                     resolved_grants :=
                       [inv_grant Policy.Decrypt [Literal "broker"; Literal "request"];
                        inv_grant Policy.Sign [Literal "app"; Literal "sign"]] |}] |};
          gen_config := {| names := {| users := []; groups := [] |}; memberships := [] |} |};
     ig_federation := None; ig_provider_clients := [] |}.

Definition inv_config : InvocationConfig :=
  {| ic_enabled := true;
     ic_broker_identity :=
       Some {| identity_id := "broker-1"; response_signing_key_id := "broker.response" |};
     ic_audiences := ["broker-1"]; ic_request_encryption_key_id := Some "broker.request";
     ic_max_ttl_secs := 300; ic_clock_skew_secs := 30; ic_require_challenge := true;
     ic_listener_type := Host; ic_listener_name := "host" |}.

(** What answers the effects of a request. *)
Definition env_answer (t : ChallengeTable) {R} (e : InvEff R) : R * ChallengeTable :=
  match e with
  | ELoad => (inv_generation, t)
  | ENow => (1000%N, t)
  | EGate => (GateHeld, t)
  | EIssue jkt source generation now =>
      let '(t', r) := issue t jkt source generation now (sample_entropy 7) sample_alloc in
      (Some r, t')
  | EConsume challenge jkt generation now =>
      let '(t', r) := consume t challenge jkt generation now in (r, t')
  | EUuid => (repeat 9%N 16, t)
  | EFill n => (Some (repeat 3%N n), t)
  | ESealingKey _ => (Ok (x25519_public reply_secret), t)
  | EUnseal _ cose aad =>
      (match open_local {| x_private := request_secret;
                           x_key_id := {| key_id_bytes := bytes "broker.request" |} |}
               {| cose_encrypt := cose; external_aad := aad; expected_parties := None |} with
       | Ok plaintext => Ok plaintext
       | Err _ => Err (UnknownKey "open")
       end, t)
  | ESign key message => (Ok (ed25519_sign (bytes key) message), t)
  | ERecord _ | EAuditStart _ | EAudit _ | EAuditFinish _ _ _ | EAuditDrop => (tt, t)
  | ECharge _ _ _ _ | EServe _ _ _ _ | EInstall _ _ _ _ | EGet _ _ | ECorrelation => (None, t)
  | ETimestamp => ("1970-01-01T00:16:40Z", t)
  end.

(** ** Running threads *)

#[local] Abbreviation start := (start (λ _, None) (λ _, None) (λ _ _ _, false) (λ b, b) inv_config).
#[local] Abbreviation sys_step :=
  (sys_step (λ _, None) (λ _, None) (λ _ _ _, false) (λ b, b) inv_config).

Fixpoint advance (n : nat) (t : ChallengeTable) (th : Thread) : ChallengeTable * Thread :=
  match n with
  | 0 => (t, th)
  | S n =>
      match th_rest th with
      | IRet _ => (t, th)
      | IDo e k =>
          let '(r, t') := env_answer t e in
          advance n t'
            {| th_call := th_call th; th_past := Did e r :: th_past th; th_rest := k r |}
      end
  end.

Lemma env_table_answer t R (e : InvEff R) : table_answer t e (env_answer t e).1 (env_answer t e).2.
Proof.
  destruct e; try done; cbn.
  - destruct (issue _ _ _ _ _ _ _) as [t' v] eqn:E. right.
    exists (sample_entropy 7), sample_alloc, v. split_and!; [apply sample_entropy_ok | done | done].
  - by destruct (consume _ _ _ _ _).
Qed.

Lemma advance_steps n t ths i th :
  ths !! i = Some th →
  rtc sys_step (t, ths) ((advance n t th).1, <[i := (advance n t th).2]> ths).
Proof.
  revert t ths th. induction n as [| n IH]; intros t ths th Hi; cbn.
  { rewrite list_insert_id by done. reflexivity. }
  destruct (th_rest th) as [a | R e k] eqn:Hr; [rewrite list_insert_id by done; reflexivity |].
  pose proof (env_table_answer t R e) as Ht. destruct (env_answer t e) as [r t']. cbn in Ht.
  eapply rtc_l; [by eapply sys_effect |].
  set (th' := {| th_call := th_call th; th_past := _; th_rest := _ |}).
  assert (<[i := th']> ths !! i = Some th') as Hi'
    by (apply list_lookup_insert_eq; by eapply lookup_lt_Some).
  specialize (IH t' _ _ Hi'). by rewrite list_insert_insert_eq in IH.
Qed.

(** A request arrives and runs to its end. *)
Definition serve (s : ChallengeTable * list Thread) (call : Call) : ChallengeTable * list Thread :=
  let '(t, th) := advance 100 s.1 (start call) in (t, s.2 ++ [th]).

Lemma serve_steps s call : rtc sys_step s (serve s call).
Proof.
  destruct s as [t ths]. unfold serve. cbn [fst snd].
  eapply rtc_l; [apply (sys_arrive _ _ _ _ _ t ths call) |].
  pose proof (advance_steps 100 t (ths ++ [start call]) (length ths) (start call)) as H.
  destruct (advance 100 t (start call)) as [t' th]. cbn [fst snd] in H.
  rewrite insert_app_r_alt, Nat.sub_diag in H by lia. apply H.
  rewrite lookup_app_r by lia. by rewrite Nat.sub_diag.
Qed.

(** ** The client *)

Definition ci_peer : PeerInfo :=
  {| peer_pid := None; peer_uid := Some 7%N; peer_gid := None; peer_executable := None;
     peer_attestation_class := "PeerCred"; peer_subject_id := None;
     peer_signature_valid := false; peer_display_label := None |}.

Definition ci_connection : Extensions :=
  {| ext_peer := Some ci_peer;
     ext_listener := Some {| connection_id := 1; listener_name := "host"; listener_type := Host;
                             listener_peer := ci_peer |};
     ext_uds := None |}.

Definition ci_signer : Ed25519Signer :=
  {| ed_secret := bytes ci_key; ed_key_id := {| key_id_bytes := bytes "ci" |} |}.


Definition ci_options (challenge : bytes_) : SealedInvocationOptions :=
  {| so_message_id := "m-1"; so_issued_at_unix := 990; so_expires_at_unix := Some 1050%N;
     so_sender_sign_id := "ci"; so_sender_subject := Some "ci";
     so_recipient_key_id := "broker.request"; so_recipient_subject := Some "broker-1";
     so_response_encryption_key_id := "ci.reply"; so_freshness_challenge := Some challenge |}.

Definition ci_challenge : bytes_ := sample_id ++ repeat 7%N 16.

Definition ci_prepared : result SealedInvocationError PreparedSealedInvocation :=
  prepare_sealed_invocation (ci_options ci_challenge) (x25519_public request_secret) sample_sign_request
    ci_signer (Some (repeat 4%N 32)) (Some (repeat 8%N NONCE_LEN)).

Definition ci_message : bytes_ :=
  match ci_prepared with Ok p => ps_message p | Err _ => [] end.

(** The client asks for a challenge and sends its request twice. *)
Definition challenged : ChallengeTable * list Thread :=
  serve (sample_table, []) (CallChallenge ci_connection
    {| cr_jkt := proof_key_thumbprint (bytes ci_key); cr_courier_observed_source := None |}).
Definition invoked : ChallengeTable * list Thread :=
  serve challenged (CallInvoke ci_connection ci_message).
Definition replayed : ChallengeTable * list Thread :=
  serve invoked (CallInvoke ci_connection ci_message).

Definition message_claims (message : bytes_) : option Claims :=
  match decode_sign1_strict message SealedOuter with
  | Ok outer =>
      match decode_encrypt_strict (s_payload outer) ClaimsRequired with
      | Ok embedded => e_claims embedded
      | Err _ => None
      end
  | Err _ => None
  end.

Lemma message_claims_bears message claims c :
  message_claims message = Some claims → freshness_challenge claims = Some c →
  bears message (challenge_bytes c).
Proof.
  unfold message_claims. intros H Hf.
  destruct (decode_sign1_strict _ _) as [outer |] eqn:Ho; [| done].
  destruct (decode_encrypt_strict _ _) as [embedded |] eqn:He; [| done].
  by exists outer, embedded, claims, c.
Qed.

Lemma scenario_run : rtc sys_step (sample_table, []) replayed.
Proof.
  transitivity challenged; [apply serve_steps |].
  transitivity invoked; [apply serve_steps | apply serve_steps].
Qed.

Lemma first_decrypted : ∃ th, replayed.2 !! 1 = Some th ∧ decrypted ci_challenge th.
Proof.
  assert (option_map th_call (replayed.2 !! 1) = Some (CallInvoke ci_connection ci_message)) as Hc
    by (vm_compute; reflexivity).
  assert (option_map (λ th, existsb unseals (th_past th)) (replayed.2 !! 1) = Some true) as Hu
    by (vm_compute; reflexivity).
  destruct (replayed.2 !! 1) as [th |]; [| done]. injection Hc as Hc. injection Hu as Hu.
  apply existsb_exists in Hu as (d & Hd & Hu). exists th. split; [done |].
  exists ci_connection, ci_message, d. split_and!; [done | | by apply list_elem_of_In | done].
  assert (message_claims ci_message ≫= freshness_challenge =
            Some {| challenge_bytes := ci_challenge |}) as Hf by (vm_compute; reflexivity).
  apply bind_Some in Hf as (claims & Hcl & Hf). by apply (message_claims_bears _ _ _ Hcl Hf).
Qed.

(** The first request is decrypted under the one challenge that was issued;
    the second is not. *)
Lemma challenge_admits_once_witness :
  existsb unseals (from_option th_past [] (replayed.2 !! 2)) = false ∧
  length [1] ≤ times_all (issues ci_challenge) replayed.2.
Proof.
  split; [by vm_compute |].
  apply (challenge_admits_once (λ _, None) (λ _, None) (λ _ _ _, false) (λ b, b) inv_config
           (config sample_table) (Some sample_id) replayed.1 replayed.2 ci_challenge [1]).
  - by intros i [= <-].
  - rewrite <- surjective_pairing. apply scenario_run.
  - apply NoDup_singleton.
  - apply list.Forall_singleton, first_decrypted.
Defined.

(** ** The answer *)

#[local] Abbreviation invoke := (invoke (λ _, None) (λ _, None) (λ _ _ _, false) inv_config ci_connection).












(** A verifier that accepts the texts on its list: an ideal signature. *)
Record Notary := { attested : list bytes_ }.
#[local] Instance Notary_Verifier : Verifier Notary := {|
  CoseProfile.verify v _ _ _ m _ :=
    if bool_decide (m ∈ attested v) then Ok tt else Err SignatureInvalid;
|}.

























